(* ===== verification/_CoqProject ===== *)
-Q . S2P
Prelude.v
RustStr.v
RustFloat.v
Occ1.v
Fields.v
Contract.v
Delta.v
DeltaTracker.v
DeltaCodec.v
Consolidation.v
Prune.v
LineDiff.v
DiffString.v
FileMutationQueue.v
EditApply.v
Truncate.v
Watchdog.v
AgentTypes.v
AgentMonad.v
ToolCalls.v
StreamResponse.v
AgentLoop.v
AgentFuel.v
AgentTermination.v
Agent.v
TransformMessages.v
Requests.v
SessionIndex.v
SessionContext.v
SessionFork.v
CompactionRetry.v
CompactionCut.v
SessionStore.v
AssistantProtocol.v
JsonText.v
JsonCodec.v
JsonRepair.v
PartialJson.v
JsonPreview.v
JsonStream.v
SseReader.v
AnthropicStream.v
CompactStream.v
CommandJournal.v
SessionLease.v
Calendar.v
Cron.v
CronJobs.v
ExecutionScope.v
AgentScript.v
SessionScript.v
