(* ===== verification/Prelude.v ===== *)
(** * Optimus Agent: a verification library

    Optimus Agent is a coding agent in Rust: a loop that sends a transcript to a language
    model, runs the tools the model asks for and appends what they return
    ([src/crates/pi-agent-core]), around it a session kept in a file, tools that edit
    files, and messages between agents ([src/crates/pi-coding-agent/src/core]), and
    underneath the clients of the model providers ([src/crates/pi-ai]).  This library
    translates the parts that carry the program's own logic into Rocq and proves what they
    are relied on for.  Definitions keep the names of the source; what is outside the
    sources (providers, the file system, the clock, [serde_json], SHA-256, [chrono]) is a
    parameter, an argument, or a script of outcomes over which the theorems quantify.

    ** The parts and their files

    _Shared._  This file: results and [?], loops that may return early, tactics, hints.
    [RustStr]: strings as lists of Unicode scalar values with the operations the sources
    use.  [RustFloat]: binary32 numbers, their printing and parsing.

    _The agent loop_ ([pi-agent-core/src/agent_loop.rs], [types.rs], [agent.rs],
    [stream_watchdog.rs]).  [AgentTypes]: messages, events, hooks and the host (everything
    the loop awaits).  [AgentMonad]: the loop's effects - state, errors, fuel, a trace -
    and its primitives of cancellation, with weakest-precondition rules.  [ToolCalls]: the
    tool calls of one reply, sequential or concurrent in every interleaving.
    [StreamResponse]: one request to a provider under the stall watchdog ([Watchdog]: its
    limits).  [AgentLoop]: turns and runs.  [Agent]: the object around the loop: queues,
    steering, the reducer of events, the lifecycle of a run.  [AgentFuel],
    [AgentTermination]: more fuel changes nothing, and a host that offers finitely much
    makes every run end.  [AgentScript]: a host that plays back a script, and the
    instances of the theorems on it.

    _Requests_ ([pi-ai/src/providers/transform_messages.rs]).  [TransformMessages]: what a
    transcript becomes when it is sent: renamed calls, repaired pairs of calls and results.
    [Requests]: the transcript of a run is always accepted as the next request.

    _Responses_ ([pi-ai/src/utils/json_parse.rs], [sse_frames.rs], [providers/anthropic.rs]).
    [JsonText]: JSON values, the grammar of their texts and what is relied on of
    [serde_json], as an interface.  [JsonRepair], [PartialJson], [JsonStream]: the repair of
    JSON, the parser of incomplete JSON and the accumulator of a call's arguments;
    [JsonPreview] proves what the parser returns for a part of a text.  [SseReader]:
    server-sent events from bytes.  [AssistantProtocol]: what a stream of assistant events
    promises, the interface between providers and those who follow them.
    [AnthropicStream]: the client of Anthropic's API, from events to messages.

    _Supervision_ ([modes/daemon/compact_session_stream.rs] with its callers in
    [daemon_mode.rs] and [native_supervisor.rs], [command_recovery_journal.rs],
    [core/session_lease.rs], [pi-agent-core/src/execution_scope.rs] with the receipts of
    [pi-ai/src/utils/event_stream.rs]).  [CompactStream]: a worker sends the updates of a
    message without the message, the supervisor rebuilds it for its clients.  [JsonCodec]:
    what is relied on of [serde_json] for records.  [CommandJournal]: the journal of
    commands and responses that makes a repeated command harmless, over a disk that may
    fail and tear appends.  [SessionLease]: the lease of a session file, system call by
    system call, by any number of processes.  [ExecutionScope]: who owns the tasks of tools
    and streams, and when they count as settled.

    _Scheduling_ ([pi-coding-agent/src/core/cron_jobs.rs]).  [Calendar]: dates and day
    numbers.  [Cron]: cron expressions and the next run.  [CronJobs]: the file of jobs, the
    scheduler's claims and recovery, and writers that merge what they changed.

    _Sessions_ ([pi-coding-agent/src/core/session_manager.rs], [utils/timed_flush.rs]).
    [SessionIndex]: entries, index, labels, branches and the tree view.  [SessionContext]:
    from a branch to the context of a request and to the transcript clients show.
    [SessionFork]: a new session from a branch.  [SessionStore]: the file of JSON lines
    with its write buffer, background flush, rewrite, rollback, repair and loading.
    [CompactionCut] ([core/compaction/compaction.rs]): which part of a branch a compaction
    summarizes and which it keeps.  [CompactionRetry]: when a failed compaction may be
    tried again.  [SessionScript]: examples and the instances of the theorems.

    _Tools_ ([pi-coding-agent/src/core/tools]).  [FileMutationQueue]: turns on files, as a
    transition system.  [EditApply]: applying edits to a text.  [LineDiff], [DiffString]:
    Myers' diff and how it is printed.  [Truncate]: keeping output within limits.

    _Messages between agents_ ([pi-coding-agent/src/core/occ]).  [Occ1]: the line codec;
    [Fields]: fields with numbered keys; [Contract]: typed messages; [Delta], [DeltaCodec],
    [DeltaTracker]: change-only updates, their encoding and the ordering of their stream;
    [Consolidation]: merging findings; [Prune]: suppressing what was already said.

    ** What the theorems show

    - Runs: every tool call of every reply is answered, once and in order; the events
      announce exactly the returned messages, and the agent's transcript built from the
      events equals them; nothing is started after cancellation was seen; partial results
      arrive in order; the run ends.  The next request built from its transcript is valid,
      when what was supplied is user messages, call ids differ and no checkpoint is foreign.
    - The agent: it is idle again after every run; steering messages are accepted and
      delivered once; queues are first-in first-out; continuing starts a run the loop accepts.
    - Responses: the same events are read however the bytes are cut, when lines end in LF;
      every stream of the client keeps the protocol of assistant events; what is shown of a
      call while its arguments arrive is true, when empty arrays are written without blanks,
      and the final arguments are those the model wrote, however the stream ends; parsing
      always returns, given a stack deep enough for the nesting of the text, and the work of
      the accumulator is linear beyond its first 8 KiB.  Clients of a supervised session are
      shown the worker's message, update by update.
    - Supervision: a command is dispatched again only after it was acknowledged, and a
      recorded response is replayed until it is acknowledged, also after crashes, as long as
      no append leaves part of a line behind; one live process at most holds a session,
      unless a guard is taken over from a live process that is slower than its time limit,
      and an undisturbed process settles; what a scope reports as settled has ended and stays
      so until a reset, and releasing what has ended is invisible, as long as streams start
      tasks only under receipts the scope owns.
    - Scheduling: the next run is the first named minute of the wall clock; a one-shot job
      runs at most once whatever crashes, and no job is dispatched twice at a time, as long
      as the clock advances.
    - Sessions: a branch is the ancestry of its entry and never changes afterwards; a
      context is the branch, or the last usable compaction with what it kept and what
      followed; a compaction loses no message and separates no call from the results that
      follow it without another message between; what was flushed survives any later failure
      or crash, and the file is brought up to date once the disk is well; forks keep the conversation unless a label stands in its
      middle, and then lose what is before it.
    - Tools: mutations of one file never overlap, keep their order and always progress;
      edits replace exactly the regions found and keep the rest of the file; the diff
      spells both texts and every printed row is true; truncation keeps the longest piece
      that fits.
    - Messages between agents: encoding and decoding are inverse, up to the decimals of
      confidences, the positional ids and the order of updates that the wire implies; the
      tracker of a delta stream is the set of sequences it has seen, applied exactly once, in any order of
      arrival and across a restart; consolidation keeps every finding; only what the
      history covers is suppressed.

    ** Bounds and fuel

    Loops of the agent loop that are not structural take fuel and end as [OutOfFuel] when
    it runs out; the stack is not limited anywhere.  [AgentFuel] shows that a result does
    not depend on the fuel and [AgentTermination] that enough fuel exists whenever the host
    offers finitely many events, requests and tool steps.  The search of the line diff and the walks of the
    session index have fuel of their own, proved sufficient where they are used
    ([diff_lines_faithful], [ancestry_spec], [walk_fuel]); the loops of [get_tree] are
    bounded by the number of entries, each of which is copied once.  The parser of
    incomplete JSON has fuel [parse_fuel], linear in the text ([parse_streaming_returns]),
    the reader of events [reader_fuel], in the bytes received ([reader_ignores_chunks]).  The
    search for a cron run has [search_fuel], the minutes of 370 days, enough for its 366 days
    in any zone within a day of UTC ([next_run_first]).  Counts that overflow
    or saturate in the source are [N] or [Z] with the operation written out; token
    estimates, which are floating-point numbers, are abstract.

    ** What is not modelled

    Performance metrics, log lines and listeners; the JSON of entries beyond the fields
    that are read; the migration of old session files, switching between files
    and child-usage attribution in memory; the texts, ledgers and provider calls of
    a compaction; argument parsing and file access of the tools; OCC-2, OCC-3 and dialect
    files; the other provider clients, the requests and the token accounting of this one,
    terminal interface, the rest of the daemon and RPC, which are mostly input and output;
    heartbeats, the files of jobs per session, schedules in words and file locks of the
    scheduler; the waiting of [settle] and the callbacks that close streams.  Next in the plan: switching and migrating session files, the
    event-log buffer that shares the timed flush, the accumulation of tool output, and the
    selection and queue of messages between agents. *)
From stdpp Require Import base list numbers gmap sorting strings.

(** ** Results

    Rust's [Result<T, E>], and the [?] operator as [let*]. *)

Inductive result (A E : Type) : Type :=
| Ok (a : A)
| Err (e : E).
Arguments Ok {A E} a.
Arguments Err {A E} e.

Declare Scope rust_scope.
Delimit Scope rust_scope with rust.

Notation "'let*' x ':=' c 'in' k" :=
  (match c with Ok x => k | Err err => Err err end)
  (at level 10, x pattern, c at level 100, k at level 200) : rust_scope.

Open Scope rust_scope.

(** [Option::ok_or]. *)
Definition ok_or {A E} (o : option A) (e : E) : result A E :=
  match o with Some a => Ok a | None => Err e end.

(** A [for] loop whose body may return early with an error. *)
Fixpoint rfold {A S E} (f : S → A → result S E) (s : S) (l : list A) : result S E :=
  match l with
  | [] => Ok s
  | a :: l' => let* s' := f s a in rfold f s' l'
  end.

(** A loop that pushes one element per iteration and may return early. *)
Fixpoint rmap {A B E} (f : A → result B E) (l : list A) : result (list B) E :=
  match l with
  | [] => Ok []
  | a :: l' => let* b := f a in let* bs := rmap f l' in Ok (b :: bs)
  end.

(** [Result::map_err]. *)
Definition map_err {A E F} (f : E → F) (r : result A E) : result A F :=
  match r with Ok a => Ok a | Err e => Err (f e) end.

Definition is_ok {A E} (r : result A E) : bool :=
  match r with Ok _ => true | Err _ => false end.

(** [Vec::len], a [usize]. *)
Definition len {A} (l : list A) : N := N.of_nat (length l).

(** ** Automation *)

Create HintDb optimus.

(** Split every [match]/[if] of a hypothesis that equates a computation with
    a constructor. *)
Ltac inv_ok H :=
  repeat (simplify_eq H ||
    (let E := fresh "E" in
     match type of H with
     | context [match ?x with _ => _ end] => destruct x eqn:E
     end));
  try discriminate H.

Ltac destruct_ok :=
  repeat match goal with
  | H : Ok _ = Ok _ |- _ => injection H as H; subst
  | H : Err _ = Ok _ |- _ => discriminate H
  | H : Ok _ = Err _ |- _ => discriminate H
  | H : (match ?x with _ => _ end) = Ok _ |- _ =>
      let E := fresh "E" in destruct x eqn:E; try discriminate H
  end.

(** ** Generic lemmas *)

Lemma bind_ok {A B E} (r : result A E) (k : A → result B E) b :
  (let* x := r in k x) = Ok b → ∃ x, r = Ok x ∧ k x = Ok b.
Proof. destruct r as [x|]; [eauto|done]. Qed.

Lemma rfold_app {A S E} (f : S → A → result S E) s l1 l2 :
  rfold f s (l1 ++ l2) = let* s' := rfold f s l1 in rfold f s' l2.
Proof.
  revert s. induction l1 as [|a l1 IH]; intros s; simpl; [done|].
  destruct (f s a); [apply IH|done].
Qed.

(** An invariant of the loop body is an invariant of the loop. *)
Lemma rfold_inv {A S E} (P : S → Prop) (f : S → A → result S E) s l s' :
  (∀ s a s', P s → a ∈ l → f s a = Ok s' → P s') →
  P s → rfold f s l = Ok s' → P s'.
Proof.
  intros Hstep. revert s. induction l as [|a l IH]; intros s Hs; simpl.
  { intros [= <-]. done. }
  destruct (f s a) as [s1|] eqn:Hf; [|done].
  apply IH.
  - intros ???? Hin. eapply Hstep; [done|by right].
  - eapply Hstep; [exact Hs|by left|exact Hf].
Qed.

Lemma rmap_Forall2 {A B E} (f : A → result B E) l k :
  rmap f l = Ok k ↔ Forall2 (λ a b, f a = Ok b) l k.
Proof.
  revert k. induction l as [|a l IH]; intros k; simpl.
  - split; [intros [= <-]; constructor|by inversion 1].
  - split.
    + intros H. destruct_ok. constructor; [done|]. by apply IH.
    + inversion 1 as [|?? ?? Ha Hl]; subst. rewrite Ha.
      apply IH in Hl. by rewrite Hl.
Qed.

Lemma rmap_ok_map {A B E} (f : A → result B E) (g : A → B) l :
  (∀ a, a ∈ l → f a = Ok (g a)) → rmap f l = Ok (map g l).
Proof.
  intros H. induction l as [|a l IH]; simpl; [done|].
  rewrite (H a) by (by left). rewrite IH; [done|]. intros b Hb. apply H. by right.
Qed.

Lemma filter_all_false {A} (p : A → bool) l : (∀ a, a ∈ l → p a = false) → List.filter p l = [].
Proof.
  intros H. induction l as [|a l IH]; simpl; [done|]. rewrite (H a) by (by left).
  apply IH. intros b Hb. apply H. by right.
Qed.

Lemma len_cons {A} (x : A) l : len (x :: l) = (len l + 1)%N.
Proof. unfold len. cbn [length]. lia. Qed.

Lemma len_app {A} (a b : list A) : len (a ++ b) = (len a + len b)%N.
Proof. unfold len. rewrite length_app. lia. Qed.
