(* ===== verification/RustStr.v ===== *)
(** * Rust strings

    [String]/[&str] of the source as the list of its Unicode scalar values, with
    the [str] operations the program calls: byte length, [split], [split_once],
    [strip_prefix], [trim], [join], decimal printing and [parse] of the unsigned
    integer types.  The order on strings is the order of the code points, which
    is the byte order of UTF-8. *)
From stdpp Require Import base list numbers gmap sorting strings.
From S2P Require Import Prelude.

Local Open Scope N_scope.

Abbreviation str := (list N).

(** A literal of the source. *)
Definition lit (s : string) : str := map Ascii.N_of_ascii (String.list_ascii_of_string s).
Arguments lit s%_string_scope.

(** ** Characters *)

(** [char::is_control]: general category Cc. *)
Definition is_control (c : N) : bool := (c <=? 31) || ((127 <=? c) && (c <=? 159)).

(** [char::is_whitespace]: the Unicode property White_Space. *)
Definition is_whitespace (c : N) : bool :=
  ((9 <=? c) && (c <=? 13)) || (c =? 32) || (c =? 133) || (c =? 160) || (c =? 5760)
  || ((8192 <=? c) && (c <=? 8202)) || (c =? 8232) || (c =? 8233) || (c =? 8239)
  || (c =? 8287) || (c =? 12288).

Definition is_ascii_uppercase (c : N) : bool := (65 <=? c) && (c <=? 90).
Definition is_ascii_digit (c : N) : bool := (48 <=? c) && (c <=? 57).
Definition to_ascii_lowercase_char (c : N) : N := if is_ascii_uppercase c then c + 32 else c.

(** Number of bytes of a scalar value in UTF-8. *)
Definition utf8_len (c : N) : N :=
  if c <? 128 then 1 else if c <? 2048 then 2 else if c <? 65536 then 3 else 4.

(** ** Strings *)

Fixpoint str_eqb (a b : str) : bool :=
  match a, b with
  | [], [] => true
  | x :: a', y :: b' => (x =? y) && str_eqb a' b'
  | _, _ => false
  end.

(** [str::len]: bytes, not characters. *)
Fixpoint byte_len (s : str) : N :=
  match s with [] => 0 | c :: s' => utf8_len c + byte_len s' end.

Definition is_empty {A} (s : list A) : bool := match s with [] => true | _ => false end.

Definition has_control (s : str) : bool := existsb is_control s.

(** [str::split(char)]. *)
Fixpoint split_on (c : N) (s : str) : list str :=
  match s with
  | [] => [[]]
  | x :: s' =>
      if x =? c then [] :: split_on c s'
      else match split_on c s' with
           | h :: t => (x :: h) :: t
           | [] => [[x]]
           end
  end.

(** [str::split_once(char)]. *)
Fixpoint split_once (c : N) (s : str) : option (str * str) :=
  match s with
  | [] => None
  | x :: s' =>
      if x =? c then Some ([], s')
      else match split_once c s' with
           | Some (a, b) => Some (x :: a, b)
           | None => None
           end
  end.

(** [str::strip_prefix(&str)]. *)
Fixpoint strip_prefix (p s : str) : option str :=
  match p, s with
  | [], _ => Some s
  | x :: p', y :: s' => if x =? y then strip_prefix p' s' else None
  | _ :: _, [] => None
  end.

(** [str::strip_suffix(char)]. *)
Fixpoint strip_suffix_char (c : N) (s : str) : option str :=
  match s with
  | [] => None
  | [x] => if x =? c then Some [] else None
  | x :: s' => match strip_suffix_char c s' with
               | Some r => Some (x :: r)
               | None => None
               end
  end.

(** [strip_suffix(c).unwrap_or(s)]. *)
Definition strip_suffix_or (c : N) (s : str) : str :=
  match strip_suffix_char c s with Some r => r | None => s end.

(** [[String]::join]. *)
Fixpoint join (sep : str) (l : list str) : str :=
  match l with
  | [] => []
  | [x] => x
  | x :: l' => x ++ sep ++ join sep l'
  end.

Fixpoint trim_start (s : str) : str :=
  match s with
  | c :: s' => if is_whitespace c then trim_start s' else s
  | [] => []
  end.

Fixpoint trim_end (s : str) : str :=
  match s with
  | [] => []
  | c :: s' => match trim_end s' with
               | [] => if is_whitespace c then [] else [c]
               | r => c :: r
               end
  end.

Definition trim (s : str) : str := trim_end (trim_start s).

(** [str::split_whitespace]. *)
Fixpoint split_whitespace_aux (acc s : str) : list str :=
  match s with
  | [] => if is_empty acc then [] else [rev acc]
  | c :: s' =>
      if is_whitespace c
      then (if is_empty acc then split_whitespace_aux [] s'
            else rev acc :: split_whitespace_aux [] s')
      else split_whitespace_aux (c :: acc) s'
  end.
Definition split_whitespace (s : str) : list str := split_whitespace_aux [] s.

Definition to_ascii_lowercase (s : str) : str := map to_ascii_lowercase_char s.

(** ** Decimal integers *)

Definition u64_max : N := 18446744073709551615.
Definition u32_max : N := 4294967295.

(** [ToString] of an unsigned integer; the fuel is the binary size of the
    number, more than the number of its decimal digits. *)
Fixpoint dec_fuel (fuel : nat) (n : N) : str :=
  match fuel with
  | O => []
  | S f => if n <? 10 then [48 + n] else dec_fuel f (n / 10) ++ [48 + n mod 10]
  end.
Definition dec (n : N) : str := dec_fuel (S (N.size_nat n)) n.

Fixpoint digits_value (acc : N) (s : str) : option N :=
  match s with
  | [] => Some acc
  | c :: s' => if is_ascii_digit c then digits_value (10 * acc + (c - 48)) s' else None
  end.

(** [str::parse] for an unsigned integer type with the given maximum: an
    optional [+], then at least one digit, then the range check. *)
Definition parse_uint (max : N) (s : str) : option N :=
  let digits := match s with 43 :: r => r | _ => s end in
  if is_empty digits then None
  else match digits_value 0 digits with
       | Some v => if v <=? max then Some v else None
       | None => None
       end.

(** [usize] is 64 bits wide on the supported targets. *)
Definition parse_u64 : str → option N := parse_uint u64_max.
Definition parse_usize : str → option N := parse_uint u64_max.
Definition parse_u32 : str → option N := parse_uint u32_max.

(** ** Order of strings, as [BTreeMap]/[BTreeSet] iterate *)

Fixpoint str_leb (a b : str) : bool :=
  match a, b with
  | [], _ => true
  | _ :: _, [] => false
  | x :: a', y :: b' => (x <? y) || ((x =? y) && str_leb a' b')
  end.
Definition str_le (a b : str) : Prop := str_leb a b = true.
#[export] Instance str_le_dec a b : Decision (str_le a b) := decide (str_leb a b = true).

(** ** Facts *)

Lemma str_eqb_eq a b : str_eqb a b = true ↔ a = b.
Proof.
  revert b. induction a as [|x a IH]; intros [|y b]; simpl; try done.
  rewrite andb_true_iff, N.eqb_eq, IH. naive_solver.
Qed.

Lemma str_eqb_refl a : str_eqb a a = true.
Proof. by apply str_eqb_eq. Qed.

Lemma str_eqb_neq a b : str_eqb a b = false ↔ a ≠ b.
Proof. rewrite <-str_eqb_eq. by destruct (str_eqb a b). Qed.

Lemma str_eqb_spec a b : reflect (a = b) (str_eqb a b).
Proof. apply iff_reflect. by rewrite str_eqb_eq. Qed.

Lemma byte_len_app a b : byte_len (a ++ b) = byte_len a + byte_len b.
Proof. induction a as [|c a IH]; simpl; [done|]. rewrite IH. lia. Qed.

Lemma has_control_app a b : has_control (a ++ b) = has_control a || has_control b.
Proof. apply existsb_app. Qed.

Lemma has_control_false_not_in c s : has_control s = false → is_control c = true → c ∉ s.
Proof.
  intros Hs Hc Hin. apply not_true_iff_false in Hs. apply Hs.
  apply existsb_exists. exists c. by rewrite <-list_elem_of_In.
Qed.

(** *** Splitting *)

Lemma split_once_app c a b : c ∉ a → split_once c (a ++ c :: b) = Some (a, b).
Proof.
  induction a as [|x a IH]; simpl; intros Hc.
  - by rewrite N.eqb_refl.
  - apply not_elem_of_cons in Hc as [Hx Ha].
    destruct (N.eqb_spec x c); [by subst|]. by rewrite IH.
Qed.

Lemma split_once_Some c s a b : split_once c s = Some (a, b) → s = a ++ c :: b ∧ c ∉ a.
Proof.
  revert a b. induction s as [|x s IH]; simpl; intros a b H; [done|].
  destruct (N.eqb_spec x c) as [->|Hx].
  - injection H as <- <-. split; [done|by apply not_elem_of_nil].
  - destruct (split_once c s) as [[a' b']|]; [|done]. injection H as <- <-.
    destruct (IH a' b' eq_refl) as [-> Hn]. split; [done|].
    apply not_elem_of_cons. by split.
Qed.

Lemma split_on_fresh c s : c ∉ s → split_on c s = [s].
Proof.
  induction s as [|x s IH]; simpl; intros Hc; [done|].
  apply not_elem_of_cons in Hc as [Hx Hs].
  destruct (N.eqb_spec x c); [by subst|]. by rewrite IH.
Qed.

Lemma split_on_app c a b : c ∉ a → split_on c (a ++ c :: b) = a :: split_on c b.
Proof.
  induction a as [|x a IH]; simpl; intros Hc.
  - by rewrite N.eqb_refl.
  - apply not_elem_of_cons in Hc as [Hx Ha].
    destruct (N.eqb_spec x c); [by subst|]. by rewrite IH.
Qed.

Lemma split_on_join c l :
  l ≠ [] → Forall (λ s, c ∉ s) l → split_on c (join [c] l) = l.
Proof.
  induction l as [|x l IH]; [done|]. intros _ Hf.
  apply Forall_cons in Hf as [Hx Hf]. destruct l as [|y l].
  - by apply split_on_fresh.
  - change (join [c] (x :: y :: l)) with (x ++ c :: join [c] (y :: l)).
    rewrite split_on_app by done. by rewrite IH.
Qed.

(** The segments of a split, joined again, are the string; none holds the
    separator. *)
Lemma join_split_on c s : join [c] (split_on c s) = s ∧ Forall (λ x, c ∉ x) (split_on c s).
Proof.
  induction s as [|x s [IHj IHf]]; simpl; [split; [done|]; repeat constructor; by apply not_elem_of_nil|].
  destruct (N.eqb_spec x c) as [->|Hx].
  - split; [|constructor; [by apply not_elem_of_nil|done]].
    destruct (split_on c s) eqn:Hs; [|simpl in *; by f_equal].
    exfalso. destruct s; simpl in Hs; [done|]. repeat case_match; done.
  - destruct (split_on c s) as [|h t] eqn:Hs.
    + exfalso. destruct s; simpl in Hs; [done|]. repeat case_match; done.
    + apply Forall_cons in IHf as [Hh Ht]. split.
      * destruct t; simpl in *; by f_equal.
      * constructor; [|done]. apply not_elem_of_cons. by split.
Qed.

Lemma split_on_ne_nil c s : split_on c s ≠ [].
Proof. destruct s; simpl; [done|]. repeat case_match; done. Qed.

(** *** Prefixes and suffixes *)

Lemma strip_prefix_app p s : strip_prefix p (p ++ s) = Some s.
Proof. induction p; simpl; [done|]. by rewrite N.eqb_refl. Qed.

Lemma strip_prefix_Some p s r : strip_prefix p s = Some r ↔ s = p ++ r.
Proof.
  split; [|intros ->; apply strip_prefix_app].
  revert s. induction p as [|x p IH]; intros s; simpl; [by intros [= ->]|].
  destruct s as [|y s]; [done|]. destruct (N.eqb_spec x y); [|done].
  subst. intros H. by f_equal; apply IH.
Qed.

Lemma strip_suffix_char_Some c s r : strip_suffix_char c s = Some r ↔ s = r ++ [c].
Proof.
  revert r. induction s as [|x s IH]; intros r.
  - simpl. split; [done|]. by destruct r.
  - destruct s as [|y s].
    + simpl. destruct (N.eqb_spec x c) as [->|Hx]; split; intros H.
      * by injection H as <-.
      * by destruct r as [|? [|]].
      * done.
      * destruct r as [|? [|]]; simpl in H; congruence.
    + change (strip_suffix_char c (x :: y :: s)) with
        (match strip_suffix_char c (y :: s) with Some r => Some (x :: r) | None => None end).
      destruct (strip_suffix_char c (y :: s)) as [r'|] eqn:Hs; split; intros H.
      * injection H as <-. simpl. f_equal. by apply IH.
      * destruct r as [|z r]; simpl in H; [done|]. injection H as -> H.
        apply IH in H. by injection H as ->.
      * done.
      * destruct r as [|z r]; simpl in H; [done|]. injection H as -> H.
        by apply IH in H.
Qed.

Lemma strip_suffix_or_fresh c s : c ∉ s → strip_suffix_or c s = s.
Proof.
  intros Hc. unfold strip_suffix_or. destruct (strip_suffix_char c s) as [r|] eqn:H; [|done].
  apply strip_suffix_char_Some in H as ->. exfalso. apply Hc. apply elem_of_app. right. by left.
Qed.

(** Either nothing was stripped, or exactly one final [c] was. *)
Lemma strip_suffix_or_cases c s : strip_suffix_or c s = s ∨ s = strip_suffix_or c s ++ [c].
Proof.
  unfold strip_suffix_or. destruct (strip_suffix_char c s) as [r|] eqn:H; [right|by left].
  by apply strip_suffix_char_Some in H.
Qed.

(** *** Trimming *)

Definition no_whitespace (s : str) : Prop := Forall (λ c, is_whitespace c = false) s.

Lemma trim_start_no_ws s : no_whitespace s → trim_start s = s.
Proof. intros H. destruct H as [|c s Hc Hs]; simpl; [done|]. by rewrite Hc. Qed.

Lemma trim_end_no_ws s : no_whitespace s → trim_end s = s.
Proof.
  intros H. induction H as [|c s Hc Hs IH]; simpl; [done|].
  rewrite IH. destruct s; [by rewrite Hc|done].
Qed.

Lemma trim_no_ws s : no_whitespace s → trim s = s.
Proof. intros H. unfold trim. rewrite trim_start_no_ws by done. by apply trim_end_no_ws. Qed.

(** *** Decimal printing and parsing *)

Definition all_digits (s : str) : Prop := Forall (λ c, is_ascii_digit c = true) s.

Lemma is_ascii_digit_add d : d < 10 → is_ascii_digit (48 + d) = true.
Proof. intros H. unfold is_ascii_digit. apply andb_true_iff. rewrite !N.leb_le. lia. Qed.

Lemma digits_value_app a b acc :
  digits_value acc (a ++ b) =
  match digits_value acc a with Some v => digits_value v b | None => None end.
Proof.
  revert acc. induction a as [|c a IH]; intros acc; simpl; [done|].
  destruct (is_ascii_digit c); [apply IH|done].
Qed.

Lemma dec_fuel_value f n : n < 2 ^ N.of_nat f → digits_value 0 (dec_fuel f n) = Some n.
Proof.
  revert n. induction f as [|f IH]; intros n Hn.
  { simpl in *. replace n with 0 by lia. done. }
  simpl. destruct (N.ltb_spec n 10) as [Hlt|Hge].
  - cbn [digits_value]. rewrite is_ascii_digit_add by done. f_equal. lia.
  - rewrite digits_value_app, IH.
    + cbn [digits_value]. rewrite is_ascii_digit_add by (apply N.mod_lt; lia).
      rewrite (N.add_comm 48), N.add_sub. f_equal. symmetry. apply N.div_mod. lia.
    + rewrite Nat2N.inj_succ, N.pow_succ_r' in Hn.
      apply N.Div0.div_lt_upper_bound. lia.
Qed.

Lemma pos_size_nat p : N.of_nat (Pos.size_nat p) = N.pos (Pos.size p).
Proof.
  induction p as [p IH|p IH|]; cbn [Pos.size Pos.size_nat]; [| |done];
    rewrite Nat2N.inj_succ, IH; done.
Qed.

Lemma size_nat_bound n : n < 2 ^ N.of_nat (S (N.size_nat n)).
Proof.
  rewrite Nat2N.inj_succ, N.pow_succ_r'. pose proof (N.size_gt n) as H.
  replace (N.of_nat (N.size_nat n)) with (N.size n); [lia|].
  destruct n as [|p]; [done|]. symmetry. apply pos_size_nat.
Qed.

Lemma dec_value n : digits_value 0 (dec n) = Some n.
Proof. apply dec_fuel_value, size_nat_bound. Qed.

Lemma dec_fuel_digits f n : all_digits (dec_fuel f n).
Proof.
  revert n. induction f as [|f IH]; intros n; simpl; [constructor|].
  destruct (N.ltb_spec n 10) as [Hlt|Hge].
  - repeat constructor. by apply is_ascii_digit_add.
  - apply Forall_app. split; [apply IH|]. repeat constructor.
    apply is_ascii_digit_add. apply N.mod_lt. lia.
Qed.

Lemma dec_digits n : all_digits (dec n).
Proof. apply dec_fuel_digits. Qed.

Lemma dec_ne_nil n : dec n ≠ [].
Proof.
  unfold dec. simpl. destruct (n <? 10); [done|].
  intros H. apply app_eq_nil in H as [_ H]. done.
Qed.

Lemma dec_inj n m : dec n = dec m → n = m.
Proof. intros H. pose proof (dec_value n) as Hn. rewrite H, dec_value in Hn. congruence. Qed.

Lemma digit_not_plus s : all_digits s → match s with 43 :: r => r | _ => s end = s.
Proof.
  destruct 1 as [|c s Hc _]; [done|]. destruct (decide (c = 43)) as [->|Hn]; [done|].
  repeat case_match; congruence.
Qed.

Lemma parse_uint_dec max n : n ≤ max → parse_uint max (dec n) = Some n.
Proof.
  intros Hn. unfold parse_uint. rewrite digit_not_plus by apply dec_digits.
  destruct (dec n) eqn:Hd; [by apply dec_ne_nil in Hd|].
  cbn [is_empty]. rewrite <-Hd, dec_value. by apply N.leb_le in Hn as ->.
Qed.

Lemma parse_uint_bound max s v : parse_uint max s = Some v → v ≤ max.
Proof.
  unfold parse_uint. repeat case_match; try done; intros [= <-]; by apply N.leb_le.
Qed.

(** A string that does not start with a digit or a [+] is no integer. *)
Lemma parse_uint_nondigit max c s :
  is_ascii_digit c = false → c ≠ 43 → parse_uint max (c :: s) = None.
Proof.
  intros Hc Hp. unfold parse_uint.
  replace (match c :: s with 43 :: r => r | _ => c :: s end) with (c :: s)
    by (repeat case_match; congruence).
  cbn. by rewrite Hc.
Qed.

Lemma digit_not_ws c : is_ascii_digit c = true → is_whitespace c = false.
Proof.
  unfold is_ascii_digit, is_whitespace. rewrite andb_true_iff, !N.leb_le. intros [H1 H2].
  repeat (apply orb_false_iff; split);
    rewrite ?andb_false_iff, ?N.leb_gt, ?N.eqb_neq; lia.
Qed.

Lemma digit_not_control c : is_ascii_digit c = true → is_control c = false.
Proof.
  unfold is_ascii_digit, is_control. rewrite andb_true_iff, !N.leb_le. intros [H1 H2].
  rewrite orb_false_iff, andb_false_iff, !N.leb_gt. lia.
Qed.

Lemma dec_no_ws n : no_whitespace (dec n).
Proof. eapply Forall_impl; [apply dec_digits|]. simpl. apply digit_not_ws. Qed.

Lemma dec_fresh c n : is_ascii_digit c = false → c ∉ dec n.
Proof.
  intros Hc Hin. pose proof (dec_digits n) as Hd.
  eapply Forall_forall in Hd; [|exact Hin]. simpl in Hd. congruence.
Qed.

(** *** The string order is a total order *)

#[export] Instance str_le_total : Total str_le.
Proof.
  unfold str_le. intros a. induction a as [|x a IH]; intros [|y b]; simpl; auto.
  rewrite !orb_true_iff, !andb_true_iff, !N.ltb_lt, !N.eqb_eq.
  destruct (IH b); destruct (N.lt_trichotomy x y) as [|[|]]; subst; auto.
Qed.

#[export] Instance str_le_trans : Transitive str_le.
Proof.
  unfold str_le. intros a. induction a as [|x a IH]; intros [|y b] [|z c]; simpl; try done.
  rewrite !orb_true_iff, !andb_true_iff, !N.ltb_lt, !N.eqb_eq.
  intros [H1|[-> H1]] [H2|[-> H2]]; [left; lia|left; lia|left; lia|right].
  split; [done|by eapply IH].
Qed.

#[export] Instance str_le_antisymm : AntiSymm (=) str_le.
Proof.
  unfold str_le. intros a. induction a as [|x a IH]; intros [|y b]; simpl; try done.
  rewrite !orb_true_iff, !andb_true_iff, !N.ltb_lt, !N.eqb_eq.
  intros [H1|[-> H1]] [H2|[? H2]]; [lia|lia|lia|]. f_equal. by apply IH.
Qed.

Lemma strip_suffix_or_app_fresh c a b : b ≠ [] → c ∉ b → strip_suffix_or c (a ++ b) = a ++ b.
Proof.
  intros Hb Hc. destruct (strip_suffix_or_cases c (a ++ b)) as [?|H]; [done|].
  exfalso. destruct b as [|x b _] using rev_ind; [done|].
  rewrite app_assoc in H. apply app_inj_tail in H as [_ ->].
  apply Hc, elem_of_app. right. by left.
Qed.

Lemma byte_len_strip_suffix_or c s : byte_len (strip_suffix_or c s) ≤ byte_len s.
Proof.
  destruct (strip_suffix_or_cases c s) as [->|H]; [done|].
  rewrite H at 2. rewrite byte_len_app. lia.
Qed.

(** Freshness decided by computation. *)
Lemma fresh_dec c s : forallb (λ x, negb (x =? c)) s = true → c ∉ s.
Proof.
  rewrite forallb_forall. intros H Hin%list_elem_of_In%H. by rewrite N.eqb_refl in Hin.
Qed.
