(* ===== verification/RustFloat.v ===== *)
(** * Rust's [f32], as the confidence fields use it

    A binary32 number is a [spec_float] of the Standard Library (sign, mantissa,
    exponent), [valid_f32] the values the hardware type has.  The program prints a
    confidence with [{:.3}], prints it with [{}], reads it with [str::parse], and
    compares it with 0, 1/2 and 1; these are defined here, exactly: printing
    rounds the binary value half to even, parsing rounds the decimal value to the
    nearest binary32. *)
From stdpp Require Import base list numbers strings.
From Stdlib Require Import SpecFloat.
From S2P Require Import Prelude RustStr.

Abbreviation f32 := spec_float.

Definition valid_f32 (x : f32) : Prop := valid_binary 24 128 x = true.

Definition f32_zero : f32 := S754_zero false.
Definition f32_half : f32 := S754_finite false 8388608 (-24).
Definition f32_one : f32 := S754_finite false 8388608 (-23).

(** [(0.0..=1.0).contains(&x)]. *)
Definition in_unit (x : f32) : bool := SFleb f32_zero x && SFleb x f32_one.

(** ** Printing with three decimals *)

(** The nearest integer to [num / den], ties to even. *)
Definition div_half_even (num den : Z) : Z :=
  let q := (num / den)%Z in
  let r := (num mod den)%Z in
  match Z.compare (2 * r) den with
  | Lt => q
  | Gt => q + 1
  | Eq => if Z.even q then q else q + 1
  end%Z.

(** The magnitude [m * 2^e] in thousandths. *)
Definition thousandths (m : positive) (e : Z) : Z :=
  if (0 <=? e)%Z then (Zpos m * 2 ^ e * 1000)%Z
  else div_half_even (Zpos m * 1000) (2 ^ (- e)).

Definition digit_char (d : Z) : N := (48 + Z.to_N (d mod 10))%N.

Definition print_thousandths (neg : bool) (k : Z) : str :=
  (if neg then lit "-" else []) ++ dec (Z.to_N (k / 1000)) ++ lit "."
  ++ [digit_char (k / 100); digit_char (k / 10); digit_char k].

(** [format!("{x:.3}")]. *)
Definition fmt3 (x : f32) : str :=
  match x with
  | S754_nan => lit "NaN"
  | S754_infinity s => (if s then lit "-" else []) ++ lit "inf"
  | S754_zero s => print_thousandths s 0
  | S754_finite s m e => print_thousandths s (thousandths m e)
  end.

(** ** Parsing *)

(** The longest prefix of digits: its value, its length, and the rest. *)
Fixpoint scan_digits (acc : Z) (n : Z) (s : str) : Z * Z * str :=
  match s with
  | c :: s' =>
      if is_ascii_digit c then scan_digits (10 * acc + Z.of_N (c - 48)) (n + 1) s'
      else (acc, n, s)
  | [] => (acc, n, s)
  end.

(** The optional exponent that ends a number. *)
Definition scan_exponent (s : str) : option Z :=
  match s with
  | [] => Some 0%Z
  | c :: r =>
      if ((c =? 101) || (c =? 69))%N then
        let '(neg, r) :=
          match r with
          | 45%N :: r' => (true, r')
          | 43%N :: r' => (false, r')
          | _ => (false, r)
          end in
        let '(v, n, rest) := scan_digits 0 0 r in
        if (n =? 0)%Z || negb (is_empty rest) then None
        else Some (if neg then - v else v)%Z
      else None
  end.

(** The binary32 nearest to [± w * 10^k]. *)
Definition f32_of_decimal (neg : bool) (w k : Z) : f32 :=
  match w with
  | Zpos p =>
      if (0 <=? k)%Z
      then match (w * 10 ^ k)%Z with
           | Zpos n => SFdiv 24 128 (S754_finite neg n 0) (S754_finite false 1 0)
           | _ => S754_zero neg
           end
      else match (10 ^ (- k))%Z with
           | Zpos d => SFdiv 24 128 (S754_finite neg p 0) (S754_finite false d 0)
           | _ => S754_zero neg
           end
  | _ => S754_zero neg
  end.

Definition parse_number (neg : bool) (s : str) : option f32 :=
  let '(w, n, rest) := scan_digits 0 0 s in
  let '(w, n, frac, rest) :=
    match rest with
    | 46%N :: r => let '(w', f, r') := scan_digits w 0 r in (w', n + f, f, r')%Z
    | _ => (w, n, 0%Z, rest)
    end in
  if (n =? 0)%Z then None
  else match scan_exponent rest with
       | Some ex => Some (f32_of_decimal neg w (ex - frac))
       | None => None
       end.

(** [str::parse::<f32>]. *)
Definition parse_f32 (s : str) : option f32 :=
  let '(neg, body) :=
    match s with
    | 45%N :: r => (true, r)
    | 43%N :: r => (false, r)
    | _ => (false, s)
    end in
  let low := to_ascii_lowercase body in
  if str_eqb low (lit "inf") || str_eqb low (lit "infinity") then Some (S754_infinity neg)
  else if str_eqb low (lit "nan") then Some S754_nan
  else parse_number neg body.

(** ** Shortest printing *)

(** The decimals [w * 10^k] next to [m * 2^e], the nearer one first. *)
Definition neighbours (m : positive) (e k : Z) : list Z :=
  let num := (Zpos m * 2 ^ Z.max e 0 * 10 ^ Z.max (- k) 0)%Z in
  let den := (2 ^ Z.max (- e) 0 * 10 ^ Z.max k 0)%Z in
  let q := (num / den)%Z in
  if (2 * (num mod den) <=? den)%Z then [q; (q + 1)%Z] else [(q + 1)%Z; q].

Definition sf_eqb (x y : f32) : bool :=
  match x, y with
  | S754_finite s m e, S754_finite s' m' e' => Bool.eqb s s' && (m =? m')%positive && (e =? e')%Z
  | _, _ => false
  end.

(** The decimal with the fewest digits that reads back as the number: the first
    one met when the unit [10^k] goes down. *)
Fixpoint shortest (fuel : nat) (neg : bool) (m : positive) (e k : Z) : Z * Z :=
  match List.find (λ w, sf_eqb (f32_of_decimal neg w k) (S754_finite neg m e)) (neighbours m e k) with
  | Some w => (w, k)
  | None =>
      match fuel with
      | O => (0, k)%Z
      | S fuel' => shortest fuel' neg m e (k - 1)
      end
  end.

(** [w * 10^k] without an exponent. *)
Definition plain (w k : Z) : str :=
  if (0 <=? k)%Z then dec (Z.to_N (w * 10 ^ k))
  else dec (Z.to_N (w / 10 ^ (- k))) ++ lit "."
       ++ map (λ i, digit_char (w / 10 ^ Z.of_nat i)) (rev (seq 0 (Z.to_nat (- k)))).

(** [format!("{x}")].  The largest unit of a finite binary32 is [10^38], and nine
    digits always tell two of them apart, so units down to [10^-55] are enough. *)
Definition fmt_display (x : f32) : str :=
  match x with
  | S754_nan => lit "NaN"
  | S754_infinity s => (if s then lit "-" else []) ++ lit "inf"
  | S754_zero s => (if s then lit "-" else []) ++ lit "0"
  | S754_finite s m e =>
      let '(w, k) := shortest 93 s m e 38 in (if s then lit "-" else []) ++ plain w k
  end.

(** What a confidence becomes once it went over the wire. *)
Definition quantize (x : f32) : f32 :=
  match parse_f32 (fmt3 x) with Some y => y | None => x end.

Example display_examples :
  map (λ s, default [] (fmt_display <$> parse_f32 (lit s)))
    ["0.1"%string; "0.25"%string; "1"%string; "0.3333333333"%string; "-16777217"%string; "1e-45"%string; "12e20"%string]
  = map lit ["0.1"%string; "0.25"%string; "1"%string; "0.33333334"%string; "-16777216"%string;
             "0.000000000000000000000000000000000000000000001"%string; "1200000000000000000000"%string].
Proof. vm_compute. reflexivity. Qed.

(** ** The wire keeps a confidence to three decimals *)

Lemma compare_cont_Eq_le p q : Pos.compare_cont Eq p q ≠ Gt → (Zpos p ≤ Zpos q)%Z.
Proof. intros H. exact H. Qed.

Lemma digits2_pos_bound m : (Zpos m < 2 ^ Zpos (digits2_pos m))%Z.
Proof.
  induction m as [m IH|m IH|]; cbn [digits2_pos]; [| |done];
    rewrite Pos2Z.inj_succ, Z.pow_succ_r by done; lia.
Qed.

Lemma valid_mantissa s m e : valid_f32 (S754_finite s m e) → (Zpos m < 2 ^ 24)%Z.
Proof.
  unfold valid_f32, valid_binary, bounded, canonical_mantissa, fexp, emin.
  rewrite andb_true_iff. intros [H _]. apply Z.eqb_eq in H.
  pose proof (digits2_pos_bound m) as Hb. eapply Z.lt_le_trans; [exact Hb|].
  apply Z.pow_le_mono_r; lia.
Qed.

Lemma div_half_even_range num den k :
  (0 < den → 0 ≤ num → num ≤ k * den → 0 ≤ div_half_even num den ≤ k)%Z.
Proof.
  intros Hd Hn Hk. unfold div_half_even.
  assert (0 ≤ num / den)%Z by (apply Z.div_pos; lia).
  pose proof (Z.div_mod num den ltac:(lia)) as Hdm.
  pose proof (Z.mod_pos_bound num den Hd) as Hm.
  set (q := (num / den)%Z) in *. set (r := (num mod den)%Z) in *.
  assert (q ≤ k)%Z by nia.
  assert (r = 0 ∨ q + 1 ≤ k)%Z as Hup by (destruct (decide (r = 0)%Z); [by left|right; nia]).
  destruct (Z.compare_spec (2 * r) den); [destruct (Z.even q)| |]; lia.
Qed.

(** A confidence in [0, 1] prints as one of the 1001 values 0.000 .. 1.000 (or
    as -0.000). *)
Lemma fmt3_in_unit x :
  valid_f32 x → in_unit x = true →
  x = S754_zero true ∨ ∃ k, (0 ≤ k ≤ 1000)%Z ∧ fmt3 x = print_thousandths false k.
Proof.
  intros Hv. unfold in_unit, SFleb, f32_zero, f32_one. rewrite andb_true_iff.
  destruct x as [[|]|[|]| |[|] m e]; cbn [SFcompare]; try (intros [? ?]; discriminate).
  - by left.
  - intros _. right. exists 0%Z. split; [lia|reflexivity].
  - intros [_ H]. right. exists (thousandths m e). split; [|reflexivity].
    unfold thousandths. pose proof (valid_mantissa _ _ _ Hv) as Hm.
    destruct (Z.compare_spec e (-23)) as [->|He|He]; [| |discriminate].
    + assert (Zpos m ≤ 8388608)%Z.
      { apply compare_cont_Eq_le. by destruct (Pos.compare_cont Eq m 8388608). }
      change (0 <=? -23)%Z with false. cbv iota. clear Hv H.
      change (2 ^ (- (-23)))%Z with 8388608%Z.
      refine (div_half_even_range (Zpos m * 1000) 8388608 1000 _ _ _); lia.
    + replace (0 <=? e)%Z with false by (symmetry; apply Z.leb_gt; lia).
      clear Hv H. assert (2 ^ 24 ≤ 2 ^ (- e))%Z by (apply Z.pow_le_mono_r; lia).
      refine (div_half_even_range (Zpos m * 1000) (2 ^ (- e)) 1000 _ _ _); lia.
Qed.

Definition quantized_ok (k : Z) : bool :=
  match parse_f32 (print_thousandths false k) with
  | Some y => in_unit y && str_eqb (fmt3 y) (print_thousandths false k)
              && valid_binary 24 128 y
  | None => false
  end.

Lemma quantized_all : forallb (λ n, quantized_ok (Z.of_nat n)) (seq 0 1001) = true.
Proof. vm_compute. reflexivity. Qed.

Lemma quantize_spec x :
  valid_f32 x → in_unit x = true →
  parse_f32 (fmt3 x) = Some (quantize x) ∧ in_unit (quantize x) = true
  ∧ valid_f32 (quantize x) ∧ fmt3 (quantize x) = fmt3 x.
Proof.
  intros Hv Hu. destruct (fmt3_in_unit x Hv Hu) as [->|(k & Hk & Hf)]; [by vm_compute|].
  pose proof quantized_all as Ha. rewrite forallb_forall in Ha.
  specialize (Ha (Z.to_nat k)). rewrite Z2Nat.id in Ha by lia.
  assert (quantized_ok k = true) as Hq by (apply Ha, in_seq; lia).
  unfold quantized_ok in Hq. unfold quantize. rewrite Hf.
  destruct (parse_f32 (print_thousandths false k)); [|done].
  rewrite !andb_true_iff in Hq. destruct Hq as [[H1 H2] H3]. repeat split; [done|done|].
  by apply str_eqb_eq.
Qed.

Lemma quantize_idemp x : valid_f32 x → in_unit x = true → quantize (quantize x) = quantize x.
Proof.
  intros Hv Hu. destruct (quantize_spec x Hv Hu) as (H1 & H2 & H3 & H4).
  unfold quantize at 1. by rewrite H4, H1.
Qed.
