(* ===== verification/Occ1.v ===== *)
(** * OCC-1: the [KEY=VALUE] line codec of agent messages

    [core/occ/occ1.rs]: the message type with its accessors, [encode], [decode],
    the key grammar and the required-field dialect.  The theorems: what [encode]
    produces parses back to the same message, what [decode] accepts is a
    well-formed message that encodes again, CRLF input is tolerated, and the
    accessors obey the laws of an ordered multimap. *)
From stdpp Require Import base list numbers strings.
From S2P Require Import Prelude RustStr.

Local Open Scope N_scope.

(** ** Constants *)

Definition OCC1_HEADER : str := lit "OCC/1".
Definition OCC1_MAX_FIELDS : N := 128.
Definition OCC1_MAX_KEY_BYTES : N := 32.
Definition OCC1_MAX_VALUE_BYTES : N := 4096.
Definition OCC1_MAX_MESSAGE_BYTES : N := 64 * 1024.

Definition KIND_TASK := lit "TASK".
Definition KIND_PROGRESS := lit "PROGRESS".
Definition KIND_RESULT := lit "RESULT".
Definition KIND_EVIDENCE := lit "EVIDENCE".
Definition KIND_REQUEST_DETAIL := lit "REQUEST_DETAIL".
Definition KIND_ACK := lit "ACK".
Definition KIND_CORRECTION := lit "CORRECTION".
Definition KIND_BLOCKED := lit "BLOCKED".
Definition KIND_CANCELLED := lit "CANCELLED".

Definition STATUS_PENDING := lit "pending".
Definition STATUS_IN_PROGRESS := lit "in_progress".
Definition STATUS_DONE := lit "done".
Definition STATUS_PARTIAL := lit "partial".
Definition STATUS_BLOCKED := lit "blocked".
Definition STATUS_FAILED := lit "failed".
Definition STATUS_CANCELLED := lit "cancelled".

(** A [matches!] over string constants. *)
Definition one_of (s : str) (l : list str) : bool := existsb (str_eqb s) l.

Definition is_known_kind (kind : str) : bool :=
  one_of kind [KIND_TASK; KIND_PROGRESS; KIND_RESULT; KIND_EVIDENCE; KIND_REQUEST_DETAIL;
               KIND_ACK; KIND_CORRECTION; KIND_BLOCKED; KIND_CANCELLED].

Definition is_known_status (status : str) : bool :=
  one_of status [STATUS_PENDING; STATUS_IN_PROGRESS; STATUS_DONE; STATUS_PARTIAL;
                 STATUS_BLOCKED; STATUS_FAILED; STATUS_CANCELLED].

(** ** Errors *)

Inductive Occ1Error : Type :=
| Empty
| BadHeader (got expected : str)
| MissingSeparator (line : N)
| InvalidKey (line : N) (key : str)
| ControlChar (line : N) (key : str)
| BlankLine (line : N)
| TooLarge (limit : N)
| TooManyFields (limit : N)
| ValueTooLarge (key : str) (limit : N)
| KeyTooLarge (key : str) (limit : N).

(** ** Messages *)

Record Occ1Message : Type := mkOcc1 { fields : list (str * str) }.

Definition key_is (key : str) (f : str * str) : bool := str_eqb f.1 key.

Definition new : Occ1Message := mkOcc1 [].

Definition push (m : Occ1Message) (key value : str) : Occ1Message :=
  mkOcc1 (fields m ++ [(key, value)]).

(** The builder form of [push]. *)
Definition with_field (m : Occ1Message) (key value : str) : Occ1Message := push m key value.

Definition set (m : Occ1Message) (key value : str) : Occ1Message :=
  push (mkOcc1 (List.filter (λ f, negb (key_is key f)) (fields m))) key value.

Definition get (m : Occ1Message) (key : str) : option str :=
  snd <$> List.find (key_is key) (fields m).

Definition get_all (m : Occ1Message) (key : str) : list str :=
  map snd (List.filter (key_is key) (fields m)).

Definition has (m : Occ1Message) (key : str) : bool := existsb (key_is key) (fields m).

Definition remove (m : Occ1Message) (key : str) : Occ1Message * N :=
  let kept := List.filter (λ f, negb (key_is key f)) (fields m) in
  (mkOcc1 kept, len (fields m) - len kept).

Definition iter (m : Occ1Message) : list (str * str) := fields m.
Definition msg_len (m : Occ1Message) : N := len (fields m).
Definition msg_is_empty (m : Occ1Message) : bool := is_empty (fields m).

(** ** Codec *)

Definition validate_key (key : str) : result unit Occ1Error :=
  if is_empty key then Err (InvalidKey 0 key)
  else if OCC1_MAX_KEY_BYTES <? byte_len key then Err (KeyTooLarge key OCC1_MAX_KEY_BYTES)
  else match key with
       | first :: bytes =>
           if negb (is_ascii_uppercase first) then Err (InvalidKey 0 key)
           else if negb (forallb (λ b, is_ascii_uppercase b || is_ascii_digit b || (b =? 95))
                                 bytes)
           then Err (InvalidKey 0 key)
           else Ok tt
       | [] => Err (InvalidKey 0 key)
       end.

(** The [map_err] of both directions: only the line number is rewritten. *)
Definition at_line (line : N) (e : Occ1Error) : Occ1Error :=
  match e with InvalidKey _ key => InvalidKey line key | other => other end.

Definition encode_field (out : str) (f : str * str) : result str Occ1Error :=
  let (key, value) := f in
  let* _ := map_err (at_line 0) (validate_key key) in
  if OCC1_MAX_VALUE_BYTES <? byte_len value
  then Err (ValueTooLarge key OCC1_MAX_VALUE_BYTES)
  else if has_control value then Err (ControlChar 0 key)
  else Ok (out ++ [10] ++ key ++ [61] ++ value).

Definition encode (m : Occ1Message) : result str Occ1Error :=
  if OCC1_MAX_FIELDS <? len (fields m) then Err (TooManyFields OCC1_MAX_FIELDS)
  else let* out := rfold encode_field OCC1_HEADER (fields m) in
       if OCC1_MAX_MESSAGE_BYTES <? byte_len out then Err (TooLarge OCC1_MAX_MESSAGE_BYTES)
       else Ok out.

(** One iteration of the line loop of [decode]. *)
Definition decode_line (line_no : N) (acc : list (str * str)) (raw_line : str)
  : result (list (str * str)) Occ1Error :=
  let line := strip_suffix_or 13 raw_line in
  if is_empty line then Err (BlankLine line_no)
  else match split_once 61 line with
       | None => Err (MissingSeparator line_no)
       | Some (key, value) =>
           if is_empty key then Err (InvalidKey line_no key)
           else let* _ := map_err (at_line line_no) (validate_key key) in
           if has_control value then Err (ControlChar line_no key)
           else if OCC1_MAX_VALUE_BYTES <? byte_len value
           then Err (ValueTooLarge key OCC1_MAX_VALUE_BYTES)
           else if OCC1_MAX_FIELDS <=? len acc then Err (TooManyFields OCC1_MAX_FIELDS)
           else Ok (acc ++ [(key, value)])
       end.

Fixpoint decode_lines (line_no : N) (acc : list (str * str)) (lines : list str)
  : result (list (str * str)) Occ1Error :=
  match lines with
  | [] => Ok acc
  | raw_line :: rest =>
      let* acc' := decode_line line_no acc raw_line in decode_lines (line_no + 1) acc' rest
  end.

Definition decode (text : str) : result Occ1Message Occ1Error :=
  if is_empty text then Err Empty
  else if OCC1_MAX_MESSAGE_BYTES <? byte_len text then Err (TooLarge OCC1_MAX_MESSAGE_BYTES)
  else
    let trimmed := strip_suffix_or 10 text in
    match split_on 10 trimmed with
    | [] => Err Empty
    | header :: lines =>
        let header := strip_suffix_or 13 header in
        if negb (str_eqb header OCC1_HEADER) then Err (BadHeader header OCC1_HEADER)
        else let* fs := decode_lines 2 [] lines in Ok (mkOcc1 fs)
    end.

Definition required_missing (m : Occ1Message) (required : list str) : list str :=
  List.filter (λ key, negb (has m key)) required.

Definition unwrap_or (o : option str) (d : str) : str :=
  match o with Some s => s | None => d end.

Definition render_readable (m : Occ1Message) : str :=
  let kind := unwrap_or (get m (lit "KIND")) (lit "UNKNOWN") in
  let task := unwrap_or (get m (lit "TASK")) (lit "-") in
  let status := unwrap_or (get m (lit "STATUS")) (lit "-") in
  List.fold_left
    (λ out f,
      if str_eqb f.1 (lit "KIND") || str_eqb f.1 (lit "TASK") || str_eqb f.1 (lit "STATUS")
      then out
      else out ++ [10] ++ lit "  " ++ f.1 ++ lit ": " ++ f.2)
    (fields m)
    (lit "OCC-1 message kind=" ++ kind ++ lit " task=" ++ task ++ lit " status=" ++ status).

(** ** The required-field dialect *)

Record Occ1Dialect : Type := mkDialect { required_by_kind : list (str * list str) }.

Definition standard : Occ1Dialect :=
  let base := [lit "TASK"; lit "KIND"; lit "STATUS"] in
  mkDialect
    [(KIND_TASK, base); (KIND_PROGRESS, base); (KIND_RESULT, base);
     (KIND_EVIDENCE, base ++ [lit "E1"]); (KIND_REQUEST_DETAIL, base);
     (KIND_ACK, base); (KIND_CORRECTION, base); (KIND_BLOCKED, base);
     (KIND_CANCELLED, base)].

Definition required_for (d : Occ1Dialect) (kind : str) : option (list str) :=
  snd <$> List.find (λ e, str_eqb e.1 kind) (required_by_kind d).

Inductive Occ1ValidationError : Type :=
| MissingKind
| UnknownKind (kind : str)
| MissingRequired (kind field : str)
| InvalidSequence (seq : str)
| UnknownStatus (status : str).

Definition validate (d : Occ1Dialect) (m : Occ1Message) : result unit Occ1ValidationError :=
  match get m (lit "KIND") with
  | None => Err MissingKind
  | Some kind =>
      match required_for d kind with
      | None => Err (UnknownKind kind)
      | Some required =>
          let* _ := rfold (λ _ field, if has m field then Ok tt
                                      else Err (MissingRequired kind field)) tt required in
          let* _ := match get m (lit "SEQ") with
                    | Some seq => match parse_u64 seq with
                                  | None => Err (InvalidSequence seq)
                                  | Some _ => Ok tt
                                  end
                    | None => Ok tt
                    end in
          match get m (lit "STATUS") with
          | Some status => if negb (is_known_status status) then Err (UnknownStatus status)
                           else Ok tt
          | None => Ok tt
          end
      end
  end.

(** ** Well-formed messages *)

Definition key_char (b : N) : bool := is_ascii_uppercase b || is_ascii_digit b || (b =? 95).

Definition field_ok (f : str * str) : Prop :=
  validate_key f.1 = Ok tt ∧ byte_len f.2 ≤ OCC1_MAX_VALUE_BYTES ∧ has_control f.2 = false.

(** The text of a message: the header, then one line per field. *)
Definition render_line (f : str * str) : str := f.1 ++ 61 :: f.2.
Definition render (fs : list (str * str)) : str :=
  join [10] (OCC1_HEADER :: map render_line fs).

Definition wf_message (m : Occ1Message) : Prop :=
  len (fields m) ≤ OCC1_MAX_FIELDS ∧ Forall field_ok (fields m)
  ∧ byte_len (render (fields m)) ≤ OCC1_MAX_MESSAGE_BYTES.

Lemma validate_key_chars key :
  validate_key key = Ok tt → key ≠ [] ∧ Forall (λ b, key_char b = true) key.
Proof.
  unfold validate_key. destruct key as [|c key]; simpl; [done|].
  destruct (_ <? _); [done|]. destruct (is_ascii_uppercase c) eqn:Hc; [|done]. simpl.
  destruct (forallb _ _) eqn:Hf; [|done]. intros _. split; [done|].
  constructor; [by unfold key_char; rewrite Hc|].
  rewrite forallb_forall in Hf. apply Forall_forall. intros b Hb.
  apply Hf. by apply list_elem_of_In.
Qed.

Lemma key_char_range b : key_char b = true → 48 ≤ b ≤ 95 ∧ b ≠ 61 ∧ b ≠ 58 ∧ b ≠ 44.
Proof.
  unfold key_char, is_ascii_uppercase, is_ascii_digit.
  rewrite !orb_true_iff, !andb_true_iff, !N.leb_le, N.eqb_eq. lia.
Qed.

Lemma key_fresh c key :
  validate_key key = Ok tt → key_char c = false → c ∉ key.
Proof.
  intros [_ Hk]%validate_key_chars Hc Hin.
  eapply Forall_forall in Hk; [|exact Hin]. simpl in Hk. congruence.
Qed.

Lemma render_line_fresh c f :
  field_ok f → is_control c = true → key_char c = false → c ≠ 61 → c ∉ render_line f.
Proof.
  intros (Hk & _ & Hv) Hc Hkc Hne. unfold render_line. rewrite not_elem_of_app, not_elem_of_cons.
  split; [by apply key_fresh|]. split; [done|]. by apply has_control_false_not_in.
Qed.

Lemma render_cons fs : render fs = OCC1_HEADER ++ concat (map (λ f, 10 :: render_line f) fs).
Proof.
  unfold render. generalize OCC1_HEADER as h. induction fs as [|f fs IH]; intros h.
  - simpl. by rewrite app_nil_r.
  - simpl. f_equal. f_equal. apply IH.
Qed.

Lemma encode_fields_ok fs out t :
  rfold encode_field out fs = Ok t
  ↔ Forall field_ok fs ∧ t = out ++ concat (map (λ f, 10 :: render_line f) fs).
Proof.
  revert out. induction fs as [|[k v] fs IH]; intros out; simpl.
  - rewrite app_nil_r. split; [intros [= ->]; by split|by intros [_ ->]].
  - unfold field_ok at 1. rewrite Forall_cons. simpl.
    destruct (validate_key k) as [[]|] eqn:Hk; simpl; [|split; [done|by intros [[[? _] _] _]]].
    destruct (N.ltb_spec OCC1_MAX_VALUE_BYTES (byte_len v)) as [Hl|Hl].
    { split; [done|]. intros [[(_ & ? & _) _] _]. simpl in *. lia. }
    destruct (has_control v) eqn:Hc; [split; [done|intros [[(_ & _ & ?) _] _]; simpl in *; congruence]|].
    rewrite IH. unfold render_line. simpl. rewrite <-!app_assoc. simpl. rewrite <-!app_assoc.
    simpl. split; [intros [? ->]|intros [[_ ?] ->]]; repeat split; done.
Qed.

Lemma encode_ok m t : encode m = Ok t ↔ wf_message m ∧ t = render (fields m).
Proof.
  unfold encode, wf_message. rewrite render_cons.
  destruct (N.ltb_spec OCC1_MAX_FIELDS (len (fields m))); [split; [done|intros [[? _] _]; lia]|].
  destruct (rfold encode_field OCC1_HEADER (fields m)) as [out|] eqn:Hr.
  - apply encode_fields_ok in Hr as [Hf ->].
    destruct (N.ltb_spec OCC1_MAX_MESSAGE_BYTES
      (byte_len (OCC1_HEADER ++ concat (map (λ f, 10 :: render_line f) (fields m)))));
      [split; [done|intros [(_ & _ & ?) _]; lia]|].
    split; [intros [= <-]; done|by intros [_ ->]].
  - split; [done|]. intros [(_ & Hf & _) ->].
    rewrite (proj2 (encode_fields_ok (fields m) OCC1_HEADER _) (conj Hf eq_refl)) in Hr. done.
Qed.

(** *** Decoding what was rendered *)

Lemma header_fresh c : is_control c = true → c ∉ OCC1_HEADER.
Proof. apply has_control_false_not_in. by vm_compute. Qed.

Lemma decode_line_render n acc f :
  field_ok f → len acc < OCC1_MAX_FIELDS → decode_line n acc (render_line f) = Ok (acc ++ [f]).
Proof.
  intros Hf Ha. unfold decode_line.
  rewrite strip_suffix_or_fresh by (by apply render_line_fresh).
  destruct f as [k v]. destruct Hf as (Hk & Hl & Hc). simpl in *.
  destruct (validate_key_chars k Hk) as [Hne _]. unfold render_line. simpl.
  destruct k as [|c k]; [done|]. cbn [is_empty app].
  change (c :: k ++ 61 :: v) with ((c :: k) ++ 61 :: v).
  rewrite split_once_app by (by apply key_fresh).
  cbn [is_empty]. rewrite Hk, Hc. simpl.
  apply N.ltb_ge in Hl as ->. apply N.leb_gt in Ha as ->. done.
Qed.

Lemma decode_lines_render fs n acc :
  Forall field_ok fs → len acc + len fs ≤ OCC1_MAX_FIELDS →
  decode_lines n acc (map render_line fs) = Ok (acc ++ fs).
Proof.
  intros Hf. revert n acc. induction Hf as [|f fs Hf Hfs IH]; intros n acc Hl; simpl.
  - by rewrite app_nil_r.
  - unfold len in Hl. simpl in Hl.
    rewrite decode_line_render by (done || unfold len; lia).
    rewrite IH; [by rewrite <-app_assoc|]. rewrite len_app. unfold len in *. simpl. lia.
Qed.

Lemma render_ne_nil fs : render fs ≠ [].
Proof. by rewrite render_cons. Qed.

Lemma render_no_trailing_newline fs :
  Forall field_ok fs → strip_suffix_or 10 (render fs) = render fs.
Proof.
  intros Hf. rewrite render_cons. destruct fs as [|f fs _] using rev_ind.
  { cbn [map concat]. rewrite app_nil_r. by apply strip_suffix_or_fresh, header_fresh. }
  apply Forall_app in Hf as [_ Hf]. rewrite Forall_singleton in Hf.
  rewrite map_app, concat_app. cbn [map concat]. rewrite app_nil_r, app_assoc.
  change (10 :: render_line f) with ([10] ++ render_line f). rewrite app_assoc.
  apply strip_suffix_or_app_fresh; [|by apply render_line_fresh].
  unfold render_line. by destruct f.1.
Qed.

Lemma split_render fs :
  Forall field_ok fs → split_on 10 (render fs) = OCC1_HEADER :: map render_line fs.
Proof.
  intros Hf. apply split_on_join; [done|]. constructor; [by apply header_fresh|].
  apply Forall_map. eapply Forall_impl; [exact Hf|]. intros f Hok. by apply render_line_fresh.
Qed.

(** *** Accepted text is well formed *)

Lemma decode_line_inv n acc raw acc' :
  decode_line n acc raw = Ok acc' →
  ∃ f, acc' = acc ++ [f] ∧ field_ok f ∧ len acc < OCC1_MAX_FIELDS
       ∧ byte_len (render_line f) ≤ byte_len raw.
Proof.
  unfold decode_line. intros H.
  destruct (is_empty (strip_suffix_or 13 raw)); [done|].
  destruct (split_once 61 (strip_suffix_or 13 raw)) as [[k v]|] eqn:Hs; [|done].
  destruct (is_empty k); [done|].
  destruct (validate_key k) as [[]|] eqn:Hk; [|done]. simpl in H.
  destruct (has_control v) eqn:Hc; [done|].
  destruct (N.ltb_spec OCC1_MAX_VALUE_BYTES (byte_len v)); [done|].
  destruct (N.leb_spec OCC1_MAX_FIELDS (len acc)); [done|]. injection H as <-.
  exists (k, v). repeat split; try done.
  apply split_once_Some in Hs as [Hs _]. unfold render_line. simpl.
  rewrite <-Hs. apply byte_len_strip_suffix_or.
Qed.

Lemma decode_lines_inv lines n acc fs :
  len acc ≤ OCC1_MAX_FIELDS → decode_lines n acc lines = Ok fs →
  ∃ new, fs = acc ++ new ∧ Forall field_ok new ∧ len fs ≤ OCC1_MAX_FIELDS
         ∧ byte_len (concat (map (λ f, 10 :: render_line f) new))
           ≤ byte_len (concat (map (λ l, 10 :: l) lines)).
Proof.
  revert n acc. induction lines as [|raw lines IH]; intros n acc Ha H; simpl in H.
  - injection H as <-. exists []. rewrite app_nil_r. by repeat split.
  - destruct (decode_line n acc raw) as [acc'|] eqn:Hd; [|done].
    apply decode_line_inv in Hd as (f & -> & Hf & Hlt & Hb).
    apply IH in H as (new & -> & Hnew & Hl & Hbs).
    + exists (f :: new). rewrite <-app_assoc. repeat split; [by constructor|by rewrite <-app_assoc in Hl|].
      cbn [map concat]. rewrite !byte_len_app. simpl. lia.
    + rewrite len_app. unfold len in *. simpl. lia.
Qed.

Lemma join_cons_concat h ls : join [10] (h :: ls) = h ++ concat (map (λ l, 10 :: l) ls).
Proof.
  revert h. induction ls as [|l ls IH]; intros h; simpl; [by rewrite app_nil_r|].
  f_equal. f_equal. apply IH.
Qed.

Lemma decode_inv text m :
  decode text = Ok m →
  wf_message m ∧ byte_len (render (fields m)) ≤ byte_len text.
Proof.
  unfold decode. intros H. destruct (is_empty text); [done|].
  destruct (N.ltb_spec OCC1_MAX_MESSAGE_BYTES (byte_len text)) as [|Hmax]; [done|].
  destruct (join_split_on 10 (strip_suffix_or 10 text)) as [Hj _].
  destruct (split_on 10 (strip_suffix_or 10 text)) as [|h lines]; [done|].
  destruct (str_eqb_spec (strip_suffix_or 13 h) OCC1_HEADER) as [Hh|]; [|done]. simpl in H.
  destruct (decode_lines 2 [] lines) as [fs|] eqn:Hd; [|done]. injection H as <-.
  apply decode_lines_inv in Hd as (new & -> & Hok & Hl & Hb); [|done].
  assert (byte_len (render new) ≤ byte_len text) as Hle.
  { rewrite render_cons, byte_len_app. rewrite join_cons_concat in Hj.
    pose proof (byte_len_strip_suffix_or 10 text) as H10.
    pose proof (byte_len_strip_suffix_or 13 h) as H13. rewrite Hh in H13.
    rewrite <-Hj, byte_len_app in H10. lia. }
  unfold wf_message. simpl in *. repeat split; [done|done|lia|done].
Qed.

(** ** Round trip *)

Lemma decode_render m : wf_message m → decode (render (fields m)) = Ok m.
Proof.
  intros (Hl & Hf & Hb). unfold decode.
  destruct (is_empty (render (fields m))) eqn:He.
  { exfalso. apply (render_ne_nil (fields m)). by destruct (render (fields m)). }
  apply N.ltb_ge in Hb as ->.
  rewrite render_no_trailing_newline, split_render by done.
  rewrite strip_suffix_or_fresh by (by apply header_fresh). rewrite str_eqb_refl. simpl.
  rewrite decode_lines_render; [by destruct m|done|done].
Qed.

(** C35: encoding is lossless: whatever text [Occ1Message::encode] returns,
    [Occ1Message::decode] reads it back as exactly the same message, repeated
    keys and field order included. *)
Theorem occ1_encode_decode m text : encode m = Ok text → decode text = Ok m.
Proof. intros [Hwf ->]%encode_ok. by apply decode_render. Qed.

Definition sample_message : Occ1Message :=
  push (push (push new (lit "TASK") (lit "t1")) (lit "NEXT") (lit "run tests"))
       (lit "NEXT") (lit "a=b").

Lemma occ1_encode_decode_witness :
  ∃ text, encode sample_message = Ok text ∧ decode text = Ok sample_message.
Proof.
  eexists. split; [vm_compute; reflexivity|].
  apply (occ1_encode_decode sample_message). vm_compute. reflexivity.
Defined.

(** Decoding accepts only well-formed messages, and re-encoding one never
    fails: the canonical text is no longer than what was read and decodes to the
    same message. *)
Theorem occ1_decode_reencode text m :
  decode text = Ok m →
  wf_message m
  ∧ ∃ canonical, encode m = Ok canonical ∧ byte_len canonical ≤ byte_len text
                 ∧ decode canonical = Ok m.
Proof.
  intros [Hwf Hb]%decode_inv. split; [done|]. exists (render (fields m)).
  repeat split; [by apply encode_ok|done|by apply decode_render].
Qed.

Definition sample_text : str := OCC1_HEADER ++ [13; 10] ++ lit "TASK=t1" ++ [10].

Lemma occ1_decode_reencode_witness : ∃ m, decode sample_text = Ok m ∧ wf_message m.
Proof.
  eexists. split; [vm_compute; reflexivity|].
  eapply (occ1_decode_reencode sample_text). vm_compute. reflexivity.
Defined.

(** *** CRLF *)

(** A text with its line ends turned into CRLF, the last line ended too. *)
Definition to_crlf (text : str) : str :=
  flat_map (λ c, if c =? 10 then [13; 10] else [c]) text ++ [13; 10].

Lemma crlf_fresh h : 10 ∉ h → flat_map (λ c, if c =? 10 then [13; 10] else [c]) h = h.
Proof.
  induction h as [|c h IH]; simpl; [done|]. intros [Hc Hh]%not_elem_of_cons.
  destruct (N.eqb_spec c 10); [by subst|]. simpl. f_equal. by apply IH.
Qed.

Lemma to_crlf_join h ls :
  Forall (λ l, 10 ∉ l) (h :: ls) →
  to_crlf (join [10] (h :: ls)) = join [10] (map (λ l, l ++ [13]) (h :: ls)) ++ [10].
Proof.
  unfold to_crlf. revert h. induction ls as [|l ls IH]; intros h [Hh Hls]%Forall_cons.
  - simpl. rewrite crlf_fresh by done. by rewrite <-app_assoc.
  - change (join [10] (h :: l :: ls)) with (h ++ 10 :: join [10] (l :: ls)).
    rewrite flat_map_app, crlf_fresh, <-app_assoc by done. cbn [flat_map].
    rewrite N.eqb_refl, <-(app_assoc [13; 10]), IH by done.
    change (join [10] (map (λ l, l ++ [13]) (h :: l :: ls)))
      with ((h ++ [13]) ++ 10 :: join [10] (map (λ l, l ++ [13]) (l :: ls))).
    by rewrite <-!app_assoc.
Qed.

Lemma strip_suffix_or_snoc c l : strip_suffix_or c (l ++ [c]) = l.
Proof.
  unfold strip_suffix_or. by rewrite (proj2 (strip_suffix_char_Some c (l ++ [c]) l)).
Qed.

Lemma decode_lines_cr ls n acc :
  Forall (λ l, 13 ∉ l) ls →
  decode_lines n acc (map (λ l, l ++ [13]) ls) = decode_lines n acc ls.
Proof.
  intros Hls. revert n acc. induction Hls as [|l ls Hl Hls IH]; intros n acc; simpl; [done|].
  unfold decode_line. rewrite strip_suffix_or_snoc, strip_suffix_or_fresh by done.
  repeat case_match; auto.
Qed.

(** CRLF is tolerated: the encoded text with CRLF line ends, and with its last
    line ended as well, decodes to the message (when it is within the size bound). *)
Theorem occ1_decode_crlf m text :
  encode m = Ok text → byte_len (to_crlf text) ≤ OCC1_MAX_MESSAGE_BYTES →
  decode (to_crlf text) = Ok m.
Proof.
  intros [(Hl & Hf & Hb) ->]%encode_ok Hsize. unfold decode.
  destruct (is_empty (to_crlf (render (fields m)))) eqn:He.
  { exfalso. unfold to_crlf in He. by destruct (flat_map _ _). }
  apply N.ltb_ge in Hsize as ->. unfold render at 1.
  assert (Forall (λ l, 10 ∉ l) (OCC1_HEADER :: map render_line (fields m))) as H10.
  { constructor; [by apply header_fresh|]. apply Forall_map.
    eapply Forall_impl; [exact Hf|]. intros f Hok. by apply render_line_fresh. }
  rewrite to_crlf_join, strip_suffix_or_snoc by done.
  rewrite split_on_join; [|done|].
  2:{ apply Forall_map. eapply Forall_impl; [exact H10|]. intros l ?.
      apply not_elem_of_app. split; [done|]. apply not_elem_of_cons. split; [done|].
      apply not_elem_of_nil. }
  cbn [map]. rewrite strip_suffix_or_snoc, str_eqb_refl. simpl.
  rewrite decode_lines_cr.
  - rewrite decode_lines_render; [by destruct m|done|done].
  - apply Forall_map. eapply Forall_impl; [exact Hf|]. intros f Hok. by apply render_line_fresh.
Qed.

Lemma occ1_decode_crlf_witness :
  ∃ text, encode sample_message = Ok text ∧ decode (to_crlf text) = Ok sample_message.
Proof.
  eexists. split; [vm_compute; reflexivity|].
  apply (occ1_decode_crlf sample_message); [vm_compute; reflexivity|].
  apply N.leb_le. vm_compute. reflexivity.
Defined.

(** ** The accessors are those of an ordered multimap *)

Lemma key_is_true key f : key_is key f = true ↔ f.1 = key.
Proof. apply str_eqb_eq. Qed.

Lemma key_is_pair key k v : key_is key (k, v) = str_eqb k key.
Proof. done. Qed.

Lemma get_app a b key :
  get (mkOcc1 (a ++ b)) key =
  match get (mkOcc1 a) key with Some v => Some v | None => get (mkOcc1 b) key end.
Proof.
  unfold get. simpl. induction a as [|f a IH]; simpl; [done|].
  by destruct (key_is key f).
Qed.

Lemma get_cons f fs key :
  get (mkOcc1 (f :: fs)) key = if key_is key f then Some f.2 else get (mkOcc1 fs) key.
Proof. unfold get. simpl. by destruct (key_is key f). Qed.

Lemma get_all_app a b key :
  get_all (mkOcc1 (a ++ b)) key = get_all (mkOcc1 a) key ++ get_all (mkOcc1 b) key.
Proof. unfold get_all. simpl. by rewrite List.filter_app, map_app. Qed.

Lemma has_get m key : has m key = match get m key with Some _ => true | None => false end.
Proof.
  unfold has, get. induction (fields m) as [|f fs IH]; simpl; [done|].
  by destruct (key_is key f).
Qed.

Lemma get_all_get m key : get m key = head (get_all m key).
Proof.
  unfold get, get_all. induction (fields m) as [|f fs IH]; simpl; [done|].
  by destruct (key_is key f).
Qed.

(** Keys that [set] and [remove] leave alone. *)
Lemma get_all_filter_other fs key other :
  key ≠ other →
  get_all (mkOcc1 (List.filter (λ f, negb (key_is key f)) fs)) other = get_all (mkOcc1 fs) other.
Proof.
  intros Hne. unfold get_all. simpl. induction fs as [|[k v] fs IH]; simpl; [done|].
  rewrite !key_is_pair. destruct (str_eqb_spec k key) as [->|Hk]; simpl.
  - apply str_eqb_neq in Hne as ->. by rewrite IH.
  - rewrite key_is_pair. destruct (str_eqb k other); simpl; by rewrite IH.
Qed.

Lemma get_all_filter_same fs key :
  get_all (mkOcc1 (List.filter (λ f, negb (key_is key f)) fs)) key = [].
Proof.
  unfold get_all. simpl. induction fs as [|f fs IH]; simpl; [done|].
  destruct (key_is key f) eqn:Hk; simpl; [done|]. by rewrite Hk.
Qed.

Lemma filter_length_split {A} (p : A → bool) l :
  (length (List.filter p l) + length (List.filter (λ x, negb (p x)) l) = length l)%nat.
Proof. induction l as [|x l IH]; simpl; [done|]. destruct (p x); simpl; lia. Qed.

(** The accessors behave as an ordered multimap: [get] is the first of
    [get_all], [has] tells whether there is one, [push] appends to its key, [set]
    leaves exactly one value of its key and touches no other key, and [remove]
    deletes all values of its key, reports how many, and touches no other key. *)
Theorem occ1_multimap_laws m key value other :
  get m key = head (get_all m key)
  ∧ has m key = negb (is_empty (get_all m key))
  ∧ get_all (push m key value) key = get_all m key ++ [value]
  ∧ get_all (set m key value) key = [value]
  ∧ get_all (remove m key).1 key = []
  ∧ (remove m key).2 = len (get_all m key)
  ∧ (key ≠ other →
     get_all (push m key value) other = get_all m other
     ∧ get_all (set m key value) other = get_all m other
     ∧ get_all (remove m key).1 other = get_all m other).
Proof.
  split; [apply get_all_get|]. split.
  { rewrite has_get, get_all_get. by destruct (get_all m key). }
  assert (get_all (mkOcc1 [(key, value)]) key = [value]) as H1
    by (unfold get_all; simpl; by rewrite key_is_pair, str_eqb_refl).
  unfold set, push, remove. cbn [fields fst snd]. rewrite !get_all_app, H1, get_all_filter_same.
  repeat (split; [by destruct m|]). split.
  { unfold get_all, len. rewrite length_map.
    pose proof (filter_length_split (key_is key) (fields m)). lia. }
  intros Hne. rewrite ?get_all_app, !get_all_filter_other by done.
  assert (get_all (mkOcc1 [(key, value)]) other = []) as ->
    by (unfold get_all; simpl; rewrite key_is_pair; by apply str_eqb_neq in Hne as ->).
  rewrite !app_nil_r. by destruct m.
Qed.

Lemma validate_ok_iff d m :
  validate d m = Ok tt ↔
  ∃ kind required,
    get m (lit "KIND") = Some kind ∧ required_for d kind = Some required
    ∧ required_missing m required = []
    ∧ (∀ seq, get m (lit "SEQ") = Some seq → is_Some (parse_u64 seq))
    ∧ (∀ status, get m (lit "STATUS") = Some status → is_known_status status = true).
Proof.
  unfold validate. destruct (get m (lit "KIND")) as [kd|]; [|by split; [|intros (?&?&?&_)]].
  destruct (required_for d kd) as [req|] eqn:Hr.
  2:{ split; [done|]. intros (kd' & req' & [= <-] & Hr' & _). congruence. }
  assert (rfold (λ _ field, if has m field then Ok tt else Err (MissingRequired kd field)) tt req
          = Ok tt ↔ required_missing m req = []) as Hreq.
  { unfold required_missing. clear Hr. induction req as [|f req IH]; simpl; [done|].
    by destruct (has m f). }
  destruct (rfold _ tt req) as [[]|e].
  2:{ split; [done|]. intros (? & ? & [= <-] & [= <-]%(eq_trans (eq_sym Hr)) & Hmiss & _).
      by apply Hreq in Hmiss. }
  assert (required_missing m req = []) as Hmiss by (by apply Hreq). clear Hreq.
  destruct (get m (lit "SEQ")) as [sq|], (get m (lit "STATUS")) as [st|];
    try (destruct (parse_u64 sq) eqn:Hsq);
    try (destruct (is_known_status st) eqn:Hst; cbn [negb]);
    (split; [intros Hok; try discriminate Hok; exists kd, req; split_and!; try done;
             intros ? [= <-]; eauto; done
            |intros (? & ? & _ & _ & _ & Hs1 & Hs2); try done;
             try (by destruct (Hs1 _ eq_refl); congruence);
             try (by specialize (Hs2 _ eq_refl); congruence)]).
Qed.

(** The dialect accepts exactly the messages with a known kind, no required
    field missing, a numeric [SEQ] if any and a known [STATUS] if any. *)
Theorem occ1_dialect_exact d m :
  validate d m = Ok tt ↔
  ∃ kind required,
    get m (lit "KIND") = Some kind ∧ required_for d kind = Some required
    ∧ required_missing m required = []
    ∧ (∀ seq, get m (lit "SEQ") = Some seq → is_Some (parse_u64 seq))
    ∧ (∀ status, get m (lit "STATUS") = Some status → is_known_status status = true).
Proof. apply validate_ok_iff. Qed.
