(* ===== verification/Fields.v ===== *)
(** * Fields with numbered keys

    What the encoders of [contract.rs] and [delta.rs] share: keys
    [format!("{prefix}{n}")], the fields pushed by a loop over
    [iter().enumerate()], and the lemmas that find a field again in a message
    assembled from blocks of fields.  A key is split into its letters (its
    family) and its digits; a lookup skips every block whose families differ. *)
From stdpp Require Import base list numbers strings.
From S2P Require Import Prelude RustStr Occ1.

Local Open Scope N_scope.

(** [format!("{prefix}{n}")]. *)
Definition nkey (prefix : str) (n : N) : str := prefix ++ dec n.

Definition opt_field (key : str) (value : option str) : list (str * str) :=
  match value with Some v => [(key, v)] | None => [] end.

(** The fields pushed by a [for] loop over [iter().enumerate()], counted from [i]. *)
Fixpoint indexed {A B} (f : N → A → list B) (i : N) (l : list A) : list B :=
  match l with
  | [] => []
  | a :: l' => f i a ++ indexed f (i + 1) l'
  end.

(** [1..=n]. *)
Definition range1 (n : N) : list N := map N.of_nat (seq 1 (N.to_nat n)).

(** ** Families of keys *)

(** The letters before the first digit, and what follows them. *)
Fixpoint family (key : str) : str :=
  match key with
  | c :: key' => if is_ascii_digit c then [] else c :: family key'
  | [] => []
  end.

Definition letters (p : str) : bool := forallb (λ c, is_ascii_uppercase c) p.

Lemma upper_not_digit c : is_ascii_uppercase c = true → is_ascii_digit c = false.
Proof.
  unfold is_ascii_uppercase, is_ascii_digit. rewrite andb_true_iff, andb_false_iff.
  rewrite !N.leb_le, !N.leb_gt. lia.
Qed.

Lemma family_letters p d : letters p = true → all_digits d → family (p ++ d) = p.
Proof.
  intros Hp Hd. induction p as [|c p IH]; simpl.
  - destruct Hd as [|c d Hc _]; simpl; [done|]. by rewrite Hc.
  - simpl in Hp. apply andb_true_iff in Hp as [Hc Hp].
    rewrite (upper_not_digit c Hc). f_equal. by apply IH.
Qed.

Lemma family_nkey p n : letters p = true → family (nkey p n) = p.
Proof. intros Hp. apply family_letters; [done|apply dec_digits]. Qed.

Lemma family_lit p : letters p = true → family p = p.
Proof. intros Hp. rewrite <-(app_nil_r p) at 1. apply family_letters; [done|constructor]. Qed.

Lemma nkey_inj p q n m :
  letters p = true → letters q = true → nkey p n = nkey q m → p = q ∧ n = m.
Proof.
  intros Hp Hq H. assert (p = q) as <-.
  { rewrite <-(family_nkey p n), <-(family_nkey q m) by done. by rewrite H. }
  split; [done|]. apply dec_inj. by apply app_inv_head in H.
Qed.

Definition in_families (l : list str) (fs : list (str * str)) : Prop :=
  Forall (λ f, family f.1 ∈ l) fs.

Lemma one_of_elem s l : one_of s l = true ↔ s ∈ l.
Proof.
  unfold one_of. rewrite existsb_exists. split.
  - intros (x & Hx & ->%str_eqb_eq). by apply list_elem_of_In.
  - intros H. exists s. by rewrite <-list_elem_of_In, str_eqb_refl.
Qed.

Lemma one_of_not_elem s l : one_of s l = false ↔ s ∉ l.
Proof. rewrite <-one_of_elem. by destruct (one_of s l). Qed.

Lemma get_family_none l fs key :
  in_families l fs → one_of (family key) l = false → get (mkOcc1 fs) key = None.
Proof.
  intros Hf Hk%one_of_not_elem. induction Hf as [|[k v] fs Hkv Hfs IH]; [done|].
  rewrite get_cons, key_is_pair. destruct (str_eqb_spec k key) as [->|]; [done|exact IH].
Qed.

Lemma get_all_family_nil l fs key :
  in_families l fs → one_of (family key) l = false → get_all (mkOcc1 fs) key = [].
Proof.
  intros Hf Hk%one_of_not_elem. unfold get_all. simpl.
  induction Hf as [|[k v] fs Hkv Hfs IH]; simpl; [done|].
  rewrite key_is_pair. by destruct (str_eqb_spec k key) as [->|].
Qed.

(** Skip a block of other families at the front, or stop before the blocks of
    other families at the back. *)
Lemma get_skip fam l a b key :
  in_families l a → family key = fam → one_of fam l = false →
  get (mkOcc1 (a ++ b)) key = get (mkOcc1 b) key.
Proof. intros Ha <- Hk. rewrite get_app. by rewrite (get_family_none l a). Qed.

Lemma get_stop a b key :
  get (mkOcc1 b) key = None → get (mkOcc1 (a ++ b)) key = get (mkOcc1 a) key.
Proof. intros Hb. rewrite get_app, Hb. by destruct (get (mkOcc1 a) key). Qed.

Lemma get_all_skip fam l a b key :
  in_families l a → family key = fam → one_of fam l = false →
  get_all (mkOcc1 (a ++ b)) key = get_all (mkOcc1 b) key.
Proof. intros Ha <- Hk. rewrite get_all_app. by rewrite (get_all_family_nil l a). Qed.

Lemma get_all_stop a b key :
  get_all (mkOcc1 b) key = [] → get_all (mkOcc1 (a ++ b)) key = get_all (mkOcc1 a) key.
Proof. intros Hb. by rewrite get_all_app, Hb, app_nil_r. Qed.

Lemma in_families_app l a b : in_families l a → in_families l b → in_families l (a ++ b).
Proof. intros Ha Hb. by apply Forall_app. Qed.

Lemma in_families_opt k o : in_families [family k] (opt_field k o).
Proof. destruct o; repeat constructor. Qed.

Lemma in_families_one k v : in_families [family k] [(k, v)].
Proof. repeat constructor. Qed.

Lemma in_families_indexed {A} l (f : N → A → list (str * str)) i xs :
  (∀ n a, in_families l (f n a)) → in_families l (indexed f i xs).
Proof.
  intros H. revert i. induction xs as [|x xs IH]; intros i; simpl; [constructor|].
  apply in_families_app; auto.
Qed.

Lemma get_opt k o : get (mkOcc1 (opt_field k o)) k = o.
Proof. destruct o; simpl; [|done]. by rewrite get_cons, key_is_pair, str_eqb_refl. Qed.

(** ** Numbered blocks *)

(** Every key of the block carries the number [n]. *)
Definition keys_at (n : N) (fs : list (str * str)) : Prop :=
  Forall (λ f, ∃ q, letters q = true ∧ f.1 = nkey q n) fs.

Lemma get_keys_at n n' p fs :
  letters p = true → keys_at n' fs → n ≠ n' → get (mkOcc1 fs) (nkey p n) = None.
Proof.
  intros Hp Hf Hne. induction Hf as [|[k v] fs (q & Hq & Hk) Hfs IH]; [done|].
  rewrite get_cons, key_is_pair. simpl in Hk. subst k.
  destruct (str_eqb_spec (nkey q n') (nkey p n)) as [Heq|]; [|exact IH].
  apply nkey_inj in Heq as [_ ?]; [by subst|done|done].
Qed.

Lemma get_indexed_below {A} (f : N → A → list (str * str)) i xs n p :
  letters p = true → (∀ n a, keys_at n (f n a)) → n < i →
  get (mkOcc1 (indexed f i xs)) (nkey p n) = None.
Proof.
  intros Hp Hk. revert i. induction xs as [|x xs IH]; intros i Hi; simpl; [done|].
  rewrite get_app, (get_keys_at n i) by (auto || lia). apply IH. lia.
Qed.

Lemma get_indexed {A} (f : N → A → list (str * str)) xs i j p :
  letters p = true → (∀ n a, keys_at n (f n a)) →
  get (mkOcc1 (indexed f i xs)) (nkey p (i + N.of_nat j)) =
  match xs !! j with
  | Some a => get (mkOcc1 (f (i + N.of_nat j) a)) (nkey p (i + N.of_nat j))
  | None => None
  end.
Proof.
  intros Hp Hk. revert i j. induction xs as [|x xs IH]; intros i j; [done|].
  destruct j as [|j]; cbn [indexed lookup list_lookup].
  - replace (i + N.of_nat 0) with i by lia. rewrite get_app, (get_indexed_below f (i + 1)) by (auto || lia).
    by destruct (get (mkOcc1 (f i x)) (nkey p i)).
  - rewrite get_app, (get_keys_at _ i) by (auto || lia).
    replace (i + N.of_nat (S j)) with ((i + 1) + N.of_nat j) by lia. apply IH.
Qed.

Lemma range1_length n : length (range1 n) = N.to_nat n.
Proof. unfold range1. by rewrite length_map, length_seq. Qed.

Lemma range1_lookup n j : (j < N.to_nat n)%nat → range1 n !! j = Some (1 + N.of_nat j).
Proof.
  intros Hj. unfold range1. rewrite list_lookup_fmap, lookup_seq_lt by done. simpl. f_equal. lia.
Qed.

(** A loop over [1..=n] that reads item [j] of a list back, reads the list. *)
Lemma range1_elem n j : j ∈ range1 n ↔ 1 ≤ j ∧ j ≤ n.
Proof.
  unfold range1. rewrite list_elem_of_fmap. setoid_rewrite elem_of_seq. split.
  - intros (k & -> & Hk). lia.
  - intros Hj. exists (N.to_nat j). lia.
Qed.

Lemma range1_NoDup n : NoDup (range1 n).
Proof. apply NoDup_fmap_2; [intros ???; lia|apply NoDup_seq]. Qed.

Lemma rmap_range1 {A B E} (f : N → result B E) (g : A → B) (xs : list A) :
  (∀ j a, xs !! j = Some a → f (1 + N.of_nat j) = Ok (g a)) →
  rmap f (range1 (len xs)) = Ok (map g xs).
Proof.
  intros H. apply rmap_Forall2. apply Forall2_fmap_r.
  apply Forall2_same_length_lookup_2.
  - rewrite range1_length. unfold len. lia.
  - intros j n a Hn Ha. pose proof (lookup_lt_Some _ _ _ Ha) as Hlt.
    rewrite range1_lookup in Hn by (unfold len; lia). injection Hn as <-. by apply H.
Qed.

Lemma rmap_range1_inv {B E} (f : N → result B E) n l :
  rmap f (range1 n) = Ok l → ∀ j b, l !! j = Some b → f (1 + N.of_nat j) = Ok b.
Proof.
  intros H%rmap_Forall2 j b Hb.
  destruct (Forall2_lookup_r _ _ _ _ _ H Hb) as (i & Hi & Hf).
  pose proof (lookup_lt_Some _ _ _ Hi) as Hlt. rewrite range1_length in Hlt.
  rewrite range1_lookup in Hi by done. by injection Hi as <-.
Qed.

(** ** Shapes: letters then digits *)

(** Every key of the block is letters of one of the families, then digits. *)
Definition shaped (l : list str) (fs : list (str * str)) : Prop :=
  Forall (λ f, ∃ q d, letters q = true ∧ all_digits d ∧ q ∈ l ∧ f.1 = q ++ d) fs.

Lemma shaped_families l fs : shaped l fs → in_families l fs.
Proof.
  intros H. eapply Forall_impl; [exact H|]. intros f (q & d & Hq & Hd & Hl & ->).
  by rewrite family_letters.
Qed.

Lemma shaped_app l a b : shaped l a → shaped l b → shaped l (a ++ b).
Proof. intros Ha Hb. by apply Forall_app. Qed.

Lemma shaped_lit l k v : letters k = true → one_of k l = true → shaped l [(k, v)].
Proof.
  intros Hk Hl%one_of_elem. repeat constructor. exists k, []. rewrite app_nil_r. repeat split; auto. constructor.
Qed.

Lemma shaped_nkey l p n v : letters p = true → one_of p l = true → shaped l [(nkey p n, v)].
Proof.
  intros Hk Hl%one_of_elem. repeat constructor. exists p, (dec n). repeat split; auto. apply dec_digits.
Qed.

Lemma shaped_opt l k o : (∀ v, shaped l [(k, v)]) → shaped l (opt_field k o).
Proof. intros H. destruct o; [apply H|constructor]. Qed.

Lemma shaped_indexed {A} l (f : N → A → list (str * str)) i xs :
  (∀ n a, shaped l (f n a)) → shaped l (indexed f i xs).
Proof.
  intros H. revert i. induction xs as [|x xs IH]; intros i; simpl; [constructor|].
  apply shaped_app; auto.
Qed.

Lemma shaped_map_lit {A} l k (f : A → str) xs :
  letters k = true → one_of k l = true → shaped l (map (λ a, (k, f a)) xs).
Proof.
  intros Hk Hl. induction xs as [|x xs IH]; [constructor|].
  apply (shaped_app l [(k, f x)]); [by apply shaped_lit|exact IH].
Qed.

Lemma keys_at_app n a b : keys_at n a → keys_at n b → keys_at n (a ++ b).
Proof. intros Ha Hb. by apply Forall_app. Qed.

Lemma keys_at_one n p v : letters p = true → keys_at n [(nkey p n, v)].
Proof. intros Hp. repeat constructor. by exists p. Qed.

Lemma keys_at_opt n p o : letters p = true → keys_at n (opt_field (nkey p n) o).
Proof. intros Hp. destruct o; [by apply keys_at_one|constructor]. Qed.

Lemma shaped_cons l k v fs :
  letters k = true → one_of k l = true → shaped l fs → shaped l ((k, v) :: fs).
Proof. intros Hk Hl Hfs. apply (shaped_app l [_]); [by apply shaped_lit|done]. Qed.

(** Blocks of a single family. *)
Lemma shaped_lit1 k v : letters k = true → shaped [k] [(k, v)].
Proof. intros Hk. apply shaped_lit; [done|]. simpl. by rewrite str_eqb_refl. Qed.

Lemma shaped_opt1 k o : letters k = true → shaped [k] (opt_field k o).
Proof. intros Hk. apply shaped_opt. intros v. by apply shaped_lit1. Qed.

Lemma shaped_nkey1 p n v : letters p = true → shaped [p] [(nkey p n, v)].
Proof. intros Hk. apply shaped_nkey; [done|]. simpl. by rewrite str_eqb_refl. Qed.

Lemma shaped_opt_nkey1 p n o : letters p = true → shaped [p] (opt_field (nkey p n) o).
Proof. intros Hk. apply shaped_opt. intros v. by apply shaped_nkey1. Qed.

Lemma shaped_indexed1 {A} p (g : A → str) i xs :
  letters p = true → shaped [p] (indexed (λ n a, [(nkey p n, g a)]) i xs).
Proof. intros Hk. apply shaped_indexed. intros n a. by apply shaped_nkey1. Qed.

Lemma shaped_map1 {A} k (f : A → str) xs :
  letters k = true → shaped [k] (map (λ a, (k, f a)) xs).
Proof. intros Hk. apply shaped_map_lit; [done|]. simpl. by rewrite str_eqb_refl. Qed.

(** Decide a lookup by families: skip the blocks that cannot hold the key. *)
Ltac family_of_key :=
  first [ apply family_nkey; reflexivity | reflexivity ].

Ltac skip_block H :=
  first
    [ erewrite get_skip; [|eapply shaped_families; H|family_of_key|reflexivity]
    | erewrite get_all_skip; [|eapply shaped_families; H|family_of_key|reflexivity] ].

Ltac no_field H :=
  repeat skip_block H;
  first [ eapply get_family_none; [eapply shaped_families; H|]
        | eapply get_all_family_nil; [eapply shaped_families; H|] ];
  first [ rewrite family_nkey by reflexivity; reflexivity | reflexivity ].

(** Reduce a lookup in a concatenation of blocks to the block that holds the key. *)
Ltac to_block H :=
  repeat skip_block H;
  try first [ rewrite get_stop by no_field H | rewrite get_all_stop by no_field H ].

Ltac base_block :=
  first [ apply shaped_opt1; reflexivity | apply shaped_lit1; reflexivity
        | apply shaped_indexed1; reflexivity | apply shaped_map1; reflexivity ].

Lemma get_one k v : get (mkOcc1 [(k, v)]) k = Some v.
Proof. by rewrite get_cons, key_is_pair, str_eqb_refl. Qed.

Lemma get_head k v fs : get (mkOcc1 ((k, v) :: fs)) k = Some v.
Proof. by rewrite get_cons, key_is_pair, str_eqb_refl. Qed.

Lemma get_all_map_same {A} k (f : A → str) xs :
  get_all (mkOcc1 (map (λ a, (k, f a)) xs)) k = map f xs.
Proof.
  unfold get_all. simpl. induction xs as [|x xs IH]; simpl; [done|].
  rewrite key_is_pair, str_eqb_refl. simpl. by f_equal.
Qed.
