(* ===== verification/Contract.v ===== *)
(** * The typed agent-to-agent contract and its OCC-1 encoding

    [core/occ/contract.rs]: the [AgentCommMessage] payload, its [validate] rules,
    the encoder [to_occ1] and the decoder [from_occ1] with the index bookkeeping
    [indexed_count].  A formatted error message is kept as its format string and
    its arguments.  The RFC 3339 test of the [chrono] crate is a parameter. *)
From stdpp Require Import base list numbers strings.
From S2P Require Import Prelude RustStr RustFloat Occ1 Fields.

Local Open Scope N_scope.

(** ** Data *)

Definition AGENT_COMM_PROTOCOL : str := lit "optimus.agent-comm.v1".

Definition evidence_kinds : list str :=
  [lit "src"; lit "commit"; lit "log"; lit "build"; lit "tool"; lit "artifact"; lit "lines";
   lit "finding"; lit "file"; lit "transcript"].

Definition is_known_evidence_kind (kind : str) : bool := one_of kind evidence_kinds.

Definition VERIFICATION_PASS : str := lit "pass".
Definition VERIFICATION_FAIL : str := lit "fail".
Definition VERIFICATION_UNKNOWN : str := lit "unknown".
Definition is_known_verification (status : str) : bool :=
  one_of status [VERIFICATION_PASS; VERIFICATION_FAIL; VERIFICATION_UNKNOWN].

(** An argument of a format string. *)
Inductive fmt_arg : Type :=
| ArgN (n : N)
| ArgS (s : str).

Inductive ContractError : Type :=
| MissingRequired (field : str)
| InvalidTaskId (id : str)
| UnknownKind (kind : str)
| UnknownStatus (status : str)
| ProtocolMismatch (protocol : str)
| InvalidConfidence (c : f32)
| UnknownEvidence (finding_id evidence_id : str)
| UnknownEvidenceKind (kind : str)
| InvalidTimestamp (stamp : str)
| Occ1Conversion (template : string) (args : list fmt_arg)
| Occ1Failure (e : Occ1Error).

Record EvidenceRef : Type := mkEvidence {
  ev_id : str;
  ev_kind : str;
  locator : str;
  line_range : option (N * N);
  digest : option str;
  revision : option str;
  verified : option bool }.

Record Finding : Type := mkFinding {
  f_id : str;
  statement : str;
  confidence : option f32;
  f_evidence : list str }.

Record Verification : Type := mkVerification {
  claim : str;
  v_status : str;
  method : str;
  receipt : option str }.

Record AgentCommMessage : Type := mkMessage {
  message_id : option str;
  task_id : str;
  parent_task_id : option str;
  trace_id : option str;
  sender_identity : option str;
  recipient_identity : option str;
  kind : str;
  status : str;
  findings : list Finding;
  evidence : list EvidenceRef;
  artifacts : list str;
  verification : option Verification;
  dependencies : list str;
  next_actions : list str;
  sequence : option N;
  protocol : str;
  timestamp : option str;
  expiry : option str }.

(** ** Validation *)

(** A [for] loop of checks. *)
Definition rall {A E} (f : A → result unit E) (l : list A) : result unit E :=
  rfold (λ _ a, f a) tt l.

Definition guard_err {E} (b : bool) (e : E) : result unit E := if b then Err e else Ok tt.

Definition check_finding (evidence_ids : list str) (f : Finding) : result unit ContractError :=
  let* _ := match confidence f with
            | Some c => guard_err (negb (in_unit c)) (InvalidConfidence c)
            | None => Ok tt
            end in
  rall (λ id, guard_err (negb (one_of id evidence_ids)) (UnknownEvidence (f_id f) id))
       (f_evidence f).

(** ** Encoding *)

Definition finding_fields (n : N) (f : Finding) : list (str * str) :=
  [(nkey (lit "F") n, statement f)]
  ++ opt_field (nkey (lit "FC") n) (fmt3 <$> confidence f)
  ++ (if is_empty (f_evidence f) then []
      else [(nkey (lit "FE") n, join (lit ",") (f_evidence f))]).

Definition evidence_fields (n : N) (e : EvidenceRef) : list (str * str) :=
  [(nkey (lit "E") n, ev_kind e ++ lit ":" ++ locator e)]
  ++ opt_field (nkey (lit "EL") n)
       ((λ r, dec r.1 ++ lit "-" ++ dec r.2) <$> line_range e)
  ++ opt_field (nkey (lit "ED") n) (digest e)
  ++ opt_field (nkey (lit "ER") n) (revision e)
  ++ opt_field (nkey (lit "EV") n)
       ((λ b : bool, if b then lit "pass" else lit "fail") <$> verified e).

Definition verification_fields (v : option Verification) : list (str * str) :=
  match v with
  | Some v => [(lit "V", claim v); (lit "VS", v_status v); (lit "VM", method v)]
              ++ opt_field (lit "VR") (receipt v)
  | None => []
  end.

Definition message_fields (m : AgentCommMessage) : list (str * str) :=
  opt_field (lit "MSGID") (message_id m)
  ++ [(lit "TASK", task_id m)]
  ++ opt_field (lit "PARENT") (parent_task_id m)
  ++ opt_field (lit "TRACE") (trace_id m)
  ++ opt_field (lit "SENDER") (sender_identity m)
  ++ opt_field (lit "RECIPIENT") (recipient_identity m)
  ++ [(lit "KIND", kind m); (lit "STATUS", status m)]
  ++ opt_field (lit "SEQ") (dec <$> sequence m)
  ++ indexed finding_fields 1 (findings m)
  ++ indexed evidence_fields 1 (evidence m)
  ++ indexed (λ n a, [(nkey (lit "ART") n, a)]) 1 (artifacts m)
  ++ verification_fields (verification m)
  ++ indexed (λ n d, [(nkey (lit "DEP") n, d)]) 1 (dependencies m)
  ++ map (λ a, (lit "NEXT", a)) (next_actions m)
  ++ opt_field (lit "TS") (timestamp m)
  ++ opt_field (lit "EXP") (expiry m).

(** ** Decoding *)

(** The index of a key of the family [prefix], when it has one. *)
Definition index_of (prefix key : str) : option N :=
  match strip_prefix prefix key with
  | Some rest => parse_usize rest
  | None => None
  end.

Definition highest_index (prefix : str) (fs : list (str * str)) : N :=
  List.fold_left (λ h f, match index_of prefix f.1 with
                         | Some i => N.max h i
                         | None => h
                         end) fs 0.

(** The loop [for index in 1..=highest], which stops at the first absent index.
    One more round than the message has fields is enough: the indices found
    present are distinct keys of the message. *)
Fixpoint check_indices (fuel : nat) (m : Occ1Message) (prefix : str) (index highest : N)
  : result unit ContractError :=
  match fuel with
  | O => Ok tt
  | S fuel' =>
      if highest <? index then Ok tt
      else if has m (nkey prefix index)
      then check_indices fuel' m prefix (index + 1) highest
      else Err (Occ1Conversion "{prefix} index {index} missing below the highest index {highest}"
                  [ArgS prefix; ArgN index; ArgN highest])
  end.

Definition indexed_count (m : Occ1Message) (prefix : str) : result N ContractError :=
  let highest := highest_index prefix (iter m) in
  let* _ := check_indices (S (length (fields m))) m prefix 1 highest in
  Ok highest.

Definition decode_reference (index evidence_count : N) (acc : list str) (reference : str)
  : result (list str) ContractError :=
  let reference := trim reference in
  if is_empty reference then Ok acc
  else
    let* number :=
      ok_or (match strip_prefix (lit "E") reference with
             | Some suffix => parse_usize suffix
             | None => None
             end)
        (Occ1Conversion "FE{index} references {reference:?}, expected E<n>"
           [ArgN index; ArgS reference]) in
    if (number =? 0) || (evidence_count <? number)
    then Err (Occ1Conversion "FE{index} references E{number}, outside 1..={evidence_count}"
                [ArgN index; ArgN number; ArgN evidence_count])
    else Ok (acc ++ [nkey (lit "E") number]).

Definition decode_finding (m : Occ1Message) (evidence_count index : N)
  : result Finding ContractError :=
  let* statement :=
    ok_or (get m (nkey (lit "F") index))
      (Occ1Conversion "finding index {index} missing (indices must be contiguous from 1)"
         [ArgN index]) in
  let* conf :=
    match get m (nkey (lit "FC") index) with
    | Some c => let* v := ok_or (parse_f32 c) (Occ1Conversion "FC{index} not a number" [ArgN index]) in
                Ok (Some v)
    | None => Ok None
    end in
  let* refs :=
    match get m (nkey (lit "FE") index) with
    | Some evidence => rfold (decode_reference index evidence_count) [] (split_on 44 evidence)
    | None => Ok []
    end in
  Ok (mkFinding (nkey (lit "F") index) statement conf refs).

Definition decode_line_range (index : N) (range : str) : result (N * N) ContractError :=
  match split_once 45 range with
  | None => Err (Occ1Conversion "EL{index} must be <start>-<end>" [ArgN index])
  | Some (start, end_) =>
      let* s := ok_or (parse_u32 start) (Occ1Conversion "EL{index} start invalid" [ArgN index]) in
      let* e := ok_or (parse_u32 end_) (Occ1Conversion "EL{index} end invalid" [ArgN index]) in
      Ok (s, e)
  end.

Definition decode_verified (index : N) (verdict : option str)
  : result (option bool) ContractError :=
  match verdict with
  | None => Ok None
  | Some v =>
      if str_eqb v (lit "pass") then Ok (Some true)
      else if str_eqb v (lit "fail") then Ok (Some false)
      else if str_eqb v (lit "unknown") then Ok None
      else Err (Occ1Conversion "EV{index} must be pass/fail/unknown, got {other:?}"
                  [ArgN index; ArgS v])
  end.

Definition decode_evidence (m : Occ1Message) (index : N) : result EvidenceRef ContractError :=
  let* encoded :=
    ok_or (get m (nkey (lit "E") index))
      (Occ1Conversion "evidence index {index} missing (indices must be contiguous from 1)"
         [ArgN index]) in
  match split_once 58 encoded with
  | None => Err (Occ1Conversion "E{index} must be <kind>:<locator>" [ArgN index])
  | Some (kind, locator) =>
      let* range := match get m (nkey (lit "EL") index) with
                    | Some range => let* r := decode_line_range index range in Ok (Some r)
                    | None => Ok None
                    end in
      let* verdict := decode_verified index (get m (nkey (lit "EV") index)) in
      Ok (mkEvidence (nkey (lit "E") index) kind locator range
            (get m (nkey (lit "ED") index)) (get m (nkey (lit "ER") index)) verdict)
  end.

Definition decode_verification (m : Occ1Message) : result (option Verification) ContractError :=
  match get m (lit "V") with
  | Some claim =>
      let* vs := ok_or (get m (lit "VS")) (Occ1Conversion "V without VS" []) in
      let* vm := ok_or (get m (lit "VM")) (Occ1Conversion "V without VM" []) in
      Ok (Some (mkVerification claim vs vm (get m (lit "VR"))))
  | None =>
      if has m (lit "VS") || has m (lit "VM") then Err (Occ1Conversion "VS/VM without V" [])
      else Ok None
  end.

Section Contract.
  (** [chrono::DateTime::parse_from_rfc3339(_).is_ok()]. *)
  Context (is_rfc3339 : str → bool).

Definition validate (m : AgentCommMessage) : result unit ContractError :=
  let* _ := guard_err (is_empty (task_id m) || has_control (task_id m))
              (InvalidTaskId (task_id m)) in
  let* _ := guard_err (negb (is_known_kind (kind m))) (UnknownKind (kind m)) in
  let* _ := guard_err (negb (is_known_status (status m))) (UnknownStatus (status m)) in
  let* _ := guard_err (str_eqb (kind m) KIND_EVIDENCE && is_empty (evidence m))
              (Occ1Conversion
                 "an EVIDENCE message must carry at least one evidence reference" []) in
  let* _ := guard_err (negb (str_eqb (protocol m) AGENT_COMM_PROTOCOL))
              (ProtocolMismatch (protocol m)) in
  let* _ := rall (check_finding (map ev_id (evidence m))) (findings m) in
  let* _ := rall (λ e, guard_err (negb (is_known_evidence_kind (ev_kind e)))
                         (UnknownEvidenceKind (ev_kind e))) (evidence m) in
  let* _ := match verification m with
            | Some v => guard_err (negb (is_known_verification (v_status v)))
                          (Occ1Conversion "unknown verification status {:?}" [ArgS (v_status v)])
            | None => Ok tt
            end in
  rall (λ stamp, guard_err (negb (is_rfc3339 stamp)) (InvalidTimestamp stamp))
       (option_list (timestamp m) ++ option_list (expiry m)).

(** [to_occ1], which is [try_into_occ1]. *)
Definition to_occ1 (m : AgentCommMessage) : result Occ1Message ContractError :=
  let* _ := validate m in Ok (mkOcc1 (message_fields m)).

Definition from_occ1 (m : Occ1Message) : result AgentCommMessage ContractError :=
  let* task := ok_or (get m (lit "TASK")) (MissingRequired (lit "TASK")) in
  let* kd := ok_or (get m (lit "KIND")) (MissingRequired (lit "KIND")) in
  let* st := ok_or (get m (lit "STATUS")) (MissingRequired (lit "STATUS")) in
  let* seq :=
    match get m (lit "SEQ") with
    | Some seq => let* v := ok_or (parse_u64 seq)
                              (Occ1Conversion "SEQ {seq:?} is not a u64" [ArgS seq]) in
                  Ok (Some v)
    | None => Ok None
    end in
  let* evidence_count := indexed_count m (lit "E") in
  let* finding_count := indexed_count m (lit "F") in
  let* fs := rmap (decode_finding m evidence_count) (range1 finding_count) in
  let* es := rmap (decode_evidence m) (range1 evidence_count) in
  let* artifact_count := indexed_count m (lit "ART") in
  let* arts := rmap (λ i, ok_or (get m (nkey (lit "ART") i))
                            (Occ1Conversion "artifact index {index} missing" [ArgN i]))
                 (range1 artifact_count) in
  let* v := decode_verification m in
  let* dependency_count := indexed_count m (lit "DEP") in
  let* deps := rmap (λ i, ok_or (get m (nkey (lit "DEP") i))
                            (Occ1Conversion "dependency index {index} missing" [ArgN i]))
                 (range1 dependency_count) in
  let out := mkMessage (get m (lit "MSGID")) task (get m (lit "PARENT")) (get m (lit "TRACE"))
               (get m (lit "SENDER")) (get m (lit "RECIPIENT")) kd st fs es arts v deps
               (get_all m (lit "NEXT")) seq AGENT_COMM_PROTOCOL (get m (lit "TS"))
               (get m (lit "EXP")) in
  let* _ := validate out in
  Ok out.

End Contract.

(** ** Index bookkeeping *)

Lemma index_of_shape p q d :
  letters p = true → letters q = true → all_digits d →
  index_of p (q ++ d) = if str_eqb q p then parse_usize d else None.
Proof.
  intros Hp. revert q. induction p as [|x p IH]; intros q Hq Hd.
  - unfold index_of. cbn [strip_prefix]. destruct q as [|c q]; [done|]. simpl in *.
    apply andb_true_iff in Hq as [Hc _]. apply parse_uint_nondigit.
    + by apply upper_not_digit.
    + intros ->. done.
  - simpl in Hp. apply andb_true_iff in Hp as [Hx Hp]. destruct q as [|y q].
    + simpl. destruct Hd as [|c d Hc Hd]; [done|]. unfold index_of. simpl.
      destruct (N.eqb_spec x c) as [->|]; [|done].
      apply upper_not_digit in Hx. congruence.
    + simpl in Hq. apply andb_true_iff in Hq as [Hy Hq].
      specialize (IH Hp q Hq Hd). unfold index_of in *. simpl.
      rewrite (N.eqb_sym y x). destruct (x =? y); [exact IH|done].
Qed.

Lemma highest_fold p fs h :
  List.fold_left (λ h f, match index_of p f.1 with Some i => N.max h i | None => h end) fs h
  = N.max h (highest_index p fs).
Proof.
  unfold highest_index. revert h. induction fs as [|f fs IH]; intros h; simpl; [lia|].
  destruct (index_of p f.1) as [n|]; [rewrite (IH (N.max h n)), (IH (N.max 0 n)); lia|apply IH].
Qed.

Lemma highest_app p a b : highest_index p (a ++ b) = N.max (highest_index p a) (highest_index p b).
Proof. unfold highest_index at 1. rewrite fold_left_app, highest_fold. done. Qed.

Lemma highest_cons p f fs :
  highest_index p (f :: fs)
  = N.max (match index_of p f.1 with Some i => i | None => 0 end) (highest_index p fs).
Proof.
  unfold highest_index at 1. simpl. rewrite highest_fold. destruct (index_of p f.1); lia.
Qed.

Lemma highest_other p l fs :
  letters p = true → shaped l fs → one_of p l = false → highest_index p fs = 0.
Proof.
  intros Hp Hs Hl%one_of_not_elem. induction Hs as [|[k v] fs (q & d & Hq & Hd & Hin & Hk) Hfs IH];
    [done|]. rewrite highest_cons, IH. simpl in *. subst k.
  rewrite index_of_shape by done. destruct (str_eqb_spec q p) as [->|]; [done|lia].
Qed.

Lemma highest_nkey p n v :
  letters p = true → n ≤ u64_max → highest_index p [(nkey p n, v)] = n.
Proof.
  intros Hp Hn. rewrite highest_cons. unfold nkey. simpl.
  rewrite index_of_shape, str_eqb_refl by (done || apply dec_digits).
  unfold parse_usize. rewrite parse_uint_dec by done. unfold highest_index. simpl. lia.
Qed.

Lemma highest_indexed {A} p (f : N → A → list (str * str)) xs i :
  (∀ n a, n ≤ u64_max → highest_index p (f n a) = n) →
  i + len xs ≤ u64_max →
  highest_index p (indexed f i xs) = if is_empty xs then 0 else i + len xs - 1.
Proof.
  intros Hf. revert i. induction xs as [|x xs IH]; intros i Hi; simpl; [done|].
  unfold len in Hi. simpl in Hi.
  rewrite highest_app, Hf, IH by (unfold len; lia). unfold len. simpl.
  destruct xs; simpl; lia.
Qed.

Lemma check_indices_all fuel m p i h :
  (∀ j, i ≤ j → j ≤ h → has m (nkey p j) = true) → check_indices fuel m p i h = Ok tt.
Proof.
  revert i. induction fuel as [|fuel IH]; intros i H; simpl; [done|].
  destruct (N.ltb_spec h i); [done|]. rewrite H by lia. apply IH.
  intros j ??. apply H; lia.
Qed.

(** The families of each block of an encoded message. *)
Lemma finding_fields_shaped n f : shaped [lit "F"; lit "FC"; lit "FE"] (finding_fields n f).
Proof.
  repeat apply shaped_app.
  - by apply shaped_nkey.
  - apply shaped_opt. intros v. by apply shaped_nkey.
  - destruct (is_empty _); [constructor|]. by apply shaped_nkey.
Qed.

Lemma evidence_fields_shaped n e :
  shaped [lit "E"; lit "EL"; lit "ED"; lit "ER"; lit "EV"] (evidence_fields n e).
Proof.
  repeat apply shaped_app; try apply shaped_opt; intros; by apply shaped_nkey.
Qed.

Lemma verification_fields_shaped v :
  shaped [lit "V"; lit "VS"; lit "VM"; lit "VR"] (verification_fields v).
Proof.
  destruct v as [v|]; [|constructor]. unfold verification_fields.
  apply (shaped_app _ [_] _); [apply shaped_lit; reflexivity|].
  apply (shaped_app _ [_] _); [apply shaped_lit; reflexivity|].
  apply (shaped_app _ [_] _); [apply shaped_lit; reflexivity|].
  apply shaped_opt. intros. apply shaped_lit; reflexivity.
Qed.

Lemma finding_fields_at n f : keys_at n (finding_fields n f).
Proof.
  repeat apply keys_at_app; try by (apply keys_at_one || apply keys_at_opt).
  destruct (is_empty _); [constructor|by apply keys_at_one].
Qed.

Lemma evidence_fields_at n e : keys_at n (evidence_fields n e).
Proof. repeat apply keys_at_app; by (apply keys_at_one || apply keys_at_opt). Qed.

Lemma kind_status_shaped k s : shaped [lit "KIND"; lit "STATUS"] [(lit "KIND", k); (lit "STATUS", s)].
Proof. repeat (apply shaped_cons; [reflexivity..|]). constructor. Qed.

Ltac message_block :=
  first [ base_block
        | apply kind_status_shaped
        | apply shaped_indexed, finding_fields_shaped
        | apply shaped_indexed, evidence_fields_shaped
        | apply verification_fields_shaped ].

(** Look a key up in the fields of an encoded message. *)
Ltac find_field := unfold message_fields; to_block message_block.

Section Lookups.
Context (m : AgentCommMessage).
Abbreviation o := (mkOcc1 (message_fields m)).

Lemma get_MSGID : get o (lit "MSGID") = message_id m.
Proof. find_field. apply get_opt. Qed.
Lemma get_TASK : get o (lit "TASK") = Some (task_id m).
Proof. find_field. apply get_one. Qed.
Lemma get_PARENT : get o (lit "PARENT") = parent_task_id m.
Proof. find_field. apply get_opt. Qed.
Lemma get_TRACE : get o (lit "TRACE") = trace_id m.
Proof. find_field. apply get_opt. Qed.
Lemma get_SENDER : get o (lit "SENDER") = sender_identity m.
Proof. find_field. apply get_opt. Qed.
Lemma get_RECIPIENT : get o (lit "RECIPIENT") = recipient_identity m.
Proof. find_field. apply get_opt. Qed.
Lemma get_KIND : get o (lit "KIND") = Some (kind m).
Proof. find_field. reflexivity. Qed.
Lemma get_STATUS : get o (lit "STATUS") = Some (status m).
Proof. find_field. reflexivity. Qed.
Lemma get_SEQ : get o (lit "SEQ") = dec <$> sequence m.
Proof. find_field. apply get_opt. Qed.
Lemma get_TS : get o (lit "TS") = timestamp m.
Proof. find_field. apply get_opt. Qed.
Lemma get_EXP : get o (lit "EXP") = expiry m.
Proof. find_field. apply get_opt. Qed.
Lemma get_NEXT : get_all o (lit "NEXT") = next_actions m.
Proof. find_field. rewrite (get_all_map_same _ id). apply map_id. Qed.
End Lookups.

(** *** Numbered fields of an encoded message *)

Section NumberedLookups.
Context (m : AgentCommMessage).
Abbreviation o := (mkOcc1 (message_fields m)).

Lemma get_finding p j :
  one_of p [lit "F"; lit "FC"; lit "FE"] = true → letters p = true →
  get o (nkey p (1 + N.of_nat j)) =
  match findings m !! j with
  | Some f => get (mkOcc1 (finding_fields (1 + N.of_nat j) f)) (nkey p (1 + N.of_nat j))
  | None => None
  end.
Proof.
  intros Hp Hl. rewrite <-(get_indexed finding_fields) by (done || apply finding_fields_at).
  apply one_of_elem in Hp. repeat (apply elem_of_cons in Hp as [->|Hp]; [by find_field|]).
  by apply elem_of_nil in Hp.
Qed.

Lemma get_evidence p j :
  one_of p [lit "E"; lit "EL"; lit "ED"; lit "ER"; lit "EV"] = true → letters p = true →
  get o (nkey p (1 + N.of_nat j)) =
  match evidence m !! j with
  | Some e => get (mkOcc1 (evidence_fields (1 + N.of_nat j) e)) (nkey p (1 + N.of_nat j))
  | None => None
  end.
Proof.
  intros Hp Hl. rewrite <-(get_indexed evidence_fields) by (done || apply evidence_fields_at).
  apply one_of_elem in Hp. repeat (apply elem_of_cons in Hp as [->|Hp]; [by find_field|]).
  by apply elem_of_nil in Hp.
Qed.

Lemma get_ART j : get o (nkey (lit "ART") (1 + N.of_nat j)) = artifacts m !! j.
Proof.
  find_field. rewrite get_indexed; [|done|intros; by apply keys_at_one].
  destruct (artifacts m !! j); [apply get_one|done].
Qed.

Lemma get_DEP j : get o (nkey (lit "DEP") (1 + N.of_nat j)) = dependencies m !! j.
Proof.
  find_field. rewrite get_indexed; [|done|intros; by apply keys_at_one].
  destruct (dependencies m !! j); [apply get_one|done].
Qed.

End NumberedLookups.

(** *** Counting the indices of an encoded message *)

Ltac zero_block p b H :=
  erewrite (highest_other p _ b); [|reflexivity|H|reflexivity].

Ltac zero_blocks p H :=
  rewrite ?highest_app;
  repeat match goal with
  | |- context [highest_index p ?b] => zero_block p b H
  end.

Ltac single_block :=
  first [ apply shaped_opt_nkey1; reflexivity | apply shaped_nkey1; reflexivity ].

Lemma highest_finding_fields n f : n ≤ u64_max → highest_index (lit "F") (finding_fields n f) = n.
Proof.
  intros Hn. unfold finding_fields. rewrite !highest_app, highest_nkey by done.
  destruct (is_empty (f_evidence f)).
  - zero_block (lit "F") (opt_field (nkey (lit "FC") n) (fmt3 <$> confidence f)) single_block.
    unfold highest_index. simpl. lia.
  - zero_blocks (lit "F") single_block. lia.
Qed.

Lemma highest_evidence_fields n e : n ≤ u64_max → highest_index (lit "E") (evidence_fields n e) = n.
Proof.
  intros Hn. unfold evidence_fields. rewrite !highest_app, highest_nkey by done.
  zero_blocks (lit "E") single_block. lia.
Qed.

(** *** The fields of one finding and of one piece of evidence *)

Lemma get_F n f : get (mkOcc1 (finding_fields n f)) (nkey (lit "F") n) = Some (statement f).
Proof. apply get_head. Qed.

Lemma get_FC n f :
  get (mkOcc1 (finding_fields n f)) (nkey (lit "FC") n) = fmt3 <$> confidence f.
Proof.
  unfold finding_fields. skip_block single_block. rewrite get_stop; [apply get_opt|].
  destruct (is_empty _); [done|no_field single_block].
Qed.

Lemma get_FE n f :
  get (mkOcc1 (finding_fields n f)) (nkey (lit "FE") n)
  = if is_empty (f_evidence f) then None else Some (join (lit ",") (f_evidence f)).
Proof.
  unfold finding_fields. repeat skip_block single_block.
  destruct (is_empty _); [done|apply get_one].
Qed.

Lemma get_E n e :
  get (mkOcc1 (evidence_fields n e)) (nkey (lit "E") n) = Some (ev_kind e ++ lit ":" ++ locator e).
Proof. apply get_head. Qed.

Lemma get_EL n e :
  get (mkOcc1 (evidence_fields n e)) (nkey (lit "EL") n)
  = (λ r, dec r.1 ++ lit "-" ++ dec r.2) <$> line_range e.
Proof. unfold evidence_fields. to_block single_block. apply get_opt. Qed.

Lemma get_ED n e : get (mkOcc1 (evidence_fields n e)) (nkey (lit "ED") n) = digest e.
Proof. unfold evidence_fields. to_block single_block. apply get_opt. Qed.

Lemma get_ER n e : get (mkOcc1 (evidence_fields n e)) (nkey (lit "ER") n) = revision e.
Proof. unfold evidence_fields. to_block single_block. apply get_opt. Qed.

Lemma get_EV n e :
  get (mkOcc1 (evidence_fields n e)) (nkey (lit "EV") n)
  = (λ b : bool, if b then lit "pass" else lit "fail") <$> verified e.
Proof. unfold evidence_fields. to_block single_block. apply get_opt. Qed.

Lemma indexed_count_block {A} p (f : N → A → list (str * str)) xs m :
  letters p = true →
  (∀ n a, n ≤ u64_max → highest_index p (f n a) = n) →
  len xs < u64_max →
  highest_index p (fields m) = highest_index p (indexed f 1 xs) →
  (∀ j a, xs !! j = Some a → has m (nkey p (1 + N.of_nat j)) = true) →
  indexed_count m p = Ok (len xs).
Proof.
  intros Hp Hf Hlen Hh Hhas. unfold indexed_count, iter.
  assert (highest_index p (fields m) = len xs) as Hl.
  { rewrite Hh, highest_indexed by (done || lia). destruct xs; simpl; [done|]. unfold len. simpl. lia. }
  rewrite Hl, check_indices_all; [done|]. intros j Hj1 Hj2.
  destruct (xs !! N.to_nat (j - 1)) as [a|] eqn:Ha.
  - replace j with (1 + N.of_nat (N.to_nat (j - 1))) by lia. by eapply Hhas.
  - apply lookup_ge_None in Ha. unfold len in *. lia.
Qed.

Lemma count_F m :
  len (findings m) < u64_max →
  indexed_count (mkOcc1 (message_fields m)) (lit "F") = Ok (len (findings m)).
Proof.
  intros Hl. apply (indexed_count_block _ finding_fields); [done|apply highest_finding_fields|done| |].
  - cbn [fields]. unfold message_fields. zero_blocks (lit "F") message_block. lia.
  - intros j f Hf. by rewrite has_get, get_finding, Hf, get_F by done.
Qed.

Lemma count_E m :
  len (evidence m) < u64_max →
  indexed_count (mkOcc1 (message_fields m)) (lit "E") = Ok (len (evidence m)).
Proof.
  intros Hl. apply (indexed_count_block _ evidence_fields); [done|apply highest_evidence_fields|done| |].
  - cbn [fields]. unfold message_fields. zero_blocks (lit "E") message_block. lia.
  - intros j e He. by rewrite has_get, get_evidence, He, get_E by done.
Qed.

Lemma count_ART m :
  len (artifacts m) < u64_max →
  indexed_count (mkOcc1 (message_fields m)) (lit "ART") = Ok (len (artifacts m)).
Proof.
  intros Hl. apply (indexed_count_block _ (λ n a, [(nkey (lit "ART") n, a)]));
    [done|intros; by apply highest_nkey|done| |].
  - cbn [fields]. unfold message_fields. zero_blocks (lit "ART") message_block. lia.
  - intros j a Ha. by rewrite has_get, get_ART, Ha.
Qed.

Lemma count_DEP m :
  len (dependencies m) < u64_max →
  indexed_count (mkOcc1 (message_fields m)) (lit "DEP") = Ok (len (dependencies m)).
Proof.
  intros Hl. apply (indexed_count_block _ (λ n a, [(nkey (lit "DEP") n, a)]));
    [done|intros; by apply highest_nkey|done| |].
  - cbn [fields]. unfold message_fields. zero_blocks (lit "DEP") message_block. lia.
  - intros j a Ha. by rewrite has_get, get_DEP, Ha.
Qed.

Lemma decode_verification_fields m :
  decode_verification (mkOcc1 (message_fields m)) = Ok (verification m).
Proof.
  assert (∀ k, one_of k [lit "V"; lit "VS"; lit "VM"; lit "VR"] = true →
    get (mkOcc1 (message_fields m)) k = get (mkOcc1 (verification_fields (verification m))) k) as H.
  { intros k Hk%one_of_elem. repeat (apply elem_of_cons in Hk as [->|Hk]; [by find_field|]).
    by apply elem_of_nil in Hk. }
  unfold decode_verification. rewrite !has_get, !H by reflexivity.
  destruct (verification m) as [[c s mt r]|]; [|done]. by destruct r.
Qed.

(** ** Round trip of the typed contract *)

(** The values are values of the Rust types: [usize] lengths, [u64] sequence,
    [u32] lines, [f32] confidences. *)
Definition typed_finding (f : Finding) : Prop := ∀ c, confidence f = Some c → valid_f32 c.
Definition typed_evidence (e : EvidenceRef) : Prop :=
  ∀ a b, line_range e = Some (a, b) → a ≤ u32_max ∧ b ≤ u32_max.
Definition typed_message (m : AgentCommMessage) : Prop :=
  len (findings m) < u64_max ∧ len (evidence m) < u64_max
  ∧ len (artifacts m) < u64_max ∧ len (dependencies m) < u64_max
  ∧ (∀ s, sequence m = Some s → s ≤ u64_max)
  ∧ Forall typed_finding (findings m) ∧ Forall typed_evidence (evidence m).

(** The ids are the positional ids of the grammar. *)
Definition positional (m : AgentCommMessage) : Prop :=
  (∀ j f, findings m !! j = Some f → f_id f = nkey (lit "F") (1 + N.of_nat j))
  ∧ (∀ j e, evidence m !! j = Some e → ev_id e = nkey (lit "E") (1 + N.of_nat j)).

(** What the three decimals of the wire keep of a message. *)
Definition quantize_finding (f : Finding) : Finding :=
  mkFinding (f_id f) (statement f) (quantize <$> confidence f) (f_evidence f).
Definition quantize_message (m : AgentCommMessage) : AgentCommMessage :=
  mkMessage (message_id m) (task_id m) (parent_task_id m) (trace_id m) (sender_identity m)
    (recipient_identity m) (kind m) (status m) (map quantize_finding (findings m)) (evidence m)
    (artifacts m) (verification m) (dependencies m) (next_actions m) (sequence m) (protocol m)
    (timestamp m) (expiry m).

Lemma rall_ok {A E} (f : A → result unit E) l :
  rall f l = Ok tt ↔ Forall (λ a, f a = Ok tt) l.
Proof.
  unfold rall. induction l as [|a l IH]; simpl.
  - split; [constructor|done].
  - rewrite Forall_cons, <-IH. destruct (f a) as [[]|]; split; [by split|by intros [_ ?]|done|by intros [? _]].
Qed.

Lemma seq_ok {A E} (r : result unit E) (k : result A E) a :
  (let* _ := r in k) = Ok a ↔ r = Ok tt ∧ k = Ok a.
Proof. destruct r as [[]|]; split; [by split|by intros [_ ?]|done|by intros [? _]]. Qed.

Lemma guard_err_ok {E} b (e : E) : guard_err b e = Ok tt ↔ b = false.
Proof. by destruct b. Qed.

Lemma check_finding_ok ids f :
  check_finding ids f = Ok tt
  ↔ (∀ c, confidence f = Some c → in_unit c = true) ∧ Forall (λ id, id ∈ ids) (f_evidence f).
Proof.
  unfold check_finding.
  assert (rall (λ id, guard_err (negb (one_of id ids)) (UnknownEvidence (f_id f) id)) (f_evidence f)
    = Ok tt ↔ Forall (λ id, id ∈ ids) (f_evidence f)) as Hr.
  { rewrite rall_ok. apply Forall_iff. intros id.
    by rewrite guard_err_ok, negb_false_iff, one_of_elem. }
  destruct (confidence f) as [c|]; [|rewrite Hr; split; [by split|by intros [_ ?]]].
  unfold guard_err at 1. destruct (in_unit c) eqn:Hc; simpl.
  - rewrite Hr. split; [intros ?; split; [by intros ? [= <-]|done]|by intros [_ ?]].
  - split; [done|]. intros [H _]. specialize (H c eq_refl). congruence.
Qed.

Lemma reference_ok i count acc k :
  1 ≤ k ≤ count → k ≤ u64_max →
  decode_reference i count acc (nkey (lit "E") k) = Ok (acc ++ [nkey (lit "E") k]).
Proof.
  intros Hk Hmax. unfold decode_reference.
  rewrite trim_no_ws by (constructor; [done|apply dec_no_ws]).
  change (is_empty (nkey (lit "E") k)) with false. cbv iota.
  assert (strip_prefix (lit "E") (nkey (lit "E") k) = Some (dec k)) as ->
    by apply strip_prefix_app.
  unfold parse_usize. rewrite parse_uint_dec by done. cbn [ok_or].
  replace (k =? 0) with false by (symmetry; apply N.eqb_neq; lia).
  replace (count <? k) with false by (symmetry; apply N.ltb_ge; lia). done.
Qed.

Lemma references_ok i count acc refs :
  count ≤ u64_max → Forall (λ r, ∃ k, r = nkey (lit "E") k ∧ 1 ≤ k ≤ count) refs →
  rfold (decode_reference i count) acc refs = Ok (acc ++ refs).
Proof.
  intros Hc Hr. revert acc. induction Hr as [|r refs (k & -> & Hk) Hr IH]; intros acc; simpl.
  - by rewrite app_nil_r.
  - rewrite reference_ok by (done || lia). rewrite IH. by rewrite <-app_assoc.
Qed.

Lemma line_range_ok i a b :
  a ≤ u32_max → b ≤ u32_max → decode_line_range i (dec a ++ lit "-" ++ dec b) = Ok (a, b).
Proof.
  intros Ha Hb. unfold decode_line_range.
  change (dec a ++ lit "-" ++ dec b) with (dec a ++ 45 :: dec b).
  rewrite split_once_app by (by apply dec_fresh).
  unfold parse_u32. by rewrite !parse_uint_dec.
Qed.

Lemma nkey_fresh c p n : c ∉ p → is_ascii_digit c = false → c ∉ nkey p n.
Proof. intros Hp Hc. unfold nkey. rewrite not_elem_of_app. split; [done|by apply dec_fresh]. Qed.

Lemma decode_finding_ok m j f :
  findings m !! j = Some f → f_id f = nkey (lit "F") (1 + N.of_nat j) →
  typed_finding f → (∀ c, confidence f = Some c → in_unit c = true) →
  len (evidence m) < u64_max →
  Forall (λ r, ∃ k, r = nkey (lit "E") k ∧ 1 ≤ k ≤ len (evidence m)) (f_evidence f) →
  decode_finding (mkOcc1 (message_fields m)) (len (evidence m)) (1 + N.of_nat j)
  = Ok (quantize_finding f).
Proof.
  intros Hf Hid Ht Hu Hl Hrefs. unfold decode_finding.
  rewrite !get_finding, Hf, get_F, get_FC, get_FE by done. cbn [ok_or].
  assert (match fmt3 <$> confidence f with
          | Some c => let* v := ok_or (parse_f32 c)
                       (Occ1Conversion "FC{index} not a number" [ArgN (1 + N.of_nat j)]) in Ok (Some v)
          | None => Ok None
          end = Ok (quantize <$> confidence f)) as ->.
  { destruct (confidence f) as [c|] eqn:Hc; [|done]. simpl.
    destruct (quantize_spec c (Ht c Hc) (Hu c eq_refl)) as [-> _]. done. }
  unfold quantize_finding. rewrite <-Hid.
  destruct (f_evidence f) as [|r rs] eqn:Hev; [done|]. cbn [is_empty]. rewrite <-Hev in *.
  rewrite (split_on_join 44).
  - rewrite references_ok by (done || lia). done.
  - by rewrite Hev.
  - eapply Forall_impl; [exact Hrefs|]. intros x (k & -> & _). apply nkey_fresh; [|done].
    by apply fresh_dec.
Qed.

Lemma decode_evidence_ok m j e :
  evidence m !! j = Some e → ev_id e = nkey (lit "E") (1 + N.of_nat j) →
  typed_evidence e → is_known_evidence_kind (ev_kind e) = true →
  decode_evidence (mkOcc1 (message_fields m)) (1 + N.of_nat j) = Ok e.
Proof.
  intros He Hid Ht Hk. unfold decode_evidence.
  rewrite !get_evidence, He, get_E, get_EL, get_ED, get_ER, get_EV by done. cbn [ok_or].
  change (ev_kind e ++ lit ":" ++ locator e) with (ev_kind e ++ 58 :: locator e).
  rewrite split_once_app.
  2:{ apply one_of_elem in Hk.
      repeat (apply elem_of_cons in Hk as [->|Hk]; [by apply fresh_dec|]). by apply elem_of_nil in Hk. }
  assert (match (λ r, dec r.1 ++ lit "-" ++ dec r.2) <$> line_range e with
          | Some range => let* r := decode_line_range (1 + N.of_nat j) range in Ok (Some r)
          | None => Ok None
          end = Ok (line_range e)) as ->.
  { destruct (line_range e) as [[a b]|] eqn:Hr; [|done].
    destruct (Ht a b Hr). unfold fmap, option_fmap, option_map. cbn [fst snd].
    by rewrite line_range_ok. }
  assert (decode_verified (1 + N.of_nat j)
            ((λ b : bool, if b then lit "pass" else lit "fail") <$> verified e) = Ok (verified e)) as ->
    by (by destruct (verified e) as [[|]|]).
  rewrite <-Hid. by destruct e.
Qed.

Section RoundTrip.
Context (is_rfc3339 : str → bool).

Lemma validate_inv m :
  validate is_rfc3339 m = Ok tt →
  protocol m = AGENT_COMM_PROTOCOL
  ∧ Forall (λ f, check_finding (map ev_id (evidence m)) f = Ok tt) (findings m)
  ∧ Forall (λ e, is_known_evidence_kind (ev_kind e) = true) (evidence m).
Proof.
  unfold validate. rewrite !seq_ok, !guard_err_ok, !rall_ok.
  intros (_ & _ & _ & _ & Hp & Hf & He & _). apply negb_false_iff, str_eqb_eq in Hp.
  split; [done|]. split; [done|].
  eapply Forall_impl; [exact He|]. intros e H%guard_err_ok. by apply negb_false_iff in H.
Qed.

(** Validation does not see the rounding of the confidences. *)
Lemma validate_quantize m :
  Forall typed_finding (findings m) →
  validate is_rfc3339 m = Ok tt → validate is_rfc3339 (quantize_message m) = Ok tt.
Proof.
  intros Ht Hv. destruct (validate_inv m Hv) as (_ & Hf & _). rewrite <-Hv.
  unfold validate. cbn [quantize_message task_id kind status evidence protocol findings
    verification timestamp expiry].
  assert (rall (check_finding (map ev_id (evidence m))) (map quantize_finding (findings m))
          = rall (check_finding (map ev_id (evidence m))) (findings m)) as ->; [|done].
  rewrite (proj2 (rall_ok _ (findings m)) Hf). apply rall_ok, Forall_map.
  rewrite Forall_forall in *. intros f Hin. specialize (Hf f Hin). specialize (Ht f Hin).
  apply check_finding_ok in Hf as [Hu Hids]. simpl. apply check_finding_ok. simpl. split; [|done].
  intros c Hc. destruct (confidence f) as [c0|] eqn:Hc0; [|done]. simpl in Hc. injection Hc as <-.
  apply quantize_spec; [by apply Ht|by apply Hu].
Qed.

Lemma from_to_occ1 m o :
  typed_message m → positional m →
  to_occ1 is_rfc3339 m = Ok o → from_occ1 is_rfc3339 o = Ok (quantize_message m).
Proof.
  intros (Hlf & Hle & Hla & Hld & Hseq & Htf & Hte) [Hpf Hpe] Ho.
  unfold to_occ1 in Ho. destruct (validate is_rfc3339 m) as [[]|] eqn:Hv; [|done].
  injection Ho as <-. destruct (validate_inv m Hv) as (Hproto & Hfs & Hes).
  unfold from_occ1. rewrite get_TASK, get_KIND, get_STATUS, get_SEQ. cbn [ok_or].
  assert (match dec <$> sequence m with
          | Some seq => let* v := ok_or (parse_u64 seq)
                          (Occ1Conversion "SEQ {seq:?} is not a u64" [ArgS seq]) in Ok (Some v)
          | None => Ok None
          end = Ok (sequence m)) as ->.
  { destruct (sequence m) as [s|] eqn:Hs; [|done]. simpl. unfold parse_u64.
    by rewrite parse_uint_dec by (by apply Hseq). }
  rewrite count_E, count_F by done.
  rewrite (rmap_range1 _ quantize_finding).
  2:{ intros j f Hf. pose proof (list_elem_of_lookup_2 _ _ _ Hf) as Hin.
      rewrite Forall_forall in Hfs, Htf.
      destruct (proj1 (check_finding_ok _ f) (Hfs f Hin)) as [Hu Hids].
      apply decode_finding_ok; auto.
      eapply Forall_impl; [exact Hids|]. intros id Hid. simpl in Hid.
      apply list_elem_of_fmap in Hid as (e & -> & He).
      apply list_elem_of_lookup in He as [k Hk]. exists (1 + N.of_nat k).
      rewrite (Hpe k e Hk). apply lookup_lt_Some in Hk. unfold len. split; [done|lia]. }
  rewrite (rmap_range1 _ id).
  2:{ intros j e He. pose proof (list_elem_of_lookup_2 _ _ _ He) as Hin.
      rewrite Forall_forall in Hes, Hte. apply decode_evidence_ok; auto. }
  rewrite count_ART by done. rewrite (rmap_range1 _ id).
  2:{ intros j a Ha. by rewrite get_ART, Ha. }
  rewrite decode_verification_fields, count_DEP by done. rewrite (rmap_range1 _ id).
  2:{ intros j a Ha. by rewrite get_DEP, Ha. }
  rewrite get_MSGID, get_PARENT, get_TRACE, get_SENDER, get_RECIPIENT, get_NEXT, get_TS, get_EXP.
  rewrite !map_id. rewrite <-Hproto.
  change (mkMessage (message_id m) _ _ _ _ _ _ _ _ _ _ _ _ _ _ _ _ _) with (quantize_message m).
  by rewrite validate_quantize.
Qed.
(** Decoded ids are positional. *)
Lemma from_occ1_inv o m :
  from_occ1 is_rfc3339 o = Ok m → positional m ∧ validate is_rfc3339 m = Ok tt.
Proof.
  unfold from_occ1. intros H.
  apply bind_ok in H as (task & _ & H).
  apply bind_ok in H as (kd & _ & H).
  apply bind_ok in H as (st & _ & H).
  apply bind_ok in H as (sq & _ & H).
  apply bind_ok in H as (ne & _ & H).
  apply bind_ok in H as (nf & _ & H).
  apply bind_ok in H as (fs & Hf & H).
  apply bind_ok in H as (es & He & H).
  apply bind_ok in H as (na & _ & H).
  apply bind_ok in H as (arts & _ & H).
  apply bind_ok in H as (v & _ & H).
  apply bind_ok in H as (nd & _ & H).
  apply bind_ok in H as (deps & _ & H).
  apply bind_ok in H as ([] & Hv & H). injection H as <-. split; [|done]. split; simpl.
  - intros j f Hj. eapply rmap_range1_inv in Hf; [|exact Hj].
    repeat (apply bind_ok in Hf as (? & _ & Hf)). by injection Hf as <-.
  - intros j e Hj. eapply rmap_range1_inv in He; [|exact Hj].
    apply bind_ok in He as (enc & _ & He). destruct (split_once 58 enc) as [[]|]; [|done].
    repeat (apply bind_ok in He as (? & _ & He)). by injection He as <-.
Qed.

(** C34: a typed message survives the wire: when [to_occ1] accepts a message whose
    findings and evidence carry the positional ids of the grammar, [from_occ1]
    reads it back equal, up to the three decimals the wire keeps of each
    confidence.  With other ids it may be read back differently: see
    [contract_relinks_evidence]. *)
Theorem contract_roundtrip m o :
  typed_message m → positional m →
  to_occ1 is_rfc3339 m = Ok o → from_occ1 is_rfc3339 o = Ok (quantize_message m).
Proof. apply from_to_occ1. Qed.

(** What [from_occ1] accepts is stable: the decoded message has positional ids,
    [to_occ1] accepts it again, and decoding that gives it back (confidences
    rounded to the three decimals). *)
Theorem contract_decode_reencode o m :
  from_occ1 is_rfc3339 o = Ok m → typed_message m →
  positional m
  ∧ ∃ o', to_occ1 is_rfc3339 m = Ok o' ∧ from_occ1 is_rfc3339 o' = Ok (quantize_message m).
Proof.
  intros [Hp Hv]%from_occ1_inv Ht. split; [done|].
  exists (mkOcc1 (message_fields m)).
  assert (to_occ1 is_rfc3339 m = Ok (mkOcc1 (message_fields m))) as Ho
    by (unfold to_occ1; by rewrite Hv).
  split; [done|]. by apply from_to_occ1.
Qed.
End RoundTrip.

(** A well-formed message: two findings that cite the second of two evidences. *)
Definition sample_message : AgentCommMessage :=
  mkMessage (Some (lit "m-1")) (lit "task-7") None (Some (lit "tr")) None None
    (lit "RESULT") (lit "done")
    [mkFinding (lit "F1") (lit "the lock leaks") (parse_f32 (lit "0.87512")) [lit "E2"];
     mkFinding (lit "F2") (lit "the test passes") None [lit "E1"; lit "E2"]]
    [mkEvidence (lit "E1") (lit "log") (lit "out/test.log") None None None (Some true);
     mkEvidence (lit "E2") (lit "src") (lit "a:b.rs") (Some (3, 17)) (Some (lit "ab")) None None]
    [lit "out/a.txt"] (Some (mkVerification (lit "it builds") (lit "pass") (lit "cargo") None))
    [lit "task-3"] [lit "merge"; lit "tag"] (Some 12) AGENT_COMM_PROTOCOL
    (Some (lit "2026-01-01T00:00:00Z")) None.

Lemma sample_message_typed : typed_message sample_message.
Proof.
  split; [done|]. split; [done|]. split; [done|]. split; [done|]. split; [|split].
  - intros s [= <-]. done.
  - apply Forall_cons; split; [|by apply Forall_singleton].
    intros c Hc. vm_compute in Hc. injection Hc as <-. vm_compute. reflexivity.
  - apply Forall_cons; split; [by intros a b|]. apply Forall_singleton.
    intros a b [= <- <-]. done.
Qed.

Lemma quantized_message_typed : typed_message (quantize_message sample_message).
Proof.
  destruct sample_message_typed as (H1 & H2 & H3 & H4 & H5 & _ & H6).
  split; [exact H1|]. split; [exact H2|]. split; [exact H3|]. split; [exact H4|].
  split; [exact H5|]. split; [|exact H6].
  apply Forall_cons; split; [|by apply Forall_singleton].
  intros c Hc. vm_compute in Hc. injection Hc as <-. vm_compute. reflexivity.
Qed.

Lemma sample_message_positional : positional sample_message.
Proof.
  split; intros [|[|j]] x; simpl; try (intros [= <-]; vm_compute; reflexivity);
    rewrite lookup_nil; done.
Qed.

Lemma contract_roundtrip_witness :
  from_occ1 (λ _, true) (mkOcc1 (message_fields sample_message))
  = Ok (quantize_message sample_message).
Proof.
  apply (contract_roundtrip (λ _, true) sample_message).
  - apply sample_message_typed.
  - apply sample_message_positional.
  - vm_compute. reflexivity.
Defined.

Lemma contract_decode_reencode_witness :
  ∃ o', to_occ1 (λ _, true) sample_message = Ok o'
        ∧ ∃ m, from_occ1 (λ _, true) o' = Ok m ∧ positional m
        ∧ ∃ o2, to_occ1 (λ _, true) m = Ok o2 ∧ from_occ1 (λ _, true) o2 = Ok (quantize_message m).
Proof.
  exists (mkOcc1 (message_fields sample_message)). split; [vm_compute; reflexivity|].
  exists (quantize_message sample_message).
  assert (from_occ1 (λ _, true) (mkOcc1 (message_fields sample_message))
          = Ok (quantize_message sample_message)) as H by (vm_compute; reflexivity).
  split; [exact H|].
  apply (contract_decode_reencode (λ _, true) (mkOcc1 (message_fields sample_message))).
  - exact H.
  - apply quantized_message_typed.
Defined.

(** ** Index bookkeeping, exactly *)

Lemma has_keys o k : has o k = true → k ∈ map fst (fields o).
Proof.
  unfold has. rewrite existsb_exists. intros ([k' v] & Hin & Hk).
  apply str_eqb_eq in Hk. simpl in Hk. subst. by apply list_elem_of_In, (in_map fst _ _ Hin).
Qed.

Lemma nkeys_bound o p n :
  (∀ j, 1 ≤ j → j ≤ n → has o (nkey p j) = true) → n ≤ len (fields o).
Proof.
  intros H. assert (length (map (nkey p) (range1 n)) ≤ length (map fst (fields o)))%nat as Hl.
  { apply NoDup_incl_length.
    - apply NoDup_ListNoDup, NoDup_fmap_2_strong; [|apply range1_NoDup].
      intros x y _ _ Hxy%app_inv_head. by apply dec_inj.
    - intros k (j & <- & Hj)%in_map_iff. apply list_elem_of_In, has_keys.
      apply list_elem_of_In, range1_elem in Hj. apply H; lia. }
  rewrite !length_map, range1_length in Hl. unfold len. lia.
Qed.

Lemma highest_bound p fs k v i : (k, v) ∈ fs → index_of p k = Some i → i ≤ highest_index p fs.
Proof.
  intros Hin Hi. induction fs as [|f fs IH]; [by apply elem_of_nil in Hin|].
  rewrite highest_cons. apply elem_of_cons in Hin as [<-|Hin]; [simpl; rewrite Hi; lia|].
  specialize (IH Hin). lia.
Qed.

Lemma check_indices_ok fuel o p i h :
  check_indices fuel o p i h = Ok tt →
  ∀ j, i ≤ j → j ≤ h → j < i + N.of_nat fuel → has o (nkey p j) = true.
Proof.
  revert i. induction fuel as [|fuel IH]; intros i; simpl; [lia|].
  destruct (N.ltb_spec h i); [lia|]. destruct (has o (nkey p i)) eqn:Hi; [|done].
  intros Hc j Hj ??. destruct (decide (j = i)) as [->|]; [done|]. apply (IH (i + 1)); [done|lia..].
Qed.

Definition missing_index (p : str) (i h : N) : ContractError :=
  Occ1Conversion "{prefix} index {index} missing below the highest index {highest}"
    [ArgS p; ArgN i; ArgN h].

Lemma check_indices_err fuel o p i h e :
  check_indices fuel o p i h = Err e →
  ∃ j, i ≤ j ∧ j ≤ h ∧ has o (nkey p j) = false
       ∧ (∀ k, i ≤ k → k < j → has o (nkey p k) = true) ∧ e = missing_index p j h.
Proof.
  revert i. induction fuel as [|fuel IH]; intros i; simpl; [done|].
  destruct (N.ltb_spec h i); [done|]. destruct (has o (nkey p i)) eqn:Hi.
  - intros (j & ? & ? & ? & Hk & ->)%IH. exists j. split_and!; try done; [lia|].
    intros k ??. destruct (decide (k = i)) as [->|]; [done|]. apply Hk; lia.
  - intros [= <-]. exists i. split_and!; try done; lia.
Qed.

(** [indexed_count] counts a family exactly: on success the count [n] bounds
    every index of the family, each of [1..n] is a key of the message and there
    are no more indices than fields; otherwise the error names the lowest
    missing index below the highest one.  The loop's fuel never decides the
    answer. *)
Theorem indexed_count_exact o p :
  match indexed_count o p with
  | Ok n => n = highest_index p (fields o)
            ∧ n ≤ len (fields o)
            ∧ (∀ j, 1 ≤ j → j ≤ n → has o (nkey p j) = true)
            ∧ (∀ k v i, (k, v) ∈ fields o → index_of p k = Some i → i ≤ n)
  | Err e => ∃ j, 1 ≤ j ∧ j ≤ highest_index p (fields o) ∧ has o (nkey p j) = false
                  ∧ (∀ k, 1 ≤ k → k < j → has o (nkey p k) = true)
                  ∧ e = missing_index p j (highest_index p (fields o))
  end.
Proof.
  unfold indexed_count, iter. set (h := highest_index p (fields o)).
  destruct (check_indices _ o p 1 h) as [[]|e] eqn:Hc; [|by eapply check_indices_err].
  assert (∀ j, 1 ≤ j → j ≤ h → has o (nkey p j) = true) as Hall.
  { intros j ??. pose proof (check_indices_ok _ _ _ _ _ Hc) as Hok.
    destruct (decide (h ≤ len (fields o))) as [|Hlt]; [apply Hok; unfold len in *; lia|].
    exfalso. assert (len (fields o) + 1 ≤ len (fields o)); [|lia]. apply (nkeys_bound o p).
    intros k ??. apply Hok; unfold len in *; lia. }
  split_and!; [done|by eapply nkeys_bound|done|]. intros. by eapply highest_bound.
Qed.

(** ** Ids that are not positional *)

(** One finding that cites the second of two evidences, whose ids are not in
    positional order. *)
Definition swapped_message : AgentCommMessage :=
  mkMessage None (lit "t") None None None None (lit "RESULT") (lit "done")
    [mkFinding (lit "F1") (lit "claim") None [lit "E1"]]
    [mkEvidence (lit "E2") (lit "src") (lit "x.rs") None None None None;
     mkEvidence (lit "E1") (lit "log") (lit "y.log") None None None None]
    [] None [] [] None AGENT_COMM_PROTOCOL None None.

(** The locators of the evidences a message's first finding cites. *)
Definition cited_locators (m : AgentCommMessage) : list str :=
  match findings m with
  | f :: _ => map locator (List.filter (λ e, one_of (ev_id e) (f_evidence f)) (evidence m))
  | [] => []
  end.

(** [to_occ1] accepts evidence ids that are not positional although the wire
    does not carry them: the swapped message is validated and encoded, and
    decodes, without an error, to a message whose finding cites the other
    evidence. *)
Theorem contract_relinks_evidence is_rfc3339 :
  ∃ o m, to_occ1 is_rfc3339 swapped_message = Ok o
         ∧ from_occ1 is_rfc3339 o = Ok m
         ∧ cited_locators swapped_message = [lit "y.log"]
         ∧ cited_locators m = [lit "x.rs"].
Proof.
  eexists _, _. split; [vm_compute; reflexivity|]. split; [vm_compute; reflexivity|].
  by vm_compute.
Qed.

(** ** The dialect *)

Lemma required_known kind :
  is_known_kind kind = true →
  ∃ required, required_for standard kind = Some required
    ∧ ∀ f, f ∈ required →
        f ∈ [lit "TASK"; lit "KIND"; lit "STATUS"] ∨ (f = lit "E1" ∧ str_eqb kind KIND_EVIDENCE = true).
Proof.
  intros Hk%one_of_elem.
  repeat (apply elem_of_cons in Hk as [->|Hk];
    [eexists; split; [reflexivity|]; intros f Hf;
     repeat (apply elem_of_cons in Hf as [->|Hf]; [(by left; repeat constructor) || (right; by split)|]);
     by apply elem_of_nil in Hf|]).
  by apply elem_of_nil in Hk.
Qed.

(** A contract-encoded message always passes the standard dialect, as the
    dialect's documentation promises (its sequence being a [u64]). *)
Theorem contract_passes_dialect is_rfc3339 m o :
  (∀ s, sequence m = Some s → s ≤ u64_max) →
  to_occ1 is_rfc3339 m = Ok o → Occ1.validate standard o = Ok tt.
Proof.
  intros Hseq. unfold to_occ1. intros ([] & Hv & [= <-])%bind_ok. unfold validate in Hv.
  rewrite !seq_ok, !guard_err_ok in Hv. destruct Hv as (_ & Hk & Hs & Hev & _).
  apply negb_false_iff in Hk, Hs. destruct (required_known _ Hk) as (required & Hr & Hreq).
  apply validate_ok_iff. exists (kind m), required. rewrite get_KIND, get_SEQ, get_STATUS.
  split_and!; try done.
  - unfold required_missing. apply filter_all_false. intros f Hf.
    apply negb_false_iff. rewrite has_get. destruct (Hreq f Hf) as [Hbase|[-> Hke]].
    + repeat (apply elem_of_cons in Hbase as [->|Hbase];
        [by rewrite ?get_TASK, ?get_KIND, ?get_STATUS|]). by apply elem_of_nil in Hbase.
    + rewrite Hke in Hev. destruct (evidence m) as [|e es] eqn:He; [done|].
      change (lit "E1") with (nkey (lit "E") (1 + N.of_nat 0)).
      assert (evidence m !! 0%nat = Some e) as He0 by (by rewrite He).
      by rewrite get_evidence, He0, get_E by done.
  - intros s Hs'. destruct (sequence m) as [n|] eqn:Hn; [|done]. injection Hs' as <-.
    exists n. apply parse_uint_dec. by apply Hseq.
  - by intros s [= <-].
Qed.

Lemma contract_passes_dialect_witness :
  Occ1.validate standard (mkOcc1 (message_fields sample_message)) = Ok tt.
Proof.
  apply (contract_passes_dialect (λ _, true) sample_message).
  - by intros s [= <-].
  - vm_compute. reflexivity.
Defined.
