(* ===== verification/Delta.v ===== *)
(** * Change-only updates

    [core/occ/delta.rs]: the data of a delta, shared by its OCC-1 codec
    ([DeltaCodec]) and by the stream tracker ([DeltaTracker]). *)
From stdpp Require Import base list numbers strings.
From S2P Require Import Prelude RustStr RustFloat Contract.

Record FindingPatch : Type := mkPatch {
  p_statement : option str;
  p_confidence : option (option f32);
  add_evidence : list str;
  remove_evidence : list str }.

Inductive FieldUpdate : Type :=
| SetStatus (status : str)
| UpdateFinding (id : str) (patch : FindingPatch)
| AddEvidence (evidence : EvidenceRef)
| SetVerification (v : Verification).

Record Delta : Type := mkDelta {
  d_task_id : str;
  d_base_sequence : N;
  d_sequence : N;
  updates : list FieldUpdate;
  new_findings : list Finding;
  new_evidence : list EvidenceRef;
  d_next_actions : list str;
  reason : option str }.

#[export] Instance EvidenceRef_eq_dec : EqDecision EvidenceRef.
Proof. solve_decision. Defined.
