(* ===== verification/DeltaTracker.v ===== *)
(** * The delta stream tracker

    [core/occ/delta.rs], [DeltaTracker]: ordering, deduplication, task identity,
    base identity and finding-id existence of one task's delta stream.  The
    [BTreeMap] of buffered deltas is a [gmap], the [BTreeSet] of finding ids a
    [gset]; where the code iterates over them the model lists them in key order.
    [&mut self] is explicit: an operation returns the new tracker beside its
    result. *)
From stdpp Require Import base list numbers gmap sorting strings.
From S2P Require Import Prelude RustStr RustFloat Contract Delta.

Local Open Scope N_scope.

(** ** Data *)

Definition DELTA_BUFFER_CAP : N := 1024.
Definition DELTA_MISSING_REPORT_CAP : N := 1024.

Inductive DeltaError : Type :=
| WrongTask (expected got : str)
| Duplicate (sequence : N)
| Gap (expected got : N)
| StaleBase (base got_base : N)
| UnknownFinding (id : str)
| DUnknownEvidence (id : str)
| BaseUnavailable.

Record DeltaReceipt : Type := mkReceipt {
  applied : bool;
  r_buffered : bool;
  r_sequence : N }.

Record DeltaTracker : Type := mkTracker {
  task_id : str;
  base_sequence : N;
  next_sequence : N;
  buffered : gmap N Delta;
  known_findings : gset str;
  stale : bool;
  pending : list DeltaReceipt }.

Record DeltaTrackerState : Type := mkState {
  s_task_id : str;
  s_base_sequence : N;
  s_next_sequence : N;
  s_buffered : list Delta;
  s_known_findings : list str;
  s_stale : bool;
  pending_receipts : list DeltaReceipt }.

(** [u64::saturating_add]. *)
Definition saturating_add (a b : N) : N := N.min (a + b) u64_max.

(** [BTreeMap] and [BTreeSet] iteration order. *)
Definition by_key {A} (x y : N * A) : Prop := x.1 ≤ y.1.
#[export] Instance by_key_dec {A} : RelDecision (@by_key A).
Proof. intros x y. unfold by_key. apply _. Defined.
Definition entries {A} (m : gmap N A) : list (N * A) := merge_sort by_key (map_to_list m).
Definition sorted_ids (X : gset str) : list str := merge_sort str_le (elements X).

(** ** Operations *)

Definition new (task : str) (base : N) : DeltaTracker :=
  mkTracker task base (saturating_add base 1) ∅ ∅ false [].

Definition push_receipt (t : DeltaTracker) (r : DeltaReceipt) : DeltaTracker :=
  mkTracker (task_id t) (base_sequence t) (next_sequence t) (buffered t) (known_findings t)
    (stale t) (pending t ++ [r]).

Definition set_buffered (t : DeltaTracker) (b : gmap N Delta) : DeltaTracker :=
  mkTracker (task_id t) (base_sequence t) (next_sequence t) b (known_findings t)
    (stale t) (pending t).

Definition mark_stale (t : DeltaTracker) : DeltaTracker :=
  mkTracker (task_id t) (base_sequence t) (next_sequence t) (buffered t) (known_findings t)
    true (pending t).

(** The ids a delta introduces. *)
Definition introduced (d : Delta) : gset str := list_to_set (map f_id (new_findings d)).

Definition check_update (known fresh : gset str) (u : FieldUpdate) : result unit DeltaError :=
  match u with
  | UpdateFinding id _ =>
      if bool_decide (id ∉ known) && bool_decide (id ∉ fresh) then Err (UnknownFinding id)
      else Ok tt
  | _ => Ok tt
  end.

Definition apply (t : DeltaTracker) (d : Delta) : result DeltaTracker DeltaError :=
  let* _ := rall (check_update (known_findings t) (introduced d)) (updates d) in
  Ok (mkTracker (task_id t) (base_sequence t) (saturating_add (next_sequence t) 1) (buffered t)
        (known_findings t ∪ introduced d) (stale t) (pending t)).

(** The [while let] loop of [drain].  A round removes an entry of the buffer, so
    one round more than the buffer has entries is enough. *)
Fixpoint drain_loop (fuel : nat) (t : DeltaTracker) : DeltaTracker * result unit DeltaError :=
  match fuel with
  | O => (t, Ok tt)
  | S fuel' =>
      match buffered t !! next_sequence t with
      | None => (t, Ok tt)
      | Some d =>
          let t1 := set_buffered t (delete (next_sequence t) (buffered t)) in
          match apply t1 d with
          | Ok t2 => drain_loop fuel' (push_receipt t2 (mkReceipt true true (d_sequence d)))
          | Err e => (t1, Err e)
          end
      end
  end.

Definition drain (t : DeltaTracker) : DeltaTracker * result unit DeltaError :=
  drain_loop (S (size (buffered t))) t.

Definition observe (t : DeltaTracker) (d : Delta) : DeltaTracker * result DeltaReceipt DeltaError :=
  if negb (str_eqb (d_task_id d) (task_id t)) then (t, Err (WrongTask (task_id t) (d_task_id d)))
  else if stale t then (t, Err BaseUnavailable)
  else if negb (d_base_sequence d =? base_sequence t)
  then (mark_stale t, Err (StaleBase (base_sequence t) (d_base_sequence d)))
  else
    let sequence := d_sequence d in
    if (sequence <? next_sequence t) || bool_decide (is_Some (buffered t !! sequence))
    then (t, Err (Duplicate sequence))
    else if next_sequence t <? sequence
    then
      if DELTA_BUFFER_CAP <=? N.of_nat (size (buffered t)) then (t, Err BaseUnavailable)
      else
        (push_receipt (set_buffered t (<[sequence := d]> (buffered t)))
           (mkReceipt false true sequence),
         Err (Gap (next_sequence t) sequence))
    else
      match apply t d with
      | Err e => (t, Err e)
      | Ok t1 =>
          let receipt := mkReceipt true false sequence in
          match drain t1 with
          | (t2, Err e) => (push_receipt t2 receipt, Err e)
          | (t2, Ok _) => (t2, Ok receipt)
          end
      end.

(** [self.buffered.keys().next_back()]. *)
Definition highest_buffered (t : DeltaTracker) : option N := last (map fst (entries (buffered t))).

(** The [while] loop of [missing_sequences].  A round reports a sequence or meets
    a buffered one, so the report cap plus the size of the buffer bounds it. *)
Fixpoint missing_loop (fuel : nat) (b : gmap N Delta) (sequence highest : N) (missing : list N)
  : list N :=
  match fuel with
  | O => missing
  | S fuel' =>
      if (sequence <? highest) && (len missing <? DELTA_MISSING_REPORT_CAP)
      then missing_loop fuel' b (sequence + 1) highest
             (if bool_decide (is_Some (b !! sequence)) then missing else missing ++ [sequence])
      else missing
  end.

Definition missing_sequences (t : DeltaTracker) : list N :=
  match highest_buffered t with
  | None => []
  | Some highest =>
      missing_loop (N.to_nat DELTA_MISSING_REPORT_CAP + size (buffered t)) (buffered t)
        (next_sequence t) highest []
  end.

Definition needs_full_snapshot (t : DeltaTracker) : bool :=
  stale t || negb (is_empty (missing_sequences t)).

Definition seed_findings (t : DeltaTracker) (ids : list str) : DeltaTracker :=
  mkTracker (task_id t) (base_sequence t) (next_sequence t) (buffered t)
    (known_findings t ∪ list_to_set ids) (stale t) (pending t).

Definition drain_ready (t : DeltaTracker) : DeltaTracker * list DeltaReceipt :=
  (mkTracker (task_id t) (base_sequence t) (next_sequence t) (buffered t) (known_findings t)
     (stale t) [], pending t).

Definition state (t : DeltaTracker) : DeltaTrackerState :=
  mkState (task_id t) (base_sequence t) (next_sequence t) (map snd (entries (buffered t)))
    (sorted_ids (known_findings t)) (stale t) (pending t).

Definition restore_delta (s : DeltaTrackerState) (next : N) (m : gmap N Delta) (d : Delta)
  : gmap N Delta :=
  if str_eqb (d_task_id d) (s_task_id s) && (d_base_sequence d =? s_base_sequence s)
     && (next <? d_sequence d)
  then <[d_sequence d := d]> m else m.

Definition restore (s : DeltaTrackerState) : DeltaTracker :=
  let next := N.max (s_next_sequence s) (saturating_add (s_base_sequence s) 1) in
  mkTracker (s_task_id s) (s_base_sequence s) next
    (List.fold_left (restore_delta s next) (s_buffered s) ∅)
    (list_to_set (s_known_findings s)) (s_stale s) (pending_receipts s).

(** ** The tracker invariant *)

(** The consecutive sequences [a, b). *)
Definition upto (a b : N) : list N := map N.of_nat (seq (N.to_nat a) (N.to_nat (b - a))).

Lemma upto_nil a : upto a a = [].
Proof. unfold upto. by rewrite N.sub_diag. Qed.

Lemma upto_cons a b : a < b → upto a b = a :: upto (a + 1) b.
Proof.
  intros H. unfold upto. replace (N.to_nat (b - a)) with (S (N.to_nat (b - (a + 1)))) by lia.
  simpl. rewrite N2Nat.id. do 3 f_equal. lia.
Qed.

Lemma upto_snoc a b : a ≤ b → upto a (b + 1) = upto a b ++ [b].
Proof.
  intros H. unfold upto. replace (N.to_nat (b + 1 - a)) with (N.to_nat (b - a) + 1)%nat by lia.
  rewrite seq_app, map_app. simpl. do 2 f_equal. lia.
Qed.

Lemma upto_app a b c : a ≤ b → b ≤ c → upto a b ++ upto b c = upto a c.
Proof.
  intros Hab Hbc. unfold upto.
  replace (N.to_nat (c - a)) with (N.to_nat (b - a) + N.to_nat (c - b))%nat by lia.
  rewrite seq_app, map_app. do 3 f_equal. lia.
Qed.

Lemma elem_of_upto a b s : s ∈ upto a b ↔ a ≤ s ∧ s < b.
Proof.
  unfold upto. rewrite list_elem_of_fmap. setoid_rewrite elem_of_seq. split.
  - intros (k & -> & Hk). lia.
  - intros Hj. exists (N.to_nat s). lia.
Qed.

(** The buffer holds deltas of this stream, under their own sequence, from the
    cursor on; [top] is the highest sequence the stream uses. *)
Record buf_ok (top : N) (t : DeltaTracker) : Prop := mkBufOk {
  base_lt : saturating_add (base_sequence t) 1 ≤ next_sequence t;
  next_le : next_sequence t ≤ u64_max;
  entry_ok : ∀ s d, buffered t !! s = Some d →
    d_sequence d = s ∧ d_task_id d = task_id t ∧ d_base_sequence d = base_sequence t
    ∧ next_sequence t ≤ s ∧ s ≤ top;
  size_ok : N.of_nat (size (buffered t)) ≤ DELTA_BUFFER_CAP }.

(** Between two operations the cursor itself is not buffered. *)
Definition wf (top : N) (t : DeltaTracker) : Prop :=
  buf_ok top t ∧ buffered t !! next_sequence t = None.

(** What no operation but [restore] changes. *)
Definition same_stream (t t' : DeltaTracker) : Prop :=
  task_id t' = task_id t ∧ base_sequence t' = base_sequence t.

Lemma apply_ok t d t' :
  apply t d = Ok t' →
  t' = mkTracker (task_id t) (base_sequence t) (saturating_add (next_sequence t) 1) (buffered t)
         (known_findings t ∪ introduced d) (stale t) (pending t).
Proof. unfold apply. intros ([] & _ & H)%bind_ok. by injection H as <-. Qed.

Lemma new_wf top task base : wf top (new task base).
Proof.
  split; [|done]. split; simpl; unfold saturating_add; try done; lia.
Qed.

(** The sequences a list of receipts reports as applied. *)
Definition applied_seqs (rs : list DeltaReceipt) : list N :=
  map r_sequence (List.filter applied rs).

Lemma applied_seqs_app a b : applied_seqs (a ++ b) = applied_seqs a ++ applied_seqs b.
Proof. unfold applied_seqs. by rewrite List.filter_app, map_app. Qed.

Lemma applied_seqs_drained l : applied_seqs (map (mkReceipt true true) l) = l.
Proof. unfold applied_seqs. induction l as [|s l IH]; simpl; [done|]. by rewrite IH. Qed.

#[export] Instance applied_seqs_perm : Proper ((≡ₚ) ==> (≡ₚ)) applied_seqs.
Proof.
  intros a b H. unfold applied_seqs. apply (Permutation_map r_sequence).
  induction H; simpl; repeat case_match; try done; [by constructor|by constructor|by etrans].
Qed.

Lemma size_delete_lt (m : gmap N Delta) i d :
  m !! i = Some d → (size (delete i m) < size m)%nat.
Proof.
  intros Hd. rewrite map_size_delete, Hd.
  assert (size m ≠ 0%nat) by (intros Hz%map_size_empty_inv; by rewrite Hz in Hd). lia.
Qed.

Section Invariant.
Context (top : N) (Htop : top ≤ u64_max).

(** Taking the entry at the cursor and advancing. *)
Lemma buf_ok_advance t d known st p :
  buf_ok top t → buffered t !! next_sequence t = Some d →
  buf_ok top (mkTracker (task_id t) (base_sequence t) (saturating_add (next_sequence t) 1)
               (delete (next_sequence t) (buffered t)) known st p).
Proof.
  intros [Hb Hn He Hs] Hd. split; simpl.
  - unfold saturating_add in *. lia.
  - unfold saturating_add. lia.
  - intros s d' [Hne Hd']%lookup_delete_Some. destruct (He s d' Hd') as (?&?&?&?&?).
    split_and!; try done. unfold saturating_add. lia.
  - rewrite map_size_delete, Hd. lia.
Qed.

Lemma drain_loop_spec fuel t t' r :
  buf_ok top t → (size (buffered t) < fuel)%nat → drain_loop fuel t = (t', r) →
  same_stream t t' ∧ wf top t' ∧ stale t' = stale t ∧ next_sequence t ≤ next_sequence t'
  ∧ (top < u64_max →
     pending t' = pending t ++ map (mkReceipt true true) (upto (next_sequence t) (next_sequence t'))).
Proof.
  revert t. induction fuel as [|fuel IH]; intros t Hok Hf; simpl; [lia|].
  destruct (buffered t !! next_sequence t) as [d|] eqn:Hd.
  2:{ intros [= <- <-]. split_and!; try done. intros _. by rewrite upto_nil, app_nil_r. }
  pose proof (entry_ok _ _ Hok _ _ Hd) as (Hseq & _ & _ & _ & Hst).
  assert (size (delete (next_sequence t) (buffered t)) < size (buffered t))%nat as Hsz.
  { by eapply size_delete_lt. }
  destruct (apply _ d) as [t2|e] eqn:Ha.
  - apply apply_ok in Ha. simpl in Ha. subst t2. intros Hdr. apply IH in Hdr.
    2:{ by apply (buf_ok_advance t d). }
    2:{ simpl. lia. }
    simpl in Hdr. destruct Hdr as (Hss & Hwf & Hst' & Hn & Hp).
    split; [done|]. split; [done|]. split; [done|].
    assert (next_sequence t ≤ saturating_add (next_sequence t) 1) as Hle.
    { unfold saturating_add. pose proof (next_le _ _ Hok). lia. }
    split; [lia|]. intros Ht. rewrite Hp by done.
    assert (saturating_add (next_sequence t) 1 = next_sequence t + 1) as Hs1
      by (unfold saturating_add; lia).
    rewrite Hs1 in Hn |- *. rewrite (upto_cons (next_sequence t)) by lia.
    simpl. by rewrite <-app_assoc, Hseq.
  - intros [= <- <-]. split; [done|]. split; [|split_and!; try done].
    + split; [|simpl; apply lookup_delete_eq]. destruct Hok as [Hb Hn He Hs]. split; simpl; try done.
      * intros s d' [Hne Hd']%lookup_delete_Some. apply (He s d' Hd').
      * lia.
    + simpl. intros _. by rewrite upto_nil, app_nil_r.
Qed.

(** The receipt an [observe] hands to its caller. *)
Definition returned (r : result DeltaReceipt DeltaError) : list DeltaReceipt :=
  match r with Ok receipt => [receipt] | Err _ => [] end.

(** What one step may do to the receipts: the sequences the cursor passed, and
    only those, are newly reported as applied. *)
Definition reports (t t' : DeltaTracker) (out : list DeltaReceipt) : Prop :=
  top < u64_max →
  applied_seqs (out ++ pending t')
  ≡ₚ applied_seqs (pending t) ++ upto (next_sequence t) (next_sequence t').

Definition step_ok (t t' : DeltaTracker) (out : list DeltaReceipt) : Prop :=
  same_stream t t' ∧ wf top t' ∧ next_sequence t ≤ next_sequence t' ∧ reports t t' out.

Lemma step_ok_quiet t t' :
  same_stream t t' → wf top t' → next_sequence t' = next_sequence t → pending t' = pending t →
  step_ok t t' [].
Proof.
  intros ? ? Hn Hp. split_and!; try done; [lia|]. intros _. by rewrite Hn, Hp, upto_nil, app_nil_r.
Qed.

Lemma buffer_wf t d :
  wf top t → d_task_id d = task_id t → d_base_sequence d = base_sequence t →
  next_sequence t < d_sequence d → d_sequence d ≤ top →
  buffered t !! d_sequence d = None → N.of_nat (size (buffered t)) < DELTA_BUFFER_CAP →
  wf top (set_buffered t (<[d_sequence d := d]> (buffered t))).
Proof.
  intros [[Hb Hn He Hs] Hc] Ht Hbase Hlt Hle Hno Hcap. split; [split|]; simpl; try done.
  - intros s d' [[<- <-]|[Hne Hd']]%lookup_insert_Some; [split_and!; (done || lia)|].
    apply (He s d' Hd').
  - rewrite map_size_insert, Hno. lia.
  - rewrite lookup_insert_ne by lia. done.
Qed.

(** Applying the delta at the cursor and draining. *)
Lemma apply_drain_ok t d t1 t2 r :
  wf top t → d_sequence d = next_sequence t → d_sequence d ≤ top → apply t d = Ok t1 →
  drain t1 = (t2, r) →
  same_stream t t2 ∧ wf top t2 ∧ next_sequence t ≤ next_sequence t2
  ∧ (top < u64_max →
     next_sequence t < next_sequence t2
     ∧ pending t2 = pending t ++ map (mkReceipt true true) (upto (next_sequence t + 1) (next_sequence t2))).
Proof.
  intros [[Hb Hn He Hs] Hc] Hseq Hle ->%apply_ok Hdr. apply drain_loop_spec in Hdr; simpl in *.
  - destruct Hdr as (? & ? & _ & Hnn & Hp). unfold saturating_add in Hnn, Hp.
    split_and!; try done; [lia|]. intros Ht. specialize (Hp Ht).
    replace (N.min (next_sequence t + 1) u64_max) with (next_sequence t + 1) in * by lia.
    split; [lia|done].
  - split; simpl; try done; unfold saturating_add in *; try lia.
    intros s d' Hd'. destruct (He s d' Hd') as (?&?&?&?&?).
    assert (s ≠ next_sequence t) by congruence. split_and!; try done. lia.
  - lia.
Qed.

Lemma observe_step t d t' r :
  wf top t → d_sequence d ≤ top → observe t d = (t', r) → step_ok t t' (returned r).
Proof.
  intros Hwf Hle. unfold observe.
  destruct (str_eqb_spec (d_task_id d) (task_id t)) as [Htask|]; simpl.
  2:{ intros [= <- <-]. by apply step_ok_quiet. }
  destruct (stale t); [intros [= <- <-]; by apply step_ok_quiet|].
  destruct (N.eqb_spec (d_base_sequence d) (base_sequence t)) as [Hbase|]; simpl.
  2:{ intros [= <- <-]. apply step_ok_quiet; try done. destruct Hwf as [[]]. by split. }
  destruct (N.ltb_spec (d_sequence d) (next_sequence t)); simpl.
  { intros [= <- <-]. by apply step_ok_quiet. }
  case_bool_decide as Hin; [intros [= <- <-]; by apply step_ok_quiet|].
  rewrite <-eq_None_not_Some in Hin.
  destruct (N.ltb_spec (next_sequence t) (d_sequence d)) as [Hlt|Hge].
  - destruct (N.leb_spec DELTA_BUFFER_CAP (N.of_nat (size (buffered t))));
      intros [= <- <-]; [by apply step_ok_quiet|].
    split; [done|]. split; [|split; [simpl; lia|]].
    + by destruct (buffer_wf t d) as [[] ?].
    + intros _. simpl. rewrite applied_seqs_app, upto_nil. done.
  - assert (d_sequence d = next_sequence t) as Hseq by lia.
    destruct (apply t d) as [t1|e] eqn:Ha; [|intros [= <- <-]; by apply step_ok_quiet].
    destruct (drain t1) as [t2 r2] eqn:Hdr.
    destruct (apply_drain_ok t d t1 t2 r2) as (Hss & Hwf2 & Hn2 & Hp); try done.
    assert (∀ out p, out ++ p ≡ₚ mkReceipt true false (d_sequence d) :: pending t2 →
              top < u64_max →
              applied_seqs (out ++ p) ≡ₚ applied_seqs (pending t) ++ upto (next_sequence t) (next_sequence t2)) as Hrep.
    { intros out p Hperm Ht. destruct (Hp Ht) as [Hlt Hp'].
      rewrite Hperm, Hp'.
      rewrite (upto_cons (next_sequence t)) by done. rewrite <-Permutation_middle, <-Hseq.
      change (d_sequence d :: applied_seqs (pending t
        ++ map (mkReceipt true true) (upto (d_sequence d + 1) (next_sequence t2)))
        ≡ₚ d_sequence d :: applied_seqs (pending t) ++ upto (d_sequence d + 1) (next_sequence t2)).
      by rewrite applied_seqs_app, applied_seqs_drained. }
    destruct r2 as [[]|e]; intros [= <- <-]; split_and!; try done.
    + intros Ht. by apply (Hrep [_] (pending t2)).
    + destruct Hwf2 as [[] ?]. by split.
    + intros Ht. apply (Hrep [] (pending t2 ++ [_])); [|done]. simpl.
      by rewrite <-Permutation_cons_append.
Qed.

End Invariant.

(** ** Persistence *)

Lemma entries_perm {A} (m : gmap N A) : entries m ≡ₚ map_to_list m.
Proof. apply merge_sort_Permutation. Qed.

Lemma elem_of_entries {A} (m : gmap N A) k x : (k, x) ∈ entries m ↔ m !! k = Some x.
Proof. by rewrite entries_perm, elem_of_map_to_list. Qed.

Lemma entries_NoDup {A} (m : gmap N A) : NoDup (entries m).*1.
Proof. rewrite entries_perm. apply NoDup_fst_map_to_list. Qed.

Lemma fold_restore s next l m :
  (∀ k d, (k, d) ∈ l → d_sequence d = k ∧ d_task_id d = s_task_id s
                       ∧ d_base_sequence d = s_base_sequence s ∧ next < k) →
  NoDup l.*1 →
  List.fold_left (restore_delta s next) (map snd l) m = list_to_map l ∪ m.
Proof.
  revert m. induction l as [|[k d] l IH]; intros m Hl Hnd; simpl.
  - by rewrite (left_id_L ∅ (∪)).
  - apply NoDup_cons in Hnd as [Hk Hnd].
    destruct (Hl k d) as (<- & Ht & Hb & Hlt); [by left|].
    unfold restore_delta at 2. rewrite Ht, Hb, str_eqb_refl, N.eqb_refl.
    destruct (N.ltb_spec next (d_sequence d)); [|lia]. simpl.
    rewrite IH; [|intros k' d' Hin; apply Hl; by right|done].
    rewrite <-insert_union_r by (by apply not_elem_of_list_to_map_1).
    by rewrite insert_union_l.
Qed.

Lemma sorted_ids_set X : list_to_set (sorted_ids X) = X.
Proof.
  unfold sorted_ids. rewrite (merge_sort_Permutation str_le (elements X)).
  apply list_to_set_elements_L.
Qed.

Lemma restore_state_id top t : wf top t → restore (state t) = t.
Proof.
  intros [[Hb Hn He Hs] Hc]. unfold restore, state. simpl. rewrite N.max_l by done.
  rewrite fold_restore.
  - rewrite (list_to_map_proper _ (map_to_list (buffered t)) (entries_NoDup _) (entries_perm _)).
    rewrite list_to_map_to_list, (right_id_L ∅ (∪)), sorted_ids_set. by destruct t.
  - simpl. intros k d Hkd%elem_of_entries. destruct (He k d Hkd) as (?&?&?&?&?).
    assert (k ≠ next_sequence t) by congruence. split_and!; (done || lia).
  - apply entries_NoDup.
Qed.

(** ** Traces *)

(** What a caller does with a tracker. *)
Inductive op : Type :=
| Observe (d : Delta)
| Seed (ids : list str)
| Collect
| Restart.

(** One operation and the receipts it delivers. *)
Definition step (t : DeltaTracker) (o : op) : DeltaTracker * list DeltaReceipt :=
  match o with
  | Observe d => let (t', r) := observe t d in (t', returned r)
  | Seed ids => (seed_findings t ids, [])
  | Collect => drain_ready t
  | Restart => (restore (state t), [])
  end.

Fixpoint run (t : DeltaTracker) (ops : list op) : DeltaTracker * list DeltaReceipt :=
  match ops with
  | [] => (t, [])
  | o :: ops' => let (t1, out) := step t o in let (t2, rest) := run t1 ops' in (t2, out ++ rest)
  end.

(** The observed deltas stay at or below [top]. *)
Definition op_below (top : N) (o : op) : Prop :=
  match o with Observe d => d_sequence d ≤ top | _ => True end.

Lemma step_step_ok top t o t' out :
  top ≤ u64_max → wf top t → op_below top o → step t o = (t', out) → step_ok top t t' out.
Proof.
  intros Htop Hwf Ho. destruct o as [d|ids| |]; simpl.
  - destruct (observe t d) as [t1 r] eqn:Hobs. intros [= <- <-]. by eapply observe_step.
  - intros [= <- <-]. apply step_ok_quiet; try done. destruct Hwf as [[]]. by split.
  - intros [= <- <-]. split; [done|]. split; [by destruct Hwf as [[]]; split|]. split; [simpl; lia|].
    intros _. simpl. by rewrite upto_nil, !app_nil_r.
  - intros [= <- <-]. rewrite (restore_state_id top) by done. by apply step_ok_quiet.
Qed.

Lemma run_step_ok top t ops t' out :
  top ≤ u64_max → wf top t → Forall (op_below top) ops → run t ops = (t', out) →
  step_ok top t t' out.
Proof.
  intros Htop Hwf Hops. revert t t' out Hwf. induction Hops as [|o ops Ho Hops IH];
    intros t t' out Hwf; simpl.
  { intros [= <- <-]. by apply step_ok_quiet. }
  destruct (step t o) as [t1 out1] eqn:Hst. destruct (run t1 ops) as [t2 rest] eqn:Hrun.
  intros [= <- <-]. destruct (step_step_ok top t o t1 out1) as (Hs1 & Hw1 & Hn1 & Hr1); try done.
  destruct (IH t1 t2 rest Hw1 Hrun) as ([Hs2 Hs2'] & Hw2 & Hn2 & Hr2).
  destruct Hs1 as [Hs1 Hs1'].
  split; [split; congruence|]. split; [done|]. split; [lia|]. intros Ht.
  specialize (Hr1 Ht). specialize (Hr2 Ht). rewrite <-app_assoc, applied_seqs_app, Hr2.
  rewrite applied_seqs_app in Hr1. rewrite app_assoc, Hr1, <-app_assoc.
  by rewrite upto_app.
Qed.

(** The tracker invariant: from a fresh tracker, whatever is observed, seeded,
    collected or restarted, the buffer only holds deltas of this task and base,
    each under its own sequence and strictly above the cursor, within the cap;
    the cursor never moves back. *)
Theorem tracker_invariant task base ops t out :
  Forall (op_below u64_max) ops → run (new task base) ops = (t, out) →
  wf u64_max t ∧ task_id t = task ∧ base_sequence t = base
  ∧ saturating_add base 1 ≤ next_sequence t.
Proof.
  intros Hops Hrun. apply (run_step_ok u64_max) in Hrun as ([Ht Hb] & Hw & Hn & _); try done.
  apply new_wf.
Qed.

(** Exactly-once delivery: the receipts handed out so far and those still
    queued report as applied exactly the sequences from the base to the cursor,
    each of them once, over any order of arrivals, replays, rejected deltas,
    collections and restarts (streams below the last sequence of [u64]). *)
Theorem applied_exactly_once task base ops t out :
  base < u64_max → Forall (op_below (u64_max - 1)) ops → run (new task base) ops = (t, out) →
  applied_seqs (out ++ pending t) ≡ₚ upto (base + 1) (next_sequence t)
  ∧ NoDup (applied_seqs (out ++ pending t)).
Proof.
  intros Hb Hops Hrun.
  apply (run_step_ok (u64_max - 1)) in Hrun as (_ & _ & Hn & Hr); try done; [|apply new_wf].
  assert (applied_seqs (out ++ pending t) ≡ₚ upto (base + 1) (next_sequence t)) as Hperm.
  { rewrite (Hr eq_refl). simpl. unfold saturating_add.
    by replace (N.min (base + 1) u64_max) with (base + 1) by lia. }
  split; [done|]. rewrite Hperm. apply NoDup_fmap_2; [intros ???; lia|apply NoDup_seq].
Qed.

(** Restart recovery: persisting a reachable tracker with [state] and
    rebuilding it with [restore] gives the same tracker back. *)
Theorem restore_state task base ops t out :
  Forall (op_below u64_max) ops → run (new task base) ops = (t, out) → restore (state t) = t.
Proof.
  intros Hops Hrun. apply (run_step_ok u64_max) in Hrun as (_ & Hw & _); try done; [|apply new_wf].
  by eapply restore_state_id.
Qed.

(** ** Rejections *)

(** [observe] on its error branches: a wrong task, a replay, a stale tracker
    and a full buffer leave the tracker exactly as it was; a wrong base only
    marks it stale; a jump ahead only buffers the delta and queues its receipt. *)
Theorem observe_errors_frame t d :
  match observe t d with
  | (t', Err (WrongTask _ _)) => t' = t ∧ d_task_id d ≠ task_id t
  | (t', Err BaseUnavailable) =>
      t' = t ∧ (stale t = true ∨ DELTA_BUFFER_CAP ≤ N.of_nat (size (buffered t)))
  | (t', Err (StaleBase _ _)) => t' = mark_stale t ∧ d_base_sequence d ≠ base_sequence t
  | (t', Err (Duplicate s)) =>
      t' = t ∧ s = d_sequence d ∧ (s < next_sequence t ∨ is_Some (buffered t !! s))
  | (t', Err (Gap e g)) =>
      t' = push_receipt (set_buffered t (<[g := d]> (buffered t))) (mkReceipt false true g)
      ∧ g = d_sequence d ∧ e = next_sequence t ∧ e < g ∧ buffered t !! g = None
  | (_, Err (UnknownFinding _)) => d_sequence d = next_sequence t
  | (_, Err (DUnknownEvidence _)) => False
  | (_, Ok r) => r = mkReceipt true false (d_sequence d) ∧ d_sequence d = next_sequence t
  end.
Proof.
  assert (∀ t d e, apply t d = Err e → ∃ id, e = UnknownFinding id) as Happly.
  { intros t0 d0 e. unfold apply, rall. generalize (known_findings t0), (introduced d0).
    intros kn fr. induction (updates d0) as [|u us IH]; simpl; [done|].
    destruct u as [|id p| |]; simpl; auto. destruct (_ && _); [|auto]. intros [= <-]. eauto. }
  assert (∀ fuel t t' e, drain_loop fuel t = (t', Err e) → ∃ id, e = UnknownFinding id) as Hdrain.
  { induction fuel as [|fuel IH]; intros t0 t' e; simpl; [done|].
    destruct (buffered t0 !! next_sequence t0) as [d0|]; [|done].
    destruct (apply _ d0) as [t1|e1] eqn:Ha; [apply IH|]. intros [= _ <-]. eauto. }
  unfold observe. destruct (str_eqb_spec (d_task_id d) (task_id t)) as [Htask|]; [|done]. simpl.
  destruct (stale t) eqn:Hst; [eauto|].
  destruct (N.eqb_spec (d_base_sequence d) (base_sequence t)) as [Hbase|]; [|done]. simpl.
  destruct (N.ltb_spec (d_sequence d) (next_sequence t)); simpl; [eauto|].
  case_bool_decide as Hin; [eauto|]. rewrite <-eq_None_not_Some in Hin.
  destruct (N.ltb_spec (next_sequence t) (d_sequence d)) as [Hlt|Hge].
  - destruct (N.leb_spec DELTA_BUFFER_CAP (N.of_nat (size (buffered t)))); eauto.
  - assert (d_sequence d = next_sequence t) as Hseq by lia.
    destruct (apply t d) as [t1|e] eqn:Ha; [|by destruct (Happly _ _ _ Ha) as [id ->]].
    unfold drain. destruct (drain_loop _ t1) as [t2 [[]|e]] eqn:Hdr; [done|].
    by destruct (Hdrain _ _ _ _ Hdr) as [id ->].
Qed.

Lemma stale_step t o t' out :
  wf u64_max t → stale t = true → step t o = (t', out) →
  wf u64_max t' ∧ stale t' = true ∧ next_sequence t' = next_sequence t
  ∧ buffered t' = buffered t ∧ out ++ pending t' = pending t.
Proof.
  intros Hwf Hst. destruct o as [d|ids| |]; simpl.
  - unfold observe. rewrite Hst. destruct (str_eqb _ _); intros [= <- <-]; done.
  - intros [= <- <-]. split; [|done]. destruct Hwf as [[]]. by split.
  - intros [= <- <-]. simpl. rewrite app_nil_r. split; [|done]. destruct Hwf as [[]]. by split.
  - intros [= <- <-]. by rewrite (restore_state_id u64_max).
Qed.

(** Staleness is permanent: once a wrong base was observed, no sequence of
    operations makes the tracker apply or buffer anything again; the only
    receipts still delivered are those already queued. *)
Theorem stale_forever t ops t' out :
  wf u64_max t → stale t = true → run t ops = (t', out) →
  stale t' = true ∧ next_sequence t' = next_sequence t ∧ buffered t' = buffered t
  ∧ out ++ pending t' = pending t.
Proof.
  revert t t' out. induction ops as [|o ops IH]; intros t t' out Hwf Hst; simpl.
  { by intros [= <- <-]. }
  destruct (step t o) as [t1 out1] eqn:Hs. destruct (run t1 ops) as [t2 rest] eqn:Hr.
  intros [= <- <-]. destruct (stale_step t o t1 out1) as (Hw1 & Hs1 & Hn1 & Hb1 & Hp1); try done.
  destruct (IH t1 t2 rest) as (? & Hn2 & Hb2 & Hp2); try done.
  rewrite Hn2, Hb2, <-app_assoc, Hp2. done.
Qed.

(** ** Missing sequences *)

Definition absent (b : gmap N Delta) (s : N) : bool := bool_decide (b !! s = None).
Definition held (b : gmap N Delta) (s : N) : bool := bool_decide (is_Some (b !! s)).

Lemma missing_loop_spec fuel b s h acc :
  (N.to_nat DELTA_MISSING_REPORT_CAP - length acc + length (List.filter (held b) (upto s h)) ≤ fuel)%nat →
  missing_loop fuel b s h acc
  = acc ++ take (N.to_nat DELTA_MISSING_REPORT_CAP - length acc) (List.filter (absent b) (upto s h)).
Proof.
  set (cap := N.to_nat DELTA_MISSING_REPORT_CAP).
  revert s acc. induction fuel as [|fuel IH]; intros s acc Hf; cbn [missing_loop].
  { replace (cap - length acc)%nat with 0%nat by lia. by rewrite take_0, app_nil_r. }
  destruct (N.ltb_spec s h) as [Hlt|Hge]; cbn [andb].
  2:{ assert (upto s h = []) as -> by (unfold upto; by replace (h - s) with 0 by lia).
      cbn [List.filter]. by rewrite take_nil, app_nil_r. }
  destruct (N.ltb_spec (len acc) DELTA_MISSING_REPORT_CAP) as [Hc|Hc].
  2:{ replace (cap - length acc)%nat with 0%nat by (unfold len in Hc; lia).
      by rewrite take_0, app_nil_r. }
  rewrite (upto_cons s h) in Hf |- * by done. cbn [List.filter] in Hf |- *.
  unfold absent at 1. unfold held at 1 in Hf.
  destruct (b !! s) as [d|] eqn:Hd.
  - rewrite bool_decide_true in Hf |- * by done. rewrite (bool_decide_false (Some d = None)) by done.
    apply IH. cbn [length] in Hf. lia.
  - rewrite bool_decide_false in Hf |- * by (by intros [? ?]). rewrite bool_decide_true by done.
    assert (length acc < cap)%nat by (unfold len in Hc; lia).
    rewrite IH by (rewrite length_app; cbn [length]; lia).
    rewrite length_app, <-app_assoc. cbn [length app].
    replace (cap - length acc)%nat with (S (cap - (length acc + 1))) by lia. done.
Qed.

Lemma held_bound b s h : (length (List.filter (held b) (upto s h)) ≤ size b)%nat.
Proof.
  rewrite <-(size_dom b). assert (list_to_set (List.filter (held b) (upto s h)) ⊆ dom b) as Hsub.
  { intros k [_ Hk]%elem_of_list_to_set%list_elem_of_In%filter_In.
    apply bool_decide_eq_true in Hk. by apply elem_of_dom. }
  apply subseteq_size in Hsub. rewrite size_list_to_set in Hsub; [done|].
  apply NoDup_ListNoDup, List.NoDup_filter, NoDup_ListNoDup.
  apply NoDup_fmap_2; [intros ???; lia|apply NoDup_seq].
Qed.

Lemma strongly_sorted_last {A} (R : relation A) `{!Reflexive R} l h :
  StronglySorted R l → last l = Some h → Forall (λ x, R x h) l.
Proof.
  induction 1 as [|a l Hl IH Ha]; [done|]. destruct l as [|b l].
  - intros [= <-]. by repeat constructor.
  - intros Hlast. constructor; [|by apply IH].
    rewrite Forall_forall in Ha. apply Ha. by apply last_Some_elem_of.
Qed.

#[export] Instance by_key_total {A} : Total (@by_key A).
Proof. intros x y. unfold by_key. lia. Qed.
#[export] Instance by_key_trans {A} : Transitive (@by_key A).
Proof. intros x y z. unfold by_key. lia. Qed.

Lemma highest_buffered_spec t :
  match highest_buffered t with
  | None => buffered t = ∅
  | Some h => is_Some (buffered t !! h) ∧ ∀ s, is_Some (buffered t !! s) → s ≤ h
  end.
Proof.
  unfold highest_buffered. change (map fst (entries (buffered t))) with (entries (buffered t)).*1.
  rewrite fmap_last. destruct (last (entries (buffered t))) as [[h d]|] eqn:Hl; simpl.
  - split.
    + exists d. by apply elem_of_entries, last_Some_elem_of.
    + intros s [d' Hd']. apply elem_of_entries in Hd'.
      apply strongly_sorted_last with (R := by_key) in Hl;
        [|intros x; unfold by_key; lia|apply (StronglySorted_merge_sort by_key)].
      rewrite Forall_forall in Hl. by apply (Hl (s, d')).
  - apply last_None in Hl. apply map_to_list_empty_iff, Permutation_nil_r.
    by rewrite <-entries_perm, Hl.
Qed.

(** [missing_sequences] lists, in increasing order and up to the report cap,
    exactly the sequences from the cursor to the highest buffered one that are
    not buffered; a snapshot is needed exactly when the tracker is stale or
    something is buffered. *)
Theorem missing_sequences_spec top t :
  wf top t →
  (match highest_buffered t with
   | None => buffered t = ∅ ∧ missing_sequences t = []
   | Some h =>
       is_Some (buffered t !! h) ∧ (∀ s, is_Some (buffered t !! s) → s ≤ h)
       ∧ missing_sequences t
         = take (N.to_nat DELTA_MISSING_REPORT_CAP)
             (List.filter (absent (buffered t)) (upto (next_sequence t) h))
   end)
  ∧ (needs_full_snapshot t = true ↔ stale t = true ∨ buffered t ≠ ∅).
Proof.
  intros [[Hb Hn He Hs] Hc]. pose proof (highest_buffered_spec t) as Hh.
  unfold needs_full_snapshot, missing_sequences. rewrite orb_true_iff.
  destruct (highest_buffered t) as [h|].
  2:{ split; [done|]. split; intros [|]; try done; by left. }
  destruct Hh as [[d Hd] Hmax]. rewrite missing_loop_spec.
  2:{ cbn [length]. rewrite Nat.sub_0_r. apply Nat.add_le_mono_l, held_bound. }
  cbn [length app]. rewrite Nat.sub_0_r. split; [eauto|].
  destruct (He h d Hd) as (_ & _ & _ & Hle & _).
  assert (next_sequence t ≠ h) by congruence. rewrite upto_cons by lia. cbn [List.filter].
  unfold absent at 1. rewrite bool_decide_true by done.
  change (N.to_nat DELTA_MISSING_REPORT_CAP) with (S (N.to_nat 1023)). cbn [take is_empty negb].
  split; [|by right]. intros [|_]; [by left|]. right. intros Hz. by rewrite Hz in Hd.
Qed.

(** ** Refinement: the tracker as the set of deltas it has seen

    The abstract tracker of a stream is the set of sequences seen so far.  Its
    cursor is the first one not seen, its buffer the later ones, its findings
    those of the applied prefix. *)

Definition intros_of (ds : list Delta) : gset str := ⋃ (map introduced ds).

(** A stream a sender may emit: numbered from the base, patching only findings
    known at that point, no longer than the buffer. *)
Record valid_stream (task : str) (base : N) (ids : list str) (stream : list Delta) : Prop :=
  mkValidStream {
  vs_numbered : ∀ i d, stream !! i = Some d →
    d_sequence d = base + 1 + N.of_nat i ∧ d_task_id d = task ∧ d_base_sequence d = base;
  vs_patches : ∀ i d, stream !! i = Some d →
    rall (check_update (list_to_set ids ∪ intros_of (take i stream)) (introduced d)) (updates d)
    = Ok tt;
  vs_fits : base + 1 + len stream ≤ u64_max;
  vs_short : len stream ≤ DELTA_BUFFER_CAP }.

Section Refinement.
Context (task : str) (base : N) (ids : list str) (stream : list Delta).
Context (Hstream : valid_stream task base ids stream).

(** The delta of a sequence. *)
Definition delta_at (s : N) : option Delta := stream !! N.to_nat (s - (base + 1)).

Definition in_stream (seen : gset N) : Prop :=
  ∀ s, s ∈ seen → base + 1 ≤ s ∧ s < base + 1 + len stream.

(** The first [k] sequences were applied, those of [seen] from [from] on wait. *)
Record holds (seen : gset N) (k : nat) (from : N) (t : DeltaTracker) : Prop := mkHolds {
  h_task : task_id t = task;
  h_base : base_sequence t = base;
  h_fresh : stale t = false;
  h_next : next_sequence t = base + 1 + N.of_nat k;
  h_prefix : ∀ s, base + 1 ≤ s → s < base + 1 + N.of_nat k → s ∈ seen;
  h_buffer : ∀ s, buffered t !! s = if decide (s ∈ seen ∧ from ≤ s) then delta_at s else None;
  h_known : known_findings t = list_to_set ids ∪ intros_of (take k stream) }.

Definition tracks (seen : gset N) (k : nat) (t : DeltaTracker) : Prop :=
  holds seen k (base + 1 + N.of_nat k) t ∧ base + 1 + N.of_nat k ∉ seen.

Lemma delta_at_is_Some s : base + 1 ≤ s → s < base + 1 + len stream → is_Some (delta_at s).
Proof. intros. apply lookup_lt_is_Some. unfold len in *. lia. Qed.

Lemma prefix_bound seen k from t : in_stream seen → holds seen k from t → (k ≤ length stream)%nat.
Proof.
  intros Hin Hh. destruct k as [|k]; [lia|].
  assert (base + 1 + N.of_nat k ∈ seen) as Hs by (apply (h_prefix _ _ _ _ Hh); lia).
  apply Hin in Hs. unfold len in Hs. lia.
Qed.

(** Applying the delta at the cursor extends the prefix by one. *)
Lemma apply_next seen k from t d :
  holds seen k from t → stream !! k = Some d → base + 1 + N.of_nat k ∈ seen →
  (∀ s, buffered t !! s = if decide (s ∈ seen ∧ base + 1 + N.of_nat (S k) ≤ s) then delta_at s else None) →
  ∃ t', apply t d = Ok t' ∧ holds seen (S k) (base + 1 + N.of_nat (S k)) t' ∧ pending t' = pending t
        ∧ buffered t' = buffered t.
Proof.
  intros [Ht Hb Hf Hn Hp _ Hk] Hd Hin Hbuf. unfold apply.
  rewrite Hk, (vs_patches _ _ _ _ Hstream k d Hd). eexists. split; [done|]. split; [|done].
  split; simpl; try done.
  - rewrite Hn. unfold saturating_add. pose proof (vs_fits _ _ _ _ Hstream).
    apply lookup_lt_Some in Hd. unfold len in *. lia.
  - intros s Hs Hlt. destruct (decide (s = base + 1 + N.of_nat k)) as [->|]; [done|]. apply Hp; lia.
  - rewrite (take_S_r _ _ _ Hd). unfold intros_of. rewrite map_app, union_list_app_L. simpl.
    by rewrite (right_id_L ∅ (∪)), (assoc_L (∪)).
Qed.

Lemma drain_tracks fuel seen k t :
  in_stream seen → holds seen k (base + 1 + N.of_nat k) t → (size (buffered t) < fuel)%nat →
  ∃ k' t', drain_loop fuel t = (t', Ok tt) ∧ tracks seen k' t'.
Proof.
  intros Hin. revert k t. induction fuel as [|fuel IH]; intros k t Hh Hf; [lia|]. simpl.
  pose proof (prefix_bound _ _ _ _ Hin Hh) as Hk.
  rewrite (h_next _ _ _ _ Hh), (h_buffer _ _ _ _ Hh).
  destruct (decide (base + 1 + N.of_nat k ∈ seen)) as [Hs|Hs].
  2:{ rewrite decide_False by tauto. exists k, t. split; [done|by split]. }
  rewrite decide_True by (split; [done|lia]). destruct (Hin _ Hs) as [Hlo Hhi].
  destruct (delta_at_is_Some _ Hlo Hhi) as [d Hd]. rewrite Hd.
  assert (stream !! k = Some d) as Hdk.
  { unfold delta_at in Hd. by replace (N.to_nat _) with k in Hd by lia. }
  pose (t1 := set_buffered t (delete (base + 1 + N.of_nat k) (buffered t))).
  fold t1. destruct (apply_next seen k (base + 1 + N.of_nat (S k)) t1 d) as (t2 & Ha & Hh2 & Hp2 & Hb2);
    try done.
  { destruct Hh as [? ? ? ? ? Hb ?]. split; try done. intros s. simpl. rewrite lookup_delete.
    case_decide as Hc; [rewrite decide_False by (intros [? ?]; lia); done|]. rewrite Hb.
    apply decide_ext. split; intros [? ?]; (split; [done|lia]). }
  { intros s. simpl. rewrite lookup_delete.
    case_decide as Hc; [rewrite decide_False by (intros [? ?]; lia); done|].
    rewrite (h_buffer _ _ _ _ Hh). apply decide_ext. split; intros [? ?]; (split; [done|lia]). }
  rewrite Ha. apply (IH (S k)).
  - destruct Hh2. by split.
  - simpl. rewrite Hb2. simpl.
    assert (buffered t !! (base + 1 + N.of_nat k) = Some d) as Hbk%size_delete_lt; [|lia].
    rewrite (h_buffer _ _ _ _ Hh). by rewrite decide_True by (split; [done|lia]).
Qed.

Lemma tracks_least seen k1 k2 t1 t2 : tracks seen k1 t1 → tracks seen k2 t2 → k1 = k2.
Proof.
  intros [H1 N1] [H2 N2]. destruct (Nat.lt_trichotomy k1 k2) as [Hlt|[->|Hlt]]; [|done|]; exfalso.
  - apply N1, (h_prefix _ _ _ _ H2); lia.
  - apply N2, (h_prefix _ _ _ _ H1); lia.
Qed.

(** The buffer never fills up on a stream this short. *)
Lemma tracks_room seen k t s :
  in_stream seen → tracks seen k t → s ∉ seen → base + 1 + N.of_nat k < s →
  s < base + 1 + len stream → N.of_nat (size (buffered t)) < DELTA_BUFFER_CAP.
Proof.
  intros Hin [Hh Hcur] Hs Hlo Hhi.
  assert (dom (buffered t) ⊆ list_to_set (upto (base + 1 + N.of_nat k + 1) (base + 1 + len stream)))
    as Hsub.
  { intros x [d Hd]%elem_of_dom. rewrite (h_buffer _ _ _ _ Hh) in Hd.
    case_decide as Hc; [|done]. destruct Hc as [Hx Hk]. destruct (Hin x Hx).
    assert (x ≠ base + 1 + N.of_nat k) by (by intros ->).
    apply elem_of_list_to_set, elem_of_upto. lia. }
  apply subseteq_size in Hsub. rewrite size_dom in Hsub.
  rewrite size_list_to_set in Hsub
    by (apply NoDup_fmap_2; [intros ???; lia|apply NoDup_seq]).
  unfold upto in Hsub. rewrite length_map, length_seq in Hsub.
  pose proof (vs_short _ _ _ _ Hstream). unfold len in *. lia.
Qed.

Lemma in_stream_at i d : stream !! i = Some d →
  d_sequence d = base + 1 + N.of_nat i ∧ d_task_id d = task ∧ d_base_sequence d = base
  ∧ base + 1 ≤ d_sequence d ∧ d_sequence d < base + 1 + len stream ∧ delta_at (d_sequence d) = Some d.
Proof.
  intros Hd. destruct (vs_numbered _ _ _ _ Hstream i d Hd) as (Hs & Ht & Hb).
  pose proof (lookup_lt_Some _ _ _ Hd). rewrite Hs. unfold len, delta_at.
  replace (N.to_nat _) with i by lia. split_and!; try done; lia.
Qed.

Lemma in_stream_add seen i d :
  in_stream seen → stream !! i = Some d → in_stream ({[d_sequence d]} ∪ seen).
Proof.
  intros Hin (_ & _ & _ & Hlo & Hhi & _)%in_stream_at s. rewrite elem_of_union, elem_of_singleton.
  intros [->|Hs]; [done|by apply Hin].
Qed.

Lemma observe_tracks seen k t i d :
  in_stream seen → tracks seen k t → stream !! i = Some d →
  ∃ k', tracks ({[d_sequence d]} ∪ seen) k' (observe t d).1.
Proof.
  intros Hin Htr Hd. pose proof Htr as [Hh Hcur].
  destruct (in_stream_at i d Hd) as (Hseq & Ht & Hb & Hlo & Hhi & Hat).
  assert (d_sequence d ∈ seen → {[d_sequence d]} ∪ seen = seen) as Hsame
    by (intros; by apply subseteq_union_1_L, singleton_subseteq_l).
  unfold observe. rewrite Ht, (h_task _ _ _ _ Hh), str_eqb_refl, (h_fresh _ _ _ _ Hh), Hb,
    (h_base _ _ _ _ Hh), N.eqb_refl, (h_next _ _ _ _ Hh). cbn [negb].
  destruct (N.ltb_spec (d_sequence d) (base + 1 + N.of_nat k)) as [Hlt|Hge]; cbn [orb].
  { exists k. rewrite Hsame; [done|]. by apply (h_prefix _ _ _ _ Hh). }
  rewrite (h_buffer _ _ _ _ Hh), Hat.
  destruct (decide (d_sequence d ∈ seen)) as [Hs|Hs].
  { rewrite decide_True, bool_decide_true by done. exists k. by rewrite Hsame. }
  rewrite decide_False, bool_decide_false by (tauto || by intros [? ?]).
  destruct (N.ltb_spec (base + 1 + N.of_nat k) (d_sequence d)) as [Hgt|Hle].
  - pose proof (tracks_room seen k t _ Hin Htr Hs Hgt Hhi) as Hroom.
    destruct (N.leb_spec DELTA_BUFFER_CAP (N.of_nat (size (buffered t)))); [lia|].
    exists k. split; [|intros [Heq%elem_of_singleton|Hk]%elem_of_union; [lia|done]].
    destruct Hh as [? ? ? ? Hp Hbuf ?]. split; try done.
    { intros s ??. apply elem_of_union_r. by apply Hp. }
    intros s. simpl. rewrite lookup_insert, Hbuf. case_decide as Hc.
    { subst s. by rewrite decide_True by (split; [by apply elem_of_union_l, elem_of_singleton|lia]). }
    apply decide_ext. rewrite elem_of_union, elem_of_singleton. split; [tauto|].
    intros [[->|] ?]; [done|by split].
  - assert (d_sequence d = base + 1 + N.of_nat k) as Heq by lia. assert (i = k) as -> by lia.
    assert (holds ({[d_sequence d]} ∪ seen) k (base + 1 + N.of_nat (S k)) t) as Hh'.
    { destruct Hh as [? ? ? ? Hp Hbuf ?]. split; try done.
      { intros s ??. apply elem_of_union_r. by apply Hp. }
      intros s. rewrite Hbuf. apply decide_ext. rewrite elem_of_union, elem_of_singleton.
      split; intros [Hs1 Hs2]; [|destruct Hs1 as [->|]; split; (done || lia)].
      split; [by right|]. assert (s ≠ base + 1 + N.of_nat k) by (by intros ->). lia. }
    destruct (apply_next _ k _ t d Hh' Hd) as (t1 & Ha & Hh1 & _ & Hb1).
    { rewrite <-Heq. by apply elem_of_union_l, elem_of_singleton. }
    { apply (h_buffer _ _ _ _ Hh'). }
    rewrite Ha. unfold drain.
    destruct (drain_tracks (S (size (buffered t1))) _ (S k) t1 (in_stream_add seen k d Hin Hd) Hh1)
      as (k' & t2 & Hdr & Htr2); [lia|]. rewrite Hdr. by exists k'.
Qed.

Lemma seed_tracks : tracks ∅ 0 (seed_findings (new task base) ids).
Proof.
  split; [|by apply not_elem_of_empty]. pose proof (vs_fits _ _ _ _ Hstream).
  split; [done|done|done| | | |]; simpl.
  - unfold saturating_add. lia.
  - lia.
  - intros s. rewrite lookup_empty, decide_False; [done|]. by intros [?%not_elem_of_empty _].
  - unfold intros_of. rewrite take_0. simpl. by rewrite (left_id_L ∅ (∪)), (right_id_L ∅ (∪)).
Qed.

End Refinement.

(** The caller observes deltas of the stream, in any order and any number of
    times, collects receipts and restarts the tracker. *)
Definition stream_op (stream : list Delta) (o : op) : Prop :=
  match o with Observe d => d ∈ stream | Seed _ => False | Collect | Restart => True end.

Fixpoint seen_of (ops : list op) : gset N :=
  match ops with
  | [] => ∅
  | Observe d :: ops' => {[d_sequence d]} ∪ seen_of ops'
  | _ :: ops' => seen_of ops'
  end.

Lemma run_tracks task base ids stream seen k t ops t' out :
  valid_stream task base ids stream → in_stream base stream seen →
  tracks task base ids stream seen k t → wf u64_max t → Forall (stream_op stream) ops →
  run t ops = (t', out) → ∃ k', tracks task base ids stream (seen_of ops ∪ seen) k' t'.
Proof.
  intros Hst Hin Htr Hwf Hops. revert seen k t t' out Hin Htr Hwf.
  induction Hops as [|o ops Ho Hops IH]; intros seen k t t' out Hin Htr Hwf; simpl.
  { intros [= <- <-]. exists k. by rewrite (left_id_L ∅ (∪)). }
  destruct (step t o) as [t1 out1] eqn:Hs. destruct (run t1 ops) as [t2 rest] eqn:Hr.
  intros [= <- <-]. destruct o as [d|ids'| |]; try done.
  - apply list_elem_of_lookup in Ho as [i Hd].
    destruct (observe_tracks _ _ _ _ Hst seen k t i d Hin Htr Hd) as [k1 Htr1].
    destruct (step_step_ok u64_max t (Observe d) t1 out1) as (_ & Hwf1 & _); try done.
    { simpl. pose proof (vs_fits _ _ _ _ Hst).
      destruct (in_stream_at _ _ _ _ Hst i d Hd) as (_ & _ & _ & _ & ? & _). lia. }
    simpl in Hs. destruct (observe t d) as [t1' r]. injection Hs as <- <-.
    destruct (IH _ k1 t1' t2 rest (in_stream_add _ _ _ _ Hst seen i d Hin Hd) Htr1 Hwf1 Hr)
      as [k' Htr']. exists k'.
    by rewrite (comm_L (∪) {[d_sequence d]}), <-(assoc_L (∪)).
  - injection Hs as <- <-. eapply (IH seen k _ t2 rest Hin); [| |exact Hr].
    + destruct Htr as [[] ?]. by split.
    + destruct Hwf as [[]]. by split.
  - injection Hs as <- <-. rewrite (restore_state_id u64_max) in Hr by done.
    by apply (IH seen k t t2 rest).
Qed.

Lemma seeded_run_tracks task base ids stream ops t out :
  valid_stream task base ids stream → Forall (stream_op stream) ops →
  run (seed_findings (new task base) ids) ops = (t, out) →
  ∃ k, tracks task base ids stream (seen_of ops) k t.
Proof.
  intros Hst Hops Hrun.
  destruct (run_tracks task base ids stream ∅ 0 (seed_findings (new task base) ids) ops t out Hst)
    as [k Htr]; [|by apply seed_tracks| |done|done|].
  - by intros s ?%not_elem_of_empty.
  - destruct (new_wf u64_max task base) as [[] ?]. by split.
  - exists k. by rewrite (right_id_L ∅ (∪)) in Htr.
Qed.

Lemma seen_in_stream task base ids stream :
  valid_stream task base ids stream →
  ∀ ops, Forall (stream_op stream) ops → in_stream base stream (seen_of ops).
Proof.
  intros Hst ops Hops. induction Hops as [|o ops Ho Hops IH]; simpl.
  { by intros s ?%not_elem_of_empty. }
  destruct o as [d| | |]; try done. apply list_elem_of_lookup in Ho as [i Hd].
  by eapply in_stream_add.
Qed.

(** C33: refinement: on a valid stream, however its deltas are reordered, repeated
    and interleaved with collections and restarts, the tracker is the set of
    sequences it has seen: the cursor is the first sequence not seen, the buffer
    holds exactly the seen deltas beyond it, the known findings are the seeded
    ones and those of the applied prefix.  When every delta was seen, all are
    applied and nothing is buffered. *)
Theorem tracker_refines task base ids stream ops t out :
  valid_stream task base ids stream → Forall (stream_op stream) ops →
  run (seed_findings (new task base) ids) ops = (t, out) →
  ∃ k, tracks task base ids stream (seen_of ops) k t
       ∧ ((∀ s, base + 1 ≤ s → s < base + 1 + len stream → s ∈ seen_of ops) →
          next_sequence t = base + 1 + len stream ∧ buffered t = ∅).
Proof.
  intros Hst Hops Hrun.
  destruct (seeded_run_tracks _ _ _ _ _ _ _ Hst Hops Hrun) as [k Htr].
  exists k. split; [done|]. intros Hall.
  destruct Htr as [[Ht Hb Hf Hn Hp Hbuf Hk] Hcur].
  assert (base + 1 + N.of_nat k = base + 1 + len stream) as Hkl.
  { destruct (decide (N.of_nat k < len stream)) as [|Hge]; [destruct Hcur; apply Hall; lia|].
    pose proof (seen_in_stream task base ids stream Hst ops Hops) as Hin.
    assert (k ≤ length stream)%nat; [|unfold len in *; lia].
    eapply (prefix_bound task base ids stream); [exact Hin|]. by split. }
  split; [lia|]. apply map_empty. intros s. rewrite Hbuf. case_decide as Hc; [|done].
  apply lookup_ge_None. unfold len in Hkl. lia.
Qed.

(** What two trackers share when they differ at most in their queued receipts. *)
Definition same_decisions (t1 t2 : DeltaTracker) : Prop :=
  task_id t1 = task_id t2 ∧ base_sequence t1 = base_sequence t2
  ∧ next_sequence t1 = next_sequence t2 ∧ buffered t1 = buffered t2
  ∧ known_findings t1 = known_findings t2 ∧ stale t1 = stale t2.

(** Convergence: two trackers that saw the same deltas of a valid stream, in
    whatever order, with whatever repetitions, collections and restarts, agree
    on everything but their queued receipts. *)
Theorem tracker_convergence task base ids stream ops1 ops2 t1 t2 out1 out2 :
  valid_stream task base ids stream →
  Forall (stream_op stream) ops1 → Forall (stream_op stream) ops2 →
  seen_of ops1 = seen_of ops2 →
  run (seed_findings (new task base) ids) ops1 = (t1, out1) →
  run (seed_findings (new task base) ids) ops2 = (t2, out2) →
  same_decisions t1 t2.
Proof.
  intros Hst H1 H2 Hseen R1 R2.
  destruct (seeded_run_tracks _ _ _ _ _ _ _ Hst H1 R1) as [k1 T1].
  destruct (seeded_run_tracks _ _ _ _ _ _ _ Hst H2 R2) as [k2 T2].
  rewrite <-Hseen in T2. pose proof (tracks_least _ _ _ _ _ _ _ _ _ T1 T2) as <-.
  destruct T1 as [[? ? ? ? _ Hb1 ?] _], T2 as [[? ? ? ? _ Hb2 ?] _].
  split_and!; try congruence. apply map_eq. intros s. by rewrite Hb1, Hb2.
Qed.

(** ** Concrete streams *)

Definition sample_delta (n : N) (us : list FieldUpdate) (fs : list Finding) : Delta :=
  mkDelta (lit "t") 5 n us fs [] [] None.

Definition sample_patch : FieldUpdate :=
  UpdateFinding (lit "N1") (mkPatch (Some (lit "better")) None [] []).

(** The second delta patches the finding the first one introduces. *)
Definition sample_stream : list Delta :=
  [sample_delta 6 [] [mkFinding (lit "N1") (lit "claim") None []];
   sample_delta 7 [sample_patch] [];
   sample_delta 8 [SetStatus (lit "done")] []].

Definition nth_delta (i : nat) : Delta := nth i sample_stream (sample_delta 0 [] []).

(** Last first, a replay, a restart and a collection in between. *)
Definition sample_ops : list op :=
  [Observe (nth_delta 2); Observe (nth_delta 0); Restart; Observe (nth_delta 2); Collect;
   Observe (nth_delta 1)].

Definition sample_end : DeltaTracker * list DeltaReceipt :=
  run (seed_findings (new (lit "t") 5) [lit "F1"]) sample_ops.

Lemma sample_stream_valid : valid_stream (lit "t") 5 [lit "F1"] sample_stream.
Proof.
  split; [| |done|done].
  - intros [|[|[|i]]] d; simpl; intros [= <-]; done.
  - intros [|[|[|i]]] d; simpl; intros [= <-]; vm_compute; done.
Qed.

Lemma sample_ops_stream : Forall (stream_op sample_stream) sample_ops.
Proof.
  repeat apply Forall_cons_2; try exact I; try apply Forall_nil_2;
    (apply (list_elem_of_lookup_2 _ 0); reflexivity)
    || (apply (list_elem_of_lookup_2 _ 1); reflexivity)
    || (apply (list_elem_of_lookup_2 _ 2); reflexivity).
Qed.

Lemma sample_ops_below top : 8 ≤ top → Forall (op_below top) sample_ops.
Proof. intros H. repeat apply Forall_cons_2; try apply Forall_nil_2; cbn; (done || lia). Qed.

Definition fresh_end : DeltaTracker * list DeltaReceipt := run (new (lit "t") 5) sample_ops.

Lemma tracker_invariant_witness :
  wf u64_max fresh_end.1 ∧ next_sequence fresh_end.1 = 9.
Proof.
  split; [|vm_compute; reflexivity].
  apply (tracker_invariant (lit "t") 5 sample_ops fresh_end.1 fresh_end.2).
  - by apply sample_ops_below.
  - by apply surjective_pairing.
Defined.

Lemma applied_exactly_once_witness :
  applied_seqs (fresh_end.2 ++ pending fresh_end.1) ≡ₚ [6; 7; 8].
Proof.
  apply (applied_exactly_once (lit "t") 5 sample_ops fresh_end.1 fresh_end.2).
  - done.
  - by apply sample_ops_below.
  - by apply surjective_pairing.
Defined.

Lemma restore_state_witness : restore (state fresh_end.1) = fresh_end.1.
Proof.
  apply (restore_state (lit "t") 5 sample_ops fresh_end.1 fresh_end.2).
  - by apply sample_ops_below.
  - by apply surjective_pairing.
Defined.

Lemma stale_forever_witness :
  next_sequence (run (mark_stale (new (lit "t") 5)) sample_ops).1 = 6.
Proof.
  apply (stale_forever (mark_stale (new (lit "t") 5)) sample_ops
           (run (mark_stale (new (lit "t") 5)) sample_ops).1
           (run (mark_stale (new (lit "t") 5)) sample_ops).2).
  - destruct (new_wf u64_max (lit "t") 5) as [[] ?]. by split.
  - reflexivity.
  - by apply surjective_pairing.
Defined.

Definition gap_tracker : DeltaTracker := (observe (new (lit "t") 5) (nth_delta 2)).1.

Lemma missing_sequences_spec_witness :
  missing_sequences gap_tracker = [6; 7] ∧ needs_full_snapshot gap_tracker = true.
Proof.
  split; [vm_compute; reflexivity|].
  apply (missing_sequences_spec u64_max gap_tracker); [|right; by intros ?].
  destruct (observe_step u64_max (N.le_refl _) (new (lit "t") 5) (nth_delta 2)
              gap_tracker (observe (new (lit "t") 5) (nth_delta 2)).2) as (_ & Hwf & _);
    [apply new_wf|done|by apply surjective_pairing|done].
Defined.

Lemma tracker_refines_witness :
  ∃ k, tracks (lit "t") 5 [lit "F1"] sample_stream (seen_of sample_ops) k sample_end.1.
Proof.
  destruct (tracker_refines (lit "t") 5 [lit "F1"] sample_stream sample_ops
              sample_end.1 sample_end.2) as (k & Htr & _).
  - apply sample_stream_valid.
  - apply sample_ops_stream.
  - by apply surjective_pairing.
  - by exists k.
Defined.

Lemma tracker_convergence_witness :
  same_decisions sample_end.1
    (run (seed_findings (new (lit "t") 5) [lit "F1"]) (map Observe sample_stream)).1.
Proof.
  apply (tracker_convergence (lit "t") 5 [lit "F1"] sample_stream sample_ops
           (map Observe sample_stream) sample_end.1
           (run (seed_findings (new (lit "t") 5) [lit "F1"]) (map Observe sample_stream)).1
           sample_end.2
           (run (seed_findings (new (lit "t") 5) [lit "F1"]) (map Observe sample_stream)).2).
  - apply sample_stream_valid.
  - apply sample_ops_stream.
  - apply Forall_map, Forall_forall. by intros d Hd.
  - apply (bool_decide_unpack _). vm_compute. exact I.
  - by apply surjective_pairing.
  - by apply surjective_pairing.
Defined.

(** The last sequence of [u64] is the limit of deduplication: because the
    cursor saturates, a tracker rooted just below it applies the delta numbered
    [u64::MAX] again on every replay and hands out its receipt each time. *)
Theorem replay_at_u64_max task :
  let d := mkDelta task (u64_max - 1) u64_max [] [] [] [] None in
  let t := new task (u64_max - 1) in
  observe t d = (t, Ok (mkReceipt true false u64_max)).
Proof.
  simpl. unfold observe. cbn [d_task_id new task_id]. rewrite str_eqb_refl. reflexivity.
Qed.
