(* ===== verification/DeltaCodec.v ===== *)
(** * The OCC-1 encoding of a delta

    [core/occ/delta.rs], [Delta::to_occ1] and [Delta::from_occ1] with their
    helpers: the checks that a delta is expressible in the grammar, the fields it
    is written as, and the strict decoder. *)
From stdpp Require Import base list numbers gmap sorting strings.
From S2P Require Import Prelude RustStr RustFloat Occ1 Fields Contract Delta.

Local Open Scope N_scope.

(** ** Encoding *)

Definition validate_reference_id (id : str) : result unit ContractError :=
  guard_err (is_empty id || existsb (λ c, existsb (N.eqb c) id) [58; 61; 44])
    (Occ1Conversion "reference id {id:?} must be non-empty and free of ':', '=' and ','" [ArgS id]).

(** The first loop of [to_occ1] sorts the updates by their place on the wire. *)
Record Collected : Type := mkCollected {
  c_status : option str;
  finding_updates : list (str * FindingPatch);
  verification_update : option Verification;
  add_evidence_positions : list N }.

Definition is_some {A} (o : option A) : bool := match o with Some _ => true | None => false end.

Definition conversion {A} (template : string) (args : list fmt_arg) : result A ContractError :=
  Err (Occ1Conversion template args).

Definition empty_patch (p : FindingPatch) : bool :=
  negb (is_some (p_statement p)) && negb (is_some (p_confidence p))
  && is_empty (add_evidence p) && is_empty (remove_evidence p).

(** [iter().position(|candidate| candidate == evidence)]. *)
Fixpoint position (e : EvidenceRef) (l : list EvidenceRef) : option N :=
  match l with
  | [] => None
  | x :: l' => if decide (x = e) then Some 0 else N.succ <$> position e l'
  end.

Definition collect_finding (c : Collected) (id : str) (patch : FindingPatch)
  : result Collected ContractError :=
  let* _ := guard_err (is_some (verification_update c))
              (Occ1Conversion "SetVerification must be the last update" []) in
  let* _ := guard_err (existsb (λ k, str_eqb k.1 id) (finding_updates c))
              (Occ1Conversion "duplicate UpdateFinding id {id:?}; merge into one patch" [ArgS id]) in
  let* _ := guard_err (empty_patch patch)
              (Occ1Conversion "UpdateFinding {id:?} carries an empty patch" [ArgS id]) in
  let* _ := match p_confidence patch with
            | Some (Some value) => guard_err (negb (in_unit value)) (InvalidConfidence value)
            | _ => Ok tt
            end in
  let* _ := validate_reference_id id in
  let* _ := rall validate_reference_id (add_evidence patch ++ remove_evidence patch) in
  Ok (mkCollected (c_status c) (finding_updates c ++ [(id, patch)]) (verification_update c)
        (add_evidence_positions c)).

Definition collect_update (new_evidence : list EvidenceRef) (c : Collected) (u : FieldUpdate)
  : result Collected ContractError :=
  match u with
  | SetStatus value =>
      let* _ := guard_err (is_some (c_status c))
                  (Occ1Conversion "at most one SetStatus update is representable" []) in
      let* _ := guard_err (negb (is_empty (finding_updates c)) || is_some (verification_update c))
                  (Occ1Conversion "SetStatus must precede UpdateFinding and SetVerification" []) in
      let* _ := guard_err (negb (is_known_status value)) (UnknownStatus value) in
      Ok (mkCollected (Some value) (finding_updates c) (verification_update c)
            (add_evidence_positions c))
  | UpdateFinding id patch => collect_finding c id patch
  | AddEvidence e =>
      let* _ := guard_err (is_some (verification_update c))
                  (Occ1Conversion "SetVerification must be the last update" []) in
      let* p := ok_or (position e new_evidence)
                  (Occ1Conversion
                     "AddEvidence references evidence {:?} that this delta does not introduce; the grammar only carries references to new evidence"
                     [ArgS (ev_id e)]) in
      let* _ := guard_err (existsb (N.eqb p) (add_evidence_positions c))
                  (Occ1Conversion "duplicate AddEvidence for evidence E{}" [ArgN (p + 1)]) in
      Ok (mkCollected (c_status c) (finding_updates c) (verification_update c)
            (add_evidence_positions c ++ [p]))
  | SetVerification v =>
      let* _ := guard_err (is_some (verification_update c))
                  (Occ1Conversion "at most one SetVerification update is representable" []) in
      Ok (mkCollected (c_status c) (finding_updates c) (Some v) (add_evidence_positions c))
  end.

(** A loop over [enumerate()] with 1-based positions. *)
Fixpoint rall_from {A E} (f : N → A → result unit E) (i : N) (l : list A) : result unit E :=
  match l with
  | [] => Ok tt
  | a :: l' => let* _ := f i a in rall_from f (i + 1) l'
  end.

Definition check_new_finding (new_evidence : list EvidenceRef) (position : N) (f : Finding)
  : result unit ContractError :=
  let* _ := guard_err (negb (str_eqb (f_id f) (nkey (lit "N") position)))
              (Occ1Conversion "new finding at position {position} has id {:?}; the grammar only carries positional ids"
                 [ArgN position; ArgS (f_id f)]) in
  let* _ := match confidence f with
            | Some c => guard_err (negb (in_unit c)) (InvalidConfidence c)
            | None => Ok tt
            end in
  rall (λ id, guard_err (negb (existsb (λ e, str_eqb (ev_id e) id) new_evidence))
                (UnknownEvidence (f_id f) id)) (f_evidence f).

Definition check_new_evidence (position : N) (e : EvidenceRef) : result unit ContractError :=
  let* _ := guard_err (negb (str_eqb (ev_id e) (nkey (lit "E") position)))
              (Occ1Conversion "new evidence at position {position} has id {:?}; the grammar only carries positional ids"
                 [ArgN position; ArgS (ev_id e)]) in
  guard_err (negb (is_known_evidence_kind (ev_kind e))) (UnknownEvidenceKind (ev_kind e)).

(** The [UPDATE] lines of one patch. *)
Definition update_lines (u : str * FindingPatch) : list str :=
  let (id, patch) := u in
  match p_statement patch with Some s => [id ++ lit ":stmt=" ++ s] | None => [] end
  ++ match p_confidence patch with
     | Some (Some value) => [id ++ lit ":conf=" ++ fmt3 value]
     | Some None => [id ++ lit ":conf=none"]
     | None => []
     end
  ++ map (λ e, id ++ lit ":ev+" ++ e ++ lit "=" ++ e) (add_evidence patch)
  ++ map (λ e, id ++ lit ":ev-" ++ e ++ lit "=" ++ e) (remove_evidence patch).

Definition new_finding_fields (n : N) (f : Finding) : list (str * str) :=
  [(nkey (lit "NEW") n, statement f)]
  ++ opt_field (nkey (lit "NEWC") n) (fmt3 <$> confidence f)
  ++ (if is_empty (f_evidence f) then []
      else [(nkey (lit "NEWE") n, join (lit ",") (f_evidence f))]).

Definition delta_fields (d : Delta) (c : Collected) : list (str * str) :=
  [(lit "TASK", d_task_id d); (lit "SEQ", dec (d_sequence d)); (lit "BASE", dec (d_base_sequence d))]
  ++ opt_field (lit "STATUS") (c_status c)
  ++ map (λ l, (lit "UPDATE", l)) (concat (map update_lines (finding_updates c)))
  ++ indexed new_finding_fields 1 (new_findings d)
  ++ indexed evidence_fields 1 (new_evidence d)
  ++ map (λ p, (lit "EADD", nkey (lit "E") (p + 1))) (add_evidence_positions c)
  ++ verification_fields (verification_update c)
  ++ map (λ a, (lit "NEXT", a)) (d_next_actions d)
  ++ opt_field (lit "WHY") (reason d).

Definition to_occ1 (d : Delta) : result Occ1Message ContractError :=
  let* _ := guard_err (is_empty (d_task_id d) || has_control (d_task_id d))
              (InvalidTaskId (d_task_id d)) in
  let* c := rfold (collect_update (new_evidence d)) (mkCollected None [] None []) (updates d) in
  let* _ := rall_from (check_new_finding (new_evidence d)) 1 (new_findings d) in
  let* _ := rall_from check_new_evidence 1 (new_evidence d) in
  let* _ := match verification_update c with
            | Some v => guard_err (negb (is_known_verification (v_status v)))
                          (Occ1Conversion "unknown verification status {:?}" [ArgS (v_status v)])
            | None => Ok tt
            end in
  Ok (mkOcc1 (delta_fields d c)).

(** ** Decoding *)

Definition single (m : Occ1Message) (key : str) : result (option str) ContractError :=
  match get_all m key with
  | [] => Ok None
  | [value] => Ok (Some value)
  | _ => conversion "field {key:?} must appear at most once" [ArgS key]
  end.

Definition required_u64 (m : Occ1Message) (key : str) : result N ContractError :=
  let* o := single m key in
  let* value := ok_or o (MissingRequired key) in
  ok_or (parse_u64 value) (Occ1Conversion "{key} {value:?} is not a u64" [ArgS key; ArgS value]).

Definition FAMILIES : list str :=
  [lit "NEWC"; lit "NEWE"; lit "NEW"; lit "EL"; lit "ED"; lit "ER"; lit "EV"; lit "E"].

(** The [for] loop of [classify_indexed_key] over its table. *)
Fixpoint classify_in (families : list str) (key : str) : option (str * N) :=
  match families with
  | [] => None
  | family :: families' =>
      match strip_prefix family key with
      | Some rest =>
          if negb (is_empty rest) && forallb is_ascii_digit rest
          then match parse_usize rest with
               | Some index => Some (family, index)
               | None => classify_in families' key
               end
          else classify_in families' key
      | None => classify_in families' key
      end
  end.

Definition classify_indexed_key (key : str) : option (str * N) := classify_in FAMILIES key.

(** The set [seen] in the order of its insertions; where the code iterates over
    the [BTreeSet], the model sorts. *)
Definition note_key (seen : list (str * N)) (f : str * str) : result (list (str * N)) ContractError :=
  match classify_indexed_key f.1 with
  | Some fi =>
      if bool_decide (fi ∈ seen) then conversion "repeated field {key:?}" [ArgS f.1]
      else Ok (seen ++ [fi])
  | None => Ok seen
  end.

Definition key_le (x y : str * N) : Prop :=
  if str_eqb x.1 y.1 then x.2 ≤ y.2 else str_le x.1 y.1.
#[export] Instance key_le_dec : RelDecision key_le.
Proof. intros x y. unfold key_le. destruct (str_eqb _ _); apply _. Defined.

Definition family_indices (seen : list (str * N)) (family : str) : list N :=
  merge_sort N.le (map snd (List.filter (λ fi, str_eqb fi.1 family) seen)).

Definition require_contiguous (indices : list N) (family : str) : result unit ContractError :=
  match last indices with
  | Some max =>
      guard_err (existsb (N.eqb 0) indices || negb (len indices =? max))
        (Occ1Conversion "{family} indices must be contiguous from 1" [ArgS family])
  | None => Ok tt
  end.

Definition check_owner (new_indices evidence_indices : list N) (fi : str * N)
  : result unit ContractError :=
  let (family, index) := fi in
  if one_of family [lit "NEWC"; lit "NEWE"]
  then guard_err (negb (existsb (N.eqb index) new_indices))
         (Occ1Conversion "{family}{index} without NEW{index}" [ArgS family; ArgN index])
  else if one_of family [lit "EL"; lit "ED"; lit "ER"; lit "EV"]
  then guard_err (negb (existsb (N.eqb index) evidence_indices))
         (Occ1Conversion "{family}{index} without E{index}" [ArgS family; ArgN index])
  else Ok tt.

Definition no_patch : FindingPatch := mkPatch None None [] [].

(** One [<field>=<value>] of an [UPDATE] line. *)
Definition patch_field (p : FindingPatch) (field value : str) : result FindingPatch ContractError :=
  if str_eqb field (lit "stmt")
  then Ok (mkPatch (Some value) (p_confidence p) (add_evidence p) (remove_evidence p))
  else if str_eqb field (lit "conf")
  then
    let* c := if str_eqb value (lit "none") then Ok None
              else
                let* parsed := ok_or (parse_f32 value)
                                 (Occ1Conversion "UPDATE conf {value:?} is not a number" [ArgS value]) in
                if negb (in_unit parsed) then Err (InvalidConfidence parsed) else Ok (Some parsed) in
    Ok (mkPatch (p_statement p) (Some c) (add_evidence p) (remove_evidence p))
  else match strip_prefix (lit "ev+") field with
  | Some id =>
      if is_empty id then conversion "UPDATE ev+ evidence id is empty" []
      else if negb (str_eqb id value)
      then conversion "UPDATE ev+{evidence_id} value must repeat the evidence id, got {value:?}"
             [ArgS id; ArgS value]
      else Ok (mkPatch (p_statement p) (p_confidence p) (add_evidence p ++ [id]) (remove_evidence p))
  | None =>
      match strip_prefix (lit "ev-") field with
      | Some id =>
          if is_empty id then conversion "UPDATE ev- evidence id is empty" []
          else if negb (str_eqb id value)
          then conversion "UPDATE ev-{evidence_id} value must repeat the evidence id, got {value:?}"
                 [ArgS id; ArgS value]
          else Ok (mkPatch (p_statement p) (p_confidence p) (add_evidence p)
                     (remove_evidence p ++ [id]))
      | None => conversion "UPDATE field {field:?} must be stmt, conf, ev+<id> or ev-<id>" [ArgS field]
      end
  end.

(** The [UPDATE] lines merge per finding id, in first-appearance order. *)
Definition merge_line (acc : list str * gmap str FindingPatch) (line : str)
  : result (list str * gmap str FindingPatch) ContractError :=
  let (order, patches) := acc in
  match split_once 58 line with
  | None => conversion "UPDATE {line:?} must be <finding-id>:<field>=<value>" [ArgS line]
  | Some (finding_id, rest) =>
      match split_once 61 rest with
      | None => conversion "UPDATE {line:?} must be <finding-id>:<field>=<value>" [ArgS line]
      | Some (field, value) =>
          if is_empty finding_id then conversion "UPDATE finding id is empty" []
          else
            let (order', patch) :=
              match patches !! finding_id with
              | Some p => (order, p)
              | None => (order ++ [finding_id], no_patch)
              end in
            let* p' := patch_field patch field value in
            Ok (order', <[finding_id := p']> patches)
      end
  end.

(** [for id in order], taking each patch out of the map. *)
Fixpoint take_patches (order : list str) (patches : gmap str FindingPatch) : list FieldUpdate :=
  match order with
  | [] => []
  | id :: order' =>
      match patches !! id with
      | Some p => UpdateFinding id p :: take_patches order' (delete id patches)
      | None => take_patches order' patches
      end
  end.

Definition link_reference (finding_id : str) (evidence_ids : list str) (acc : list str) (reference : str)
  : result (list str) ContractError :=
  let reference := trim reference in
  if is_empty reference then Ok acc
  else if negb (one_of reference evidence_ids) then Err (UnknownEvidence finding_id reference)
  else Ok (acc ++ [reference]).

Definition decode_new_finding (m : Occ1Message) (evidence_ids : list str) (position : N)
  : result Finding ContractError :=
  let* statement := ok_or (get m (nkey (lit "NEW") position))
                      (Occ1Conversion "NEW{position} missing" [ArgN position]) in
  let* conf :=
    match get m (nkey (lit "NEWC") position) with
    | Some c =>
        let* parsed := ok_or (parse_f32 c)
                         (Occ1Conversion "NEWC{position} is not a number" [ArgN position]) in
        if negb (in_unit parsed) then Err (InvalidConfidence parsed) else Ok (Some parsed)
    | None => Ok None
    end in
  let* refs :=
    match get m (nkey (lit "NEWE") position) with
    | Some links => rfold (link_reference (nkey (lit "N") position) evidence_ids) [] (split_on 44 links)
    | None => Ok []
    end in
  Ok (mkFinding (nkey (lit "N") position) statement conf refs).

Definition delta_line_range (position : N) (range : str) : result (N * N) ContractError :=
  match split_once 45 range with
  | None => conversion "EL{position} must be <start>-<end>" [ArgN position]
  | Some (start, end_) =>
      let* s := ok_or (parse_u32 start) (Occ1Conversion "EL{position} start is not a u32" [ArgN position]) in
      let* e := ok_or (parse_u32 end_) (Occ1Conversion "EL{position} end is not a u32" [ArgN position]) in
      Ok (s, e)
  end.

Definition decode_new_evidence (m : Occ1Message) (position : N) : result EvidenceRef ContractError :=
  let* encoded := ok_or (get m (nkey (lit "E") position))
                    (Occ1Conversion "E{position} missing" [ArgN position]) in
  match split_once 58 encoded with
  | None => conversion "E{position} must be <kind>:<locator>" [ArgN position]
  | Some (kind, locator) =>
      let* _ := guard_err (negb (is_known_evidence_kind kind)) (UnknownEvidenceKind kind) in
      let* range := match get m (nkey (lit "EL") position) with
                    | Some range => let* r := delta_line_range position range in Ok (Some r)
                    | None => Ok None
                    end in
      let* verdict := decode_verified position (get m (nkey (lit "EV") position)) in
      Ok (mkEvidence (nkey (lit "E") position) kind locator range
            (get m (nkey (lit "ED") position)) (get m (nkey (lit "ER") position)) verdict)
  end.

Definition decode_eadd (es : list EvidenceRef) (reference : str) : result FieldUpdate ContractError :=
  let* suffix := ok_or (strip_prefix (lit "E") reference)
                   (Occ1Conversion "EADD {reference:?} must be E<n>" [ArgS reference]) in
  let* number := ok_or (parse_usize suffix)
                   (Occ1Conversion "EADD {reference:?} is not E<n>" [ArgS reference]) in
  if (number =? 0) || (len es <? number)
  then conversion "EADD {reference:?} is outside 1..={}" [ArgS reference; ArgN (len es)]
  else
    match es !! N.to_nat (number - 1) with
    | Some e => Ok (AddEvidence e)
    | None => conversion "unreachable: {number} is within 1..={}" [ArgN number; ArgN (len es)]
    end.

Definition decode_set_verification (m : Occ1Message) : result (list FieldUpdate) ContractError :=
  let* v := single m (lit "V") in
  match v with
  | Some claim =>
      let* vs := single m (lit "VS") in
      let* status := ok_or vs (Occ1Conversion "V without VS" []) in
      let* _ := guard_err (negb (is_known_verification status))
                  (Occ1Conversion "VS must be pass/fail/unknown, got {status:?}" [ArgS status]) in
      let* vm := single m (lit "VM") in
      let* method := ok_or vm (Occ1Conversion "V without VM" []) in
      let* receipt := single m (lit "VR") in
      Ok [SetVerification (mkVerification claim status method receipt)]
  | None =>
      if has m (lit "VS") || has m (lit "VM") || has m (lit "VR")
      then conversion "VS/VM/VR without V" []
      else Ok []
  end.

Definition from_occ1 (m : Occ1Message) : result Delta ContractError :=
  let* task_o := single m (lit "TASK") in
  let* task := ok_or task_o (MissingRequired (lit "TASK")) in
  let* _ := guard_err (is_empty task || has_control task) (InvalidTaskId task) in
  let* seq := required_u64 m (lit "SEQ") in
  let* base := required_u64 m (lit "BASE") in
  let* seen := rfold note_key [] (iter m) in
  let new_indices := family_indices seen (lit "NEW") in
  let evidence_indices := family_indices seen (lit "E") in
  let* _ := require_contiguous new_indices (lit "NEW") in
  let* _ := require_contiguous evidence_indices (lit "E") in
  let* _ := rall (check_owner new_indices evidence_indices) (merge_sort key_le seen) in
  let* status_o := single m (lit "STATUS") in
  let* status :=
    match status_o with
    | Some s => if negb (is_known_status s) then Err (UnknownStatus s) else Ok [SetStatus s]
    | None => Ok []
    end in
  let* merged := rfold merge_line ([], ∅) (get_all m (lit "UPDATE")) in
  let patches := take_patches merged.1 merged.2 in
  let evidence_ids := map (nkey (lit "E")) evidence_indices in
  let* fs := rmap (decode_new_finding m evidence_ids) new_indices in
  let* es := rmap (decode_new_evidence m) evidence_indices in
  let* adds := rmap (decode_eadd es) (get_all m (lit "EADD")) in
  let* v := decode_set_verification m in
  let* why := single m (lit "WHY") in
  Ok (mkDelta task base seq (status ++ patches ++ adds ++ v) fs es (get_all m (lit "NEXT")) why).

(** ** Looking fields up in an encoded delta *)

Lemma head_shaped t s b :
  shaped [lit "TASK"; lit "SEQ"; lit "BASE"] [(lit "TASK", t); (lit "SEQ", s); (lit "BASE", b)].
Proof. repeat (apply shaped_cons; [reflexivity..|]). constructor. Qed.

Lemma new_finding_fields_shaped n f :
  shaped [lit "NEW"; lit "NEWC"; lit "NEWE"] (new_finding_fields n f).
Proof.
  repeat apply shaped_app.
  - by apply shaped_nkey.
  - apply shaped_opt. intros v. by apply shaped_nkey.
  - destruct (is_empty _); [constructor|]. by apply shaped_nkey.
Qed.

Lemma new_finding_fields_at n f : keys_at n (new_finding_fields n f).
Proof.
  repeat apply keys_at_app; try by (apply keys_at_one || apply keys_at_opt).
  destruct (is_empty _); [constructor|by apply keys_at_one].
Qed.

Ltac delta_block :=
  first [ base_block
        | apply head_shaped
        | apply shaped_indexed, new_finding_fields_shaped
        | apply shaped_indexed, evidence_fields_shaped
        | apply verification_fields_shaped ].

Ltac find_delta_field := unfold delta_fields; to_block delta_block.

Lemma get_all_opt k o : get_all (mkOcc1 (opt_field k o)) k = option_list o.
Proof. destruct o; [|done]. unfold get_all. simpl. by rewrite key_is_pair, str_eqb_refl. Qed.

Section DeltaLookups.
Context (d : Delta) (c : Collected).
Abbreviation o := (mkOcc1 (delta_fields d c)).

Lemma delta_TASK : get_all o (lit "TASK") = [d_task_id d].
Proof. find_delta_field. reflexivity. Qed.
Lemma delta_SEQ : get_all o (lit "SEQ") = [dec (d_sequence d)].
Proof. find_delta_field. reflexivity. Qed.
Lemma delta_BASE : get_all o (lit "BASE") = [dec (d_base_sequence d)].
Proof. find_delta_field. reflexivity. Qed.
Lemma delta_STATUS : get_all o (lit "STATUS") = option_list (c_status c).
Proof. find_delta_field. apply get_all_opt. Qed.
Lemma delta_UPDATE : get_all o (lit "UPDATE") = concat (map update_lines (finding_updates c)).
Proof. find_delta_field. rewrite (get_all_map_same _ id). apply map_id. Qed.
Lemma delta_EADD :
  get_all o (lit "EADD") = map (λ p, nkey (lit "E") (p + 1)) (add_evidence_positions c).
Proof. find_delta_field. apply get_all_map_same. Qed.
Lemma delta_NEXT : get_all o (lit "NEXT") = d_next_actions d.
Proof. find_delta_field. rewrite (get_all_map_same _ id). apply map_id. Qed.
Lemma delta_WHY : get_all o (lit "WHY") = option_list (reason d).
Proof. find_delta_field. apply get_all_opt. Qed.

Lemma delta_V k :
  one_of k [lit "V"; lit "VS"; lit "VM"; lit "VR"] = true →
  get_all o k = get_all (mkOcc1 (verification_fields (verification_update c))) k.
Proof.
  intros Hk%one_of_elem. repeat (apply elem_of_cons in Hk as [->|Hk]; [by find_delta_field|]).
  by apply elem_of_nil in Hk.
Qed.

Lemma delta_new_finding p j :
  one_of p [lit "NEW"; lit "NEWC"; lit "NEWE"] = true → letters p = true →
  get o (nkey p (1 + N.of_nat j)) =
  match new_findings d !! j with
  | Some f => get (mkOcc1 (new_finding_fields (1 + N.of_nat j) f)) (nkey p (1 + N.of_nat j))
  | None => None
  end.
Proof.
  intros Hp Hl. rewrite <-(get_indexed new_finding_fields) by (done || apply new_finding_fields_at).
  apply one_of_elem in Hp. repeat (apply elem_of_cons in Hp as [->|Hp]; [by find_delta_field|]).
  by apply elem_of_nil in Hp.
Qed.

Lemma delta_new_evidence p j :
  one_of p [lit "E"; lit "EL"; lit "ED"; lit "ER"; lit "EV"] = true → letters p = true →
  get o (nkey p (1 + N.of_nat j)) =
  match new_evidence d !! j with
  | Some e => get (mkOcc1 (evidence_fields (1 + N.of_nat j) e)) (nkey p (1 + N.of_nat j))
  | None => None
  end.
Proof.
  intros Hp Hl. rewrite <-(get_indexed evidence_fields) by (done || apply evidence_fields_at).
  apply one_of_elem in Hp. repeat (apply elem_of_cons in Hp as [->|Hp]; [by find_delta_field|]).
  by apply elem_of_nil in Hp.
Qed.
End DeltaLookups.

Lemma get_NEW n f : get (mkOcc1 (new_finding_fields n f)) (nkey (lit "NEW") n) = Some (statement f).
Proof. apply get_head. Qed.

Lemma get_NEWC n f :
  get (mkOcc1 (new_finding_fields n f)) (nkey (lit "NEWC") n) = fmt3 <$> confidence f.
Proof.
  unfold new_finding_fields. skip_block single_block. rewrite get_stop; [apply get_opt|].
  destruct (is_empty _); [done|no_field single_block].
Qed.

Lemma get_NEWE n f :
  get (mkOcc1 (new_finding_fields n f)) (nkey (lit "NEWE") n)
  = if is_empty (f_evidence f) then None else Some (join (lit ",") (f_evidence f)).
Proof.
  unfold new_finding_fields. repeat skip_block single_block.
  destruct (is_empty _); [done|apply get_one].
Qed.

(** ** The indexed keys of an encoded delta *)

(** The index a key has in one family. *)
Definition family_index (p key : str) : option N :=
  match strip_prefix p key with
  | Some rest => if negb (is_empty rest) && forallb is_ascii_digit rest then parse_usize rest else None
  | None => None
  end.

Lemma classify_in_cons p ps key :
  classify_in (p :: ps) key
  = match family_index p key with Some i => Some (p, i) | None => classify_in ps key end.
Proof.
  cbn [classify_in]. unfold family_index. destruct (strip_prefix p key) as [rest|]; [|done].
  by destruct (negb _ && _).
Qed.

Lemma family_index_shape p q d :
  letters p = true → letters q = true → all_digits d →
  family_index p (q ++ d) = if str_eqb q p && negb (is_empty d) then parse_usize d else None.
Proof.
  intros Hp. revert q. induction p as [|x p IH]; intros q Hq Hd.
  - unfold family_index. cbn [strip_prefix]. destruct q as [|y q]; simpl.
    + assert (forallb is_ascii_digit d = true) as ->.
      { apply forallb_forall. intros x Hx. rewrite <-list_elem_of_In in Hx.
        unfold all_digits in Hd. rewrite Forall_forall in Hd. by apply Hd. }
      by rewrite andb_true_r.
    + simpl in Hq. apply andb_true_iff in Hq as [Hy _]. by rewrite (upper_not_digit y Hy).
  - simpl in Hp. apply andb_true_iff in Hp as [Hx Hp]. destruct q as [|y q].
    + simpl. destruct Hd as [|z d Hz Hd]; [done|]. unfold family_index. simpl.
      destruct (N.eqb_spec x z) as [->|]; [|done]. apply upper_not_digit in Hx. congruence.
    + simpl in Hq. apply andb_true_iff in Hq as [Hy Hq]. specialize (IH Hp q Hq Hd).
      unfold family_index in *. simpl. rewrite (N.eqb_sym y x). by destruct (x =? y).
Qed.

Lemma classify_shape ps q d :
  forallb letters ps = true → letters q = true → all_digits d →
  classify_in ps (q ++ d)
  = if one_of q ps && negb (is_empty d) then (λ i, (q, i)) <$> parse_usize d else None.
Proof.
  intros Hps Hq Hd. induction ps as [|p ps IH]; [done|]. simpl in Hps.
  apply andb_true_iff in Hps as [Hp Hps]. rewrite classify_in_cons, family_index_shape by done.
  rewrite IH by done. cbn [one_of existsb]. change (existsb (str_eqb q) ps) with (one_of q ps).
  destruct (str_eqb_spec q p) as [<-|]; cbn [orb andb]; [|done].
  destruct (is_empty d); cbn [negb andb]; [by rewrite andb_false_r|].
  destruct (parse_usize d); [done|]. by destruct (one_of q ps).
Qed.

Lemma classify_nkey p n :
  one_of p FAMILIES = true → letters p = true → n ≤ u64_max →
  classify_indexed_key (nkey p n) = Some (p, n).
Proof.
  intros Hf Hp Hn. unfold classify_indexed_key, nkey.
  rewrite classify_shape, Hf by (done || apply dec_digits).
  unfold parse_usize. rewrite parse_uint_dec by done.
  destruct (is_empty (dec n)) eqn:He; [|done]. destruct (dec n) eqn:Hd; [|done].
  pose proof (parse_uint_dec u64_max n Hn) as Hpd. by rewrite Hd in Hpd.
Qed.

(** The indexed keys of a block, in order. *)
Definition noted (fs : list (str * str)) : list (str * N) := omap (λ f, classify_indexed_key f.1) fs.

Lemma noted_app a b : noted (a ++ b) = noted a ++ noted b.
Proof. apply omap_app. Qed.

Lemma noted_none l fs :
  shaped l fs → forallb (λ q, negb (one_of q FAMILIES)) l = true → noted fs = [].
Proof.
  intros Hs Hl. unfold noted.
  induction Hs as [|[k v] fs (q & d & Hq & Hd & Hin & Hk) Hfs IH]; [done|].
  cbn [fst] in Hk. subst k. cbn [omap list_omap fst]. unfold classify_indexed_key at 1.
  rewrite classify_shape by done. rewrite forallb_forall in Hl.
  apply list_elem_of_In, Hl, negb_true_iff in Hin. rewrite Hin. cbn [andb]. exact IH.
Qed.

Lemma noted_one p n v :
  one_of p FAMILIES = true → letters p = true → n ≤ u64_max → noted [(nkey p n, v)] = [(p, n)].
Proof. intros. unfold noted. simpl. by rewrite classify_nkey. Qed.

Lemma noted_opt p n o :
  one_of p FAMILIES = true → letters p = true → n ≤ u64_max →
  noted (opt_field (nkey p n) o) = if is_some o then [(p, n)] else [].
Proof. intros. destruct o; [by apply noted_one|done]. Qed.

Lemma note_keys seen fs :
  NoDup (seen ++ noted fs) → rfold note_key seen fs = Ok (seen ++ noted fs).
Proof.
  revert seen. induction fs as [|f fs IH]; intros seen Hnd; simpl; [by rewrite app_nil_r|].
  unfold note_key at 1. change (noted (f :: fs)) with (noted ([f] ++ fs)) in *.
  rewrite noted_app in *. unfold noted at 1 in Hnd. unfold noted at 2. simpl in *.
  destruct (classify_indexed_key f.1) as [fi|]; simpl in *; [|by apply IH].
  rewrite bool_decide_false.
  - change (fi :: noted fs) with ([fi] ++ noted fs) in *. rewrite app_assoc in *. by apply IH.
  - intros Hin. apply NoDup_app in Hnd as (_ & Hdis & _). apply (Hdis fi Hin). by left.
Qed.

Definition new_finding_keys (n : N) (f : Finding) : list (str * N) :=
  [(lit "NEW", n)] ++ (if is_some (confidence f) then [(lit "NEWC", n)] else [])
  ++ (if is_empty (f_evidence f) then [] else [(lit "NEWE", n)]).

Definition new_evidence_keys (n : N) (e : EvidenceRef) : list (str * N) :=
  [(lit "E", n)] ++ (if is_some (line_range e) then [(lit "EL", n)] else [])
  ++ (if is_some (digest e) then [(lit "ED", n)] else [])
  ++ (if is_some (revision e) then [(lit "ER", n)] else [])
  ++ (if is_some (verified e) then [(lit "EV", n)] else []).

Lemma is_some_fmap {A B} (f : A → B) o : is_some (f <$> o) = is_some o.
Proof. by destruct o. Qed.

Lemma noted_new_finding n f : n ≤ u64_max → noted (new_finding_fields n f) = new_finding_keys n f.
Proof.
  intros Hn. unfold new_finding_fields. rewrite !noted_app, noted_one, noted_opt, is_some_fmap by done.
  unfold new_finding_keys. destruct (is_empty (f_evidence f)); [done|]. by rewrite noted_one.
Qed.

Lemma noted_new_evidence n e : n ≤ u64_max → noted (evidence_fields n e) = new_evidence_keys n e.
Proof.
  intros Hn. unfold evidence_fields. rewrite !noted_app, noted_one, !noted_opt, !is_some_fmap by done.
  done.
Qed.

Lemma noted_indexed {A} (f : N → A → list (str * str)) g i xs :
  (∀ n a, n ≤ u64_max → noted (f n a) = g n a) → i + len xs ≤ u64_max + 1 →
  noted (indexed f i xs) = indexed g i xs.
Proof.
  intros Hf. revert i. induction xs as [|x xs IH]; intros i Hi; simpl; [done|].
  unfold len in Hi. simpl in Hi. rewrite noted_app, Hf, IH by (unfold len; lia). done.
Qed.

(** ** Indexed blocks of keys *)

Lemma indexed_elem {A B} (g : N → A → list B) i xs b :
  b ∈ indexed g i xs ↔ ∃ j a, xs !! j = Some a ∧ b ∈ g (i + N.of_nat j) a.
Proof.
  revert i. induction xs as [|x xs IH]; intros i; simpl.
  { split; [by intros ?%elem_of_nil|by intros (j & a & ? & _)]. }
  rewrite elem_of_app, IH. split.
  - intros [Hb|(j & a & Ha & Hb)].
    + exists 0%nat, x. split; [done|]. by replace (i + N.of_nat 0) with i by lia.
    + exists (S j), a. split; [done|]. by replace (i + N.of_nat (S j)) with (i + 1 + N.of_nat j) by lia.
  - intros ([|j] & a & Ha & Hb).
    + left. injection Ha as ->. by replace (i + N.of_nat 0) with i in Hb by lia.
    + right. exists j, a. split; [done|]. by replace (i + N.of_nat (S j)) with (i + 1 + N.of_nat j) in Hb by lia.
Qed.

Lemma indexed_NoDup {A} (g : N → A → list (str * N)) i xs :
  (∀ n a, NoDup (g n a)) → (∀ n a b, b ∈ g n a → b.2 = n) → NoDup (indexed g i xs).
Proof.
  intros Hg Hn. revert i. induction xs as [|x xs IH]; intros i; simpl; [constructor|].
  apply NoDup_app. split; [apply Hg|]. split; [|apply IH]. intros b Hb (j & a & _ & Hb')%indexed_elem.
  apply Hn in Hb, Hb'. lia.
Qed.

Lemma indexed_numbers {A} (g : N → A → list (str * N)) p i xs :
  (∀ n a, map snd (List.filter (λ fi, str_eqb fi.1 p) (g n a)) = [n]) →
  map snd (List.filter (λ fi, str_eqb fi.1 p) (indexed g i xs))
  = map (λ j, i + N.of_nat j) (seq 0 (length xs)).
Proof.
  intros Hg. revert i. induction xs as [|x xs IH]; intros i; simpl; [done|].
  rewrite List.filter_app, map_app, Hg, IH. simpl. f_equal; [lia|].
  rewrite <-seq_shift, map_map. apply map_ext. intros j. lia.
Qed.

Lemma indexed_no_numbers {A} (g : N → A → list (str * N)) p i xs :
  (∀ n a, List.filter (λ fi, str_eqb fi.1 p) (g n a) = []) →
  List.filter (λ fi, str_eqb fi.1 p) (indexed g i xs) = [].
Proof.
  intros Hg. revert i. induction xs as [|x xs IH]; intros i; simpl; [done|].
  by rewrite List.filter_app, Hg, IH.
Qed.

Lemma range1_alt {A} (xs : list A) : map (λ j, 1 + N.of_nat j) (seq 0 (length xs)) = range1 (len xs).
Proof.
  unfold range1, len. rewrite Nat2N.id, <-seq_shift, map_map. apply map_ext. intros j. lia.
Qed.

Lemma range1_sorted n : merge_sort N.le (range1 n) = range1 n.
Proof.
  apply (Sorted_unique N.le).
  - apply Sorted_merge_sort. apply _.
  - unfold range1. generalize 1%nat. induction (N.to_nat n) as [|k IH]; intros i; simpl; [constructor|].
    constructor; [apply IH|]. destruct k; simpl; constructor. lia.
  - apply merge_sort_Permutation.
Qed.

Lemma existsb_range1 n j : existsb (N.eqb j) (range1 n) = true ↔ 1 ≤ j ∧ j ≤ n.
Proof.
  rewrite existsb_exists, <-range1_elem. split.
  - intros (x & Hx & ->%N.eqb_eq). by apply list_elem_of_In.
  - intros H. exists j. by rewrite <-list_elem_of_In, N.eqb_refl.
Qed.

Lemma range1_contiguous n family : require_contiguous (range1 n) family = Ok tt.
Proof.
  unfold require_contiguous. destruct (last (range1 n)) as [x|] eqn:Hl; [|done].
  assert (x = n) as ->.
  { assert (0 < N.to_nat n)%nat as Hn.
    { destruct (decide (n = 0)) as [->|]; [done|lia]. }
    rewrite last_lookup, range1_length, range1_lookup in Hl by lia. injection Hl as <-. lia. }
  apply guard_err_ok, orb_false_iff. split.
  - apply not_true_iff_false. rewrite existsb_range1. lia.
  - apply negb_false_iff, N.eqb_eq. unfold len. rewrite range1_length. lia.
Qed.

Ltac no_keys b := erewrite (noted_none _ b); [|delta_block|reflexivity].

Section Seen.
Context (d : Delta) (c : Collected).
Context (Hnf : len (new_findings d) < u64_max) (Hne : len (new_evidence d) < u64_max).

Definition delta_seen : list (str * N) :=
  indexed new_finding_keys 1 (new_findings d) ++ indexed new_evidence_keys 1 (new_evidence d).

Lemma delta_noted : noted (delta_fields d c) = delta_seen.
Proof.
  unfold delta_fields, delta_seen. rewrite !noted_app.
  rewrite (noted_indexed new_finding_fields new_finding_keys) by (apply noted_new_finding || lia).
  rewrite (noted_indexed evidence_fields new_evidence_keys) by (apply noted_new_evidence || lia).
  repeat match goal with |- context [noted ?b] => no_keys b end.
  by rewrite !app_nil_r.
Qed.

Lemma finding_key_family n f b : b ∈ new_finding_keys n f → b.2 = n ∧ b.1 ∈ [lit "NEW"; lit "NEWC"; lit "NEWE"].
Proof.
  unfold new_finding_keys. rewrite !elem_of_app, list_elem_of_singleton.
  destruct (is_some _), (is_empty _); rewrite ?list_elem_of_singleton, ?elem_of_nil;
    intros [->|[H|H]]; try subst b; try done; split; try done; repeat constructor.
Qed.

Lemma evidence_key_family n e b :
  b ∈ new_evidence_keys n e → b.2 = n ∧ b.1 ∈ [lit "E"; lit "EL"; lit "ED"; lit "ER"; lit "EV"].
Proof.
  unfold new_evidence_keys. rewrite !elem_of_app, list_elem_of_singleton.
  destruct (is_some _), (is_some _), (is_some _), (is_some _);
    rewrite ?list_elem_of_singleton, ?elem_of_nil;
    intros [->|[H|[H|[H|H]]]]; try subst b; try done; split; try done; repeat constructor.
Qed.

Lemma finding_keys_NoDup n f : NoDup (new_finding_keys n f).
Proof.
  unfold new_finding_keys. destruct (is_some _), (is_empty _); simpl;
    repeat (constructor; [rewrite ?not_elem_of_cons, ?elem_of_nil; repeat split; try (intros [= ?]; done); auto|]);
    constructor.
Qed.

Lemma evidence_keys_NoDup n e : NoDup (new_evidence_keys n e).
Proof.
  unfold new_evidence_keys. destruct (is_some _), (is_some _), (is_some _), (is_some _); simpl;
    repeat (constructor; [rewrite ?not_elem_of_cons, ?elem_of_nil; repeat split; try (intros [= ?]; done); auto|]);
    constructor.
Qed.

Lemma delta_seen_NoDup : NoDup delta_seen.
Proof.
  unfold delta_seen. apply NoDup_app. split_and!.
  - apply indexed_NoDup; [apply finding_keys_NoDup|]. by intros n f b [? _]%finding_key_family.
  - intros b (j & f & _ & [_ Hf]%finding_key_family)%indexed_elem
             (j' & e & _ & [_ He]%evidence_key_family)%indexed_elem.
    repeat (apply elem_of_cons in Hf as [Hf|Hf];
      [rewrite Hf in He; apply one_of_elem in He; vm_compute in He; done|]).
    by apply elem_of_nil in Hf.
  - apply indexed_NoDup; [apply evidence_keys_NoDup|]. by intros n e b [? _]%evidence_key_family.
Qed.

Lemma delta_seen_ok : rfold note_key [] (iter (mkOcc1 (delta_fields d c))) = Ok delta_seen.
Proof.
  unfold iter. cbn [fields]. rewrite note_keys; rewrite delta_noted; [done|]. apply delta_seen_NoDup.
Qed.

Lemma delta_NEW_indices : family_indices delta_seen (lit "NEW") = range1 (len (new_findings d)).
Proof.
  unfold family_indices, delta_seen. rewrite List.filter_app, map_app.
  rewrite (indexed_numbers new_finding_keys).
  2:{ intros n f. unfold new_finding_keys. by destruct (is_some _), (is_empty _). }
  rewrite (indexed_no_numbers new_evidence_keys).
  2:{ intros n e. unfold new_evidence_keys. by destruct (is_some _), (is_some _), (is_some _), (is_some _). }
  simpl. rewrite app_nil_r, range1_alt. apply range1_sorted.
Qed.

Lemma delta_E_indices : family_indices delta_seen (lit "E") = range1 (len (new_evidence d)).
Proof.
  unfold family_indices, delta_seen. rewrite List.filter_app, map_app.
  rewrite (indexed_no_numbers new_finding_keys).
  2:{ intros n f. unfold new_finding_keys. by destruct (is_some _), (is_empty _). }
  rewrite (indexed_numbers new_evidence_keys).
  2:{ intros n e. unfold new_evidence_keys. by destruct (is_some _), (is_some _), (is_some _), (is_some _). }
  simpl. rewrite range1_alt. apply range1_sorted.
Qed.

Lemma delta_owners :
  rall (check_owner (range1 (len (new_findings d))) (range1 (len (new_evidence d))))
    (merge_sort key_le delta_seen) = Ok tt.
Proof.
  apply rall_ok. rewrite (merge_sort_Permutation key_le delta_seen). unfold delta_seen.
  rewrite Forall_app, !Forall_forall. split.
  - intros [p n] (j & f & Hf%lookup_lt_Some & [Hn Hp]%finding_key_family)%indexed_elem.
    simpl in *. subst n.
    repeat (apply elem_of_cons in Hp as [->|Hp];
      [vm_compute one_of; cbv iota; try done; apply guard_err_ok, negb_false_iff, existsb_range1; unfold len; lia|]).
    by apply elem_of_nil in Hp.
  - intros [p n] (j & e & He%lookup_lt_Some & [Hn Hp]%evidence_key_family)%indexed_elem.
    simpl in *. subst n.
    repeat (apply elem_of_cons in Hp as [->|Hp];
      [vm_compute one_of; cbv iota; try done; apply guard_err_ok, negb_false_iff, existsb_range1; unfold len; lia|]).
    by apply elem_of_nil in Hp.
Qed.

End Seen.

(** ** The UPDATE lines *)

(** What the three decimals of the wire keep of a patch. *)
Definition quantize_patch (p : FindingPatch) : FindingPatch :=
  mkPatch (p_statement p) (option_map (option_map quantize) (p_confidence p)) (add_evidence p)
    (remove_evidence p).

Definition ref_ok (id : str) : Prop := id ≠ [] ∧ 58 ∉ id ∧ 61 ∉ id ∧ 44 ∉ id.

Lemma existsb_eqb_false c (s : str) : existsb (N.eqb c) s = false ↔ c ∉ s.
Proof.
  rewrite <-not_true_iff_false, existsb_exists. split.
  - intros H Hin. apply H. exists c. by rewrite <-list_elem_of_In, N.eqb_refl.
  - intros H (x & Hx & ->%N.eqb_eq). by apply H, list_elem_of_In.
Qed.

Lemma validate_reference_id_ok id : validate_reference_id id = Ok tt ↔ ref_ok id.
Proof.
  unfold validate_reference_id, ref_ok. rewrite guard_err_ok. cbn [existsb].
  rewrite !orb_false_iff, !existsb_eqb_false. destruct id; simpl; naive_solver.
Qed.

Definition patch_ok (u : str * FindingPatch) : Prop :=
  ref_ok u.1 ∧ empty_patch u.2 = false
  ∧ (∀ v, p_confidence u.2 = Some (Some v) → in_unit v = true)
  ∧ Forall ref_ok (add_evidence u.2 ++ remove_evidence u.2).

Definition typed_patch (p : FindingPatch) : Prop :=
  ∀ v, p_confidence p = Some (Some v) → valid_f32 v.

(** The [<field>=<value>] pairs a patch is written as. *)
Definition update_pairs (p : FindingPatch) : list (str * str) :=
  match p_statement p with Some s => [(lit "stmt", s)] | None => [] end
  ++ match p_confidence p with
     | Some (Some v) => [(lit "conf", fmt3 v)]
     | Some None => [(lit "conf", lit "none")]
     | None => []
     end
  ++ map (λ e, (lit "ev+" ++ e, e)) (add_evidence p)
  ++ map (λ e, (lit "ev-" ++ e, e)) (remove_evidence p).

Definition update_line (id : str) (fv : str * str) : str := id ++ 58 :: fv.1 ++ 61 :: fv.2.

Lemma update_lines_pairs id p : update_lines (id, p) = map (update_line id) (update_pairs p).
Proof.
  unfold update_lines, update_pairs. rewrite !map_app, !map_map.
  destruct (p_statement p), (p_confidence p) as [[v|]|]; reflexivity.
Qed.

Lemma update_pairs_fresh p :
  Forall ref_ok (add_evidence p ++ remove_evidence p) → Forall (λ fv, 61 ∉ fv.1) (update_pairs p).
Proof.
  rewrite Forall_app. intros [Ha Hr]. unfold update_pairs. rewrite !Forall_app. split_and!.
  - destruct (p_statement p); repeat constructor. by apply fresh_dec.
  - destruct (p_confidence p) as [[v|]|]; repeat constructor; by apply fresh_dec.
  - apply Forall_map. eapply Forall_impl; [exact Ha|]. intros e (_ & _ & He & _). simpl.
    rewrite !not_elem_of_cons. by split_and!.
  - apply Forall_map. eapply Forall_impl; [exact Hr|]. intros e (_ & _ & He & _). simpl.
    rewrite !not_elem_of_cons. by split_and!.
Qed.

Lemma merge_line_split order ps id fv :
  ref_ok id → 61 ∉ fv.1 →
  merge_line (order, ps) (update_line id fv)
  = let (order', p) := match ps !! id with
                       | Some p => (order, p)
                       | None => (order ++ [id], no_patch)
                       end in
    let* p' := patch_field p fv.1 fv.2 in Ok (order', <[id := p']> ps).
Proof.
  intros (Hne & Hc & _) Hf. unfold merge_line, update_line. rewrite !split_once_app by done.
  by destruct id.
Qed.

Lemma merge_more order ps id p fvs :
  ref_ok id → Forall (λ fv, 61 ∉ fv.1) fvs →
  rfold merge_line (order, <[id := p]> ps) (map (update_line id) fvs)
  = let* p' := rfold (λ p fv, patch_field p fv.1 fv.2) p fvs in Ok (order, <[id := p']> ps).
Proof.
  intros Hid Hf. revert p. induction Hf as [|fv fvs Hfv Hfvs IH]; intros p; cbn [rfold map]; [done|].
  rewrite merge_line_split, lookup_insert_eq by done.
  destruct (patch_field p fv.1 fv.2) as [p'|]; [|done]. rewrite insert_insert_eq. apply IH.
Qed.

Lemma merge_block order ps id p :
  ref_ok id → ps !! id = None → Forall (λ fv, 61 ∉ fv.1) (update_pairs p) → update_pairs p ≠ [] →
  rfold (λ p fv, patch_field p fv.1 fv.2) no_patch (update_pairs p) = Ok (quantize_patch p) →
  rfold merge_line (order, ps) (update_lines (id, p))
  = Ok (order ++ [id], <[id := quantize_patch p]> ps).
Proof.
  intros Hid Hnone Hf Hne. rewrite update_lines_pairs.
  destruct (update_pairs p) as [|fv fvs]; [done|]. inversion Hf as [|?? Hfv Hfvs]; subst.
  cbn [rfold map]. rewrite merge_line_split, Hnone by done.
  destruct (patch_field no_patch fv.1 fv.2) as [p1|]; [|done].
  rewrite merge_more by done. by intros ->.
Qed.

Lemma patch_adds p l :
  Forall ref_ok l →
  rfold (λ p fv, patch_field p fv.1 fv.2) p (map (λ e, (lit "ev+" ++ e, e)) l)
  = Ok (mkPatch (p_statement p) (p_confidence p) (add_evidence p ++ l) (remove_evidence p)).
Proof.
  intros Hl. revert p. induction Hl as [|e l (He & _) Hl IH]; intros p; cbn [rfold map].
  { rewrite app_nil_r. by destruct p. }
  assert (patch_field p (lit "ev+" ++ e) e
          = Ok (mkPatch (p_statement p) (p_confidence p) (add_evidence p ++ [e]) (remove_evidence p))) as Hp.
  { unfold patch_field. change (str_eqb (lit "ev+" ++ e) (lit "stmt")) with false.
    change (str_eqb (lit "ev+" ++ e) (lit "conf")) with false.
    change (strip_prefix (lit "ev+") (lit "ev+" ++ e)) with (Some e).
    cbv iota beta. rewrite str_eqb_refl. by destruct e. }
  cbn [fst snd]. rewrite Hp, IH. simpl. by rewrite <-app_assoc.
Qed.

Lemma patch_removes p l :
  Forall ref_ok l →
  rfold (λ p fv, patch_field p fv.1 fv.2) p (map (λ e, (lit "ev-" ++ e, e)) l)
  = Ok (mkPatch (p_statement p) (p_confidence p) (add_evidence p) (remove_evidence p ++ l)).
Proof.
  intros Hl. revert p. induction Hl as [|e l (He & _) Hl IH]; intros p; cbn [rfold map].
  { rewrite app_nil_r. by destruct p. }
  assert (patch_field p (lit "ev-" ++ e) e
          = Ok (mkPatch (p_statement p) (p_confidence p) (add_evidence p) (remove_evidence p ++ [e]))) as Hp.
  { unfold patch_field. change (str_eqb (lit "ev-" ++ e) (lit "stmt")) with false.
    change (str_eqb (lit "ev-" ++ e) (lit "conf")) with false.
    change (strip_prefix (lit "ev+") (lit "ev-" ++ e)) with (@None str).
    change (strip_prefix (lit "ev-") (lit "ev-" ++ e)) with (Some e).
    cbv iota beta. rewrite str_eqb_refl. by destruct e. }
  cbn [fst snd]. rewrite Hp, IH. simpl. by rewrite <-app_assoc.
Qed.

Lemma parse_f32_none : parse_f32 (lit "none") = None.
Proof. vm_compute. reflexivity. Qed.

Lemma patch_conf p :
  typed_patch p → (∀ v, p_confidence p = Some (Some v) → in_unit v = true) →
  rfold (λ p fv, patch_field p fv.1 fv.2) (mkPatch (p_statement p) None [] [])
    match p_confidence p with
    | Some (Some v) => [(lit "conf", fmt3 v)]
    | Some None => [(lit "conf", lit "none")]
    | None => []
    end
  = Ok (mkPatch (p_statement p) (option_map (option_map quantize) (p_confidence p)) [] []).
Proof.
  intros Ht Hc. unfold typed_patch in Ht. destruct (p_confidence p) as [[v|]|]; [|done|done].
  destruct (quantize_spec v (Ht v eq_refl) (Hc v eq_refl)) as (Hp & Hu & _).
  cbn [rfold fst snd]. unfold patch_field.
  change (str_eqb (lit "conf") (lit "stmt")) with false.
  change (str_eqb (lit "conf") (lit "conf")) with true. cbv iota.
  destruct (str_eqb_spec (fmt3 v) (lit "none")) as [Hn|_].
  { rewrite Hn, parse_f32_none in Hp. discriminate Hp. }
  rewrite Hp. cbn [ok_or]. by rewrite Hu.
Qed.

Lemma patch_pairs_fold u :
  patch_ok u → typed_patch u.2 →
  rfold (λ p fv, patch_field p fv.1 fv.2) no_patch (update_pairs u.2) = Ok (quantize_patch u.2).
Proof.
  destruct u as [id p]. cbn [snd]. intros (_ & _ & Hc & Hr) Ht. cbn [snd] in *.
  apply Forall_app in Hr as [Ha Hr]. unfold update_pairs. rewrite rfold_app.
  assert (rfold (λ p fv, patch_field p fv.1 fv.2) no_patch
            match p_statement p with Some s => [(lit "stmt", s)] | None => [] end
          = Ok (mkPatch (p_statement p) None [] [])) as -> by (by destruct (p_statement p)).
  rewrite rfold_app, patch_conf, rfold_app, patch_adds, patch_removes by done. done.
Qed.

Lemma update_pairs_nonempty p : empty_patch p = false → update_pairs p ≠ [].
Proof.
  unfold empty_patch, update_pairs. destruct p as [[s|] [[v|]|] [|a la] [|r lr]]; simpl; done.
Qed.

(** Merging all the lines of the updates of a delta. *)
Lemma merge_all (us : list (str * FindingPatch)) (order : list str) (ps : gmap str FindingPatch) :
  Forall patch_ok us → Forall (λ u, typed_patch u.2) us → NoDup (map fst us) →
  (∀ u, u ∈ us → ps !! u.1 = None) →
  ∃ ps', rfold merge_line (order, ps) (concat (map update_lines us)) = Ok (order ++ map fst us, ps')
         ∧ (∀ u, u ∈ us → ps' !! u.1 = Some (quantize_patch u.2))
         ∧ (∀ id, id ∉ map fst us → ps' !! id = ps !! id).
Proof.
  revert order ps. induction us as [|[id p] us IH]; intros order ps Hok Ht Hnd Hfresh.
  { exists ps. simpl. rewrite app_nil_r. split; [done|]. split; [|done]. by intros u ?%elem_of_nil. }
  inversion Hok as [|?? Hu Hus]; subst. inversion Ht as [|?? Htu Htus]; subst.
  cbn [map fst] in Hnd. apply NoDup_cons in Hnd as [Hid Hnd].
  cbn [map concat]. rewrite rfold_app. pose proof Hu as (Href & Hemp & _ & Hrefs). cbn [fst snd] in *.
  rewrite merge_block; [|done|by apply (Hfresh (id, p)); left|by apply update_pairs_fresh
    |by apply update_pairs_nonempty|by apply (patch_pairs_fold (id, p))].
  destruct (IH (order ++ [id]) (<[id := quantize_patch p]> ps)) as (ps' & Hr & Hin & Hout); try done.
  { intros u Hu'. rewrite lookup_insert_ne; [apply Hfresh; by right|].
    intros ->. apply Hid, list_elem_of_fmap. eauto. }
  exists ps'. rewrite Hr, <-app_assoc. split; [done|]. split.
  - intros u [->|Hu']%elem_of_cons; [|by apply Hin]. cbn [fst snd].
    by rewrite Hout, lookup_insert_eq.
  - intros id' [Hne Hid']%not_elem_of_cons. by rewrite Hout, lookup_insert_ne.
Qed.

Lemma take_patches_all (us : list (str * FindingPatch)) (ps : gmap str FindingPatch) :
  NoDup (map fst us) → (∀ u, u ∈ us → ps !! u.1 = Some (quantize_patch u.2)) →
  take_patches (map fst us) ps = map (λ u, UpdateFinding u.1 (quantize_patch u.2)) us.
Proof.
  revert ps. induction us as [|[id p] us IH]; intros ps Hnd Hps; simpl; [done|].
  cbn [map fst] in Hnd. apply NoDup_cons in Hnd as [Hid Hnd].
  pose proof (Hps (id, p) (list_elem_of_here _ _)) as Hp. cbn [fst snd] in Hp. rewrite Hp. f_equal.
  apply IH; [done|]. intros u Hu. rewrite lookup_delete_ne; [apply Hps; by right|].
  intros ->. apply Hid, list_elem_of_fmap. eauto.
Qed.

(** ** New findings, new evidence and verification *)

Lemma link_reference_ok id ids acc k :
  one_of (nkey (lit "E") k) ids = true →
  link_reference id ids acc (nkey (lit "E") k) = Ok (acc ++ [nkey (lit "E") k]).
Proof.
  intros Hr. unfold link_reference.
  assert (trim (nkey (lit "E") k) = nkey (lit "E") k) as ->.
  { apply trim_no_ws. apply Forall_cons; split; [done|]. apply dec_no_ws. }
  by rewrite Hr.
Qed.

Lemma link_references id ids refs acc :
  Forall (λ r, ∃ k, r = nkey (lit "E") k ∧ one_of r ids = true) refs →
  rfold (link_reference id ids) acc refs = Ok (acc ++ refs).
Proof.
  intros H. revert acc. induction H as [|r refs (k & -> & Hr) Hrefs IH]; intros acc; cbn [rfold].
  { by rewrite app_nil_r. }
  rewrite link_reference_ok by done. rewrite IH. by rewrite <-app_assoc.
Qed.

Lemma decode_new_finding_ok d c j f ids :
  new_findings d !! j = Some f → f_id f = nkey (lit "N") (1 + N.of_nat j) → typed_finding f →
  (∀ v, confidence f = Some v → in_unit v = true) →
  Forall (λ r, ∃ k, r = nkey (lit "E") k ∧ one_of r ids = true) (f_evidence f) →
  decode_new_finding (mkOcc1 (delta_fields d c)) ids (1 + N.of_nat j) = Ok (quantize_finding f).
Proof.
  intros Hf Hid Ht Hu Hrefs. unfold decode_new_finding.
  rewrite !delta_new_finding, Hf, get_NEW, get_NEWC, get_NEWE by done. cbn [ok_or].
  assert (match fmt3 <$> confidence f with
          | Some c => let* parsed := ok_or (parse_f32 c)
                        (Occ1Conversion "NEWC{position} is not a number" [ArgN (1 + N.of_nat j)]) in
                      if negb (in_unit parsed) then Err (InvalidConfidence parsed) else Ok (Some parsed)
          | None => Ok None
          end = Ok (quantize <$> confidence f)) as ->.
  { destruct (confidence f) as [v|] eqn:Hc; [|done]. unfold fmap, option_fmap, option_map.
    destruct (quantize_spec v (Ht v Hc) (Hu v eq_refl)) as (-> & Hq & _). cbn [ok_or]. by rewrite Hq. }
  unfold quantize_finding. rewrite <-Hid.
  destruct (f_evidence f) as [|r rs] eqn:Hev; [done|]. cbn [is_empty]. rewrite <-Hev in *.
  rewrite (split_on_join 44).
  - rewrite link_references by done. done.
  - by rewrite Hev.
  - eapply Forall_impl; [exact Hrefs|]. intros x (k & -> & _). apply nkey_fresh; [|done].
    by apply fresh_dec.
Qed.

Lemma delta_line_range_ok i a b :
  a ≤ u32_max → b ≤ u32_max → delta_line_range i (dec a ++ lit "-" ++ dec b) = Ok (a, b).
Proof.
  intros Ha Hb. unfold delta_line_range.
  change (dec a ++ lit "-" ++ dec b) with (dec a ++ 45 :: dec b).
  rewrite split_once_app by (by apply dec_fresh).
  unfold parse_u32. by rewrite !parse_uint_dec.
Qed.

Lemma known_kind_fresh k : is_known_evidence_kind k = true → 58 ∉ k.
Proof.
  intros Hk%one_of_elem. repeat (apply elem_of_cons in Hk as [->|Hk]; [by apply fresh_dec|]).
  by apply elem_of_nil in Hk.
Qed.

Lemma decode_new_evidence_ok d c j e :
  new_evidence d !! j = Some e → ev_id e = nkey (lit "E") (1 + N.of_nat j) →
  typed_evidence e → is_known_evidence_kind (ev_kind e) = true →
  decode_new_evidence (mkOcc1 (delta_fields d c)) (1 + N.of_nat j) = Ok e.
Proof.
  intros He Hid Ht Hk. unfold decode_new_evidence.
  rewrite !delta_new_evidence, He, get_E, get_EL, get_ED, get_ER, get_EV by done. cbn [ok_or].
  change (ev_kind e ++ lit ":" ++ locator e) with (ev_kind e ++ 58 :: locator e).
  rewrite split_once_app by (by apply known_kind_fresh). rewrite Hk. cbn [negb guard_err].
  assert (match (λ r, dec r.1 ++ lit "-" ++ dec r.2) <$> line_range e with
          | Some range => let* r := delta_line_range (1 + N.of_nat j) range in Ok (Some r)
          | None => Ok None
          end = Ok (line_range e)) as ->.
  { destruct (line_range e) as [[a b]|] eqn:Hr; [|done].
    destruct (Ht a b Hr). unfold fmap, option_fmap, option_map. cbn [fst snd].
    by rewrite delta_line_range_ok. }
  assert (decode_verified (1 + N.of_nat j)
            ((λ b : bool, if b then lit "pass" else lit "fail") <$> verified e) = Ok (verified e)) as ->
    by (by destruct (verified e) as [[|]|]).
  rewrite <-Hid. by destruct e.
Qed.

Lemma single_list m key o : get_all m key = option_list o → single m key = Ok o.
Proof. unfold single. intros ->. by destruct o. Qed.

Definition verification_updates (v : option Verification) : list FieldUpdate :=
  match v with Some v => [SetVerification v] | None => [] end.

Lemma decode_set_verification_ok d c :
  (∀ v, verification_update c = Some v → is_known_verification (v_status v) = true) →
  decode_set_verification (mkOcc1 (delta_fields d c)) = Ok (verification_updates (verification_update c)).
Proof.
  intros Hv. unfold decode_set_verification, single. rewrite !has_get, !get_all_get, !delta_V by done.
  destruct (verification_update c) as [[cl st mt r]|]; [|done]. specialize (Hv _ eq_refl).
  cbn [v_status] in Hv.
  set (o := mkOcc1 (verification_fields (Some (mkVerification cl st mt r)))).
  assert (get_all o (lit "V") = [cl]) as -> by (by destruct r).
  assert (get_all o (lit "VS") = [st]) as -> by (by destruct r).
  assert (get_all o (lit "VM") = [mt]) as -> by (by destruct r).
  assert (get_all o (lit "VR") = option_list r) as -> by (by destruct r).
  cbn [ok_or]. rewrite Hv. cbn [negb guard_err]. by destruct r.
Qed.

Lemma eadd_ok es p e :
  len es < u64_max → es !! N.to_nat p = Some e → decode_eadd es (nkey (lit "E") (p + 1)) = Ok (AddEvidence e).
Proof.
  intros Hl He. unfold decode_eadd.
  change (strip_prefix (lit "E") (nkey (lit "E") (p + 1))) with (Some (dec (p + 1))). cbn [ok_or].
  pose proof (lookup_lt_Some _ _ _ He) as Hlt. unfold len in *.
  unfold parse_usize. rewrite parse_uint_dec by lia. cbn [ok_or].
  destruct (N.eqb_spec (p + 1) 0); [lia|]. destruct (N.ltb_spec (N.of_nat (length es)) (p + 1)); [lia|].
  cbn [orb]. replace (p + 1 - 1) with p by lia. by rewrite He.
Qed.

(** ** Canonical order of the updates *)

Definition statuses (us : list FieldUpdate) : list str :=
  omap (λ u, match u with SetStatus s => Some s | _ => None end) us.
Definition patches (us : list FieldUpdate) : list (str * FindingPatch) :=
  omap (λ u, match u with UpdateFinding id p => Some (id, p) | _ => None end) us.
Definition additions (us : list FieldUpdate) : list EvidenceRef :=
  omap (λ u, match u with AddEvidence e => Some e | _ => None end) us.
Definition verifications (us : list FieldUpdate) : list Verification :=
  omap (λ u, match u with SetVerification v => Some v | _ => None end) us.

(** The order of the wire: status, patches, added evidence, verification. *)
Definition canonical (us : list FieldUpdate) : list FieldUpdate :=
  map SetStatus (statuses us) ++ map (λ u, UpdateFinding u.1 u.2) (patches us)
  ++ map AddEvidence (additions us) ++ map SetVerification (verifications us).

Definition collected_ok (c : Collected) : Prop :=
  (∀ s, c_status c = Some s → is_known_status s = true)
  ∧ NoDup (map fst (finding_updates c)) ∧ Forall patch_ok (finding_updates c).

(** What the loop adds to what it had collected. *)
Definition collects (es : list EvidenceRef) (us : list FieldUpdate) (c c' : Collected) : Prop :=
  option_list (c_status c') = option_list (c_status c) ++ statuses us
  ∧ finding_updates c' = finding_updates c ++ patches us
  ∧ option_list (verification_update c') = option_list (verification_update c) ++ verifications us
  ∧ ∃ ps, add_evidence_positions c' = add_evidence_positions c ++ ps
          ∧ Forall2 (λ e p, es !! N.to_nat p = Some e) (additions us) ps.

Lemma position_lookup e es p : position e es = Some p → es !! N.to_nat p = Some e.
Proof.
  revert p. induction es as [|x es IH]; intros p; simpl; [done|].
  destruct (decide (x = e)) as [->|]; [by intros [= <-]|].
  destruct (position e es) as [q|]; [|done]. intros [= <-].
  rewrite N2Nat.inj_succ. simpl. by apply IH.
Qed.

Lemma is_some_false {A} (o : option A) : is_some o = false → o = None.
Proof. by destruct o. Qed.

Lemma collect_finding_ok c id p c' :
  collect_finding c id p = Ok c' → collected_ok c →
  collected_ok c'
  ∧ c' = mkCollected (c_status c) (finding_updates c ++ [(id, p)]) (verification_update c)
           (add_evidence_positions c).
Proof.
  unfold collect_finding. intros H (Hs & Hnd & Hp).
  apply seq_ok in H as [_ H]. apply seq_ok in H as [Hdup%guard_err_ok H].
  apply seq_ok in H as [Hemp%guard_err_ok H]. apply seq_ok in H as [Hconf H].
  apply seq_ok in H as [Hid%validate_reference_id_ok H].
  apply seq_ok in H as [Hrefs%rall_ok H]. injection H as <-. split; [|done]. split; [done|]. split.
  - cbn [finding_updates]. rewrite map_app. apply NoDup_app. split; [done|]. split.
    + intros x (u & -> & Hu)%list_elem_of_fmap Hx%list_elem_of_singleton. simpl in Hx.
      apply not_true_iff_false in Hdup. apply Hdup. apply existsb_exists. exists u.
      split; [by apply list_elem_of_In|]. rewrite Hx. apply str_eqb_refl.
    + apply NoDup_singleton.
  - cbn [finding_updates]. apply Forall_app. split; [done|]. apply Forall_singleton. split; [done|].
    split; [done|]. cbn [fst snd]. split.
    + intros v Hv. rewrite Hv in Hconf. apply guard_err_ok in Hconf. by apply negb_false_iff.
    + eapply Forall_impl; [exact Hrefs|]. intros x. apply validate_reference_id_ok.
Qed.

Lemma collect_update_ok es c u c' :
  collect_update es c u = Ok c' → collected_ok c → collected_ok c' ∧ collects es [u] c c'.
Proof.
  intros H Hc. destruct u as [s|id p|e|v]; cbn [collect_update] in H.
  - apply seq_ok in H as [H1%guard_err_ok H]. apply seq_ok in H as [_ H].
    apply seq_ok in H as [H3%guard_err_ok H]. injection H as <-. destruct Hc as (? & ? & ?).
    apply is_some_false in H1. apply negb_false_iff in H3. unfold collects. cbn. rewrite H1.
    split; [split; [by intros ? [= <-]|done]|]. rewrite !app_nil_r. split_and!; try done.
    exists []. by rewrite app_nil_r.
  - apply collect_finding_ok in H as [H ->]; [|done]. split; [done|]. unfold collects. cbn.
    rewrite !app_nil_r. split_and!; try done. exists []. by rewrite app_nil_r.
  - apply seq_ok in H as [_ H]. apply bind_ok in H as (p & Hp & H). apply seq_ok in H as [_ H].
    injection H as <-. destruct Hc as (? & ? & ?). split; [done|]. unfold collects. cbn.
    rewrite !app_nil_r. split_and!; try done. exists [p]. split; [done|]. constructor; [|constructor].
    destruct (position e es) eqn:Hpos; [|done]. injection Hp as ->. by apply position_lookup.
  - apply seq_ok in H as [H1%guard_err_ok H]. injection H as <-. destruct Hc as (? & ? & ?).
    apply is_some_false in H1. split; [done|]. unfold collects. cbn. rewrite H1, !app_nil_r.
    split_and!; try done. exists []. by rewrite app_nil_r.
Qed.

Lemma collects_trans es u us c c1 c' :
  collects es [u] c c1 → collects es us c1 c' → collects es (u :: us) c c'.
Proof.
  intros (S1 & F1 & V1 & p1 & P1 & A1) (S2 & F2 & V2 & p2 & P2 & A2).
  change (u :: us) with ([u] ++ us). unfold collects, statuses, patches, additions, verifications in *.
  rewrite !omap_app. rewrite S2, S1, F2, F1, V2, V1, <-!app_assoc.
  split; [done|]. split; [done|]. split; [done|]. exists (p1 ++ p2).
  split; [by rewrite P2, P1, <-app_assoc|by apply Forall2_app].
Qed.

Lemma collect_all es us c c' :
  rfold (collect_update es) c us = Ok c' → collected_ok c → collected_ok c' ∧ collects es us c c'.
Proof.
  revert c. induction us as [|u us IH]; intros c; cbn [rfold].
  { intros [= <-] Hc. split; [done|]. unfold collects. cbn. rewrite !app_nil_r. split_and!; try done.
    exists []. by rewrite app_nil_r. }
  intros (c1 & H1 & H)%bind_ok Hc. destruct (collect_update_ok _ _ _ _ H1 Hc) as [Hc1 Hcol1].
  destruct (IH c1 H Hc1) as [Hc' Hcol]. split; [done|]. by eapply collects_trans.
Qed.

Lemma rall_from_lookup {A E} (f : N → A → result unit E) i l :
  rall_from f i l = Ok tt → ∀ j a, l !! j = Some a → f (i + N.of_nat j) a = Ok tt.
Proof.
  revert i. induction l as [|x l IH]; intros i; cbn [rall_from]; [done|].
  intros [Hx Hl]%seq_ok [|j] a Ha.
  - injection Ha as <-. by replace (i + N.of_nat 0) with i by lia.
  - replace (i + N.of_nat (S j)) with (i + 1 + N.of_nat j) by lia. by apply IH.
Qed.

(** ** Round trip of a delta *)

(** The values are values of the Rust types. *)
Definition typed_delta (d : Delta) : Prop :=
  len (new_findings d) < u64_max ∧ len (new_evidence d) < u64_max
  ∧ d_sequence d ≤ u64_max ∧ d_base_sequence d ≤ u64_max
  ∧ Forall typed_finding (new_findings d) ∧ Forall typed_evidence (new_evidence d)
  ∧ Forall (λ u, typed_patch u.2) (patches (updates d)).

Definition quantize_update (u : FieldUpdate) : FieldUpdate :=
  match u with UpdateFinding id p => UpdateFinding id (quantize_patch p) | _ => u end.

(** What the wire keeps of a delta: its updates in canonical order, and three
    decimals of each confidence. *)
Definition wire_delta (d : Delta) : Delta :=
  mkDelta (d_task_id d) (d_base_sequence d) (d_sequence d)
    (map quantize_update (canonical (updates d))) (map quantize_finding (new_findings d))
    (new_evidence d) (d_next_actions d) (reason d).

Lemma canonical_collected es d c :
  collects es (updates d) (mkCollected None [] None []) c →
  map quantize_update (canonical (updates d))
  = match c_status c with Some s => [SetStatus s] | None => [] end
    ++ map (λ u, UpdateFinding u.1 (quantize_patch u.2)) (finding_updates c)
    ++ map AddEvidence (additions (updates d)) ++ verification_updates (verification_update c).
Proof.
  intros (HS & HF & HV & _). cbn in HS, HF, HV. unfold canonical.
  rewrite <-HS, <-HF, <-HV, !map_app, !map_map. cbn [quantize_update].
  by destruct (c_status c), (verification_update c).
Qed.

Lemma evidence_ref_ids d r :
  (∀ j e, new_evidence d !! j = Some e → ev_id e = nkey (lit "E") (1 + N.of_nat j)) →
  existsb (λ e, str_eqb (ev_id e) r) (new_evidence d) = true →
  ∃ k, r = nkey (lit "E") k ∧ one_of r (map (nkey (lit "E")) (range1 (len (new_evidence d)))) = true.
Proof.
  intros Hid (e & He & Heq%str_eqb_eq)%existsb_exists.
  apply list_elem_of_In, list_elem_of_lookup in He as [j Hj]. exists (1 + N.of_nat j).
  rewrite <-Heq, (Hid j e Hj). split; [done|]. apply one_of_elem, list_elem_of_fmap.
  exists (1 + N.of_nat j). split; [done|]. apply range1_elem. apply lookup_lt_Some in Hj.
  unfold len. lia.
Qed.

Lemma u64_field m key n :
  get_all m key = [dec n] → n ≤ u64_max → required_u64 m key = Ok n.
Proof.
  intros Hg Hn. unfold required_u64, single. rewrite Hg. cbn [ok_or]. unfold parse_u64.
  by rewrite parse_uint_dec.
Qed.

Lemma from_to_occ1_delta d o :
  typed_delta d → to_occ1 d = Ok o → from_occ1 o = Ok (wire_delta d).
Proof.
  intros (Hnf & Hne & Hseq & Hbase & Htf & Hte & Htp) H. unfold to_occ1 in H.
  apply seq_ok in H as [Htask H]. apply bind_ok in H as (c & Hcol & H).
  apply seq_ok in H as [Hfs H]. apply seq_ok in H as [Hes H]. apply seq_ok in H as [Hv H].
  injection H as <-.
  apply collect_all in Hcol as [(Hst & Hnd & Hpok) Hcol]; [|split_and!; [done|constructor|constructor]].
  pose proof (rall_from_lookup _ _ _ Hfs) as Hf. pose proof (rall_from_lookup _ _ _ Hes) as He.
  assert (∀ j e, new_evidence d !! j = Some e →
            ev_id e = nkey (lit "E") (1 + N.of_nat j) ∧ is_known_evidence_kind (ev_kind e) = true) as Hev.
  { intros j e Hj. apply He, seq_ok in Hj as [H1%guard_err_ok H2%guard_err_ok].
    apply negb_false_iff in H1, H2. by apply str_eqb_eq in H1. }
  unfold from_occ1. rewrite (single_list _ _ (Some (d_task_id d))) by apply delta_TASK.
  cbn [ok_or]. rewrite Htask, (u64_field _ _ (d_sequence d)), (u64_field _ _ (d_base_sequence d))
    by (done || apply delta_SEQ || apply delta_BASE).
  rewrite (delta_seen_ok d c Hnf Hne), (delta_NEW_indices d), (delta_E_indices d), !range1_contiguous,
    (delta_owners d) by done.
  rewrite (single_list _ _ (c_status c)) by apply delta_STATUS.
  assert (match c_status c with
          | Some s => if negb (is_known_status s) then Err (UnknownStatus s) else Ok [SetStatus s]
          | None => Ok []
          end = Ok match c_status c with Some s => [SetStatus s] | None => [] end) as ->.
  { destruct (c_status c) as [s|]; [|done]. by rewrite (Hst s eq_refl). }
  rewrite delta_UPDATE.
  destruct (merge_all (finding_updates c) [] ∅) as (ps & -> & Hps & _); try done.
  { destruct Hcol as (_ & HF & _). cbn in HF. by rewrite HF. }
  cbn [fst snd app]. rewrite take_patches_all by done.
  rewrite (rmap_range1 _ quantize_finding).
  2:{ intros j f Hj. specialize (Hf j f Hj). apply seq_ok in Hf as [H1%guard_err_ok Hf].
      apply seq_ok in Hf as [H2 H3%rall_ok]. apply negb_false_iff, str_eqb_eq in H1.
      apply decode_new_finding_ok; try done.
      - rewrite Forall_forall in Htf. apply Htf. by eapply list_elem_of_lookup_2.
      - intros v Hconf. rewrite Hconf in H2. apply guard_err_ok in H2. by apply negb_false_iff.
      - eapply Forall_impl; [exact H3|]. intros r Hr%guard_err_ok%negb_false_iff.
        apply evidence_ref_ids; [|done]. intros j' e' He'. by apply Hev. }
  rewrite (rmap_range1 _ id).
  2:{ intros j e Hj. destruct (Hev j e Hj). apply decode_new_evidence_ok; try done.
      rewrite Forall_forall in Hte. apply Hte. by eapply list_elem_of_lookup_2. }
  rewrite map_id, delta_EADD.
  assert (rmap (decode_eadd (new_evidence d))
            (map (λ p, nkey (lit "E") (p + 1)) (add_evidence_positions c))
          = Ok (map AddEvidence (additions (updates d)))) as ->.
  { destruct Hcol as (_ & _ & _ & ps' & Hpos & HA). cbn in Hpos. rewrite Hpos.
    apply rmap_Forall2, Forall2_fmap_l, Forall2_fmap_r, Forall2_flip.
    eapply Forall2_impl; [exact HA|]. intros e p Hp. by apply eadd_ok. }
  rewrite decode_set_verification_ok.
  2:{ intros v Hv'. rewrite Hv' in Hv. apply guard_err_ok in Hv. by apply negb_false_iff. }
  rewrite (single_list _ _ (reason d)) by apply delta_WHY. rewrite delta_NEXT.
  unfold wire_delta. by rewrite (canonical_collected _ _ _ Hcol).
Qed.

(** C36: a delta survives the wire up to order and rounding: whenever [to_occ1] accepts a
    delta, [from_occ1] reads it back with every confidence rounded to three decimals and
    its updates in the grammar's canonical order.  An order other than that is thus changed
    silently ([delta_reorders_updates]), where the comment on [to_occ1] says that it is
    rejected. *)
Theorem delta_roundtrip d o :
  typed_delta d → to_occ1 d = Ok o → from_occ1 o = Ok (wire_delta d).
Proof. apply from_to_occ1_delta. Qed.

(** A delta that uses every part of the grammar. *)
Definition full_delta : Delta :=
  mkDelta (lit "t") 4 9
    [SetStatus (lit "blocked");
     UpdateFinding (lit "F1") (mkPatch (Some (lit "a:b=c")) (Some None) [lit "E7"] [lit "E1"]);
     UpdateFinding (lit "F3") (mkPatch None (Some (parse_f32 (lit "0.25"))) [] []);
     AddEvidence (mkEvidence (lit "E2") (lit "log") (lit "x.log") None None None (Some false));
     SetVerification (mkVerification (lit "c") (lit "fail") (lit "m") (Some (lit "r")))]
    [mkFinding (lit "N1") (lit "new") None [lit "E2"; lit "E1"]]
    [mkEvidence (lit "E1") (lit "src") (lit "a.rs") (Some (1, 2)) None (Some (lit "rev")) None;
     mkEvidence (lit "E2") (lit "log") (lit "x.log") None None None (Some false)]
    [lit "retry"] (Some (lit "why")).

Lemma delta_roundtrip_witness :
  from_occ1 (mkOcc1 (delta_fields full_delta
     (mkCollected (Some (lit "blocked")) (patches (updates full_delta))
        (Some (mkVerification (lit "c") (lit "fail") (lit "m") (Some (lit "r")))) [1])))
  = Ok (wire_delta full_delta).
Proof.
  apply (delta_roundtrip full_delta).
  - split; [done|]. split; [done|]. split; [done|]. split; [done|]. split; [|split].
    + by apply Forall_singleton.
    + apply Forall_cons; split; [by intros a b [= <- <-]|]. apply Forall_singleton. by intros a b.
    + apply Forall_cons; split; [done|]. apply Forall_singleton. intros v Hv.
      vm_compute in Hv. injection Hv as <-. vm_compute. reflexivity.
  - vm_compute. reflexivity.
Defined.

(** [to_occ1] does reorder: a delta that adds evidence before it sets the
    status is accepted, and comes back with the two updates swapped, although
    the module promises to reject any other order than the canonical one. *)
Theorem delta_reorders_updates :
  let e := mkEvidence (lit "E1") (lit "src") (lit "a.rs") None None None None in
  let d := mkDelta (lit "t") 0 1 [AddEvidence e; SetStatus (lit "done")] [] [e] [] None in
  ∃ o d', to_occ1 d = Ok o ∧ from_occ1 o = Ok d'
          ∧ updates d' = [SetStatus (lit "done"); AddEvidence e].
Proof. eexists _, _. split; [vm_compute; reflexivity|]. split; vm_compute; reflexivity. Qed.
