(* ===== verification/Consolidation.v ===== *)
(** * Evidence consolidation

    [core/occ/consolidation.rs]: merging the findings, evidence, dependencies and
    uncertainties of a batch of messages.  The accumulators of [consolidate] are
    the fields of [Acc]; the [BTreeMap]s and [BTreeSet]s are [gmap]s and [gset]s,
    none of which the code iterates over. *)
From stdpp Require Import base list numbers gmap sorting strings.
From Stdlib Require Import SpecFloat.
From S2P Require Import Prelude RustStr RustFloat Occ1 Fields Contract.

Local Open Scope N_scope.

(** ** Data *)

Inductive EvidenceKeyMode : Type := Locator | LocatorAndDigest | LocatorDigestRevision.

Record ConsolidationOptions : Type := mkOptions {
  merge_same_statement : bool;
  evidence_key : EvidenceKeyMode }.

Record ConsolidationStats : Type := mkStats {
  messages_in : N;
  findings_in : N;
  findings_out : N;
  evidence_in : N;
  evidence_out : N;
  conflicts_out : N;
  uncertainties_out : N }.

Record ConsolidatedFinding : Type := mkConsolidated {
  cf_finding : Finding;
  sources : list str;
  agreement : N }.

Record ConflictPosition : Type := mkPosition {
  cp_statement : str;
  source_message_id : str;
  evidence_ids : list str }.

Record Conflict : Type := mkConflict {
  topic : str;
  positions : list ConflictPosition }.

Record ConsolidationReport : Type := mkReport {
  r_findings : list ConsolidatedFinding;
  r_evidence : list EvidenceRef;
  r_conflicts : list Conflict;
  r_uncertainties : list str;
  r_dependencies : list str;
  r_stats : ConsolidationStats }.

Record Occurrence : Type := mkOccurrence {
  o_finding : Finding;
  o_source : str;
  o_status : option str;
  o_evidence : list EvidenceRef }.

Record Group : Type := mkGroup {
  g_normalized : str;
  occurrences : list Occurrence;
  union : gmap (str * str) (option str * option bool);
  status_state : option (option str);
  first_detection : option N }.

(** [EvidenceIdentity]: kind, locator, digest, revision, line range. *)
Abbreviation EvidenceIdentity := (str * str * option str * option str * option (N * N))%type.

(** ** Helpers *)

Definition normalized_statement (statement : str) : str :=
  to_ascii_lowercase (join (lit " ") (split_whitespace statement)).

Definition finding_verification_status (m : AgentCommMessage) (f : Finding) : option str :=
  match verification m with
  | Some record =>
      if str_eqb (normalized_statement (claim record)) (normalized_statement (statement f))
      then Some (v_status record) else None
  | None => None
  end.

Definition identity (mode : EvidenceKeyMode) (e : EvidenceRef) : EvidenceIdentity :=
  (ev_kind e, locator e,
   match mode with Locator => None | _ => digest e end,
   match mode with LocatorDigestRevision => revision e | _ => None end,
   line_range e).

Definition message_label (m : AgentCommMessage) (index : N) : str :=
  match message_id m with
  | Some id => id
  | None =>
      match sequence m with
      | Some s => task_id m ++ lit "#" ++ dec s
      | None => task_id m ++ lit "#" ++ dec (index + 1)
      end
  end.

Definition resolve_one (m : AgentCommMessage) (acc : list EvidenceRef * gset str) (id : str)
  : list EvidenceRef * gset str :=
  let (resolved, seen) := acc in
  if bool_decide (id ∈ seen) then (resolved, seen)
  else match List.find (λ item, str_eqb (ev_id item) id) (evidence m) with
       | Some item => (resolved ++ [item], {[id]} ∪ seen)
       | None => (resolved, {[id]} ∪ seen)
       end.

Definition resolve_finding_evidence (m : AgentCommMessage) (f : Finding) : list EvidenceRef :=
  (List.fold_left (resolve_one m) (f_evidence f) ([], ∅)).1.

Definition is_uncertain (f : Finding) (status : option str) : bool :=
  match confidence f with Some c => SFltb c f32_half | None => false end
  || match status with Some s => str_eqb s VERIFICATION_UNKNOWN | None => false end.

Definition confidence_field (f : Finding) : str :=
  match confidence f with Some c => fmt_display c | None => lit "unknown" end.

(** ** The loop *)

Record Acc : Type := mkAcc {
  flat : list Occurrence;
  groups : list Group;
  group_at : gmap str nat;
  a_evidence : list EvidenceRef;
  evidence_seen : gset EvidenceIdentity;
  a_dependencies : list str;
  seen_dependencies : gset str;
  a_uncertainties : list str;
  a_findings_in : N;
  a_evidence_in : N }.

Definition empty_acc : Acc := mkAcc [] [] ∅ [] ∅ [] ∅ [] 0 0.

Definition add_evidence_item (mode : EvidenceKeyMode) (a : Acc) (e : EvidenceRef) : Acc :=
  let id := identity mode e in
  if bool_decide (id ∈ evidence_seen a) then a
  else mkAcc (flat a) (groups a) (group_at a) (a_evidence a ++ [e]) ({[id]} ∪ evidence_seen a)
         (a_dependencies a) (seen_dependencies a) (a_uncertainties a) (a_findings_in a)
         (a_evidence_in a).

Definition add_dependency (a : Acc) (dependency : str) : Acc :=
  if bool_decide (dependency ∈ seen_dependencies a) then a
  else mkAcc (flat a) (groups a) (group_at a) (a_evidence a) (evidence_seen a)
         (a_dependencies a ++ [dependency]) ({[dependency]} ∪ seen_dependencies a)
         (a_uncertainties a) (a_findings_in a) (a_evidence_in a).

Definition evidence_clash (u : gmap (str * str) (option str * option bool)) (item : EvidenceRef) : bool :=
  match u !! (ev_kind item, locator item) with
  | Some (dg, vf) => bool_decide (digest item ≠ dg) || bool_decide (verified item ≠ vf)
  | None => false
  end.

Definition union_item (u : gmap (str * str) (option str * option bool)) (item : EvidenceRef)
  : gmap (str * str) (option str * option bool) :=
  match u !! (ev_kind item, locator item) with
  | Some _ => u
  | None => <[(ev_kind item, locator item) := (digest item, verified item)]> u
  end.

(** One more occurrence in its group. *)
Definition join_group (index : N) (o : Occurrence) (g : Group) : Group :=
  let status_mismatch := match status_state g with
                         | None => false
                         | Some prior => bool_decide (prior ≠ o_status o)
                         end in
  let evidence_disagreement := existsb (evidence_clash (union g)) (o_evidence o) in
  mkGroup (g_normalized g) (occurrences g ++ [o])
    (List.fold_left union_item (o_evidence o) (union g))
    (match status_state g with None => Some (o_status o) | s => s end)
    (if (status_mismatch || evidence_disagreement)
        && match first_detection g with None => true | Some _ => false end
     then Some index else first_detection g).

(** The group of a statement, a new one when it is the first. *)
Definition enter_group (gs : list Group) (at_ : gmap str nat) (normalized : str)
  : list Group * gmap str nat * nat :=
  match at_ !! normalized with
  | Some i => (gs, at_, i)
  | None => (gs ++ [mkGroup normalized [] ∅ None None], <[normalized := length gs]> at_, length gs)
  end.

Definition group_occurrence (gs : list Group) (at_ : gmap str nat) (index : N) (o : Occurrence)
  : list Group * gmap str nat :=
  let '(gs, at_, i) := enter_group gs at_ (normalized_statement (statement (o_finding o))) in
  (alter (join_group index o) i gs, at_).

Definition occurrence_of (m : AgentCommMessage) (label : str) (f : Finding) : Occurrence :=
  mkOccurrence f label (finding_verification_status m f) (resolve_finding_evidence m f).

Definition uncertainty (m : AgentCommMessage) (f : Finding) : str :=
  lit "task=" ++ task_id m ++ lit " finding=" ++ f_id f ++ lit " confidence=" ++ confidence_field f
  ++ lit " statement=" ++ statement f.

Definition add_finding (merge : bool) (m : AgentCommMessage) (label : str) (a : Acc) (f : Finding) : Acc :=
  let findings_in := a_findings_in a + 1 in
  let o := occurrence_of m label f in
  let uncertainties :=
    if is_uncertain f (o_status o) then a_uncertainties a ++ [uncertainty m f] else a_uncertainties a in
  if negb merge
  then mkAcc (flat a ++ [o]) (groups a) (group_at a) (a_evidence a) (evidence_seen a)
         (a_dependencies a) (seen_dependencies a) uncertainties findings_in (a_evidence_in a)
  else
    let '(gs, at_) := group_occurrence (groups a) (group_at a) (findings_in - 1) o in
    mkAcc (flat a) gs at_ (a_evidence a) (evidence_seen a)
      (a_dependencies a) (seen_dependencies a) uncertainties findings_in (a_evidence_in a).

Definition count_evidence (a : Acc) (n : N) : Acc :=
  mkAcc (flat a) (groups a) (group_at a) (a_evidence a) (evidence_seen a) (a_dependencies a)
    (seen_dependencies a) (a_uncertainties a) (a_findings_in a) (a_evidence_in a + n).

Definition add_message (options : ConsolidationOptions) (a : Acc) (im : N * AgentCommMessage) : Acc :=
  let (index, m) := im in
  let label := message_label m index in
  let a := count_evidence a (len (evidence m)) in
  let a := List.fold_left (add_evidence_item (evidence_key options)) (evidence m) a in
  let a := List.fold_left add_dependency (dependencies m) a in
  List.fold_left (add_finding (merge_same_statement options) m label) (findings m) a.

Definition enumerate {A} (l : list A) : list (N * A) := zip (map N.of_nat (seq 0 (length l))) l.

(** ** The report *)

Definition position_of (o : Occurrence) : ConflictPosition :=
  mkPosition (statement (o_finding o)) (o_source o) (f_evidence (o_finding o)).

Definition group_sources (os : list Occurrence) : list str :=
  List.fold_left (λ acc o, if one_of (o_source o) acc then acc else acc ++ [o_source o]) os [].

(** One group of the report: a conflict with its detection index, or a finding. *)
Definition split_group (acc : list ConsolidatedFinding * list (N * Conflict)) (g : Group)
  : list ConsolidatedFinding * list (N * Conflict) :=
  let (fs, detected) := acc in
  match first_detection g with
  | Some detection =>
      (fs, detected ++ [(detection, mkConflict (g_normalized g) (map position_of (occurrences g)))])
  | None =>
      match occurrences g with
      | [] => (fs, detected)
      | first :: _ =>
          let s := group_sources (occurrences g) in
          (fs ++ [mkConsolidated (o_finding first) s (len s)], detected)
      end
  end.

Definition index_le (x y : N * Conflict) : Prop := x.1 ≤ y.1.
#[export] Instance index_le_dec : RelDecision index_le.
Proof. intros x y. unfold index_le. apply _. Defined.

Definition consolidate (messages : list AgentCommMessage) (options : ConsolidationOptions)
  : ConsolidationReport :=
  let a := List.fold_left (add_message options) (enumerate messages) empty_acc in
  let '(fs, detected) :=
    if merge_same_statement options
    then List.fold_left split_group (groups a) ([], [])
    else (map (λ o, mkConsolidated (o_finding o) [o_source o] 1) (flat a), []) in
  let conflicts := map snd (merge_sort index_le detected) in
  mkReport fs (a_evidence a) conflicts (a_uncertainties a) (a_dependencies a)
    (mkStats (len messages) (a_findings_in a) (len fs) (a_evidence_in a) (len (a_evidence a))
       (len conflicts) (len (a_uncertainties a))).

(** ** What each part of the loop touches *)

Definition normalized_of (o : Occurrence) : str := normalized_statement (statement (o_finding o)).

(** The finding occurrences of a batch, in order. *)
Definition message_occurrences (im : N * AgentCommMessage) : list Occurrence :=
  map (occurrence_of im.2 (message_label im.2 im.1)) (findings im.2).
Definition all_occurrences (messages : list AgentCommMessage) : list Occurrence :=
  concat (map message_occurrences (enumerate messages)).

(** The grouping state, and one step of it. *)
Definition grouping (a : Acc) : list Group * gmap str nat * N := (groups a, group_at a, a_findings_in a).

Definition group_step (s : list Group * gmap str nat * N) (o : Occurrence)
  : list Group * gmap str nat * N :=
  let '(gs, at_, n) := s in (group_occurrence gs at_ n o, n + 1).

Lemma fold_keep {A B C} (f : A → B → A) (proj : A → C) (l : list B) a :
  (∀ a b, proj (f a b) = proj a) → proj (List.fold_left f l a) = proj a.
Proof. intros H. revert a. induction l as [|b l IH]; intros a; simpl; [done|]. by rewrite IH. Qed.

Lemma fold_simulates {A B C D} (f : A → B → A) (g : C → D → C) (proj : A → C) (h : B → D) (l : list B) a :
  (∀ a b, proj (f a b) = g (proj a) (h b)) →
  proj (List.fold_left f l a) = List.fold_left g (map h l) (proj a).
Proof. intros H. revert a. induction l as [|b l IH]; intros a; simpl; [done|]. by rewrite IH, H. Qed.

Lemma fold_concat {A B C} (f : A → B → A) (h : C → list B) (l : list C) a :
  List.fold_left (λ a c, List.fold_left f (h c) a) l a = List.fold_left f (concat (map h l)) a.
Proof.
  revert a. induction l as [|c l IH]; intros a; simpl; [done|]. by rewrite fold_left_app, IH.
Qed.

Lemma add_evidence_keep {C} (proj : Acc → C) mode a e :
  (∀ f g t ev s d sd u n k ev' s', proj (mkAcc f g t ev s d sd u n k) = proj (mkAcc f g t ev' s' d sd u n k)) →
  proj (add_evidence_item mode a e) = proj a.
Proof. intros H. unfold add_evidence_item. case_bool_decide; [done|]. destruct a. apply H. Qed.

Lemma add_dependency_keep {C} (proj : Acc → C) a d0 :
  (∀ f g t ev s d sd u n k d' sd', proj (mkAcc f g t ev s d sd u n k) = proj (mkAcc f g t ev s d' sd' u n k)) →
  proj (add_dependency a d0) = proj a.
Proof. intros H. unfold add_dependency. case_bool_decide; [done|]. destruct a. apply H. Qed.

Lemma add_finding_keep {C} (proj : Acc → C) merge m label a f0 :
  (∀ f g t ev s d sd u n k f' g' t' u' n',
     proj (mkAcc f g t ev s d sd u n k) = proj (mkAcc f' g' t' ev s d sd u' n' k)) →
  proj (add_finding merge m label a f0) = proj a.
Proof.
  intros H. unfold add_finding. destruct a, merge; simpl; [|apply H].
  destruct (group_occurrence _ _ _ _). apply H.
Qed.

Lemma grouping_message options a im :
  merge_same_statement options = true →
  grouping (add_message options a im) = List.fold_left group_step (message_occurrences im) (grouping a).
Proof.
  intros Hm. destruct im as [i m]. unfold add_message, message_occurrences. rewrite Hm. cbn [fst snd].
  rewrite (fold_simulates _ group_step grouping (occurrence_of m (message_label m i))).
  - f_equal. rewrite (fold_keep add_dependency) by (intros; by apply (add_dependency_keep grouping)).
    rewrite (fold_keep (add_evidence_item _)) by (intros; by apply (add_evidence_keep grouping)). done.
  - intros a' f. unfold add_finding, grouping, group_step. cbn [negb].
    replace (a_findings_in a' + 1 - 1) with (a_findings_in a') by lia.
    by destruct (group_occurrence _ _ _ _).
Qed.

Lemma grouping_all options messages :
  merge_same_statement options = true →
  grouping (List.fold_left (add_message options) (enumerate messages) empty_acc)
  = List.fold_left group_step (all_occurrences messages) ([], ∅, 0).
Proof.
  intros Hm. unfold all_occurrences. rewrite <-fold_concat.
  change ([], ∅, 0) with (grouping empty_acc). generalize empty_acc.
  induction (enumerate messages) as [|im l IH]; intros a; simpl; [done|].
  by rewrite IH, grouping_message.
Qed.

(** ** Groups *)

(** What a group remembers of its occurrences. *)
Definition summary_step
    (s : gmap (str * str) (option str * option bool) * option (option str) * bool) (o : Occurrence)
  : gmap (str * str) (option str * option bool) * option (option str) * bool :=
  let '(u, st, det) := s in
  (List.fold_left union_item (o_evidence o) u,
   match st with None => Some (o_status o) | s => s end,
   det || (match st with None => false | Some prior => bool_decide (prior ≠ o_status o) end
           || existsb (evidence_clash u) (o_evidence o))).

Definition summary (os : list Occurrence)
  : gmap (str * str) (option str * option bool) * option (option str) * bool :=
  List.fold_left summary_step os (∅, None, false).

Definition detected (g : Group) : bool := match first_detection g with Some _ => true | None => false end.

Definition group_ok (occs : list Occurrence) (g : Group) : Prop :=
  occurrences g = List.filter (λ o, str_eqb (normalized_of o) (g_normalized g)) occs
  ∧ occurrences g ≠ [] ∧ (union g, status_state g, detected g) = summary (occurrences g).

Record grouped (occs : list Occurrence) (gs : list Group) (at_ : gmap str nat) : Prop := mkGrouped {
  gr_at : ∀ n i, at_ !! n = Some i ↔ ∃ g, gs !! i = Some g ∧ g_normalized g = n;
  gr_ok : ∀ i g, gs !! i = Some g → group_ok occs g;
  gr_all : ∀ o, o ∈ occs → is_Some (at_ !! normalized_of o) }.

Lemma join_group_ok occs index o g :
  occurrences g = List.filter (λ o, str_eqb (normalized_of o) (g_normalized g)) occs →
  (union g, status_state g, detected g) = summary (occurrences g) →
  normalized_of o = g_normalized g → group_ok (occs ++ [o]) (join_group index o g).
Proof.
  intros Ho Hs Hn. unfold group_ok, join_group. cbn [occurrences g_normalized union status_state].
  split; [|split].
  - rewrite List.filter_app, <-Ho. simpl. by rewrite Hn, str_eqb_refl.
  - by destruct (occurrences g).
  - unfold summary. rewrite fold_left_app. fold (summary (occurrences g)). rewrite <-Hs.
    cbn [List.fold_left summary_step]. f_equal; [by destruct (status_state g)|].
    unfold detected. cbn [first_detection].
    match goal with |- context [orb ?a (existsb ?f ?l)] => destruct (orb a (existsb f l)) end;
      by destruct (first_detection g).
Qed.

Lemma other_group_ok occs o g :
  group_ok occs g → normalized_of o ≠ g_normalized g → group_ok (occs ++ [o]) g.
Proof.
  intros (Ho & Hne & Hs) Hn. split; [|done]. rewrite List.filter_app, <-Ho. simpl.
  apply str_eqb_neq in Hn. by rewrite Hn, app_nil_r.
Qed.

Lemma group_step_ok occs gs at_ n o gs' at' :
  grouped occs gs at_ → group_occurrence gs at_ n o = (gs', at') → grouped (occs ++ [o]) gs' at'.
Proof.
  intros [Hat Hok Hall]. unfold group_occurrence, enter_group. fold (normalized_of o).
  destruct (at_ !! normalized_of o) as [i|] eqn:Hi; intros [= <- <-].
  - pose proof (proj1 (Hat _ _) Hi) as (g & Hg & Hgn). destruct (Hok i g Hg) as (Ho & _ & Hs).
    split.
    + intros n' j. rewrite Hat. destruct (decide (i = j)) as [<-|Hij].
      * rewrite list_lookup_alter_eq, Hg. simpl. split; intros (g' & [= <-] & Hn'); eauto.
      * by rewrite list_lookup_alter_ne by done.
    + intros j g'. destruct (decide (i = j)) as [<-|Hij].
      * rewrite list_lookup_alter_eq, Hg. intros [= <-]. by apply join_group_ok.
      * rewrite list_lookup_alter_ne by done. intros Hg'. apply other_group_ok; [by eapply Hok|].
        intros Heq. apply Hij. assert (at_ !! g_normalized g' = Some j) as Hj by (apply Hat; eauto).
        rewrite <-Heq in Hj. congruence.
    + intros o' [Ho'| ->%list_elem_of_singleton]%elem_of_app; [by apply Hall|by rewrite Hi].
  - rewrite alter_app_r_alt by lia. rewrite Nat.sub_diag. simpl. split.
    + intros n' j. rewrite lookup_insert. case_decide as Hn.
      * subst n'. split.
        -- intros [= <-]. exists (join_group n o (mkGroup (normalized_of o) [] ∅ None None)).
           split; [by rewrite list_lookup_middle|done].
        -- intros (g' & Hg' & Hn'). apply lookup_app_Some in Hg' as [Hg'|[Hlen Hg']].
           ++ exfalso. assert (at_ !! normalized_of o = Some j) by (apply Hat; eauto). congruence.
           ++ apply list_lookup_singleton_Some in Hg' as [? _]. f_equal. lia.
      * rewrite Hat. split; intros (g' & Hg' & Hn').
        -- exists g'. split; [by apply lookup_app_l_Some|done].
        -- exists g'. split; [|done]. apply lookup_app_Some in Hg' as [Hg'|[Hlen Hg']]; [done|].
           apply list_lookup_singleton_Some in Hg' as [_ <-]. by simpl in Hn'.
    + intros j g' [Hg'|[Hlen Hg']]%lookup_app_Some.
      * apply other_group_ok; [by eapply Hok|]. intros Heq.
        assert (at_ !! g_normalized g' = Some j) as Hj by (apply Hat; eauto).
        rewrite <-Heq in Hj. congruence.
      * apply list_lookup_singleton_Some in Hg' as [_ <-]. apply join_group_ok; simpl; [|done|done].
        symmetry. apply filter_all_false. intros o' Ho'. apply str_eqb_neq. intros Heq.
        destruct (Hall o' Ho') as [i Hi']. rewrite Heq in Hi'. congruence.
    + intros o' [Ho'| ->%list_elem_of_singleton]%elem_of_app; rewrite lookup_insert;
        case_decide; try done; by apply Hall.
Qed.

Lemma grouped_all occs gs at_ n :
  List.fold_left group_step occs ([], ∅, 0) = (gs, at_, n) → grouped occs gs at_ ∧ n = len occs.
Proof.
  revert gs at_ n. induction occs as [|o occs IH] using rev_ind; intros gs at_ n.
  { intros [= <- <- <-]. split; [|done]. split.
    - intros m i. rewrite lookup_empty. split; [done|]. by intros (g & ? & _).
    - by intros i g ?.
    - by intros o ?%elem_of_nil. }
  rewrite fold_left_app. destruct (List.fold_left group_step occs ([], ∅, 0)) as [[gs1 at1] n1] eqn:Hf.
  cbn [List.fold_left group_step]. destruct (group_occurrence gs1 at1 n1 o) as [gs2 at2] eqn:Hg.
  intros [= <- <- <-]. destruct (IH gs1 at1 n1 eq_refl) as [Hgr ->]. split.
  - by eapply group_step_ok.
  - unfold len. rewrite length_app. simpl. lia.
Qed.

(** ** Disagreement *)

Definition same_key (e1 e2 : EvidenceRef) : Prop := ev_kind e1 = ev_kind e2 ∧ locator e1 = locator e2.
Definition same_facts (e1 e2 : EvidenceRef) : Prop := digest e1 = digest e2 ∧ verified e1 = verified e2.

(** Two occurrences disagree: on their verification status, or on the digest or
    the verdict of a common evidence. *)
Definition disagree (o1 o2 : Occurrence) : Prop :=
  o_status o1 ≠ o_status o2
  ∨ ∃ e1 e2, e1 ∈ o_evidence o1 ∧ e2 ∈ o_evidence o2 ∧ same_key e1 e2 ∧ ¬ same_facts e1 e2.

(** An occurrence does not cite one evidence twice with different facts. *)
Definition own_consistent (o : Occurrence) : Prop :=
  ∀ e1 e2, e1 ∈ o_evidence o → e2 ∈ o_evidence o → same_key e1 e2 → same_facts e1 e2.

Definition key_of (e : EvidenceRef) : str * str := (ev_kind e, locator e).
Definition facts_of (e : EvidenceRef) : option str * option bool := (digest e, verified e).

Lemma evidence_clash_false u e :
  evidence_clash u e = false ↔ ∀ v, u !! key_of e = Some v → v = facts_of e.
Proof.
  unfold evidence_clash. fold (key_of e). destruct (u !! key_of e) as [[dg vf]|].
  - rewrite orb_false_iff, !bool_decide_eq_false. split.
    + intros [H1 H2] v [= <-]. apply dec_stable in H1, H2. unfold facts_of. by rewrite H1, H2.
    + intros H. specialize (H _ eq_refl). unfold facts_of in H. injection H as -> ->.
      split; intros Hn; by apply Hn.
  - split; [done|done].
Qed.

Lemma union_item_lookup u e k :
  union_item u e !! k
  = match u !! k with
    | Some v => Some v
    | None => if decide (key_of e = k) then Some (facts_of e) else None
    end.
Proof.
  unfold union_item. fold (key_of e). destruct (u !! key_of e) as [v|] eqn:Hu.
  - destruct (u !! k) as [v'|] eqn:Hk; [done|]. rewrite decide_False; [done|]. intros <-. congruence.
  - rewrite lookup_insert. case_decide as Hk; [subst k; by rewrite Hu|]. by destruct (u !! k).
Qed.

(** What the accumulated union holds after the evidence of one occurrence. *)
Lemma union_fold es u :
  let u' := List.fold_left union_item es u in
  (∀ k v, u !! k = Some v → u' !! k = Some v)
  ∧ (∀ k v, u' !! k = Some v → u !! k = Some v ∨ ∃ e, e ∈ es ∧ key_of e = k ∧ facts_of e = v)
  ∧ (∀ e, e ∈ es → is_Some (u' !! key_of e)).
Proof.
  revert u. induction es as [|e es IH]; intros u; cbn [List.fold_left].
  { split_and!; [done|by left|]. by intros e ?%elem_of_nil. }
  destruct (IH (union_item u e)) as (H1 & H2 & H3). split_and!.
  - intros k v Hk. apply H1. by rewrite union_item_lookup, Hk.
  - intros k v Hk. destruct (H2 k v Hk) as [Hu|(e' & He' & ? & ?)].
    + rewrite union_item_lookup in Hu. destruct (u !! k) as [v'|]; [by left|].
      case_decide as Hd; [|done]. injection Hu as <-. right. exists e. split; [by left|done].
    + right. exists e'. split; [by right|done].
  - intros e' [->|He']%elem_of_cons; [|by apply H3].
    assert (is_Some (union_item u e !! key_of e)) as [v Hv]; [|exists v; by apply H1].
    rewrite union_item_lookup. destruct (u !! key_of e); [done|]. by rewrite decide_True.
Qed.

Lemma facts_differ e1 e2 : ¬ same_facts e1 e2 ↔ facts_of e1 ≠ facts_of e2.
Proof.
  unfold same_facts, facts_of. split.
  - intros H [= H1 H2]. by apply H.
  - intros H [H1 H2]. apply H. by rewrite H1, H2.
Qed.

(** The accumulated union and status come from the occurrences. *)
Lemma summary_sources os :
  let '(u, st, det) := summary os in
  st = o_status <$> head os
  ∧ (∀ k v, u !! k = Some v → ∃ o e, o ∈ os ∧ e ∈ o_evidence o ∧ key_of e = k ∧ facts_of e = v)
  ∧ (det = true → ∃ o1 o2, o1 ∈ os ∧ o2 ∈ os ∧ disagree o1 o2).
Proof.
  induction os as [|o os IH] using rev_ind; [by split_and!|].
  unfold summary. rewrite fold_left_app. fold (summary os).
  destruct (summary os) as [[u st] det]. cbn [List.fold_left summary_step].
  destruct IH as (-> & Hu & Hd). destruct (union_fold (o_evidence o) u) as (_ & U2 & _). split_and!.
  - by destruct os.
  - intros k v Hk. destruct (U2 k v Hk) as [Hk'|(e & He & ? & ?)].
    + destruct (Hu k v Hk') as (o' & e & Ho' & ?). exists o', e. split; [|done].
      apply elem_of_app. by left.
    + exists o, e. split; [|done]. apply elem_of_app. right. by apply list_elem_of_singleton.
  - assert (o ∈ os ++ [o]) as Ho by (apply elem_of_app; right; by apply list_elem_of_singleton).
    rewrite !orb_true_iff. intros [Hdet|[Hst|Hcl]].
    + destruct (Hd Hdet) as (o1 & o2 & H1 & H2 & H12). exists o1, o2.
      split_and!; [apply elem_of_app; by left..|done].
    + destruct os as [|o1 os]; [done|]. simpl in Hst. apply bool_decide_eq_true in Hst.
      exists o1, o. split_and!; [by left|done|by left].
    + apply existsb_exists in Hcl as (e & He & Hcl). rewrite <-list_elem_of_In in He.
      destruct (u !! key_of e) as [v|] eqn:Hk.
      2:{ assert (evidence_clash u e = false); [|congruence]. apply evidence_clash_false. by rewrite Hk. }
      destruct (Hu _ _ Hk) as (o1 & e1 & Ho1 & He1 & Hkey & <-). exists o1, o.
      split_and!; [apply elem_of_app; by left|done|]. right. exists e1, e. split_and!; try done.
      * by injection Hkey as H1 H2.
      * apply facts_differ. intros Heq. assert (evidence_clash u e = false); [|congruence].
        apply evidence_clash_false. rewrite Hk. by intros v [= <-].
Qed.

(** Without a detection nothing was hidden. *)
Lemma summary_agree os :
  Forall own_consistent os →
  let '(u, st, det) := summary os in
  det = false →
  (∀ o, o ∈ os → st = Some (o_status o))
  ∧ (∀ o e, o ∈ os → e ∈ o_evidence o → u !! key_of e = Some (facts_of e)).
Proof.
  induction os as [|o os IH] using rev_ind; intros Hc; [by split; intros ? *; intros ?%elem_of_nil|].
  apply Forall_app in Hc as [Hc Ho]. rewrite Forall_singleton in Ho. specialize (IH Hc).
  unfold summary. rewrite fold_left_app. fold (summary os). pose proof (summary_sources os) as Hsrc.
  destruct (summary os) as [[u st] det]. cbn [List.fold_left summary_step].
  destruct Hsrc as (Hst & _ & _). destruct (union_fold (o_evidence o) u) as (U1 & U2 & U3).
  rewrite !orb_false_iff. intros (Hdet & Hs & Hcl). destruct (IH Hdet) as [IS IU]. split.
  - intros o' [Ho'| ->%list_elem_of_singleton]%elem_of_app; [by rewrite (IS o' Ho')|].
    destruct st as [s|]; [|done]. apply bool_decide_eq_false in Hs. f_equal. by apply dec_stable.
  - intros o' e [Ho'| ->%list_elem_of_singleton]%elem_of_app He; [by apply U1, (IU o')|].
    destruct (U3 e He) as [v Hv]. rewrite Hv. f_equal. destruct (U2 _ _ Hv) as [Hu|(e' & He' & Hk & <-)].
    + apply not_true_iff_false in Hcl.
      assert (evidence_clash u e = false) as Hf.
      { apply not_true_iff_false. intros Ht. apply Hcl, existsb_exists. exists e.
        by rewrite <-list_elem_of_In. }
      by eapply evidence_clash_false.
    + injection Hk as H1 H2. destruct (Ho e' e He' He) as [H3 H4]; [by split|].
      unfold facts_of. by rewrite H3, H4.
Qed.

Lemma summary_complete os o1 o2 :
  Forall own_consistent os → o1 ∈ os → o2 ∈ os → disagree o1 o2 → (summary os).2 = true.
Proof.
  intros Hc H1 H2 Hd. pose proof (summary_agree os Hc) as H.
  destruct (summary os) as [[u st] [|]]; [done|]. destruct (H eq_refl) as [HS HU]. exfalso.
  destruct Hd as [Hs|(e1 & e2 & He1 & He2 & [Hk1 Hk2] & Hf)].
  - pose proof (HS _ H1). pose proof (HS _ H2). congruence.
  - apply Hf. pose proof (HU _ _ H1 He1) as E1. pose proof (HU _ _ H2 He2) as E2.
    unfold key_of in *. rewrite Hk1, Hk2 in E1. rewrite E1 in E2. by injection E2.
Qed.

(** ** The report *)

Definition finding_of (g : Group) : option ConsolidatedFinding :=
  match first_detection g, occurrences g with
  | None, first :: _ =>
      let s := group_sources (occurrences g) in Some (mkConsolidated (o_finding first) s (len s))
  | _, _ => None
  end.

Definition conflict_of (g : Group) : option (N * Conflict) :=
  (λ n, (n, mkConflict (g_normalized g) (map position_of (occurrences g)))) <$> first_detection g.

Lemma split_group_eq fs ds g :
  split_group (fs, ds) g = (fs ++ option_list (finding_of g), ds ++ option_list (conflict_of g)).
Proof.
  unfold split_group, finding_of, conflict_of.
  destruct (first_detection g), (occurrences g) as [|o os]; simpl; by rewrite ?app_nil_r.
Qed.

Lemma split_groups gs fs ds :
  List.fold_left split_group gs (fs, ds) = (fs ++ omap finding_of gs, ds ++ omap conflict_of gs).
Proof.
  revert fs ds. induction gs as [|g gs IH]; intros fs ds; cbn [List.fold_left].
  { simpl. by rewrite !app_nil_r. }
  rewrite split_group_eq, IH, <-!app_assoc. cbn [omap list_omap].
  by destruct (finding_of g), (conflict_of g).
Qed.

Lemma group_sources_app os o :
  group_sources (os ++ [o])
  = if one_of (o_source o) (group_sources os) then group_sources os
    else group_sources os ++ [o_source o].
Proof. unfold group_sources. by rewrite fold_left_app. Qed.

Lemma group_sources_elem os o : o ∈ os → o_source o ∈ group_sources os.
Proof.
  induction os as [|o' os IH] using rev_ind; [by intros ?%elem_of_nil|].
  rewrite group_sources_app. intros [Ho| ->%list_elem_of_singleton]%elem_of_app.
  - specialize (IH Ho). destruct (one_of _ _); [done|]. apply elem_of_app. by left.
  - destruct (one_of (o_source o') (group_sources os)) eqn:Hin; [by apply one_of_elem|].
    apply elem_of_app. right. by apply list_elem_of_singleton.
Qed.

Lemma enumerate_elem {A} (l : list A) i a : l !! i = Some a → (N.of_nat i, a) ∈ enumerate l.
Proof.
  intros H. apply (list_elem_of_lookup_2 _ i). unfold enumerate.
  rewrite lookup_zip_Some. split; [|done].
  rewrite list_lookup_fmap, lookup_seq_lt by (by eapply lookup_lt_Some). done.
Qed.

Lemma occurrence_elem messages i m f :
  messages !! i = Some m → f ∈ findings m →
  occurrence_of m (message_label m (N.of_nat i)) f ∈ all_occurrences messages.
Proof.
  intros Hm Hf. unfold all_occurrences. apply list_elem_of_In, in_concat.
  exists (message_occurrences (N.of_nat i, m)). split.
  - apply in_map, list_elem_of_In. by apply enumerate_elem.
  - apply (in_map (occurrence_of m (message_label m (N.of_nat i)))), list_elem_of_In. done.
Qed.

(** The groups the merged report is made of. *)
Lemma report_groups messages options :
  merge_same_statement options = true →
  ∃ gs at_, grouped (all_occurrences messages) gs at_
    ∧ r_findings (consolidate messages options) = omap finding_of gs
    ∧ (∀ c, c ∈ r_conflicts (consolidate messages options) ↔ ∃ n, Some (n, c) ∈ map conflict_of gs).
Proof.
  intros Hm. unfold consolidate. rewrite Hm. pose proof (grouping_all options messages Hm) as Hg.
  set (a := List.fold_left _ _ _) in *. unfold grouping in Hg. symmetry in Hg.
  apply grouped_all in Hg as [Hg _]. exists (groups a), (group_at a). split; [done|].
  rewrite split_groups. cbn [r_findings r_conflicts app]. split; [done|].
  intros c. rewrite list_elem_of_fmap. setoid_rewrite merge_sort_Permutation.
  split.
  - intros ([n c'] & -> & (g & Hg' & Hc)%list_elem_of_omap). exists n. apply list_elem_of_fmap. eauto.
  - intros (n & Hn). apply list_elem_of_fmap in Hn as (g & Hc & Hg'). exists (n, c). split; [done|].
    apply list_elem_of_omap. eauto.
Qed.

Lemma flat_all options messages :
  merge_same_statement options = false →
  flat (List.fold_left (add_message options) (enumerate messages) empty_acc) = all_occurrences messages.
Proof.
  intros Hm. unfold all_occurrences.
  assert (∀ a l, flat (List.fold_left (add_message options) l a)
                 = flat a ++ concat (map message_occurrences l)) as H; [|apply H].
  intros a l. revert a. induction l as [|[i m] l IH]; intros a; simpl; [by rewrite app_nil_r|].
  rewrite IH, app_assoc. f_equal. rewrite Hm. unfold message_occurrences. cbn [fst snd].
  rewrite (fold_simulates _ (λ acc o, acc ++ [o]) flat (occurrence_of m (message_label m i))) by done.
  rewrite (fold_keep add_dependency) by (intros; by apply (add_dependency_keep flat)).
  rewrite (fold_keep (add_evidence_item _)) by (intros; by apply (add_evidence_keep flat)).
  cbn [flat count_evidence]. generalize (flat a).
  induction (map (occurrence_of m (message_label m i)) (findings m)) as [|o os IHo]; intros acc; simpl;
    [by rewrite app_nil_r|]. by rewrite IHo, <-app_assoc.
Qed.

(** Consolidation loses no finding: every finding of every message is, under
    its message's label, a source of a consolidated finding of the same
    normalized statement, or a verbatim position of the conflict about it. *)
Theorem consolidate_keeps_findings messages options i m f :
  messages !! i = Some m → f ∈ findings m →
  (∃ cf, cf ∈ r_findings (consolidate messages options)
         ∧ normalized_statement (statement (cf_finding cf)) = normalized_statement (statement f)
         ∧ message_label m (N.of_nat i) ∈ sources cf)
  ∨ (∃ c, c ∈ r_conflicts (consolidate messages options)
          ∧ topic c = normalized_statement (statement f)
          ∧ mkPosition (statement f) (message_label m (N.of_nat i)) (f_evidence f) ∈ positions c).
Proof.
  intros Hm Hf. pose proof (occurrence_elem messages i m f Hm Hf) as Ho.
  set (o := occurrence_of _ _ _) in Ho. destruct (merge_same_statement options) eqn:Hmerge.
  - destruct (report_groups messages options Hmerge) as (gs & at_ & [Hat Hok Hall] & HF & HC).
    destruct (Hall o Ho) as [j Hj]. apply Hat in Hj as (g & Hg & Hn).
    destruct (Hok j g Hg) as (Hocc & Hne & _).
    assert (o ∈ occurrences g) as Hog.
    { rewrite Hocc. apply list_elem_of_In, filter_In. split; [by apply list_elem_of_In|].
      apply str_eqb_eq. by rewrite Hn. }
    destruct (first_detection g) as [n|] eqn:Hd.
    + right. exists (mkConflict (g_normalized g) (map position_of (occurrences g))). split.
      * apply HC. exists n. apply list_elem_of_fmap. exists g. unfold conflict_of. rewrite Hd.
        split; [done|]. by eapply list_elem_of_lookup_2.
      * split; [done|]. apply list_elem_of_fmap. by exists o.
    + left. destruct (occurrences g) as [|first rest] eqn:Hos; [done|].
      exists (mkConsolidated (o_finding first) (group_sources (first :: rest))
                (len (group_sources (first :: rest)))). rewrite HF. split.
      * apply list_elem_of_omap. exists g. split; [by eapply list_elem_of_lookup_2|].
        unfold finding_of. by rewrite Hd, Hos.
      * split; [|by apply (group_sources_elem _ o)]. cbn [cf_finding].
        assert (first ∈ first :: rest) as Hfirst by (by left). rewrite Hocc in Hfirst.
        apply list_elem_of_In, filter_In in Hfirst as [_ Hfn%str_eqb_eq].
        unfold normalized_of in Hfn, Hn. rewrite Hfn. done.
  - left. exists (mkConsolidated f [message_label m (N.of_nat i)] 1). unfold consolidate.
    rewrite Hmerge, flat_all by done. cbn [r_findings]. split; [|split; [done|by left]].
    apply list_elem_of_fmap. by exists o.
Qed.

(** Conflicts are genuine and complete: with merging on, a reported conflict
    lists every occurrence of its topic and two of them disagree; and whenever
    two occurrences of a statement disagree, the statement is reported as a
    conflict, provided no single finding cites one evidence with two different
    digests or verdicts. *)
Theorem consolidate_conflicts messages options t :
  merge_same_statement options = true →
  let os := List.filter (λ o, str_eqb (normalized_of o) t) (all_occurrences messages) in
  (∀ c, c ∈ r_conflicts (consolidate messages options) → topic c = t →
     positions c = map position_of os ∧ ∃ o1 o2, o1 ∈ os ∧ o2 ∈ os ∧ disagree o1 o2)
  ∧ (Forall own_consistent os → (∃ o1 o2, o1 ∈ os ∧ o2 ∈ os ∧ disagree o1 o2) →
     ∃ c, c ∈ r_conflicts (consolidate messages options) ∧ topic c = t).
Proof.
  intros Hmerge os.
  destruct (report_groups messages options Hmerge) as (gs & at_ & [Hat Hok Hall] & _ & HC). split.
  - intros c Hc Ht. apply HC in Hc as (n & (g & Hg & Hin)%list_elem_of_fmap).
    apply list_elem_of_lookup in Hin as [j Hj]. destruct (Hok j g Hj) as (Hocc & _ & Hsum).
    unfold conflict_of in Hg. destruct (first_detection g) as [n'|] eqn:Hd; [|done].
    injection Hg as -> ->. simpl in Ht. rewrite Ht in Hocc. fold os in Hocc. cbn [positions].
    split; [by rewrite Hocc|]. pose proof (summary_sources (occurrences g)) as Hs. rewrite <-Hsum in Hs.
    destruct Hs as (_ & _ & Hdet). rewrite <-Hocc. apply Hdet. unfold detected. by rewrite Hd.
  - intros Hcons (o1 & o2 & Ho1 & Ho2 & Hdis).
    assert (o1 ∈ all_occurrences messages ∧ normalized_of o1 = t) as [Hin1 Hn1].
    { apply list_elem_of_In, filter_In in Ho1 as [? ?%str_eqb_eq]. by rewrite list_elem_of_In. }
    destruct (Hall o1 Hin1) as [j Hj]. apply Hat in Hj as (g & Hg & Hn). rewrite Hn1 in Hn.
    destruct (Hok j g Hg) as (Hocc & _ & Hsum). rewrite Hn in Hocc. fold os in Hocc.
    rewrite Hocc in Hsum.
    pose proof (summary_complete os o1 o2 Hcons Ho1 Ho2 Hdis) as Hdet. rewrite <-Hsum in Hdet.
    simpl in Hdet. unfold detected in Hdet. destruct (first_detection g) as [n|] eqn:Hd; [|done].
    exists (mkConflict (g_normalized g) (map position_of (occurrences g))). split; [|done].
    apply HC. exists n. apply list_elem_of_fmap. exists g. unfold conflict_of. rewrite Hd.
    split; [done|]. by eapply list_elem_of_lookup_2.
Qed.

(** ** Evidence and dependencies *)

(** Keep the first of each key, in order. *)
Definition dedup_step {A K} `{Countable K} (key : A → K) (s : list A * gset K) (a : A) : list A * gset K :=
  if bool_decide (key a ∈ s.2) then s else (s.1 ++ [a], {[key a]} ∪ s.2).

Lemma dedup_fold {A K} `{Countable K} (key : A → K) (l : list A) :
  let s := List.fold_left (dedup_step key) l ([], ∅) in
  NoDup (map key s.1) ∧ (∀ a, a ∈ s.1 → a ∈ l) ∧ (∀ a, a ∈ l → key a ∈ map key s.1)
  ∧ s.2 = list_to_set (map key s.1).
Proof.
  induction l as [|a l IH] using rev_ind.
  { split_and!; [constructor|by intros a ?%elem_of_nil..|done]. }
  rewrite fold_left_app. cbn [List.fold_left]. set (s := List.fold_left _ l _) in *.
  destruct IH as (Hnd & Hsub & Hall & Hset). unfold dedup_step at 1 2 3 4 5.
  case_bool_decide as Hin; cbn [fst snd].
  - rewrite Hset, elem_of_list_to_set in Hin. split_and!; try done.
    + intros x Hx. apply elem_of_app. left. by apply Hsub.
    + intros x [Hx| ->%list_elem_of_singleton]%elem_of_app; [by apply Hall|done].
  - rewrite Hset, elem_of_list_to_set in Hin. rewrite map_app. split_and!.
    + apply NoDup_app. split; [done|]. split; [|apply NoDup_singleton].
      intros x Hx ->%list_elem_of_singleton. done.
    + intros x [Hx| ->%list_elem_of_singleton]%elem_of_app; apply elem_of_app;
        [left; by apply Hsub|right; by apply list_elem_of_singleton].
    + intros x [Hx| ->%list_elem_of_singleton]%elem_of_app; apply elem_of_app;
        [left; by apply Hall|right; by apply list_elem_of_singleton].
    + rewrite Hset, list_to_set_app_L. simpl. by rewrite (right_id_L ∅ (∪)), (comm_L (∪)).
Qed.

Definition evidence_part (a : Acc) : list EvidenceRef * gset EvidenceIdentity :=
  (a_evidence a, evidence_seen a).
Definition dependency_part (a : Acc) : list str * gset str := (a_dependencies a, seen_dependencies a).

Lemma evidence_message options a im :
  evidence_part (add_message options a im)
  = List.fold_left (dedup_step (identity (evidence_key options))) (evidence im.2) (evidence_part a).
Proof.
  destruct im as [i m]. unfold add_message. cbn [snd].
  rewrite (fold_keep (add_finding _ _ _)) by (intros; by apply (add_finding_keep evidence_part)).
  rewrite (fold_keep add_dependency) by (intros; by apply (add_dependency_keep evidence_part)).
  rewrite (fold_simulates _ (dedup_step (identity (evidence_key options))) evidence_part id), map_id; [done|].
  intros a' e. unfold add_evidence_item, evidence_part, dedup_step, id. cbn [fst snd]. by case_bool_decide.
Qed.

Lemma dependency_message options a im :
  dependency_part (add_message options a im)
  = List.fold_left (dedup_step id) (dependencies im.2) (dependency_part a).
Proof.
  destruct im as [i m]. unfold add_message. cbn [snd].
  rewrite (fold_keep (add_finding _ _ _)) by (intros; by apply (add_finding_keep dependency_part)).
  rewrite (fold_simulates _ (dedup_step id) dependency_part id), map_id.
  2:{ intros a' d. unfold add_dependency, dependency_part, dedup_step, id. cbn [fst snd]. by case_bool_decide. }
  by rewrite (fold_keep (add_evidence_item _)) by (intros; by apply (add_evidence_keep dependency_part)).
Qed.

Lemma enumerate_snd {A} (l : list A) : map snd (enumerate l) = l.
Proof. unfold enumerate. apply snd_zip. rewrite length_map, length_seq. lia. Qed.

Lemma part_all {C B} (proj : Acc → C) (step : C → B → C) (part : AgentCommMessage → list B) options messages :
  (∀ a im, proj (add_message options a im) = List.fold_left step (part im.2) (proj a)) →
  proj (List.fold_left (add_message options) (enumerate messages) empty_acc)
  = List.fold_left step (concat (map part messages)) (proj empty_acc).
Proof.
  intros H. rewrite <-fold_concat. rewrite <-(enumerate_snd messages) at 2. generalize empty_acc.
  induction (enumerate messages) as [|im l IH]; intros a; simpl; [done|]. by rewrite IH, H.
Qed.

Lemma elem_concat {A B} (f : A → list B) l b : b ∈ concat (map f l) ↔ ∃ a, a ∈ l ∧ b ∈ f a.
Proof.
  rewrite list_elem_of_In, in_concat. setoid_rewrite list_elem_of_In. split.
  - intros (x & (a & <- & Ha)%in_map_iff & Hb). by exists a.
  - intros (a & Ha & Hb). exists (f a). split; [by apply in_map|done].
Qed.

(** Evidence and dependencies are deduplicated without loss: the report's
    evidence has pairwise distinct identities, comes from the messages, and has a
    representative of the identity of every evidence of every message; likewise
    for the dependencies. *)
Theorem consolidate_evidence messages options :
  let r := consolidate messages options in
  let identity := identity (evidence_key options) in
  NoDup (map identity (r_evidence r))
  ∧ (∀ e, e ∈ r_evidence r → ∃ m, m ∈ messages ∧ e ∈ evidence m)
  ∧ (∀ m e, m ∈ messages → e ∈ evidence m → ∃ e', e' ∈ r_evidence r ∧ identity e' = identity e)
  ∧ NoDup (r_dependencies r)
  ∧ (∀ d, d ∈ r_dependencies r ↔ ∃ m, m ∈ messages ∧ d ∈ dependencies m).
Proof.
  cbv zeta. unfold consolidate. destruct (if merge_same_statement options then _ else _) as [fs ds].
  cbn [r_evidence r_dependencies]. set (a := List.fold_left _ _ _).
  pose proof (part_all evidence_part _ evidence options messages (evidence_message options)) as He.
  pose proof (part_all dependency_part _ dependencies options messages (dependency_message options)) as Hd.
  fold a in He, Hd. change (evidence_part empty_acc) with (@nil EvidenceRef, ∅ : gset EvidenceIdentity) in He.
  change (dependency_part empty_acc) with (@nil str, ∅ : gset str) in Hd.
  pose proof (dedup_fold (identity (evidence_key options)) (concat (map evidence messages))) as De.
  pose proof (dedup_fold id (concat (map dependencies messages))) as Dd. cbv zeta in De, Dd.
  rewrite <-He in De. rewrite <-Hd in Dd. destruct De as (E1 & E2 & E3 & _), Dd as (D1 & D2 & D3 & _).
  cbn [evidence_part dependency_part fst snd] in *. rewrite map_id in D1, D3.
  split_and!; try done.
  - intros e Hin. by apply elem_concat, E2.
  - intros m e Hm Hin. assert (e ∈ concat (map evidence messages)) as Hc by (apply elem_concat; eauto).
    apply E3, list_elem_of_fmap in Hc as (e' & ? & ?). eauto.
  - intros d. rewrite <-elem_concat. split; [apply D2|apply D3].
Qed.

(** ** Uncertainties *)

Definition uncertain (m : AgentCommMessage) (f : Finding) : bool :=
  is_uncertain f (finding_verification_status m f).

Definition message_uncertainties (m : AgentCommMessage) : list str :=
  map (uncertainty m) (List.filter (uncertain m) (findings m)).

Lemma uncertainties_message options a im :
  a_uncertainties (add_message options a im) = a_uncertainties a ++ message_uncertainties im.2.
Proof.
  destruct im as [i m]. unfold add_message, message_uncertainties. cbn [snd].
  assert (∀ fs a', a_uncertainties (List.fold_left (add_finding (merge_same_statement options) m
                     (message_label m i)) fs a')
                   = a_uncertainties a' ++ map (uncertainty m) (List.filter (uncertain m) fs)) as H.
  { intros fs. induction fs as [|f fs IH]; intros a'; simpl; [by rewrite app_nil_r|]. rewrite IH.
    assert (a_uncertainties (add_finding (merge_same_statement options) m (message_label m i) a' f)
            = if uncertain m f then a_uncertainties a' ++ [uncertainty m f] else a_uncertainties a') as ->.
    { unfold add_finding, uncertain. cbn [occurrence_of o_status].
      destruct (merge_same_statement options); cbn [negb]; [|done].
      by destruct (group_occurrence _ _ _ _). }
    destruct (uncertain m f); [by rewrite <-app_assoc|done]. }
  rewrite H. f_equal.
  rewrite (fold_keep add_dependency) by (intros; by apply (add_dependency_keep a_uncertainties)).
  by rewrite (fold_keep (add_evidence_item _)) by (intros; by apply (add_evidence_keep a_uncertainties)).
Qed.

(** Merging hides no uncertainty: whatever the options, the report lists one
    line for every finding occurrence that is below one half in confidence or
    whose verification is unknown, in input order. *)
Theorem consolidate_uncertainties messages options :
  r_uncertainties (consolidate messages options) = concat (map message_uncertainties messages).
Proof.
  unfold consolidate. destruct (if merge_same_statement options then _ else _) as [fs ds].
  cbn [r_uncertainties].
  assert (∀ l a, a_uncertainties (List.fold_left (add_message options) l a)
                 = a_uncertainties a ++ concat (map (λ im, message_uncertainties im.2) l)) as H.
  { intros l. induction l as [|im l IH]; intros a; simpl; [by rewrite app_nil_r|].
    by rewrite IH, uncertainties_message, <-app_assoc. }
  rewrite H. cbn [a_uncertainties empty_acc app].
  by rewrite <-(map_map snd message_uncertainties), enumerate_snd.
Qed.

(** ** Concrete batches *)

Definition batch_message (id : str) (es : list EvidenceRef) (refs : list str) (stmt : str) : AgentCommMessage :=
  mkMessage (Some id) (lit "t") None None None None KIND_RESULT STATUS_DONE
    [mkFinding (lit "F1") stmt None refs] es [] None [] [] None AGENT_COMM_PROTOCOL None None.

Definition digest_evidence (id dg : str) : EvidenceRef :=
  mkEvidence id (lit "src") (lit "a.rs") None (Some dg) None None.

Definition default_options : ConsolidationOptions := mkOptions true LocatorAndDigest.

(** The same statement, up to case and spaces, with two digests of one file. *)
Definition conflicting_batch : list AgentCommMessage :=
  [batch_message (lit "m1") [digest_evidence (lit "E1") (lit "d1")] [lit "E1"] (lit "The  Lock leaks");
   batch_message (lit "m2") [digest_evidence (lit "E1") (lit "d2")] [lit "E1"] (lit "the lock leaks ")].

Lemma consolidate_keeps_findings_witness :
  ∃ c, c ∈ r_conflicts (consolidate conflicting_batch default_options)
       ∧ topic c = lit "the lock leaks"
       ∧ mkPosition (lit "the lock leaks ") (lit "m2") [lit "E1"] ∈ positions c.
Proof.
  destruct (consolidate_keeps_findings conflicting_batch default_options 1
     (batch_message (lit "m2") [digest_evidence (lit "E1") (lit "d2")] [lit "E1"] (lit "the lock leaks "))
     (mkFinding (lit "F1") (lit "the lock leaks ") None [lit "E1"])) as [(cf & Hcf & _)|H].
  - reflexivity.
  - left.
  - exfalso. vm_compute in Hcf. by apply elem_of_nil in Hcf.
  - exact H.
Defined.

Lemma consolidate_conflicts_witness :
  ∃ c, c ∈ r_conflicts (consolidate conflicting_batch default_options) ∧ topic c = lit "the lock leaks".
Proof.
  apply (consolidate_conflicts conflicting_batch default_options (lit "the lock leaks") eq_refl).
  - apply Forall_forall. intros o Ho e1 e2 H1 H2 _. vm_compute in Ho.
    repeat (apply elem_of_cons in Ho as [->|Ho];
      [simpl in H1, H2; apply list_elem_of_singleton in H1, H2; by subst|]).
    by apply elem_of_nil in Ho.
  - eexists _, _. split; [left|]. split; [right; left|]. right.
    eexists _, _. split; [left|]. split; [left|]. split; [done|]. intros [H _]. discriminate H.
Defined.

(** The first finding cites one file with two digests, the second one of them. *)
Definition masked_batch : list AgentCommMessage :=
  [batch_message (lit "m1")
     [digest_evidence (lit "E1") (lit "d1"); digest_evidence (lit "E2") (lit "d2")]
     [lit "E1"; lit "E2"] (lit "x");
   batch_message (lit "m2") [digest_evidence (lit "E1") (lit "d1")] [lit "E1"] (lit "x")].

(** A masked disagreement: the accumulated union keeps only the first facts
    of an evidence, so when one finding cites a file with two digests, a later
    finding that disagrees with the second digest is merged without a conflict,
    although their evidence sets disagree. *)
Theorem consolidate_masks_disagreement :
  r_conflicts (consolidate masked_batch default_options) = []
  ∧ ∃ o1 o2, o1 ∈ all_occurrences masked_batch ∧ o2 ∈ all_occurrences masked_batch
             ∧ normalized_of o1 = normalized_of o2 ∧ disagree o1 o2.
Proof.
  split; [vm_compute; reflexivity|].
  eexists _, _. split; [left|]. split; [right; left|]. split; [done|]. right.
  eexists _, _. split; [right; left|]. split; [left|]. split; [done|]. intros [H _]. discriminate H.
Qed.
