(* ===== verification/Prune.v ===== *)
(** * Redundant-message suppression

    [core/occ/prune.rs]: the [Pruner], which classifies outgoing messages against
    the history of delivered ones.  SHA-256 (the [sha2] crate) is a parameter of
    the digests.  The sets and maps the code builds from the history on each call
    are the lists they are built from, queried for membership. *)
From stdpp Require Import base list numbers strings.
From S2P Require Import Prelude RustStr RustFloat Occ1 Fields Contract Consolidation.

Local Open Scope N_scope.

(** ** Data *)

Record PrunePolicy : Type := mkPolicy {
  suppress_duplicate_findings : bool;
  suppress_unchanged_progress : bool;
  suppress_repeated_evidence : bool;
  max_history : N }.

Definition default_policy : PrunePolicy := mkPolicy true true true 64.

Inductive PruneReason : Type := DuplicateFindings | UnchangedProgress | RepeatedEvidence.

Inductive PruneDecision : Type :=
| Deliver
| Suppress (reason : PruneReason).

Record DeliveryRecord : Type := mkRecord {
  dr_message_id : option str;
  dr_task_id : str;
  dr_kind : str;
  dr_status : str;
  dr_sequence : option N;
  finding_digests : list str;
  evidence_digests : list str;
  dr_verification : option Verification }.

Record HistoryEntry : Type := mkEntry {
  record_of : DeliveryRecord;
  finding_statuses : list (str * option str) }.

Record Pruner : Type := mkPruner {
  policy : PrunePolicy;
  history : list HistoryEntry }.

(** ** Operations *)

Definition new (p : PrunePolicy) : Pruner := mkPruner p [].

Definition dedup_in_order (items : list str) : list str :=
  List.fold_left (λ out item, if one_of item out then out else out ++ [item]) items [].

Definition history_records (p : Pruner) : list DeliveryRecord := map record_of (history p).

(** The entries of a task, oldest first. *)
Definition task_entries (p : Pruner) (task : str) : list HistoryEntry :=
  List.filter (λ e, str_eqb (dr_task_id (record_of e)) task) (history p).

Definition seen_finding_digests (p : Pruner) (task : str) : list str :=
  concat (map (λ e, finding_digests (record_of e)) (task_entries p task)).

Definition seen_evidence_digests (p : Pruner) (task : str) : list str :=
  concat (map (λ e, evidence_digests (record_of e)) (task_entries p task)).

Definition seen_task_ids (p : Pruner) : list str := map (λ e, dr_task_id (record_of e)) (history p).

Definition last_delivered (p : Pruner) (task : str) : option DeliveryRecord :=
  record_of <$> List.find (λ e, str_eqb (dr_task_id (record_of e)) task) (rev (history p)).

(** The statuses recorded for a statement of a task. *)
Definition statement_statuses (p : Pruner) (task statement : str) : list (option str) :=
  map snd (List.filter (λ sp, str_eqb sp.1 statement)
             (concat (map finding_statuses (task_entries p task)))).

Definition verification_changed (p : Pruner) (m : AgentCommMessage) (record : Verification) : bool :=
  match last_delivered p (task_id m) with
  | Some last =>
      match dr_verification last with
      | Some previous =>
          negb (str_eqb (normalized_statement (claim previous)) (normalized_statement (claim record)))
          || negb (str_eqb (v_status previous) (v_status record))
          || negb (str_eqb (method previous) (method record))
          || bool_decide (receipt previous ≠ receipt record)
      | None => true
      end
  | None => true
  end.

Definition contradicts (p : Pruner) (m : AgentCommMessage) (f : Finding) : bool :=
  existsb (λ recorded, bool_decide (recorded ≠ finding_verification_status m f))
    (statement_statuses p (task_id m) (normalized_statement (statement f))).

Definition must_deliver (p : Pruner) (m : AgentCommMessage) : bool :=
  if one_of (kind m) [KIND_BLOCKED; KIND_CANCELLED; KIND_CORRECTION; KIND_ACK] then true
  else if str_eqb (status m) STATUS_FAILED then true
  else if negb (is_empty (next_actions m)) || negb (is_empty (artifacts m)) then true
  else if match verification m with Some r => verification_changed p m r | None => false end then true
  else if match verification m with Some r => str_eqb (v_status r) VERIFICATION_FAIL | None => false end
  then true
  else if existsb (contradicts p m) (findings m) then true
  else if existsb (λ d, negb (one_of d (seen_task_ids p))) (dependencies m) then true
  else negb (one_of (task_id m) (seen_task_ids p)).

Section Digests.
(** The hexadecimal SHA-256 of the UTF-8 bytes of a string. *)
Context (sha256_hex : str → str).

Definition finding_digest (statement : str) : str := sha256_hex (normalized_statement statement).

Definition evidence_digest (e : EvidenceRef) : str :=
  sha256_hex (ev_kind e ++ [0] ++ locator e ++ [0] ++ unwrap_or (digest e) []).

Definition entry_of (m : AgentCommMessage) : HistoryEntry :=
  mkEntry
    (mkRecord (message_id m) (task_id m) (kind m) (status m) (sequence m)
       (dedup_in_order (map (λ f, finding_digest (statement f)) (findings m)))
       (dedup_in_order (map evidence_digest (evidence m))) (verification m))
    (map (λ f, (normalized_statement (statement f), finding_verification_status m f)) (findings m)).

Definition record (p : Pruner) (m : AgentCommMessage) : Pruner :=
  let h := history p ++ [entry_of m] in
  let cap := max_history (policy p) in
  mkPruner (policy p) (if cap <? len h then drop (N.to_nat (len h - cap)) h else h).

Definition classify (p : Pruner) (m : AgentCommMessage) : Pruner * PruneDecision :=
  if must_deliver p m then (record p m, Deliver)
  else
    let fds := map (λ f, finding_digest (statement f)) (findings m) in
    let eds := map evidence_digest (evidence m) in
    let findings_all_seen := forallb (λ d, one_of d (seen_finding_digests p (task_id m))) fds in
    let no_new_evidence := forallb (λ d, one_of d (seen_evidence_digests p (task_id m))) eds in
    if str_eqb (kind m) KIND_PROGRESS && suppress_unchanged_progress (policy p)
       && (findings_all_seen && no_new_evidence
           && match last_delivered p (task_id m) with
              | Some r => str_eqb (dr_status r) (status m)
              | None => false
              end)
    then (p, Suppress UnchangedProgress)
    else if str_eqb (kind m) KIND_RESULT && suppress_duplicate_findings (policy p)
            && (findings_all_seen && no_new_evidence)
    then (p, Suppress DuplicateFindings)
    else if str_eqb (kind m) KIND_EVIDENCE && suppress_repeated_evidence (policy p) && no_new_evidence
    then (p, Suppress RepeatedEvidence)
    else (record p m, Deliver).

(** A run of the pruner, with the messages it delivered. *)
Fixpoint run (p : Pruner) (ms : list AgentCommMessage) : Pruner * list AgentCommMessage :=
  match ms with
  | [] => (p, [])
  | m :: ms' =>
      let (p1, decision) := classify p m in
      let (p2, rest) := run p1 ms' in
      (p2, match decision with Deliver => m :: rest | Suppress _ => rest end)
  end.

End Digests.

(** ** Delivery is the default *)

Lemma if_true_false (b c : bool) : (if b then true else c) = false ↔ b = false ∧ c = false.
Proof. destruct b; split; try done; by intros [? ?]. Qed.

Lemma existsb_false {A} (f : A → bool) l : existsb f l = false ↔ ∀ a, a ∈ l → f a = false.
Proof.
  rewrite <-not_true_iff_false, existsb_exists. setoid_rewrite list_elem_of_In. split.
  - intros H a Ha. apply not_true_iff_false. intros Hf. apply H. eauto.
  - intros H (a & Ha & Hf). rewrite (H a Ha) in Hf. done.
Qed.

Lemma is_empty_nil {A} (l : list A) : negb (is_empty l) = false ↔ l = [].
Proof. by destruct l. Qed.

(** The verification record of a message repeats the last one delivered. *)
Definition repeats_verification (p : Pruner) (m : AgentCommMessage) (v : Verification) : Prop :=
  ∃ last previous,
    last_delivered p (task_id m) = Some last ∧ dr_verification last = Some previous
    ∧ normalized_statement (claim previous) = normalized_statement (claim v)
    ∧ v_status previous = v_status v ∧ method previous = method v ∧ receipt previous = receipt v.

(** The messages the heuristics may look at. *)
Definition suppressible (p : Pruner) (m : AgentCommMessage) : Prop :=
  kind m ∉ [KIND_BLOCKED; KIND_CANCELLED; KIND_CORRECTION; KIND_ACK]
  ∧ status m ≠ STATUS_FAILED ∧ next_actions m = [] ∧ artifacts m = []
  ∧ (∀ v, verification m = Some v → v_status v ≠ VERIFICATION_FAIL ∧ repeats_verification p m v)
  ∧ (∀ f s, f ∈ findings m →
       s ∈ statement_statuses p (task_id m) (normalized_statement (statement f)) →
       s = finding_verification_status m f)
  ∧ (∀ d, d ∈ dependencies m → d ∈ seen_task_ids p)
  ∧ task_id m ∈ seen_task_ids p.

Lemma verification_changed_false p m v :
  verification_changed p m v = false ↔ repeats_verification p m v.
Proof.
  unfold verification_changed, repeats_verification. split.
  - destruct (last_delivered p (task_id m)) as [last|]; [|done].
    destruct (dr_verification last) as [prev|] eqn:Hp; [|done].
    rewrite !orb_false_iff, !negb_false_iff, !str_eqb_eq, bool_decide_eq_false.
    intros (((H1 & H2) & H3) & H4). exists last, prev. split_and!; try done. by apply dec_stable.
  - intros (last & prev & -> & -> & H1 & H2 & H3 & H4).
    rewrite !orb_false_iff, !negb_false_iff, !str_eqb_eq, bool_decide_eq_false.
    split_and!; try done. intros Hn. by apply Hn.
Qed.

Lemma contradicts_false p m f :
  contradicts p m f = false ↔
  ∀ s, s ∈ statement_statuses p (task_id m) (normalized_statement (statement f)) →
       s = finding_verification_status m f.
Proof.
  unfold contradicts. rewrite existsb_false. split.
  - intros H s Hs. specialize (H s Hs). apply bool_decide_eq_false in H. by apply dec_stable.
  - intros H s Hs. apply bool_decide_eq_false. intros Hn. by apply Hn, H.
Qed.

Lemma must_deliver_false p m : must_deliver p m = false ↔ suppressible p m.
Proof.
  unfold must_deliver, suppressible.
  rewrite !if_true_false, orb_false_iff, !is_empty_nil, one_of_not_elem, str_eqb_neq, !existsb_false,
    negb_false_iff, one_of_elem.
  split.
  - intros (Hk & Hs & (Hn & Ha) & Hv & Hf & Hc & Hd & Ht). split_and!; try done.
    + intros v Hm. rewrite Hm in Hv, Hf. split; [by apply str_eqb_neq|by apply verification_changed_false].
    + intros f s Hf' Hs'. by apply (proj1 (contradicts_false p m f) (Hc f Hf')).
    + intros d Hd'. specialize (Hd d Hd'). by apply negb_false_iff, one_of_elem in Hd.
  - intros (Hk & Hs & Hn & Ha & Hv & Hc & Hd & Ht). split_and!; try done.
    + destruct (verification m) as [v|]; [|done]. by apply verification_changed_false, Hv.
    + destruct (verification m) as [v|]; [|done]. by apply str_eqb_neq, Hv.
    + intros f Hf. apply contradicts_false. intros s. by apply Hc.
    + intros d Hd'. apply negb_false_iff, one_of_elem. by apply Hd.
Qed.

Section Suppression.
Context (sha256_hex : str → str).
Abbreviation classify := (classify sha256_hex).
Abbreviation run := (run sha256_hex).

Lemma classify_inv p m p' reason :
  classify p m = (p', Suppress reason) →
  p' = p ∧ must_deliver p m = false
  ∧ forallb (λ d, one_of d (seen_evidence_digests p (task_id m))) (map (evidence_digest sha256_hex) (evidence m)) = true
  ∧ match reason with
    | UnchangedProgress => kind m = KIND_PROGRESS
    | DuplicateFindings => kind m = KIND_RESULT
    | RepeatedEvidence => kind m = KIND_EVIDENCE
    end
  ∧ (reason ≠ RepeatedEvidence →
     forallb (λ d, one_of d (seen_finding_digests p (task_id m)))
       (map (λ f, finding_digest sha256_hex (statement f)) (findings m)) = true).
Proof.
  unfold Prune.classify. destruct (must_deliver p m); [done|].
  destruct (_ && _ && _) eqn:H1.
  { intros [= <- <-]. rewrite !andb_true_iff in H1. destruct H1 as ((Hk & _) & ((Hf & He) & _)).
    apply str_eqb_eq in Hk. done. }
  destruct (str_eqb (kind m) KIND_RESULT && _ && _) eqn:H2.
  { intros [= <- <-]. rewrite !andb_true_iff in H2. destruct H2 as ((Hk & _) & (Hf & He)).
    apply str_eqb_eq in Hk. done. }
  destruct (str_eqb (kind m) KIND_EVIDENCE && _ && _) eqn:H3; [|done].
  intros [= <- <-]. rewrite !andb_true_iff in H3. destruct H3 as ((Hk & _) & He).
  apply str_eqb_eq in Hk. done.
Qed.

(** Suppression is safe: a suppressed message leaves the pruner as it was, and
    is none of what must always be delivered: no blocking, cancelling, correcting
    or acknowledging kind, no failure, no next action or artifact, no failed or
    changed verification, no finding whose status contradicts a delivered one,
    no dependency on an undelivered task and not the first of its task. *)
Theorem suppress_safe p m p' reason :
  classify p m = (p', Suppress reason) → p' = p ∧ suppressible p m.
Proof. intros (-> & Hm & _)%classify_inv. split; [done|]. by apply must_deliver_false. Qed.

(** ** The history *)

Lemma record_history p m (del : list HistoryEntry) :
  let cap := N.to_nat (max_history (policy p)) in
  history p = drop (length del - cap) del →
  history (record sha256_hex p m)
  = drop (length (del ++ [entry_of sha256_hex m]) - cap) (del ++ [entry_of sha256_hex m]).
Proof.
  intros cap Hh. unfold record. cbn [history]. rewrite Hh, length_app. simpl.
  set (e := entry_of sha256_hex m).
  assert (drop (length del - cap) del ++ [e] = drop (length del - cap) (del ++ [e])) as ->
    by (by rewrite drop_app_le by lia).
  unfold len. rewrite length_drop, length_app. simpl.
  destruct (N.ltb_spec (max_history (policy p)) (N.of_nat (length del + 1 - (length del - cap)))).
  - rewrite drop_drop. f_equal. unfold cap in *. lia.
  - f_equal. unfold cap in *. lia.
Qed.

Lemma classify_history p m p' d (del : list AgentCommMessage) :
  let cap := N.to_nat (max_history (policy p)) in
  history p = drop (length del - cap) (map (entry_of sha256_hex) del) → classify p m = (p', d) →
  policy p' = policy p
  ∧ history p' = let del' := match d with Deliver => del ++ [m] | Suppress _ => del end in
                 drop (length del' - cap) (map (entry_of sha256_hex) del').
Proof.
  intros cap Hh Hc. assert (d = Deliver → p' = record sha256_hex p m) as Hdel.
  { intros ->. unfold Prune.classify in Hc. destruct (must_deliver p m); [by injection Hc|].
    destruct (_ && _ && _); [done|]. destruct (_ && _ && _); [done|].
    destruct (_ && _ && _); [done|]. by injection Hc. }
  destruct d as [|reason].
  - rewrite (Hdel eq_refl). split; [done|]. cbv zeta. rewrite map_app. cbn [map].
    rewrite (record_history p m (map (entry_of sha256_hex) del)); [|by rewrite length_map].
    by rewrite !length_app, length_map.
  - apply classify_inv in Hc as (-> & _). by split.
Qed.

Lemma run_history p ms p' out (del : list AgentCommMessage) :
  let cap := N.to_nat (max_history (policy p)) in
  history p = drop (length del - cap) (map (entry_of sha256_hex) del) → run p ms = (p', out) →
  policy p' = policy p
  ∧ history p' = drop (length (del ++ out) - cap) (map (entry_of sha256_hex) (del ++ out)).
Proof.
  revert p p' out del. induction ms as [|m ms IH]; intros p p' out del cap Hh; cbn [Prune.run].
  { intros [= <- <-]. by rewrite app_nil_r. }
  destruct (classify p m) as [p1 d] eqn:Hc. destruct (run p1 ms) as [p2 rest] eqn:Hr.
  intros [= <- <-]. destruct (classify_history p m p1 d del Hh Hc) as [Hpol Hh1].
  destruct d as [|reason].
  - destruct (IH p1 p2 rest (del ++ [m])) as [Hpol2 Hh2]; [by rewrite Hpol|done|].
    rewrite Hpol in Hpol2, Hh2. split; [done|]. by rewrite Hh2, <-app_assoc.
  - destruct (IH p1 p2 rest del) as [Hpol2 Hh2]; [by rewrite Hpol|done|].
    by rewrite Hpol in Hpol2, Hh2.
Qed.

(** Refinement: over any run, the pruner's history is exactly the records of
    the most recently delivered messages, at most [max_history] of them, oldest
    first; suppressed messages leave no trace. *)
Theorem history_recent_deliveries pol ms p del :
  run (new pol) ms = (p, del) →
  policy p = pol
  ∧ history p = drop (length del - N.to_nat (max_history pol)) (map (entry_of sha256_hex) del)
  ∧ len (history p) ≤ max_history pol.
Proof.
  intros Hr. destruct (run_history (new pol) ms p del [] eq_refl Hr) as [Hpol Hh].
  split; [done|]. split; [done|]. rewrite Hh. unfold len. cbn [app policy new].
  rewrite length_drop, length_map. lia.
Qed.

End Suppression.

(** ** What was suppressed had been delivered *)

Definition evidence_content (e : EvidenceRef) : str :=
  ev_kind e ++ [0] ++ locator e ++ [0] ++ unwrap_or (digest e) [].

Lemma dedup_in_order_elem items x : x ∈ dedup_in_order items ↔ x ∈ items.
Proof.
  unfold dedup_in_order. induction items as [|i items IH] using rev_ind; [done|].
  rewrite fold_left_app, elem_of_app, <-IH, list_elem_of_singleton. cbn [List.fold_left].
  set (out := List.fold_left _ items []). destruct (one_of i out) eqn:Hi.
  - split; [by left|]. intros [H| ->]; [done|by apply one_of_elem].
  - by rewrite elem_of_app, list_elem_of_singleton.
Qed.

Section Covered.
Context (sha256_hex : str → str).

(** A digest seen for a task is the digest of something in a delivered message of
    that task. *)
Lemma seen_from_delivered (field : DeliveryRecord → list str) (digests : AgentCommMessage → list str)
    p (del : list AgentCommMessage) k task x :
  (∀ m, field (record_of (entry_of sha256_hex m)) = dedup_in_order (digests m)) →
  history p = drop k (map (entry_of sha256_hex) del) →
  x ∈ concat (map (λ e, field (record_of e)) (task_entries p task)) →
  ∃ m', m' ∈ del ∧ task_id m' = task ∧ x ∈ digests m'.
Proof.
  intros Hfield Hh (e & He & Hx)%elem_concat. unfold task_entries in He.
  apply list_elem_of_In, filter_In in He as [He Ht]. rewrite <-list_elem_of_In, Hh in He.
  apply str_eqb_eq in Ht.
  assert (e ∈ map (entry_of sha256_hex) del) as (m' & -> & Hm')%list_elem_of_fmap.
  { apply list_elem_of_lookup in He as [i Hi]. rewrite lookup_drop in Hi. by eapply list_elem_of_lookup_2. }
  exists m'. rewrite Hfield, dedup_in_order_elem in Hx. done.
Qed.

Lemma all_seen_elem (ds seen : list str) x :
  forallb (λ d, one_of d seen) ds = true → x ∈ ds → x ∈ seen.
Proof. rewrite forallb_forall. intros H Hx%list_elem_of_In. by apply one_of_elem, H. Qed.

(** Nothing new is dropped: when the digest tells contents apart, every
    evidence of a suppressed message occurs, with the same kind, locator and
    digest, in a message of the same task that was delivered; and unless the
    message was an evidence message, so does every finding, with the same
    normalized statement. *)
Theorem suppress_covered pol ms p del m p' reason :
  (∀ x y, sha256_hex x = sha256_hex y → x = y) →
  run sha256_hex (new pol) ms = (p, del) → classify sha256_hex p m = (p', Suppress reason) →
  (∀ e, e ∈ evidence m →
     ∃ m' e', m' ∈ del ∧ task_id m' = task_id m ∧ e' ∈ evidence m'
              ∧ evidence_content e' = evidence_content e)
  ∧ (reason ≠ RepeatedEvidence → ∀ f, f ∈ findings m →
     ∃ m' f', m' ∈ del ∧ task_id m' = task_id m ∧ f' ∈ findings m'
              ∧ normalized_statement (statement f') = normalized_statement (statement f)).
Proof.
  intros Hinj Hrun (_ & _ & He & _ & Hf)%classify_inv.
  destruct (run_history sha256_hex (new pol) ms p del [] eq_refl Hrun) as [_ Hh]. cbn [app] in Hh.
  split.
  - intros e Hin. assert (evidence_digest sha256_hex e ∈ seen_evidence_digests p (task_id m)) as Hs.
    { eapply all_seen_elem; [exact He|]. apply list_elem_of_fmap. eauto. }
    apply (seen_from_delivered evidence_digests (λ m, map (evidence_digest sha256_hex) (evidence m))
             p del _ _ _ (λ _, eq_refl) Hh) in Hs as (m' & Hm' & Ht & Hx).
    apply list_elem_of_fmap in Hx as (e' & Heq & He'). exists m', e'. split_and!; try done.
    symmetry. by apply Hinj.
  - intros Hr f Hin.
    assert (finding_digest sha256_hex (statement f) ∈ seen_finding_digests p (task_id m)) as Hs.
    { eapply all_seen_elem; [by apply Hf|]. apply list_elem_of_fmap. eauto. }
    apply (seen_from_delivered finding_digests
             (λ m, map (λ f, finding_digest sha256_hex (statement f)) (findings m))
             p del _ _ _ (λ _, eq_refl) Hh) in Hs as (m' & Hm' & Ht & Hx).
    apply list_elem_of_fmap in Hx as (f' & Heq & Hf'). exists m', f'. split_and!; try done.
    symmetry. by apply Hinj.
Qed.

(** *** Repeats *)

(** A message that asks for nothing and depends on nothing but its own task. *)
Definition plain_report (m : AgentCommMessage) : Prop :=
  kind m ∉ [KIND_BLOCKED; KIND_CANCELLED; KIND_CORRECTION; KIND_ACK]
  ∧ status m ≠ STATUS_FAILED ∧ next_actions m = [] ∧ artifacts m = []
  ∧ (∀ v, verification m = Some v → v_status v ≠ VERIFICATION_FAIL)
  ∧ (∀ d, d ∈ dependencies m → d = task_id m).

Lemma record_new pol m :
  1 ≤ max_history pol → record sha256_hex (new pol) m = mkPruner pol [entry_of sha256_hex m].
Proof.
  intros Hc. unfold record. cbn [history new policy app]. change (len [entry_of sha256_hex m]) with 1.
  destruct (N.ltb_spec (max_history pol) 1); [lia|done].
Qed.

Definition with_findings (m : AgentCommMessage) (fs : list Finding) : AgentCommMessage :=
  mkMessage (message_id m) (task_id m) (parent_task_id m) (trace_id m) (sender_identity m)
    (recipient_identity m) (kind m) (status m) fs (evidence m) (artifacts m) (verification m)
    (dependencies m) (next_actions m) (sequence m) (protocol m) (timestamp m) (expiry m).

Lemma with_same_findings m : with_findings m (findings m) = m.
Proof. by destruct m. Qed.

Lemma status_by_statement m f f' :
  normalized_statement (statement f) = normalized_statement (statement f') →
  finding_verification_status m f = finding_verification_status m f'.
Proof. intros H. unfold finding_verification_status. by rewrite H. Qed.

Lemma repeat_suppressible pol m fs :
  plain_report m → suppressible (mkPruner pol [entry_of sha256_hex m]) (with_findings m fs).
Proof.
  intros (Hk & Hs & Hn & Ha & Hv & Hd). split_and!; try done.
  - intros v Hm. split; [by apply Hv|]. exists (record_of (entry_of sha256_hex m)), v. simpl in Hm.
    split_and!; try done. unfold last_delivered. simpl. by rewrite str_eqb_refl.
  - intros f s Hf. unfold statement_statuses, task_entries. cbn [history with_findings task_id List.filter].
    cbn [entry_of record_of dr_task_id]. rewrite str_eqb_refl. cbn [map concat finding_statuses entry_of].
    rewrite app_nil_r. intros ([st s'] & -> & Hin)%list_elem_of_fmap.
    apply list_elem_of_In, filter_In in Hin as [Hin Heq]. apply str_eqb_eq in Heq. simpl in Heq.
    apply in_map_iff in Hin as (f' & [= <- <-] & _). cbn [snd].
    by apply (status_by_statement m).
  - intros d Hdep. rewrite (Hd d Hdep). by left.
  - by left.
Qed.

Lemma repeat_evidence_seen pol m :
  forallb (λ d, one_of d (seen_evidence_digests (mkPruner pol [entry_of sha256_hex m]) (task_id m)))
    (map (evidence_digest sha256_hex) (evidence m)) = true.
Proof.
  apply forallb_forall. intros x Hx. apply one_of_elem. unfold seen_evidence_digests, task_entries.
  cbn [history List.filter entry_of record_of dr_task_id]. rewrite str_eqb_refl. cbn [map concat].
  rewrite app_nil_r. cbn [entry_of record_of evidence_digests]. by apply dedup_in_order_elem, list_elem_of_In.
Qed.

Lemma repeat_findings_seen pol m :
  forallb (λ d, one_of d (seen_finding_digests (mkPruner pol [entry_of sha256_hex m]) (task_id m)))
    (map (λ f, finding_digest sha256_hex (statement f)) (findings m)) = true.
Proof.
  apply forallb_forall. intros x Hx. apply one_of_elem. unfold seen_finding_digests, task_entries.
  cbn [history List.filter entry_of record_of dr_task_id]. rewrite str_eqb_refl. cbn [map concat].
  rewrite app_nil_r. cbn [entry_of record_of finding_digests]. by apply dedup_in_order_elem, list_elem_of_In.
Qed.

(** Repeats are suppressed: a fresh pruner delivers a plain result and then
    suppresses its verbatim repetition as duplicate findings, also when the
    result carries a (passing) verification record. *)
Theorem repeat_result_suppressed pol m :
  plain_report m → kind m = KIND_RESULT → suppress_duplicate_findings pol = true →
  1 ≤ max_history pol →
  ∃ p, classify sha256_hex (new pol) m = (p, Deliver)
       ∧ classify sha256_hex p m = (p, Suppress DuplicateFindings).
Proof.
  intros Hm Hk Hp Hc. exists (mkPruner pol [entry_of sha256_hex m]). split.
  - unfold classify. assert (must_deliver (new pol) m = true) as ->; [|by rewrite record_new].
    apply not_false_iff_true. intros (_ & _ & _ & _ & _ & _ & _ & Ht)%must_deliver_false.
    by apply elem_of_nil in Ht.
  - assert (must_deliver (mkPruner pol [entry_of sha256_hex m]) m = false) as Hmd.
    { apply must_deliver_false. rewrite <-(with_same_findings m) at 2. by apply repeat_suppressible. }
    unfold classify. rewrite Hmd, repeat_evidence_seen, repeat_findings_seen, Hk. cbn [policy].
    rewrite Hp. done.
Qed.

(** An evidence message is judged by its evidence alone: after one was
    delivered, the same message with any other findings, however new, is
    suppressed as repeated evidence and its findings reach nobody. *)
Theorem evidence_message_drops_findings pol m fs :
  plain_report m → kind m = KIND_EVIDENCE → suppress_repeated_evidence pol = true →
  1 ≤ max_history pol →
  ∃ p, classify sha256_hex (new pol) m = (p, Deliver)
       ∧ classify sha256_hex p (with_findings m fs) = (p, Suppress RepeatedEvidence).
Proof.
  intros Hm Hk Hp Hc. exists (mkPruner pol [entry_of sha256_hex m]). split.
  - unfold classify. assert (must_deliver (new pol) m = true) as ->; [|by rewrite record_new].
    apply not_false_iff_true. intros (_ & _ & _ & _ & _ & _ & _ & Ht)%must_deliver_false.
    by apply elem_of_nil in Ht.
  - assert (must_deliver (mkPruner pol [entry_of sha256_hex m]) (with_findings m fs) = false) as Hmd.
    { apply must_deliver_false. by apply repeat_suppressible. }
    unfold classify. rewrite Hmd. cbn [with_findings task_id evidence kind].
    rewrite repeat_evidence_seen, Hk. cbn [policy]. rewrite Hp. done.
Qed.

End Covered.

(** ** Concrete runs *)

(** A result with a passing verification of its finding. *)
Definition verified_result : AgentCommMessage :=
  mkMessage (Some (lit "m1")) (lit "t") None None None None KIND_RESULT STATUS_DONE
    [mkFinding (lit "F1") (lit "it builds") None [lit "E1"]]
    [mkEvidence (lit "E1") (lit "log") (lit "b.log") None None None None] []
    (Some (mkVerification (lit "it builds") VERIFICATION_PASS (lit "cargo") None))
    [] [] None AGENT_COMM_PROTOCOL None None.

Definition evidence_report : AgentCommMessage :=
  mkMessage (Some (lit "m2")) (lit "t") None None None None KIND_EVIDENCE STATUS_DONE []
    [mkEvidence (lit "E1") (lit "log") (lit "b.log") None None None None] []
    None [] [] None AGENT_COMM_PROTOCOL None None.

Lemma plain_verified : plain_report verified_result.
Proof.
  split_and!; try done.
  - apply one_of_not_elem. reflexivity.
  - by intros v [= <-].
  - by intros d ?%elem_of_nil.
Qed.

Lemma plain_evidence : plain_report evidence_report.
Proof.
  split_and!; try done.
  - apply one_of_not_elem. reflexivity.
  - by intros d ?%elem_of_nil.
Qed.

Definition one_delivered : Pruner * list AgentCommMessage := run id (new default_policy) [verified_result].

Lemma suppress_safe_witness : suppressible one_delivered.1 verified_result.
Proof.
  apply (suppress_safe id one_delivered.1 verified_result one_delivered.1 DuplicateFindings).
  vm_compute. reflexivity.
Defined.

Lemma history_recent_deliveries_witness :
  len (history one_delivered.1) ≤ 64.
Proof.
  apply (history_recent_deliveries id default_policy [verified_result] one_delivered.1 one_delivered.2).
  by apply surjective_pairing.
Defined.

Lemma suppress_covered_witness :
  classify id one_delivered.1 verified_result = (one_delivered.1, Suppress DuplicateFindings)
  ∧ ∀ f, f ∈ findings verified_result →
    ∃ m' f', m' ∈ one_delivered.2 ∧ task_id m' = lit "t" ∧ f' ∈ findings m'
             ∧ normalized_statement (statement f') = normalized_statement (statement f).
Proof.
  split; [vm_compute; reflexivity|].
  apply (suppress_covered id default_policy [verified_result] one_delivered.1 one_delivered.2
           verified_result one_delivered.1 DuplicateFindings).
  - by intros x y.
  - by apply surjective_pairing.
  - vm_compute. reflexivity.
  - done.
Defined.

Lemma repeat_result_suppressed_witness :
  ∃ p, classify id (new default_policy) verified_result = (p, Deliver)
       ∧ classify id p verified_result = (p, Suppress DuplicateFindings).
Proof. apply (repeat_result_suppressed id default_policy verified_result plain_verified); done. Defined.

Lemma evidence_message_drops_findings_witness :
  ∃ p, classify id (new default_policy) evidence_report = (p, Deliver)
       ∧ classify id p (with_findings evidence_report
                          [mkFinding (lit "F1") (lit "the cache is stale") None [lit "E1"]])
         = (p, Suppress RepeatedEvidence).
Proof.
  apply (evidence_message_drops_findings id default_policy evidence_report _ plain_evidence); done.
Defined.
