(* ===== verification/LineDiff.v ===== *)
(** * The line diff of the edit tool

    [pi-coding-agent/src/core/tools/edit_diff.rs] 355-680: Myers' greedy search for
    an edit script between two lists of lines, with the diagonals that left the edit
    graph cut off, and the parts of the diff built from the script.  Components live
    in an arena and refer to their predecessors by index, as in the code; [isize] is
    [Z] and the two infinities are the code's own constants. *)
From stdpp Require Import base list gmap strings.
From Stdlib Require Import Btauto.
From S2P Require Import Prelude RustStr.

Local Open Scope Z_scope.

(** ** Data *)

Record DiffPart : Type := mkPart { value : str; part_added : bool; part_removed : bool }.

Record DiffComponent : Type := mkComponent {
  count : nat;
  added : bool;
  removed : bool;
  previous : option nat }.

(** [DiffGraph::components]. *)
Abbreviation DiffGraph := (list DiffComponent).

Record EditPath : Type := mkPath { old_pos : Z; last_component : option nat }.

(** ** Paths *)

Definition push_component (g : DiffGraph) (c : DiffComponent) : DiffGraph * nat := (g ++ [c], length g).

Definition add_to_path (g : DiffGraph) (path : EditPath) (a r : bool) (old_pos_inc : Z) : DiffGraph * EditPath :=
  let fresh := push_component g (mkComponent 1 a r (last_component path)) in
  let '(g', i) :=
    match last_component path ≫= (λ i, g !! i) with
    | Some last =>
        if eqb (added last) a && eqb (removed last) r
        then push_component g (mkComponent (count last + 1) a r (previous last))
        else fresh
    | None => fresh
    end in
  (g', mkPath (old_pos path + old_pos_inc) (Some i)).

Section tokens.
Variables new_tokens old_tokens : list str.

Definition new_len : Z := Z.of_nat (length new_tokens).
Definition old_len : Z := Z.of_nat (length old_tokens).

(** The [while] loop of [extract_common]: how many equal tokens follow. *)
Fixpoint common_count (fuel : nat) (old_pos new_pos : Z) : nat :=
  match fuel with
  | O => O
  | S fuel =>
      if (new_pos + 1 <? new_len) && (old_pos + 1 <? old_len)
         && match old_tokens !! Z.to_nat (old_pos + 1), new_tokens !! Z.to_nat (new_pos + 1) with
            | Some a, Some b => str_eqb a b
            | _, _ => false
            end
      then S (common_count fuel (old_pos + 1) (new_pos + 1))
      else O
  end.

Definition extract_common (g : DiffGraph) (base_path : EditPath) (diagonal_path : Z)
    : DiffGraph * EditPath * Z :=
  let new_pos := old_pos base_path - diagonal_path in
  (* the position in the old text only grows, so its length bounds the rounds *)
  let n := common_count (length old_tokens) (old_pos base_path) new_pos in
  let '(g', last) :=
    match n with
    | O => (g, last_component base_path)
    | _ => let '(g', i) := push_component g (mkComponent n false false (last_component base_path)) in (g', Some i)
    end in
  (g', mkPath (old_pos base_path + Z.of_nat n) last, new_pos + Z.of_nat n).

(** ** The search *)

Record Search : Type := mkSearch {
  graph : DiffGraph;
  best_path : gmap Z EditPath;
  min_diagonal_to_consider : Z;
  max_diagonal_to_consider : Z }.

(** A [return] from inside the loops, or the variables to go on with. *)
Inductive progress : Type :=
| Found (g : DiffGraph) (last : option nat)
| Continue (s : Search).

Definition finished (p : EditPath) (new_pos : Z) : bool :=
  (old_len <=? old_pos p + 1) && (new_len <=? new_pos + 1).

(** One iteration of the loop over the diagonals. *)
Definition visit_diagonal (s : Search) (diagonal_path : Z) : progress :=
  let remove_path := best_path s !! (diagonal_path - 1) in
  let add_path := best_path s !! (diagonal_path + 1) in
  let best := delete (diagonal_path - 1) (best_path s) in
  let can_add :=
    match add_path with
    | Some p => (0 <=? old_pos p - diagonal_path) && (old_pos p - diagonal_path <? new_len)
    | None => false
    end in
  let can_remove := match remove_path with Some p => old_pos p + 1 <? old_len | None => false end in
  let extended :=
    match add_path, remove_path with
    | Some a, Some r =>
        if negb can_remove || (can_add && (old_pos r <? old_pos a))
        then Some (add_to_path (graph s) a true false 0)
        else Some (add_to_path (graph s) r false true 1)
    | Some a, None => Some (add_to_path (graph s) a true false 0)
    | None, Some r => Some (add_to_path (graph s) r false true 1)
    | None, None => None
    end in
  if negb can_add && negb can_remove
  then Continue (mkSearch (graph s) (delete diagonal_path best)
                   (min_diagonal_to_consider s) (max_diagonal_to_consider s))
  else
    match extended with
    | None => Continue s
    | Some (g, base_path) =>
        let '(g', base_path', new_pos) := extract_common g base_path diagonal_path in
        if finished base_path' new_pos then Found g' (last_component base_path')
        else
          Continue (mkSearch g' (<[diagonal_path := base_path']> best)
            (if new_len <=? new_pos + 1 then Z.max (min_diagonal_to_consider s) (diagonal_path + 1)
             else min_diagonal_to_consider s)
            (if old_len <=? old_pos base_path' + 1 then Z.min (max_diagonal_to_consider s) (diagonal_path - 1)
             else max_diagonal_to_consider s))
    end.

Fixpoint visit_diagonals (s : Search) (diagonals : list Z) : progress :=
  match diagonals with
  | [] => Continue s
  | d :: rest =>
      match visit_diagonal s d with
      | Found g last => Found g last
      | Continue s' => visit_diagonals s' rest
      end
  end.

(** [first], [first + 2], ... up to [last]. *)
Fixpoint every_second (n : nat) (first last : Z) : list Z :=
  match n with
  | O => []
  | S n => if first <=? last then first :: every_second n (first + 2) last else []
  end.

Definition diagonals_of (s : Search) (edit_length : Z) : list Z :=
  let first := Z.max (min_diagonal_to_consider s) (- edit_length) in
  let last := Z.min (max_diagonal_to_consider s) edit_length in
  every_second (Z.to_nat (last - first + 1)) first last.

Fixpoint search (rounds : nat) (edit_length : Z) (s : Search) : progress :=
  match rounds with
  | O => Continue s
  | S rounds =>
      match visit_diagonals s (diagonals_of s edit_length) with
      | Found g last => Found g last
      | Continue s' => search rounds (edit_length + 1) s'
      end
  end.

Definition ISIZE_MIN_HALF : Z := -4611686018427387904.
Definition ISIZE_MAX_HALF : Z := 4611686018427387903.

Definition diff_components : DiffGraph * option nat :=
  let '(g, seed, new_pos) := extract_common [] (mkPath (-1) None) 0 in
  if finished seed new_pos then (g, last_component seed)
  else
    match search (length new_tokens + length old_tokens) 1
            (mkSearch g {[ 0 := seed ]} ISIZE_MIN_HALF ISIZE_MAX_HALF) with
    | Found g' last => (g', last)
    | Continue s => (graph s, None)
    end.
End tokens.

(** ** The parts *)

(** The chain of components from the head back. *)
Fixpoint component_chain (fuel : nat) (g : DiffGraph) (next : option nat) : list DiffComponent :=
  match fuel, next ≫= (λ i, g !! i) with
  | S fuel, Some c => c :: component_chain fuel g (previous c)
  | _, _ => []
  end.

Definition push_part (parts : list DiffPart) (v : str) (a r : bool) : list DiffPart :=
  match last parts with
  | Some p =>
      if eqb (part_added p) a && eqb (part_removed p) r
      then removelast parts ++ [mkPart (value p ++ v) a r]
      else parts ++ [mkPart v a r]
  | None => parts ++ [mkPart v a r]
  end.

Definition slice {A} (l : list A) (start n : nat) : list A := take n (drop start l).

Definition build_step (old_tokens new_tokens : list str) (acc : list DiffPart * nat * nat) (c : DiffComponent)
    : list DiffPart * nat * nat :=
  let '(parts, old_pos, new_pos) := acc in
  if negb (removed c) then
    (push_part parts (concat (slice new_tokens new_pos (count c))) (added c) (removed c),
     (if added c then old_pos else old_pos + count c)%nat, (new_pos + count c)%nat)
  else
    (push_part parts (concat (slice old_tokens old_pos (count c))) (added c) (removed c),
     (old_pos + count c)%nat, new_pos).

Definition build_diff_parts (g : DiffGraph) (last_component : option nat) (old_tokens new_tokens : list str)
    : list DiffPart :=
  (fold_left (build_step old_tokens new_tokens)
     (rev (component_chain (length g) g last_component)) ([], O, O)).1.1.

Fixpoint split_lines (current s : str) : list str :=
  match s with
  | [] => match current with [] => [] | _ => [current] end
  | c :: s' =>
      if (c =? 10)%N then (current ++ [c]) :: split_lines [] s'
      else split_lines (current ++ [c]) s'
  end.

Definition split_keeping_newlines (content : str) : list str :=
  match content with [] => [] | _ => split_lines [] content end.

Definition diff_lines (old_content new_content : str) : list DiffPart :=
  let old_tokens := List.filter (λ l, negb (is_empty l)) (split_keeping_newlines old_content) in
  let new_tokens := List.filter (λ l, negb (is_empty l)) (split_keeping_newlines new_content) in
  let '(g, last) := diff_components new_tokens old_tokens in
  build_diff_parts g last old_tokens new_tokens.

(** ** Edit scripts

    What a chain of components says: runs of lines that are common, added or removed,
    walked from the start of both texts. *)

Inductive chain (g : DiffGraph) : option nat → list DiffComponent → Prop :=
| chain_nil : chain g None []
| chain_snoc i c cs :
    g !! i = Some c →
    (∀ j, previous c = Some j → j < i)%nat →
    chain g (previous c) cs →
    chain g (Some i) (cs ++ [c]).

Lemma chain_lookup g i cs : chain g (Some i) cs → (i < length g)%nat.
Proof. inversion 1; subst. by eapply lookup_lt_Some. Qed.

Lemma chain_app g g' o cs : chain g o cs → chain (g ++ g') o cs.
Proof.
  induction 1; econstructor; eauto.
  by apply lookup_app_l_Some.
Qed.

(** Any fuel above the index walks the whole chain. *)
Lemma component_chain_rev g o cs fuel :
  chain g o cs → (∀ i, o = Some i → i < fuel)%nat → component_chain fuel g o = rev cs.
Proof.
  intros H. revert fuel.
  induction H as [|i c cs Hi Hp H IH]; intros fuel Hf; [by destruct fuel|].
  destruct fuel as [|fuel]; [by specialize (Hf i eq_refl); lia|].
  cbn [component_chain mbind option_bind]. rewrite Hi, rev_app_distr. cbn.
  f_equal. apply IH. intros j Hj. specialize (Hp j Hj). specialize (Hf i eq_refl). lia.
Qed.

(** Pushing a component whose predecessor is a chain gives the chain extended by it. *)
Lemma push_chain g c cs :
  chain g (previous c) cs → chain (g ++ [c]) (Some (length g)) (cs ++ [c]).
Proof.
  intros H. constructor.
  - by apply list_lookup_middle.
  - intros j Hj. rewrite Hj in H. by eapply chain_lookup.
  - by apply chain_app.
Qed.

Section aligned.
Variables new_tokens old_tokens : list str.

(** [aligned cs x y]: the runs [cs] use up the first [x] lines of the old text and the
    first [y] lines of the new one, and the common runs are equal lines. *)
Inductive aligned : list DiffComponent → nat → nat → Prop :=
| aligned_nil : aligned [] 0 0
| aligned_common cs x y n p :
    aligned cs x y →
    slice old_tokens x n = slice new_tokens y n →
    (x + n ≤ length old_tokens)%nat → (y + n ≤ length new_tokens)%nat →
    aligned (cs ++ [mkComponent n false false p]) (x + n) (y + n)
| aligned_added cs x y n p :
    aligned cs x y → (y + n ≤ length new_tokens)%nat →
    aligned (cs ++ [mkComponent n true false p]) x (y + n)
| aligned_removed cs x y n p :
    aligned cs x y → (x + n ≤ length old_tokens)%nat →
    aligned (cs ++ [mkComponent n false true p]) (x + n) y.

Lemma aligned_bounds cs x y :
  aligned cs x y → (x ≤ length old_tokens ∧ y ≤ length new_tokens)%nat.
Proof. induction 1; lia. Qed.

(** A run of added (removed) lines takes one more line. *)
Lemma aligned_grow_added cs n p x y :
  aligned (cs ++ [mkComponent n true false p]) x y → (y < length new_tokens)%nat →
  aligned (cs ++ [mkComponent (n + 1) true false p]) x (y + 1).
Proof.
  intros H Hy. inversion H as [Hn|? ? ? ? ? ? ? ? ? Hc|cs' x' y' n' p' Ha Hb Hc|? ? ? ? ? ? ? Hc].
  - by destruct cs.
  - by apply app_inj_tail in Hc as [_ [=]].
  - apply app_inj_tail in Hc as [-> [= -> ->]]. subst.
    replace (y' + n + 1)%nat with (y' + (n + 1))%nat by lia. constructor; [done|lia].
  - by apply app_inj_tail in Hc as [_ [=]].
Qed.

Lemma aligned_grow_removed cs n p x y :
  aligned (cs ++ [mkComponent n false true p]) x y → (x < length old_tokens)%nat →
  aligned (cs ++ [mkComponent (n + 1) false true p]) (x + 1) y.
Proof.
  intros H Hx. inversion H as [Hn|? ? ? ? ? ? ? ? ? Hc|? ? ? ? ? ? ? Hc|cs' x' y' n' p' Ha Hb Hc].
  - by destruct cs.
  - by apply app_inj_tail in Hc as [_ [=]].
  - by apply app_inj_tail in Hc as [_ [=]].
  - apply app_inj_tail in Hc as [-> [= -> ->]]. subst.
    replace (x' + n + 1)%nat with (x' + (n + 1))%nat by lia. constructor; [done|lia].
Qed.

(** A path of the search on diagonal [k]: it stands at [x] old and [y] new lines, with
    [k = x - y], and its chain is a script up to there. *)
Definition at_point (g : DiffGraph) (k : Z) (p : EditPath) (x y : nat) : Prop :=
  old_pos p = Z.of_nat x - 1 ∧ k = Z.of_nat x - Z.of_nat y ∧
  ∃ cs, chain g (last_component p) cs ∧ aligned cs x y.

Lemma at_point_bounds g k p x y :
  at_point g k p x y → (x ≤ length old_tokens ∧ y ≤ length new_tokens)%nat.
Proof. intros (_ & _ & cs & _ & H). by eapply aligned_bounds. Qed.

Lemma at_point_app g g' k p x y : at_point g k p x y → at_point (g ++ g') k p x y.
Proof. intros (H1 & H2 & cs & Hc & Ha). repeat split; eauto using chain_app. Qed.

(** The graph only grows, and a step moves a path to a point of the new graph. *)
Definition moves (g : DiffGraph) (r : DiffGraph * EditPath) (k : Z) (x y : nat) : Prop :=
  (∃ l, r.1 = g ++ l) ∧ at_point r.1 k r.2 x y.

Lemma add_to_path_moves g k p x y a r inc x' y' :
  at_point g k p x y →
  (a = true ∧ r = false ∧ inc = 0 ∧ x' = x ∧ y' = (y + 1)%nat ∧ (y < length new_tokens)%nat) ∨
  (a = false ∧ r = true ∧ inc = 1 ∧ x' = (x + 1)%nat ∧ y' = y ∧ (x < length old_tokens)%nat) →
  moves g (add_to_path g p a r inc) (Z.of_nat x' - Z.of_nat y') x' y'.
Proof.
  intros (Hx & Hk & cs & Hc & Ha) Hcase.
  assert (Hfresh : ∀ c, previous c = last_component p → count c = 1%nat → added c = a → removed c = r →
    chain (g ++ [c]) (Some (length g)) (cs ++ [c]) ∧ aligned (cs ++ [c]) x' y').
  { intros [n a' r' pr]; simpl; intros -> -> -> ->. split; [by apply push_chain|].
    destruct Hcase as [(-> & -> & _ & -> & -> & ?)|(-> & -> & _ & -> & -> & ?)]; constructor; (done || lia). }
  assert (Hpos : old_pos p + inc = Z.of_nat x' - 1) by (destruct Hcase as [?|?]; lia).
  unfold add_to_path, push_component.
  destruct (last_component p ≫= λ i, g !! i) as [lst|] eqn:El.
  2: { cbv zeta. split; [by eexists|]. split; [done|]. split; [done|]. eexists. by apply Hfresh. }
  destruct (eqb (added lst) a && eqb (removed lst) r) eqn:Em; cbv zeta.
  2: { split; [by eexists|]. split; [done|]. split; [done|]. eexists. by apply Hfresh. }
  split; [by eexists|]. split; [done|]. split; [done|].
  apply andb_true_iff in Em as [Ea%eqb_prop Er%eqb_prop].
  inversion Hc as [Hn|i c cs' Hi Hlt Hcs Hl Heq]; [by rewrite <-Hn in El|].
  rewrite <-Hl in El. cbn in El. rewrite Hi in El. injection El as <-.
  exists (cs' ++ [mkComponent (count c + 1) a r (previous c)]). subst cs.
  split; [by apply (push_chain g (mkComponent (count c + 1) a r (previous c)))|].
  destruct c as [n a' r' pr]; simpl in *; subst a' r'.
  destruct Hcase as [(-> & -> & _ & -> & -> & ?)|(-> & -> & _ & -> & -> & ?)];
    auto using aligned_grow_added, aligned_grow_removed.
Qed.

Lemma slice_S {A} (l : list A) x n t : l !! x = Some t → slice l x (S n) = t :: slice l (x + 1) n.
Proof.
  intros H. unfold slice. rewrite (drop_S l t x H).
  by replace (x + 1)%nat with (S x) by lia.
Qed.

(** The loop of [extract_common] counts equal lines of both texts. *)
Lemma common_count_spec fuel x y :
  (x ≤ length old_tokens)%nat → (y ≤ length new_tokens)%nat →
  let n := common_count new_tokens old_tokens fuel (Z.of_nat x - 1) (Z.of_nat y - 1) in
  slice old_tokens x n = slice new_tokens y n ∧
  (x + n ≤ length old_tokens)%nat ∧ (y + n ≤ length new_tokens)%nat.
Proof.
  revert x y. induction fuel as [|fuel IH]; intros x y Hx Hy; simpl; [by repeat split; try lia|].
  destruct (_ && _ && _) eqn:E; [|by repeat split; try lia].
  apply andb_true_iff in E as [[E1 E2]%andb_true_iff E3].
  unfold new_len, old_len in *. apply Z.ltb_lt in E1, E2.
  replace (Z.to_nat (Z.of_nat x - 1 + 1)) with x in E3 by lia.
  replace (Z.to_nat (Z.of_nat y - 1 + 1)) with y in E3 by lia.
  destruct (old_tokens !! x) as [a|] eqn:Ea; [|done].
  destruct (new_tokens !! y) as [b|] eqn:Eb; [|done].
  apply str_eqb_eq in E3 as ->.
  destruct (IH (x + 1)%nat (y + 1)%nat) as (H1 & H2 & H3); [lia..|].
  replace (Z.of_nat (x + 1) - 1) with (Z.of_nat x - 1 + 1) in * by lia.
  replace (Z.of_nat (y + 1) - 1) with (Z.of_nat y - 1 + 1) in * by lia.
  rewrite (slice_S _ _ _ _ Ea), (slice_S _ _ _ _ Eb), H1. repeat split; lia.
Qed.

Lemma extract_common_moves g p k x y :
  at_point g k p x y →
  ∃ g' p' n, extract_common new_tokens old_tokens g p k = (g', p', Z.of_nat (y + n) - 1) ∧
    moves g (g', p') k (x + n) (y + n).
Proof.
  intros H. pose proof (at_point_bounds _ _ _ _ _ H) as [Hx Hy].
  destruct H as (Hp & Hk & cs & Hc & Ha). unfold extract_common.
  replace (old_pos p - k) with (Z.of_nat y - 1) by lia. rewrite Hp.
  pose proof (common_count_spec (length old_tokens) x y Hx Hy) as (He & H1 & H2).
  set (n := common_count _ _ _ _ _) in *.
  destruct n as [|n'] eqn:En.
  - eexists _, _, O. split; [f_equal; lia|]. split; [exists []; by rewrite app_nil_r|].
    repeat split; simpl; [lia..|]. exists cs. rewrite !Nat.add_0_r. done.
  - eexists _, _, (S n'). unfold push_component. split; [f_equal; lia|].
    split; [by eexists|]. repeat split; cbn [fst snd old_pos last_component]; [lia..|].
    eexists. split; [by apply (push_chain g (mkComponent (S n') false false (last_component p)))|].
    by constructor.
Qed.

(** ** The search finds a script *)

Abbreviation N := (length old_tokens).
Abbreviation M := (length new_tokens).

Definition ok_search (s : Search) : Prop :=
  ∀ k p, best_path s !! k = Some p →
    ∃ x y, at_point (graph s) k p x y ∧ ¬ (x = N ∧ y = M).

(** What one iteration does: it finds a script, skips the diagonal, or puts a path on
    it that is at least as far as each of the two it could come from. *)
Inductive visited (s : Search) (k : Z) : progress → Prop :=
| visited_found g last cs : chain g last cs → aligned cs N M → visited s k (Found g last)
| visited_skip s' :
    s' = mkSearch (graph s) (delete k (delete (k - 1) (best_path s)))
           (min_diagonal_to_consider s) (max_diagonal_to_consider s) →
    (∀ r, best_path s !! (k - 1) = Some r → Z.of_nat N ≤ old_pos r + 1) →
    (∀ a, best_path s !! (k + 1) = Some a → ¬ (0 ≤ old_pos a - k < Z.of_nat M)) →
    visited s k (Continue s')
| visited_moved s' l p x y :
    s' = mkSearch (graph s ++ l) (<[k := p]> (delete (k - 1) (best_path s)))
           (if decide (y = M) then Z.max (min_diagonal_to_consider s) (k + 1) else min_diagonal_to_consider s)
           (if decide (x = N) then Z.min (max_diagonal_to_consider s) (k - 1) else max_diagonal_to_consider s) →
    at_point (graph s ++ l) k p x y → ¬ (x = N ∧ y = M) →
    (∀ r, best_path s !! (k - 1) = Some r → old_pos r + 1 < Z.of_nat N → old_pos r + 1 ≤ old_pos p) →
    (∀ a, best_path s !! (k + 1) = Some a → 0 ≤ old_pos a - k < Z.of_nat M → old_pos a ≤ old_pos p) →
    visited s k (Continue s').

(** The end of an iteration, from the extended path on. *)
Definition finish_visit (s : Search) (k : Z) (extended : DiffGraph * EditPath) : progress :=
  let '(g, base_path) := extended in
  let '(g', base_path', new_pos) := extract_common new_tokens old_tokens g base_path k in
  if finished new_tokens old_tokens base_path' new_pos then Found g' (last_component base_path')
  else Continue (mkSearch g' (<[k := base_path']> (delete (k - 1) (best_path s)))
         (if new_len new_tokens <=? new_pos + 1 then Z.max (min_diagonal_to_consider s) (k + 1)
          else min_diagonal_to_consider s)
         (if old_len old_tokens <=? old_pos base_path' + 1 then Z.min (max_diagonal_to_consider s) (k - 1)
          else max_diagonal_to_consider s)).

Lemma visited_extend s k g base x y :
  moves (graph s) (g, base) k x y →
  (∀ r, best_path s !! (k - 1) = Some r → old_pos r + 1 < Z.of_nat N → old_pos r + 1 ≤ old_pos base) →
  (∀ a, best_path s !! (k + 1) = Some a → 0 ≤ old_pos a - k < Z.of_nat M → old_pos a ≤ old_pos base) →
  visited s k (finish_visit s k (g, base)).
Proof.
  intros [[l Hl] Hat] Hr Ha. unfold finish_visit. simpl in *. pose proof Hat as (Hx0 & _).
  destruct (extract_common_moves _ _ _ _ _ Hat) as (g' & p' & n & -> & [l' Hl'] & Hat').
  simpl in *. subst g g'. rewrite <-app_assoc in *.
  pose proof (at_point_bounds _ _ _ _ _ Hat') as [Hx Hy].
  pose proof Hat' as (Hp & Hk & cs & Hc & Hal).
  unfold finished, old_len, new_len. rewrite Hp.
  destruct (_ && _) eqn:Ef.
  - apply andb_true_iff in Ef as [E1%Z.leb_le E2%Z.leb_le].
    econstructor; [done|]. by replace N with (x + n)%nat by lia; replace M with (y + n)%nat by lia.
  - eapply visited_moved; [|exact Hat'| | |].
    + f_equal; [destruct (Z.leb_spec (Z.of_nat M) (Z.of_nat (y + n) - 1 + 1)); case_decide; (done || lia)|].
      destruct (Z.leb_spec (Z.of_nat N) (Z.of_nat (x + n) - 1 + 1)); case_decide; (done || lia).
    + intros [E1 E2]. apply andb_false_iff in Ef as [Ef%Z.leb_gt|Ef%Z.leb_gt]; lia.
    + intros r H1 H2. specialize (Hr r H1 H2). lia.
    + intros a H1 H2. specialize (Ha a H1 H2). lia.
Qed.

(** The two ways to extend a path of the state. *)
Lemma add_moves s k a :
  ok_search s → best_path s !! (k + 1) = Some a → 0 ≤ old_pos a - k < Z.of_nat M →
  ∃ x y, moves (graph s) (add_to_path (graph s) a true false 0) k x y.
Proof.
  intros Hok Ha Hb. destruct (Hok _ _ Ha) as (x & y & Hat & _). pose proof Hat as (Hx & Hk & _).
  exists x, (y + 1)%nat. replace k with (Z.of_nat x - Z.of_nat (y + 1)) by lia.
  eapply add_to_path_moves; [exact Hat|]. left. repeat split; lia.
Qed.

Lemma remove_moves s k r :
  ok_search s → best_path s !! (k - 1) = Some r → old_pos r + 1 < Z.of_nat N →
  ∃ x y, moves (graph s) (add_to_path (graph s) r false true 1) k x y.
Proof.
  intros Hok Hr Hb. destruct (Hok _ _ Hr) as (x & y & Hat & _). pose proof Hat as (Hx & Hk & _).
  exists (x + 1)%nat, y. replace k with (Z.of_nat (x + 1) - Z.of_nat y) by lia.
  eapply add_to_path_moves; [exact Hat|]. right. repeat split; lia.
Qed.

Lemma add_to_path_pos g p a r inc : old_pos (add_to_path g p a r inc).2 = old_pos p + inc.
Proof.
  unfold add_to_path, push_component. cbv zeta.
  destruct (_ ≫= _) as [c|]; [|done]. by destruct (_ && _).
Qed.

(** The neighbour an iteration may extend by an added (a removed) line. *)
Definition can_add (s : Search) (k : Z) (a : EditPath) : Prop :=
  best_path s !! (k + 1) = Some a ∧ 0 ≤ old_pos a - k < Z.of_nat M.
Definition can_remove (s : Search) (k : Z) (r : EditPath) : Prop :=
  best_path s !! (k - 1) = Some r ∧ old_pos r + 1 < Z.of_nat N.

Lemma visited_add s k a :
  ok_search s → can_add s k a → (∀ r, can_remove s k r → old_pos r < old_pos a) →
  visited s k (finish_visit s k (add_to_path (graph s) a true false 0)).
Proof.
  intros Hok [Ha Hb] Hr. destruct (add_moves s k a Hok Ha Hb) as (x & y & Hm).
  pose proof (add_to_path_pos (graph s) a true false 0) as Hp.
  unfold finish_visit. destruct (add_to_path _ _ _ _ _) as [g base]. simpl in Hp.
  apply (visited_extend _ _ _ _ _ _ Hm).
  - intros r H1 H2. specialize (Hr r (conj H1 H2)). lia.
  - intros a' H1 H2. rewrite Ha in H1. injection H1 as <-. lia.
Qed.

Lemma visited_remove s k r :
  ok_search s → can_remove s k r → (∀ a, can_add s k a → old_pos a ≤ old_pos r) →
  visited s k (finish_visit s k (add_to_path (graph s) r false true 1)).
Proof.
  intros Hok [Hr Hb] Ha. destruct (remove_moves s k r Hok Hr Hb) as (x & y & Hm).
  pose proof (add_to_path_pos (graph s) r false true 1) as Hp.
  unfold finish_visit. destruct (add_to_path _ _ _ _ _) as [g base]. simpl in Hp.
  apply (visited_extend _ _ _ _ _ _ Hm).
  - intros r' H1 H2. rewrite Hr in H1. injection H1 as <-. lia.
  - intros a H1 H2. specialize (Ha a (conj H1 H2)). lia.
Qed.

Lemma add_test s k a :
  best_path s !! (k + 1) = Some a →
  (0 <=? old_pos a - k) && (old_pos a - k <? new_len new_tokens) = true ↔ can_add s k a.
Proof. intros H. unfold can_add, new_len. rewrite andb_true_iff, Z.leb_le, Z.ltb_lt. naive_solver. Qed.

Lemma remove_test s k r :
  best_path s !! (k - 1) = Some r → (old_pos r + 1 <? old_len old_tokens) = true ↔ can_remove s k r.
Proof. intros H. unfold can_remove, old_len. rewrite Z.ltb_lt. naive_solver. Qed.

Lemma visit_skip s k :
  (∀ r, ¬ can_remove s k r) → (∀ a, ¬ can_add s k a) →
  visited s k (Continue (mkSearch (graph s) (delete k (delete (k - 1) (best_path s)))
                           (min_diagonal_to_consider s) (max_diagonal_to_consider s))).
Proof.
  intros Hr Ha. eapply visited_skip; [done| |].
  - intros r H. apply Z.nlt_ge. intros Hlt. by apply (Hr r).
  - intros a H Hb. by apply (Ha a).
Qed.

Lemma can_add_fun s k a a' : best_path s !! (k + 1) = Some a → can_add s k a' → a' = a.
Proof. intros H [H' _]. congruence. Qed.

Lemma can_remove_fun s k r r' : best_path s !! (k - 1) = Some r → can_remove s k r' → r' = r.
Proof. intros H [H' _]. congruence. Qed.

Lemma visit_diagonal_visited s k :
  ok_search s → visited s k (visit_diagonal new_tokens old_tokens s k).
Proof.
  intros Hok. unfold visit_diagonal. cbv zeta.
  destruct (best_path s !! (k - 1)) as [r|] eqn:Er, (best_path s !! (k + 1)) as [a|] eqn:Ea.
  - pose proof (remove_test s k r Er) as Tr. pose proof (add_test s k a Ea) as Ta.
    pose proof (can_add_fun s k a) as Fa. pose proof (can_remove_fun s k r) as Fr.
    destruct (old_pos r + 1 <? old_len old_tokens); destruct ((0 <=? old_pos a - k) && _); cbn [negb andb orb].
    + destruct (old_pos r <? old_pos a) eqn:E.
      * apply Z.ltb_lt in E. apply (visited_add s k a); [done|by apply Ta|].
        intros r' H. by rewrite (Fr r' Er H).
      * apply Z.ltb_ge in E. apply (visited_remove s k r); [done|by apply Tr|].
        intros a' H. by rewrite (Fa a' Ea H).
    + apply (visited_remove s k r); [done|by apply Tr|].
      intros a' H. rewrite (Fa a' Ea H) in H. by apply Ta in H.
    + apply (visited_add s k a); [done|by apply Ta|].
      intros r' H. rewrite (Fr r' Er H) in H. by apply Tr in H.
    + apply visit_skip; [intros r' H; rewrite (Fr r' Er H) in H; by apply Tr in H|].
      intros a' H. rewrite (Fa a' Ea H) in H. by apply Ta in H.
  - pose proof (remove_test s k r Er) as Tr. pose proof (can_remove_fun s k r) as Fr.
    assert (Na : ∀ a, ¬ can_add s k a) by (intros a [Ha _]; congruence).
    destruct (old_pos r + 1 <? old_len old_tokens); cbn [negb andb orb].
    + apply (visited_remove s k r); [done|by apply Tr|]. intros a Ha. by destruct (Na a).
    + apply visit_skip; [|done]. intros r' H. rewrite (Fr r' Er H) in H. by apply Tr in H.
  - pose proof (add_test s k a Ea) as Ta. pose proof (can_add_fun s k a) as Fa.
    assert (Nr : ∀ r, ¬ can_remove s k r) by (intros r [Hr _]; congruence).
    destruct ((0 <=? old_pos a - k) && _); cbn [negb andb orb].
    + apply (visited_add s k a); [done|by apply Ta|]. intros r Hr. by destruct (Nr r).
    + apply visit_skip; [done|]. intros a' H. rewrite (Fa a' Ea H) in H. by apply Ta in H.
  - cbn [negb andb]. apply visit_skip; intros q [Hq _]; congruence.
Qed.

Lemma visited_ok s k s' : ok_search s → visited s k (Continue s') → ok_search s'.
Proof.
  intros Hok Hv. inversion Hv as [|? Hs _ _|? l p x y Hs Hat Hn _ _]; subst; intros j q; simpl.
  - intros [_ [_ H]%lookup_delete_Some]%lookup_delete_Some. by apply Hok.
  - intros [[-> <-]|[_ [_ H]%lookup_delete_Some]]%lookup_insert_Some; [by exists x, y|].
    destruct (Hok _ _ H) as (x' & y' & Hat' & Hn'). exists x', y'. by split; [apply at_point_app|].
Qed.

(** [lead e s L]: after [e] edits the path on diagonal [L] has gone through at least [e]
    lines, and it is the first diagonal the next round can extend: no path has reached
    the end of the new text yet and [L] is the lowest diagonal, or [L] is the highest
    diagonal on which the end of the new text has been reached. *)
Definition lead (e : Z) (s : Search) (L : Z) : Prop :=
  ∃ p x y, best_path s !! L = Some p ∧ at_point (graph s) L p x y ∧
    - e ≤ L ≤ e ∧ e ≤ Z.of_nat x + Z.of_nat y ∧
    ((min_diagonal_to_consider s = ISIZE_MIN_HALF ∧ L = - e ∧ (y < M)%nat) ∨
     (y = M ∧ (x < N)%nat ∧ min_diagonal_to_consider s = L + 1)).

(** The upper limit never cuts off the diagonal of the end of both texts. *)
Definition roomy (e : Z) (s : Search) : Prop :=
  Z.of_nat N - Z.of_nat M ≤ max_diagonal_to_consider s ∧ - e - 1 ≤ max_diagonal_to_consider s.

Record running (e : Z) (s : Search) : Prop := {
  running_ok : ok_search s;
  running_roomy : roomy e s;
  running_lead : ∃ L, lead e s L }.

(** What a round, or the rest of one, must come to. *)
Definition done_or (P : Search → Prop) (r : progress) : Prop :=
  match r with
  | Found g last => ∃ cs, chain g last cs ∧ aligned cs N M
  | Continue s => P s
  end.

Hypothesis fits : Z.of_nat N + Z.of_nat M < ISIZE_MAX_HALF.

Lemma roomy_visited e s k s' :
  - e ≤ k → roomy e s → visited s k (Continue s') → roomy e s'.
Proof.
  intros Hk [H1 H2] Hv.
  inversion Hv as [|? Hs _ _|? l p x y Hs Hat Hn _ _]; subst; [done|].
  pose proof (at_point_bounds _ _ _ _ _ Hat) as [? ?]. destruct Hat as (? & ? & _).
  clear Hv. unfold roomy; simpl. case_decide; lia.
Qed.

(** A path that has just been put on a diagonal takes the lead, when it reaches the end
    of the new text or is the lowest. *)
Lemma lead_moved e s k l p x y s' :
  s' = mkSearch (graph s ++ l) (<[k := p]> (delete (k - 1) (best_path s)))
         (if decide (y = M) then Z.max (min_diagonal_to_consider s) (k + 1) else min_diagonal_to_consider s)
         (if decide (x = N) then Z.min (max_diagonal_to_consider s) (k - 1) else max_diagonal_to_consider s) →
  at_point (graph s ++ l) k p x y → ¬ (x = N ∧ y = M) →
  - e ≤ k ≤ e → e ≤ Z.of_nat x + Z.of_nat y →
  min_diagonal_to_consider s ≤ k + 1 →
  y = M ∨ (min_diagonal_to_consider s = ISIZE_MIN_HALF ∧ k = - e) →
  lead e s' k.
Proof.
  intros -> Hat Hn Hk He Hmin Hcase. pose proof (at_point_bounds _ _ _ _ _ Hat) as [? ?].
  exists p, x, y. simpl. split; [by rewrite lookup_insert_eq|].
  split; [done|]. split; [done|]. split; [done|].
  case_decide as Hy; [right; repeat split; lia|left].
  destruct Hcase as [?|[? ?]]; [done|]. repeat split; [done|done|lia].
Qed.

Lemma lead_visited e s L k s' :
  0 ≤ e → e ≤ Z.of_nat N + Z.of_nat M →
  lead e s L → L + 2 ≤ k ≤ e → visited s k (Continue s') → ∃ L', L' ≤ k ∧ lead e s' L'.
Proof.
  intros He0 He (p & x & y & Hp & Hat & HL & Hxy & Hcase) Hk Hv.
  inversion Hv as [|? Hs _ _|? l p' x' y' Hs Hat' Hn _ _]; subst; clear Hv;
    pose proof (at_point_bounds _ _ _ _ _ Hat) as [? ?]; pose proof Hat as (_ & HLxy & _).
  - exists L. split; [lia|]. exists p, x, y. simpl. split; [|done].
    by rewrite !lookup_delete_ne by lia.
  - pose proof Hat' as (_ & Hkxy & _).
    destruct (decide (y' = M)) as [->|Hy].
    + exists k. split; [lia|]. eapply (lead_moved e s k l p' x' M); [|done..| | | |by left].
      * by rewrite (decide_True_pi eq_refl).
      * destruct Hcase as [?|?]; lia.
      * destruct Hcase as [?|?]; lia.
      * unfold ISIZE_MIN_HALF, ISIZE_MAX_HALF in *. destruct Hcase as [?|?]; lia.
    + exists L. split; [lia|]. exists p, x, y. simpl.
      rewrite lookup_insert_ne, lookup_delete_ne by lia.
      split; [done|]. split; [by apply at_point_app|]. done.
Qed.

Lemma visit_step s k (P : Search → Prop) rest :
  ok_search s →
  (∀ s', ok_search s' → visited s k (Continue s') →
     done_or P (visit_diagonals new_tokens old_tokens s' rest)) →
  done_or P (visit_diagonals new_tokens old_tokens s (k :: rest)).
Proof.
  intros Hok Hnext. simpl. pose proof (visit_diagonal_visited s k Hok) as Hv.
  destruct (visit_diagonal _ _ s k) as [g last|s'].
  - inversion Hv; subst. simpl. eauto.
  - apply Hnext; [by eapply visited_ok|done].
Qed.

(** Once some diagonal of the round leads, the rest of the round keeps a leader. *)
Lemma rest_of_round e n first last s L :
  0 ≤ e → e ≤ Z.of_nat N + Z.of_nat M → ok_search s → roomy e s → lead e s L →
  L + 2 ≤ first → last ≤ e →
  done_or (running e) (visit_diagonals new_tokens old_tokens s (every_second n first last)).
Proof.
  intros He0 He. revert first s L.
  induction n as [|n IH]; intros first s L Hok Hr HL Hf Hl; [by constructor; [..|exists L]|].
  cbn [every_second]. destruct (first <=? last) eqn:E; [apply Z.leb_le in E|by constructor; [..|exists L]].
  assert (- e ≤ L) by (destruct HL as (?&?&?&?&?&?&?); lia).
  apply visit_step; [done|]. intros s' Hok' Hv.
  destruct (lead_visited e s L first s') as (L' & HLk & HL'); [done..|lia|done|].
  apply (IH _ _ L'); [done| |done|lia|done].
  apply (roomy_visited e s first); [lia|done|done].
Qed.

(** The first diagonal of a round, when it has a path to extend, leads the round. *)
Lemma round_from e n k last s :
  0 ≤ e → e ≤ Z.of_nat N + Z.of_nat M → ok_search s → roomy e s → last ≤ e →
  (∀ s', visited s k (Continue s') → lead e s' k) → - e ≤ k → k ≤ last →
  done_or (running e) (visit_diagonals new_tokens old_tokens s (every_second (S n) k last)).
Proof.
  intros He0 He Hok Hr Hlast Hlead Hk Hkl. cbn [every_second].
  rewrite (proj2 (Z.leb_le k last) Hkl). apply visit_step; [done|]. intros s' Hok' Hv.
  apply (rest_of_round _ _ _ _ _ k); [done..| |by apply Hlead|lia|done].
  apply (roomy_visited e s k); [lia|done|done].
Qed.

(** Extending the leader: down, while the end of the new text is out of reach ... *)
Lemma lead_down e s k s' p x y :
  0 ≤ e → e < Z.of_nat N + Z.of_nat M →
  k = - e - 1 → best_path s !! (k + 1) = Some p → at_point (graph s) (k + 1) p x y → (y < M)%nat →
  min_diagonal_to_consider s = ISIZE_MIN_HALF →
  visited s k (Continue s') → lead (e + 1) s' k.
Proof.
  intros He0 He Hke Hp Hat Hy Hmin Hv. pose proof Hat as (Hpx & Hkxy & _).
  inversion Hv as [|? Hs _ Ha|? l p' x' y' Hs Hat' Hn _ _]; subst s'; clear Hv.
  - destruct (Ha p Hp). lia.
  - pose proof Hat' as (_ & Hkxy' & _).
    eapply lead_moved; [done..|lia|lia| |].
    + unfold ISIZE_MIN_HALF, ISIZE_MAX_HALF in *. lia.
    + right. split; [done|lia].
Qed.

(** ... and along the end of the new text after that. *)
Lemma lead_along e s k s' p x :
  0 ≤ e → e < Z.of_nat N + Z.of_nat M →
  best_path s !! (k - 1) = Some p → at_point (graph s) (k - 1) p x M → (x < N)%nat →
  - e ≤ k - 1 ≤ e → e ≤ Z.of_nat x + Z.of_nat M →
  min_diagonal_to_consider s ≤ k →
  visited s k (Continue s') → lead (e + 1) s' k.
Proof.
  intros He0 He Hp Hat Hx Hk Hxe Hmin Hv. pose proof Hat as (Hpx & Hkxy & _).
  inversion Hv as [|? Hs Hr _|? l p' x' y' Hs Hat' Hn Hr _]; subst s'; clear Hv.
  - specialize (Hr p Hp). lia.
  - pose proof (at_point_bounds _ _ _ _ _ Hat') as [? ?]. pose proof Hat' as (Hpx' & Hkxy' & _).
    specialize (Hr p Hp). eapply lead_moved; [done..|lia|lia|lia|]. left. lia.
Qed.

Lemma round e s :
  0 ≤ e → e < Z.of_nat N + Z.of_nat M → running e s →
  done_or (running (e + 1)) (visit_diagonals new_tokens old_tokens s (diagonals_of s (e + 1))).
Proof.
  intros He0 He [Hok [Hr1 Hr2] [L (p & x & y & Hp & Hat & HL & Hxy & Hcase)]].
  pose proof Hat as (Hpx & HLxy & _). unfold diagonals_of.
  assert (roomy (e + 1) s) by (split; lia).
  destruct Hcase as [(Hmin & HLe & Hy)|(-> & Hx & Hmin)]; rewrite Hmin.
  - rewrite Z.max_r by (unfold ISIZE_MIN_HALF, ISIZE_MAX_HALF in *; lia).
    destruct (Z.to_nat _) as [|n] eqn:En; [lia|].
    apply round_from; [lia|lia|done|done|lia| |lia|lia].
    intros s' Hv. replace (- (e + 1)) with (L - 1) in * by lia.
    eapply (lead_down e s (L - 1) s' p x y); [lia|lia|lia| | |done|done|done];
      by replace (L - 1 + 1) with L by lia.
  - rewrite Z.max_l by lia.
    destruct (Z.to_nat _) as [|n] eqn:En; [lia|].
    apply round_from; [lia|lia|done|done|lia| |lia|lia].
    intros s' Hv. eapply (lead_along e s (L + 1) s' p x); [lia|lia| | |done|lia|lia|lia|done];
      by replace (L + 1 - 1) with L by lia.
Qed.

Lemma search_finds rounds e s :
  0 ≤ e → e + Z.of_nat rounds = Z.of_nat N + Z.of_nat M → running e s →
  done_or (λ _, False) (search new_tokens old_tokens rounds (e + 1) s).
Proof.
  revert e s. induction rounds as [|rounds IH]; intros e s He0 He Hrun; simpl.
  - destruct Hrun as [_ _ [L (p & x & y & _ & Hat & _ & Hxy & Hcase)]].
    pose proof (at_point_bounds _ _ _ _ _ Hat) as [? ?]. destruct Hcase as [?|?]; lia.
  - pose proof (round e s He0 ltac:(lia) Hrun) as Hr.
    destruct (visit_diagonals _ _ s _) as [g last|s']; [done|]. apply IH; [lia|lia|done].
Qed.

(** The first round, from the seed. *)
Lemma seed_round g p x y :
  at_point g 0 p x y → ¬ (x = N ∧ y = M) →
  let s := mkSearch g {[ 0 := p ]} ISIZE_MIN_HALF ISIZE_MAX_HALF in
  done_or (running 1) (visit_diagonals new_tokens old_tokens s (diagonals_of s 1)).
Proof.
  intros Hat Hn s. pose proof Hat as (Hpx & Hk & _). pose proof (at_point_bounds _ _ _ _ _ Hat) as [Hx Hy].
  assert (Hok : ok_search s).
  { intros k q Hq. unfold s in Hq. simpl in Hq. apply lookup_singleton_Some in Hq as [<- <-]. by exists x, y. }
  assert (Hroom : roomy 1 s) by (unfold roomy, s, ISIZE_MAX_HALF in *; simpl; lia).
  change (diagonals_of s 1) with [-1; 1].
  apply visit_step; [done|]. intros s' Hok' Hv.
  assert (Hroom' : roomy 1 s') by (apply (roomy_visited 1 s (-1)); [lia|done|done]).
  inversion Hv as [|? Hs _ Ha|? l p' x' y' Hs Hat' Hn' _ _]; subst s'; clear Hv.
  - assert (y = M) as ->.
    { specialize (Ha p (lookup_singleton_eq _ _)). lia. }
    change [1] with (every_second 1 1 1).
    apply (round_from 1); [lia|lia|done|done|lia| |lia|lia].
    intros s' Hv. eapply (lead_along 0 _ 1 s' p x); [lia|lia| | |lia|lia|lia| |exact Hv].
    + cbn [best_path]. rewrite !lookup_delete_ne by lia. apply lookup_singleton_eq.
    + done.
    + unfold s, ISIZE_MIN_HALF; simpl; lia.
  - change [1] with (every_second 1 1 1).
    pose proof (at_point_bounds _ _ _ _ _ Hat') as [? ?]. pose proof Hat' as (_ & Hk' & _).
    apply (rest_of_round 1 1 1 1 _ (-1)); [lia|lia|done|done| |lia|lia].
    eapply lead_moved; [done..|lia|lia| |]; [unfold s, ISIZE_MIN_HALF; simpl; lia|by right].
Qed.

Lemma diff_components_aligned :
  ∃ cs, chain (diff_components new_tokens old_tokens).1 (diff_components new_tokens old_tokens).2 cs ∧
    aligned cs N M.
Proof.
  assert (H0 : at_point [] 0 (mkPath (-1) None) 0 0).
  { repeat split. exists []. split; constructor. }
  unfold diff_components.
  destruct (extract_common_moves _ _ _ _ _ H0) as (g & p & n & -> & _ & Hat). simpl in Hat.
  pose proof (at_point_bounds _ _ _ _ _ Hat) as [Hx Hy]. pose proof Hat as (Hp & _ & cs & Hc & Ha).
  unfold finished, old_len, new_len. rewrite Hp.
  destruct (_ && _) eqn:Ef.
  - apply andb_true_iff in Ef as [E1%Z.leb_le E2%Z.leb_le]. exists cs. split; [done|].
    by replace N with n by lia; replace M with n by lia.
  - assert (Hn : ¬ (n = N ∧ n = M)).
    { intros [E1 E2]. apply andb_false_iff in Ef as [Ef%Z.leb_gt|Ef%Z.leb_gt]; lia. }
    pose proof (seed_round g p n n Hat Hn) as Hs. cbv zeta in Hs.
    destruct (length new_tokens + length old_tokens)%nat as [|rounds] eqn:El; [lia|].
    cbn [search]. destruct (visit_diagonals _ _ _ _) as [g' last|s']; [done|].
    pose proof (search_finds rounds 1 s' ltac:(lia) ltac:(lia) Hs) as Hf.
    change (1 + 1) with 2 in *. by destruct (search _ _ rounds 2 s') as [g' last|s''].
Qed.
End aligned.

(** ** The parts of the diff *)

(** The texts a diff speaks about: all that was not added, all that was not removed. *)
Definition old_side (parts : list DiffPart) : str :=
  concat (map value (List.filter (λ p, negb (part_added p)) parts)).
Definition new_side (parts : list DiffPart) : str :=
  concat (map value (List.filter (λ p, negb (part_removed p)) parts)).

(** Neighbours differ in kind, and no part is both added and removed. *)
Fixpoint alternating (parts : list DiffPart) : bool :=
  match parts with
  | p :: (q :: _) as rest =>
      negb (eqb (part_added p) (part_added q) && eqb (part_removed p) (part_removed q))
      && negb (part_added p && part_removed p) && alternating rest
  | [p] => negb (part_added p && part_removed p)
  | [] => true
  end.

Lemma old_side_app l k : old_side (l ++ k) = old_side l ++ old_side k.
Proof. unfold old_side. by rewrite List.filter_app, map_app, concat_app. Qed.

Lemma new_side_app l k : new_side (l ++ k) = new_side l ++ new_side k.
Proof. unfold new_side. by rewrite List.filter_app, map_app, concat_app. Qed.

Lemma alternating_snoc l p :
  alternating (l ++ [p]) =
    alternating l && negb (part_added p && part_removed p) &&
    match last l with
    | Some q => negb (eqb (part_added q) (part_added p) && eqb (part_removed q) (part_removed p))
    | None => true
    end.
Proof.
  induction l as [|q [|r l] IH]; [by simpl; btauto|simpl; btauto|].
  change (alternating ((q :: r :: l) ++ [p])) with
    (negb (eqb (part_added q) (part_added r) && eqb (part_removed q) (part_removed r))
     && negb (part_added q && part_removed q) && alternating ((r :: l) ++ [p])).
  rewrite IH. change (last (q :: r :: l)) with (last (r :: l)).
  cbn [alternating]. btauto.
Qed.

Lemma push_part_sides parts v a r :
  old_side (push_part parts v a r) = old_side parts ++ (if a then [] else v) ∧
  new_side (push_part parts v a r) = new_side parts ++ (if r then [] else v).
Proof.
  assert (Hone : ∀ w, old_side [mkPart w a r] = (if a then [] else w) ∧
                      new_side [mkPart w a r] = (if r then [] else w)).
  { intros w. unfold old_side, new_side. simpl. destruct a, r; simpl; by rewrite ?app_nil_r. }
  unfold push_part. destruct (last parts) as [p|] eqn:El.
  2: { rewrite old_side_app, new_side_app. by destruct (Hone v) as [-> ->]. }
  destruct (_ && _) eqn:E.
  2: { rewrite old_side_app, new_side_app. by destruct (Hone v) as [-> ->]. }
  apply andb_true_iff in E as [Ea%eqb_prop Er%eqb_prop].
  apply last_Some in El as [l ->]. rewrite removelast_last, !old_side_app, !new_side_app.
  destruct p as [w a' r']; simpl in *; subst a' r'.
  destruct (Hone (w ++ v)) as [-> ->], (Hone w) as [-> ->].
  destruct a, r; by rewrite <-?app_assoc.
Qed.

Lemma push_part_alternating parts v a r :
  a && r = false → alternating parts = true → alternating (push_part parts v a r) = true.
Proof.
  intros Har Hp. unfold push_part. destruct (last parts) as [p|] eqn:El.
  2: { by rewrite alternating_snoc, El, Hp; simpl; rewrite Har. }
  destruct (eqb (part_added p) a && eqb (part_removed p) r) eqn:E.
  2: { rewrite alternating_snoc, El, Hp. simpl. by rewrite Har, E. }
  apply andb_true_iff in E as [Ea%eqb_prop Er%eqb_prop].
  apply last_Some in El as [l ->]. rewrite removelast_last.
  rewrite alternating_snoc in Hp. rewrite alternating_snoc. simpl. by rewrite <-Ea, <-Er.
Qed.

Lemma take_slice {A} (l : list A) x n : take (x + n) l = take x l ++ slice l x n.
Proof. unfold slice. by rewrite take_take_drop. Qed.

(** Walking an aligned script writes down both texts. *)
Lemma build_aligned new_tokens old_tokens cs x y :
  aligned new_tokens old_tokens cs x y →
  ∃ parts, fold_left (build_step old_tokens new_tokens) cs ([], O, O) = (parts, x, y) ∧
    old_side parts = concat (take x old_tokens) ∧ new_side parts = concat (take y new_tokens) ∧
    alternating parts = true.
Proof.
  induction 1 as [|cs x y n p _ (parts & Hf & Ho & Hn & Ha) He Hx Hy
                  |cs x y n p _ (parts & Hf & Ho & Hn & Ha) Hy
                  |cs x y n p _ (parts & Hf & Ho & Hn & Ha) Hx]; [by exists []|..];
    rewrite fold_left_app, Hf; cbn [fold_left build_step removed added count negb];
    eexists; (split; [done|]);
    (split; [|split; [|by apply push_part_alternating]]);
    rewrite ?take_slice, ?concat_app, <-?Ho, <-?Hn, ?He.
  - apply push_part_sides.
  - apply push_part_sides.
  - destruct (push_part_sides parts (concat (slice new_tokens y n)) true false) as [-> _]. apply app_nil_r.
  - apply push_part_sides.
  - apply push_part_sides.
  - destruct (push_part_sides parts (concat (slice old_tokens x n)) false true) as [_ ->]. apply app_nil_r.
Qed.

Lemma split_lines_concat current s : concat (split_lines current s) = current ++ s.
Proof.
  revert current. induction s as [|c s IH]; intros current; simpl.
  - destruct current; simpl; by rewrite ?app_nil_r.
  - destruct (c =? 10)%N; simpl; rewrite IH; by rewrite <-?app_assoc.
Qed.

Lemma concat_nonempty (l : list str) : concat (List.filter (λ x, negb (is_empty x)) l) = concat l.
Proof. induction l as [|[|c x] l IH]; simpl; by rewrite ?IH. Qed.

Definition tokens_of (content : str) : list str :=
  List.filter (λ l, negb (is_empty l)) (split_keeping_newlines content).

Lemma tokens_concat content : concat (tokens_of content) = content.
Proof.
  unfold tokens_of. rewrite concat_nonempty.
  destruct content; [done|]. unfold split_keeping_newlines. by rewrite split_lines_concat.
Qed.

Definition few_lines (old_content new_content : str) : Prop :=
  Z.of_nat (length (tokens_of old_content)) + Z.of_nat (length (tokens_of new_content)) < ISIZE_MAX_HALF.

(** The parts are written down along a script for the lines of both texts. *)
Lemma diff_lines_script old_content new_content :
  few_lines old_content new_content →
  let old_tokens := tokens_of old_content in
  let new_tokens := tokens_of new_content in
  ∃ cs, aligned new_tokens old_tokens cs (length old_tokens) (length new_tokens) ∧
    diff_lines old_content new_content = (fold_left (build_step old_tokens new_tokens) cs ([], O, O)).1.1.
Proof.
  intros Hfits. unfold diff_lines. fold (tokens_of old_content) (tokens_of new_content).
  destruct (diff_components_aligned (tokens_of new_content) (tokens_of old_content) Hfits) as (cs & Hc & Ha).
  destruct (diff_components _ _) as [g o]. simpl in Hc. unfold build_diff_parts.
  rewrite (component_chain_rev g o cs (length g) Hc), rev_involutive; [by exists cs|].
  intros i ->. by apply (chain_lookup g i cs).
Qed.

(** C32: The line diff shown for an edit is faithful: the parts that are not marked added
    spell out the old text exactly, the parts not marked removed spell out the new text,
    no part is both, and neighbouring parts differ in kind.  In particular the search
    always finds a script, whatever it cuts off; the texts only have to have fewer lines
    than half the range of [isize], which is where the code puts its infinities. *)
Theorem diff_lines_faithful (old_content new_content : str) :
  few_lines old_content new_content →
  let parts := diff_lines old_content new_content in
  old_side parts = old_content ∧ new_side parts = new_content ∧ alternating parts = true.
Proof.
  intros Hfits. destruct (diff_lines_script _ _ Hfits) as (cs & Ha & ->).
  destruct (build_aligned _ _ _ _ _ Ha) as (parts & -> & Ho & Hn & Halt). simpl.
  by rewrite Ho, Hn, !firstn_all, !tokens_concat.
Qed.

Lemma diff_lines_faithful_witness :
  let old := [97; 10; 98; 10; 99; 10]%N in
  let new := [97; 10; 120; 10; 99; 10; 100]%N in
  diff_lines old new =
    [mkPart [97; 10]%N false false; mkPart [98; 10]%N false true; mkPart [120; 10]%N true false;
     mkPart [99; 10]%N false false; mkPart [100]%N true false] ∧
  old_side (diff_lines old new) = old ∧ new_side (diff_lines old new) = new ∧
  alternating (diff_lines old new) = true.
Proof. split; [by vm_compute|]. apply diff_lines_faithful. by vm_compute. Defined.
