(* ===== verification/DiffString.v ===== *)
(** * The diff shown for an edit

    [pi-coding-agent/src/core/tools/edit_diff.rs] 682-806: [generate_diff_string] prints the
    parts of the line diff with line numbers, all changed lines and a few lines of
    context around them.  The output is modelled as the rows the code formats. *)
From stdpp Require Import base list numbers strings.
From S2P Require Import Prelude RustStr LineDiff.

(** ** Rows *)

Inductive row : Type :=
| RowAdded (line_num : nat) (line : str)      (* "+{line_num} {line}" *)
| RowRemoved (line_num : nat) (line : str)    (* "-{line_num} {line}" *)
| RowContext (line_num : nat) (line : str)    (* " {line_num} {line}" *)
| RowSkip.                                    (* " {blanks} ..." *)

Definition pad_start (text : str) (width : nat) (fill : N) : str :=
  if (width <=? length text)%nat then text else repeat fill (width - length text) ++ text.

Definition format_row (line_num_width : nat) (r : row) : str :=
  let num n := pad_start (dec (N.of_nat n)) line_num_width 32 in
  match r with
  | RowAdded n l => lit "+" ++ num n ++ lit " " ++ l
  | RowRemoved n l => lit "-" ++ num n ++ lit " " ++ l
  | RowContext n l => lit " " ++ num n ++ lit " " ++ l
  | RowSkip => lit " " ++ pad_start [] line_num_width 32 ++ lit " ..."
  end.

(** The lines of a part: the empty piece after its last newline is dropped. *)
Definition raw_lines (value : str) : list str :=
  let raw := split_on 10 value in
  match last raw with Some [] => removelast raw | _ => raw end.

(** ** The loop *)

Record loop_state : Type := mkLoop {
  output : list row;
  old_line_num : nat;
  new_line_num : nat;
  last_was_change : bool;
  first_changed_line : option nat }.

(** Number [lines] from [n] on. *)
Definition numbered (mk : nat → str → row) (n : nat) (lines : list str) : list row :=
  imap (λ i l, mk (n + i) l) lines.

Definition is_change (p : DiffPart) : bool := part_added p || part_removed p.

(** The rows of an unchanged part, from the line numbered [n]. *)
Definition context_rows (context_lines : nat) (leading trailing : bool) (n : nat) (raw : list str) : list row :=
  match leading, trailing with
  | true, true =>
      if (length raw <=? context_lines * 2)%nat then numbered RowContext n raw
      else
        let skipped := length raw - context_lines - context_lines in
        numbered RowContext n (take context_lines raw) ++ [RowSkip]
        ++ numbered RowContext (n + context_lines + skipped) (drop (length raw - context_lines) raw)
  | true, false =>
      let shown := take (Nat.min context_lines (length raw)) raw in
      let skipped := length raw - length shown in
      numbered RowContext n shown ++ (if (0 <? skipped)%nat then [RowSkip] else [])
  | false, true =>
      let skipped := length raw - context_lines in
      (if (0 <? skipped)%nat then [RowSkip] else []) ++ numbered RowContext (n + skipped) (drop skipped raw)
  | false, false => []
  end.

(** One iteration, with the part that follows. *)
Definition print_part (context_lines : nat) (s : loop_state) (part : DiffPart) (next : option DiffPart) : loop_state :=
  let raw := raw_lines (value part) in
  if is_change part then
    let first := match first_changed_line s with None => Some (new_line_num s) | Some n => Some n end in
    if part_added part then
      mkLoop (output s ++ numbered RowAdded (new_line_num s) raw)
        (old_line_num s) (new_line_num s + length raw) true first
    else
      mkLoop (output s ++ numbered RowRemoved (old_line_num s) raw)
        (old_line_num s + length raw) (new_line_num s) true first
  else
    let next_part_is_change := match next with Some p => is_change p | None => false end in
    mkLoop (output s ++ context_rows context_lines (last_was_change s) next_part_is_change (old_line_num s) raw)
      (old_line_num s + length raw) (new_line_num s + length raw) false (first_changed_line s).

Fixpoint print_parts (context_lines : nat) (s : loop_state) (parts : list DiffPart) : loop_state :=
  match parts with
  | [] => s
  | part :: rest => print_parts context_lines (print_part context_lines s part (head rest)) rest
  end.

Definition diff_rows (old_content new_content : str) (context_lines start_line : nat) : loop_state :=
  print_parts context_lines (mkLoop [] start_line start_line false None) (diff_lines old_content new_content).

Definition generate_diff_string (old_content new_content : str) (context_lines start_line : nat)
    : str * option nat :=
  let old_lines := split_on 10 old_content in
  let new_lines := split_on 10 new_content in
  let max_line_num := (start_line - 1 + Nat.max (length old_lines) (length new_lines))%nat in
  let line_num_width := length (dec (N.of_nat max_line_num)) in
  let s := diff_rows old_content new_content context_lines start_line in
  (join [10%N] (map (format_row line_num_width) (output s)), first_changed_line s).

(** ** Lines as tokens

    The tokens of a text are its lines with their newlines; only the last may lack one. *)

Inductive good : list str → Prop :=
| good_nil : good []
| good_last b : (10%N ∉ b) → b ≠ [] → good [b]
| good_cons b l : (10%N ∉ b) → good l → good ((b ++ [10%N]) :: l).

Abbreviation strip := (strip_suffix_or 10%N).

Lemma strip_line b : strip (b ++ [10%N]) = b.
Proof.
  unfold strip_suffix_or. by rewrite (proj2 (strip_suffix_char_Some 10%N (b ++ [10%N]) b) eq_refl).
Qed.

Lemma good_take l n : good l → good (take n l).
Proof.
  intros H. revert n. induction H; intros [|n]; simpl; try constructor; auto.
  destruct n; simpl; by constructor.
Qed.

Lemma good_drop l n : good l → good (drop n l).
Proof. intros H. revert n. induction H; intros [|n]; simpl; try (by constructor); [destruct n; constructor|auto]. Qed.

Lemma good_mid a l b : good (a ++ l ++ b) → good l.
Proof.
  intros H. apply (good_drop _ (length a)), (good_take _ (length l)) in H.
  by rewrite drop_app_length, take_app_length in H.
Qed.

(** The lines of a run of tokens are the tokens without their newlines. *)
Lemma raw_lines_concat l : good l → raw_lines (concat l) = map strip l.
Proof.
  induction 1 as [|b Hb Hne|b l Hb Hl IH]; [done| |].
  - cbn [concat map]. rewrite app_nil_r, strip_suffix_or_fresh by done. unfold raw_lines.
    rewrite split_on_fresh by done. simpl. by destruct b.
  - cbn [concat map]. rewrite strip_line, <-IH. unfold raw_lines. rewrite <-app_assoc. simpl.
    rewrite split_on_app by done. destruct (split_on 10 (concat l)) as [|x s] eqn:E;
      [by apply split_on_ne_nil in E|].
    change (last (b :: x :: s)) with (last (x :: s)). by destruct (last (x :: s)) as [[|]|].
Qed.

Lemma split_lines_good current s : (10%N ∉ current) → good (split_lines current s).
Proof.
  revert current. induction s as [|c s IH]; intros current Hc; simpl.
  - destruct current; by constructor.
  - destruct (N.eqb_spec c 10) as [->|Hne].
    + constructor; [done|]. apply IH. apply not_elem_of_nil.
    + apply IH. rewrite not_elem_of_app, list_elem_of_singleton. split; [done|congruence].
Qed.

Lemma good_nonempty l : good l → List.filter (λ t, negb (is_empty t)) l = l.
Proof.
  induction 1 as [|b Hb Hne|b l Hb Hl IH]; [done| |]; simpl.
  - by destruct b.
  - rewrite IH. by destruct b.
Qed.

Lemma tokens_good content : good (tokens_of content).
Proof.
  unfold tokens_of, split_keeping_newlines. destruct content as [|c content]; [constructor|].
  rewrite good_nonempty; apply split_lines_good, not_elem_of_nil.
Qed.

Lemma tokens_lines content : map strip (tokens_of content) = raw_lines content.
Proof. by rewrite <-raw_lines_concat, tokens_concat by apply tokens_good. Qed.

(** ** Parts as runs of tokens *)

Record run_part : Type := mkRun { run : list str; run_added : bool; run_removed : bool }.

Definition to_part (t : run_part) : DiffPart := mkPart (concat (run t)) (run_added t) (run_removed t).

Definition olds (ts : list run_part) : list str :=
  concat (map run (List.filter (λ t, negb (run_added t)) ts)).
Definition news (ts : list run_part) : list str :=
  concat (map run (List.filter (λ t, negb (run_removed t)) ts)).

Lemma olds_app a b : olds (a ++ b) = olds a ++ olds b.
Proof. unfold olds. by rewrite List.filter_app, map_app, concat_app. Qed.

Lemma news_app a b : news (a ++ b) = news a ++ news b.
Proof. unfold news. by rewrite List.filter_app, map_app, concat_app. Qed.

(** Pushing a run onto parts made of runs. *)
Lemma push_run ts l a r :
  ∃ ts', push_part (map to_part ts) (concat l) a r = map to_part ts' ∧
    olds ts' = olds ts ++ (if a then [] else l) ∧ news ts' = news ts ++ (if r then [] else l).
Proof.
  assert (Hone : ∀ k, olds [mkRun k a r] = (if a then [] else k) ∧ news [mkRun k a r] = (if r then [] else k)).
  { intros k. unfold olds, news. simpl. destruct a, r; simpl; by rewrite ?app_nil_r. }
  assert (Hnew : ∃ ts', map to_part ts ++ [mkPart (concat l) a r] = map to_part ts' ∧
    olds ts' = olds ts ++ (if a then [] else l) ∧ news ts' = news ts ++ (if r then [] else l)).
  { exists (ts ++ [mkRun l a r]). rewrite map_app, olds_app, news_app. by destruct (Hone l) as [-> ->]. }
  unfold push_part. destruct ts as [|t ts _] using rev_ind; [done|].
  rewrite map_app in *. cbn [map] in *. rewrite last_snoc.
  destruct (eqb _ a && eqb _ r) eqn:E; [|done].
  apply andb_true_iff in E as [Ea%eqb_prop Er%eqb_prop]. rewrite removelast_last.
  exists (ts ++ [mkRun (run t ++ l) a r]). rewrite map_app, !olds_app, !news_app. cbn [map].
  change (to_part (mkRun (run t ++ l) a r)) with (mkPart (concat (run t ++ l)) a r).
  rewrite concat_app. split; [done|].
  destruct t as [k a' r']; simpl in *; subst a' r'.
  destruct (Hone (k ++ l)) as [-> ->], (Hone k) as [-> ->].
  destruct a, r; by rewrite ?app_nil_r, <-?app_assoc.
Qed.

Lemma build_runs new_tokens old_tokens cs x y :
  aligned new_tokens old_tokens cs x y →
  ∃ ts, fold_left (build_step old_tokens new_tokens) cs ([], O, O) = (map to_part ts, x, y) ∧
    olds ts = take x old_tokens ∧ news ts = take y new_tokens.
Proof.
  induction 1 as [|cs x y n p _ (ts & Hf & Ho & Hn) He Hx Hy
                  |cs x y n p _ (ts & Hf & Ho & Hn) Hy
                  |cs x y n p _ (ts & Hf & Ho & Hn) Hx]; [by exists []|..];
    rewrite fold_left_app, Hf; cbn [fold_left build_step removed added count negb].
  - destruct (push_run ts (slice new_tokens y n) false false) as (ts' & -> & Ho' & Hn').
    exists ts'. by rewrite Ho', Hn', Ho, Hn, !take_slice, He.
  - destruct (push_run ts (slice new_tokens y n) true false) as (ts' & -> & Ho' & Hn').
    exists ts'. by rewrite Ho', Hn', Ho, Hn, !take_slice, app_nil_r.
  - destruct (push_run ts (slice old_tokens x n) false true) as (ts' & -> & Ho' & Hn').
    exists ts'. by rewrite Ho', Hn', Ho, Hn, !take_slice, app_nil_r.
Qed.

(** ** What the rows say *)

(** A row that quotes a line quotes the line of that number. *)
Definition row_true (start : nat) (old_lines new_lines : list str) (r : row) : Prop :=
  match r with
  | RowAdded n l => start ≤ n ∧ new_lines !! (n - start) = Some l
  | RowRemoved n l | RowContext n l => start ≤ n ∧ old_lines !! (n - start) = Some l
  | RowSkip => True
  end.

Definition is_change_row (r : row) : bool :=
  match r with RowAdded _ _ | RowRemoved _ _ => true | _ => false end.

(** The changes of a diff without any context: every line of every changed part. *)
Fixpoint change_rows (old_num new_num : nat) (parts : list DiffPart) : list row :=
  match parts with
  | [] => []
  | p :: rest =>
      let raw := raw_lines (value p) in
      if part_added p then numbered RowAdded new_num raw ++ change_rows old_num (new_num + length raw) rest
      else if part_removed p then numbered RowRemoved old_num raw ++ change_rows (old_num + length raw) new_num rest
      else change_rows (old_num + length raw) (new_num + length raw) rest
  end.

Lemma numbered_elem mk n lines r :
  r ∈ numbered mk n lines → ∃ i l, r = mk (n + i) l ∧ lines !! i = Some l.
Proof.
  unfold numbered. intros H. apply list_elem_of_lookup in H as [i Hi].
  rewrite list_lookup_imap in Hi. apply fmap_Some in Hi as (l & Hl & ->). eauto.
Qed.

Lemma numbered_filter (p : row → bool) mk n lines b :
  (∀ m l, p (mk m l) = b) → List.filter p (numbered mk n lines) = if b then numbered mk n lines else [].
Proof.
  intros Hp. unfold numbered. revert n. induction lines as [|l lines IH]; intros n; [by destruct b|].
  cbn [imap List.filter]. rewrite Hp.
  rewrite (imap_ext _ (λ i l, mk (S n + i) l)) by (intros; unfold compose; f_equal; lia).
  rewrite (IH (S n)). by destruct b.
Qed.

Lemma context_rows_elem c lead trail n raw r :
  r ∈ context_rows c lead trail n raw → r = RowSkip ∨ ∃ i l, r = RowContext (n + i) l ∧ raw !! i = Some l.
Proof.
  assert (Hsub : ∀ k m lines, (∀ i l, lines !! i = Some l → raw !! (k + i) = Some l) → m = n + k →
    r ∈ numbered RowContext m lines → r = RowSkip ∨ ∃ i l, r = RowContext (n + i) l ∧ raw !! i = Some l).
  { intros k m lines Hl -> (i & l & -> & Hi)%numbered_elem. right. exists (k + i), l.
    split; [f_equal; lia|by apply Hl]. }
  assert (Htake : ∀ m i l, take m raw !! i = Some l → raw !! (0 + i) = Some l).
  { intros m i l [H _]%lookup_take_Some. done. }
  unfold context_rows. destruct lead, trail.
  - destruct (Nat.leb_spec (length raw) (c * 2)).
    + apply (Hsub 0); [done|lia].
    + rewrite !elem_of_app, list_elem_of_singleton. intros [H'|[->|H']]; [|by left|].
      * revert H'. apply (Hsub 0); [by eapply Htake|lia].
      * revert H'. apply (Hsub (length raw - c)); [|lia]. intros i l Hi. by rewrite lookup_drop in Hi.
  - rewrite elem_of_app. intros [H'|H'].
    + revert H'. apply (Hsub 0); [by eapply Htake|lia].
    + destruct (0 <? _)%nat; [apply list_elem_of_singleton in H'; by left|by apply elem_of_nil in H'].
  - rewrite elem_of_app. intros [H'|H'].
    + destruct (0 <? _)%nat; [apply list_elem_of_singleton in H'; by left|by apply elem_of_nil in H'].
    + revert H'. apply (Hsub (length raw - c)); [|lia]. intros i l Hi. by rewrite lookup_drop in Hi.
  - by intros ?%elem_of_nil.
Qed.

Lemma context_rows_filter c lead trail n raw : List.filter is_change_row (context_rows c lead trail n raw) = [].
Proof.
  apply filter_all_false. intros r Hr.
  apply context_rows_elem in Hr as [->|(i & l & -> & _)]; done.
Qed.

(** No change is hidden: the changed rows of the output are all the changed lines, in
    order and with their numbers, whatever context is shown. *)
Lemma print_parts_changes c s parts :
  List.filter is_change_row (output (print_parts c s parts)) =
    List.filter is_change_row (output s) ++ change_rows (old_line_num s) (new_line_num s) parts.
Proof.
  revert s. induction parts as [|p rest IH]; intros s; simpl; [by rewrite app_nil_r|].
  rewrite IH. unfold print_part, is_change.
  destruct (part_added p) eqn:Ea; [|destruct (part_removed p) eqn:Er]; simpl; rewrite List.filter_app, <-app_assoc; f_equal.
  - f_equal. by apply (numbered_filter is_change_row _ _ _ true).
  - f_equal. by apply (numbered_filter is_change_row _ _ _ true).
  - by rewrite context_rows_filter.
Qed.

Definition one_sided (t : run_part) : Prop := run_added t && run_removed t = false.

Lemma olds_cons t ts : olds (t :: ts) = (if run_added t then [] else run t) ++ olds ts.
Proof. unfold olds. simpl. by destruct (run_added t). Qed.

Lemma news_cons t ts : news (t :: ts) = (if run_removed t then [] else run t) ++ news ts.
Proof. unfold news. simpl. by destruct (run_removed t). Qed.

Lemma runs_good ts : Forall one_sided ts → good (olds ts) → good (news ts) → Forall (λ t, good (run t)) ts.
Proof.
  induction 1 as [|t ts Ht _ IH]; intros Ho Hn; [constructor|].
  rewrite olds_cons in Ho. rewrite news_cons in Hn. constructor.
  - unfold one_sided in Ht. destruct (run_added t); [destruct (run_removed t); [done|]|].
    + by apply (good_mid [] (run t) (news ts)).
    + by apply (good_mid [] (run t) (olds ts)).
  - apply IH.
    + apply (good_mid (if run_added t then [] else run t) (olds ts) []). by rewrite app_nil_r.
    + apply (good_mid (if run_removed t then [] else run t) (news ts) []). by rewrite app_nil_r.
Qed.

Lemma lookup_run (O l R : list str) i x :
  map strip l !! i = Some x → map strip (O ++ l ++ R) !! (length O + i) = Some x.
Proof.
  intros H. rewrite !map_app. rewrite lookup_app_r by (rewrite length_map; lia).
  rewrite length_map. replace (length O + i - length O) with i by lia.
  by apply lookup_app_l_Some.
Qed.

(** Printing the rest of the parts keeps every row true. *)
Lemma print_parts_true c start s ts O W :
  Forall one_sided ts → Forall (λ t, good (run t)) ts →
  old_line_num s = start + length O → new_line_num s = start + length W →
  let rt := row_true start (map strip (O ++ olds ts)) (map strip (W ++ news ts)) in
  Forall rt (output s) → Forall rt (output (print_parts c s (map to_part ts))).
Proof.
  intros H1 Hg. revert s O W. induction ts as [|t ts IH]; intros s O W Hos Hns rt Hs; [done|].
  apply Forall_cons in H1 as [Ht H1]. apply Forall_cons in Hg as [Hgt Hg].
  set (O' := O ++ if run_added t then [] else run t). set (W' := W ++ if run_removed t then [] else run t).
  assert (Hrt : rt = row_true start (map strip (O' ++ olds ts)) (map strip (W' ++ news ts))).
  { unfold rt, O', W'. by rewrite olds_cons, news_cons, !app_assoc. }
  cbn [map print_parts]. rewrite Hrt. subst O' W'.
  apply (IH H1 Hg); unfold print_part, is_change; cbn [to_part value part_added part_removed];
    rewrite (raw_lines_concat (run t) Hgt).
  - destruct (run_added t), (run_removed t); simpl; rewrite ?length_app, ?length_map; simpl; (done || lia).
  - unfold one_sided in Ht. destruct (run_added t), (run_removed t); simpl;
      rewrite ?length_app, ?length_map; simpl; (done || lia).
  - rewrite <-Hrt. unfold rt. rewrite olds_cons, news_cons. unfold one_sided in Ht.
    destruct (run_added t) eqn:Ea, (run_removed t) eqn:Er; [done|..]; cbn [orb output]; apply Forall_app;
      (split; [by unfold rt in Hs; rewrite olds_cons, news_cons, Ea, Er in Hs|]);
      apply Forall_forall; intros r Hr.
    + apply numbered_elem in Hr as (i & l & -> & Hl). rewrite Hns. split; [lia|].
      replace (start + length W + i - start) with (length W + i) by lia. by apply lookup_run.
    + apply numbered_elem in Hr as (i & l & -> & Hl). rewrite Hos. split; [lia|].
      replace (start + length O + i - start) with (length O + i) by lia. by apply lookup_run.
    + apply context_rows_elem in Hr as [->|(i & l & -> & Hl)]; [done|]. rewrite Hos. split; [lia|].
      replace (start + length O + i - start) with (length O + i) by lia. by apply lookup_run.
Qed.

(** ** The first changed line *)

(** The lines before the first changed part. *)
Fixpoint lead_common (ts : list run_part) : list str :=
  match ts with
  | t :: rest => if run_added t || run_removed t then [] else run t ++ lead_common rest
  | [] => []
  end.

Lemma lead_common_olds ts : ∃ r, olds ts = lead_common ts ++ r.
Proof.
  induction ts as [|t ts [r IH]]; [by exists []|]. rewrite olds_cons. cbn [lead_common].
  destruct (run_added t); [by eexists|]. destruct (run_removed t); [by eexists|].
  exists r. simpl. by rewrite IH, <-app_assoc.
Qed.

Lemma lead_common_news ts : ∃ r, news ts = lead_common ts ++ r.
Proof.
  induction ts as [|t ts [r IH]]; [by exists []|]. rewrite news_cons. cbn [lead_common].
  destruct (run_added t), (run_removed t); [by eexists..|].
  exists r. simpl. by rewrite IH, <-app_assoc.
Qed.

Lemma lead_common_all ts :
  existsb (λ t, run_added t || run_removed t) ts = false → olds ts = news ts.
Proof.
  induction ts as [|t ts IH]; [done|]. cbn [existsb]. intros [Ht H]%orb_false_iff.
  apply orb_false_iff in Ht as [Ha Hr]. by rewrite olds_cons, news_cons, Ha, Hr, IH.
Qed.

Lemma print_parts_first c s ts :
  Forall (λ t, good (run t)) ts →
  first_changed_line (print_parts c s (map to_part ts)) =
    match first_changed_line s with
    | Some n => Some n
    | None => if existsb (λ t, run_added t || run_removed t) ts
              then Some (new_line_num s + length (lead_common ts)) else None
    end.
Proof.
  intros Hg. revert s. induction Hg as [|t ts Ht _ IH]; intros s; [by simpl; destruct (first_changed_line s)|].
  cbn [map print_parts]. rewrite IH. unfold print_part, is_change.
  cbn [to_part value part_added part_removed existsb lead_common]. rewrite (raw_lines_concat (run t) Ht).
  destruct (run_added t), (run_removed t); cbn [orb first_changed_line new_line_num];
    destruct (first_changed_line s); try done; try (f_equal; simpl; lia).
  rewrite length_map. destruct (existsb _ ts); [|done]. f_equal. rewrite length_app. lia.
Qed.

Lemma alternating_one_sided ts : alternating (map to_part ts) = true → Forall one_sided ts.
Proof.
  induction ts as [|t [|u ts] IH]; [constructor|..].
  - simpl. intros H%negb_true_iff. by repeat constructor.
  - cbn [map alternating]. intros H. rewrite !andb_true_iff, !negb_true_iff in H.
    destruct H as [[_ H1] H2]. constructor; [exact H1|]. by apply IH.
Qed.

(** The parts of a diff are runs of the tokens of both texts. *)
Lemma diff_lines_runs old_content new_content :
  few_lines old_content new_content →
  ∃ ts, diff_lines old_content new_content = map to_part ts ∧ olds ts = tokens_of old_content ∧
    news ts = tokens_of new_content ∧ Forall one_sided ts ∧ Forall (λ t, good (run t)) ts.
Proof.
  intros H. destruct (diff_lines_script _ _ H) as (cs & Ha & ->).
  destruct (build_runs _ _ _ _ _ Ha) as (ts & Hf & Ho & Hn).
  destruct (build_aligned _ _ _ _ _ Ha) as (parts & Hf' & _ & _ & Halt).
  rewrite Hf in Hf'. injection Hf' as <-. rewrite Hf. rewrite firstn_all in Ho, Hn.
  apply alternating_one_sided in Halt. exists ts. do 4 (split; [done|]).
  apply runs_good; [done|rewrite Ho|rewrite Hn]; apply tokens_good.
Qed.

(** The diff printed for an edit tells the truth.  A line printed with "+" and a number
    is the line of that number of the new text, one printed with "-" or as context is
    the line of that number of the old text; no changed line is missing, whatever is
    skipped between them; and the first changed line that is reported comes after lines
    the two texts have in common - without one, the texts are equal. *)
Theorem diff_rows_truthful old_content new_content context_lines start_line :
  few_lines old_content new_content →
  let s := diff_rows old_content new_content context_lines start_line in
  Forall (row_true start_line (raw_lines old_content) (raw_lines new_content)) (output s) ∧
  List.filter is_change_row (output s) = change_rows start_line start_line (diff_lines old_content new_content) ∧
  match first_changed_line s with
  | None => old_content = new_content
  | Some k => start_line ≤ k ∧
      take (k - start_line) (raw_lines old_content) = take (k - start_line) (raw_lines new_content)
  end.
Proof.
  intros H. destruct (diff_lines_runs _ _ H) as (ts & Hd & Ho & Hn & H1 & Hg).
  unfold diff_rows. rewrite Hd. split; [|split].
  - pose proof (print_parts_true context_lines start_line (mkLoop [] start_line start_line false None) ts [] [] H1 Hg)
      as Ht. cbn [app length] in Ht. rewrite Ho, Hn, !tokens_lines in Ht.
    apply Ht; simpl; [lia|lia|constructor].
  - by rewrite print_parts_changes.
  - rewrite (print_parts_first _ _ _ Hg). cbn [first_changed_line new_line_num].
    destruct (existsb _ ts) eqn:E.
    + split; [lia|]. rewrite <-!tokens_lines, <-Ho, <-Hn.
      destruct (lead_common_olds ts) as [r ->], (lead_common_news ts) as [r' ->].
      replace (start_line + length (lead_common ts) - start_line) with (length (lead_common ts)) by lia.
      by rewrite !map_app, !take_app_le, !take_ge by (rewrite length_map; lia).
    + apply lead_common_all in E. rewrite Ho, Hn in E.
      by rewrite <-(tokens_concat old_content), <-(tokens_concat new_content), E.
Qed.

Lemma diff_rows_truthful_witness :
  let old := lit "a" ++ [10%N] ++ lit "b" ++ [10%N] ++ lit "c" in
  let new := lit "a" ++ [10%N] ++ lit "x" ++ [10%N] ++ lit "c" in
  (generate_diff_string old new 4 1).1 =
    join [10%N] [lit " 1 a"; lit "-2 b"; lit "+2 x"; lit " 3 c"] ∧
  Forall (row_true 1 (raw_lines old) (raw_lines new)) (output (diff_rows old new 4 1)).
Proof. cbv zeta. split; [by vm_compute|]. apply diff_rows_truthful. by vm_compute. Defined.
