(* ===== verification/FileMutationQueue.v ===== *)
(** * The file mutation queue

    [pi-coding-agent/src/core/tools/file_mutation_queue.rs]: read-modify-write tools
    take a per-file turn before they touch a file.  Callers run on several threads and
    may be dropped at any [await], so the component is modelled as a transition system:
    one action per atomic access to the shared state (the locked map of queues, the
    [released] flag of a link), in every interleaving.  The links form the chain the
    code builds: an arena of [QueueNode]s that point back by index. *)
From stdpp Require Import base list gmap strings.
From S2P Require Import Prelude RustStr.

(** ** State *)

(** Where the caller that owns a link stands.  A link has one caller, and the guard of
    that caller is what releases it. *)
Inductive phase : Type :=
| Waiting (links : list nat)      (* [await_chained_settled], the links left to await *)
| Running                         (* inside [run().await] *)
| Dropping                        (* the guard's [drop] has begun *)
| Tailing (cursor : option nat)   (* [live_tail], before looking at [cursor] *)
| Locking (live_tail : option nat)
| Gone.

Record QueueNode : Type := mkNode {
  key : str;
  released : bool;
  previous : option nat;
  at_phase : phase }.

Record State : Type := mkState { nodes : list QueueNode; queues : gmap str nat }.

Definition empty_state : State := mkState [] ∅.

(** ** Operations *)

Definition set_phase (p : phase) (n : QueueNode) : QueueNode :=
  mkNode (key n) (released n) (previous n) p.

(** [QueueNode::release], at the start of the guard's [drop]. *)
Definition release (n : QueueNode) : QueueNode :=
  mkNode (key n) true (previous n) (Tailing (previous n)).

(** The links from [next] back to the oldest. *)
Fixpoint links_from (fuel : nat) (ns : list QueueNode) (next : option nat) : list nat :=
  match fuel, next with
  | S fuel, Some i =>
      match ns !! i with
      | Some n => i :: links_from fuel ns (previous n)
      | None => []
      end
  | _, _ => []
  end.

(** The chain [await_chained_settled] walks, oldest link first; it collects the links
    before it awaits any. *)
Definition chained (ns : list QueueNode) (current_queue : option nat) : list nat :=
  rev (links_from (length ns) ns current_queue).

(** The critical section of [with_file_mutation_queue]. *)
Definition enter (k : str) (s : State) : State :=
  let current_queue := queues s !! k in
  mkState (nodes s ++ [mkNode k false current_queue (Waiting (chained (nodes s) current_queue))])
          (<[k := length (nodes s)]> (queues s)).

Definition with_node (i : nat) (f : QueueNode → option QueueNode) (s : State) : option State :=
  n ← nodes s !! i; n' ← f n; Some (mkState (<[i := n']> (nodes s)) (queues s)).

Definition is_released (ns : list QueueNode) (i : nat) : bool :=
  match ns !! i with Some n => released n | None => false end.

(** The [await] of the oldest link left: it returns once the link is released. *)
Definition observe (ns : list QueueNode) (n : QueueNode) : option QueueNode :=
  match at_phase n with
  | Waiting (l :: rest) => if is_released ns l then Some (set_phase (Waiting rest) n) else None
  | _ => None
  end.

(** All links settled: [run()] is called. *)
Definition start (n : QueueNode) : option QueueNode :=
  match at_phase n with Waiting [] => Some (set_phase Running n) | _ => None end.

(** [run()] has returned, panicked or been dropped. *)
Definition complete (n : QueueNode) : option QueueNode :=
  match at_phase n with Running => Some (set_phase Dropping n) | _ => None end.

(** The future is dropped while it waits. *)
Definition cancel (n : QueueNode) : option QueueNode :=
  match at_phase n with Waiting _ => Some (set_phase Dropping n) | _ => None end.

Definition do_release (n : QueueNode) : option QueueNode :=
  match at_phase n with Dropping => Some (release n) | _ => None end.

(** One iteration of the loop of [live_tail]. *)
Definition tail_step (ns : list QueueNode) (n : QueueNode) : option QueueNode :=
  match at_phase n with
  | Tailing None => Some (set_phase (Locking None) n)
  | Tailing (Some c) =>
      match ns !! c with
      | Some m => Some (set_phase (if released m then Tailing (previous m) else Locking (Some c)) n)
      | None => None
      end
  | _ => None
  end.

(** The critical section of the guard's [drop]. *)
Definition settle (i : nat) (s : State) : option State :=
  n ← nodes s !! i;
  match at_phase n with
  | Locking live_tail =>
      let queues' :=
        match queues s !! key n with
        | Some current =>
            if Nat.eqb current i then
              match live_tail with
              | Some t => <[key n := t]> (queues s)
              | None => delete (key n) (queues s)
              end
            else queues s
        | None => queues s
        end in
      Some (mkState (<[i := set_phase Gone n]> (nodes s)) queues')
  | _ => None
  end.

Inductive action : Type :=
| Enter (k : str)
| Observe (i : nat)
| Start (i : nat)
| Complete (i : nat)
| Cancel (i : nat)
| Release (i : nat)
| Tail (i : nat)
| Settle (i : nat).

Definition step (a : action) (s : State) : option State :=
  match a with
  | Enter k => Some (enter k s)
  | Observe i => with_node i (observe (nodes s)) s
  | Start i => with_node i start s
  | Complete i => with_node i complete s
  | Cancel i => with_node i cancel s
  | Release i => with_node i do_release s
  | Tail i => with_node i (tail_step (nodes s)) s
  | Settle i => settle i s
  end.

Fixpoint run (acts : list action) (s : State) : option State :=
  match acts with
  | [] => Some s
  | a :: acts => s' ← step a s; run acts s'
  end.

(** ** Chains of links *)

Abbreviation links ns := (previous <$> ns).

(** [behind ps o j]: link [j] is on the chain that ends in [o]. *)
Inductive behind (ps : list (option nat)) : option nat → nat → Prop :=
| behind_here i p : ps !! i = Some p → behind ps (Some i) i
| behind_next i p j : ps !! i = Some p → behind ps p j → behind ps (Some i) j.

Lemma behind_app ps ps' o j : behind ps o j → behind (ps ++ ps') o j.
Proof. induction 1; econstructor; eauto using lookup_app_l_Some. Qed.

Lemma behind_lt ps o j :
  (∀ i p, ps !! i = Some (Some p) → p < i) → behind ps o j → ∀ i, o = Some i → j ≤ i.
Proof.
  intros Hback. induction 1 as [i p Hi|i p j Hi Hb IH]; intros i' [= <-]; [lia|].
  destruct p as [p|]; [|by inversion Hb].
  specialize (IH p eq_refl). specialize (Hback i p Hi). lia.
Qed.

(** A caller that is not released yet. *)
Definition live (ns : list QueueNode) (j : nat) : bool :=
  match ns !! j with Some m => negb (released m) | None => false end.

Definition backward (ns : list QueueNode) : Prop :=
  ∀ i n j, ns !! i = Some n → previous n = Some j → j < i.

Lemma backward_links ns : backward ns → ∀ i p, links ns !! i = Some (Some p) → p < i.
Proof.
  intros H i p Hl. rewrite list_lookup_fmap in Hl. apply fmap_Some in Hl as (n & Hn & Hp).
  by eapply H.
Qed.

Lemma links_from_behind ns fuel o j :
  backward ns → (∀ i, o = Some i → i < fuel) → j ∈ links_from fuel ns o ↔ behind (links ns) o j.
Proof.
  intros Hb. revert o. induction fuel as [|fuel IH]; intros o Hf.
  - destruct o as [i|]; [by specialize (Hf i eq_refl); lia|]. simpl.
    split; [by intros ?%elem_of_nil|by inversion 1].
  - destruct o as [i|]; simpl; [|split; [by intros ?%elem_of_nil|by inversion 1]].
    assert (Hl : links ns !! i = previous <$> ns !! i) by apply list_lookup_fmap.
    destruct (ns !! i) as [n|] eqn:En; simpl in Hl.
    + rewrite elem_of_cons, IH by (intros p Hp; specialize (Hb i n p En Hp); specialize (Hf i eq_refl); lia).
      split; [intros [->|H]|inversion 1; subst; [by left|right]].
      * by econstructor.
      * by eapply behind_next.
      * congruence.
    + split; [by intros ?%elem_of_nil|]. inversion 1; congruence.
Qed.

(** ** The invariant *)

(** What a caller knows in each phase of the links it was chained onto. *)
Definition phase_ok (ns : list QueueNode) (n : QueueNode) : Prop :=
  let chain := behind (links ns) (previous n) in
  match at_phase n with
  | Waiting rest => released n = false ∧ (∀ j, chain j → live ns j = true → j ∈ rest) ∧ (∀ j, j ∈ rest → chain j)
  | Running => released n = false ∧ (∀ j, chain j → live ns j = false)
  | Dropping => released n = false
  | Tailing o | Locking o =>
      released n = true ∧ (∀ j, chain j → live ns j = true → behind (links ns) o j) ∧
      (∀ j, o = Some j → chain j)
  | Gone => released n = true
  end.

Record inv (s : State) : Prop := {
  inv_backward : backward (nodes s);
  inv_same_key : ∀ i n j m,
    nodes s !! i = Some n → behind (links (nodes s)) (previous n) j → nodes s !! j = Some m → key m = key n;
  inv_queue_key : ∀ k i, queues s !! k = Some i → ∃ n, nodes s !! i = Some n ∧ key n = k;
  inv_previous : ∀ i n j, nodes s !! i = Some n → previous n = Some j → is_Some (nodes s !! j);
  (* the map leads to every caller that is not released *)
  inv_live : ∀ j m, nodes s !! j = Some m → released m = false →
    behind (links (nodes s)) (queues s !! key m) j;
  (* a caller is chained onto every earlier one that is not released *)
  inv_older : ∀ i n j m, nodes s !! i = Some n → nodes s !! j = Some m → key m = key n → j < i →
    released m = false → behind (links (nodes s)) (previous n) j;
  inv_phase : ∀ i n, nodes s !! i = Some n → phase_ok (nodes s) n }.

Lemma empty_inv : inv empty_state.
Proof. by constructor; intros ?; rewrite ?lookup_nil, ?lookup_empty; try done; intros; rewrite lookup_nil in *. Qed.

Lemma live_insert ns i n n' j :
  ns !! i = Some n → (released n = true → released n' = true) →
  live (<[i := n']> ns) j = true → live ns j = true.
Proof.
  intros Hi Hr. unfold live. destruct (decide (i = j)) as [->|Hne].
  - rewrite list_lookup_insert_eq by (by eapply lookup_lt_Some). rewrite Hi.
    destruct (released n), (released n'); naive_solver.
  - by rewrite list_lookup_insert_ne.
Qed.

Lemma live_spec ns j m : ns !! j = Some m → live ns j = negb (released m).
Proof. unfold live. by intros ->. Qed.

Lemma links_insert (ns : list QueueNode) (i : nat) n n' :
  ns !! i = Some n → previous n' = previous n → links (<[i := n']> ns) = links ns.
Proof.
  intros Hi Hp. rewrite list_fmap_insert, Hp. apply list_insert_id.
  by rewrite list_lookup_fmap, Hi.
Qed.

(** Knowledge about released links is never lost. *)
Lemma phase_ok_mono (ns ns' : list QueueNode) n :
  links ns' = links ns → (∀ j, live ns' j = true → live ns j = true) →
  phase_ok ns n → phase_ok ns' n.
Proof.
  intros Hl Hlive. unfold phase_ok. rewrite Hl.
  destruct (at_phase n); [| | |intros (H1 & H2 & H3)..|]; [intros (H1 & H2 & H3)|intros [H1 H2]|done|..];
    (split; [done|]) || done.
  - split; [|done]. intros j Hc Hj. by apply H2, Hlive.
  - intros j Hj. specialize (H2 j Hj).
    destruct (live ns' j) eqn:E; [|done]. by rewrite (Hlive j E) in H2.
  - split; [|done]. intros j Hc Hj. by apply H2; [|apply Hlive].
  - split; [|done]. intros j Hc Hj. by apply H2; [|apply Hlive].
Qed.

(** One caller moves on: it keeps its place, may become released, and knows what its
    new phase asks for. *)
Lemma inv_update s i n n' :
  inv s → nodes s !! i = Some n →
  key n' = key n → previous n' = previous n → (released n = true → released n' = true) →
  phase_ok (nodes s) n' →
  inv (mkState (<[i := n']> (nodes s)) (queues s)).
Proof.
  intros [Hback Hkey Hqk Hprev Hlive Hold Hph] Hi Hk Hp Hr Hok.
  pose proof (links_insert (nodes s) i n n' Hi Hp) as Hl.
  assert (Hback_to : ∀ j m, <[i := n']> (nodes s) !! j = Some m →
    ∃ m0, nodes s !! j = Some m0 ∧ key m = key m0 ∧ previous m = previous m0 ∧
          (released m = false → released m0 = false)).
  { intros j m Hj. apply list_lookup_insert_Some in Hj as [(-> & <- & _)|[_ Hj]]; [|by exists m].
    exists n. repeat split; try done. destruct (released n); naive_solver. }
  constructor; simpl; rewrite ?Hl.
  - intros j m p Hj. destruct (Hback_to j m Hj) as (m0 & Hj0 & _ & -> & _). by apply Hback.
  - intros j m p q Hj Hb Hq. destruct (Hback_to j m Hj) as (m0 & Hj0 & -> & Hp0 & _).
    destruct (Hback_to p q Hq) as (q0 & Hq0 & -> & _). rewrite Hp0 in Hb. by eapply Hkey.
  - intros k j Hj. destruct (Hqk k j Hj) as (m & Hm & <-).
    destruct (decide (i = j)) as [->|Hne]; [|by exists m; rewrite list_lookup_insert_ne].
    exists n'. rewrite list_lookup_insert_eq by (by eapply lookup_lt_Some). naive_solver.
  - intros j m p Hj. destruct (Hback_to j m Hj) as (m0 & Hj0 & _ & -> & _). intros Hm.
    destruct (Hprev j m0 p Hj0 Hm) as [q Hq]. apply lookup_lt_is_Some.
    rewrite length_insert. by eapply lookup_lt_Some.
  - intros j m Hj Hm. destruct (Hback_to j m Hj) as (m0 & Hj0 & -> & _ & Hrel). by apply Hlive; auto.
  - intros a m b q Ha Hb. destruct (Hback_to a m Ha) as (m0 & Ha0 & -> & -> & _).
    destruct (Hback_to b q Hb) as (q0 & Hb0 & -> & _ & Hrel). intros. by eapply Hold; eauto.
  - intros j m Hj.
    apply (phase_ok_mono (nodes s)); [done|by intros x; apply (live_insert _ _ n)|].
    apply list_lookup_insert_Some in Hj as [(-> & <- & _)|[_ Hj]]; [done|by eapply Hph].
Qed.

Lemma behind_back ps o j :
  behind ps o j → ∃ i, o = Some i ∧ i < length ps ∧ j < length ps.
Proof.
  induction 1 as [i p Hi|i p j Hi Hb (i' & -> & _ & Hj)]; exists i; split; try done;
    apply lookup_lt_Some in Hi; lia.
Qed.

Lemma behind_trans ps o i j : behind ps o i → behind ps (Some i) j → behind ps o j.
Proof. intros H. revert j. induction H; intros; [done|eauto using behind_next]. Qed.

Lemma elem_of_rev {A} (l : list A) x : x ∈ rev l ↔ x ∈ l.
Proof. by rewrite rev_alt, <-(elem_of_reverse x l). Qed.

Lemma lookup_snoc {A} (l : list A) x i y :
  (l ++ [x]) !! i = Some y → l !! i = Some y ∨ (i = length l ∧ y = x).
Proof.
  intros [H|[H1 H2]]%lookup_app_Some; [by left|right].
  apply list_lookup_singleton_Some in H2 as [H2 <-]. split; [lia|done].
Qed.

(** A new link does not change the chains of the old ones. *)
Lemma behind_snoc (ns : list QueueNode) nn o j :
  backward ns → (∀ i, o = Some i → i < length ns) →
  behind (links (ns ++ [nn])) o j → behind (links ns) o j.
Proof.
  intros Hback Ho H. rewrite fmap_app in H. induction H as [i p Hi|i p j Hi Hb IH];
    rewrite lookup_app_l in Hi by (rewrite length_fmap; auto).
  - by apply (behind_here _ _ p).
  - apply (behind_next _ _ p); [done|]. apply IH. intros q ->.
    apply (backward_links _ Hback) in Hi. specialize (Ho i eq_refl). lia.
Qed.

Lemma previous_lt s i n q : inv s → nodes s !! i = Some n → previous n = Some q → q < length (nodes s).
Proof. intros H Hi Hq. destruct (inv_previous s H i n q Hi Hq) as [m Hm]. by eapply lookup_lt_Some. Qed.

Lemma queue_lt s k i : inv s → queues s !! k = Some i → i < length (nodes s).
Proof. intros H Hi. destruct (inv_queue_key s H k i Hi) as (n & Hn & _). by eapply lookup_lt_Some. Qed.

(** The chain the map leads to is of one file. *)
Lemma queue_same_key s k j m :
  inv s → behind (links (nodes s)) (queues s !! k) j → nodes s !! j = Some m → key m = k.
Proof.
  intros H Hb Hj.
  inversion Hb as [q p Hq Ho Hqj|q p j' Hq Hb' Ho Hqj]; subst;
    destruct (inv_queue_key s H k _ (eq_sym Ho)) as (n & Hn & <-); [congruence|].
  eapply (inv_same_key s H); [exact Hn| |exact Hj].
  rewrite list_lookup_fmap, Hn in Hq. simpl in Hq. by injection Hq as ->.
Qed.

Definition newcomer (k : str) (s : State) : QueueNode :=
  mkNode k false (queues s !! k) (Waiting (chained (nodes s) (queues s !! k))).

Lemma newcomer_ok k s : inv s → phase_ok (nodes s ++ [newcomer k s]) (newcomer k s).
Proof.
  intros H. unfold phase_ok, chained. simpl.
  assert (Hc : ∀ j, j ∈ links_from (length (nodes s)) (nodes s) (queues s !! k) ↔
                    behind (links (nodes s)) (queues s !! k) j).
  { intros j. apply links_from_behind; [apply (inv_backward s H)|]. intros i. by apply queue_lt. }
  split; [done|]. setoid_rewrite elem_of_rev. split.
  - intros j Hb _. apply Hc. eapply behind_snoc; [apply (inv_backward s H)|intros i; by apply queue_lt|exact Hb].
  - intros j Hj. rewrite fmap_app. by apply behind_app, Hc.
Qed.

Lemma live_snoc (ns : list QueueNode) nn j : j < length ns → live (ns ++ [nn]) j = live ns j.
Proof. intros H. unfold live. by rewrite lookup_app_l. Qed.

Lemma phase_ok_snoc s i n nn :
  inv s → nodes s !! i = Some n → phase_ok (nodes s ++ [nn]) n.
Proof.
  intros H Hi. pose proof (inv_phase s H i n Hi) as Hok. unfold phase_ok in *.
  assert (Hc : ∀ j, behind (links (nodes s ++ [nn])) (previous n) j → behind (links (nodes s)) (previous n) j).
  { intros j. apply behind_snoc; [apply (inv_backward s H)|]. intros q. by eapply previous_lt. }
  assert (Hl : ∀ j, behind (links (nodes s)) (previous n) j → live (nodes s ++ [nn]) j = live (nodes s) j).
  { intros j Hj. apply behind_back in Hj as (? & _ & _ & Hj). rewrite length_fmap in Hj. by apply live_snoc. }
  assert (Hu : ∀ o j, behind (links (nodes s)) o j → behind (links (nodes s ++ [nn])) o j).
  { intros o j. rewrite fmap_app. apply behind_app. }
  destruct (at_phase n).
  - destruct Hok as (H1 & H2 & H3). split; [done|]. split; [|by intros j Hj; apply Hu, H3].
    intros j Hj. specialize (Hc j Hj). rewrite (Hl j Hc). by apply H2.
  - destruct Hok as [H1 H2]. split; [done|]. intros j Hj. specialize (Hc j Hj). rewrite (Hl j Hc). by apply H2.
  - done.
  - destruct Hok as (H1 & H2 & H3). split; [done|]. split; [|by intros j Hj; apply Hu, H3].
    intros j Hj. specialize (Hc j Hj). rewrite (Hl j Hc). intros Hv. by apply Hu, H2.
  - destruct Hok as (H1 & H2 & H3). split; [done|]. split; [|by intros j Hj; apply Hu, H3].
    intros j Hj. specialize (Hc j Hj). rewrite (Hl j Hc). intros Hv. by apply Hu, H2.
  - done.
Qed.

(** A newcomer hangs itself behind the whole live chain. *)
Lemma enter_inv k s : inv s → inv (enter k s).
Proof.
  intros H. unfold enter. cbv zeta. fold (newcomer k s).
  assert (Hnew : links (nodes s ++ [newcomer k s]) !! length (nodes s) = Some (queues s !! k)).
  { by rewrite list_lookup_fmap, list_lookup_middle. }
  constructor; simpl.
  - intros i n j [Hi|[-> ->]]%lookup_snoc Hj; [by eapply (inv_backward s H)|exact (queue_lt s k j H Hj)].
  - intros i n j m Hi Hb Hj.
    assert (Hb' : behind (links (nodes s)) (previous n) j).
    { eapply behind_snoc; [apply (inv_backward s H)| |exact Hb].
      apply lookup_snoc in Hi as [Hi|[-> ->]]; intros q; [by eapply previous_lt|by apply queue_lt]. }
    pose proof (behind_back _ _ _ Hb') as (? & _ & _ & Hlt). rewrite length_fmap in Hlt.
    apply lookup_snoc in Hj as [Hj|[-> ->]]; [|lia].
    apply lookup_snoc in Hi as [Hi|[-> ->]]; [by eapply (inv_same_key s H)|by eapply queue_same_key].
  - intros k' i. rewrite lookup_insert_Some. intros [[<- <-]|[Hne Hi]].
    + exists (newcomer k s). by rewrite list_lookup_middle.
    + destruct (inv_queue_key s H k' i Hi) as (n & Hn & Hk).
      exists n. by rewrite (lookup_app_l_Some _ _ _ _ Hn).
  - intros i n j [Hi|[-> ->]]%lookup_snoc Hj; apply lookup_lt_is_Some; rewrite length_app; simpl;
      [apply (previous_lt s i n j H Hi) in Hj|apply (queue_lt s k j H) in Hj]; lia.
  - intros j m [Hj|[-> ->]]%lookup_snoc Hm; [|simpl; rewrite lookup_insert_eq; by eapply behind_here].
    pose proof (behind_app _ [queues s !! k] _ _ (inv_live s H j m Hj Hm)) as Hb.
    destruct (decide (key m = k)) as [<-|Hne]; [|by rewrite lookup_insert_ne, fmap_app].
    rewrite lookup_insert_eq. eapply behind_next; [exact Hnew|]. by rewrite fmap_app.
  - rewrite fmap_app. intros i n j m [Hi|[-> ->]]%lookup_snoc [Hj|[-> ->]]%lookup_snoc Hk Hlt Hm.
    + by eapply behind_app, (inv_older s H).
    + apply lookup_lt_Some in Hi. lia.
    + apply behind_app. simpl in *. rewrite <-Hk. by apply (inv_live s H).
    + lia.
  - intros i n [Hi|[-> ->]]%lookup_snoc; [by eapply phase_ok_snoc|by apply newcomer_ok].
Qed.

(** Changing where the map leads for one file. *)
Lemma inv_requeue s k o :
  inv s →
  (∀ t, o = Some t → ∃ n, nodes s !! t = Some n ∧ key n = k) →
  (∀ j m, nodes s !! j = Some m → released m = false → key m = k → behind (links (nodes s)) o j) →
  inv (mkState (nodes s) (partial_alter (λ _, o) k (queues s))).
Proof.
  intros [] Ho Hl. constructor; simpl; try done.
  - intros k' i. destruct (decide (k' = k)) as [->|Hne].
    + rewrite lookup_partial_alter_eq. apply Ho.
    + rewrite lookup_partial_alter_ne by done. auto.
  - intros j m Hj Hm. destruct (decide (key m = k)) as [Hk|Hne].
    + rewrite Hk, lookup_partial_alter_eq. by eapply Hl.
    + rewrite lookup_partial_alter_ne by done. auto.
Qed.

Lemma settle_inv i s s' : inv s → settle i s = Some s' → inv s'.
Proof.
  intros H Hs. unfold settle in Hs. apply bind_Some in Hs as (n & Hi & Hs).
  destruct (at_phase n) as [| | | |o|] eqn:Hp; simplify_eq.
  pose proof (inv_phase s H i n Hi) as Hok. unfold phase_ok in Hok. rewrite Hp in Hok.
  destruct Hok as (Hrel & Hlive & Hin).
  assert (H' : inv (mkState (<[i := set_phase Gone n]> (nodes s)) (queues s))) by (by apply (inv_update s i n)).
  destruct (queues s !! key n) as [c|] eqn:Hc; [|done].
  destruct (Nat.eqb c i) eqn:E; [apply Nat.eqb_eq in E as ->|done].
  pose proof (links_insert (nodes s) i n (set_phase Gone n) Hi eq_refl) as Hl.
  apply (inv_requeue _ (key n) o) in H'; simpl in *.
  - by destruct o.
  - intros t ->. specialize (Hin t eq_refl).
    destruct (behind_back _ _ _ Hin) as (_ & _ & _ & Ht). rewrite length_fmap in Ht.
    apply lookup_lt_is_Some in Ht as [m Hm].
    pose proof (inv_same_key s H i n t m Hi Hin Hm) as Hk.
    destruct (decide (i = t)) as [->|Hne]; [|by exists m; rewrite list_lookup_insert_ne].
    exists (set_phase Gone n). by rewrite list_lookup_insert_eq by (by eapply lookup_lt_Some).
  - intros j m Hj Hm Hk. rewrite Hl.
    apply list_lookup_insert_Some in Hj as [(-> & <- & _)|[Hne Hj]]; [simpl in Hm; congruence|].
    pose proof (inv_live s H j m Hj Hm) as Hb. rewrite Hk, Hc in Hb.
    inversion Hb as [|? p ? Hp' Hb']; subst; [done|].
    rewrite list_lookup_fmap, Hi in Hp'. simpl in Hp'. injection Hp' as <-.
    apply Hlive; [done|]. by rewrite (live_spec _ _ _ Hj), Hm.
Qed.

Lemma with_node_inv i f s s' :
  inv s → with_node i f s = Some s' →
  (∀ n n', nodes s !! i = Some n → phase_ok (nodes s) n → f n = Some n' →
     key n' = key n ∧ previous n' = previous n ∧ (released n = true → released n' = true) ∧
     phase_ok (nodes s) n') →
  inv s'.
Proof.
  intros H Hw Hf. unfold with_node in Hw.
  apply bind_Some in Hw as (n & Hi & (n' & Hn' & Hs)%bind_Some). injection Hs as <-.
  destruct (Hf n n' Hi (inv_phase s H i n Hi) Hn') as (? & ? & ? & ?).
  by apply (inv_update s i n).
Qed.

Lemma observe_ok ns n n' : phase_ok ns n → observe ns n = Some n' →
  key n' = key n ∧ previous n' = previous n ∧ (released n = true → released n' = true) ∧ phase_ok ns n'.
Proof.
  unfold observe, phase_ok. intros Hok Ho. destruct (at_phase n) as [[|l rest]| | | | |] eqn:Hp; try done.
  destruct (is_released ns l) eqn:El; [|done]. injection Ho as <-. simpl.
  destruct Hok as (H1 & H2 & H3). repeat split; [done..| |].
  - intros j Hj Hl. specialize (H2 j Hj Hl). apply elem_of_cons in H2 as [->|]; [|done].
    unfold live in Hl. unfold is_released in El. destruct (ns !! l); [|done]. by rewrite El in Hl.
  - intros j Hj. apply H3. by right.
Qed.

Lemma tail_ok s i n n' : inv s → nodes s !! i = Some n → phase_ok (nodes s) n → tail_step (nodes s) n = Some n' →
  key n' = key n ∧ previous n' = previous n ∧ (released n = true → released n' = true) ∧ phase_ok (nodes s) n'.
Proof.
  unfold tail_step, phase_ok. intros H Hi Hok Ho. destruct (at_phase n) as [| | |[c|]| |] eqn:Hp; try done.
  - destruct (nodes s !! c) as [m|] eqn:Hc; [|done]. injection Ho as <-. simpl.
    destruct Hok as (H1 & H2 & H3). repeat split; [done..|].
    assert (Hlc : links (nodes s) !! c = Some (previous m)) by (by rewrite list_lookup_fmap, Hc).
    destruct (released m) eqn:Hm; (split; [done|]); [|done]. split.
    + intros j Hj Hl. specialize (H2 j Hj Hl). inversion H2 as [|? p ? Hp']; subst; [|congruence].
      by rewrite (live_spec _ _ _ Hc), Hm in Hl.
    + intros j Hj. apply (behind_trans _ _ c); [by apply H3|].
      destruct (inv_previous s H c m j Hc Hj) as [q Hq].
      eapply behind_next; [exact Hlc|]. rewrite Hj. eapply behind_here. by rewrite list_lookup_fmap, Hq.
  - injection Ho as <-. simpl. destruct Hok as (H1 & H2 & H3). done.
Qed.

Lemma step_inv a s s' : inv s → step a s = Some s' → inv s'.
Proof.
  intros H Hs. destruct a as [k|i|i|i|i|i|i|i]; simpl in Hs.
  - injection Hs as <-. by apply enter_inv.
  - apply (with_node_inv _ _ _ _ H Hs). intros n n' _. apply observe_ok.
  - apply (with_node_inv _ _ _ _ H Hs). unfold start, phase_ok. intros n n' _ Hok Hn.
    destruct (at_phase n) as [[|]| | | | |]; simplify_eq. destruct Hok as (H1 & H2 & _).
    do 3 (split; [done|]). split; [done|]. simpl. intros j Hj. destruct (live (nodes s) j) eqn:El; [|done].
    by apply (H2 j Hj), elem_of_nil in El.
  - apply (with_node_inv _ _ _ _ H Hs). unfold complete, phase_ok. intros n n' _ Hok Hn.
    destruct (at_phase n); simplify_eq. by destruct Hok.
  - apply (with_node_inv _ _ _ _ H Hs). unfold cancel, phase_ok. intros n n' _ Hok Hn.
    destruct (at_phase n); simplify_eq. by destruct Hok.
  - apply (with_node_inv _ _ _ _ H Hs). unfold do_release, phase_ok. intros n n' Hi Hok Hn.
    destruct (at_phase n); simplify_eq. do 4 (split; [done|]). split; [done|]. simpl. intros j Hj.
    destruct (inv_previous s H i n j Hi Hj) as [m Hm]. rewrite Hj.
    eapply behind_here. by rewrite list_lookup_fmap, Hm.
  - apply (with_node_inv _ _ _ _ H Hs). intros n n' Hi. by apply (tail_ok s i).
  - by apply (settle_inv i s).
Qed.

Lemma run_inv acts s s' : inv s → run acts s = Some s' → inv s'.
Proof.
  revert s. induction acts as [|a acts IH]; intros s H Hr; simpl in Hr; [by simplify_eq|].
  apply bind_Some in Hr as (s1 & Hs & Hr). eauto using step_inv.
Qed.

(** ** Turns *)

Lemma released_not_running ns n : phase_ok ns n → released n = true → at_phase n ≠ Running.
Proof. unfold phase_ok. intros H Hr Hp. rewrite Hp in H. destruct H as [H _]. congruence. Qed.

(** C8: Mutations of one file never overlap, and they take place in the order of arrival:
    whenever a caller is inside its [run()], every caller that entered the queue of the
    same file before it has released its link and is not running - in every interleaving
    of any number of callers on any number of threads, with callers dropped at any
    point while they wait or run. *)
Theorem mutations_serialized acts s i j n m :
  run acts empty_state = Some s →
  nodes s !! i = Some n → nodes s !! j = Some m → key n = key m → i < j →
  at_phase m = Running →
  released n = true ∧ at_phase n ≠ Running.
Proof.
  intros Hr Hi Hj Hk Hlt Hrun. pose proof (run_inv acts _ s empty_inv Hr) as H.
  assert (Hrel : released n = true).
  { destruct (released n) eqn:E; [done|].
    pose proof (inv_older s H j m i n Hj Hi Hk Hlt E) as Hb.
    pose proof (inv_phase s H j m Hj) as Hok. unfold phase_ok in Hok. rewrite Hrun in Hok.
    destruct Hok as [_ Hok]. specialize (Hok i Hb). by rewrite (live_spec _ _ _ Hi), E in Hok. }
  split; [done|]. by apply (released_not_running (nodes s)); [eapply (inv_phase s H)|].
Qed.

(** Two callers of one file; the second is cancelled while it waits for the first, a
    third arrives, and gets its turn when the first is done. *)
Definition demo_acts : list action :=
  let k := lit "a.txt" in
  [Enter k; Start 0; Enter k; Cancel 1; Release 1; Tail 1; Settle 1; Enter k;
   Complete 0; Release 0; Tail 0; Settle 0; Observe 2; Start 2].

Lemma mutations_serialized_witness :
  ∃ s n m, run demo_acts empty_state = Some s ∧
    nodes s !! 0 = Some n ∧ nodes s !! 2 = Some m ∧ at_phase m = Running ∧ released n = true ∧ at_phase n ≠ Running.
Proof.
  destruct (run demo_acts empty_state) as [s|] eqn:E; [|by vm_compute in E].
  destruct (nodes s !! 0) as [n|] eqn:E0; [|by vm_compute in E; simplify_eq].
  destruct (nodes s !! 2) as [m|] eqn:E2; [|by vm_compute in E; simplify_eq].
  exists s, n, m. pose proof (mutations_serialized demo_acts s 0 2 n m E E0 E2) as H.
  vm_compute in E. injection E as <-. vm_compute in E0, E2. injection E0 as <-. injection E2 as <-.
  do 4 (split; [done|]). by apply H; try lia.
Defined.

(** ** Progress *)

(** How many steps a caller has left at most. *)
Definition weight (i : nat) (n : QueueNode) : nat :=
  match at_phase n with
  | Waiting rest => length rest + i + 7
  | Running => i + 6
  | Dropping => i + 5
  | Tailing (Some c) => c + 4
  | Tailing None => 3
  | Locking _ => 1
  | Gone => 0
  end.

Definition work (s : State) : nat := sum_list (imap weight (nodes s)).

Definition is_enter (a : action) : bool := match a with Enter _ => true | _ => false end.

(** The caller that acts, when the action is not a newcomer's or a cancellation. *)
Definition actor (a : action) : option nat :=
  match a with
  | Enter _ | Cancel _ => None
  | Observe i | Start i | Complete i | Release i | Tail i | Settle i => Some i
  end.

Lemma sum_imap_insert (f : nat → QueueNode → nat) ns i n n' :
  ns !! i = Some n → f i n' < f i n →
  sum_list (imap f (<[i := n']> ns)) < sum_list (imap f ns).
Proof.
  revert i f. induction ns as [|m ns IH]; intros [|i] f; simpl; [done..| |].
  - intros [= ->] Hlt. lia.
  - intros Hi Hlt. specialize (IH i (f ∘ S) Hi Hlt). unfold compose in *. lia.
Qed.

Lemma with_node_work i f s s' :
  with_node i f s = Some s' →
  (∀ n n', nodes s !! i = Some n → f n = Some n' → weight i n' < weight i n) →
  work s' < work s.
Proof.
  unfold with_node. intros Hw Hf.
  apply bind_Some in Hw as (n & Hi & (n' & Hn' & Hs)%bind_Some). injection Hs as <-.
  apply (sum_imap_insert weight _ _ n); [done|by apply Hf].
Qed.

(** Every step of a caller brings it closer to its end. *)
Lemma step_work a s s' :
  inv s → is_enter a = false → step a s = Some s' → work s' < work s.
Proof.
  intros H He Hs. destruct a as [k|i|i|i|i|i|i|i]; simpl in Hs; [done|..].
  - apply (with_node_work _ _ _ _ Hs). unfold observe, weight. intros n n' _ Hn.
    destruct (at_phase n) as [[|l rest]| | | | |]; try done. destruct (is_released _ _); [|done].
    injection Hn as <-. simpl. lia.
  - apply (with_node_work _ _ _ _ Hs). unfold start, weight. intros n n' _ Hn.
    destruct (at_phase n) as [[|]| | | | |]; simplify_eq. simpl. lia.
  - apply (with_node_work _ _ _ _ Hs). unfold complete, weight. intros n n' _ Hn.
    destruct (at_phase n); simplify_eq. simpl. lia.
  - apply (with_node_work _ _ _ _ Hs). unfold cancel, weight. intros n n' _ Hn.
    destruct (at_phase n); simplify_eq. simpl. lia.
  - apply (with_node_work _ _ _ _ Hs). unfold do_release, weight. intros n n' Hi Hn.
    destruct (at_phase n); simplify_eq. simpl. destruct (previous n) as [p|] eqn:Hp; [|lia].
    pose proof (inv_backward s H i n p Hi Hp). lia.
  - apply (with_node_work _ _ _ _ Hs). unfold tail_step, weight. intros n n' Hi Hn.
    destruct (at_phase n) as [| | |[c|]| |]; try done; [|by injection Hn as <-; simpl; lia].
    destruct (nodes s !! c) as [m|] eqn:Hc; [|done]. injection Hn as <-. simpl.
    destruct (released m), (previous m) as [p|] eqn:Hp; try lia.
    pose proof (inv_backward s H c m p Hc Hp). lia.
  - unfold settle in Hs. apply bind_Some in Hs as (n & Hi & Hs).
    destruct (at_phase n) as [| | | |o|] eqn:Hp; simplify_eq.
    apply (sum_imap_insert weight _ _ n); [done|]. unfold weight. rewrite Hp. simpl. lia.
Qed.

Lemma run_work acts s s' :
  inv s → forallb (negb ∘ is_enter) acts = true → run acts s = Some s' → length acts + work s' ≤ work s.
Proof.
  revert s. induction acts as [|a acts IH]; intros s H He Hr; simpl in *; [by simplify_eq|].
  apply andb_true_iff in He as [Ha He]. apply negb_true_iff in Ha.
  apply bind_Some in Hr as (s1 & Hs & Hr).
  pose proof (step_work a s s1 H Ha Hs). pose proof (IH s1 (step_inv a s s1 H Hs) He Hr). lia.
Qed.

(** A caller can act when every older caller of its file is through. *)
Lemma oldest_acts s i n :
  inv s → nodes s !! i = Some n → at_phase n ≠ Gone →
  (∀ j m, nodes s !! j = Some m → key m = key n → j < i → at_phase m = Gone) →
  ∃ a s', actor a = Some i ∧ step a s = Some s'.
Proof.
  intros H Hi Hg Hold. pose proof (inv_phase s H i n Hi) as Hok. unfold phase_ok in Hok.
  destruct (at_phase n) as [[|l rest]| | |[c|]|o|] eqn:Hp; [..|done].
  - exists (Start i). eexists. split; [done|]. simpl. unfold with_node, start. by rewrite Hi; simpl; rewrite Hp.
  - exists (Observe i). eexists. split; [done|]. simpl. unfold with_node, observe. rewrite Hi. simpl. rewrite Hp.
    destruct Hok as (_ & _ & Hin). specialize (Hin l ltac:(by left)).
    destruct (behind_back _ _ _ Hin) as (q & Hq & _ & Hl). rewrite length_fmap in Hl.
    apply lookup_lt_is_Some in Hl as [m Hm].
    pose proof (behind_lt _ _ _ (backward_links _ (inv_backward s H)) Hin q Hq) as Hle.
    pose proof (inv_backward s H i n q Hi Hq) as Hlt.
    pose proof (inv_phase s H l m Hm) as Hml. unfold phase_ok in Hml.
    rewrite (Hold l m Hm (inv_same_key s H i n l m Hi Hin Hm)) in Hml by lia.
    unfold is_released. rewrite Hm, Hml. done.
  - exists (Complete i). eexists. split; [done|]. simpl. unfold with_node, complete. by rewrite Hi; simpl; rewrite Hp.
  - exists (Release i). eexists. split; [done|]. simpl. unfold with_node, do_release. by rewrite Hi; simpl; rewrite Hp.
  - destruct Hok as (_ & _ & Hin). destruct (behind_back _ _ _ (Hin c eq_refl)) as (? & _ & _ & Hl).
    rewrite length_fmap in Hl. apply lookup_lt_is_Some in Hl as [m Hm].
    exists (Tail i). eexists. split; [done|]. simpl. unfold with_node, tail_step. rewrite Hi. simpl.
    by rewrite Hp, Hm.
  - exists (Tail i). eexists. split; [done|]. simpl. unfold with_node, tail_step. by rewrite Hi; simpl; rewrite Hp.
  - exists (Settle i). eexists. split; [done|]. simpl. unfold settle. by rewrite Hi; simpl; rewrite Hp.
Qed.

Definition is_gone (n : QueueNode) : bool := match at_phase n with Gone => true | _ => false end.

Lemma is_gone_spec n : is_gone n = true ↔ at_phase n = Gone.
Proof. unfold is_gone. by destruct (at_phase n). Qed.

Definition busy (k : str) (s : State) (j : nat) : bool :=
  match nodes s !! j with Some m => str_eqb (key m) k && negb (is_gone m) | None => false end.

(** Each file makes progress on its own: while some caller of it is not through, some
    caller of the same file can act. *)
Lemma some_caller_acts s i n :
  inv s → nodes s !! i = Some n → is_gone n = false →
  ∃ j m a s', nodes s !! j = Some m ∧ key m = key n ∧ actor a = Some j ∧ step a s = Some s'.
Proof.
  intros H. revert n. induction i as [i IH] using lt_wf_ind. intros n Hi Hg.
  destruct (existsb (busy (key n) s) (seq 0 i)) eqn:Hex.
  - apply existsb_exists in Hex as (j & Hj & Hb). apply in_seq in Hj. unfold busy in Hb.
    destruct (nodes s !! j) as [m|] eqn:Hm; [|done].
    apply andb_true_iff in Hb as [Hk%str_eqb_eq Hmg%negb_true_iff].
    destruct (IH j ltac:(lia) m Hm Hmg) as (j' & m' & a & s' & ? & ? & ? & ?).
    exists j', m', a, s'. repeat split; congruence.
  - destruct (oldest_acts s i n H Hi) as (a & s' & Ha & Hs); [by rewrite <-is_gone_spec, Hg| |by exists i, n, a, s'].
    intros j m Hm Hk Hlt. apply is_gone_spec. destruct (is_gone m) eqn:E; [done|].
    assert (existsb (busy (key n) s) (seq 0 i) = true); [|congruence].
    apply existsb_exists. exists j. split; [apply in_seq; lia|].
    unfold busy. by rewrite Hm, Hk, str_eqb_refl, E.
Qed.

(** C9: No caller is stranded.  From any reachable state, the callers that have entered
    can take only [work s] more steps between them, in whatever order; and as long as a
    caller is not through, some caller of the same file can act without anyone being
    cancelled.  So every schedule that keeps running the callers brings each of them to
    its turn and to the end of it, callers of other files never get in the way, and when
    all are through the map holds released links only. *)
Theorem mutations_progress acts s :
  run acts empty_state = Some s →
  ∀ more s', forallb (negb ∘ is_enter) more = true → run more s = Some s' →
    length more ≤ work s ∧
    (∀ i n, nodes s' !! i = Some n → is_gone n = false →
       ∃ j m a s'', nodes s' !! j = Some m ∧ key m = key n ∧ actor a = Some j ∧ step a s' = Some s'') ∧
    (forallb is_gone (nodes s') = true → ∀ k i, queues s' !! k = Some i → is_released (nodes s') i = true).
Proof.
  intros Hr more s' He Hm. pose proof (run_inv acts _ s empty_inv Hr) as H.
  pose proof (run_inv more s s' H Hm) as H'. split; [|split].
  - pose proof (run_work more s s' H He Hm). lia.
  - intros i n. by apply some_caller_acts.
  - intros Hall k i Hk. destruct (inv_queue_key s' H' k i Hk) as (n & Hn & _).
    rewrite forallb_forall in Hall.
    assert (Hg : is_gone n = true) by (apply Hall, list_elem_of_In; by eapply list_elem_of_lookup_2).
    pose proof (inv_phase s' H' i n Hn) as Hok. unfold phase_ok in Hok.
    rewrite (proj1 (is_gone_spec n) Hg) in Hok. unfold is_released. by rewrite Hn.
Qed.

Lemma mutations_progress_witness :
  ∃ s s', run demo_acts empty_state = Some s ∧
    run [Complete 2; Release 2; Tail 2; Tail 2; Settle 2] s = Some s' ∧ 5 ≤ work s ∧
    forallb is_gone (nodes s') = true ∧ queues s' !! lit "a.txt" = None.
Proof.
  destruct (run demo_acts empty_state) as [s|] eqn:E; [|by vm_compute in E].
  destruct (run [Complete 2; Release 2; Tail 2; Tail 2; Settle 2] s) as [s'|] eqn:E';
    [|by vm_compute in E; injection E as <-; vm_compute in E'].
  exists s, s'. split; [done|]. split; [done|].
  split; [exact (proj1 (mutations_progress demo_acts s E [Complete 2; Release 2; Tail 2; Tail 2; Settle 2] s' eq_refl E'))|].
  vm_compute in E. injection E as <-. vm_compute in E'. injection E' as <-. by vm_compute.
Defined.
