(* ===== verification/EditApply.v ===== *)
(** * Applying edits to a file

    [pi-coding-agent/src/core/tools/edit_diff.rs] 13-353 and the pure core of
    [execute_edit] in [edit.rs]: line endings and BOM, the fuzzy normal form, finding
    the old texts (exactly, or in the normal form), rejecting ambiguous and overlapping
    edits, and splicing the new texts in by UTF-16 index as the JavaScript original
    does. *)
From stdpp Require Import base list numbers sets sorting strings.
From S2P Require Import Prelude RustStr.

Local Open Scope N_scope.

(** ** Line endings and the byte order mark *)

Inductive LineEnding : Type := Crlf | Lf.

(** [str::find] with a string pattern.  The code gets a byte index on a character
    boundary; the model counts the characters before it. *)
Fixpoint find (s pat : str) : option nat :=
  match strip_prefix pat s with
  | Some _ => Some O
  | None => match s with [] => None | _ :: s' => S <$> find s' pat end
  end.

Definition detect_line_ending (content : str) : LineEnding :=
  match find content [10], find content [13; 10] with
  | Some lf_idx, Some crlf_idx => if (crlf_idx <? lf_idx)%nat then Crlf else Lf
  | _, _ => Lf
  end.

(** [text.replace("\r\n", "\n")]. *)
Fixpoint crlf_to_lf (s : str) : str :=
  match s with
  | 13 :: 10 :: s' => 10 :: crlf_to_lf s'
  | c :: s' => c :: crlf_to_lf s'
  | [] => []
  end.

Definition cr_to_lf (c : N) : N := if c =? 13 then 10 else c.

Definition normalize_to_lf (text : str) : str := map cr_to_lf (crlf_to_lf text).

Definition restore_char (ending : LineEnding) (c : N) : str :=
  match ending with Crlf => if c =? 10 then [13; 10] else [c] | Lf => [c] end.

Definition restore_line_endings (text : str) (ending : LineEnding) : str :=
  flat_map (restore_char ending) text.

Record StripBomResult : Type := mkStripBom { bom : str; text : str }.

Definition strip_bom (content : str) : StripBomResult :=
  match strip_prefix [65279] content with
  | Some rest => mkStripBom [65279] rest
  | None => mkStripBom [] content
  end.

(** ** The fuzzy normal form *)

Definition smart_single_quote (c : N) : bool := (8216 <=? c) && (c <=? 8219).
Definition smart_double_quote (c : N) : bool := (8220 <=? c) && (c <=? 8223).
Definition unicode_dash (c : N) : bool := ((8208 <=? c) && (c <=? 8213)) || (c =? 8722).
Definition unicode_space (c : N) : bool :=
  (c =? 160) || ((8194 <=? c) && (c <=? 8202)) || (c =? 8239) || (c =? 8287) || (c =? 12288).

(** [Regex::replace_all] with a character class and a one-character replacement. *)
Definition replace_class (class : N → bool) (by_char : N) (s : str) : str :=
  map (λ c, if class c then by_char else c) s.

Definition trim_lines (text : str) : str := join [10] (map trim_end (split_on 10 text)).

Definition normalize_for_fuzzy_match (text : str) : str :=
  let trimmed := trim_lines text in
  let trimmed := replace_class smart_single_quote 39 trimmed in
  let trimmed := replace_class smart_double_quote 34 trimmed in
  let trimmed := replace_class unicode_dash 45 trimmed in
  replace_class unicode_space 32 trimmed.

(** ** UTF-16 indices *)

Definition encode_char (c : N) : list N :=
  if c <? 65536 then [c]
  else [55296 + (c - 65536) / 1024; 56320 + (c - 65536) mod 1024].

Definition encode_utf16 (s : str) : list N := flat_map encode_char s.

Definition is_high (u : N) : bool := (55296 <=? u) && (u <=? 56319).
Definition is_low (u : N) : bool := (56320 <=? u) && (u <=? 57343).

(** [String::from_utf16_lossy]: an unpaired surrogate becomes U+FFFD. *)
Fixpoint from_utf16_lossy (units : list N) : str :=
  match units with
  | [] => []
  | u :: rest =>
      if is_high u then
        match rest with
        | v :: rest' =>
            if is_low v then (65536 + (u - 55296) * 1024 + (v - 56320)) :: from_utf16_lossy rest'
            else 65533 :: from_utf16_lossy rest
        | [] => [65533]
        end
      else if is_low u then 65533 :: from_utf16_lossy rest
      else u :: from_utf16_lossy rest
  end.

Definition utf16_len (text : str) : nat := length (encode_utf16 text).

(** [text[..byte_index].encode_utf16().count()]. *)
Definition char_index (text : str) (index : nat) : nat := utf16_len (take index text).

(** [None] is [usize::MAX]. *)
Definition slice_by_index (text : str) (start : nat) (end_ : option nat) : str :=
  let units := encode_utf16 text in
  let end_ := match end_ with Some e => Nat.min e (length units) | None => length units end in
  let start := Nat.min start end_ in
  from_utf16_lossy (take (end_ - start) (drop start units)).

(** ** Finding the old text *)

Record FuzzyMatchResult : Type := mkMatch {
  found : bool;
  index : Z;
  match_length : nat;
  used_fuzzy_match : bool;
  content_for_replacement : str }.

Record Edit : Type := mkEdit { old_text : str; new_text : str }.

Definition fuzzy_find_text (content old_text : str) : FuzzyMatchResult :=
  match find content old_text with
  | Some exact_index =>
      mkMatch true (Z.of_nat (char_index content exact_index)) (utf16_len old_text) false content
  | None =>
      let fuzzy_content := normalize_for_fuzzy_match content in
      let fuzzy_old_text := normalize_for_fuzzy_match old_text in
      match find fuzzy_content fuzzy_old_text with
      | None => mkMatch false (-1) O false content
      | Some fuzzy_index =>
          mkMatch true (Z.of_nat (char_index fuzzy_content fuzzy_index)) (utf16_len fuzzy_old_text) true fuzzy_content
      end
  end.

(** [str::matches(pat).count()], without overlaps, for a pattern that is not empty; the
    rest of the text bounds the rounds. *)
Fixpoint matches_count (fuel : nat) (pat s : str) : nat :=
  match fuel with
  | O => O
  | S fuel =>
      match strip_prefix pat s with
      | Some rest => S (matches_count fuel pat rest)
      | None => match s with [] => O | _ :: s' => matches_count fuel pat s' end
      end
  end.

Definition count_occurrences (content old_text : str) : nat :=
  let fuzzy_content := normalize_for_fuzzy_match content in
  let fuzzy_old_text := normalize_for_fuzzy_match old_text in
  if is_empty fuzzy_old_text then utf16_len fuzzy_content
  else matches_count (S (length fuzzy_content)) fuzzy_old_text fuzzy_content.

(** ** Errors *)

Definition usize_str (n : nat) : str := dec (N.of_nat n).

Definition get_not_found_error (path : str) (edit_index total_edits : nat) : str :=
  if (total_edits =? 1)%nat then
    lit "Could not find the exact text in " ++ path
    ++ lit ". The old text must match exactly including all whitespace and newlines."
  else
    lit "Could not find edits[" ++ usize_str edit_index ++ lit "] in " ++ path
    ++ lit ". The oldText must match exactly including all whitespace and newlines.".

Definition get_duplicate_error (path : str) (edit_index total_edits occurrences : nat) : str :=
  if (total_edits =? 1)%nat then
    lit "Found " ++ usize_str occurrences ++ lit " occurrences of the text in " ++ path
    ++ lit ". The text must be unique. Please provide more context to make it unique."
  else
    lit "Found " ++ usize_str occurrences ++ lit " occurrences of edits[" ++ usize_str edit_index
    ++ lit "] in " ++ path ++ lit ". Each oldText must be unique. Please provide more context to make it unique.".

Definition get_empty_old_text_error (path : str) (edit_index total_edits : nat) : str :=
  if (total_edits =? 1)%nat then lit "oldText must not be empty in " ++ path ++ lit "."
  else lit "edits[" ++ usize_str edit_index ++ lit "].oldText must not be empty in " ++ path ++ lit ".".

Definition get_no_change_error (path : str) (total_edits : nat) : str :=
  if (total_edits =? 1)%nat then
    lit "No changes made to " ++ path
    ++ lit ". The replacement produced identical content. This might indicate an issue with special characters or the text not existing as expected."
  else lit "No changes made to " ++ path ++ lit ". The replacements produced identical content.".

Definition overlap_error (path : str) (previous current : nat) : str :=
  lit "edits[" ++ usize_str previous ++ lit "] and edits[" ++ usize_str current ++ lit "] overlap in " ++ path
  ++ lit ". Merge them into one edit or target disjoint regions.".

(** ** Applying the edits *)

Record MatchedEdit : Type := mkMatched {
  edit_index : nat;
  match_index : Z;
  matched_length : nat;
  replacement : str }.

Record AppliedEditsResult : Type := mkApplied { base_content : str; new_content : str }.

Definition normalize_edit (e : Edit) : Edit :=
  mkEdit (normalize_to_lf (old_text e)) (normalize_to_lf (new_text e)).

(** The first loop: no old text may be empty. *)
Fixpoint check_empty (path : str) (total i : nat) (edits : list Edit) : result unit str :=
  match edits with
  | [] => Ok tt
  | e :: rest =>
      if is_empty (old_text e) then Err (get_empty_old_text_error path i total)
      else check_empty path total (S i) rest
  end.

(** One iteration of the matching loop. *)
Definition match_edit (base path : str) (total i : nat) (e : Edit) : result MatchedEdit str :=
  let match_result := fuzzy_find_text base (old_text e) in
  if negb (found match_result) then Err (get_not_found_error path i total)
  else
    let occurrences := count_occurrences base (old_text e) in
    if (1 <? occurrences)%nat then Err (get_duplicate_error path i total occurrences)
    else Ok (mkMatched i (index match_result) (match_length match_result) (new_text e)).

Fixpoint match_edits (base path : str) (total i : nat) (edits : list Edit) : result (list MatchedEdit) str :=
  match edits with
  | [] => Ok []
  | e :: rest =>
      let* m := match_edit base path total i e in
      let* ms := match_edits base path total (S i) rest in
      Ok (m :: ms)
  end.

Definition index_le (a b : MatchedEdit) : Prop := (match_index a ≤ match_index b)%Z.
#[export] Instance index_le_dec a b : Decision (index_le a b) := Z.le_dec _ _.

(** The loop over neighbours of the sorted matches. *)
Fixpoint check_overlap (path : str) (ms : list MatchedEdit) : result unit str :=
  match ms with
  | previous :: ((current :: _) as rest) =>
      if (match_index current <? match_index previous + Z.of_nat (matched_length previous))%Z
      then Err (overlap_error path (edit_index previous) (edit_index current))
      else check_overlap path rest
  | _ => Ok tt
  end.

(** One replacement. *)
Definition splice (content : str) (m : MatchedEdit) : str :=
  let start := Z.to_nat (match_index m) in
  let end_ := (start + matched_length m)%nat in
  slice_by_index content 0 (Some start) ++ replacement m ++ slice_by_index content end_ None.

Definition apply_edits_to_normalized_content (normalized_content : str) (edits : list Edit) (path : str)
    : result AppliedEditsResult str :=
  let normalized_edits := map normalize_edit edits in
  let total := length normalized_edits in
  let* _ := check_empty path total 0 normalized_edits in
  let initial_matches := map (λ e, fuzzy_find_text normalized_content (old_text e)) normalized_edits in
  let base :=
    if existsb used_fuzzy_match initial_matches then normalize_for_fuzzy_match normalized_content
    else normalized_content in
  let* matched := match_edits base path total 0 normalized_edits in
  let matched_edits := merge_sort index_le matched in
  let* _ := check_overlap path matched_edits in
  (* from the last match to the first *)
  let new := fold_left splice (rev matched_edits) base in
  if str_eqb base new then Err (get_no_change_error path total)
  else Ok (mkApplied base new).

(** The text part of [execute_edit]: what is written back, and the two texts the diff is
    made of. *)
Record EditedFile : Type := mkEdited { final_content : str; diff_base : str; diff_new : str }.

Definition edit_content (raw_content : str) (edits : list Edit) (path : str) : result EditedFile str :=
  let stripped := strip_bom raw_content in
  let original_ending := detect_line_ending (text stripped) in
  let normalized_content := normalize_to_lf (text stripped) in
  let* r := apply_edits_to_normalized_content normalized_content edits path in
  Ok (mkEdited (bom stripped ++ restore_line_endings (new_content r) original_ending)
        (base_content r) (new_content r)).

(** ** Search *)

Lemma find_Some s pat i : find s pat = Some i → ∃ post, s = take i s ++ pat ++ post.
Proof.
  revert i. induction s as [|c s IH]; intros i; simpl.
  - destruct (strip_prefix pat []) as [post|] eqn:E; [|done]. intros [= <-].
    apply strip_prefix_Some in E. by exists post.
  - destruct (strip_prefix pat (c :: s)) as [post|] eqn:E.
    + intros [= <-]. apply strip_prefix_Some in E. by exists post.
    + intros (j & Hj & ->)%fmap_Some. destruct (IH j Hj) as [post Hp]. exists post. simpl. by rewrite <-Hp.
Qed.

Lemma find_occurs pre pat post : is_Some (find (pre ++ pat ++ post) pat).
Proof.
  induction pre as [|c pre IH]; simpl.
  - destruct (pat ++ post) eqn:E; simpl; rewrite <-E, strip_prefix_app; eauto.
  - destruct (strip_prefix pat _); [eauto|]. destruct IH as [i ->]. eauto.
Qed.

(** ** UTF-16 *)

(** A Unicode scalar value: what a Rust [char] can be. *)
Definition scalar (c : N) : Prop := c < 55296 ∨ (57344 ≤ c ∧ c < 1114112).

Lemma encode_char_pos c : (1 ≤ length (encode_char c))%nat.
Proof. unfold encode_char. destruct (c <? 65536); simpl; lia. Qed.

Lemma encode_utf16_app a b : encode_utf16 (a ++ b) = encode_utf16 a ++ encode_utf16 b.
Proof. apply flat_map_app. Qed.

Lemma utf16_len_app a b : utf16_len (a ++ b) = (utf16_len a + utf16_len b)%nat.
Proof. unfold utf16_len. by rewrite encode_utf16_app, length_app. Qed.

Lemma utf16_len_nil s : utf16_len s = O → s = [].
Proof.
  destruct s as [|c s]; [done|]. unfold utf16_len. simpl. rewrite length_app.
  pose proof (encode_char_pos c). lia.
Qed.

(** Decoding gives back what was encoded. *)
Lemma from_utf16_encode s : Forall scalar s → from_utf16_lossy (encode_utf16 s) = s.
Proof.
  induction 1 as [|c s Hc _ IH]; [done|].
  change (encode_utf16 (c :: s)) with (encode_char c ++ encode_utf16 s).
  unfold encode_char. destruct (N.ltb_spec c 65536) as [Hlt|Hge]; cbn [app from_utf16_lossy].
  - assert (is_high c = false) as ->.
    { unfold is_high. apply andb_false_iff. rewrite !N.leb_gt. unfold scalar in Hc. lia. }
    assert (is_low c = false) as ->.
    { unfold is_low. apply andb_false_iff. rewrite !N.leb_gt. unfold scalar in Hc. lia. }
    by rewrite IH.
  - pose proof (N.Div0.div_mod (c - 65536) 1024) as Hdm.
    assert (Hq : (c - 65536) / 1024 < 1024) by (apply N.Div0.div_lt_upper_bound; unfold scalar in Hc; lia).
    assert (Hr : (c - 65536) mod 1024 < 1024) by (apply N.mod_lt; lia).
    revert Hdm Hq Hr. generalize ((c - 65536) / 1024), ((c - 65536) mod 1024). intros q r Hdm Hq Hr.
    assert (is_high (55296 + q) = true) as ->.
    { unfold is_high. apply andb_true_iff. rewrite !N.leb_le. lia. }
    assert (is_low (56320 + r) = true) as ->.
    { unfold is_low. apply andb_true_iff. rewrite !N.leb_le. lia. }
    rewrite IH. f_equal. lia.
Qed.

(** Cutting at the end of a prefix gives the prefix and the rest. *)
Lemma slice_head pre post :
  Forall scalar pre → slice_by_index (pre ++ post) 0 (Some (utf16_len pre)) = pre.
Proof.
  intros Hp. unfold slice_by_index, utf16_len. rewrite encode_utf16_app, length_app.
  rewrite Nat.min_l, Nat.min_0_l, Nat.sub_0_r, drop_0, take_app_length by lia. by apply from_utf16_encode.
Qed.

Lemma slice_tail pre post :
  Forall scalar post → slice_by_index (pre ++ post) (utf16_len pre) None = post.
Proof.
  intros Hp. unfold slice_by_index, utf16_len. rewrite encode_utf16_app, length_app.
  rewrite Nat.min_l by lia. rewrite drop_app_length, take_ge by lia. by apply from_utf16_encode.
Qed.

(** Of two prefixes the one with fewer units is a prefix of the other. *)
Lemma prefix_by_units a a' b b' :
  a ++ a' = b ++ b' → (utf16_len a ≤ utf16_len b)%nat → ∃ g, b = a ++ g ∧ a' = g ++ b'.
Proof.
  intros H Hle. destruct (app_eq_inv _ _ _ _ H) as [(g & -> & ->)|(g & -> & ->)].
  - rewrite utf16_len_app in Hle. assert (g = []) as -> by (apply utf16_len_nil; lia).
    exists []. by rewrite !app_nil_r.
  - by exists g.
Qed.

(** ** The normal form is a normal form *)

(** All four replacements act on one character. *)
Definition plain (c : N) : N :=
  let c := if smart_single_quote c then 39 else c in
  let c := if smart_double_quote c then 34 else c in
  let c := if unicode_dash c then 45 else c in
  if unicode_space c then 32 else c.

Lemma normalize_plain t : normalize_for_fuzzy_match t = map plain (trim_lines t).
Proof. unfold normalize_for_fuzzy_match, replace_class. by rewrite !map_map. Qed.

(** What [plain] does, by class. *)
Lemma plain_cases c :
  (plain c = 39 ∧ smart_single_quote c = true) ∨ (plain c = 34 ∧ smart_double_quote c = true) ∨
  (plain c = 45 ∧ unicode_dash c = true) ∨ (plain c = 32 ∧ unicode_space c = true) ∨ plain c = c.
Proof.
  unfold plain. cbv zeta.
  destruct (smart_single_quote c) eqn:E1; [by left|].
  destruct (smart_double_quote c) eqn:E2; [by right; left|].
  destruct (unicode_dash c) eqn:E3; [by right; right; left|].
  destruct (unicode_space c) eqn:E4; [by right; right; right; left|]. by do 4 right.
Qed.

Ltac char_class :=
  unfold is_whitespace, smart_single_quote, smart_double_quote, unicode_dash, unicode_space in *;
  repeat match goal with
  | H : context [?a && ?b = true] |- _ => rewrite andb_true_iff in H
  | H : context [?a || ?b = true] |- _ => rewrite orb_true_iff in H
  end;
  rewrite ?N.leb_le, ?N.eqb_eq in *.

Lemma quote_not_ws c :
  smart_single_quote c = true ∨ smart_double_quote c = true ∨ unicode_dash c = true → is_whitespace c = false.
Proof.
  intros H. destruct (is_whitespace c) eqn:E; [|done]. char_class. lia.
Qed.

Lemma space_ws c : unicode_space c = true → is_whitespace c = true.
Proof.
  intros H. destruct (is_whitespace c) eqn:E; [done|]. exfalso. revert H E. unfold unicode_space, is_whitespace.
  rewrite !orb_true_iff, !orb_false_iff, !andb_true_iff, !andb_false_iff,
    !N.leb_le, !N.leb_gt, !N.eqb_eq, !N.eqb_neq. lia.
Qed.

Lemma plain_ws c : is_whitespace (plain c) = is_whitespace c.
Proof.
  destruct (plain_cases c) as [[-> H]|[[-> H]|[[-> H]|[[-> H]| ->]]]]; [..|done].
  - by rewrite (quote_not_ws c) by auto.
  - by rewrite (quote_not_ws c) by auto.
  - by rewrite (quote_not_ws c) by auto.
  - by rewrite (space_ws c).
Qed.

Lemma plain_eqb c : (plain c =? 10) = (c =? 10).
Proof.
  destruct (N.eqb_spec c 10) as [->|Hne]; [done|]. apply N.eqb_neq. intros Hp.
  destruct (plain_cases c) as [[H _]|[[H _]|[[H _]|[[H _]|H]]]]; congruence.
Qed.

Lemma plain_idemp c : plain (plain c) = plain c.
Proof. destruct (plain_cases c) as [[-> _]|[[-> _]|[[-> _]|[[-> _]|H]]]]; [done..|by rewrite H]. Qed.

Lemma trim_end_map s : trim_end (map plain s) = map plain (trim_end s).
Proof.
  induction s as [|c s IH]; [done|]. cbn [map trim_end]. rewrite IH.
  destruct (trim_end s); cbn [map]; [rewrite plain_ws; by destruct (is_whitespace c)|done].
Qed.

Lemma trim_end_idemp s : trim_end (trim_end s) = trim_end s.
Proof.
  induction s as [|c s IH]; [done|]. cbn [trim_end].
  destruct (trim_end s) as [|d r] eqn:E.
  - destruct (is_whitespace c) eqn:Hc; [done|]. cbn [trim_end]. by rewrite Hc.
  - cbn [trim_end] in *. by rewrite IH.
Qed.

Lemma trim_end_sub s : trim_end s ⊆ s.
Proof.
  induction s as [|c s IH]; [done|]. cbn [trim_end]. destruct (trim_end s); [destruct (is_whitespace c)|]; set_solver.
Qed.

Lemma split_on_map s : split_on 10 (map plain s) = map (map plain) (split_on 10 s).
Proof.
  induction s as [|c s IH]; [done|]. cbn [map split_on]. rewrite plain_eqb, IH.
  destruct (c =? 10); [done|]. by destruct (split_on 10 s).
Qed.

Lemma join_map l : join [10] (map (map plain) l) = map plain (join [10] l).
Proof.
  induction l as [|x [|y l] IH]; [done..|].
  change (join [10] (map (map plain) (x :: y :: l))) with
    (map plain x ++ [10] ++ join [10] (map (map plain) (y :: l))).
  change (join [10] (x :: y :: l)) with (x ++ [10] ++ join [10] (y :: l)). by rewrite IH, !map_app.
Qed.

Lemma trim_lines_map s : trim_lines (map plain s) = map plain (trim_lines s).
Proof.
  unfold trim_lines. rewrite split_on_map, <-join_map, !map_map. f_equal.
  apply map_ext. apply trim_end_map.
Qed.

Lemma trim_lines_idemp s : trim_lines (trim_lines s) = trim_lines s.
Proof.
  unfold trim_lines. rewrite split_on_join.
  - rewrite map_map. f_equal. apply map_ext. apply trim_end_idemp.
  - destruct (split_on 10 s) eqn:E; [by apply split_on_ne_nil in E|done].
  - pose proof (proj2 (join_split_on 10 s)) as H. rewrite Forall_map.
    eapply Forall_impl; [exact H|]. intros x Hx Hin. by apply Hx, trim_end_sub.
Qed.

(** The fuzzy normal form of a normal form is itself: searching a second time in a base
    that is already normal finds places of that base. *)
Lemma normalize_idemp s :
  normalize_for_fuzzy_match (normalize_for_fuzzy_match s) = normalize_for_fuzzy_match s.
Proof.
  rewrite !normalize_plain, trim_lines_map, trim_lines_idemp, map_map.
  apply map_ext. apply plain_idemp.
Qed.

(** ** Scalar values are kept *)

Definition is_scalar (c : N) : bool := (c <? 55296) || ((57344 <=? c) && (c <? 1114112)).

Lemma scalars s : forallb is_scalar s = true → Forall scalar s.
Proof.
  rewrite forallb_forall. intros H. apply Forall_forall. intros c Hc%list_elem_of_In%H.
  unfold is_scalar in Hc. unfold scalar.
  rewrite orb_true_iff, andb_true_iff, !N.ltb_lt, N.leb_le in Hc. done.
Qed.

Lemma scalar_small c : c < 55296 → scalar c.
Proof. by left. Qed.

Lemma split_on_Forall (P : N → Prop) c s : Forall P s → Forall (Forall P) (split_on c s).
Proof.
  induction 1 as [|x s Hx _ IH]; simpl; [by repeat constructor|].
  destruct (x =? c); [by constructor|].
  destruct (split_on c s); [by repeat constructor|].
  apply Forall_cons in IH as [? ?]. by repeat constructor.
Qed.

Lemma join_Forall (P : N → Prop) sep l : Forall P sep → Forall (Forall P) l → Forall P (join sep l).
Proof.
  intros Hs. induction 1 as [|x [|y l] Hx Hl IH]; [done..|].
  change (join sep (x :: y :: l)) with (x ++ sep ++ join sep (y :: l)). by rewrite !Forall_app.
Qed.

Lemma trim_lines_scalar s : Forall scalar s → Forall scalar (trim_lines s).
Proof.
  intros H. apply join_Forall; [by repeat constructor; apply scalar_small|].
  rewrite Forall_map. eapply Forall_impl; [by apply split_on_Forall|].
  intros x Hx. apply Forall_forall. intros c Hc. eapply Forall_forall; [exact Hx|]. by apply trim_end_sub.
Qed.

Lemma normalize_scalar s : Forall scalar s → Forall scalar (normalize_for_fuzzy_match s).
Proof.
  intros H%trim_lines_scalar. rewrite normalize_plain, Forall_map.
  eapply Forall_impl; [exact H|]. intros c Hc. simpl.
  destruct (plain_cases c) as [[-> _]|[[-> _]|[[-> _]|[[-> _]| ->]]]]; [by apply scalar_small..|done].
Qed.

(** The two cases of the replacement of CR LF. *)
Lemma crlf_to_lf_cons c s :
  (c = 13 ∧ ∃ s', s = 10 :: s' ∧ crlf_to_lf (c :: s) = 10 :: crlf_to_lf s') ∨
  crlf_to_lf (c :: s) = c :: crlf_to_lf s.
Proof.
  destruct (N.eq_dec c 13) as [->|Hne].
  - destruct s as [|d s']; [by right|].
    destruct (N.eq_dec d 10) as [->|Hd]; [by left; split; [|exists s']|right].
    simpl. repeat case_match; done.
  - right. simpl. repeat case_match; done.
Qed.

Lemma crlf_to_lf_Forall (P : N → Prop) s : P 10 → Forall P s → Forall P (crlf_to_lf s).
Proof.
  intros H10. remember (length s) as n eqn:Hn. revert s Hn.
  induction n as [n IH] using lt_wf_ind. intros [|c s] -> Hs; [done|].
  apply Forall_cons in Hs as [Hc Hs].
  destruct (crlf_to_lf_cons c s) as [(-> & s' & -> & ->)| ->].
  - apply Forall_cons in Hs as [_ Hs]. constructor; [done|]. by apply (IH (length s')); simpl; [lia|..].
  - constructor; [done|]. by apply (IH (length s)); simpl; [lia|..].
Qed.

Lemma normalize_to_lf_scalar s : Forall scalar s → Forall scalar (normalize_to_lf s).
Proof.
  intros H. unfold normalize_to_lf. rewrite Forall_map.
  eapply Forall_impl; [apply crlf_to_lf_Forall; [by apply scalar_small|exact H]|].
  intros c Hc. unfold compose, cr_to_lf. destruct (c =? 13); [by apply scalar_small|done].
Qed.

(** ** Replaced regions *)

(** A text cut into regions: the text before the first, then each region (what it was,
    what it becomes) with the text that follows it. *)
Record region : Type := mkRegion { was : str; becomes : str; after : str }.

Definition before_edit (g : str) (rs : list region) : str := g ++ concat (map (λ r, was r ++ after r) rs).
Definition after_edit (g : str) (rs : list region) : str := g ++ concat (map (λ r, becomes r ++ after r) rs).

(** A match stands at a place of the base: what it covers is the old text, or the
    normal form of the old text. *)
Definition covers (e : Edit) (t : str) : Prop :=
  t = old_text e ∨ t = normalize_for_fuzzy_match (old_text e).

Definition located (base : str) (m : MatchedEdit) (t : str) : Prop :=
  ∃ pre post, base = pre ++ t ++ post ∧ match_index m = Z.of_nat (utf16_len pre) ∧
    matched_length m = utf16_len t.

Definition disjoint (ms : list MatchedEdit) : Prop :=
  StronglySorted (λ a b, match_index a + Z.of_nat (matched_length a) ≤ match_index b)%Z ms.

Lemma splice_located pre t m q' :
  Forall scalar pre → Forall scalar q' →
  match_index m = Z.of_nat (utf16_len pre) → matched_length m = utf16_len t →
  splice (pre ++ t ++ q') m = pre ++ replacement m ++ q'.
Proof.
  intros Hp Hq Hi Hl. unfold splice. rewrite Hi, Hl, Nat2Z.id.
  rewrite slice_head by done. by rewrite (app_assoc pre t q'), <-utf16_len_app, slice_tail.
Qed.

(** Replacing from the last match to the first rewrites every region and nothing else. *)
Lemma splice_all base ms ts :
  Forall2 (located base) ms ts → disjoint ms → Forall scalar base →
  Forall (λ m, Forall scalar (replacement m)) ms →
  ∀ p q, base = p ++ q → Forall (λ m, Z.of_nat (utf16_len p) ≤ match_index m)%Z ms →
  ∃ g rs, q = before_edit g rs ∧ foldr (λ m c, splice c m) base ms = p ++ after_edit g rs ∧
    Forall2 (λ m r, becomes r = replacement m) ms rs ∧ map was rs = ts ∧ Forall scalar (after_edit g rs).
Proof.
  intros Hloc. induction Hloc as [|m t ms ts (pre & post & Hb & Hi & Hl) _ IH];
    intros Hd Hs Hr p q Hq Hp.
  { exists q, []. unfold before_edit, after_edit. simpl. rewrite !app_nil_r.
    repeat split; [done|constructor|]. rewrite Hq in Hs. by apply Forall_app in Hs as [_ ?]. }
  apply StronglySorted_inv in Hd as [Hd Hafter].
  apply Forall_cons in Hr as [Hrm Hr]. apply Forall_cons in Hp as [Hpm _].
  destruct (prefix_by_units p q pre (t ++ post)) as (g0 & Hpre & Hq'); [congruence|lia|].
  destruct (IH Hd Hs Hr (pre ++ t) post) as (g & rs & Hpost & Hf & Hrs & Hts & Hsc).
  { by rewrite <-app_assoc. }
  { eapply Forall_impl; [exact Hafter|]. intros m' Hm'. cbv beta in *. rewrite utf16_len_app. rewrite Hi, Hl in Hm'. lia. }
  exists g0, (mkRegion t (replacement m) g :: rs). cbn [foldr]. rewrite Hf.
  assert (Hg0 : Forall scalar pre) by (rewrite Hb in Hs; by apply Forall_app in Hs as [? _]).
  rewrite <-app_assoc, (splice_located pre t m _ Hg0 Hsc Hi Hl).
  unfold before_edit, after_edit in *. cbn [map concat was becomes after].
  split; [by rewrite Hq', Hpost, <-!app_assoc|].
  split; [by rewrite Hpre, <-!app_assoc|].
  split; [by constructor|]. split; [by rewrite Hts|].
  apply Forall_app in Hsc as [Hsc1 Hsc2].
  rewrite !Forall_app. repeat split; try done. rewrite Hpre in Hg0. by apply Forall_app in Hg0 as [_ ?].
Qed.

(** ** Matching *)

(** Where the matches are found: in the text itself, or in a text that is normal. *)
Definition covers_as (fuzzy : bool) (e : Edit) (t : str) : Prop :=
  if fuzzy then covers e t else t = old_text e.

Definition ready (fuzzy : bool) (base : str) (e : Edit) : Prop :=
  if fuzzy then normalize_for_fuzzy_match base = base
  else used_fuzzy_match (fuzzy_find_text base (old_text e)) = false.

Definition matched_at (fuzzy : bool) (base : str) (e : Edit) (m : MatchedEdit) : Prop :=
  ∃ t, located base m t ∧ covers_as fuzzy e t ∧ replacement m = new_text e.

Lemma fuzzy_find_located base e fuzzy i :
  ready fuzzy base e →
  let r := fuzzy_find_text base (old_text e) in
  found r = true →
  matched_at fuzzy base e (mkMatched i (index r) (match_length r) (new_text e)).
Proof.
  cbv zeta. unfold ready, fuzzy_find_text.
  destruct (find base (old_text e)) as [x|] eqn:E; [intros _ _|].
  - destruct (find_Some _ _ _ E) as [post Hp]. exists (old_text e). split; [|split; [|done]].
    + by exists (take x base), post.
    + destruct fuzzy; [by left|done].
  - destruct (find (normalize_for_fuzzy_match base) _) as [x|] eqn:E'; [|done].
    destruct fuzzy; [|done]. intros Hn _. rewrite Hn in *.
    destruct (find_Some _ _ _ E') as [post Hp].
    exists (normalize_for_fuzzy_match (old_text e)). split; [|split; [by right|done]].
    by exists (take x base), post.
Qed.

Lemma match_edits_located fuzzy base path total i edits ms :
  Forall (ready fuzzy base) edits → match_edits base path total i edits = Ok ms →
  Forall2 (matched_at fuzzy base) edits ms.
Proof.
  intros Hr. revert i ms. induction Hr as [|e edits He _ IH]; intros i ms Hm; simpl in Hm.
  - injection Hm as <-. constructor.
  - apply bind_ok in Hm as (m & Hm & (ms' & Hms & [= <-])%bind_ok).
    constructor; [|by eapply IH]. unfold match_edit in Hm.
    destruct (negb _) eqn:Ef; [done|]. apply negb_false_iff in Ef.
    destruct (1 <? _)%nat; [done|]. injection Hm as <-. by apply fuzzy_find_located.
Qed.

Definition apart (a b : MatchedEdit) : Prop :=
  (match_index a + Z.of_nat (matched_length a) ≤ match_index b)%Z.

Lemma check_overlap_disjoint path ms : check_overlap path ms = Ok tt → disjoint ms.
Proof.
  intros H. apply Sorted_StronglySorted; [intros a b c; lia|].
  induction ms as [|a [|b ms] IH]; [constructor|by repeat constructor|].
  cbn [check_overlap] in H. destruct (Z.ltb_spec (match_index b) (match_index a + Z.of_nat (matched_length a)))
    as [|Hle]; [done|]. constructor; [by apply IH|by constructor].
Qed.

Lemma matched_split fuzzy base es ms :
  Forall2 (matched_at fuzzy base) es ms →
  ∃ ts, Forall2 (located base) ms ts ∧ Forall2 (covers_as fuzzy) es ts ∧
    Forall2 (λ e m, replacement m = new_text e) es ms.
Proof.
  induction 1 as [|e m es ms (t & Hl & Hc & Hn) _ (ts & IH1 & IH2 & IH3)].
  - exists []. repeat constructor.
  - exists (t :: ts). by repeat constructor.
Qed.

Lemma located_nonneg base ms ts : Forall2 (located base) ms ts → Forall (λ m, 0 ≤ match_index m)%Z ms.
Proof.
  induction 1 as [|m t ms ts (pre & post & _ & Hi & _) _ IH]; constructor; [rewrite Hi; lia|done].
Qed.

(** The regions of an edit, in the order they stand in the text. *)
Definition edited (fuzzy : bool) (e : Edit) (r : region) : Prop :=
  becomes r = new_text e ∧ covers_as fuzzy e (was r).

Lemma edited_regions fuzzy es ms rs :
  Forall2 (λ e m, replacement m = new_text e) es ms →
  Forall2 (λ m r, becomes r = replacement m) ms rs →
  Forall2 (covers_as fuzzy) es (map was rs) →
  Forall2 (edited fuzzy) es rs.
Proof.
  intros H1. revert rs. induction H1 as [|e m es ms Hm _ IH]; intros rs H2 H3;
    inversion H2 as [|? r ? rs' Hr Hrs]; subst; [constructor|].
  simpl in H3. apply Forall2_cons in H3 as [Hc H3]. constructor; [split; [congruence|done]|by apply IH].
Qed.

Definition uses_fuzzy (content : str) (es : list Edit) : bool :=
  existsb (λ e, used_fuzzy_match (fuzzy_find_text content (old_text e))) es.

Definition base_of (content : str) (es : list Edit) : str :=
  if uses_fuzzy content es then normalize_for_fuzzy_match content else content.

Lemma base_ready content es : Forall (ready (uses_fuzzy content es) (base_of content es)) es.
Proof.
  unfold base_of, ready. destruct (uses_fuzzy content es) eqn:E.
  - apply Forall_forall. intros e _. apply normalize_idemp.
  - apply Forall_forall. intros e He. unfold uses_fuzzy in E.
    destruct (used_fuzzy_match _) eqn:Eu; [|done].
    assert (existsb (λ e, used_fuzzy_match (fuzzy_find_text content (old_text e))) es = true); [|congruence].
    apply existsb_exists. exists e. split; [by apply list_elem_of_In|done].
Qed.

Lemma existsb_map {A B} (f : A → B) (p : B → bool) l : existsb p (map f l) = existsb (λ a, p (f a)) l.
Proof. induction l; simpl; congruence. Qed.

Lemma replacements_scalar fuzzy base es ms :
  Forall2 (matched_at fuzzy base) es ms → Forall (λ e, Forall scalar (new_text e)) es →
  Forall (λ m, Forall scalar (replacement m)) ms.
Proof.
  induction 1 as [|e m es ms (t & _ & _ & Hn) _ IH]; intros Hs; [constructor|].
  apply Forall_cons in Hs as [He Hs]. constructor; [by rewrite Hn|by apply IH].
Qed.

(** What a successful application comes to. *)
Lemma apply_edits_spec content edits path r :
  Forall scalar content → Forall (λ e, Forall scalar (new_text e)) edits →
  apply_edits_to_normalized_content content edits path = Ok r →
  let es0 := map normalize_edit edits in
  let fuzzy := uses_fuzzy content es0 in
  base_content r = base_of content es0 ∧ new_content r ≠ base_content r ∧
  ∃ es g rs, es ≡ₚ es0 ∧ base_content r = before_edit g rs ∧ new_content r = after_edit g rs ∧
    Forall2 (edited fuzzy) es rs.
Proof.
  intros Hs Hn Ha es0 fuzzy. unfold apply_edits_to_normalized_content in Ha. cbv zeta in Ha.
  rewrite existsb_map in Ha. fold es0 (uses_fuzzy content es0) (base_of content es0) in Ha.
  apply bind_ok in Ha as ([] & _ & (ms & Hms & ([] & Hov & Ha)%bind_ok)%bind_ok).
  pose proof (match_edits_located _ _ _ _ _ _ _ (base_ready content es0) Hms) as Hm.
  rewrite <-fold_left_rev_right, rev_involutive in Ha.
  destruct (str_eqb_spec (base_of content es0) (fold_right (λ y x, splice x y) (base_of content es0) (merge_sort index_le ms)))
    as [|Hne]; [done|]. injection Ha as <-. simpl. split; [done|]. split; [done|].
  destruct (Permutation_Forall2 (Permutation_sym (merge_sort_Permutation index_le ms))
              (proj2 (Forall2_flip _ _ _) Hm)) as (es & Hperm & Hm').
  apply (proj1 (Forall2_flip _ _ _)) in Hm'.
  destruct (matched_split _ _ _ _ Hm') as (ts & Hloc & Hcov & Hrep).
  destruct (splice_all _ _ _ Hloc (check_overlap_disjoint _ _ Hov)) with (p := @nil N) (q := base_of content es0)
    as (g & rs & Hq & Hf & Hrs & Hts & _).
  - unfold base_of. destruct (uses_fuzzy content es0); [by apply normalize_scalar|done].
  - apply (replacements_scalar _ _ _ _ Hm'). rewrite <-Hperm. unfold es0. rewrite Forall_map.
    eapply Forall_impl; [exact Hn|]. intros e He. simpl. by apply normalize_to_lf_scalar.
  - done.
  - by eapply located_nonneg.
  - exists es, g, rs. split; [by symmetry|]. split; [done|]. split; [exact Hf|].
    apply (edited_regions _ _ _ _ Hrep Hrs). by rewrite Hts.
Qed.

(** An edit call that succeeds replaces exactly what it was asked to: the content is
    cut into the regions of the old texts, in some order, and each region becomes the
    new text of its edit while everything between the regions is kept.  Without fuzzy
    matching the regions are the old texts themselves, in the content as it was; with it
    they are the old texts or their normal forms, in the normal form of the content.
    The result always differs from the base. *)
Theorem edits_replace_regions content edits path r :
  Forall scalar content → Forall (λ e, Forall scalar (new_text e)) edits →
  apply_edits_to_normalized_content content edits path = Ok r →
  let es0 := map normalize_edit edits in
  let fuzzy := uses_fuzzy content es0 in
  base_content r = (if fuzzy then normalize_for_fuzzy_match content else content) ∧
  new_content r ≠ base_content r ∧
  ∃ es g rs, es ≡ₚ es0 ∧ base_content r = before_edit g rs ∧ new_content r = after_edit g rs ∧
    Forall2 (edited fuzzy) es rs.
Proof. intros Hs Hn Ha. exact (apply_edits_spec content edits path r Hs Hn Ha). Qed.

Lemma edits_replace_regions_witness :
  let content := lit "let a = 1;" ++ [10] ++ lit "let b = 2;" in
  let edits := [mkEdit (lit "b = 2") (lit "b = 3"); mkEdit (lit "a = 1") (lit "a = 7")] in
  apply_edits_to_normalized_content content edits (lit "f.rs") =
    Ok (mkApplied content (lit "let a = 7;" ++ [10] ++ lit "let b = 3;")) ∧
  ∃ es g rs, es ≡ₚ map normalize_edit edits ∧ content = before_edit g rs ∧
    lit "let a = 7;" ++ [10] ++ lit "let b = 3;" = after_edit g rs ∧ Forall2 (edited false) es rs.
Proof.
  cbv zeta. split; [by vm_compute|].
  refine (proj2 (proj2 (edits_replace_regions (lit "let a = 1;" ++ [10] ++ lit "let b = 2;")
    [mkEdit (lit "b = 2") (lit "b = 3"); mkEdit (lit "a = 1") (lit "a = 7")] (lit "f.rs")
    (mkApplied (lit "let a = 1;" ++ [10] ++ lit "let b = 2;") (lit "let a = 7;" ++ [10] ++ lit "let b = 3;")) _ _ _))).
  - by apply scalars.
  - constructor; [by apply scalars|constructor; [by apply scalars|done]].
  - by vm_compute.
Defined.

(** ** The file as a whole *)

(** Every line ending is CR LF, and there is no other CR. *)
Fixpoint crlf_only (s : str) : bool :=
  match s with
  | 13 :: 10 :: s' => crlf_only s'
  | c :: s' => negb (c =? 13) && negb (c =? 10) && crlf_only s'
  | [] => true
  end.

Definition consistent (s : str) : bool := forallb (λ c, negb (c =? 13)) s || crlf_only s.

(** Induction along the lines of such a text. *)
Lemma crlf_only_ind (P : str → Prop) :
  P [] → (∀ s, crlf_only s = true → P s → P (13 :: 10 :: s)) →
  (∀ c s, c ≠ 13 → c ≠ 10 → crlf_only s = true → P s → P (c :: s)) →
  ∀ s, crlf_only s = true → P s.
Proof.
  intros H0 H1 H2 s. remember (length s) as n eqn:Hn. revert s Hn.
  induction n as [n IH] using lt_wf_ind. intros [|c s] -> Hs; [done|].
  assert (Hcase : (c = 13 ∧ ∃ s', s = 10 :: s' ∧ crlf_only s' = true) ∨
                  (c ≠ 13 ∧ c ≠ 10 ∧ crlf_only s = true)).
  { destruct (N.eq_dec c 13) as [->|Hne].
    - left. split; [done|]. destruct s as [|d s']; [done|].
      destruct (N.eq_dec d 10) as [->|Hd]; [by exists s'|]. exfalso. revert Hs. simpl. repeat case_match; done.
    - right. assert (Hs' : negb (c =? 13) && negb (c =? 10) && crlf_only s = true).
      { revert Hs. simpl. repeat case_match; try done. }
      apply andb_true_iff in Hs' as [[H13 H10]%andb_true_iff Hs'].
      apply negb_true_iff, N.eqb_neq in H13, H10. done. }
  destruct Hcase as [(-> & s' & -> & Hs')|(Hc1 & Hc2 & Hs')].
  - apply H1; [done|]. apply (IH (length s')); [simpl; lia|done..].
  - apply H2; [done..|]. apply (IH (length s)); [simpl; lia|done..].
Qed.

Lemma find_fresh c s pat : c ∉ s → find s (c :: pat) = None.
Proof.
  induction s as [|d s IH]; intros Hc; [done|]. apply not_elem_of_cons in Hc as [Hd Hs].
  simpl. destruct (N.eqb_spec c d); [done|]. by rewrite IH.
Qed.

Lemma find_char_None c s : find s [c] = None → c ∉ s.
Proof.
  intros H (pre & post & ->)%list_elem_of_split.
  destruct (find_occurs pre [c] post) as [i Hi]. simpl in Hi. congruence.
Qed.

Lemma normalize_no_cr s : 13 ∉ s → normalize_to_lf s = s.
Proof.
  unfold normalize_to_lf. induction s as [|c s IH]; intros Hc; [done|].
  apply not_elem_of_cons in Hc as [Hd Hs].
  destruct (crlf_to_lf_cons c s) as [(-> & _)| ->]; [done|]. cbn [map]. rewrite IH by done.
  unfold cr_to_lf. destruct (N.eqb_spec c 13); [by subst|done].
Qed.

Lemma restore_lf s : restore_line_endings s Lf = s.
Proof. unfold restore_line_endings. induction s; simpl in *; congruence. Qed.

Lemma restore_app a b e : restore_line_endings (a ++ b) e = restore_line_endings a e ++ restore_line_endings b e.
Proof. apply flat_map_app. Qed.

Lemma crlf_only_restore s :
  crlf_only s = true → restore_line_endings (normalize_to_lf s) Crlf = s.
Proof.
  revert s. apply crlf_only_ind; [done| |].
  - intros s _ IH. unfold normalize_to_lf in *. cbn [crlf_to_lf map]. unfold restore_line_endings in *.
    cbn [flat_map]. by rewrite IH.
  - intros c s H13 H10 _ IH. unfold normalize_to_lf in *.
    destruct (crlf_to_lf_cons c s) as [(-> & _)| ->]; [done|]. cbn [map]. unfold restore_line_endings in *.
    cbn [flat_map]. rewrite IH. unfold cr_to_lf, restore_char.
    destruct (N.eqb_spec c 13); [done|]. by destruct (N.eqb_spec c 10).
Qed.

Lemma crlf_only_detect s j :
  crlf_only s = true → find s [10] = Some j → ∃ i, find s [13; 10] = Some i ∧ (i < j)%nat.
Proof.
  intros Hs. revert s Hs j. apply (crlf_only_ind (λ s, ∀ j, _ → _)); [done| |].
  - intros s _ IH j Hj. exists O. split; [done|]. simpl in Hj. injection Hj as <-. lia.
  - intros c s H13 H10 _ IH j. cbn [find strip_prefix].
    destruct (N.eqb_spec 10 c) as [|_]; [congruence|]. destruct (N.eqb_spec 13 c) as [|_]; [congruence|].
    intros (j' & Hj & ->)%fmap_Some. destruct (IH j' Hj) as (i & -> & Hlt). exists (S i). split; [done|lia].
Qed.

Lemma crlf_only_no_lf s : crlf_only s = true → 10 ∉ s → 13 ∉ s.
Proof.
  revert s. apply (crlf_only_ind (λ s, _ → _)); [intros _; apply not_elem_of_nil| |].
  - intros s _ _ H. destruct H. set_solver.
  - intros c s H13 H10 _ IH H. apply not_elem_of_cons in H as [_ H].
    apply not_elem_of_cons. split; [congruence|by apply IH].
Qed.

(** Normalizing the line endings of a consistent text and restoring them is lossless. *)
Lemma endings_roundtrip s :
  consistent s = true → restore_line_endings (normalize_to_lf s) (detect_line_ending s) = s.
Proof.
  intros [Hc|Hc]%orb_true_iff.
  - assert (Hs : 13 ∉ s).
    { intros Hin. rewrite forallb_forall in Hc. apply list_elem_of_In in Hin. by apply Hc in Hin. }
    unfold detect_line_ending. rewrite (find_fresh 13 s [10] Hs).
    replace (match find s [10] with Some _ | _ => Lf end) with Lf by (by destruct (find s [10])).
    by rewrite restore_lf, normalize_no_cr.
  - unfold detect_line_ending. destruct (find s [10]) as [j|] eqn:Ej.
    + destruct (crlf_only_detect s j Hc Ej) as (i & -> & Hlt).
      rewrite (proj2 (Nat.ltb_lt i j) Hlt). by apply crlf_only_restore.
    + rewrite restore_lf. by apply normalize_no_cr, crlf_only_no_lf, find_char_None.
Qed.

Definition restore_region (e : LineEnding) (r : region) : region :=
  mkRegion (restore_line_endings (was r) e) (restore_line_endings (becomes r) e) (restore_line_endings (after r) e).

Lemma restore_before g rs e :
  restore_line_endings (before_edit g rs) e = before_edit (restore_line_endings g e) (map (restore_region e) rs).
Proof.
  unfold before_edit. rewrite restore_app. f_equal.
  induction rs as [|r rs IH]; [done|]. cbn [map concat]. by rewrite !restore_app, IH.
Qed.

Lemma restore_after g rs e :
  restore_line_endings (after_edit g rs) e = after_edit (restore_line_endings g e) (map (restore_region e) rs).
Proof.
  unfold after_edit. rewrite restore_app. f_equal.
  induction rs as [|r rs IH]; [done|]. cbn [map concat]. by rewrite !restore_app, IH.
Qed.

Lemma strip_bom_app raw : bom (strip_bom raw) ++ text (strip_bom raw) = raw.
Proof.
  unfold strip_bom. destruct (strip_prefix [65279] raw) as [rest|] eqn:E; [|done].
  apply strip_prefix_Some in E. by rewrite E.
Qed.

Definition edit_regions (raw : str) (edits : list Edit) (f : EditedFile) : Prop :=
  let ending := detect_line_ending (text (strip_bom raw)) in
  ∃ es g rs, es ≡ₚ map normalize_edit edits ∧ Forall2 (edited false) es rs ∧
    raw = before_edit (bom (strip_bom raw) ++ restore_line_endings g ending) (map (restore_region ending) rs) ∧
    final_content f = after_edit (bom (strip_bom raw) ++ restore_line_endings g ending) (map (restore_region ending) rs).

(** C31: The edit tool leaves the rest of the file alone, to the byte.  For a file whose line
    endings are all alike, and edits that match exactly, what is written back is the
    file with each old text replaced by its new text in the line endings of the file:
    the BOM, every line ending and all text between the regions stay as they are. *)
Theorem edit_keeps_rest raw edits path f :
  Forall scalar raw → Forall (λ e, Forall scalar (new_text e)) edits →
  consistent (text (strip_bom raw)) = true →
  uses_fuzzy (normalize_to_lf (text (strip_bom raw))) (map normalize_edit edits) = false →
  edit_content raw edits path = Ok f →
  edit_regions raw edits f.
Proof.
  intros Hs Hn Hc Hu He. unfold edit_content in He. cbv zeta in He.
  apply bind_ok in He as (r & Hr & [= <-]).
  assert (Hst : Forall scalar (text (strip_bom raw))).
  { rewrite <-(strip_bom_app raw) in Hs. by apply Forall_app in Hs as [_ ?]. }
  destruct (apply_edits_spec _ _ _ _ (normalize_to_lf_scalar _ Hst) Hn Hr) as (Hb & _ & es & g & rs & Hp & Hb' & Ha & H2).
  rewrite Hu in H2. unfold base_of in Hb. rewrite Hu in Hb.
  exists es, g, rs. simpl. rewrite Ha, restore_after. split; [done|]. split; [done|].
  unfold before_edit at 1, after_edit. rewrite <-!app_assoc. split; [|done].
  fold (before_edit (restore_line_endings g (detect_line_ending (text (strip_bom raw))))
          (map (restore_region (detect_line_ending (text (strip_bom raw)))) rs)).
  rewrite <-restore_before, <-Hb', Hb, endings_roundtrip by done. by rewrite strip_bom_app.
Qed.

Lemma edit_keeps_rest_witness :
  let raw := [65279] ++ lit "one" ++ [13; 10] ++ lit "two" ++ [13; 10] in
  let edits := [mkEdit (lit "two" ++ [10]) (lit "2" ++ [10] ++ lit "3")] in
  ∃ f, edit_content raw edits (lit "f") = Ok f ∧
    final_content f = [65279] ++ lit "one" ++ [13; 10] ++ lit "2" ++ [13; 10] ++ lit "3" ∧
    edit_regions raw edits f.
Proof.
  cbv zeta. eexists. split; [vm_compute; reflexivity|]. split; [by vm_compute|].
  apply (edit_keeps_rest _ _ (lit "f")).
  - by apply scalars.
  - constructor; [by apply scalars|done].
  - by vm_compute.
  - by vm_compute.
  - by vm_compute.
Defined.

(** A file that mixes line endings does not keep them: an edit elsewhere rewrites them
    all to the kind of the first line. *)
Fact edit_unifies_endings :
  let raw := lit "a" ++ [13; 10] ++ lit "b" ++ [10] ++ lit "c" in
  ∃ f, edit_content raw [mkEdit (lit "c") (lit "d")] (lit "f") = Ok f ∧
    final_content f = lit "a" ++ [13; 10] ++ lit "b" ++ [13; 10] ++ lit "d".
Proof. cbv zeta. eexists. split; vm_compute; reflexivity. Qed.

(** "aa" stands at two places of "aaa", but matches are counted without overlaps, so the
    text passes as unique and the first place is taken. *)
Fact overlapping_occurrences_accepted :
  apply_edits_to_normalized_content (lit "aaa") [mkEdit (lit "aa") (lit "b")] (lit "f") =
    Ok (mkApplied (lit "aaa") (lit "ba")).
Proof. by vm_compute. Qed.

(** A blank old text that is not in the file has an empty normal form, which is "found" at
    the start; in a file of a single UTF-16 unit the number of its occurrences is one,
    and the new text is inserted. *)
Fact blank_old_text_inserts :
  apply_edits_to_normalized_content (lit "x") [mkEdit (lit "  ") (lit "new")] (lit "f") =
    Ok (mkApplied (lit "x") (lit "newx")).
Proof. by vm_compute. Qed.

(** A text that stands in the file exactly once is refused when a look-alike of it does
    too. *)
Fact exact_text_refused :
  apply_edits_to_normalized_content (lit "'a' " ++ [8216; 97; 8217]) [mkEdit (lit "'a'") (lit "b")] (lit "f") =
    Err (get_duplicate_error (lit "f") 0 1 2).
Proof. by vm_compute. Qed.
