(* ===== verification/Truncate.v ===== *)
(** * Truncation of tool output

    [pi-coding-agent/src/core/tools/truncate.rs]: keeping the head or the tail of a tool's
    output within a number of lines and a number of bytes.  Lines are what
    [split('\n')] gives; sizes are [usize] and bytes are those of UTF-8. *)
From stdpp Require Import base list numbers strings.
From S2P Require Import Prelude RustStr.

Local Open Scope N_scope.

Definition DEFAULT_MAX_LINES : N := 2000.
Definition DEFAULT_MAX_BYTES : N := 50 * 1024.

Inductive TruncatedBy : Type := Lines | Bytes.

Record TruncationResult : Type := mkTruncation {
  content : str;
  truncated : bool;
  truncated_by : option TruncatedBy;
  total_lines : N;
  total_bytes : N;
  output_lines : N;
  output_bytes : N;
  last_line_partial : bool;
  first_line_exceeds_limit : bool;
  max_lines : N;
  max_bytes : N }.

Record TruncationOptions : Type := mkOptions { opt_max_lines : option N; opt_max_bytes : option N }.

Definition limit_lines (o : TruncationOptions) : N := default DEFAULT_MAX_LINES (opt_max_lines o).
Definition limit_bytes (o : TruncationOptions) : N := default DEFAULT_MAX_BYTES (opt_max_bytes o).

(** The result when both limits hold. *)
Definition untouched (text : str) (lines bytes maxl maxb : N) : TruncationResult :=
  mkTruncation text false None lines bytes lines bytes false false maxl maxb.

(** The bytes of the line separator, from the second line on. *)
Definition separator (first : bool) : N := if first then 0 else 1.

(** ** From the head *)

(** The loop: how many of [lines] are kept, and whether the byte limit stopped it. *)
Fixpoint head_loop (maxl maxb i bytes : N) (lines : list str) : list str * N * TruncatedBy :=
  match lines with
  | [] => ([], bytes, Lines)
  | line :: rest =>
      if maxl <=? i then ([], bytes, Lines)
      else
        let line_bytes := byte_len line + separator (i =? 0) in
        if maxb <? bytes + line_bytes then ([], bytes, Bytes)
        else
          let '(kept, bytes', by_) := head_loop maxl maxb (i + 1) (bytes + line_bytes) rest in
          (line :: kept, bytes', by_)
  end.

Definition truncate_head (text : str) (options : TruncationOptions) : TruncationResult :=
  let maxl := limit_lines options in
  let maxb := limit_bytes options in
  let bytes := byte_len text in
  let lines := split_on 10 text in
  let total := len lines in
  if (total <=? maxl) && (bytes <=? maxb) then untouched text total bytes maxl maxb
  else if maxb <? byte_len (hd [] lines) then
    mkTruncation [] true (Some Bytes) total bytes 0 0 false true maxl maxb
  else
    let '(kept, kept_bytes, by_) := head_loop maxl maxb 0 0 lines in
    let by_ := if (maxl <=? len kept) && (kept_bytes <=? maxb) then Lines else by_ in
    let output := join [10] kept in
    mkTruncation output true (Some by_) total bytes (len kept) (byte_len output) false false maxl maxb.

(** ** From the tail *)

Definition is_blank_line (line : str) : bool := is_empty line || str_eqb line [13].

(** [truncate_string_to_bytes_from_end]: the code moves the start byte by byte to the
    next character; the model drops whole characters, which [cut_bytes_agree] shows to
    be the same. *)
Fixpoint truncate_string_to_bytes_from_end (text : str) (maxb : N) : str :=
  if byte_len text <=? maxb then text
  else match text with [] => [] | _ :: rest => truncate_string_to_bytes_from_end rest maxb end.

(** What the blanks collected so far cost: each its bytes and the separator before it. *)
Definition blanks_cost (blanks : list str) : N := foldr (λ b acc, 1 + byte_len b + acc) 0 blanks.

(** The inner loop: give up blanks from the end until a byte is left for the line. *)
Fixpoint keep_blanks (kept : nat) (blanks : list str) (maxb : N) : list str :=
  let blanks := take kept blanks in
  match kept with
  | O => blanks
  | S kept => if maxb <? blanks_cost blanks + 1 then keep_blanks kept blanks maxb else blanks
  end.

Record tail_state : Type := mkTail {
  collected : list str;
  collected_bytes : N;
  tail_by : TruncatedBy;
  partial_line : option str }.

(** The loop, over the lines from the last to the first. *)
Fixpoint tail_loop (maxl maxb : N) (rest : list str) (arr : list str) (bytes : N) : tail_state :=
  match rest with
  | [] => mkTail arr bytes Lines None
  | line :: rest' =>
      if maxl <=? len arr then mkTail arr bytes Lines None
      else
        let line_bytes := byte_len line + separator (is_empty arr) in
        if maxb <? bytes + line_bytes then
          if forallb is_blank_line arr then
            let kept := keep_blanks (length arr) arr maxb in
            let cost := blanks_cost kept in
            let truncated_line := truncate_string_to_bytes_from_end line (maxb - cost) in
            mkTail kept (byte_len truncated_line + cost) Bytes (Some truncated_line)
          else mkTail arr bytes Bytes None
        else tail_loop maxl maxb rest' (line :: arr) (bytes + line_bytes)
  end.

Definition truncate_tail (text : str) (options : TruncationOptions) : TruncationResult :=
  let maxl := limit_lines options in
  let maxb := limit_bytes options in
  let bytes := byte_len text in
  let lines := split_on 10 text in
  let total := len lines in
  if (total <=? maxl) && (bytes <=? maxb) then untouched text total bytes maxl maxb
  else
    let t := tail_loop maxl maxb (rev lines) [] 0 in
    let by_ := if (maxl <=? len (collected t)) && (collected_bytes t <=? maxb) then Lines else tail_by t in
    let all := match partial_line t with Some p => p :: collected t | None => collected t end in
    let output := join [10] all in
    mkTruncation output true (Some by_) total bytes (len all) (byte_len output)
      (match partial_line t with Some _ => true | None => false end) false maxl maxb.

(** ** A single line *)

Record TruncatedLine : Type := mkLine { line_text : str; was_truncated : bool }.

Definition truncate_line (line : str) (max_chars : N) : TruncatedLine :=
  if len line <=? max_chars then mkLine line false
  else mkLine (take (N.to_nat max_chars) line ++ lit "... [truncated]") true.

(** ** Sizes *)

Lemma byte_len_join_cons x l : l ≠ [] → byte_len (join [10] (x :: l)) = byte_len x + 1 + byte_len (join [10] l).
Proof.
  destruct l as [|y l]; [done|]. intros _.
  change (join [10] (x :: y :: l)) with (x ++ 10 :: join [10] (y :: l)).
  rewrite byte_len_app. cbn [byte_len]. change (utf8_len 10) with 1. lia.
Qed.

Lemma byte_len_join_snoc l x :
  byte_len (join [10] (l ++ [x])) = byte_len (join [10] l) + byte_len x + separator (is_empty l).
Proof.
  induction l as [|y l IH]; [simpl; lia|]. cbn [app is_empty separator].
  rewrite byte_len_join_cons by (by destruct l). rewrite IH.
  destruct l as [|z l]; [simpl; lia|]. rewrite (byte_len_join_cons y (z :: l)) by done. cbn [is_empty separator]. lia.
Qed.

Lemma join_app a b : a ≠ [] → b ≠ [] → join [10] (a ++ b) = join [10] a ++ 10 :: join [10] b.
Proof.
  induction a as [|x [|y a] IH]; [done| |]; intros _ Hb.
  - destruct b; [done|]. done.
  - change (join [10] ((x :: y :: a) ++ b)) with (x ++ 10 :: join [10] ((y :: a) ++ b)).
    rewrite IH by done. change (join [10] (x :: y :: a)) with (x ++ 10 :: join [10] (y :: a)).
    by rewrite <-app_assoc.
Qed.

(** ** The head is the longest that fits *)

Lemma separator_len {A} (p : list A) : separator (len p =? 0) = separator (is_empty p).
Proof. destruct p; [done|]. rewrite len_cons. destruct (N.eqb_spec (len p + 1) 0); [lia|done]. Qed.

(** The loop after the lines [p]: it keeps a stretch [k] of what follows, and stops at the
    end, at the line limit, or at a line that does not fit. *)
Lemma head_loop_spec maxl maxb p lines :
  len p ≤ maxl → byte_len (join [10] p) ≤ maxb →
  ∃ k rest by_, head_loop maxl maxb (len p) (byte_len (join [10] p)) lines =
    (k, byte_len (join [10] (p ++ k)), by_) ∧ lines = k ++ rest ∧
    len (p ++ k) ≤ maxl ∧ byte_len (join [10] (p ++ k)) ≤ maxb ∧
    match by_ with
    | Lines => rest = [] ∨ len (p ++ k) = maxl
    | Bytes => len (p ++ k) < maxl ∧ ∃ l rest', rest = l :: rest' ∧ maxb < byte_len (join [10] (p ++ k ++ [l]))
    end.
Proof.
  revert p. induction lines as [|l lines IH]; intros p Hl Hb; cbn [head_loop].
  { exists [], [], Lines. rewrite app_nil_r. repeat split; [done..|by left]. }
  destruct (N.leb_spec maxl (len p)) as [Hm|Hm].
  { exists [], (l :: lines), Lines. rewrite app_nil_r. repeat split; [done..|right; lia]. }
  rewrite separator_len. pose proof (byte_len_join_snoc p l) as Hs.
  destruct (N.ltb_spec maxb (byte_len (join [10] p) + (byte_len l + separator (is_empty p)))) as [Hx|Hx].
  - exists [], (l :: lines), Bytes. rewrite app_nil_r. repeat split; [done..|].
    exists l, lines. split; [done|]. simpl. lia.
  - destruct (IH (p ++ [l])) as (k & rest & by_ & Hh & -> & Hk1 & Hk2 & Hk3).
    { rewrite len_app. change (len [l]) with 1. lia. }
    { lia. }
    rewrite len_app, Hs in Hh. change (len [l]) with 1 in Hh.
    rewrite N.add_assoc, Hh. exists (l :: k), rest, by_.
    rewrite <-app_assoc in *. repeat split; [done..|].
    destruct by_; [done|]. destruct Hk3 as (? & l' & r' & ? & ?). split; [done|].
    exists l', r'. by rewrite <-app_assoc in *.
Qed.

Lemma split_join text : join [10] (split_on 10 text) = text.
Proof. apply join_split_on. Qed.

(** A result of [truncate_head]: the first [k] lines of the text, whole. *)
Record head_of (text : str) (maxl maxb : N) (r : TruncationResult) (k : list str) : Prop := {
  head_prefix : k `prefix_of` split_on 10 text;
  head_content : content r = join [10] k;
  head_lines : output_lines r = len k;
  head_bytes : output_bytes r = byte_len (content r);
  head_max_lines : len k ≤ maxl;
  head_max_bytes : byte_len (content r) ≤ maxb }.

(** [truncate_head] returns the longest stretch of whole lines from the start of the
    output that respects both limits.  The text comes back unchanged exactly when it is
    within both; otherwise the kept lines are followed by one that cannot be added,
    because the line limit is reached or because the byte limit would be exceeded, and
    the result names the limit.  The counts it reports are those of what it returns. *)
Theorem truncate_head_longest text options :
  let maxl := limit_lines options in
  let maxb := limit_bytes options in
  let r := truncate_head text options in
  ∃ k, head_of text maxl maxb r k ∧ total_lines r = len (split_on 10 text) ∧ total_bytes r = byte_len text ∧
  if truncated r then
    ∃ l rest, split_on 10 text = k ++ l :: rest ∧
      match truncated_by r with
      | Some Lines => len k = maxl
      | Some Bytes => maxb < byte_len (join [10] (k ++ [l]))
      | None => False
      end
  else content r = text ∧ truncated_by r = None.
Proof.
  intros maxl maxb r. subst r. unfold truncate_head. fold maxl maxb.
  pose proof (split_join text) as Hj.
  destruct ((len (split_on 10 text) <=? maxl) && (byte_len text <=? maxb)) eqn:Efit.
  { apply andb_true_iff in Efit as [E1%N.leb_le E2%N.leb_le].
    exists (split_on 10 text). repeat split; done. }
  destruct (N.ltb_spec maxb (byte_len (hd [] (split_on 10 text)))) as [Hx|Hx].
  { exists []. destruct (split_on 10 text) as [|l rest] eqn:El; [by apply split_on_ne_nil in El|].
    split; [split; simpl; try done; try (unfold len; simpl; lia); apply prefix_nil|].
    do 2 (split; [done|]). simpl in *. by exists l, rest. }
  destruct (head_loop_spec maxl maxb [] (split_on 10 text)) as (k & rest & by_ & Hh & Hsp & Hk1 & Hk2 & Hk3);
    [unfold len; simpl; lia|simpl; lia|].
  cbn [app] in *. change (len []) with 0 in Hh. change (byte_len (join [10] [])) with 0 in Hh.
  rewrite Hh. exists k. split; [split; simpl; try done; by exists rest|]. do 2 (split; [done|]). cbn [truncated].
  destruct rest as [|l rest].
  { exfalso. rewrite app_nil_r in Hsp. subst k. rewrite Hj in Hk2.
    apply andb_false_iff in Efit as [E%N.leb_gt|E%N.leb_gt]; lia. }
  exists l, rest. split; [done|]. cbn [truncated_by].
  destruct (N.leb_spec maxl (len k)) as [Hm|Hm]; cbn [andb].
  - rewrite (proj2 (N.leb_le _ _) Hk2). lia.
  - destruct by_; [destruct Hk3; [done|lia]|]. by destruct Hk3 as (_ & l' & r' & [= <- <-] & ?).
Qed.

(** ** Cutting a line at a character *)

(** UTF-8, to state what [truncate_string_to_bytes_from_end] does to the bytes. *)
Definition encode_utf8_char (c : N) : list N :=
  if c <? 128 then [c]
  else if c <? 2048 then [192 + c / 64; 128 + c mod 64]
  else if c <? 65536 then [224 + c / 4096; 128 + (c / 64) mod 64; 128 + c mod 64]
  else [240 + c / 262144; 128 + (c / 4096) mod 64; 128 + (c / 64) mod 64; 128 + c mod 64].

Definition as_bytes (s : str) : list N := flat_map encode_utf8_char s.

Definition is_continuation (b : N) : bool := N.land b 192 =? 128.

Fixpoint skip_continuation (bs : list N) : list N :=
  match bs with
  | b :: rest => if is_continuation b then skip_continuation rest else bs
  | [] => []
  end.

(** The function on bytes, as the code runs it. *)
Definition cut_bytes (buf : list N) (maxb : nat) : list N :=
  if (length buf <=? maxb)%nat then buf else skip_continuation (drop (length buf - maxb) buf).

Lemma below_cases (P : N → bool) n x : forallb P (map N.of_nat (seq 0 n)) = true → x < N.of_nat n → P x = true.
Proof.
  intros H Hx. rewrite forallb_forall in H. apply H. apply in_map_iff. exists (N.to_nat x).
  split; [lia|]. apply in_seq. lia.
Qed.

Lemma continuation_byte x : is_continuation (128 + x mod 64) = true.
Proof.
  apply (below_cases (λ x, is_continuation (128 + x)) 64); [by vm_compute|]. by apply N.mod_lt.
Qed.

(** A character starts with a byte that is not a continuation and goes on with bytes that
    are. *)
Lemma encode_utf8_char_shape c :
  c < 1114112 →
  ∃ b bs, encode_utf8_char c = b :: bs ∧ is_continuation b = false ∧
    Forall (λ b, is_continuation b = true) bs ∧ N.of_nat (length (b :: bs)) = utf8_len c.
Proof.
  intros Hc. unfold encode_utf8_char, utf8_len.
  destruct (N.ltb_spec c 128) as [H1|H1].
  { exists c, []. repeat split; [|constructor]. apply negb_true_iff.
    by apply (below_cases (λ x, negb (is_continuation x)) 128); [vm_compute|]. }
  destruct (N.ltb_spec c 2048) as [H2|H2].
  { eexists _, _. split; [done|]. split; [|split; [repeat constructor; apply continuation_byte|done]].
    apply negb_true_iff, (below_cases (λ x, negb (is_continuation (192 + x))) 32); [by vm_compute|].
    apply N.Div0.div_lt_upper_bound. lia. }
  destruct (N.ltb_spec c 65536) as [H3|H3].
  { eexists _, _. split; [done|]. split; [|split; [repeat constructor; apply continuation_byte|done]].
    apply negb_true_iff, (below_cases (λ x, negb (is_continuation (224 + x))) 16); [by vm_compute|].
    apply N.Div0.div_lt_upper_bound. lia. }
  eexists _, _. split; [done|]. split; [|split; [repeat constructor; apply continuation_byte|done]].
  apply negb_true_iff, (below_cases (λ x, negb (is_continuation (240 + x))) 8); [by vm_compute|].
  apply N.Div0.div_lt_upper_bound. lia.
Qed.

Definition is_code_point (c : N) : Prop := c < 1114112.

Lemma as_bytes_len s : Forall is_code_point s → N.of_nat (length (as_bytes s)) = byte_len s.
Proof.
  induction 1 as [|c s Hc _ IH]; [done|].
  destruct (encode_utf8_char_shape c Hc) as (b & bs & He & _ & _ & Hl).
  change (as_bytes (c :: s)) with (encode_utf8_char c ++ as_bytes s).
  rewrite length_app, He. cbn [byte_len]. lia.
Qed.

Lemma skip_as_bytes s : Forall is_code_point s → skip_continuation (as_bytes s) = as_bytes s.
Proof.
  intros [|c s' Hc _]; [done|].
  destruct (encode_utf8_char_shape c Hc) as (b & bs & He & Hb & _).
  change (as_bytes (c :: s')) with (encode_utf8_char c ++ as_bytes s'). rewrite He. simpl. by rewrite Hb.
Qed.

Lemma skip_app bs rest : Forall (λ b, is_continuation b = true) bs →
  skip_continuation (bs ++ rest) = skip_continuation rest.
Proof. induction 1 as [|b bs Hb _ IH]; [done|]. simpl. by rewrite Hb. Qed.

(** Dropping whole characters is what moving the start to the next character does. *)
Lemma cut_bytes_agree s maxb :
  Forall is_code_point s →
  cut_bytes (as_bytes s) maxb = as_bytes (truncate_string_to_bytes_from_end s (N.of_nat maxb)).
Proof.
  induction 1 as [|c s Hc Hs IH]; [by destruct maxb|]. unfold cut_bytes.
  cbn [truncate_string_to_bytes_from_end]. pose proof (as_bytes_len s Hs) as Hl.
  pose proof (as_bytes_len (c :: s) (Forall_cons_2 _ _ _ Hc Hs)) as Hlc.
  destruct (Nat.leb_spec (length (as_bytes (c :: s))) maxb) as [Hle|Hgt].
  { by rewrite (proj2 (N.leb_le (byte_len (c :: s)) (N.of_nat maxb))) by lia. }
  rewrite (proj2 (N.leb_gt (byte_len (c :: s)) (N.of_nat maxb))) by lia. rewrite <-IH.
  destruct (encode_utf8_char_shape c Hc) as (b & bs & He & Hb & Hbs & _).
  change (as_bytes (c :: s)) with (encode_utf8_char c ++ as_bytes s) in *.
  rewrite He, length_app in *. cbn [app length] in *.
  destruct (S (length bs) + length (as_bytes s) - maxb)%nat as [|n] eqn:En; [lia|].
  cbn [drop]. unfold cut_bytes. destruct (Nat.leb_spec (length (as_bytes s)) maxb) as [Hle|Hgt'].
  - rewrite drop_app_le by lia. rewrite skip_app by (by apply Forall_drop). by apply skip_as_bytes.
  - rewrite drop_app_ge by lia. do 2 f_equal. lia.
Qed.

(** The cut line: the end of the line, within the limit, as long as a character more
    would not fit. *)
Lemma cut_spec s maxb :
  ∃ a, s = a ++ truncate_string_to_bytes_from_end s maxb ∧
    byte_len (truncate_string_to_bytes_from_end s maxb) ≤ maxb.
Proof.
  induction s as [|c s (a & Ha & Hb)]; cbn [truncate_string_to_bytes_from_end].
  - exists []. destruct (byte_len [] <=? maxb); simpl; split; (done || lia).
  - destruct (N.leb_spec (byte_len (c :: s)) maxb) as [H|H]; [by exists []|].
    exists (c :: a). split; [by simpl; rewrite <-Ha|done].
Qed.

(** ** The tail *)

Lemma keep_blanks_spec n blanks maxb :
  n = length blanks →
  ∃ dropped, blanks = keep_blanks n blanks maxb ++ dropped ∧
    blanks_cost (keep_blanks n blanks maxb) ≤ maxb.
Proof.
  revert blanks. induction n as [|n IH]; intros blanks Hn; cbn [keep_blanks].
  - destruct blanks; [|done]. exists []. simpl. split; [done|lia].
  - rewrite (take_ge blanks) by lia.
    destruct (N.ltb_spec maxb (blanks_cost blanks + 1)) as [H|H];
      [|exists []; rewrite app_nil_r; split; [done|lia]].
    assert (Hk : ∀ l, keep_blanks n l maxb = keep_blanks n (take n l) maxb).
    { intros l. destruct n; cbn [keep_blanks]; by rewrite take_take, Nat.min_id. }
    rewrite Hk. destruct (IH (take n blanks)) as (d & Hd & Hc); [rewrite length_take; lia|].
    exists (d ++ drop n blanks). split; [|done]. by rewrite app_assoc, <-Hd, take_drop.
Qed.

Lemma byte_len_join_blanks p blanks :
  byte_len (join [10] (p :: blanks)) = byte_len p + blanks_cost blanks.
Proof.
  revert p. induction blanks as [|b blanks IH]; intros p; [simpl; lia|].
  rewrite byte_len_join_cons, IH by done. cbn [blanks_cost foldr]. fold (blanks_cost blanks). lia.
Qed.

(** What the loop comes to, for the lines [lines]. *)
Inductive tail_result (lines : list str) (maxl maxb : N) : tail_state → Prop :=
| tail_whole pre k by_ :
    lines = pre ++ k → len k ≤ maxl → byte_len (join [10] k) ≤ maxb →
    match by_ with
    | Lines => pre = [] ∨ len k = maxl
    | Bytes => len k < maxl ∧ ∃ pre' l, pre = pre' ++ [l] ∧ maxb < byte_len (join [10] (l :: k))
    end →
    tail_result lines maxl maxb (mkTail k (byte_len (join [10] k)) by_ None)
| tail_partial pre a p kept dropped :
    lines = pre ++ (a ++ p) :: kept ++ dropped →
    forallb is_blank_line (kept ++ dropped) = true →
    len (p :: kept) ≤ maxl → byte_len (join [10] (p :: kept)) ≤ maxb →
    maxb < byte_len (join [10] ((a ++ p) :: kept ++ dropped)) →
    tail_result lines maxl maxb (mkTail kept (byte_len (join [10] (p :: kept))) Bytes (Some p)).

Lemma byte_len_join_first l arr :
  byte_len (join [10] (l :: arr)) = byte_len (join [10] arr) + (byte_len l + separator (is_empty arr)).
Proof.
  destruct arr as [|x arr]; [simpl; lia|]. rewrite (byte_len_join_cons l (x :: arr)) by done.
  cbn [is_empty separator]. lia.
Qed.

Lemma tail_loop_spec maxl maxb rest arr :
  len arr ≤ maxl → byte_len (join [10] arr) ≤ maxb →
  tail_result (rev rest ++ arr) maxl maxb (tail_loop maxl maxb rest arr (byte_len (join [10] arr))).
Proof.
  revert arr. induction rest as [|l rest IH]; intros arr Hl Hb; cbn [tail_loop].
  { apply (tail_whole _ _ _ []); [done..|by left]. }
  destruct (N.leb_spec maxl (len arr)) as [Hm|Hm].
  { apply (tail_whole _ _ _ (rev (l :: rest))); [done..|right; lia]. }
  rewrite <-byte_len_join_first. cbn [rev]. rewrite <-app_assoc. cbn [app].
  destruct (N.ltb_spec maxb (byte_len (join [10] (l :: arr)))) as [Hx|Hx].
  2: { apply (IH (l :: arr)); [rewrite len_cons; lia|done]. }
  destruct (forallb is_blank_line arr) eqn:Ebl.
  - destruct (keep_blanks_spec (length arr) arr maxb eq_refl) as (dropped & Harr & Hcost).
    set (kept := keep_blanks (length arr) arr maxb) in *.
    destruct (cut_spec l (maxb - blanks_cost kept)) as (a & Ha & Hcut).
    set (p := truncate_string_to_bytes_from_end l (maxb - blanks_cost kept)) in *.
    rewrite <-byte_len_join_blanks.
    apply (tail_partial _ _ _ (rev rest) a p kept dropped);
      rewrite <-?Ha, <-?Harr; [done..| | |done].
    + rewrite len_cons. rewrite Harr, len_app in Hm. lia.
    + rewrite byte_len_join_blanks. lia.
  - apply (tail_whole _ _ _ (rev rest ++ [l])); [by rewrite <-app_assoc|done..|].
    split; [done|]. by exists (rev rest), l.
Qed.

(** A suffix of the lines is a suffix of the text. *)
Lemma join_suffix pre k : ∃ a, join [10] (pre ++ k) = a ++ join [10] k.
Proof.
  destruct pre as [|x pre]; [by exists []|]. destruct k as [|y k].
  - exists (join [10] (x :: pre)). by rewrite !app_nil_r.
  - exists (join [10] (x :: pre) ++ [10]). rewrite join_app by done. by rewrite <-app_assoc.
Qed.

Lemma join_cut_first a p k : join [10] ((a ++ p) :: k) = a ++ join [10] (p :: k).
Proof. destruct k; [done|]. simpl. by rewrite <-app_assoc. Qed.

Definition is_line_end (c : N) : bool := (c =? 10) || (c =? 13).

Lemma blank_line_chars l : is_blank_line l = true → forallb is_line_end l = true.
Proof. unfold is_blank_line. intros [H|H]%orb_true_iff; [by destruct l|]. by apply str_eqb_eq in H as ->. Qed.

(** Blank lines after a text are line ends only. *)
Lemma join_blanks p kept dropped :
  forallb is_blank_line dropped = true →
  ∃ z, join [10] (p :: kept ++ dropped) = join [10] (p :: kept) ++ z ∧ forallb is_line_end z = true.
Proof.
  intros H. destruct dropped as [|d dropped]; [exists []; by rewrite !app_nil_r|].
  exists (10 :: join [10] (d :: dropped)). split; [by apply (join_app (p :: kept))|].
  cbn [forallb]. change (is_line_end 10) with true. cbn [andb]. revert d H.
  induction dropped as [|e dropped IH]; intros d; cbn [forallb]; intros [Hd H]%andb_true_iff.
  - by apply blank_line_chars.
  - change (join [10] (d :: e :: dropped)) with (d ++ 10 :: join [10] (e :: dropped)).
    rewrite forallb_app, (blank_line_chars d Hd). cbn [forallb andb]. by apply IH.
Qed.

(** [truncate_tail] returns an unbroken piece of the end of the output within both
    limits: nothing follows the piece in the text but blank lines, and nothing at all
    unless a line had to be cut.  Without a cut it is the longest stretch of whole lines
    that fits; a line is cut only when only blank lines follow it and it does not fit
    together with them.  The counts it reports are those of what it returns. *)
Theorem truncate_tail_fits text options :
  let maxl := limit_lines options in
  let maxb := limit_bytes options in
  let r := truncate_tail text options in
  byte_len (content r) ≤ maxb ∧ output_bytes r = byte_len (content r) ∧ output_lines r ≤ maxl ∧
  (∃ a z, text = a ++ content r ++ z ∧ forallb is_line_end z = true ∧ (last_line_partial r = false → z = [])) ∧
  (truncated r = false → content r = text) ∧
  (truncated r = true → last_line_partial r = false →
     ∃ pre l k, split_on 10 text = pre ++ l :: k ∧ content r = join [10] k ∧
       match truncated_by r with
       | Some Lines => len k = maxl
       | Some Bytes => maxb < byte_len (join [10] (l :: k))
       | None => False
       end) ∧
  (last_line_partial r = true →
     ∃ pre l blanks, split_on 10 text = pre ++ l :: blanks ∧ forallb is_blank_line blanks = true ∧
       maxb < byte_len (join [10] (l :: blanks))).
Proof.
  intros maxl maxb r. subst r. unfold truncate_tail. fold maxl maxb.
  pose proof (split_join text) as Hj.
  destruct ((len (split_on 10 text) <=? maxl) && (byte_len text <=? maxb)) eqn:Efit.
  { apply andb_true_iff in Efit as [E1%N.leb_le E2%N.leb_le]. simpl. split; [done|]. split; [done|]. split; [done|].
    split; [exists [], []; by rewrite app_nil_r|done]. }
  pose proof (tail_loop_spec maxl maxb (rev (split_on 10 text)) [] ltac:(unfold len; simpl; lia) ltac:(simpl; lia)) as Ht.
  rewrite rev_involutive, app_nil_r in Ht. change (byte_len (join [10] [])) with 0 in Ht.
  inversion Ht as [pre k by_ Hsp Hk1 Hk2 Hby Heq|pre a p kept dropped Hsp Hbl Hk1 Hk2 Hx Heq]; simpl.
  - split; [done|]. split; [done|]. split; [done|]. split; [|split; [done|split; [|done]]].
    { destruct (join_suffix pre k) as [a Ha]. exists a, []. rewrite app_nil_r. split; [|done].
      by rewrite <-Ha, <-Hsp. }
    intros _ _. destruct pre as [|x pre _] using rev_ind.
    { exfalso. simpl in Hsp. subst k. rewrite Hj in Hk2.
      apply andb_false_iff in Efit as [E%N.leb_gt|E%N.leb_gt]; lia. }
    exists pre, x, k. rewrite <-app_assoc in Hsp. split; [done|]. split; [done|].
    rewrite (proj2 (N.leb_le _ _) Hk2), andb_true_r.
    destruct (N.leb_spec maxl (len k)); [lia|]. destruct by_; [|].
    + destruct Hby as [Hpre|]; [by destruct pre|lia].
    + destruct Hby as (_ & pre' & l & Hpre & Hlt). by apply app_inj_tail in Hpre as [_ ->].
  - split; [done|]. split; [done|]. split; [done|].
    split; [|do 2 (split; [done|]); intros _; by exists pre, (a ++ p), (kept ++ dropped)].
    rewrite forallb_app in Hbl. apply andb_true_iff in Hbl as [_ Hbl].
    destruct (join_blanks (a ++ p) kept dropped Hbl) as (z & Hz & Hzb).
    destruct (join_suffix pre ((a ++ p) :: kept ++ dropped)) as [b Hb].
    exists (b ++ a), z. split; [|by split]. rewrite <-Hj, Hsp, Hb, Hz, join_cut_first. by rewrite <-!app_assoc.
Qed.

(** A line longer than its limit keeps its first characters and says that it was cut. *)
Lemma truncate_line_spec line max_chars :
  (was_truncated (truncate_line line max_chars) = false ↔ len line ≤ max_chars) ∧
  ∃ rest, line = take (N.to_nat max_chars) line ++ rest ∧
    line_text (truncate_line line max_chars) =
      if was_truncated (truncate_line line max_chars)
      then take (N.to_nat max_chars) line ++ lit "... [truncated]" else line.
Proof.
  unfold truncate_line. split.
  - destruct (N.leb_spec (len line) max_chars); simpl; split; (done || lia).
  - exists (drop (N.to_nat max_chars) line). rewrite take_drop. split; [done|].
    by destruct (len line <=? max_chars).
Qed.
