(* ===== verification/Watchdog.v ===== *)
(** * Stream stall watchdog: limits

    [pi-agent-core/src/stream_watchdog.rs]: the parsing of the two environment
    knobs, the bounds a silent armed turn needs, and the raising of the knobs to
    those bounds.  Times are [u64] milliseconds as [N]; an addition that leaves
    the type wraps, as it does in a release build (a debug build panics there).
    The environment is the value of the variable concerned, [None] when unset. *)
From stdpp Require Import base list numbers strings.
From S2P Require Import Prelude RustStr.

Local Open Scope N_scope.

(** ** [u64] arithmetic *)

Definition wrapping_add (a b : N) : N := (a + b) mod (u64_max + 1).
Definition saturating_mul (a b : N) : N := N.min (a * b) u64_max.
Definition clamp (x lo hi : N) : N := if x <? lo then lo else if hi <? x then hi else x.

(** ** Constants *)

Definition DEFAULT_STREAM_EVENT_GAP_MS : N := 120000.
Definition MIN_STREAM_EVENT_GAP_MS : N := 5000.
Definition MAX_STREAM_EVENT_GAP_MS : N := 600000.
Definition DEFAULT_STREAM_DEADLINE_MS : N := 900000.
Definition MIN_STREAM_DEADLINE_MS : N := 60000.
Definition MAX_STREAM_DEADLINE_MS : N := 7200000.
Definition ARMED_TURN_EVENT_GRACE_MS : N := 30000.

(** ** Limits *)

Inductive StreamStallLimit : Type := EventGap | StreamDeadline.

Definition label (l : StreamStallLimit) : str :=
  match l with
  | EventGap => lit "event_gap"
  | StreamDeadline => lit "stream_deadline"
  end.

(** [StreamStallLimit::error_message]. *)
Definition stall_error_message (l : StreamStallLimit) (elapsed configured : N) : str :=
  match l with
  | EventGap =>
      lit "Provider stream stalled: no events for " ++ dec elapsed
        ++ lit "ms (event gap limit " ++ dec configured ++ lit "ms)"
  | StreamDeadline =>
      lit "Provider stream exceeded the " ++ dec configured
        ++ lit "ms overall deadline after " ++ dec elapsed ++ lit "ms"
  end.

Record StreamWatchdogConfig : Type := mkWatchdog {
  event_gap : option N;
  stream_deadline : option N }.

Definition parse_watchdog_ms (raw : option str) (default_ms min_ms max_ms : N) : option N :=
  match raw with
  | None => Some default_ms
  | Some raw =>
      match parse_u64 (trim raw) with
      | None => Some default_ms
      | Some parsed => if parsed =? 0 then None else Some (clamp parsed min_ms max_ms)
      end
  end.

Definition from_env_values (gap deadline : option str) : StreamWatchdogConfig :=
  mkWatchdog
    (parse_watchdog_ms gap DEFAULT_STREAM_EVENT_GAP_MS MIN_STREAM_EVENT_GAP_MS MAX_STREAM_EVENT_GAP_MS)
    (parse_watchdog_ms deadline DEFAULT_STREAM_DEADLINE_MS MIN_STREAM_DEADLINE_MS MAX_STREAM_DEADLINE_MS).

(** [StreamStallLimit::configured]: [None] is the panic of its [expect]. *)
Definition configured (l : StreamStallLimit) (w : StreamWatchdogConfig) : option N :=
  match l with EventGap => event_gap w | StreamDeadline => stream_deadline w end.

Definition armed_stream_bounds (deadline_seconds : N) : N * N :=
  let turn_ms := saturating_mul deadline_seconds 1000 in
  let event_gap := clamp (wrapping_add turn_ms ARMED_TURN_EVENT_GRACE_MS)
                     MIN_STREAM_EVENT_GAP_MS MAX_STREAM_EVENT_GAP_MS in
  let stream_deadline := clamp (wrapping_add (saturating_mul turn_ms 2) ARMED_TURN_EVENT_GRACE_MS)
                           MIN_STREAM_DEADLINE_MS MAX_STREAM_DEADLINE_MS in
  (event_gap, stream_deadline).

(** The closure [raise] on one variable: the value returned, and the variable
    afterwards. *)
Definition raise (var : option str) (required : N) : N * option str :=
  match var ≫= λ raw, parse_u64 (trim raw) with
  | Some 0 => (0, var)
  | Some value => if required <=? value then (value, var) else (required, Some (dec required))
  | None => (required, Some (dec required))
  end.

(** [raise_env_for_armed_turn] on the two variables. *)
Definition raise_env_for_armed_turn (gap deadline : option str) (deadline_seconds : N)
    : (N * N) * (option str * option str) :=
  let '(required_gap, required_deadline) := armed_stream_bounds deadline_seconds in
  let '(g, gap') := raise gap required_gap in
  let '(d, deadline') := raise deadline required_deadline in
  ((g, d), (gap', deadline')).

(** [PRIME_AGENT_RETRY_TRUNCATED_RESPONSE]. *)
Definition retry_truncated_responses_from_env_value (raw : option str) : bool :=
  match raw with
  | None => false
  | Some raw =>
      existsb (str_eqb (to_ascii_lowercase (trim raw)))
        [lit "1"; lit "true"; lit "yes"; lit "on"]
  end.

(** ** Facts *)

Lemma clamp_between x lo hi : lo ≤ hi → lo ≤ clamp x lo hi ∧ clamp x lo hi ≤ hi.
Proof. intros. unfold clamp. destruct (N.ltb_spec x lo), (N.ltb_spec hi x); lia. Qed.

Lemma clamp_ge x lo hi r : lo ≤ r → r ≤ hi → r ≤ x → r ≤ clamp x lo hi.
Proof. intros. unfold clamp. destruct (N.ltb_spec x lo), (N.ltb_spec hi x); lia. Qed.

Lemma clamp_id x lo hi : lo ≤ x → x ≤ hi → clamp x lo hi = x.
Proof. intros. unfold clamp. destruct (N.ltb_spec x lo), (N.ltb_spec hi x); lia. Qed.

Lemma parse_u64_trim_dec n : n ≤ u64_max → parse_u64 (trim (dec n)) = Some n.
Proof.
  intros Hn. rewrite trim_no_ws; [by apply parse_uint_dec|].
  eapply Forall_impl; [apply dec_digits|]. intros c.
  unfold is_ascii_digit, is_whitespace. rewrite andb_true_iff, !N.leb_le. intros [??].
  repeat (apply orb_false_iff; split);
    rewrite ?andb_false_iff, ?N.leb_gt, ?N.eqb_neq; lia.
Qed.

(** What an operator's setting says: a number, or nothing usable. *)
Definition setting (var : option str) : option N := var ≫= λ raw, parse_u64 (trim raw).

(** A knob after [raise], read back by [parse_watchdog_ms]: disabled exactly when
    the operator disabled it, else at least the required bound, and at least what
    an operator's own number would have given. *)
Lemma raise_parse var required dflt lo hi :
  lo ≤ required → required ≤ hi → hi ≤ u64_max → 0 < lo →
  match parse_watchdog_ms (raise var required).2 dflt lo hi with
  | None => setting var = Some 0
  | Some ms => setting var ≠ Some 0 ∧ required ≤ ms ∧ ms ≤ hi
               ∧ ∀ v, setting var = Some v → clamp v lo hi ≤ ms
  end.
Proof.
  intros Hlo Hhi Hmax Hpos. unfold setting.
  assert (Hset : parse_watchdog_ms (Some (dec required)) dflt lo hi = Some required).
  { simpl. rewrite parse_u64_trim_dec by lia.
    destruct (N.eqb_spec required 0); [lia|]. by rewrite clamp_id. }
  unfold raise. destruct (var ≫= _) as [v|] eqn:Hv.
  2:{ cbn [snd]. rewrite Hset. repeat split; [done|lia|lia|done]. }
  destruct v as [|v]; [destruct var as [raw|]; [|done]; simpl in *; by rewrite Hv|].
  destruct (N.leb_spec required (N.pos v)) as [Hle|Hlt]; cbn [snd].
  - destruct var as [raw|]; [|done]. simpl in *. rewrite Hv. simpl.
    pose proof (clamp_between (N.pos v) lo hi ltac:(lia)).
    repeat split; [done|by apply clamp_ge|lia|]. intros w [= <-]. lia.
  - rewrite Hset. repeat split; [done|lia|lia|]. intros w [= <-].
    unfold clamp. destruct (N.ltb_spec (N.pos v) lo), (N.ltb_spec hi (N.pos v)); lia.
Qed.

(** The two bounds, when the arithmetic stays in [u64]. *)
Lemma armed_stream_bounds_exact d :
  2000 * d + 30000 ≤ u64_max →
  armed_stream_bounds d =
    (N.min (1000 * d + 30000) MAX_STREAM_EVENT_GAP_MS,
     N.max MIN_STREAM_DEADLINE_MS (N.min (2000 * d + 30000) MAX_STREAM_DEADLINE_MS)).
Proof.
  intros Hd. unfold armed_stream_bounds, saturating_mul, wrapping_add, clamp,
    ARMED_TURN_EVENT_GRACE_MS, MIN_STREAM_EVENT_GAP_MS, MAX_STREAM_EVENT_GAP_MS,
    MIN_STREAM_DEADLINE_MS, MAX_STREAM_DEADLINE_MS, u64_max in *.
  rewrite (N.min_l (d * 1000)) by lia. rewrite (N.min_l (d * 1000 * 2)) by lia.
  rewrite !N.mod_small by lia.
  f_equal; repeat case_match; rewrite ?N.ltb_lt, ?N.ltb_ge in *; lia.
Qed.

(** ** Theorems *)

(** After the knobs are raised for an armed turn of [d] seconds (no overflow),
    whatever they held before, the watchdog the next request reads from them is
    disabled exactly where the operator wrote [0]; otherwise the event gap covers
    the whole turn plus the grace and the deadline covers two turns plus the
    grace, each up to the module's maximum, and a limit an operator's number set
    is never lowered. *)
Theorem watchdog_covers_armed_turn (gap deadline : option str) (d : N) :
  2000 * d + 30000 ≤ u64_max →
  let '(gap', deadline') := (raise_env_for_armed_turn gap deadline d).2 in
  let w := from_env_values gap' deadline' in
  match event_gap w with
  | None => setting gap = Some 0
  | Some ms => setting gap ≠ Some 0
      ∧ N.min (1000 * d + 30000) MAX_STREAM_EVENT_GAP_MS ≤ ms ∧ ms ≤ MAX_STREAM_EVENT_GAP_MS
      ∧ ∀ v, setting gap = Some v → clamp v MIN_STREAM_EVENT_GAP_MS MAX_STREAM_EVENT_GAP_MS ≤ ms
  end ∧
  match stream_deadline w with
  | None => setting deadline = Some 0
  | Some ms => setting deadline ≠ Some 0
      ∧ N.min (2000 * d + 30000) MAX_STREAM_DEADLINE_MS ≤ ms ∧ ms ≤ MAX_STREAM_DEADLINE_MS
      ∧ ∀ v, setting deadline = Some v →
          clamp v MIN_STREAM_DEADLINE_MS MAX_STREAM_DEADLINE_MS ≤ ms
  end.
Proof.
  intros Hd. unfold raise_env_for_armed_turn. rewrite armed_stream_bounds_exact by done.
  destruct (raise gap _) as [g gap'] eqn:Hg. destruct (raise deadline _) as [x deadline'] eqn:Hx.
  unfold from_env_values. cbn [snd event_gap stream_deadline]. split.
  - pose proof (raise_parse gap (N.min (1000 * d + 30000) MAX_STREAM_EVENT_GAP_MS)
      DEFAULT_STREAM_EVENT_GAP_MS MIN_STREAM_EVENT_GAP_MS MAX_STREAM_EVENT_GAP_MS) as H.
    rewrite Hg in H. apply H; unfold MIN_STREAM_EVENT_GAP_MS, MAX_STREAM_EVENT_GAP_MS, u64_max; lia.
  - pose proof (raise_parse deadline
      (N.max MIN_STREAM_DEADLINE_MS (N.min (2000 * d + 30000) MAX_STREAM_DEADLINE_MS))
      DEFAULT_STREAM_DEADLINE_MS MIN_STREAM_DEADLINE_MS MAX_STREAM_DEADLINE_MS) as H.
    rewrite Hx in H. cbn [snd] in H.
    destruct (parse_watchdog_ms deadline' _ _ _) as [ms|].
    + destruct H as (H1 & H2 & H3 & H4);
        unfold MIN_STREAM_DEADLINE_MS, MAX_STREAM_DEADLINE_MS, u64_max in *; try lia.
      repeat split; [done|lia|lia|done].
    + apply H; unfold MIN_STREAM_DEADLINE_MS, MAX_STREAM_DEADLINE_MS, u64_max; lia.
Qed.

Lemma watchdog_covers_armed_turn_witness :
  let w := from_env_values (Some (lit "90000")) (Some (lit "900000")) in
  (raise_env_for_armed_turn (Some (lit "10000")) (Some (lit "900000")) 60).2
    = (Some (lit "90000"), Some (lit "900000")) ∧
  event_gap w = Some 90000 ∧ N.min (1000 * 60 + 30000) MAX_STREAM_EVENT_GAP_MS ≤ 90000.
Proof.
  pose proof (watchdog_covers_armed_turn (Some (lit "10000")) (Some (lit "900000")) 60
    ltac:(vm_compute; done)) as H.
  assert (E : (raise_env_for_armed_turn (Some (lit "10000")) (Some (lit "900000")) 60).2
    = (Some (lit "90000"), Some (lit "900000"))) by (vm_compute; reflexivity).
  rewrite E in H. cbv zeta beta iota in H.
  assert (G : event_gap (from_env_values (Some (lit "90000")) (Some (lit "900000"))) = Some 90000)
    by (vm_compute; reflexivity).
  rewrite G in H. destruct H as [[_ [Hle _]] _].
  split; [exact E|]. split; [exact G|]. exact Hle.
Defined.

(** A knob nobody set stands for its default, yet the raise replaces it with
    the bound of the turn even when that is smaller: for a turn of 60 seconds the
    event gap of every later request falls from 120 to 90 seconds and the
    deadline from 900 to 150. *)
Theorem raise_lowers_default :
  from_env_values None None = mkWatchdog (Some 120000) (Some 900000) ∧
  let '(gap', deadline') := (raise_env_for_armed_turn None None 60).2 in
  from_env_values gap' deadline' = mkWatchdog (Some 90000) (Some 150000).
Proof. split; vm_compute; reflexivity. Qed.

(** The bounds grow with the turn up to the maxima, but the addition of the
    grace is not saturating: from 18446744073709522 seconds on the event gap
    falls to the 29999 milliseconds (or less) that the wrapped sum leaves. *)
Theorem armed_bounds_wrap :
  armed_stream_bounds 18446744073709521 = (600000, 60000) ∧
  armed_stream_bounds 18446744073709522 = (5000, 60000) ∧
  armed_stream_bounds u64_max = (29999, 60000).
Proof. split; [|split]; vm_compute; reflexivity. Qed.
