(* ===== verification/AgentTypes.v ===== *)
(** * The agent loop: data, host and effects

    The data of [pi-agent-core/src/types.rs] and of the message types of
    [pi-ai/src/types.rs] that the loop of [agent_loop.rs] reads or builds, the
    configuration of hooks the loop is given, and the effects it has.

    The loop is asynchronous code that awaits hooks, a provider stream, tools and
    an event sink, any of which may take arbitrarily long and may be overtaken by
    the cancellation token of the run.  Everything outside the loop is a _world_
    [W]; a hook is a function of the world.  The loop itself is a program of the
    monad [M]: it passes the state [St] (the world, the token, the context and
    the lists it builds, and a trace of what it did), and it returns, throws an
    [anyhow::Error] (its display text) or runs out of the fuel of a loop.

    The run's [signal] is always present, as [Agent::run_with_lifecycle] passes
    it; the absent signal of the [Option] is the token that nobody cancels. *)
From stdpp Require Import base list numbers strings.
From S2P Require Import Prelude RustStr Watchdog.

Local Open Scope N_scope.

(** ** Values the loop only carries *)

(** [serde_json] values, images, token usage, the payloads of custom content
    and of compaction checkpoints, and the redacted diagnostics attached to failures. *)
Class Externals : Type := {
  Value : Type;
  Map : Type;
  Object : Map → Value;
  as_object : Value → option Map;
  map_new : Map;
  map_singleton : str → Value → Map;
  value_eqb : Value → Value → bool;
  Image : Type;
  Usage : Type;
  usage_zero : Usage;
  CheckpointBody : Type;
  CustomBody : Type;
  Diagnostic : Type;
  stall_diagnostic : str → StreamStallLimit → N → N → N → option N → Diagnostic;
  truncated_diagnostic : str → Usage → N → Diagnostic;
  capture_diagnostic : str → Diagnostic;
  lifecycle_diagnostic : str → Diagnostic }.

(** ** Constants *)

Definition ABORT_ERROR_MESSAGE : str := lit "Request was aborted".
Definition TOOL_EXECUTION_ABORTED_MESSAGE : str := lit "Tool execution aborted".
Definition STOP_REASON_STOP : str := lit "stop".
Definition STOP_REASON_LENGTH : str := lit "length".
Definition STOP_REASON_ERROR : str := lit "error".
Definition STOP_REASON_ABORTED : str := lit "aborted".
Definition API_OPENAI_COMPLETIONS : str := lit "openai-completions".

(** ** Messages and events *)

Section types.
Context {X : Externals}.

Record TextContent : Type := mkText { text : str; text_signature : option str }.

(** [TextContent::new]. *)
Definition text_new (s : str) : TextContent := mkText s None.

Record ToolCall : Type := mkCall {
  tc_id : str;
  tc_name : str;
  arguments : Map;
  thought_signature : option str }.

Record ThinkingContent : Type := mkThinking {
  thinking : str;
  thinking_signature : option str;
  redacted : option bool }.

(** [pi_ai::types::ContentBlock]. *)
Inductive ContentBlock : Type :=
| Text (t : TextContent)
| Thinking (t : ThinkingContent)
| ToolCallBlock (c : ToolCall).

(** [ContentBlock::as_tool_call]. *)
Definition as_tool_call (b : ContentBlock) : option ToolCall :=
  match b with ToolCallBlock c => Some c | _ => None end.

Record AssistantMessage : Type := mkAssistant {
  content : list ContentBlock;
  api : str;
  provider : str;
  am_model : str;
  response_model : option str;
  response_id : option str;
  diagnostics : option (list Diagnostic);
  usage : Usage;
  stop_reason : str;
  stop_reason_raw : option str;
  error_message : option str;
  am_timestamp : Z }.

(** [AssistantMessage::new]: the defaults for everything but its arguments. *)
Definition assistant_new (a p m : str) (timestamp : Z) : AssistantMessage :=
  mkAssistant [] a p m None None None usage_zero STOP_REASON_STOP None None timestamp.

(** The two block kinds of a tool result, [crate::types::ContentBlock] and
    [ImageOrTextContent]. *)
Inductive ResultBlock : Type :=
| RText (t : TextContent)
| RImage (i : Image).

Record ToolResultMessage : Type := mkToolResult {
  tool_call_id : str;
  tool_name : str;
  tr_content : list ResultBlock;
  tr_details : option Value;
  tr_is_error : bool;
  tr_timestamp : Z }.

(** [ProviderCompactionCheckpoint]; its version, items and token estimate are only
    carried. *)
Record ProviderCompactionCheckpoint : Type := mkCheckpoint {
  cp_provider : str;
  cp_api : str;
  cp_model : str;
  cp_base_url : str;
  cp_endpoint : option str;
  cp_body : CheckpointBody }.

Inductive UserContent : Type :=
| UText (s : str)
| UBlocks (blocks : list ResultBlock).

Record UserMessage : Type := mkUser {
  u_content : UserContent;
  provider_context : option ProviderCompactionCheckpoint;
  u_timestamp : Z }.

Inductive Message : Type :=
| User (u : UserMessage)
| Assistant (a : AssistantMessage)
| ToolResult (r : ToolResultMessage).

Inductive CustomAgentMessage : Type :=
| BashExecution (b : CustomBody)
| Custom (b : CustomBody)
| BranchSummary (b : CustomBody)
| CompactionSummary (b : CustomBody).

Inductive AgentMessage : Type :=
| LlmMessage (m : Message)
| CustomMessage (c : CustomAgentMessage).

(** [AgentMessage::role]. *)
Definition role (m : AgentMessage) : str :=
  match m with
  | LlmMessage (User _) => lit "user"
  | LlmMessage (Assistant _) => lit "assistant"
  | LlmMessage (ToolResult _) => lit "toolResult"
  | CustomMessage (BashExecution _) => lit "bashExecution"
  | CustomMessage (Custom _) => lit "custom"
  | CustomMessage (BranchSummary _) => lit "branchSummary"
  | CustomMessage (CompactionSummary _) => lit "compactionSummary"
  end.

(** [AgentMessage::from]. *)
Definition of_assistant (a : AssistantMessage) : AgentMessage := LlmMessage (Assistant a).
Definition of_result (r : ToolResultMessage) : AgentMessage := LlmMessage (ToolResult r).

(** What a tool returns, partial or final. *)
Record AgentToolResult : Type := mkResult {
  r_content : list ResultBlock;
  r_details : Value;
  r_is_error : option bool;
  r_terminate : option bool }.

Inductive AssistantMessageEvent : Type :=
| Start (partial : AssistantMessage)
| TextStart (content_index : N) (partial : AssistantMessage)
| TextDelta (content_index : N) (delta : str) (partial : AssistantMessage)
| TextEnd (content_index : N) (content : str) (partial : AssistantMessage)
| ThinkingStart (content_index : N) (partial : AssistantMessage)
| ThinkingDelta (content_index : N) (delta : str) (partial : AssistantMessage)
| ThinkingEnd (content_index : N) (content : str) (partial : AssistantMessage)
| ToolCallStart (content_index : N) (partial : AssistantMessage)
| ToolCallDelta (content_index : N) (delta : str) (partial : AssistantMessage)
| ToolCallEnd (content_index : N) (tool_call : ToolCall) (partial : AssistantMessage)
| Done (reason : str) (message : AssistantMessage)
| ErrorEvent (reason : str) (error : AssistantMessage)
| Keepalive (partial : AssistantMessage).

Inductive AgentEvent : Type :=
| AgentStart
| AgentEnd (messages : list AgentMessage)
| TurnStart
| TurnEnd (message : AgentMessage) (tool_results : list ToolResultMessage)
| MessageStart (message : AgentMessage)
| MessageUpdate (message : AgentMessage) (event : AssistantMessageEvent)
| MessageEnd (message : AgentMessage)
| ToolExecutionStart (tool_call_id tool_name : str) (args : Value)
| ToolExecutionUpdate (tool_call_id tool_name : str) (args : Value) (partial_result : AgentToolResult)
| ToolExecutionEnd (tool_call_id tool_name : str) (result : AgentToolResult) (is_error : bool).

(** ** Tools and hooks *)

Inductive ToolExecutionMode : Type := Sequential | Parallel.

(** The [execute] function of a tool is an operation of the host below. *)
Record AgentTool : Type := mkTool {
  t_name : str;
  t_description : str;
  t_parameters : Value;
  prepare_arguments : option (Value → Value);
  execution_mode : option ToolExecutionMode }.

Record AgentContext : Type := mkContext {
  system_prompt : str;
  cx_messages : list AgentMessage;
  cx_tools : option (list AgentTool) }.

Record BeforeToolCallResult : Type := mkBefore { block : option bool; reason : option str }.

Record AfterToolCallResult : Type := mkAfter {
  a_content : option (list ResultBlock);
  a_details : option Value;
  a_is_error : option bool;
  a_terminate : option bool }.

Record ShouldStopAfterTurnContext : Type := mkTurn {
  turn_message : AssistantMessage;
  turn_results : list ToolResultMessage;
  turn_context : AgentContext;
  turn_new_messages : list AgentMessage }.

(** The request handed to the provider, and to the native state hooks with the
    unconverted messages and the newly supplied ones. *)
Record LlmContext : Type := mkLlm {
  llm_system_prompt : option str;
  llm_messages : list Message;
  llm_tools : option (list AgentTool) }.

Record InferenceStateRequest : Type := mkStateRequest {
  sr_context : LlmContext;
  sr_messages : list AgentMessage;
  newly_supplied_messages : list AgentMessage }.

Inductive InferenceStateLeaseState : Type :=
| LPrepared | LSubmitted | LConsumed | LUncertain | LCancelled.

Inductive SourceCaptureState : Type :=
| CPrepared | CSubmitted | CCaptured | CCancelled | CUncertain | CRetired.

(** The pump's next-event outcome, as [stream_watchdog::WatchdogNext]. *)
Inductive WatchdogNext : Type :=
| WEvent (e : option AssistantMessageEvent)
| WCancelled
| WStall (limit : StreamStallLimit).

(** What a running tool does next, seen from the loop: it publishes a partial
    result through its callback, or its task ends; or the task that drains the
    published results emits the oldest one; or nobody moves and only the token
    may have changed. *)
Inductive ToolStep : Type :=
| Publishes (partial : AgentToolResult)
| Finishes (r : result AgentToolResult str)
| DrainEmits
| Idles.
End types.

(** ** The host *)

Section host.
Context {X : Externals} (W : Type).

(** An awaited operation that is raced with the token: [None] when the token was
    cancelled before the operation completed. *)
Definition Op (A : Type) : Type := W → option A * W.

Record SourceCaptureHooks (SLease : Type) : Type := mkCapture {
  sc_resolve : InferenceStateRequest → Op (result (option SLease) str);
  sc_completed : SLease → AssistantMessage → Op (result unit str) }.

(** [AgentLoopConfig], less the metrics recorder. *)
Record AgentLoopConfig (ILease SLease : Type) : Type := mkConfig {
  model_api : str;
  model_provider : str;
  model_id : str;
  option_api_key : option str;
  option_inference_state : option ILease;
  option_source_capture : option SLease;
  execution_scope : bool;
  provider_attempt_number : N;
  resolve_inference_state : option (InferenceStateRequest → Op (result (option ILease) str));
  source_capture : option (SourceCaptureHooks SLease);
  convert_to_llm : option (list AgentMessage → Op (list Message));
  transform_context : option (list AgentMessage → Op (list AgentMessage));
  get_system_prompt : option (W → str * W);
  before_request : option (N → Op (result unit str));
  get_api_key : option (str → Op (option str));
  should_stop_after_turn : option (ShouldStopAfterTurnContext → Op bool);
  should_stop_before_turn : option (W → bool * W);
  get_steering_messages : option (Op (list AgentMessage));
  get_follow_up_messages : option (Op (list AgentMessage));
  get_continuation_messages : option (ShouldStopAfterTurnContext → Op (list AgentMessage));
  tool_execution : option ToolExecutionMode;
  before_tool_call :
    option (AssistantMessage → ToolCall → Value → AgentContext → Op (result (option BeforeToolCallResult) str));
  after_tool_call :
    option (AssistantMessage → ToolCall → Value → AgentToolResult → bool → AgentContext →
            Op (result (option AfterToolCallResult) str)) }.

(** What the loop calls that is not a hook of its configuration. *)
Class Host : Type := {
  ILease : Type;
  SLease : Type;
  ilease_state : W → ILease → InferenceStateLeaseState;
  slease_state : W → SLease → SourceCaptureState;
  (** [InferenceStateLease::cancel], [SourceCaptureLease::cancel]. *)
  cancel_ilease : ILease → W → W;
  cancel_slease : SLease → W → W;
  (** Has somebody cancelled the token since the loop last looked? *)
  poll_cancel : W → bool * W;
  (** Has somebody cancelled the child token handed to the provider? *)
  poll_provider_cancel : W → bool * W;
  (** The [AgentEventSink]. *)
  sink : AgentEvent → W → result unit str * W;
  now_ms : W → Z * W;
  (** [ExecutionScope::register_stream] and [::spawn]. *)
  register_stream : W → result unit str * W;
  spawn_stream : W → result unit str * W;
  spawn_tool : ToolCall → AgentTool → Value → W → result unit str * W;
  (** The stream function, awaited to its response stream, and that stream. *)
  stream_fn : LlmContext → option str → Op (result unit str);
  watchdog_config : W → StreamWatchdogConfig * W;
  deadline_passed : W → bool * W;
  next_event : W → WatchdogNext * W;
  stall_elapsed : StreamStallLimit → W → N * W;
  cancel_response : W → W;
  close_producer : W → W;
  stream_result : Op AssistantMessage;
  retry_truncated : W → bool * W;
  (** [validate_tool_arguments] of pi-ai, against the tool's schema. *)
  validate_tool_arguments : AgentTool → ToolCall → result Value str;
  (** The next move of a running tool, by its call. *)
  tool_step : ToolCall → W → ToolStep * W;
  (** Which of the unfinished, concurrently awaited tool futures is polled next. *)
  pick_future : W → nat * W }.
End host.
Arguments mkConfig {X W ILease SLease}.
Arguments mkCapture {X W SLease}.
