(* ===== verification/AgentMonad.v ===== *)
(** * The agent loop: effects

    The state the loop passes, the monad of its programs with the primitives of
    [agent_loop.rs] (lines 508-583: the token, the abort race, the post-turn
    settlement) and the weakest-precondition rules the proofs use. *)
From stdpp Require Import base list numbers strings.
From S2P Require Import Prelude RustStr Watchdog AgentTypes.

Local Open Scope N_scope.

(** How a program ends. *)
Inductive outcome (A : Type) : Type :=
| Returned (a : A)
| Thrown (e : str)
| OutOfFuel.
Arguments Returned {A} a.
Arguments Thrown {A} e.
Arguments OutOfFuel {A}.

(** What the loop did, in order. *)
Inductive action `{X : Externals} : Type :=
| Emitted (e : AgentEvent)
| Requested (r : LlmContext)
| Executed (c : ToolCall)
| Published (c : ToolCall) (partial : AgentToolResult)
| Supplied (fresh : list AgentMessage).

(** The token, the two message lists of a run ([current_context.messages] and
    [new_messages]), the pool of newly supplied messages, the flag [added_partial]
    of the request being streamed, and the trace: each action with the token as
    the loop last saw it. *)
Record St `{X : Externals} (W : Type) : Type := mkSt {
  world : W;
  cancelled : bool;
  context : list AgentMessage;
  new_messages : list AgentMessage;
  newly_supplied : list AgentMessage;
  added_partial : bool;
  trace : list (bool * action) }.
Arguments mkSt {X W}.
Arguments world {X W}.
Arguments cancelled {X W}.
Arguments context {X W}.
Arguments new_messages {X W}.
Arguments newly_supplied {X W}.
Arguments added_partial {X W}.
Arguments trace {X W}.

Section monad.
Context {X : Externals} {W : Type} {H : Host W}.

Definition M (A : Type) : Type := St W → outcome A * St W.

#[export] Instance M_ret : MRet M := λ A a st, (Returned a, st).
#[export] Instance M_bind : MBind M := λ A B k m st,
  match m st with
  | (Returned a, st') => k a st'
  | (Thrown e, st') => (Thrown e, st')
  | (OutOfFuel, st') => (OutOfFuel, st')
  end.

Definition throw {A} (e : str) : M A := λ st, (Thrown e, st).
Definition out_of_fuel {A} : M A := λ st, (OutOfFuel, st).

(** Looking at a [Result] instead of propagating it with [?]. *)
Definition try {A} (m : M A) : M (result A str) := λ st,
  match m st with
  | (Returned a, st') => (Returned (Ok a), st')
  | (Thrown e, st') => (Returned (Err e), st')
  | (OutOfFuel, st') => (OutOfFuel, st')
  end.

Definition lift {A} (r : result A str) : M A :=
  match r with Ok a => mret a | Err e => throw e end.

Definition set_world (w : W) (st : St W) : St W :=
  mkSt w (cancelled st) (context st) (new_messages st) (newly_supplied st) (added_partial st) (trace st).
Definition set_token (w : W) (c : bool) (st : St W) : St W :=
  mkSt w c (context st) (new_messages st) (newly_supplied st) (added_partial st) (trace st).

(** A host operation that is not raced with the token. *)
Definition host {A} (f : W → A * W) : M A := λ st,
  let '(a, w) := f (world st) in (Returned a, set_world w st).

Definition get {A} (f : St W → A) : M A := λ st, (Returned (f st), st).

(** ** The token and the abort race *)

(** [CancellationToken::is_cancelled]: once cancelled, always cancelled. *)
Definition is_cancelled : M bool := λ st,
  if cancelled st then (Returned true, st)
  else let '(b, w) := poll_cancel W (world st) in
       (Returned b, set_token w b st).

Definition throw_if_aborted : M unit :=
  c ← is_cancelled;
  if (c : bool) then throw ABORT_ERROR_MESSAGE else mret ().

Definition is_abort_error (e : str) : bool := str_eqb e ABORT_ERROR_MESSAGE.

(** [race_with_abort] and [maybe_abortable]: a cancelled token wins before the
    operation starts, and whenever it fires before the operation completes. *)
Definition race_with_abort {A} (op : Op W (result A str)) : M A :=
  c ← is_cancelled;
  if (c : bool) then throw ABORT_ERROR_MESSAGE
  else λ st,
    match op (world st) with
    | (Some r, w) => lift r (set_world w st)
    | (None, w) => (Thrown ABORT_ERROR_MESSAGE, set_token w true st)
    end.

(** The race on an operation that cannot fail, [async { Ok(op.await) }]. *)
Definition infallible {A} (op : Op W A) : Op W (result A str) := λ w,
  let '(o, w') := op w in (Ok <$> o, w').

Definition maybe_abortable {A} (op : Op W A) : M A := race_with_abort (infallible op).

(** [settle_post_turn]: [None] is [PostTurnResult::Aborted]. *)
Definition settle_post_turn {A} (operation : M A) : M (option A) :=
  r ← try operation;
  match r with
  | Ok value => mret (Some value)
  | Err error =>
      c ← is_cancelled;
      if c && is_abort_error error then mret None else throw error
  end.

Definition poll_messages_unless_aborted (poll : option (Op W (list AgentMessage)))
    : M (list AgentMessage) :=
  match poll with
  | None => mret []
  | Some poll =>
      c ← is_cancelled;
      if (c : bool) then mret [] else maybe_abortable poll
  end.

(** ** Events and lists *)

Definition log (a : action) : M unit := λ st,
  (Returned (), mkSt (world st) (cancelled st) (context st) (new_messages st) (newly_supplied st)
                  (added_partial st) (trace st ++ [(cancelled st, a)])).

Definition emit_event (e : AgentEvent) : M unit :=
  log (Emitted e);; r ← host (sink W e); lift r.

Definition set_context (f : list AgentMessage → list AgentMessage) : M unit := λ st,
  (Returned (), mkSt (world st) (cancelled st) (f (context st)) (new_messages st) (newly_supplied st)
                  (added_partial st) (trace st)).

Definition push_context (m : AgentMessage) : M unit := set_context (λ l, l ++ [m]).

(** [if let Some(last) = context.messages.last_mut() { *last = m }]. *)
Definition replace_last {A} (m : A) (l : list A) : list A :=
  match l with [] => [] | _ => removelast l ++ [m] end.

Definition push_new (m : AgentMessage) : M unit := λ st,
  (Returned (), mkSt (world st) (cancelled st) (context st) (new_messages st ++ [m]) (newly_supplied st)
                  (added_partial st) (trace st)).

Definition set_added_partial (b : bool) : M unit := λ st,
  (Returned (), mkSt (world st) (cancelled st) (context st) (new_messages st) (newly_supplied st)
                  b (trace st)).

(** The token fired while an event was awaited. *)
Definition cancel_seen : M unit := λ st, (Returned (), set_token (world st) true st).

(** [newly_supplied.extend(messages)]. *)
Definition supply (messages : list AgentMessage) : M unit := λ st,
  (Returned (), mkSt (world st) (cancelled st) (context st) (new_messages st)
                  (newly_supplied st ++ messages) (added_partial st) (trace st)).

(** [std::mem::take(newly_supplied)], the snapshot of one request. *)
Definition take_supplied : M (list AgentMessage) := λ st,
  (Returned (newly_supplied st),
   mkSt (world st) (cancelled st) (context st) (new_messages st) [] (added_partial st)
     (trace st ++ [(cancelled st, Supplied (newly_supplied st))])).

(** The drop of a guard when its scope is left, however it is left. *)
Definition finally {A} (m : M A) (cleanup : W → W) : M A := λ st,
  let '(o, st') := m st in (o, set_world (cleanup (world st')) st').

(** A [for] loop over a list. *)
Fixpoint for_each {A} (body : A → M unit) (l : list A) : M unit :=
  match l with
  | [] => mret ()
  | a :: l' => body a;; for_each body l'
  end.

(** ** Weakest preconditions *)

Definition wp {A} (m : M A) (Q : outcome A → St W → Prop) (st : St W) : Prop :=
  Q (m st).1 (m st).2.

Lemma wp_mono {A} (m : M A) (Q Q' : outcome A → St W → Prop) st :
  wp m Q st → (∀ o st', Q o st' → Q' o st') → wp m Q' st.
Proof. unfold wp. auto. Qed.

Lemma wp_run {A} (m : M A) Q st o st' : wp m Q st → m st = (o, st') → Q o st'.
Proof. unfold wp. intros HQ E. by rewrite E in HQ. Qed.

Lemma wp_ret {A} (a : A) Q st : Q (Returned a) st → wp (mret a) Q st.
Proof. done. Qed.

Lemma wp_throw {A} e (Q : outcome A → St W → Prop) st : Q (Thrown e) st → wp (throw e) Q st.
Proof. done. Qed.

(** The postcondition of the head of a bind. *)
Definition after {A B} (k : A → M B) (Q : outcome B → St W → Prop)
    : outcome A → St W → Prop := λ o st,
  match o with
  | Returned a => wp (k a) Q st
  | Thrown e => Q (Thrown e) st
  | OutOfFuel => Q OutOfFuel st
  end.

Lemma wp_bind {A B} (m : M A) (k : A → M B) Q st :
  wp m (after k Q) st → wp (m ≫= k) Q st.
Proof.
  unfold wp, mbind, M_bind, after. destruct (m st) as [[a|e|] st']; done.
Qed.

Lemma wp_try {A} (m : M A) Q st :
  wp m (λ o st', match o with
                 | Returned a => Q (Returned (Ok a)) st'
                 | Thrown e => Q (Returned (Err e)) st'
                 | OutOfFuel => Q OutOfFuel st' end) st →
  wp (try m) Q st.
Proof. unfold wp, try. destruct (m st) as [[a|e|] st']; done. Qed.

Lemma wp_lift {A} (r : result A str) Q st :
  Q (match r with Ok a => Returned a | Err e => Thrown e end) st → wp (lift r) Q st.
Proof. by destruct r. Qed.

Lemma wp_get {A} (f : St W → A) Q st : Q (Returned (f st)) st → wp (get f) Q st.
Proof. done. Qed.

(** ** Actions of a program

    [acts m st Q]: run from [st], [m] extends the trace by some [new] actions,
    each of them safe, does not uncancel the token, leaves the lists of the run
    alone, and ends with [Q]. *)

(** The provider is asked and a tool is started only while the token is live. *)
Definition safe (x : bool * action) : Prop :=
  match x.2 with Requested _ | Executed _ => x.1 = false | _ => True end.

(** What the trace announces as complete: a message, or the run with the messages
    it produced. *)
Inductive mark : Type := EndOf (m : AgentMessage) | EndOfRun (ms : list AgentMessage).

Definition marks (l : list (bool * action)) : list mark :=
  omap (λ x, match x.2 with
             | Emitted (MessageEnd m) => Some (EndOf m)
             | Emitted (AgentEnd ms) => Some (EndOfRun ms)
             | _ => None
             end) l.

Lemma marks_app l1 l2 : marks (l1 ++ l2) = marks l1 ++ marks l2.
Proof. apply omap_app. Qed.

Definition extends (st st' : St W) (new : list (bool * action)) : Prop :=
  trace st' = trace st ++ new ∧ Forall safe new ∧ (cancelled st = true → cancelled st' = true).

(** The newly supplied messages of the run so far, taken or not. *)
Definition supplied (l : list (bool * action)) : list AgentMessage :=
  concat (omap (λ x, match x.2 with Supplied fresh => Some fresh | _ => None end) l).
Definition pool (st : St W) : list AgentMessage := supplied (trace st) ++ newly_supplied st.

Definition frame (st st' : St W) : Prop :=
  new_messages st' = new_messages st ∧ pool st' = pool st.

Lemma supplied_app l1 l2 : supplied (l1 ++ l2) = supplied l1 ++ supplied l2.
Proof. unfold supplied. by rewrite omap_app, concat_app. Qed.

Lemma extends_refl st : extends st st [].
Proof. split; [by rewrite app_nil_r|]. split; [constructor|done]. Qed.

Lemma extends_trans st1 st2 st3 l1 l2 :
  extends st1 st2 l1 → extends st2 st3 l2 → extends st1 st3 (l1 ++ l2).
Proof.
  intros (H1 & S1 & C1) (H2 & S2 & C2). split; [by rewrite H2, H1, (assoc_L (++))|].
  split; [by apply Forall_app|auto].
Qed.

Lemma frame_trans st1 st2 st3 : frame st1 st2 → frame st2 st3 → frame st1 st3.
Proof. intros [??] [??]. split; congruence. Qed.

Definition acts {A} (m : M A) (st : St W)
    (Q : outcome A → list (bool * action) → St W → Prop) : Prop :=
  wp m (λ o st', ∃ new, extends st st' new ∧ frame st st' ∧ Q o new st') st.

Lemma acts_mono {A} (m : M A) st Q Q' :
  acts m st Q → (∀ o new st', extends st st' new → frame st st' → Q o new st' → Q' o new st') →
  acts m st Q'.
Proof.
  unfold acts. intros Hm HQ. eapply wp_mono; [exact Hm|].
  intros o st' (new & He & Hf & Ho). eauto.
Qed.

Lemma acts_bind {A B} (m : M A) (k : A → M B) st Q1 Q :
  acts m st Q1 →
  (∀ a new st', extends st st' new → frame st st' → Q1 (Returned a) new st' →
     acts (k a) st' (λ o new', Q o (new ++ new'))) →
  (∀ e new st', Q1 (Thrown e) new st' → Q (Thrown e) new st') →
  (∀ new st', Q1 OutOfFuel new st' → Q OutOfFuel new st') →
  acts (m ≫= k) st Q.
Proof.
  unfold acts. intros Hm Hk Ht Hf. apply wp_bind. eapply wp_mono; [exact Hm|].
  intros [a|e|] st' (new & He & Hfr & Ho); simpl.
  - eapply wp_mono; [exact (Hk a new st' He Hfr Ho)|].
    intros o st'' (new' & He' & Hfr' & Ho'). exists (new ++ new').
    split; [by eapply extends_trans|]. split; [by eapply frame_trans|done].
  - exists new. auto.
  - exists new. auto.
Qed.

(** A head that only returns. *)
Lemma acts_step {A B} (m : M A) (k : A → M B) st (Q1 : A → list (bool * action) → St W → Prop) Q :
  acts m st (λ o new st', ∃ a, o = Returned a ∧ Q1 a new st') →
  (∀ a new st', extends st st' new → frame st st' → Q1 a new st' →
     acts (k a) st' (λ o new', Q o (new ++ new'))) →
  acts (m ≫= k) st Q.
Proof.
  intros Hm Hk. eapply acts_bind; [exact Hm| | |].
  - intros a new st' He Hf (a' & [= <-] & Ha). auto.
  - by intros e new st' (a & ? & _).
  - by intros new st' (a & ? & _).
Qed.

(** A postcondition on normal returns only. *)
Definition returns {A} (R : A → list (bool * action) → St W → Prop)
    : outcome A → list (bool * action) → St W → Prop := λ o new st',
  match o with Returned a => R a new st' | _ => True end.

Lemma acts_bind_ret {A B} (m : M A) (k : A → M B) st R1 R :
  acts m st (returns R1) →
  (∀ a new st', extends st st' new → frame st st' → R1 a new st' →
     acts (k a) st' (returns (λ b new', R b (new ++ new')))) →
  acts (m ≫= k) st (returns R).
Proof.
  intros Hm Hk. eapply acts_bind; [exact Hm| |done|done].
  intros a new st' He Hf Ha. eapply acts_mono; [by apply Hk|]. by intros [].
Qed.

Lemma acts_try {A} (m : M A) st Q :
  acts m st (λ o new st', match o with
     | Returned a => Q (Returned (Ok a)) new st'
     | Thrown e => Q (Returned (Err e)) new st'
     | OutOfFuel => Q OutOfFuel new st' end) →
  acts (try m) st Q.
Proof.
  unfold acts. intros Hm. apply wp_try. eapply wp_mono; [exact Hm|].
  intros [] st' (new & He & Hf & Ho); exists new; auto.
Qed.

Lemma acts_ret {A} (a : A) st Q : Q (Returned a) [] st → acts (mret a) st Q.
Proof. intros HQ. exists []. split; [apply extends_refl|]. split; [done|exact HQ]. Qed.

Lemma acts_throw {A} e st (Q : outcome A → _ → _ → Prop) : Q (Thrown e) [] st → acts (throw e) st Q.
Proof. intros HQ. exists []. split; [apply extends_refl|]. split; [done|exact HQ]. Qed.

Lemma acts_out_of_fuel {A} st (Q : outcome A → _ → _ → Prop) : Q OutOfFuel [] st → acts out_of_fuel st Q.
Proof. intros HQ. exists []. split; [apply extends_refl|]. split; [done|exact HQ]. Qed.

Lemma acts_lift {A} (r : result A str) st Q :
  Q (match r with Ok a => Returned a | Err e => Thrown e end) [] st → acts (lift r) st Q.
Proof. destruct r; [apply acts_ret|apply acts_throw]. Qed.

Lemma acts_get {A} (f : St W → A) st Q : Q (Returned (f st)) [] st → acts (get f) st Q.
Proof. intros HQ. exists []. split; [apply extends_refl|]. split; [done|exact HQ]. Qed.

Lemma acts_host {A} (f : W → A * W) st Q :
  (∀ a w, cancelled (set_world w st) = cancelled st → Q (Returned a) [] (set_world w st)) →
  acts (host f) st Q.
Proof.
  intros HQ. unfold acts, wp, host. destruct (f (world st)) as [a w]. simpl.
  exists []. split; [split; [by rewrite app_nil_r|split; [constructor|done]]|].
  split; [done|by apply HQ].
Qed.

Lemma acts_is_cancelled st Q :
  (∀ b st', cancelled st' = b → (cancelled st = true → b = true) → Q (Returned b) [] st') →
  acts is_cancelled st Q.
Proof.
  intros HQ. unfold acts, wp, is_cancelled. destruct (cancelled st) eqn:Hc.
  - exists []. split; [apply extends_refl|]. split; [done|]. by apply HQ.
  - destruct (poll_cancel W (world st)) as [b w]. simpl. exists [].
    split; [split; [by rewrite app_nil_r|split; [constructor|by rewrite Hc]]|].
    split; [done|]. by apply HQ.
Qed.

Lemma acts_log a st Q :
  safe (cancelled st, a) → (∀ fresh, a ≠ Supplied fresh) →
  (∀ st', cancelled st' = cancelled st → Q (Returned ()) [(cancelled st, a)] st') →
  acts (log a) st Q.
Proof.
  intros Hs Hn HQ. unfold acts, wp, log. simpl. exists [(cancelled st, a)].
  split; [split; [done|split; [by repeat constructor|done]]|]. split; [|by apply HQ].
  split; [done|]. unfold pool. simpl. rewrite supplied_app.
  destruct a; [..|by destruct (Hn fresh)]; by rewrite app_nil_r.
Qed.

Lemma acts_take st Q :
  (∀ c st', cancelled st' = cancelled st →
     Q (Returned (newly_supplied st)) [(c, Supplied (newly_supplied st))] st') →
  acts take_supplied st Q.
Proof.
  intros HQ. unfold acts, wp, take_supplied. simpl. eexists [_].
  split; [split; [done|split; [by repeat constructor|done]]|]. split; [|by apply HQ].
  split; [done|]. unfold pool. simpl. rewrite supplied_app. unfold supplied at 2. simpl.
  by rewrite !app_nil_r.
Qed.

(** Changes of the context and of the streaming flag, and the fired token. *)
Lemma acts_set_context f st Q :
  (∀ st', cancelled st' = cancelled st → Q (Returned ()) [] st') → acts (set_context f) st Q.
Proof.
  intros HQ. exists []. split; [split; [by rewrite app_nil_r|split; [constructor|done]]|].
  split; [done|by apply HQ].
Qed.
Lemma acts_set_added b st Q :
  (∀ st', cancelled st' = cancelled st → Q (Returned ()) [] st') → acts (set_added_partial b) st Q.
Proof.
  intros HQ. exists []. split; [split; [by rewrite app_nil_r|split; [constructor|done]]|].
  split; [done|by apply HQ].
Qed.
Lemma acts_cancel_seen st Q :
  (∀ st', cancelled st' = true → Q (Returned ()) [] st') → acts cancel_seen st Q.
Proof.
  intros HQ. exists []. split; [split; [by rewrite app_nil_r|split; [constructor|done]]|].
  split; [done|by apply HQ].
Qed.

Lemma acts_finally {A} (m : M A) cleanup st Q :
  acts m st (λ o new st', Q o new (set_world (cleanup (world st')) st')) → acts (finally m cleanup) st Q.
Proof.
  unfold acts, wp, finally. intros (new & He & Hf & HQ). destruct (m st) as [o st']. simpl in *.
  exists new. split; [exact He|]. split; [exact Hf|exact HQ].
Qed.

Lemma acts_emit e st Q :
  (∀ c st', cancelled st' = cancelled st → Q (Returned ()) [(c, Emitted e)] st') →
  (∀ c err st', cancelled st' = cancelled st → (∃ w, (sink W e w).1 = Err err) →
     Q (Thrown err) [(c, Emitted e)] st') →
  acts (emit_event e) st Q.
Proof.
  intros HQ HE. unfold emit_event.
  apply (acts_step _ _ _ (λ _ new st', new = [(cancelled st, Emitted e)] ∧ cancelled st' = cancelled st)).
  { apply acts_log; [done|done|]. eauto. }
  intros ? new st1 _ _ (-> & Hc).
  apply (acts_step _ _ _ (λ r new st', new = [] ∧ cancelled st' = cancelled st
     ∧ ∃ w, (sink W e w).1 = r)).
  { unfold acts, wp, host. destruct (sink W e (world st1)) as [r w] eqn:Hs. exists [].
    split; [split; [by rewrite app_nil_r|split; [constructor|done]]|]. split; [done|].
    exists r. split; [done|]. split; [done|]. split; [done|]. exists (world st1). by rewrite Hs. }
  intros r new st2 _ _ (-> & Hc2 & Hr). apply acts_lift. simpl.
  destruct r as [[]|err]; auto.
Qed.

Lemma acts_race {A} (op : Op W (result A str)) st Q :
  (∀ a st', Q (Returned a) [] st') →
  (∀ e st', Q (Thrown e) [] st') →
  acts (race_with_abort op) st Q.
Proof.
  intros HQ HE. unfold race_with_abort.
  apply (acts_step _ _ _ (λ _ new st', new = [])).
  { apply acts_is_cancelled. eauto. }
  intros b new st1 _ _ ->. destruct b; [by apply acts_throw|].
  unfold acts, wp. destruct (op (world st1)) as [[[a|e]|] w]; simpl.
  all: exists []; (split; [split; [by rewrite app_nil_r|split; [constructor|done]]|]);
    (split; [done|]); auto.
Qed.

(** ** Two derived judgements *)

(** A program that ends no message and no run, however it ends. *)
Definition Quiet {A} (m : M A) : Prop := ∀ st, acts m st (λ _ new _, marks new = []).

(** What a program returns, when it returns. *)
Definition Yields {A} (m : M A) (R : A → Prop) : Prop :=
  ∀ st, match (m st).1 with Returned a => R a | _ => True end.

Lemma quiet_bind {A B} (m : M A) (k : A → M B) : Quiet m → (∀ a, Quiet (k a)) → Quiet (m ≫= k).
Proof.
  intros Hm Hk st. eapply acts_bind; [apply Hm| |done|done].
  intros a new st' _ _ Hn. eapply acts_mono; [apply Hk|].
  intros o new' st'' _ _ Hn'. by rewrite marks_app, Hn, Hn'.
Qed.

Lemma quiet_ret {A} (a : A) : Quiet (mret a).
Proof. intros st. by apply acts_ret. Qed.
Lemma quiet_throw {A} e : Quiet (throw (A := A) e).
Proof. intros st. by apply acts_throw. Qed.
Lemma quiet_out_of_fuel {A} : Quiet (out_of_fuel (A := A)).
Proof. intros st. by apply acts_out_of_fuel. Qed.
Lemma quiet_lift {A} (r : result A str) : Quiet (lift r).
Proof. destruct r; [apply quiet_ret|apply quiet_throw]. Qed.
Lemma quiet_host {A} (f : W → A * W) : Quiet (host f).
Proof. intros st. by apply acts_host. Qed.
Lemma quiet_get {A} (f : St W → A) : Quiet (get f).
Proof. intros st. by apply acts_get. Qed.
Lemma quiet_is_cancelled : Quiet is_cancelled.
Proof. intros st. by apply acts_is_cancelled. Qed.
Lemma quiet_race {A} (op : Op W (result A str)) : Quiet (race_with_abort op).
Proof. intros st. by apply acts_race. Qed.
Lemma quiet_try {A} (m : M A) : Quiet m → Quiet (try m).
Proof. intros Hm st. apply acts_try. eapply acts_mono; [apply Hm|]. by intros []. Qed.
Lemma quiet_emit e :
  match e with MessageEnd _ | AgentEnd _ => False | _ => True end → Quiet (emit_event e).
Proof. intros He st. apply acts_emit; intros; by destruct e. Qed.
Lemma quiet_set_context f : Quiet (set_context f).
Proof. intros st. by apply acts_set_context. Qed.
Lemma quiet_set_added b : Quiet (set_added_partial b).
Proof. intros st. by apply acts_set_added. Qed.
Lemma quiet_cancel_seen : Quiet cancel_seen.
Proof. intros st. by apply acts_cancel_seen. Qed.
Lemma quiet_take : Quiet take_supplied.
Proof. intros st. by apply acts_take. Qed.
Lemma quiet_finally {A} (m : M A) cleanup : Quiet m → Quiet (finally m cleanup).
Proof. intros Hm st. by apply acts_finally. Qed.
Lemma quiet_throw_if_aborted : Quiet throw_if_aborted.
Proof.
  apply quiet_bind; [apply quiet_is_cancelled|]. intros []; [apply quiet_throw|apply quiet_ret].
Qed.

Lemma yields_bind {A B} (m : M A) (k : A → M B) R1 R :
  Yields m R1 → (∀ a, R1 a → Yields (k a) R) → Yields (m ≫= k) R.
Proof.
  intros Hm Hk st. specialize (Hm st). unfold mbind, M_bind.
  destruct (m st) as [[a|e|] st']; [by apply Hk|done..].
Qed.

Lemma yields_any {A B} (m : M A) (k : A → M B) R : (∀ a, Yields (k a) R) → Yields (m ≫= k) R.
Proof. intros Hk. apply (yields_bind _ _ (λ _, True)); [|auto]. intros st. by destruct (m st).1. Qed.

Lemma yields_ret {A} (a : A) (R : A → Prop) : R a → Yields (mret a) R.
Proof. by intros ? st. Qed.
Lemma yields_throw {A} e (R : A → Prop) : Yields (throw e) R.
Proof. by intros st. Qed.
Lemma yields_out_of_fuel {A} (R : A → Prop) : Yields out_of_fuel R.
Proof. by intros st. Qed.

Lemma acts_yields {A} (m : M A) st Q R :
  acts m st Q → Yields m R →
  acts m st (λ o new st', Q o new st' ∧ match o with Returned a => R a | _ => True end).
Proof.
  unfold acts, wp. intros (new & He & Hf & HQ) HR. specialize (HR st). eauto 6.
Qed.
End monad.
Arguments M {X} W A.

Create HintDb quiet.
#[export] Hint Resolve quiet_ret quiet_throw quiet_out_of_fuel quiet_lift quiet_host
  quiet_get quiet_is_cancelled quiet_race quiet_try quiet_throw_if_aborted quiet_set_context quiet_set_added
  quiet_cancel_seen quiet_take quiet_finally : quiet.
#[export] Hint Extern 1 (Quiet (emit_event _)) => apply quiet_emit; done : quiet.

(** Quietness of a program by its structure. *)
Ltac quiet :=
  repeat first
    [ progress intros
    | match goal with |- Quiet (_ ≫= _) => apply quiet_bind end
    | solve [eauto with quiet]
    | match goal with |- Quiet (match ?x with _ => _ end) => destruct x end ].
