(* ===== verification/ToolCalls.v ===== *)
(** * The agent loop: tool calls

    [agent_loop.rs] 1824-2600: preparing, executing and finalizing the tool calls
    of one assistant message, one after the other or concurrently, and answering
    the calls that will never run.  A running tool is a little state machine
    ([ToolTask]): its own task publishes partial results and ends, a second task
    drains the published results into the event sink, and the loop races both
    with the token.  Concurrent calls are a list of such machines; which unfinished
    one is polled next is the host's choice, so every interleaving is a run.  The
    performance metrics recorded on the way are not modelled. *)
From stdpp Require Import base list numbers strings.
From S2P Require Import Prelude RustStr Watchdog AgentTypes AgentMonad.

Local Open Scope N_scope.

(** ** Data *)

Record PreparedToolCall `{X : Externals} : Type := mkPrepared {
  p_call : ToolCall;
  p_tool : AgentTool;
  p_args : Value }.

Inductive PreparedToolCallOrImmediate `{X : Externals} : Type :=
| Prepared (p : PreparedToolCall)
| Immediate (result : AgentToolResult) (is_error : bool).

(** [ExecutedToolCallOutcome]. *)
Definition Outcome `{X : Externals} : Type := (AgentToolResult * bool)%type.

Record FinalizedToolCallOutcome `{X : Externals} : Type := mkFinalized {
  f_call : ToolCall;
  f_result : AgentToolResult;
  f_is_error : bool }.

Record ExecutedToolCallBatch `{X : Externals} : Type := mkBatch {
  b_messages : list ToolResultMessage;
  b_terminate : bool }.

Arguments mkPrepared {X}.
Arguments mkFinalized {X}.
Arguments mkBatch {X}.

(** A call in flight: the tool runs, with the published partial results that are
    not emitted yet and the error the drain task died of, if any; or the tool's
    part is over and the drain task is being joined; or the call is settled. *)
Inductive ToolTask `{X : Externals} : Type :=
| Running (queue : list AgentToolResult) (drain : option str)
| Closing (queue : list AgentToolResult) (drain : option str) (r : result AgentToolResult str)
| Settled (o : Outcome).

(** The futures that the parallel path joins. *)
Inductive ToolFuture `{X : Externals} : Type :=
| FNew (p : PreparedToolCall)
| FTask (p : PreparedToolCall) (t : ToolTask)
| FEnding (f : FinalizedToolCallOutcome)
| FReady (r : result FinalizedToolCallOutcome str).

Section tools.
Context {X : Externals} {W : Type} {H : Host W}.
Variable config : AgentLoopConfig W (ILease W) (SLease W).
(** The system prompt and the tools of the run's context. *)
Variable prompt : str.
Variable tools : option (list AgentTool).

Local Abbreviation M := (AgentMonad.M W).

Definition current_context : M AgentContext := get (λ st, mkContext prompt (context st) tools).

Definition message_tool_calls (m : AssistantMessage) : list ToolCall := omap as_tool_call (content m).

Definition create_error_tool_result (message : str) : AgentToolResult :=
  mkResult [RText (text_new message)] (Object map_new) (Some true) None.

Definition find_tool (name : str) : option AgentTool :=
  tools ≫= List.find (λ t, str_eqb (t_name t) name).

(** ** Preparing *)

Definition prepare_tool_call_arguments (tool : AgentTool) (call : ToolCall) : ToolCall :=
  match prepare_arguments tool with
  | None => call
  | Some prepare =>
      let prepared := prepare (Object (arguments call)) in
      if value_eqb prepared (Object (arguments call)) then call
      else mkCall (tc_id call) (tc_name call)
             (match as_object prepared with
              | Some map => map
              | None => map_singleton (lit "value") prepared
              end)
             (thought_signature call)
  end.

Definition immediate_error (message : str) : PreparedToolCallOrImmediate :=
  Immediate (create_error_tool_result message) true.

Definition prepare_tool_call (am : AssistantMessage) (call : ToolCall) : M PreparedToolCallOrImmediate :=
  match find_tool (tc_name call) with
  | None => mret (immediate_error (lit "Tool " ++ tc_name call ++ lit " not found"))
  | Some tool =>
      let prepared := prepare_tool_call_arguments tool call in
      match validate_tool_arguments W tool prepared with
      | Err error => mret (immediate_error error)
      | Ok args =>
          match before_tool_call _ _ _ config with
          | None => mret (Prepared (mkPrepared prepared tool args))
          | Some hook =>
              cx ← current_context;
              r ← try (race_with_abort (hook am call args cx));
              match r with
              | Err error =>
                  c ← is_cancelled;
                  mret (immediate_error (if (c : bool) then TOOL_EXECUTION_ABORTED_MESSAGE else error))
              | Ok before =>
                  if default false (before ≫= block)
                  then mret (immediate_error
                         (default (lit "Tool execution was blocked") (before ≫= reason)))
                  else mret (Prepared (mkPrepared prepared tool args))
              end
          end
      end
  end.

(** ** Executing *)

(** The start of [execute_prepared_tool_call]: the check of the token, the spawned
    tool, and the first look of [race_with_abort]. *)
Definition start_task (p : PreparedToolCall) : M ToolTask :=
  a ← try throw_if_aborted;
  match a with
  | Err _ => mret (Settled (create_error_tool_result TOOL_EXECUTION_ABORTED_MESSAGE, true))
  | Ok _ =>
      r ← host (spawn_tool W (p_call p) (p_tool p) (p_args p));
      log (Executed (p_call p));;
      c ← is_cancelled;
      if (c : bool) then mret (Closing [] None (Err ABORT_ERROR_MESSAGE))
      else match (if execution_scope _ _ _ config then r else Ok ()) with
           | Ok _ => mret (Running [] None)
           | Err e => mret (Closing [] None (Err e))
           end
  end.

(** One event of the drain task: the oldest published result is emitted; an error
    of the sink ends the task. *)
Definition drain_one (p : PreparedToolCall) (queue : list AgentToolResult) (drain : option str)
    : M (list AgentToolResult * option str) :=
  match drain, queue with
  | None, partial :: queue' =>
      r ← try (emit_event (ToolExecutionUpdate (tc_id (p_call p)) (tc_name (p_call p))
                 (Object (arguments (p_call p))) partial));
      mret (queue', match r with Ok _ => None | Err e => Some e end)
  | _, _ => mret (queue, drain)
  end.

(** The end of [execute_prepared_tool_call]: the joined drain task, then the
    result of the race. *)
Definition settle_task (drain : option str) (r : result AgentToolResult str) : M ToolTask :=
  match drain with
  | Some e => mret (Settled (create_error_tool_result e, true))
  | None =>
      match r with
      | Ok result => mret (Settled (result, default false (r_is_error result)))
      | Err error =>
          c ← is_cancelled;
          mret (Settled (create_error_tool_result
                  (if (c : bool) then TOOL_EXECUTION_ABORTED_MESSAGE else error), true))
      end
  end.

Definition step_task (p : PreparedToolCall) (t : ToolTask) : M ToolTask :=
  match t with
  | Settled o => mret (Settled o)
  | Running queue drain =>
      c ← is_cancelled;
      if (c : bool) then mret (Closing queue drain (Err ABORT_ERROR_MESSAGE))
      else
        s ← host (tool_step W (p_call p));
        match s with
        | Publishes partial =>
            c ← is_cancelled;
            if (c : bool) then mret (Running queue drain)
            else log (Published (p_call p) partial);; mret (Running (queue ++ [partial]) drain)
        | Finishes r => mret (Closing queue drain r)
        | DrainEmits => d ← drain_one p queue drain; mret (Running d.1 d.2)
        | Idles => mret (Running queue drain)
        end
  | Closing queue drain r =>
      c ← is_cancelled;
      if (c : bool) then
        s ← host (tool_step W (p_call p));
        match s with
        | DrainEmits => d ← drain_one p queue drain; mret (Closing d.1 d.2 r)
        | _ => settle_task drain r
        end
      else
        match drain, queue with
        | None, _ :: _ => d ← drain_one p queue drain; mret (Closing d.1 d.2 r)
        | _, _ => settle_task drain r
        end
  end.

Fixpoint run_task (fuel : nat) (p : PreparedToolCall) (t : ToolTask) : M Outcome :=
  match t with
  | Settled o => mret o
  | _ =>
      match fuel with
      | O => out_of_fuel
      | S fuel => t' ← step_task p t; run_task fuel p t'
      end
  end.

Definition execute_prepared_tool_call (fuel : nat) (p : PreparedToolCall) : M Outcome :=
  t ← start_task p; run_task fuel p t.

(** ** Finalizing *)

Definition finalize_executed_tool_call (am : AssistantMessage) (p : PreparedToolCall) (executed : Outcome)
    : M FinalizedToolCallOutcome :=
  let '(result, is_error) := executed in
  match after_tool_call _ _ _ config with
  | None => mret (mkFinalized (p_call p) result is_error)
  | Some hook =>
      cx ← current_context;
      r ← try (race_with_abort (hook am (p_call p) (p_args p) result is_error cx));
      match r with
      | Ok (Some o) =>
          mret (mkFinalized (p_call p)
            (mkResult (default (r_content result) (a_content o))
                      (default (r_details result) (a_details o))
                      (match a_is_error o with Some b => Some b | None => r_is_error result end)
                      (match a_terminate o with Some b => Some b | None => r_terminate result end))
            (default is_error (a_is_error o)))
      | Ok None => mret (mkFinalized (p_call p) result is_error)
      | Err error => mret (mkFinalized (p_call p) (create_error_tool_result error) true)
      end
  end.

Definition emit_tool_execution_start (call : ToolCall) : M unit :=
  emit_event (ToolExecutionStart (tc_id call) (tc_name call) (Object (arguments call))).

Definition emit_tool_execution_end (f : FinalizedToolCallOutcome) : M unit :=
  emit_event (ToolExecutionEnd (tc_id (f_call f)) (tc_name (f_call f)) (f_result f) (f_is_error f)).

Definition create_tool_result_message (f : FinalizedToolCallOutcome) (timestamp : Z) : ToolResultMessage :=
  mkToolResult (tc_id (f_call f)) (tc_name (f_call f)) (r_content (f_result f))
    (Some (r_details (f_result f))) (f_is_error f) timestamp.

Definition emit_tool_result_message (m : ToolResultMessage) : M unit :=
  emit_event (MessageStart (of_result m));; emit_event (MessageEnd (of_result m)).

(** The message of a finalized call, stamped and emitted. *)
Definition publish_result (f : FinalizedToolCallOutcome) : M ToolResultMessage :=
  now ← host (now_ms W);
  emit_tool_result_message (create_tool_result_message f now);;
  mret (create_tool_result_message f now).

Definition should_terminate_tool_batch (finalized_calls : list FinalizedToolCallOutcome) : bool :=
  negb (is_empty finalized_calls) &&
  forallb (λ f, match r_terminate (f_result f) with Some b => b | None => false end) finalized_calls.

(** ** Calls that never run *)

Fixpoint answer_calls (calls : list ToolCall) (already_answered : list ToolResultMessage)
    : M (list ToolResultMessage) :=
  match calls with
  | [] => mret []
  | call :: rest =>
      if existsb (λ m, str_eqb (tool_call_id m) (tc_id call)) already_answered
      then answer_calls rest already_answered
      else
        m ← publish_result
              (mkFinalized call (create_error_tool_result TOOL_EXECUTION_ABORTED_MESSAGE) true);
        ms ← answer_calls rest already_answered;
        mret (m :: ms)
  end.

Definition answer_unexecuted_tool_calls (am : AssistantMessage) (already_answered : list ToolResultMessage)
    : M (list ToolResultMessage) :=
  answer_calls (message_tool_calls am) already_answered.

(** ** The sequential path *)

Definition finalize_preparation (fuel : nat) (am : AssistantMessage) (call : ToolCall)
    (preparation : PreparedToolCallOrImmediate) : M FinalizedToolCallOutcome :=
  match preparation with
  | Immediate result is_error => mret (mkFinalized call result is_error)
  | Prepared p =>
      executed ← execute_prepared_tool_call fuel p;
      finalize_executed_tool_call am p executed
  end.

(** The loop body for one call, up to the second look at the token. *)
Definition run_call (fuel : nat) (am : AssistantMessage) (call : ToolCall)
    : M (FinalizedToolCallOutcome * ToolResultMessage) :=
  emit_tool_execution_start call;;
  preparation ← prepare_tool_call am call;
  f ← finalize_preparation fuel am call preparation;
  emit_tool_execution_end f;;
  m ← publish_result f;
  mret (f, m).

Fixpoint sequential_loop (fuel : nat) (am : AssistantMessage) (calls : list ToolCall)
    : M (list (FinalizedToolCallOutcome * ToolResultMessage)) :=
  match calls with
  | [] => mret []
  | call :: rest =>
      c ← is_cancelled;
      if (c : bool) then mret []
      else
        fm ← run_call fuel am call;
        c ← is_cancelled;
        if (c : bool) then mret [fm]
        else l ← sequential_loop fuel am rest; mret (fm :: l)
  end.

Definition execute_tool_calls_sequential (fuel : nat) (am : AssistantMessage) (calls : list ToolCall)
    : M ExecutedToolCallBatch :=
  l ← sequential_loop fuel am calls;
  let messages := map snd l in
  c ← is_cancelled;
  synthesized ← (if (c : bool) then answer_unexecuted_tool_calls am messages else mret []);
  mret (mkBatch (messages ++ synthesized) (should_terminate_tool_batch (map fst l))).

(** ** The parallel path *)

(** The first loop: every call is announced and prepared in order. *)
Fixpoint prepare_calls (am : AssistantMessage) (calls : list ToolCall) : M (list ToolFuture) :=
  match calls with
  | [] => mret []
  | call :: rest =>
      emit_tool_execution_start call;;
      preparation ← prepare_tool_call am call;
      entry ← match preparation with
              | Immediate result is_error =>
                  emit_tool_execution_end (mkFinalized call result is_error);;
                  mret (FReady (Ok (mkFinalized call result is_error)))
              | Prepared p => mret (FNew p)
              end;
      entries ← prepare_calls am rest;
      mret (entry :: entries)
  end.

(** One poll of a future. *)
Definition step_future (am : AssistantMessage) (f : ToolFuture) : M ToolFuture :=
  match f with
  | FNew p => t ← start_task p; mret (FTask p t)
  | FTask p (Settled o) => f ← finalize_executed_tool_call am p o; mret (FEnding f)
  | FTask p t => t' ← step_task p t; mret (FTask p t')
  | FEnding f =>
      r ← try (emit_tool_execution_end f);
      mret (FReady (match r with Ok _ => Ok f | Err e => Err e end))
  | FReady r => mret (FReady r)
  end.

Fixpoint all_ready (fs : list ToolFuture) : option (list (result FinalizedToolCallOutcome str)) :=
  match fs with
  | [] => Some []
  | FReady r :: fs' => cons r <$> all_ready fs'
  | _ => None
  end.

Definition unfinished (f : ToolFuture) : bool := match f with FReady _ => false | _ => true end.

(** The positions, from [k] on, of the futures that are not ready. *)
Fixpoint unfinished_indices (k : nat) (fs : list ToolFuture) : list nat :=
  match fs with
  | [] => []
  | f :: fs' => (if unfinished f then [k] else []) ++ unfinished_indices (S k) fs'
  end.

(** [join_all] polls only futures that are not ready; the host's number picks one. *)
Definition choose (fs : list ToolFuture) (i : nat) : nat :=
  let u := unfinished_indices 0 fs in default O (u !! (i `mod` length u)%nat).

(** [futures::future::join_all]. *)
Fixpoint join_all (fuel : nat) (am : AssistantMessage) (fs : list ToolFuture)
    : M (list (result FinalizedToolCallOutcome str)) :=
  match all_ready fs with
  | Some rs => mret rs
  | None =>
      match fuel with
      | O => out_of_fuel
      | S fuel =>
          i ← host (pick_future W);
          match fs !! choose fs i with
          | Some f => f' ← step_future am f; join_all fuel am (<[choose fs i := f']> fs)
          | None => join_all fuel am fs
          end
      end
  end.

Fixpoint publish_results (fs : list FinalizedToolCallOutcome) : M (list ToolResultMessage) :=
  match fs with
  | [] => mret []
  | f :: fs' => m ← publish_result f; ms ← publish_results fs'; mret (m :: ms)
  end.

Definition execute_tool_calls_parallel (fuel : nat) (am : AssistantMessage) (calls : list ToolCall)
    : M ExecutedToolCallBatch :=
  entries ← prepare_calls am calls;
  outcomes ← join_all fuel am entries;
  ordered ← lift (rmap (λ r, r) outcomes);
  messages ← publish_results ordered;
  mret (mkBatch messages (should_terminate_tool_batch ordered)).

Definition resolved_tool_execution : ToolExecutionMode := default Parallel (tool_execution _ _ _ config).

Definition is_sequential (m : ToolExecutionMode) : bool :=
  match m with Sequential => true | Parallel => false end.

Definition execute_tool_calls (fuel : nat) (am : AssistantMessage) : M ExecutedToolCallBatch :=
  let calls := message_tool_calls am in
  let has_sequential_tool_call :=
    existsb (λ call, match find_tool (tc_name call) ≫= execution_mode with
                     | Some m => is_sequential m
                     | None => false
                     end) calls in
  if is_sequential resolved_tool_execution || has_sequential_tool_call
  then execute_tool_calls_sequential fuel am calls
  else execute_tool_calls_parallel fuel am calls.

(** ** Which calls a batch answers *)

(** The announced end of a result. *)
Definition ended_result (m : ToolResultMessage) : mark := EndOf (of_result m).

Definition call_key (c : ToolCall) : str * str := (tc_id c, tc_name c).
Definition result_key (m : ToolResultMessage) : str * str := (tool_call_id m, tool_name m).

(** Calls not answered by a list of ids. *)
Definition unanswered (ids : list str) (calls : list ToolCall) : list ToolCall :=
  List.filter (λ c, negb (existsb (λ i, str_eqb i (tc_id c)) ids)) calls.

(** The results of a batch answer its calls in order: the first [n] calls one by
    one, then every call whose id is not among those. *)
Definition answers (calls : list ToolCall) (results : list ToolResultMessage) : Prop :=
  ∃ n, map result_key results
       = map call_key (take n calls) ++ map call_key (unanswered (map tc_id (take n calls)) calls).

Lemma unanswered_all ids calls : (∀ c, c ∈ calls → tc_id c ∈ ids) → unanswered ids calls = [].
Proof.
  intros Hin. apply filter_all_false. intros c Hc. apply negb_false_iff, existsb_exists.
  exists (tc_id c). rewrite <-list_elem_of_In. split; [by apply Hin|apply str_eqb_refl].
Qed.

Lemma unanswered_none ids calls : (∀ c, c ∈ calls → tc_id c ∉ ids) → unanswered ids calls = calls.
Proof.
  intros Hin. unfold unanswered. induction calls as [|c calls IH]; [done|]. simpl.
  destruct (existsb _ ids) eqn:Hx; simpl.
  - apply existsb_exists in Hx as (i & Hi & Heq). apply str_eqb_eq in Heq as ->.
    apply list_elem_of_In in Hi. by destruct (Hin c ltac:(by left)).
  - f_equal. apply IH. intros c' Hc'. apply Hin. by right.
Qed.

(** One result per call, in order, whenever the calls' ids differ. *)
Lemma answers_nodup calls results :
  NoDup (map tc_id calls) → answers calls results → map result_key results = map call_key calls.
Proof.
  intros Hnd (n & ->). set (done := take n calls). set (rest := drop n calls).
  assert (Hc : calls = done ++ rest) by (symmetry; apply take_drop).
  rewrite Hc, map_app in Hnd. apply NoDup_app in Hnd as (_ & Hdis & _).
  rewrite Hc, map_app. f_equal. f_equal. unfold unanswered. rewrite List.filter_app.
  fold (unanswered (map tc_id done) done). fold (unanswered (map tc_id done) rest).
  rewrite unanswered_all, unanswered_none; [done| |].
  - intros c Hin Hd. eapply Hdis; [exact Hd|]. by apply list_elem_of_fmap_2.
  - intros c Hin. by apply list_elem_of_fmap_2.
Qed.

Lemma answers_complete calls results :
  map result_key results = map call_key calls → answers calls results.
Proof.
  intros Hk. exists (length calls). rewrite firstn_all. rewrite unanswered_all.
  - by rewrite app_nil_r.
  - intros c Hc. by apply list_elem_of_fmap_2.
Qed.

(** ** Programs *)

Lemma prepare_key am call :
  Yields (prepare_tool_call am call)
    (λ x, match x with Prepared p => call_key (p_call p) = call_key call | Immediate _ _ => True end).
Proof.
  unfold prepare_tool_call. destruct (find_tool _) as [tool|]; [|by apply yields_ret].
  assert (Hk : call_key (prepare_tool_call_arguments tool call) = call_key call).
  { unfold prepare_tool_call_arguments. by repeat case_match. }
  destruct (validate_tool_arguments _ _ _) as [args|e]; [|by apply yields_ret].
  destruct (before_tool_call _ _ _ _) as [hook|]; [|by apply yields_ret].
  apply yields_any. intros cx. apply yields_any. intros [before|e].
  - destruct (default false _); by apply yields_ret.
  - apply yields_any. intros c. by apply yields_ret.
Qed.

Lemma quiet_prepare am call : Quiet (prepare_tool_call am call).
Proof. unfold prepare_tool_call, current_context. cbv zeta. quiet. Qed.

(** A tool is started only with a live token. *)
Lemma quiet_start p : Quiet (start_task p).
Proof.
  intros st. unfold start_task, throw_if_aborted.
  apply (acts_step _ _ _ (λ r new st', new = [] ∧ (r = Ok () → cancelled st' = false))).
  { apply acts_try. apply (acts_step _ _ _ (λ b new st', new = [] ∧ cancelled st' = b)).
    - apply acts_is_cancelled. eauto.
    - intros [] new st' _ _ (-> & Hc); [apply acts_throw|apply acts_ret]; simpl;
        (eexists; split; [done|]); (split; [done|]); by intros. }
  intros r new st1 _ _ (-> & Hc). destruct r as [[]|e]; [|by apply acts_ret].
  apply (acts_step _ _ _ (λ _ new st', new = [] ∧ cancelled st' = false)).
  { apply acts_host. intros r w Hw. rewrite Hw. eauto. }
  intros r new st2 _ _ (-> & Hc2).
  apply (acts_step _ _ _ (λ _ new st', marks new = [])).
  { apply acts_log; [done|done|]. intros st' _. by exists (). }
  intros _ new st3 _ _ Hn.
  eapply acts_mono; [|intros o new' st' _ _ Hn'; simpl; rewrite marks_app, Hn; exact Hn'].
  simpl. match goal with |- acts ?m _ _ => assert (Hq : Quiet m) by quiet; apply Hq end.
Qed.

Lemma quiet_log_published c r : Quiet (log (W := W) (Published c r)).
Proof. intros st. by apply acts_log. Qed.
Hint Resolve quiet_prepare quiet_start quiet_log_published : quiet.

Lemma quiet_drain p queue drain : Quiet (drain_one p queue drain).
Proof. unfold drain_one. quiet. Qed.
Lemma quiet_settle drain r : Quiet (settle_task drain r).
Proof. unfold settle_task. quiet. Qed.
Hint Resolve quiet_drain quiet_settle : quiet.

Lemma quiet_step p t : Quiet (step_task p t).
Proof. unfold step_task. quiet. Qed.
Hint Resolve quiet_step : quiet.

Lemma quiet_run_task fuel p t : Quiet (run_task fuel p t).
Proof. revert t. induction fuel as [|fuel IH]; intros t; simpl; quiet. Qed.

Lemma quiet_finalize am p o : Quiet (finalize_executed_tool_call am p o).
Proof. unfold finalize_executed_tool_call, current_context. quiet. Qed.
Hint Resolve quiet_run_task quiet_finalize : quiet.

Lemma quiet_preparation fuel am call prep : Quiet (finalize_preparation fuel am call prep).
Proof. unfold finalize_preparation, execute_prepared_tool_call. quiet. Qed.
Lemma quiet_emit_start call : Quiet (emit_tool_execution_start call).
Proof. by apply quiet_emit. Qed.
Lemma quiet_emit_end f : Quiet (emit_tool_execution_end f).
Proof. by apply quiet_emit. Qed.
Hint Resolve quiet_preparation quiet_emit_start quiet_emit_end : quiet.

Lemma finalize_call am p o : Yields (finalize_executed_tool_call am p o) (λ f, f_call f = p_call p).
Proof.
  unfold finalize_executed_tool_call. destruct o as [r e].
  destruct (after_tool_call _ _ _ _); [|by apply yields_ret].
  do 2 (apply yields_any; intros ?). repeat case_match; by apply yields_ret.
Qed.

Lemma preparation_key fuel am call prep :
  match prep with Prepared p => call_key (p_call p) = call_key call | Immediate _ _ => True end →
  Yields (finalize_preparation fuel am call prep) (λ f, call_key (f_call f) = call_key call).
Proof.
  intros Hp. destruct prep as [p|r e]; [|by apply yields_ret]. apply yields_any. intros o.
  intros st. pose proof (finalize_call am p o st) as Hf. unfold finalize_preparation in *.
  destruct (finalize_executed_tool_call am p o st).1; [|done..]. congruence.
Qed.

(** A published result ends exactly its own message. *)
Lemma publish_result_acts f st :
  acts (publish_result f) st
    (returns (λ m new _, marks new = [ended_result m] ∧ result_key m = call_key (f_call f))).
Proof.
  unfold publish_result, emit_tool_result_message.
  apply (acts_step _ _ _ (λ _ new _, new = [])). { apply acts_host. eauto. }
  intros now new st1 _ _ ->. set (m := create_tool_result_message f now).
  apply (acts_bind_ret _ _ _ (λ _ new _, marks new = [ended_result m])).
  - apply (acts_bind_ret _ _ _ (λ _ new _, marks new = [])).
    + apply acts_emit; simpl; auto.
    + intros _ new st2 _ _ Hn. apply acts_emit; simpl; [|auto].
      intros c st3 _. by rewrite marks_app, Hn.
  - intros _ new st2 _ _ Hn. apply acts_ret. simpl. rewrite app_nil_r. auto.
Qed.

(** A quiet head in front of a program that ends messages. *)
Lemma acts_quiet_bind {A B} (m : M A) (k : A → M B) st (R1 : A → Prop) (R : B → list mark → St W → Prop) :
  Quiet m → Yields m R1 →
  (∀ a st', R1 a → acts (k a) st' (returns (λ b new, R b (marks new)))) →
  acts (m ≫= k) st (returns (λ b new, R b (marks new))).
Proof.
  intros Hq Hy Hk.
  eapply (acts_bind_ret _ _ _ (λ a new _, marks new = [] ∧ R1 a)).
  - eapply acts_mono; [apply (acts_yields _ _ _ _ (Hq st) Hy)|].
    intros [a|e|] new st' _ _ [Hn Ha]; simpl; auto.
  - intros a new st' _ _ [Hn Ha]. eapply acts_mono; [by apply Hk|].
    intros [b|e|] new' st'' _ _ Hb; simpl in *; [|done..]. by rewrite marks_app, Hn.
Qed.

Lemma yields_true {A} (m : M A) : Yields m (λ _, True).
Proof. intros st. by destruct (m st).1. Qed.

Lemma run_call_acts fuel am call st :
  acts (run_call fuel am call) st
    (returns (λ fm new _, marks new = [ended_result fm.2] ∧ result_key fm.2 = call_key call)).
Proof.
  apply (acts_quiet_bind _ _ _ (λ _, True) (λ fm l _, l = [ended_result fm.2] ∧ result_key fm.2 = call_key call));
    [quiet|apply yields_true|]. intros _ st1 _.
  apply (acts_quiet_bind _ _ _ _ (λ fm l _, l = [ended_result fm.2] ∧ result_key fm.2 = call_key call)
    (quiet_prepare am call) (prepare_key am call)). intros prep st2 Hp.
  apply (acts_quiet_bind _ _ _ _ (λ fm l _, l = [ended_result fm.2] ∧ result_key fm.2 = call_key call)
    (quiet_preparation fuel am call prep) (preparation_key fuel am call prep Hp)). intros f st3 Hf.
  apply (acts_quiet_bind _ _ _ (λ _, True) (λ fm l _, l = [ended_result fm.2] ∧ result_key fm.2 = call_key call));
    [quiet|apply yields_true|]. intros _ st4 _.
  eapply acts_bind_ret; [apply publish_result_acts|]. intros m new st5 _ _ [Hn Hm].
  apply acts_ret. simpl. rewrite app_nil_r. split; [done|congruence].
Qed.

(** The sequential loop answers a prefix of the calls, all of them unless the
    token was cancelled. *)
Lemma sequential_loop_acts fuel am calls st :
  acts (sequential_loop fuel am calls) st
    (returns (λ l new st', marks new = map ended_result (map snd l)
       ∧ map result_key (map snd l) = map call_key (take (length l) calls)
       ∧ ((length l < length calls)%nat → cancelled st' = true))).
Proof.
  revert st. induction calls as [|call calls IH]; intros st; simpl.
  { apply acts_ret. simpl. repeat split; lia. }
  apply (acts_step _ _ _ (λ b new st', new = [] ∧ cancelled st' = b)).
  { apply acts_is_cancelled. eauto. }
  intros [] new st1 _ _ (-> & Hc); [by apply acts_ret|].
  eapply acts_bind_ret; [apply run_call_acts|]. intros fm new st2 _ _ [Hn Hk].
  apply (acts_step _ _ _ (λ b new st', new = [] ∧ cancelled st' = b)).
  { apply acts_is_cancelled. eauto. }
  intros [] new' st3 _ _ (-> & Hc3).
  - apply acts_ret. simpl. rewrite !app_nil_r, Hn, Hk. by destruct calls.
  - eapply acts_bind_ret; [apply IH|]. intros l new' st4 _ _ (Hn' & Hk' & Hc4).
    apply acts_ret. simpl. rewrite app_nil_r, marks_app, Hn, Hn', Hk, Hk'.
    repeat split. intros Hlt. apply Hc4. lia.
Qed.

Lemma answer_calls_acts calls answered st :
  acts (answer_calls calls answered) st
    (returns (λ ms new _, marks new = map ended_result ms
       ∧ map result_key ms = map call_key (unanswered (map tool_call_id answered) calls))).
Proof.
  revert st. induction calls as [|call calls IH]; intros st; simpl; [by apply acts_ret|].
  assert (Hx : existsb (λ m, str_eqb (tool_call_id m) (tc_id call)) answered
             = existsb (λ i, str_eqb i (tc_id call)) (map tool_call_id answered)).
  { clear. induction answered as [|m l IHl]; simpl; [done|]. by rewrite IHl. }
  rewrite Hx. clear Hx. destruct (existsb _ _); simpl; [apply IH|].
  eapply acts_bind_ret; [apply publish_result_acts|]. intros m new st1 _ _ [Hn Hm].
  eapply acts_bind_ret; [apply IH|]. intros ms new' st2 _ _ [Hn' Hm'].
  apply acts_ret. simpl. rewrite app_nil_r, marks_app, Hn, Hn'. split; [done|].
  rewrite Hm, Hm'. done.
Qed.

Lemma result_ids_keys (l : list ToolResultMessage) calls :
  map result_key l = map call_key calls → map tool_call_id l = map tc_id calls.
Proof.
  intros Hk. assert (Hf : map fst (map result_key l) = map fst (map call_key calls)) by by rewrite Hk.
  by rewrite !map_map in Hf.
Qed.

Lemma sequential_acts fuel am st :
  acts (execute_tool_calls_sequential fuel am (message_tool_calls am)) st
    (returns (λ b new _, marks new = map ended_result (b_messages b)
       ∧ answers (message_tool_calls am) (b_messages b))).
Proof.
  eapply acts_bind_ret; [apply sequential_loop_acts|]. intros l new st1 _ _ (Hn & Hk & Hc).
  apply (acts_step _ _ _ (λ b new st', new = [] ∧ (cancelled st1 = true → b = true))).
  { apply acts_is_cancelled. eauto. }
  intros c new' st2 _ _ (-> & Hcc). destruct c.
  - eapply acts_bind_ret; [apply answer_calls_acts|]. intros ms new' st3 _ _ (Hn' & Hk').
    apply acts_ret. cbn [b_messages returns]. rewrite app_nil_r, !marks_app, Hn, Hn', map_app.
    split; [done|]. exists (length l). rewrite map_app, Hk, Hk'.
    by rewrite (result_ids_keys _ _ Hk).
  - apply (acts_bind_ret _ _ _ (λ ms new _, ms = [] ∧ new = [])); [by apply acts_ret|].
    intros ms new' st3 _ _ [-> ->]. apply acts_ret. cbn [b_messages returns].
    rewrite !app_nil_r, Hn. split; [done|]. apply answers_complete.
    rewrite Hk, take_ge; [done|]. destruct (decide (length l < length (message_tool_calls am))%nat) as [Hlt|];
      [|lia]. by specialize (Hcc (Hc Hlt)).
Qed.

(** A future works for a call. *)
Definition works_for (c : ToolCall) (f : ToolFuture) : Prop :=
  match f with
  | FNew p | FTask p _ => call_key (p_call p) = call_key c
  | FEnding f | FReady (Ok f) => call_key (f_call f) = call_key c
  | FReady (Err _) => True
  end.

Lemma prepare_calls_futures am calls : Yields (prepare_calls am calls) (Forall2 works_for calls).
Proof.
  induction calls as [|call calls IH]; simpl; [apply yields_ret; constructor|].
  apply yields_any. intros _.
  apply (yields_bind _ _ _ _ (prepare_key am call)). intros prep Hp.
  apply (yields_bind _ _ (works_for call)).
  { destruct prep; [by apply yields_ret|]. apply yields_any. intros _. by apply yields_ret. }
  intros f Hf. apply (yields_bind _ _ _ _ IH). intros fs Hfs. apply yields_ret. by constructor.
Qed.

Lemma quiet_prepare_calls am calls : Quiet (prepare_calls am calls).
Proof. induction calls; simpl; quiet. Qed.

Lemma step_future_works am c f : works_for c f → Yields (step_future am f) (works_for c).
Proof.
  intros Hf. unfold step_future.
  destruct f as [p|p [q d|q d r|o]|f|r]; try by (apply yields_any; intros ?; apply yields_ret).
  - apply (yields_bind _ _ _ _ (finalize_call am p o)). intros f Hc. apply yields_ret. simpl. congruence.
  - apply yields_any. intros [?|?]; by apply yields_ret.
  - by apply yields_ret.
Qed.

Lemma quiet_step_future am f : Quiet (step_future am f).
Proof. unfold step_future. quiet. Qed.
Hint Resolve quiet_prepare_calls quiet_step_future : quiet.

Lemma quiet_join_all fuel am fs : Quiet (join_all fuel am fs).
Proof. revert fs. induction fuel as [|fuel IH]; intros fs; simpl; quiet. Qed.
Hint Resolve quiet_join_all : quiet.

Lemma all_ready_Some fs rs : all_ready fs = Some rs → fs = map FReady rs.
Proof.
  revert rs. induction fs as [|f fs IH]; simpl; intros rs Hr; [by injection Hr as <-|].
  destruct f; try done. destruct (all_ready fs) as [rs'|]; [|done]. injection Hr as <-.
  simpl. f_equal. by apply IH.
Qed.

Lemma join_all_works fuel am calls fs :
  Forall2 works_for calls fs →
  Yields (join_all fuel am fs) (λ rs, Forall2 (λ c r, works_for c (FReady r)) calls rs).
Proof.
  assert (Hready : ∀ fs rs, Forall2 works_for calls fs → all_ready fs = Some rs →
    Forall2 (λ c r, works_for c (FReady r)) calls rs).
  { intros l rs Hl Hr. apply all_ready_Some in Hr as ->.
    exact (proj1 (Forall2_fmap_r FReady works_for calls rs) Hl). }
  revert fs. induction fuel as [|fuel IH]; intros fs Hfs; simpl;
    destruct (all_ready fs) as [rs|] eqn:Hr; try (apply yields_ret; by eapply Hready).
  - apply yields_out_of_fuel.
  - apply yields_any. intros i'. set (i := choose fs i').
    destruct (fs !! i) as [f|] eqn:Hi; [|by apply IH].
    destruct (Forall2_lookup_r _ _ _ _ _ Hfs Hi) as (c & Hc & Hw).
    apply (yields_bind _ _ _ _ (step_future_works am c f Hw)). intros f' Hf'.
    apply IH. rewrite <-(list_insert_id calls i c Hc). by apply Forall2_insert.
Qed.

Lemma publish_results_acts fs st :
  acts (publish_results fs) st
    (returns (λ ms new _, marks new = map ended_result ms
       ∧ map result_key ms = map call_key (map f_call fs))).
Proof.
  revert st. induction fs as [|f fs IH]; intros st; simpl; [by apply acts_ret|].
  eapply acts_bind_ret; [apply publish_result_acts|]. intros m new st1 _ _ [Hn Hm].
  eapply acts_bind_ret; [apply IH|]. intros ms new' st2 _ _ [Hn' Hm'].
  apply acts_ret. simpl. rewrite app_nil_r, marks_app, Hn, Hn', Hm, Hm'. done.
Qed.

Lemma parallel_acts fuel am calls st :
  acts (execute_tool_calls_parallel fuel am calls) st
    (returns (λ b new _, marks new = map ended_result (b_messages b)
       ∧ answers calls (b_messages b))).
Proof.
  set (R := λ (b : ExecutedToolCallBatch) (l : list mark) (_ : St W),
    l = map ended_result (b_messages b) ∧ answers calls (b_messages b)).
  apply (acts_quiet_bind _ _ _ _ R (quiet_prepare_calls am calls) (prepare_calls_futures am calls)).
  intros fs st1 Hfs.
  apply (acts_quiet_bind _ _ _ _ R (quiet_join_all fuel am fs) (join_all_works fuel am calls fs Hfs)).
  intros rs st2 Hrs. apply (acts_quiet_bind _ _ _ (λ ordered, rmap (λ r, r) rs = Ok ordered) R).
  { quiet. } { intros st3. by destruct (rmap _ rs). }
  intros ordered st3 Hord. eapply acts_bind_ret; [apply publish_results_acts|].
  intros ms new st4 _ _ [Hn Hk]. apply acts_ret. simpl. rewrite app_nil_r. split; [done|].
  apply answers_complete. cbn [b_messages]. rewrite Hk. apply rmap_Forall2 in Hord. clear -Hrs Hord.
  revert ordered Hord. induction Hrs as [|c r calls rs Hc Hrs IH]; intros ordered Hord;
    inversion Hord; subst; simpl; [done|]. f_equal; [done|by apply IH].
Qed.

Lemma execute_tool_calls_acts fuel am st :
  acts (execute_tool_calls fuel am) st
    (returns (λ b new _, marks new = map ended_result (b_messages b)
       ∧ answers (message_tool_calls am) (b_messages b))).
Proof. unfold execute_tool_calls. destruct (_ || _); [apply sequential_acts|apply parallel_acts]. Qed.

(** ** Partial results *)

(** The partial results a running tool published while updates were accepted, and
    those emitted to the sink. *)
Definition published (l : list (bool * action)) : list AgentToolResult :=
  omap (λ x, match x.2 with Published _ r => Some r | _ => None end) l.
Definition updates (l : list (bool * action)) : list AgentToolResult :=
  omap (λ x, match x.2 with Emitted (ToolExecutionUpdate _ _ _ r) => Some r | _ => None end) l.

Lemma published_app l1 l2 : published (l1 ++ l2) = published l1 ++ published l2.
Proof. apply omap_app. Qed.
Lemma updates_app l1 l2 : updates (l1 ++ l2) = updates l1 ++ updates l2.
Proof. apply omap_app. Qed.

(** What is accounted for: the queue before and the results published since are
    the results emitted since and the queue after. *)
Definition accounts (before : list AgentToolResult) (t : ToolTask) (new : list (bool * action)) (st : St W)
    : Prop :=
  match t with
  | Running q d | Closing q d _ => d = None ∧ updates new ++ q = before ++ published new
  | Settled _ => ∃ lost, updates new ++ lost = before ++ published new ∧ (cancelled st = false → lost = [])
  end.

Section delivered.
Hypothesis sink_ok : ∀ e w, (sink W e w).1 = Ok ().

Lemma drain_one_accounts p q st :
  acts (drain_one p q None) st
    (returns (λ d new _, d.2 = None ∧ updates new ++ d.1 = q ∧ published new = [])).
Proof.
  destruct q as [|r q]; [by apply acts_ret|].
  apply (acts_bind_ret _ _ _ (λ x new _, x = Ok () ∧ updates new = [r] ∧ published new = [])).
  - apply acts_try, acts_emit; [by intros|]. intros c err st' _ [w Hw]. by rewrite sink_ok in Hw.
  - intros x new st' _ _ (-> & Hu & Hp). apply acts_ret. simpl. by rewrite app_nil_r, Hu.
Qed.

(** The same, inside a step. *)
Lemma drain_step_accounts p q st (k : list AgentToolResult * option str → ToolTask) :
  (∀ q', k (q', None) = Running q' None) ∨ (∃ r, ∀ q', k (q', None) = Closing q' None r) →
  acts (d ← drain_one p q None; mret (k d)) st (returns (accounts q)).
Proof.
  intros Hk. eapply acts_bind_ret; [apply drain_one_accounts|].
  intros [q' d] new st' _ _ (Hd & Hu & Hp). simpl in Hd, Hu. subst d. apply acts_ret. cbn [returns].
  rewrite app_nil_r. destruct Hk as [-> | [r ->]]; simpl; by rewrite Hp, app_nil_r.
Qed.

Lemma settle_accounts q r st :
  (cancelled st = false → q = []) →
  acts (settle_task None r) st (returns (accounts q)).
Proof.
  intros Hq. unfold settle_task. destruct r as [result|e].
  - apply acts_ret. exists q. by rewrite app_nil_r.
  - apply (acts_step _ _ _ (λ b new st', new = [] ∧ cancelled st' = b ∧ (cancelled st = true → b = true))).
    { apply acts_is_cancelled. intros b st' Hb Hm. exists b. auto. }
    intros c new st' _ _ (-> & Hc & Hm). apply acts_ret. exists q.
    split; [simpl; by rewrite app_nil_r|]. intros Hf. apply Hq. destruct (cancelled st); [|done]. rewrite Hc, Hm in Hf by done. done.
Qed.

Lemma step_accounts p q t st :
  (t = Running q None ∨ ∃ r, t = Closing q None r) →
  acts (step_task p t) st (returns (accounts q)).
Proof.
  intros Ht. destruct Ht as [-> | [r ->]]; unfold step_task.
  - apply (acts_step _ _ _ (λ _ new _, new = [])). { apply acts_is_cancelled. eauto. }
    intros c new st1 _ _ ->. destruct c; [apply acts_ret; simpl; by rewrite app_nil_r|].
    apply (acts_step _ _ _ (λ _ new _, new = [])). { apply acts_host. eauto. }
    intros [partial|r| |] new st2 _ _ ->; cbn [app].
    + apply (acts_step _ _ _ (λ _ new _, new = [])). { apply acts_is_cancelled. eauto. }
      intros c new st3 _ _ ->. destruct c; [apply acts_ret; simpl; by rewrite app_nil_r|]. cbn [app].
      apply (acts_step _ _ _ (λ _ new _, published new = [partial] ∧ updates new = [])).
      { apply acts_log; [done|done|]. intros st' _. by exists (). }
      intros _ new st4 _ _ [Hp Hu]. apply acts_ret. simpl. by rewrite app_nil_r, Hp, Hu.
    + apply acts_ret. simpl. by rewrite app_nil_r.
    + apply (drain_step_accounts p q st2 (λ d, Running d.1 d.2)). by left.
    + apply acts_ret. simpl. by rewrite app_nil_r.
  - apply (acts_step _ _ _ (λ b new st', new = [] ∧ cancelled st' = b)).
    { apply acts_is_cancelled. eauto. }
    intros c new st1 _ _ [-> Hc]. destruct c.
    + apply (acts_step _ _ _ (λ _ new st', new = [] ∧ cancelled st' = true)).
      { apply acts_host. intros a w Hw. exists a. by rewrite Hw. }
      intros sx new st2 _ _ [-> Hc2].
      assert (Hset : acts (settle_task None r) st2 (returns (accounts q)))
        by (apply settle_accounts; congruence).
      destruct sx; try exact Hset. apply (drain_step_accounts p q st2 (λ d, Closing d.1 d.2 r)). eauto.
    + destruct q as [|x q]; [by apply settle_accounts|].
      apply (drain_step_accounts p (x :: q) st1 (λ d, Closing d.1 d.2 r)). eauto.
Qed.

Lemma accounts_app q1 t1 l1 st1 q2 t2 l2 st2 :
  accounts q1 t1 l1 st1 → (t1 = Running q2 None ∨ ∃ r, t1 = Closing q2 None r) →
  accounts q2 t2 l2 st2 → accounts q1 t2 (l1 ++ l2) st2.
Proof.
  intros Ha Ht Hb. assert (H1 : updates l1 ++ q2 = q1 ++ published l1).
  { destruct Ht as [-> | [r ->]]; apply Ha. }
  destruct t2 as [q d|q d r|o]; simpl in *; rewrite updates_app, published_app.
  - destruct Hb as [-> Hb]. split; [done|]. by rewrite <-(assoc_L (++)), Hb, !(assoc_L (++)), H1.
  - destruct Hb as [-> Hb]. split; [done|]. by rewrite <-(assoc_L (++)), Hb, !(assoc_L (++)), H1.
  - destruct Hb as (lost & Hb & Hl). exists lost. split; [|done].
    by rewrite <-(assoc_L (++)), Hb, !(assoc_L (++)), H1.
Qed.

Lemma run_task_accounts fuel p q t st :
  (t = Running q None ∨ ∃ r, t = Closing q None r) →
  acts (run_task fuel p t) st (returns (λ o new st', accounts q (Settled o) new st')).
Proof.
  revert q t st. induction fuel as [|fuel IH]; intros q t st Ht.
  { destruct Ht as [-> | [r ->]]; by apply acts_out_of_fuel. }
  assert (Hs : run_task (S fuel) p t = (t' ← step_task p t; run_task fuel p t')).
  { by destruct Ht as [-> | [r ->]]. }
  rewrite Hs. eapply acts_bind_ret; [by apply step_accounts|].
  intros t' new st1 _ _ Ha.
  destruct t' as [q' d|q' d r|o]; cbn [accounts] in Ha.
  - destruct Ha as [-> Ha]. eapply acts_mono; [apply (IH q'); by left|].
    intros [o|e|] new' st2 _ _ Ho; [|done..]. by eapply (accounts_app _ (Running q' None) _ st1); [split|left|exact Ho].
  - destruct Ha as [-> Ha]. eapply acts_mono; [apply (IH q'); by eauto|].
    intros [o|e|] new' st2 _ _ Ho; [|done..]. eapply (accounts_app _ (Closing q' None r) _ st1); [by split|eauto|exact Ho].
  - replace (run_task fuel p (Settled o)) with (mret (M := M) o) by by destruct fuel.
    apply acts_ret. cbn [returns]. by rewrite app_nil_r.
Qed.
End delivered.

Lemma start_accounts p st :
  acts (start_task p) st (returns (λ t new st', updates new = [] ∧ published new = []
    ∧ (t = Running [] None ∨ (∃ r, t = Closing [] None r) ∨ ∃ o, t = Settled o))).
Proof.
  unfold start_task.
  apply (acts_step _ _ _ (λ r new st', new = [] ∧ (r = Ok () → cancelled st' = false))).
  { apply acts_try. apply (acts_step _ _ _ (λ b new st', new = [] ∧ cancelled st' = b)).
    - apply acts_is_cancelled. eauto.
    - intros [] new st' _ _ (-> & Hc); [apply acts_throw|apply acts_ret]; simpl;
        (eexists; split; [done|]); (split; [done|]); by intros. }
  intros r new st1 _ _ (-> & Hc). destruct r as [[]|e]; [|apply acts_ret; simpl; eauto 6].
  apply (acts_step _ _ _ (λ _ new st', new = [] ∧ cancelled st' = false)).
  { apply acts_host. intros r w Hw. rewrite Hw. eauto. }
  intros r new st2 _ _ (-> & Hc2).
  apply (acts_step _ _ _ (λ _ new st', updates new = [] ∧ published new = [])).
  { apply acts_log; [done|done|]. intros st' _. by exists (). }
  intros _ new st3 _ _ [Hu Hp].
  apply (acts_step _ _ _ (λ _ new _, new = [])). { apply acts_is_cancelled. eauto. }
  intros c new' st4 _ _ ->. destruct c; [apply acts_ret; simpl; rewrite !app_nil_r; eauto 6|].
  destruct (if execution_scope _ _ _ config then r else Ok ()); apply acts_ret; simpl;
    rewrite !app_nil_r; eauto 7.
Qed.
End tools.

(** ** Theorems *)

Section theorems.
Context {X : Externals} {W : Type} {H : Host W}.
Variable config : AgentLoopConfig W (ILease W) (SLease W).

(** With a sink that does not fail, the partial results a tool publishes while
    it runs reach the sink in the order of publication; none is dropped unless the
    token was cancelled, and then only a suffix is. *)
Theorem updates_delivered_in_order fuel p st o st' :
  (∀ e w, (sink W e w).1 = Ok ()) →
  execute_prepared_tool_call config fuel p st = (Returned o, st') →
  ∃ new lost, trace st' = trace st ++ new ∧ updates new ++ lost = published new
              ∧ (cancelled st' = false → lost = []).
Proof.
  intros Hsink Hrun.
  assert (Ha : acts (execute_prepared_tool_call config fuel p) st
    (returns (λ o new st', accounts [] (Settled o) new st'))).
  { eapply acts_bind_ret; [apply start_accounts|]. intros t new st1 _ _ (Hu & Hp & Ht).
    assert (Happ : ∀ o new' (st2 : St W), accounts [] (Settled o) new' st2 → accounts [] (Settled o) (new ++ new') st2).
    { intros o' new' st2 (lost & Hl & Hc). exists lost. by rewrite updates_app, published_app, Hu, Hp. }
    destruct Ht as [Ht|[Ht|[o1 ->]]].
    - eapply acts_mono; [apply run_task_accounts; eauto|]. intros [o'|e|]; cbn [returns]; auto.
    - eapply acts_mono; [apply run_task_accounts; eauto|]. intros [o'|e|]; cbn [returns]; auto.
    - replace (run_task fuel p (Settled o1)) with (mret (M := AgentMonad.M W) o1) by by destruct fuel.
      apply acts_ret. apply Happ. exists []. done. }
  unfold acts in Ha. destruct (wp_run _ _ _ _ _ Ha Hrun) as (new & (Htr & _) & _ & lost & Hl & Hc).
  exists new, lost. auto.
Qed.

(** When an [after_tool_call] hook is installed and the token is cancelled, the
    result recorded for the call is the raw text of the provider abort, whatever
    the tool returned: neither the tool's own result nor the dedicated wording for
    a stopped tool survives. *)
Theorem cancelled_after_hook_overwrites_result prompt tools am p executed hook st :
  after_tool_call _ _ _ config = Some hook → cancelled st = true →
  finalize_executed_tool_call config prompt tools am p executed st
    = (Returned (mkFinalized (p_call p) (create_error_tool_result ABORT_ERROR_MESSAGE) true), st).
Proof.
  intros Hh Hc. destruct executed as [r e]. unfold finalize_executed_tool_call. rewrite Hh.
  unfold mbind, M_bind, current_context, get, try, race_with_abort, is_cancelled, mbind, M_bind.
  by rewrite Hc.
Qed.

(** An unexecuted call counts against the early termination of its batch, so
    leaving it out changes the decision: any batch extended by an aborted call
    does not terminate, while a batch of one executed call that asked for
    termination does. *)
Theorem dropped_error_changes_termination (fs : list FinalizedToolCallOutcome) (call : ToolCall)
    (r : AgentToolResult) :
  should_terminate_tool_batch
    (fs ++ [mkFinalized call (create_error_tool_result TOOL_EXECUTION_ABORTED_MESSAGE) true]) = false
  ∧ should_terminate_tool_batch
      [mkFinalized call (mkResult (r_content r) (r_details r) (r_is_error r) (Some true)) false] = true.
Proof.
  split; [|done]. unfold should_terminate_tool_batch. rewrite forallb_app. simpl.
  by rewrite andb_false_r, andb_false_r.
Qed.
End theorems.
