(* ===== verification/StreamResponse.v ===== *)
(** * The agent loop: one provider request

    [agent_loop.rs] [stream_assistant_response] (2621-2915) and its parts: the
    hooks that prepare the request, the leases of native state attachments with
    their guards, the pump over the provider's events under the stall watchdog
    ([stream_watchdog.rs]), and the message that ends the request, whether
    finished, truncated, stalled or aborted.  The request metrics and the log
    lines are not modelled. *)
From stdpp Require Import base list numbers strings.
From S2P Require Import Prelude RustStr Watchdog AgentTypes AgentMonad.

Local Open Scope N_scope.

(** ** Messages that end a request *)

Section messages.
Context {X : Externals} {W : Type} {ILease SLease : Type}.
Variable config : AgentLoopConfig W ILease SLease.

(** [create_aborted_assistant_message]. *)
Definition create_aborted_assistant_message (partial : option AssistantMessage) (timestamp : Z)
    : AssistantMessage :=
  mkAssistant
    (match partial with Some p => content p | None => [Text (text_new [])] end)
    (match partial with Some p => api p | None => model_api _ _ _ config end)
    (match partial with Some p => provider p | None => model_provider _ _ _ config end)
    (match partial with Some p => am_model p | None => model_id _ _ _ config end)
    None None None
    (match partial with Some p => usage p | None => usage_zero end)
    STOP_REASON_ABORTED None (Some ABORT_ERROR_MESSAGE) timestamp.

(** [create_stream_stall_message]: no content, so that no streamed call is replayed. *)
Definition create_stream_stall_message (partial : option AssistantMessage) (limit : StreamStallLimit)
    (elapsed configured : N) (timestamp : Z) : AssistantMessage :=
  let error := stall_error_message limit elapsed configured in
  mkAssistant []
    (match partial with Some p => api p | None => model_api _ _ _ config end)
    (match partial with Some p => provider p | None => model_provider _ _ _ config end)
    (match partial with Some p => am_model p | None => model_id _ _ _ config end)
    None (partial ≫= response_id)
    (Some [stall_diagnostic error limit elapsed configured (provider_attempt_number _ _ _ config)
             ((λ p, len (content p)) <$> partial)])
    (match partial with Some p => usage p | None => usage_zero end)
    STOP_REASON_ERROR None (Some error) timestamp.

Definition or_config (s fallback : str) : str := if is_empty s then fallback else s.

(** [create_truncated_response_failure]. *)
Definition create_truncated_response_failure (truncated : AssistantMessage) (timestamp : Z)
    : AssistantMessage :=
  let error := lit "Provider response ended at the output length cap (stop_reason " ++ [34]
                 ++ lit "length" ++ [34]
                 ++ lit "); retrying because PRIME_AGENT_RETRY_TRUNCATED_RESPONSE is enabled" in
  mkAssistant []
    (or_config (api truncated) (model_api _ _ _ config))
    (or_config (provider truncated) (model_provider _ _ _ config))
    (or_config (am_model truncated) (model_id _ _ _ config))
    (response_model truncated) (response_id truncated)
    (Some [truncated_diagnostic error (usage truncated) (provider_attempt_number _ _ _ config)])
    (usage truncated) STOP_REASON_ERROR None (Some error) timestamp.

Definition is_failure (m : AssistantMessage) : bool :=
  str_eqb (stop_reason m) STOP_REASON_ERROR || str_eqb (stop_reason m) STOP_REASON_ABORTED.

Definition set_error (m : AssistantMessage) (c : list ContentBlock) (error : str)
    (extra : list Diagnostic) : AssistantMessage :=
  mkAssistant c (api m) (provider m) (am_model m) (response_model m) (response_id m)
    (match extra with
     | [] => diagnostics m
     | _ => Some (default [] (diagnostics m) ++ extra)
     end)
    (usage m) STOP_REASON_ERROR (stop_reason_raw m) (Some error) (am_timestamp m).

(** [require_consumed_inference_state], on the state of the lease. *)
Definition require_consumed_inference_state (m : AssistantMessage)
    (lease : option InferenceStateLeaseState) : AssistantMessage :=
  match lease with
  | Some state =>
      if negb (is_failure m) && match state with LConsumed => false | _ => true end
      then set_error m (content m)
             (lit "Inference state attachment was not consumed; ordinary inference is not a fallback.") []
      else m
  | None => m
  end.

(** [format!("{:?}", lease.state())] in lower case. *)
Definition capture_state_name (s : SourceCaptureState) : str :=
  match s with
  | CPrepared => lit "prepared" | CSubmitted => lit "submitted" | CCaptured => lit "captured"
  | CCancelled => lit "cancelled" | CUncertain => lit "uncertain" | CRetired => lit "retired"
  end.

(** The failure branch of [finalize_source_capture]. *)
Definition capture_failed (m : AssistantMessage) (reason : str) : AssistantMessage :=
  let error := lit "Native source capture/provenance did not complete; handoff and replay are forbidden. ["
                 ++ reason ++ lit "]" in
  let has_text := existsb (λ b, match b with Text t => negb (is_empty (text t)) | _ => false end) (content m) in
  set_error m (if has_text then content m else [Text (text_new error)]) error [capture_diagnostic reason].
End messages.

Section stream.
Context {X : Externals} {W : Type} {H : Host W}.
Variable config : AgentLoopConfig W (ILease W) (SLease W).
Variable prompt : str.
Variable tools : option (list AgentTool).
Local Abbreviation M := (AgentMonad.M W).

(** ** Preparing the request *)

Definition has_state_hooks : bool :=
  match resolve_inference_state _ _ _ config, source_capture _ _ _ config with
  | None, None => false
  | _, _ => true
  end.

(** Up to [llm_context]: the request, its key, the transformed messages and the
    snapshot of newly supplied ones. *)
Definition build_request : M (LlmContext * option str * InferenceStateRequest) :=
  throw_if_aborted;;
  messages ← get context;
  messages ← match transform_context _ _ _ config with
             | Some transform => maybe_abortable (transform messages)
             | None => mret messages
             end;
  fresh ← (if has_state_hooks then take_supplied else mret []);
  llm_messages ← maybe_abortable (match convert_to_llm _ _ _ config with
                                  | Some convert => convert messages
                                  | None => λ w, (Some [], w)
                                  end);
  key ← match get_api_key _ _ _ config with
        | Some hook => maybe_abortable (hook (model_provider _ _ _ config))
        | None => mret None
        end;
  p ← match get_system_prompt _ _ _ config with Some hook => host hook | None => mret prompt end;
  let llm := mkLlm (Some p) llm_messages tools in
  mret (llm, match key with Some k => Some k | None => option_api_key _ _ _ config end,
        mkStateRequest llm messages fresh).

Definition drop_ilease (lease : option (ILease W)) (w : W) : W :=
  match lease with Some l => cancel_ilease W l w | None => w end.
Definition drop_slease (lease : option (SLease W)) (w : W) : W :=
  match lease with Some l => cancel_slease W l w | None => w end.

(** The rest of the request under the [InferenceStateRequestGuard]: a resolver
    replaces the guard of the configured lease, and the last guard is dropped
    when the request is over. *)
Definition with_inference_state {A} (request : InferenceStateRequest)
    (k : option (ILease W) → M A) : M A :=
  let configured := option_inference_state _ _ _ config in
  match resolve_inference_state _ _ _ config with
  | None => finally (k configured) (drop_ilease configured)
  | Some resolve =>
      lease ← finally (race_with_abort (resolve request)) (drop_ilease configured);
      finally (k lease) (drop_ilease lease)
  end.

Definition check_inference_state (lease : option (ILease W)) : M unit :=
  match lease with
  | None => mret ()
  | Some l =>
      if negb (str_eqb (model_api _ _ _ config) API_OPENAI_COMPLETIONS)
      then throw (lit "This provider API does not support inference state attachments.")
      else
        s ← get (λ st, ilease_state W (world st) l);
        match s with
        | LPrepared => mret ()
        | _ => throw (lit "Inference state attachment cannot be replayed.")
        end
  end.

(** Likewise under the [SourceCaptureRequestGuard], which is disarmed when a
    captured request ended without failure. *)
Definition guard_capture (lease : option (SLease W)) (m : M AssistantMessage) : M AssistantMessage := λ st,
  let '(o, st') := m st in
  let transferred :=
    match o, lease with
    | Returned message, Some l =>
        match slease_state W (world st') l with CCaptured => negb (is_failure message) | _ => false end
    | _, _ => false
    end in
  (o, if (transferred : bool) then st' else set_world (drop_slease lease (world st')) st').

Definition with_source_capture (request : InferenceStateRequest)
    (k : option (SLease W) → M AssistantMessage) : M AssistantMessage :=
  let configured := option_source_capture _ _ _ config in
  match source_capture _ _ _ config with
  | None => guard_capture configured (k configured)
  | Some hooks =>
      lease ← finally (race_with_abort (sc_resolve _ _ hooks request)) (drop_slease configured);
      guard_capture lease (k lease)
  end.

Definition check_source_capture (ilease : option (ILease W)) (lease : option (SLease W)) : M unit :=
  match lease with
  | None => mret ()
  | Some l =>
      s ← get (λ st, slease_state W (world st) l);
      if match source_capture _ _ _ config with None => true | Some _ => false end
         || negb (str_eqb (model_api _ _ _ config) API_OPENAI_COMPLETIONS)
         || match ilease with Some _ => true | None => false end
         || match s with CPrepared => false | _ => true end
      then throw (lit "Source capture requires its native completion hooks, an unused lease and no simultaneous receiver attachment.")
      else mret ()
  end.

(** [throw_if_aborted(provider_config.stream.signal)]: a child of the run's token. *)
Definition throw_if_provider_aborted : M unit :=
  c ← is_cancelled;
  p ← host (poll_provider_cancel W);
  if c || p then throw ABORT_ERROR_MESSAGE else mret ().

(** ** Ending the request *)

(** The streaming partial: the context's tail once a [Start] added it. *)
Definition partial_message : M (option AssistantMessage) :=
  get (λ st, if added_partial st
             then match last (context st) with
                  | Some (LlmMessage (Assistant a)) => Some a
                  | _ => None
                  end
             else None).

(** The final message takes the place of the partial, or is pushed and announced;
    then its end is announced. *)
Definition end_message (m : AssistantMessage) : M AssistantMessage :=
  a ← get added_partial;
  (if (a : bool) then set_context (replace_last (of_assistant m))
   else push_context (of_assistant m);; emit_event (MessageStart (of_assistant m)));;
  emit_event (MessageEnd (of_assistant m));;
  mret m.

Definition surface_truncated_response (m : AssistantMessage) : M AssistantMessage :=
  if negb (str_eqb (stop_reason m) STOP_REASON_LENGTH) then mret m
  else
    retry ← host (retry_truncated W);
    if negb retry then mret m
    else now ← host (now_ms W); mret (create_truncated_response_failure config m now).

Definition finalize_source_capture (m : AssistantMessage) (lease : option (SLease W)) : M AssistantMessage :=
  match lease with
  | None => mret m
  | Some l =>
      if is_failure m then mret m
      else
        s ← get (λ st, slease_state W (world st) l);
        match s with
        | CCaptured =>
            match source_capture _ _ _ config with
            | None => mret (capture_failed m (lit "occ3_capture_hooks_missing"))
            | Some hooks =>
                r ← try (race_with_abort (sc_completed _ _ hooks l m));
                s' ← get (λ st, slease_state W (world st) l);
                match r, s' with
                | Ok _, CCaptured => mret m
                | Ok _, _ => mret (capture_failed m (lit "occ3_capture_unverified"))
                | Err error, _ => mret (capture_failed m (take 160 error))
                end
            end
        | s => mret (capture_failed m (lit "occ3_capture_state_" ++ capture_state_name s))
        end
  end.

(** A message that arrived: the truncation, attachment and capture checks, and the
    end of the request. *)
Definition finish_message (ilease : option (ILease W)) (slease : option (SLease W)) (m : AssistantMessage)
    : M AssistantMessage :=
  m ← surface_truncated_response m;
  s ← get (λ st, ilease_state W (world st) <$> ilease);
  m ← finalize_source_capture (require_consumed_inference_state m s) slease;
  end_message m.

Definition abort_stalled_stream (watchdog : StreamWatchdogConfig) (limit : StreamStallLimit)
    : M AssistantMessage :=
  partial ← partial_message;
  elapsed ← host (stall_elapsed W limit);
  host (λ w, ((), close_producer W (cancel_response W w)));;
  now ← host (now_ms W);
  (* A limit fires only when it is configured. *)
  end_message (create_stream_stall_message config partial limit elapsed
                 (default 0 (configured limit watchdog)) now).

(** The [Done] and [Error] arms: the stream's result, or the event's own message
    when the token fires first. *)
Definition terminal_message (event_message : AssistantMessage) : M AssistantMessage :=
  r ← try (maybe_abortable (stream_result W));
  match r with
  | Ok result => mret result
  | Err error =>
      aborted ← is_cancelled;
      if negb aborted || negb (is_abort_error error) then throw error else mret event_message
  end.

(** ** The pump *)

(** The partial message of an update event. *)
Definition update_partial (e : AssistantMessageEvent) : option AssistantMessage :=
  match e with
  | TextStart _ p | TextDelta _ _ p | TextEnd _ _ p | ThinkingStart _ p | ThinkingDelta _ _ p
  | ThinkingEnd _ _ p | ToolCallStart _ p | ToolCallDelta _ _ p | ToolCallEnd _ _ p => Some p
  | _ => None
  end.

Definition aborted_pump {A} : M A :=
  host (λ w, ((), cancel_response W w));; throw ABORT_ERROR_MESSAGE.

Fixpoint pump (fuel : nat) (watchdog : StreamWatchdogConfig)
    (ilease : option (ILease W)) (slease : option (SLease W)) : M AssistantMessage :=
  match fuel with
  | O => out_of_fuel
  | S fuel =>
      late ← host (deadline_passed W);
      if match stream_deadline watchdog with Some _ => late | None => false end
      then abort_stalled_stream watchdog StreamDeadline
      else
        c ← is_cancelled;
        if (c : bool) then aborted_pump
        else
          next ← host (next_event W);
          match next with
          | WCancelled => cancel_seen;; aborted_pump
          | WStall limit => abort_stalled_stream watchdog limit
          | WEvent None => m ← maybe_abortable (stream_result W); finish_message ilease slease m
          | WEvent (Some (Start partial)) =>
              push_context (of_assistant partial);;
              set_added_partial true;;
              emit_event (MessageStart (of_assistant partial));;
              pump fuel watchdog ilease slease
          | WEvent (Some (Done _ message)) | WEvent (Some (ErrorEvent _ message)) =>
              m ← terminal_message message; finish_message ilease slease m
          | WEvent (Some event) =>
              a ← get added_partial;
              match update_partial event with
              | Some partial =>
                  if (a : bool) then
                    set_context (replace_last (of_assistant partial));;
                    emit_event (MessageUpdate (of_assistant partial) event);;
                    pump fuel watchdog ilease slease
                  else pump fuel watchdog ilease slease
              | None => pump fuel watchdog ilease slease
              end
          end
  end.

(** [stream_assistant_response_inner].  A request that the token overtakes before
    it is sent is recorded as sent. *)
Definition stream_assistant_response_inner (fuel : nat) (llm : LlmContext) (key : option str)
    (ilease : option (ILease W)) (slease : option (SLease W)) : M AssistantMessage :=
  (if execution_scope _ _ _ config then
     r ← host (register_stream W); lift r;;
     r ← host (spawn_stream W); lift r
   else mret ());;
  log (Requested llm);;
  race_with_abort (stream_fn W llm key);;
  watchdog ← host (watchdog_config W);
  pump fuel watchdog ilease slease.

Definition stream_assistant_response (fuel : nat) : M AssistantMessage :=
  set_added_partial false;;
  '(llm, key, request) ← build_request;
  with_inference_state request (λ ilease,
    throw_if_aborted;;
    check_inference_state ilease;;
    with_source_capture request (λ slease,
      throw_if_aborted;;
      throw_if_provider_aborted;;
      check_source_capture ilease slease;;
      r ← try (stream_assistant_response_inner fuel llm key ilease slease);
      partial ← partial_message;
      match r with
      | Ok message => mret message
      | Err error =>
          c ← is_cancelled;
          if c && is_abort_error error
          then now ← host (now_ms W); end_message (create_aborted_assistant_message config partial now)
          else throw error
      end)).

(** ** Facts *)

Lemma quiet_push_context m : Quiet (push_context (W := W) m).
Proof. apply quiet_set_context. Qed.
Lemma quiet_maybe_abortable {A} (op : Op W A) : Quiet (maybe_abortable op).
Proof. apply quiet_race. Qed.
Hint Resolve quiet_push_context quiet_maybe_abortable : quiet.

Lemma quiet_build_request : Quiet build_request.
Proof. unfold build_request. cbv zeta. quiet. Qed.
Lemma quiet_check_inference lease : Quiet (check_inference_state lease).
Proof. unfold check_inference_state. quiet. Qed.
Lemma quiet_check_capture il sl : Quiet (check_source_capture il sl).
Proof. unfold check_source_capture. quiet. Qed.
Lemma quiet_surface m : Quiet (surface_truncated_response m).
Proof. unfold surface_truncated_response. quiet. Qed.
Lemma quiet_finalize_capture m lease : Quiet (finalize_source_capture m lease).
Proof. unfold finalize_source_capture. quiet. Qed.
Lemma quiet_terminal m : Quiet (terminal_message m).
Proof. unfold terminal_message. quiet. Qed.
Lemma quiet_partial : Quiet partial_message.
Proof. apply quiet_get. Qed.
Lemma quiet_aborted_pump {A} : Quiet (aborted_pump (A := A)).
Proof. unfold aborted_pump. quiet. Qed.
Hint Resolve quiet_build_request quiet_check_inference quiet_check_capture quiet_surface
  quiet_finalize_capture quiet_terminal quiet_partial quiet_aborted_pump : quiet.

(** A program that returns an assistant message having ended exactly that message,
    or is aborted having ended none. *)
Definition ended (o : outcome AssistantMessage) (new : list (bool * action)) (_ : St W) : Prop :=
  match o with
  | Returned m => marks new = [EndOf (of_assistant m)]
  | Thrown e => e = ABORT_ERROR_MESSAGE → marks new = []
  | OutOfFuel => True
  end.
Definition Ends (m : M AssistantMessage) : Prop := ∀ st, acts m st ended.

Lemma ends_quiet_bind {A} (m : M A) (k : A → M AssistantMessage) :
  Quiet m → (∀ a, Ends (k a)) → Ends (m ≫= k).
Proof.
  intros Hm Hk st. eapply acts_bind; [apply Hm| |by intros e new st' Hn _|done].
  intros a new st' _ _ Hn. eapply acts_mono; [by apply Hk|].
  intros [m'|e|] new' st'' _ _ Ho; simpl in *; rewrite ?marks_app, ?Hn; auto.
Qed.

Lemma ends_aborted_pump : Ends aborted_pump.
Proof. apply ends_quiet_bind; [quiet|]. intros _ st. by apply acts_throw. Qed.

(** A program that neither ends a message nor looks at the token. *)
Definition Steady {A} (m : M A) : Prop :=
  ∀ st, acts m st (λ _ new st', marks new = [] ∧ cancelled st' = cancelled st).

Lemma steady_bind {A B} (m : M A) (k : A → M B) : Steady m → (∀ a, Steady (k a)) → Steady (m ≫= k).
Proof.
  intros Hm Hk st. eapply acts_bind; [apply Hm| |done|done].
  intros a new st' _ _ [Hn Hc]. eapply acts_mono; [apply Hk|].
  intros o new' st'' _ _ [Hn' Hc']. rewrite marks_app, Hn, Hn', Hc'. done.
Qed.
Lemma steady_host {A} (f : W → A * W) : Steady (host f).
Proof. intros st. by apply acts_host. Qed.
Lemma steady_get {A} (f : St W → A) : Steady (get f).
Proof. intros st. by apply acts_get. Qed.
Lemma steady_lift {A} (r : result A str) : Steady (lift r).
Proof. intros st. apply acts_lift. by destruct r. Qed.
Lemma steady_throw {A} e : Steady (throw (A := A) e).
Proof. intros st. by apply acts_throw. Qed.
Lemma steady_ret {A} (a : A) : Steady (mret a).
Proof. intros st. by apply acts_ret. Qed.

Lemma steady_check_capture il sl : Steady (check_source_capture il sl).
Proof.
  unfold check_source_capture. destruct sl; [|apply steady_ret].
  apply steady_bind; [apply steady_get|]. intros state. destruct (_ || _); [apply steady_throw|apply steady_ret].
Qed.

(** What follows a steady head runs with the same token. *)
Lemma acts_steady_bind {A} (m : M A) (k : A → M AssistantMessage) st :
  Steady m → (∀ a st', cancelled st' = cancelled st → acts (k a) st' ended) → acts (m ≫= k) st ended.
Proof.
  intros Hm Hk. eapply acts_bind; [apply Hm| |by intros e new st' [Hn _] _|done].
  intros a new st' _ _ [Hn Hc]. eapply acts_mono; [by apply Hk|].
  intros [m'|e|] new' st'' _ _ Ho; simpl in *; rewrite ?marks_app, ?Hn; auto.
Qed.

(** The last look before the request leaves a live token. *)
Lemma provider_check_live (k : unit → M AssistantMessage) st :
  (∀ st', cancelled st' = false → acts (k ()) st' ended) → acts (throw_if_provider_aborted ≫= k) st ended.
Proof.
  intros Hk. unfold throw_if_provider_aborted.
  eapply (acts_bind _ _ _ (λ o new st', marks new = [] ∧ ∀ a, o = Returned a → cancelled st' = false)).
  - apply (acts_step _ _ _ (λ b new st', new = [] ∧ cancelled st' = b)).
    { apply acts_is_cancelled. eauto. }
    intros c new st1 _ _ (-> & Hc).
    apply (acts_step _ _ _ (λ _ new st', new = [] ∧ cancelled st' = c)).
    { apply acts_host. intros b w Hw. exists b. rewrite Hw. auto. }
    intros b new st2 _ _ (-> & Hc2).
    destruct c; simpl; [by apply acts_throw|]. destruct b; [by apply acts_throw|]. by apply acts_ret.
  - intros [] new st' _ _ [Hn Hc]. eapply acts_mono; [by apply Hk, (Hc ())|].
    intros [m'|e|] new' st'' _ _ Ho; simpl in *; rewrite ?marks_app, ?Hn; auto.
  - by intros e new st' [Hn _] _.
  - done.
Qed.

Lemma ends_finally m cleanup : Ends m → Ends (finally m cleanup).
Proof. intros Hm st. apply acts_finally. apply Hm. Qed.

Lemma ends_guard lease m : Ends m → Ends (guard_capture lease m).
Proof.
  intros Hm st. specialize (Hm st). revert Hm. unfold acts, wp, guard_capture.
  destruct (m st) as [o st']. intros (new & He & Hf & Ho). exists new.
  cbn [fst snd] in *. destruct (match o with Returned _ => _ | _ => _ end); auto.
Qed.

Lemma ends_with_inference request k : (∀ l, Ends (k l)) → Ends (with_inference_state request k).
Proof.
  intros Hk. unfold with_inference_state. destruct (resolve_inference_state _ _ _ config).
  - apply ends_quiet_bind; [quiet|]. intros l. by apply ends_finally.
  - by apply ends_finally.
Qed.

Lemma ends_with_capture request k : (∀ l, Ends (k l)) → Ends (with_source_capture request k).
Proof.
  intros Hk. unfold with_source_capture. destruct (source_capture _ _ _ config).
  - apply ends_quiet_bind; [quiet|]. intros l. by apply ends_guard.
  - by apply ends_guard.
Qed.

Section sink.
(** The event sink never reports the abort error of the loop itself. *)
Hypothesis sink_no_abort : ∀ e w, (sink W e w).1 ≠ Err ABORT_ERROR_MESSAGE.

Lemma ends_end_message m : Ends (end_message m).
Proof.
  apply ends_quiet_bind; [quiet|]. intros a. apply ends_quiet_bind; [quiet|]. intros _ st.
  eapply (acts_bind _ _ _ (λ o new _, match o with
     | Returned _ => marks new = [EndOf (of_assistant m)]
     | Thrown e => e ≠ ABORT_ERROR_MESSAGE | OutOfFuel => True end)).
  - apply acts_emit; [done|]. intros c err st' _ [w Hw] ->. by apply (sink_no_abort _ _ Hw).
  - intros _ new st' _ _ Hn. apply acts_ret. simpl. by rewrite app_nil_r.
  - intros e new st' He. simpl. congruence.
  - done.
Qed.

Lemma ends_finish il sl m : Ends (finish_message il sl m).
Proof. do 3 (apply ends_quiet_bind; [quiet|]; intros ?). apply ends_end_message. Qed.

Lemma ends_stalled w l : Ends (abort_stalled_stream w l).
Proof. do 4 (apply ends_quiet_bind; [quiet|]; intros ?). apply ends_end_message. Qed.

Lemma ends_pump fuel w il sl : Ends (pump fuel w il sl).
Proof.
  induction fuel as [|fuel IH]; simpl; [intros st; by apply acts_out_of_fuel|].
  apply ends_quiet_bind; [quiet|]. intros late.
  match goal with |- Ends (if ?b then _ else _) => destruct b end; [apply ends_stalled|].
  apply ends_quiet_bind; [quiet|]. intros []; [apply ends_aborted_pump|].
  apply ends_quiet_bind; [quiet|]. intros [[e|]| |l].
  - assert (Hup : Ends (a ← get added_partial;
       match update_partial e with
       | Some partial => if (a : bool) then
           set_context (replace_last (of_assistant partial));;
           emit_event (MessageUpdate (of_assistant partial) e);; pump fuel w il sl
           else pump fuel w il sl
       | None => pump fuel w il sl end)).
    { apply ends_quiet_bind; [quiet|]. intros a. destruct (update_partial e); [|apply IH].
      destruct a; [|apply IH]. do 2 (apply ends_quiet_bind; [quiet|]; intros _). apply IH. }
    destruct e; try exact Hup.
    + do 3 (apply ends_quiet_bind; [quiet|]; intros _). apply IH.
    + apply ends_quiet_bind; [quiet|]. intros m. apply ends_finish.
    + apply ends_quiet_bind; [quiet|]. intros m. apply ends_finish.
  - apply ends_quiet_bind; [quiet|]. intros m. apply ends_finish.
  - apply ends_quiet_bind; [quiet|]. intros _. apply ends_aborted_pump.
  - apply ends_stalled.
Qed.

Lemma ends_inner fuel llm key il sl st :
  cancelled st = false → acts (stream_assistant_response_inner fuel llm key il sl) st ended.
Proof.
  intros Hc. apply acts_steady_bind.
  { destruct (execution_scope _ _ _ config); [|apply steady_ret].
    repeat (apply steady_bind; [first [apply steady_host|apply steady_lift]|intros ?]). apply steady_lift. }
  intros _ st1 Hc1.
  eapply acts_bind; [apply acts_log with (Q := λ o new st', marks new = []);
    [by rewrite Hc1, Hc|done|done]| |by intros e new st' Hn _|done].
  intros u new st2 _ _ Hn. eapply acts_mono.
  - refine ((_ : Ends (race_with_abort _;; _)) st2).
    do 2 (apply ends_quiet_bind; [quiet|]; intros ?). by apply ends_pump.
  - intros [m'|e|] new' st'' _ _ Ho; simpl in *; rewrite ?marks_app, ?Hn; auto.
Qed.

(** One provider request ends exactly the message it returns. *)
Lemma ends_stream fuel : Ends (stream_assistant_response fuel).
Proof.
  do 2 (apply ends_quiet_bind; [quiet|]; intros ?). destruct a0 as [[llm key] request].
  apply ends_with_inference. intros il.
  do 2 (apply ends_quiet_bind; [quiet|]; intros ?). apply ends_with_capture. intros sl.
  apply ends_quiet_bind; [quiet|]. intros _ st. apply provider_check_live. intros st1 Hc1.
  apply acts_steady_bind; [apply steady_check_capture|]. intros _ st2 Hc2.
  eapply (acts_bind _ _ _ (λ o new st', match o with
     | Returned (Ok m) => marks new = [EndOf (of_assistant m)]
     | Returned (Err e) => e = ABORT_ERROR_MESSAGE → marks new = []
     | Thrown _ => False | OutOfFuel => True end)); [| |done|done].
  - apply acts_try. eapply acts_mono; [apply ends_inner; congruence|]. by intros [m|e|].
  - intros r new st3 _ _ Hr. eapply acts_step with (Q1 := λ _ new _, new = []);
      [apply acts_get; eauto|]. intros partial new' st4 _ _ ->. destruct r as [m|e].
    + apply acts_ret. simpl. by rewrite app_nil_r.
    + eapply acts_step with (Q1 := λ _ new _, new = []); [apply acts_is_cancelled; eauto|].
      intros c new' st5 _ _ ->.
      destruct (c && is_abort_error e) eqn:Hce.
      * apply andb_true_iff in Hce as [_ Habs]. apply str_eqb_eq in Habs.
        eapply acts_mono; [refine ((_ : Ends (_ ≫= _)) st5); apply ends_quiet_bind; [quiet|];
          intros now; apply ends_end_message|].
        intros [m'|e'|] new' st'' _ _ Ho; simpl in *; rewrite ?marks_app, ?Hr by done; auto.
      * apply acts_throw. simpl. rewrite app_nil_r. exact Hr.
Qed.
End sink.
End stream.
