(* ===== verification/AgentLoop.v ===== *)
(** * The agent loop: runs

    [agent_loop.rs] 764-1167: [run_agent_loop], [run_agent_loop_continue] and
    [run_loop].  A run alternates provider requests and tool batches until nothing
    is left to do, a hook stops it, or the token is cancelled.  The two nested
    loops take fuel, as do the loops of a request and of a tool batch; one number
    bounds the iterations of each. *)
From stdpp Require Import base list numbers strings.
From S2P Require Import Prelude RustStr Watchdog AgentTypes AgentMonad ToolCalls StreamResponse.

Local Open Scope N_scope.

(** The local variables that live across turns. *)
Record LoopState `{X : Externals} : Type := mkLoop {
  first_turn : bool;
  last_turn : option ShouldStopAfterTurnContext;
  request_index : N;
  pending_messages : list AgentMessage }.
Arguments mkLoop {X}.

(** How a turn, or what follows the last turn, goes on. *)
Inductive flow `{X : Externals} : Type :=
| RunOver
| GoOn (has_more_tool_calls : bool) (l : LoopState)
| Break.

Section loop.
Context {X : Externals} {W : Type} {H : Host W}.
Variable config : AgentLoopConfig W (ILease W) (SLease W).
Variable prompt : str.
Variable tools : option (list AgentTool).
(** The bound on the iterations of each loop. *)
Variable fuel : nat.
Local Abbreviation M := (AgentMonad.M W).

Definition emit_agent_end : M unit :=
  ms ← get new_messages; emit_event (AgentEnd ms).

Definition run_over : M flow := emit_agent_end;; mret RunOver.

Definition emit_message (m : AgentMessage) : M unit :=
  emit_event (MessageStart m);; emit_event (MessageEnd m).

(** A drained message enters the run. *)
Definition inject (m : AgentMessage) : M unit :=
  emit_message m;; push_context m;; push_new m.

Definition push_result (r : ToolResultMessage) : M unit :=
  push_context (of_result r);; push_new (of_result r).

(** The closure [should_stop_before_turn]. *)
Definition stop_before_turn (first : bool) : M bool :=
  if first then mret false
  else match should_stop_before_turn _ _ _ config with
       | Some hook => host hook
       | None => mret false
       end.

Definition after_turn_stop (t : ShouldStopAfterTurnContext) : M (option bool) :=
  settle_post_turn (maybe_abortable
    (match should_stop_after_turn _ _ _ config with
     | Some hook => hook t
     | None => λ w, (Some false, w)
     end)).

(** The part of a turn after its [TurnEnd]. *)
Definition settle_turn (l : LoopState) (more : bool) (am : AssistantMessage)
    (results : list ToolResultMessage) : M flow :=
  c ← is_cancelled;
  if (c : bool) then run_over
  else
    t ← get (λ st, mkTurn am results (mkContext prompt (context st) tools) (new_messages st));
    stop ← after_turn_stop t;
    match stop with
    | None => run_over
    | Some stop =>
        b ← (if (stop : bool) then mret true else stop_before_turn (first_turn l));
        if (b : bool) then run_over
        else
          steering ← settle_post_turn (poll_messages_unless_aborted (get_steering_messages _ _ _ config));
          match steering with
          | None => run_over
          | Some pending =>
              b ← (if is_empty pending then stop_before_turn (first_turn l) else mret false);
              if (b : bool) then run_over
              else mret (GoOn more (mkLoop (first_turn l) (Some t) (request_index l) pending))
          end
    end.

(** The results of the calls of a message that did not fail, and whether the
    turn leaves tool calls to follow up. *)
Definition run_tools (am : AssistantMessage) : M (list ToolResultMessage * bool) :=
  if is_empty (message_tool_calls am) then mret ([], false)
  else
    b ← execute_tool_calls config prompt tools fuel am;
    for_each push_result (b_messages b);;
    mret (b_messages b, negb (b_terminate b)).

(** The part of a turn after the provider's message. *)
Definition answer_message (l : LoopState) (am : AssistantMessage) : M flow :=
  push_new (of_assistant am);;
  if is_failure am then
    results ← answer_unexecuted_tool_calls am [];
    for_each push_result results;;
    emit_event (TurnEnd (of_assistant am) results);;
    run_over
  else
    '(results, more) ← run_tools am;
    emit_event (TurnEnd (of_assistant am) results);;
    settle_turn l more am results.

(** One iteration of the inner [while]. *)
Definition turn (l : LoopState) : M flow :=
  throw_if_aborted;;
  (if first_turn l then mret () else emit_event TurnStart);;
  supply (pending_messages l);;
  for_each inject (pending_messages l);;
  match before_request _ _ _ config with
  | Some hook => race_with_abort (hook (request_index l))
  | None => mret ()
  end;;
  am ← stream_assistant_response config prompt tools fuel;
  answer_message (mkLoop false (last_turn l) (request_index l + 1) []) am.

Fixpoint inner_loop (n : nat) (more : bool) (l : LoopState) : M flow :=
  if more || negb (is_empty (pending_messages l)) then
    match n with
    | O => out_of_fuel
    | S n =>
        f ← turn l;
        match f with
        | GoOn more' l' => inner_loop n more' l'
        | f => mret f
        end
    end
  else mret (GoOn false l).

(** What follows the inner loop: follow-ups, then continuations. *)
Definition between_turns (l : LoopState) : M flow :=
  b ← stop_before_turn (first_turn l);
  if (b : bool) then mret Break
  else
    follow_up ← settle_post_turn (poll_messages_unless_aborted (get_follow_up_messages _ _ _ config));
    match follow_up with
    | None => run_over
    | Some (m :: ms) =>
        mret (GoOn true (mkLoop (first_turn l) (last_turn l) (request_index l) (m :: ms)))
    | Some [] =>
        b ← stop_before_turn (first_turn l);
        if (b : bool) then mret Break
        else
          continuation ← match last_turn l with
                         | Some t =>
                             settle_post_turn (maybe_abortable
                               (match get_continuation_messages _ _ _ config with
                                | Some hook => hook t
                                | None => λ w, (Some [], w)
                                end))
                         | None => mret (Some [])
                         end;
          match continuation with
          | None => run_over
          | Some (m :: ms) =>
              mret (GoOn true (mkLoop (first_turn l) (last_turn l) (request_index l) (m :: ms)))
          | Some [] => mret Break
          end
    end.

Fixpoint outer_loop (n : nat) (l : LoopState) : M unit :=
  match n with
  | O => out_of_fuel
  | S n =>
      throw_if_aborted;;
      f ← inner_loop fuel true l;
      match f with
      | GoOn _ l' =>
          f ← between_turns l';
          match f with
          | RunOver => mret ()
          | Break => emit_agent_end
          | GoOn _ l'' => outer_loop n l''
          end
      | _ => mret ()
      end
  end.

Definition run_loop : M unit :=
  pending ← poll_messages_unless_aborted (get_steering_messages _ _ _ config);
  outer_loop fuel (mkLoop true None 0 pending).

(** The run of [run_agent_loop] once the lists are set up. *)
Definition run_prompts (prompts : list AgentMessage) : M (list AgentMessage) :=
  emit_event AgentStart;;
  emit_event TurnStart;;
  for_each emit_message prompts;;
  run_loop;;
  get new_messages.

(** ** What programs produce

    [produces m R]: whenever [m] returns [a], it has appended some messages to the
    run's new messages and some to the pool of newly supplied ones, and announced
    some ends, related by [R] (whose last argument is the new messages at the end). *)

Definition Production (A : Type) : Type :=
  A → list AgentMessage → list AgentMessage → list mark → list AgentMessage → Prop.

Definition produces {A} (m : M A) (R : Production A) : Prop := ∀ st,
  wp m (λ o st', ∃ new, extends st st' new ∧
    match o with
    | Returned a => ∃ ms ins, new_messages st' = new_messages st ++ ms ∧ pool st' = pool st ++ ins
                              ∧ R a ms ins (marks new) (new_messages st')
    | _ => True
    end) st.

Lemma produces_mono {A} (m : M A) (R R' : Production A) :
  produces m R → (∀ a ms ins mk fin, R a ms ins mk fin → R' a ms ins mk fin) → produces m R'.
Proof.
  intros Hm HR st. eapply wp_mono; [apply Hm|].
  intros [a|e|] st' (new & He & Ho); exists new; split; try done.
  destruct Ho as (ms & ins & ? & ? & ?). exists ms, ins. auto.
Qed.

Lemma produces_bind {A B} (m : M A) (k : A → M B) (R1 : Production A) (R : Production B) :
  produces m R1 →
  (∀ a ms ins mk fin, R1 a ms ins mk fin →
     produces (k a) (λ b ms' ins' mk' fin',
       fin' = fin ++ ms' → R b (ms ++ ms') (ins ++ ins') (mk ++ mk') fin')) →
  produces (m ≫= k) R.
Proof.
  intros Hm Hk st. apply wp_bind. eapply wp_mono; [apply Hm|].
  intros [a|e|] st' (new & He & Ho); simpl; [|eauto..].
  destruct Ho as (ms & ins & Hms & Hins & Ha).
  eapply wp_mono; [apply (Hk _ _ _ _ _ Ha)|].
  intros o st'' (new' & He' & Ho'). exists (new ++ new'). split; [by eapply extends_trans|].
  destruct o as [b|e|]; try done. destruct Ho' as (ms' & ins' & Hms' & Hins' & Hb).
  exists (ms ++ ms'), (ins ++ ins'). rewrite marks_app.
  split; [by rewrite Hms', Hms, (assoc_L (++))|]. split; [by rewrite Hins', Hins, (assoc_L (++))|auto].
Qed.

Lemma produces_acts {A} (m : M A) (P : A → list mark → Prop) :
  (∀ st, acts m st (returns (λ a new _, P a (marks new)))) →
  produces m (λ a ms ins mk _, ms = [] ∧ ins = [] ∧ P a mk).
Proof.
  intros Hm st. specialize (Hm st). unfold acts in Hm. eapply wp_mono; [exact Hm|].
  intros o st' (new & He & [Hf1 Hf2] & Ho). exists new. split; [done|].
  destruct o as [a|e|]; try done. exists [], []. rewrite !app_nil_r. auto.
Qed.

Lemma produces_quiet_bind {A B} (m : M A) (k : A → M B) (R : Production B) :
  Quiet m → (∀ a, produces (k a) R) → produces (m ≫= k) R.
Proof.
  intros Hq Hk. eapply produces_bind.
  - apply (produces_acts _ (λ _ mk, mk = [])). intros st. eapply acts_mono; [apply Hq|]. by intros [].
  - intros a ms ins mk fin (-> & -> & ->). eapply produces_mono; [apply Hk|]. auto.
Qed.

Lemma produces_ret {A} (a : A) (R : Production A) : (∀ fin, R a [] [] [] fin) → produces (mret a) R.
Proof.
  intros HR st. exists []. split; [apply extends_refl|]. exists [], []. rewrite !app_nil_r. auto.
Qed.

Lemma produces_push_new m : produces (push_new m) (λ _ ms ins mk _, ms = [m] ∧ ins = [] ∧ mk = []).
Proof.
  intros st. exists []. split; [split; [by rewrite app_nil_r|split; [constructor|done]]|].
  exists [m], []. rewrite app_nil_r. auto.
Qed.

Lemma produces_supply l : produces (supply l) (λ _ ms ins mk _, ms = [] ∧ ins = l ∧ mk = []).
Proof.
  intros st. exists []. split; [split; [by rewrite app_nil_r|split; [constructor|done]]|].
  exists [], l. rewrite app_nil_r. unfold pool. simpl. rewrite (assoc_L (++)). auto.
Qed.

Lemma produces_message_end m :
  produces (emit_event (MessageEnd m)) (λ _ ms ins mk _, ms = [] ∧ ins = [] ∧ mk = [EndOf m]).
Proof. apply (produces_acts _ (λ _ mk, mk = [EndOf m])). intros st. by apply acts_emit. Qed.

Lemma produces_emit_message m :
  produces (emit_message m) (λ _ ms ins mk _, ms = [] ∧ ins = [] ∧ mk = [EndOf m]).
Proof. apply produces_quiet_bind; [quiet|]. intros _. apply produces_message_end. Qed.

Lemma produces_inject m :
  produces (inject m) (λ _ ms ins mk _, ms = [m] ∧ ins = [] ∧ mk = [EndOf m]).
Proof.
  eapply produces_bind; [apply produces_emit_message|]. intros _ ms ins mk fin (-> & -> & ->).
  apply produces_quiet_bind; [quiet|]. intros _. eapply produces_mono; [apply produces_push_new|].
  by intros ????? (-> & -> & ->).
Qed.

Lemma produces_for_each {A} (body : A → M unit) (f : A → list AgentMessage) (g : A → list mark) l :
  (∀ a, produces (body a) (λ _ ms ins mk _, ms = f a ∧ ins = [] ∧ mk = g a)) →
  produces (for_each body l)
    (λ _ ms ins mk _, ms = concat (map f l) ∧ ins = [] ∧ mk = concat (map g l)).
Proof.
  intros Hb. induction l as [|a l IH]; simpl; [by apply produces_ret|].
  eapply produces_bind; [apply Hb|]. intros _ ms ins mk fin (-> & -> & ->).
  eapply produces_mono; [apply IH|]. by intros ????? (-> & -> & ->).
Qed.

Lemma concat_singletons {A B} (f : A → B) l : concat (map (λ a, [f a]) l) = map f l.
Proof. induction l as [|a l IH]; simpl; [done|]. by rewrite IH. Qed.
Lemma concat_nils {A B} (l : list A) : concat (map (λ _, [] : list B) l) = [].
Proof. by induction l. Qed.

Lemma produces_push_results rs :
  produces (for_each push_result rs) (λ _ ms ins mk _, ms = map of_result rs ∧ ins = [] ∧ mk = []).
Proof.
  eapply produces_mono; [apply (produces_for_each _ (λ r, [of_result r]) (λ _, []))|].
  - intros r. apply produces_quiet_bind; [quiet|]. intros _. apply produces_push_new.
  - intros ????? (-> & -> & ->). by rewrite concat_singletons, concat_nils.
Qed.

(** The mark that closes a run. *)
Definition closing (f : flow) (fin : list AgentMessage) : list mark :=
  match f with RunOver => [EndOfRun fin] | _ => [] end.

Lemma produces_agent_end :
  produces emit_agent_end (λ _ ms ins mk fin, ms = [] ∧ ins = [] ∧ mk = [EndOfRun fin]).
Proof.
  intros st. unfold emit_agent_end. apply wp_bind, wp_get. simpl.
  pose proof (acts_emit (AgentEnd (new_messages st)) st
    (returns (λ _ new st', marks new = [EndOfRun (new_messages st)]))) as Ha.
  unfold acts in Ha. eapply wp_mono; [by apply Ha|].
  intros o st' (new & He & [Hf1 Hf2] & Ho). exists new. split; [done|].
  destruct o; try done. exists [], []. rewrite !app_nil_r, Hf1. auto.
Qed.

Definition quietly_ends : Production flow :=
  λ f ms ins mk fin, ms = [] ∧ ins = [] ∧ mk = closing f fin.

Lemma produces_run_over : produces run_over quietly_ends.
Proof.
  eapply produces_bind; [apply produces_agent_end|]. intros _ ms ins mk fin (-> & -> & ->).
  apply produces_ret. intros fin' ->. unfold quietly_ends. simpl. by rewrite app_nil_r.
Qed.

Lemma quiet_settle_post_turn {A} (m : M A) : Quiet m → Quiet (settle_post_turn m).
Proof. intros Hm. unfold settle_post_turn. quiet. Qed.
Lemma quiet_poll p : Quiet (poll_messages_unless_aborted (W := W) p).
Proof. unfold poll_messages_unless_aborted, maybe_abortable. quiet. Qed.
Lemma quiet_stop_before b : Quiet (stop_before_turn b).
Proof. unfold stop_before_turn. quiet. Qed.
Lemma quiet_after_turn t : Quiet (after_turn_stop t).
Proof. unfold after_turn_stop, maybe_abortable. apply quiet_settle_post_turn. quiet. Qed.
Hint Resolve quiet_settle_post_turn quiet_poll quiet_stop_before quiet_after_turn quiet_push_context : quiet.

Lemma produces_settle_turn l more am results :
  produces (settle_turn l more am results) (λ f ms ins mk fin, quietly_ends f ms ins mk fin ∧ f ≠ Break).
Proof.
  assert (Hover : produces run_over (λ f ms ins mk fin, quietly_ends f ms ins mk fin ∧ f ≠ Break)).
  { eapply produces_bind; [apply produces_agent_end|]. intros _ ms ins mk fin (-> & -> & ->).
    apply produces_ret. intros fin' ->. split; [|done]. unfold quietly_ends. simpl. by rewrite app_nil_r. }
  unfold settle_turn. apply produces_quiet_bind; [quiet|]. intros []; [done|].
  apply produces_quiet_bind; [quiet|]. intros t.
  apply produces_quiet_bind; [quiet|]. intros [stop|]; [|done].
  apply produces_quiet_bind; [quiet|]. intros []; [done|].
  apply produces_quiet_bind; [quiet|]. intros [pending|]; [|done].
  apply produces_quiet_bind; [quiet|]. intros []; [done|]. by apply produces_ret.
Qed.

Lemma produces_run_tools am :
  produces (run_tools am) (λ x ms ins mk _, ms = map of_result x.1 ∧ ins = []
    ∧ mk = map ended_result x.1 ∧ answers (message_tool_calls am) x.1).
Proof.
  unfold run_tools. destruct (is_empty _) eqn:Hempty.
  - apply produces_ret. intros _. repeat split. apply answers_complete.
    by destruct (message_tool_calls am).
  - eapply produces_bind.
    { apply (produces_acts _ (λ b mk, mk = map ended_result (b_messages b)
        ∧ answers (message_tool_calls am) (b_messages b))). intros st. apply execute_tool_calls_acts. }
    intros b ms ins mk fin (-> & -> & -> & Ha).
    eapply produces_bind; [apply produces_push_results|]. intros _ ms ins mk fin' (-> & -> & ->).
    apply produces_ret. intros fin'' _ _. simpl. by rewrite !app_nil_r.
Qed.

(** ** Turns *)

(** One turn of a run: the messages injected, the provider's reply, and the
    results of its tool calls. *)
Record Turn : Type := mkTurnOf {
  inputs : list AgentMessage;
  reply : AssistantMessage;
  results : list ToolResultMessage }.

Definition turn_messages (t : Turn) : list AgentMessage :=
  inputs t ++ of_assistant (reply t) :: map of_result (results t).

Definition turn_ok (t : Turn) : Prop := answers (message_tool_calls (reply t)) (results t).

Lemma produces_answer l am :
  produces (answer_message l am) (λ f ms ins mk fin, ∃ rs,
    ms = of_assistant am :: map of_result rs ∧ ins = [] ∧ answers (message_tool_calls am) rs
    ∧ mk = map ended_result rs ++ closing f fin ∧ f ≠ Break).
Proof.
  eapply produces_bind; [apply produces_push_new|]. intros _ ms ins mk fin (-> & -> & ->).
  destruct (is_failure am).
  - eapply produces_bind.
    { apply (produces_acts _ (λ rs mk, mk = map ended_result rs
        ∧ answers (message_tool_calls am) rs)). intros st.
      eapply acts_mono; [apply answer_calls_acts|]. intros [rs|e|] new st' _ _; [|done..].
      intros [Hn Hk]. split; [done|]. exists O. by rewrite take_0. }
    intros rs ms ins mk fin1 (-> & -> & -> & Ha).
    eapply produces_bind; [apply produces_push_results|]. intros _ ms ins mk fin2 (-> & -> & ->).
    apply produces_quiet_bind; [quiet|]. intros _.
    eapply produces_bind; [apply produces_agent_end|]. intros _ ms ins mk fin3 (-> & -> & ->).
    apply produces_ret. intros fin4 -> _ _ _. exists rs. simpl. by rewrite !app_nil_r.
  - eapply produces_bind; [apply produces_run_tools|].
    intros [rs more] ms ins mk fin1 (-> & -> & -> & Ha). cbn [fst] in *.
    apply produces_quiet_bind; [quiet|]. intros _.
    eapply produces_mono; [apply produces_settle_turn|].
    intros f ms ins mk fin2 [(-> & -> & ->) Hb] _ _. exists rs. simpl. by rewrite !app_nil_r.
Qed.

(** What a sequence of turns produces. *)
Definition turns_produce (f : flow) : Production (list Turn) := λ ts ms ins mk fin,
  ms = concat (map turn_messages ts) ∧ ins = concat (map inputs ts) ∧ Forall turn_ok ts
  ∧ mk = map EndOf ms ++ closing f fin.

Section sink.
Hypothesis sink_no_abort : ∀ e w, (sink W e w).1 ≠ Err ABORT_ERROR_MESSAGE.

Lemma produces_turn l :
  produces (turn l) (λ f ms ins mk fin, ∃ t, inputs t = pending_messages l
    ∧ turns_produce f [t] ms ins mk fin ∧ f ≠ Break).
Proof.
  apply produces_quiet_bind; [quiet|]. intros _. apply produces_quiet_bind; [quiet|]. intros _.
  eapply produces_bind; [apply produces_supply|]. intros _ ms ins mk fin (-> & -> & ->).
  eapply produces_bind; [apply (produces_for_each _ (λ m, [m]) (λ m, [EndOf m])), produces_inject|].
  intros _ ms ins mk fin1 (-> & -> & ->). rewrite !concat_singletons, map_id.
  apply produces_quiet_bind; [quiet|]. intros _.
  eapply produces_bind.
  { apply (produces_acts _ (λ am mk, mk = [EndOf (of_assistant am)])). intros st.
    eapply acts_mono; [by apply ends_stream|]. by intros []. }
  intros am ms ins mk fin2 (-> & -> & ->).
  eapply produces_mono; [apply produces_answer|].
  intros f ms ins mk fin3 (rs & -> & -> & Ha & -> & Hb) _ _ _.
  exists (mkTurnOf (pending_messages l) am rs). split; [done|]. split; [|done].
  unfold turns_produce, turn_messages. simpl. rewrite !app_nil_r.
  split; [done|]. split; [done|]. split; [by repeat constructor|].
  rewrite map_app. simpl. unfold ended_result. rewrite map_map, <-(assoc_L (++)). done.
Qed.

Lemma turns_produce_app f ts1 ts2 ms1 ms2 ins1 ins2 mk1 mk2 fin1 fin2 f1 :
  closing f1 fin1 = [] →
  turns_produce f1 ts1 ms1 ins1 mk1 fin1 → turns_produce f ts2 ms2 ins2 mk2 fin2 →
  turns_produce f (ts1 ++ ts2) (ms1 ++ ms2) (ins1 ++ ins2) (mk1 ++ mk2) fin2.
Proof.
  intros Hc (-> & -> & Ho1 & ->) (-> & -> & Ho2 & ->). rewrite Hc, app_nil_r. unfold turns_produce.
  rewrite !map_app, !concat_app. split; [done|]. split; [done|]. split; [by apply Forall_app|].
  by rewrite (assoc_L (++)).
Qed.

Lemma produces_inner n more l :
  produces (inner_loop n more l) (λ f ms ins mk fin, ∃ ts, turns_produce f ts ms ins mk fin ∧ f ≠ Break).
Proof.
  revert more l. induction n as [|n IH]; intros more l; simpl; destruct (more || _).
  - intros st. exists []. split; [apply extends_refl|done].
  - apply produces_ret. intros fin. exists []. by repeat constructor.
  - eapply produces_bind; [apply produces_turn|]. intros f ms ins mk fin (t & _ & Ht & Hb).
    destruct f as [|more' l'|]; [| |done].
    + apply produces_ret. intros fin' ->. exists [t]. split; [|done]. by rewrite !app_nil_r.
    + eapply produces_mono; [apply IH|]. intros f ms' ins' mk' fin' (ts & Hts & Hb') _.
      exists ([t] ++ ts). split; [|done]. by eapply turns_produce_app; [|exact Ht|exact Hts].
  - apply produces_ret. intros fin. exists []. by repeat constructor.
Qed.

Lemma produces_between l : produces (between_turns l) quietly_ends.
Proof.
  unfold between_turns. apply produces_quiet_bind; [quiet|]. intros []; [by apply produces_ret|].
  apply produces_quiet_bind; [quiet|].
  intros [[|m ms]|]; [|by apply produces_ret|apply produces_run_over].
  apply produces_quiet_bind; [quiet|]. intros []; [by apply produces_ret|].
  apply produces_quiet_bind.
  { destruct (last_turn l); [apply quiet_settle_post_turn; unfold maybe_abortable|]; quiet. }
  intros [[|m ms]|]; [by apply produces_ret|by apply produces_ret|apply produces_run_over].
Qed.

Lemma produces_outer n l :
  produces (outer_loop n l) (λ _ ms ins mk fin, ∃ ts, turns_produce RunOver ts ms ins mk fin).
Proof.
  revert l. induction n as [|n IH]; intros l; simpl.
  { intros st. exists []. split; [apply extends_refl|done]. }
  apply produces_quiet_bind; [quiet|]. intros _.
  eapply produces_bind; [apply produces_inner|]. intros f ms ins mk fin (ts & Hts & Hb).
  destruct f as [|more' l'|]; [| |done].
  { apply produces_ret. intros fin' ->. exists ts. by rewrite !app_nil_r. }
  eapply produces_bind; [apply produces_between|]. intros f ms' ins' mk' fin1 (-> & -> & ->).
  destruct f as [|more'' l''|].
  - apply produces_ret. intros fin2 E1 E2. exists ts. rewrite !app_nil_r in *. subst.
    destruct Hts as (-> & -> & Ho & ->). simpl. by rewrite app_nil_r.
  - eapply produces_mono; [apply IH|]. intros _ ms2 ins2 mk2 fin2 (ts2 & Hts2) _ _.
    exists (ts ++ ts2). by eapply turns_produce_app; [|exact Hts|exact Hts2].
  - eapply produces_mono; [apply produces_agent_end|]. intros _ ms2 ins2 mk2 fin2 (-> & -> & ->) _ _.
    exists (ts ++ []). eapply turns_produce_app; [| exact Hts |by repeat constructor]. done.
Qed.

Lemma produces_run_loop :
  produces run_loop (λ _ ms ins mk fin, ∃ ts, turns_produce RunOver ts ms ins mk fin).
Proof. apply produces_quiet_bind; [quiet|]. intros p. apply produces_outer. Qed.
End sink.
End loop.

(** ** Entry points *)

Section entry.
Context {X : Externals} {W : Type} {H : Host W}.
Variable config : AgentLoopConfig W (ILease W) (SLease W).

(** [run_agent_loop]: the prompts are the first new messages, the first newly
    supplied ones, and extend the context. *)
Definition run_agent_loop (fuel : nat) (prompts : list AgentMessage) (cx : AgentContext) (w : W)
    : outcome (list AgentMessage) * St W :=
  run_prompts config (system_prompt cx) (cx_tools cx) fuel prompts
    (mkSt w false (cx_messages cx ++ prompts) prompts prompts false []).

Definition ends_with_assistant (messages : list AgentMessage) : bool :=
  match last messages with Some m => str_eqb (role m) (lit "assistant") | None => false end.

Definition run_agent_loop_continue (fuel : nat) (cx : AgentContext) (w : W)
    : outcome (list AgentMessage) * St W :=
  let st := mkSt w false (cx_messages cx) [] [] false [] in
  if is_empty (cx_messages cx) then (Thrown (lit "Cannot continue: no messages in context"), st)
  else if ends_with_assistant (cx_messages cx)
  then (Thrown (lit "Cannot continue from message role: assistant"), st)
  else run_prompts config (system_prompt cx) (cx_tools cx) fuel [] st.
End entry.

(** ** Theorems *)

Section theorems.
Context {X : Externals} {W : Type} {H : Host W}.
Variable config : AgentLoopConfig W (ILease W) (SLease W).

(** Everything a completed run says about itself. *)
Lemma run_prompts_returned prompt tools fuel prompts st ms st' :
  (∀ e w, (sink W e w).1 ≠ Err ABORT_ERROR_MESSAGE) →
  run_prompts config prompt tools fuel prompts st = (Returned ms, st') →
  ∃ ts, ms = new_messages st ++ concat (map turn_messages ts) ∧ Forall turn_ok ts
    ∧ (∃ new, extends st st' new
         ∧ marks new = map EndOf (prompts ++ concat (map turn_messages ts)) ++ [EndOfRun ms])
    ∧ pool st' = pool st ++ concat (map inputs ts).
Proof.
  intros Hsink Hrun.
  assert (Hp : produces (run_prompts config prompt tools fuel prompts) (λ ms' ms ins mk fin,
    ms' = fin ∧ ∃ ts, turns_produce RunOver ts ms ins
      (map EndOf (concat (map turn_messages ts)) ++ [EndOfRun fin]) fin
      ∧ mk = map EndOf (prompts ++ concat (map turn_messages ts)) ++ [EndOfRun fin])).
  { do 2 (apply produces_quiet_bind; [quiet|]; intros _).
    eapply produces_bind; [apply (produces_for_each _ (λ _, []) (λ m, [EndOf m])), produces_emit_message|].
    intros _ ms1 ins1 mk1 fin1 (-> & -> & ->). rewrite concat_nils, concat_singletons.
    eapply produces_bind; [by apply produces_run_loop|]. intros _ ms1 ins1 mk1 fin2 (ts & Hts).
    intros st1. apply wp_get. exists []. split; [apply extends_refl|]. exists [], []. rewrite !app_nil_r.
    split; [done|]. split; [done|]. intros Hf _. split; [done|].
    exists ts. destruct Hts as (-> & -> & Ho & ->). simpl. rewrite Hf.
    split; [by repeat split|]. by rewrite map_app, (assoc_L (++)). }
  destruct (wp_run _ _ _ _ _ (Hp st) Hrun) as (new & He & ms1 & ins & Hms & Hins & -> & ts & Hts & Hmk).
  destruct Hts as (-> & -> & Ho & _). exists ts. rewrite <-Hms. split; [done|]. split; [done|].
  split; [|done]. exists new. by rewrite Hmk.
Qed.

(** C1: a run that returns has answered every tool call of every assistant message
    it produced.  Its messages are the prompts followed by whole turns, each being
    the injected messages, one reply, and the results of the reply's calls: one
    per call, in order, with the call's id and name, when the ids of the reply's
    calls differ.  The prompts and the injected messages are exactly the newly
    supplied ones: those handed to the native state hooks, each once and in order,
    followed by those still waiting; no reply, result or history is among them. *)
Theorem run_answers_every_call fuel prompts cx w ms st' :
  (∀ e w, (sink W e w).1 ≠ Err ABORT_ERROR_MESSAGE) →
  run_agent_loop config fuel prompts cx w = (Returned ms, st') →
  ∃ ts, ms = prompts ++ concat (map turn_messages ts)
    ∧ supplied (trace st') ++ newly_supplied st' = prompts ++ concat (map inputs ts)
    ∧ ∀ t, t ∈ ts → NoDup (map tc_id (message_tool_calls (reply t))) →
        map result_key (results t) = map call_key (message_tool_calls (reply t)).
Proof.
  intros Hsink Hrun.
  destruct (run_prompts_returned _ _ _ _ _ _ _ Hsink Hrun) as (ts & Hms & Hok & _ & Hpool).
  exists ts. split; [exact Hms|]. split; [exact Hpool|]. intros t Ht Hnd. apply answers_nodup; [done|].
  rewrite Forall_forall in Hok. by apply Hok.
Qed.

(** C29: the event stream of a run that returns announces the end of every message
    it returns, once and in order, and then the end of the run, carrying exactly
    the returned messages. *)
Theorem run_announces_messages fuel prompts cx w ms st' :
  (∀ e w, (sink W e w).1 ≠ Err ABORT_ERROR_MESSAGE) →
  run_agent_loop config fuel prompts cx w = (Returned ms, st') →
  marks (trace st') = map EndOf ms ++ [EndOfRun ms] ∧ new_messages st' = ms.
Proof.
  intros Hsink Hrun. pose proof Hrun as Hrun'.
  destruct (run_prompts_returned _ _ _ _ _ _ _ Hsink Hrun) as (ts & -> & _ & (new & He & Hmk) & _).
  destruct He as (Htr & _ & _). simpl in Htr. rewrite Htr. split; [by rewrite Hmk|].
  unfold run_agent_loop, run_prompts in Hrun'. clear -Hrun'.
  revert Hrun'. unfold mbind, M_bind at 1 2 3 4.
  repeat (case_match; try done). intros Hg. injection Hg as Hg1 Hg2. by subst.
Qed.

(** C30: however a run ends, it asked the provider and started tools only while the
    loop had not seen the token cancelled; nothing is requested or executed after
    that. *)
Theorem run_respects_cancellation fuel prompts cx w :
  (∀ e w, (sink W e w).1 ≠ Err ABORT_ERROR_MESSAGE) →
  Forall safe (trace (run_agent_loop config fuel prompts cx w).2).
Proof.
  intros Hsink. unfold run_agent_loop.
  set (st := mkSt w false (cx_messages cx ++ prompts) prompts prompts false []).
  assert (Hp : produces (run_prompts config (system_prompt cx) (cx_tools cx) fuel prompts) (λ _ _ _ _ _, True)).
  { do 2 (apply produces_quiet_bind; [quiet|]; intros _).
    eapply produces_bind; [apply (produces_for_each _ (λ _, []) (λ m, [EndOf m])), produces_emit_message|].
    intros. eapply produces_bind; [by apply produces_run_loop|]. intros.
    intros st1. apply wp_get. exists []. split; [apply extends_refl|]. exists [], [].
    by rewrite !app_nil_r. }
  destruct (Hp st) as (new & (Htr & Hsafe & _) & _). by rewrite Htr.
Qed.
End theorems.
