(* ===== verification/AgentFuel.v ===== *)
(** * The agent loop: fuel

    More fuel never changes a run that did not run out of it: the fuel of the
    loops of [ToolCalls], [StreamResponse] and [AgentLoop] only bounds how far an
    execution is followed. *)
From stdpp Require Import base list numbers strings.
From S2P Require Import Prelude RustStr Watchdog AgentTypes AgentMonad ToolCalls StreamResponse AgentLoop.

Create HintDb fuel.

Section refinement.
Context {X : Externals} {W : Type} {H : Host W}.
Local Abbreviation M := (AgentMonad.M W).

(** [m'] does what [m] does wherever [m] does not run out of fuel. *)
Definition refines {A} (m m' : M A) : Prop := ∀ st, (m st).1 ≠ OutOfFuel → m' st = m st.

Lemma refines_refl {A} (m : M A) : refines m m.
Proof. by intros st _. Qed.

Lemma refines_out_of_fuel {A} (m : M A) : refines out_of_fuel m.
Proof. by intros st []. Qed.

Lemma refines_bind {A B} (m m' : M A) (k k' : A → M B) :
  refines m m' → (∀ a, refines (k a) (k' a)) → refines (m ≫= k) (m' ≫= k').
Proof.
  intros Hm Hk st. unfold mbind, M_bind. specialize (Hm st).
  destruct (m st) as [[a|e|] st1]; simpl in *; intros Ho.
  - rewrite Hm by done. by apply Hk.
  - by rewrite Hm.
  - done.
Qed.

Lemma refines_try {A} (m m' : M A) : refines m m' → refines (try m) (try m').
Proof.
  intros Hm st. specialize (Hm st). unfold try. destruct (m st) as [[a|e|] st1]; simpl in *;
    intros Ho; [by rewrite Hm..|done].
Qed.

Lemma refines_finally {A} (m m' : M A) cleanup : refines m m' → refines (finally m cleanup) (finally m' cleanup).
Proof.
  intros Hm st. specialize (Hm st). unfold finally. destruct (m st) as [o st1]; simpl in *.
  intros Ho. by rewrite Hm.
Qed.

Lemma refines_guard lease (m m' : M AssistantMessage) :
  refines m m' → refines (guard_capture lease m) (guard_capture lease m').
Proof.
  intros Hm st. specialize (Hm st). unfold guard_capture. destruct (m st) as [o st1]; simpl in *.
  intros Ho. by rewrite Hm.
Qed.

End refinement.

#[export] Hint Resolve refines_refl refines_out_of_fuel refines_try refines_finally refines_guard : fuel.

Ltac refine_step :=
  repeat first
    [ progress intros
    | solve [eauto with fuel]
    | match goal with |- refines (_ ≫= _) (_ ≫= _) => apply refines_bind end
    | match goal with |- refines (match ?x with _ => _ end) (match ?x with _ => _ end) => destruct x end ].

Section fuel.
Context {X : Externals} {W : Type} {H : Host W}.
Variable config : AgentLoopConfig W (ILease W) (SLease W).
Variable prompt : str.
Variable tools : option (list AgentTool).
Local Abbreviation M := (AgentMonad.M W).

Lemma run_task_fuel n m p t : (n ≤ m)%nat → refines (run_task n p t) (run_task m p t).
Proof.
  revert m t. induction n as [|n IH]; intros [|m] t Hle; simpl; [|destruct t; refine_step|lia|].
  - refine_step.
  - assert (∀ t, refines (run_task n p t) (run_task m p t)) by (intros; apply IH; lia). refine_step.
Qed.

Lemma join_all_fuel n m am fs : (n ≤ m)%nat →
  refines (join_all config prompt tools n am fs) (join_all config prompt tools m am fs).
Proof.
  revert m fs. induction n as [|n IH]; intros [|m] fs Hle; simpl; [|destruct (all_ready fs); refine_step|lia|].
  - refine_step.
  - assert (∀ fs, refines (join_all config prompt tools n am fs) (join_all config prompt tools m am fs))
      by (intros; apply IH; lia). refine_step.
Qed.

Lemma pump_fuel a b wd il sl : (a ≤ b)%nat → refines (pump config a wd il sl) (pump config b wd il sl).
Proof.
  revert b. induction a as [|a IH]; intros [|b] Hle; simpl; [refine_step..|lia|].
  assert (refines (pump config a wd il sl) (pump config b wd il sl)) by (apply IH; lia). refine_step.
Qed.

Section more.
Variables n m : nat.
Hypothesis Hnm : (n ≤ m)%nat.

Lemma tool_calls_fuel am :
  refines (execute_tool_calls config prompt tools n am) (execute_tool_calls config prompt tools m am).
Proof.
  assert (Htask : ∀ p t, refines (run_task n p t) (run_task m p t)) by (intros; by apply run_task_fuel).
  assert (Hjoin : ∀ fs, refines (join_all config prompt tools n am fs) (join_all config prompt tools m am fs))
    by (intros; by apply join_all_fuel).
  assert (Hcall : ∀ call, refines (run_call config prompt tools n am call) (run_call config prompt tools m am call)).
  { intros call. unfold run_call, finalize_preparation, execute_prepared_tool_call. refine_step. }
  assert (Hloop : ∀ calls, refines (sequential_loop config prompt tools n am calls)
                                   (sequential_loop config prompt tools m am calls)).
  { induction calls; simpl; refine_step. }
  unfold execute_tool_calls, execute_tool_calls_sequential, execute_tool_calls_parallel. cbv zeta. refine_step.
Qed.

Lemma stream_fuel :
  refines (stream_assistant_response config prompt tools n) (stream_assistant_response config prompt tools m).
Proof.
  assert (Hinner : ∀ llm key il sl,
    refines (stream_assistant_response_inner config n llm key il sl)
            (stream_assistant_response_inner config m llm key il sl)).
  { intros. unfold stream_assistant_response_inner.
    assert (∀ wd, refines (pump config n wd il sl) (pump config m wd il sl)) by (intros; by apply pump_fuel).
    refine_step. }
  assert (Hcap : ∀ r (k k' : option (SLease W) → M AssistantMessage), (∀ l, refines (k l) (k' l)) →
    refines (with_source_capture config r k) (with_source_capture config r k')).
  { intros r k k' Hk. unfold with_source_capture. refine_step. }
  assert (Hinf : ∀ r (k k' : option (ILease W) → M AssistantMessage), (∀ l, refines (k l) (k' l)) →
    refines (with_inference_state config r k) (with_inference_state config r k')).
  { intros r k k' Hk. unfold with_inference_state. cbv zeta. refine_step. }
  unfold stream_assistant_response. do 2 (apply refines_bind; [refine_step|]; intros ?).
  destruct a0 as [[llm key] request]. apply Hinf. intros il.
  do 2 (apply refines_bind; [refine_step|]; intros ?). apply Hcap. intros sl. refine_step.
Qed.

Lemma turn_fuel l : refines (turn config prompt tools n l) (turn config prompt tools m l).
Proof.
  pose proof stream_fuel as Hs. pose proof tool_calls_fuel as Ht.
  assert (Ha : ∀ l am, refines (answer_message config prompt tools n l am) (answer_message config prompt tools m l am)).
  { intros. unfold answer_message, run_tools. refine_step. }
  unfold turn. refine_step.
Qed.

Lemma inner_loop_fuel a b more l : (a ≤ b)%nat →
  refines (inner_loop config prompt tools n a more l) (inner_loop config prompt tools m b more l).
Proof.
  pose proof turn_fuel as Ht. revert b more l.
  induction a as [|a IH]; intros [|b] more l Hle; simpl; [refine_step..|lia|].
  assert (∀ more l, refines (inner_loop config prompt tools n a more l) (inner_loop config prompt tools m b more l))
    by (intros; apply IH; lia). refine_step.
Qed.

Lemma outer_loop_fuel a b l : (a ≤ b)%nat →
  refines (outer_loop config prompt tools n a l) (outer_loop config prompt tools m b l).
Proof.
  revert b l. induction a as [|a IH]; intros [|b] l Hle; simpl; [refine_step..|lia|].
  assert (∀ l, refines (inner_loop config prompt tools n n true l) (inner_loop config prompt tools m m true l))
    by (intros; by apply inner_loop_fuel).
  assert (∀ l, refines (outer_loop config prompt tools n a l) (outer_loop config prompt tools m b l))
    by (intros; apply IH; lia). refine_step.
Qed.

Lemma run_prompts_fuel prompts :
  refines (run_prompts config prompt tools n prompts) (run_prompts config prompt tools m prompts).
Proof.
  assert (∀ l, refines (outer_loop config prompt tools n n l) (outer_loop config prompt tools m m l))
    by (intros; by apply outer_loop_fuel).
  unfold run_prompts, run_loop. refine_step.
Qed.
End more.
End fuel.

(** A run that returns or throws with some fuel does exactly the same with any
    more, so the bound on the loops is not visible in its outcome, its messages or
    its trace. *)
Theorem run_fuel_irrelevant `{X : Externals} {W : Type} {H : Host W}
    (config : AgentLoopConfig W (ILease W) (SLease W)) n m prompts cx w :
  (n ≤ m)%nat → (run_agent_loop config n prompts cx w).1 ≠ OutOfFuel →
  run_agent_loop config m prompts cx w = run_agent_loop config n prompts cx w.
Proof. intros Hnm Ho. by apply run_prompts_fuel. Qed.
