(* ===== verification/AgentTermination.v ===== *)
(** * The agent loop: termination

    The loops of [ToolCalls], [StreamResponse] and [AgentLoop] end by themselves as
    soon as the host does.  A measure [mu] of what the host still has to offer (the
    events of the provider, the moves of the tools, the requests it accepts) goes
    down with every iteration, so a run against a host that offers finitely much
    returns or throws: some fuel is enough, and by [AgentFuel] any more is too. *)
From stdpp Require Import base list numbers strings.
From S2P Require Import Prelude RustStr Watchdog AgentTypes AgentMonad ToolCalls StreamResponse AgentLoop AgentFuel.

Create HintDb calm.

(** Events that end the pump. *)
Definition ends_pump `{X : Externals} (n : WatchdogNext) : bool :=
  match n with
  | WEvent None | WCancelled | WStall _ | WEvent (Some (Done _ _)) | WEvent (Some (ErrorEvent _ _)) => true
  | _ => false
  end.

Section finite.
Context {X : Externals} {W : Type} {H : Host W}.
Variable config : AgentLoopConfig W (ILease W) (SLease W).
Variable mu : W → nat.

Definition tame {A} (f : W → A * W) : Prop := ∀ w, (mu (f w).2 ≤ mu w)%nat.
Definition tame_hook {A} (hook : option A) (P : A → Prop) : Prop := ∀ h, hook = Some h → P h.

(** A host that offers finitely much: nothing it does raises the measure, and an
    event that keeps the pump going, a move that keeps a tool running and a request
    that the provider accepts lower it. *)
Record finite_host : Prop := {
  fin_next : ∀ w, ends_pump (next_event W w).1 = true ∨ (mu (next_event W w).2 < mu w)%nat;
  fin_tool : ∀ c w, (∃ r, (tool_step W c w).1 = Finishes r) ∨ (mu (tool_step W c w).2 < mu w)%nat;
  fin_stream : ∀ llm key w, (stream_fn W llm key w).1 = Some (Ok ()) → (mu (stream_fn W llm key w).2 < mu w)%nat;
  tame_next : tame (next_event W);
  tame_tool : ∀ c, tame (tool_step W c);
  tame_stream : ∀ llm key, tame (stream_fn W llm key);
  tame_poll : tame (poll_cancel W);
  tame_provider : tame (poll_provider_cancel W);
  tame_sink : ∀ e, tame (sink W e);
  tame_now : tame (now_ms W);
  tame_register : tame (register_stream W);
  tame_spawn_stream : tame (spawn_stream W);
  tame_spawn_tool : ∀ c t a, tame (spawn_tool W c t a);
  tame_watchdog : tame (watchdog_config W);
  tame_deadline : tame (deadline_passed W);
  tame_elapsed : ∀ l, tame (stall_elapsed W l);
  tame_result : tame (stream_result W);
  tame_retry : tame (retry_truncated W);
  tame_pick : tame (pick_future W);
  tame_ilease : ∀ l w, (mu (cancel_ilease W l w) ≤ mu w)%nat;
  tame_slease : ∀ l w, (mu (cancel_slease W l w) ≤ mu w)%nat;
  tame_response : ∀ w, (mu (cancel_response W w) ≤ mu w)%nat;
  tame_producer : ∀ w, (mu (close_producer W w) ≤ mu w)%nat;
  tame_resolve : tame_hook (resolve_inference_state _ _ _ config) (λ h, ∀ r, tame (h r));
  tame_capture : tame_hook (source_capture _ _ _ config)
    (λ h, (∀ r, tame (sc_resolve _ _ h r)) ∧ ∀ l m, tame (sc_completed _ _ h l m));
  tame_convert : tame_hook (convert_to_llm _ _ _ config) (λ h, ∀ ms, tame (h ms));
  tame_transform : tame_hook (transform_context _ _ _ config) (λ h, ∀ ms, tame (h ms));
  tame_prompt : tame_hook (get_system_prompt _ _ _ config) tame;
  tame_before : tame_hook (before_request _ _ _ config) (λ h, ∀ i, tame (h i));
  tame_key : tame_hook (get_api_key _ _ _ config) (λ h, ∀ p, tame (h p));
  tame_after_turn : tame_hook (should_stop_after_turn _ _ _ config) (λ h, ∀ t, tame (h t));
  tame_before_turn : tame_hook (should_stop_before_turn _ _ _ config) tame;
  tame_steering : tame_hook (get_steering_messages _ _ _ config) tame;
  tame_follow_up : tame_hook (get_follow_up_messages _ _ _ config) tame;
  tame_continuation : tame_hook (get_continuation_messages _ _ _ config) (λ h, ∀ t, tame (h t));
  tame_before_tool : tame_hook (before_tool_call _ _ _ config) (λ h, ∀ m c v cx, tame (h m c v cx));
  tame_after_tool : tame_hook (after_tool_call _ _ _ config) (λ h, ∀ m c v r b cx, tame (h m c v r b cx)) }.
End finite.

Section termination.
Context {X : Externals} {W : Type} {H : Host W}.
Variable config : AgentLoopConfig W (ILease W) (SLease W).
Variable mu : W → nat.
Hypothesis Hfin : finite_host config mu.
Variable prompt : str.
Variable tools : option (list AgentTool).
Local Abbreviation M := (AgentMonad.M W).
Local Abbreviation size st := (mu (world st)).
Local Abbreviation tame f := (tame mu f).

(** ** Programs that do not raise the measure

    [calm f m]; with [f], [m] needs no fuel either. *)
Definition calm {A} (f : bool) (m : M A) : Prop := ∀ st,
  (size (m st).2 ≤ size st)%nat ∧ (f = true → (m st).1 ≠ OutOfFuel).

Lemma calm_false {A} (m : M A) f : calm f m → calm false m.
Proof. intros Hm st. destruct (Hm st). auto. Qed.
Lemma calm_ret {A} f (a : A) : calm f (mret a).
Proof. by intros st. Qed.
Lemma calm_throw {A} f e : calm f (throw e : M A).
Proof. by intros st. Qed.
Lemma calm_out_of_fuel {A} : calm false (out_of_fuel : M A).
Proof. by intros st. Qed.
Lemma calm_get {A} f (g : St W → A) : calm f (get g).
Proof. by intros st. Qed.
Lemma calm_log f a : calm f (log (W := W) a).
Proof. by intros st. Qed.
Lemma calm_set_context f g : calm f (set_context (W := W) g).
Proof. by intros st. Qed.
Lemma calm_push_new f m : calm f (push_new (W := W) m).
Proof. by intros st. Qed.
Lemma calm_set_added_partial f b : calm f (set_added_partial (W := W) b).
Proof. by intros st. Qed.
Lemma calm_cancel_seen f : calm f (cancel_seen (W := W)).
Proof. by intros st. Qed.
Lemma calm_supply f ms : calm f (supply (W := W) ms).
Proof. by intros st. Qed.
Lemma calm_take_supplied f : calm f (take_supplied (W := W)).
Proof. by intros st. Qed.
Lemma calm_lift {A} f (r : result A str) : calm f (lift (W := W) r).
Proof. by destruct r; intros st. Qed.

Lemma calm_bind {A B} f (m : M A) (k : A → M B) : calm f m → (∀ a, calm f (k a)) → calm f (m ≫= k).
Proof.
  intros Hm Hk st. unfold mbind, M_bind. destruct (Hm st) as [Hs Ho].
  destruct (m st) as [[a|e|] st']; simpl in *.
  - destruct (Hk a st'). split; [lia|done].
  - split; [done|congruence].
  - split; [done|]. intros Hf. by destruct (Ho Hf).
Qed.

Lemma calm_try {A} f (m : M A) : calm f m → calm f (try m).
Proof.
  intros Hm st. unfold try. destruct (Hm st) as [Hs Ho]. destruct (m st) as [[a|e|] st']; simpl in *.
  - by split.
  - by split.
  - split; [done|]. intros Hf. by destruct (Ho Hf).
Qed.

Lemma calm_host {A} f (g : W → A * W) : tame g → calm f (host g).
Proof. intros Hg st. unfold host. specialize (Hg (world st)). by destruct (g (world st)). Qed.

Lemma calm_finally {A} f (m : M A) cleanup :
  calm f m → (∀ w, (mu (cleanup w) ≤ mu w)%nat) → calm f (finally m cleanup).
Proof.
  intros Hm Hc st. unfold finally. destruct (Hm st) as [Hs Ho]. destruct (m st) as [o st']. simpl in *.
  split; [|done]. specialize (Hc (world st')). lia.
Qed.

Lemma calm_is_cancelled f : calm f (is_cancelled (W := W)).
Proof.
  intros st. unfold is_cancelled. destruct (cancelled st); [done|].
  pose proof (tame_poll _ _ Hfin (world st)). by destruct (poll_cancel W (world st)).
Qed.

Hint Resolve calm_ret calm_throw calm_out_of_fuel calm_get calm_log calm_set_context calm_push_new
  calm_set_added_partial calm_cancel_seen calm_supply calm_take_supplied calm_lift calm_try calm_host
  calm_is_cancelled : calm.
Hint Resolve tame_next tame_tool tame_stream tame_poll tame_provider tame_sink tame_now tame_register
  tame_spawn_stream tame_spawn_tool tame_watchdog tame_deadline tame_elapsed tame_result tame_retry
  tame_pick tame_ilease tame_slease tame_response tame_producer : calm.

Ltac calm :=
  repeat first
    [ progress intros
    | solve [eauto with calm]
    | match goal with
      | |- calm _ (_ ≫= _) => apply calm_bind
      | |- calm _ (try _) => apply calm_try
      | |- calm _ (match ?x with _ => _ end) => destruct x eqn:?
      end ].

Lemma calm_race {A} f (op : Op W (result A str)) : tame op → calm f (race_with_abort op).
Proof.
  intros Hop. unfold race_with_abort. apply calm_bind; [apply calm_is_cancelled|]. intros [].
  - apply calm_throw.
  - intros st. specialize (Hop (world st)). destruct (op (world st)) as [[[r|e]|] w]; done.
Qed.

Lemma calm_maybe_abortable {A} f (op : Op W A) : tame op → calm f (maybe_abortable op).
Proof.
  intros Hop. apply calm_race. intros w. unfold infallible. specialize (Hop w). by destruct (op w).
Qed.
Hint Resolve calm_race calm_maybe_abortable : calm.

Lemma tame_const {A} (a : A) : tame (λ w : W, (a, w)).
Proof. by intros w. Qed.
Hint Resolve tame_const : calm.

Lemma calm_throw_if_aborted f : calm f (throw_if_aborted (W := W)).
Proof. unfold throw_if_aborted. calm. Qed.
Lemma calm_emit f e : calm f (emit_event (W := W) e).
Proof. unfold emit_event. calm. Qed.
Lemma calm_settle {A} f (m : M A) : calm f m → calm f (settle_post_turn m).
Proof. intros Hm. unfold settle_post_turn. calm. Qed.
Lemma calm_poll f p : tame_hook p (λ h, tame h) → calm f (poll_messages_unless_aborted p).
Proof. intros Hp. unfold poll_messages_unless_aborted. calm. Qed.
Lemma calm_for_each {A} f (body : A → M unit) l : (∀ a, calm f (body a)) → calm f (for_each body l).
Proof. intros Hb. induction l; simpl; calm. Qed.
Hint Resolve calm_throw_if_aborted calm_emit calm_settle calm_poll calm_for_each : calm.

(** *** Tool calls *)

Lemma calm_prepare_tool_call f am call : calm f (prepare_tool_call config prompt tools am call).
Proof. pose proof (tame_before_tool _ _ Hfin). unfold prepare_tool_call, current_context. calm. Qed.
Lemma calm_start_task f p : calm f (start_task config p).
Proof. unfold start_task. calm. Qed.
Lemma calm_drain_one f p q d : calm f (drain_one (W := W) p q d).
Proof. unfold drain_one. calm. Qed.
Hint Resolve calm_prepare_tool_call calm_start_task calm_drain_one : calm.
Lemma calm_settle_task f d r : calm f (settle_task (W := W) d r).
Proof. unfold settle_task. calm. Qed.
Hint Resolve calm_settle_task : calm.
Lemma calm_step_task f p t : calm f (step_task p t).
Proof. unfold step_task. calm. Qed.
Lemma calm_finalize f am p o : calm f (finalize_executed_tool_call config prompt tools am p o).
Proof. pose proof (tame_after_tool _ _ Hfin). unfold finalize_executed_tool_call, current_context. calm. Qed.
Hint Resolve calm_step_task calm_finalize : calm.
Lemma calm_execution_start f c : calm f (emit_tool_execution_start (W := W) c).
Proof. apply calm_emit. Qed.
Lemma calm_execution_end f c : calm f (emit_tool_execution_end (W := W) c).
Proof. apply calm_emit. Qed.
Lemma calm_publish_result f c : calm f (publish_result (W := W) c).
Proof. unfold publish_result, emit_tool_result_message. calm. Qed.
Hint Resolve calm_execution_start calm_execution_end calm_publish_result : calm.
Lemma calm_answer f calls l : calm f (answer_calls (W := W) calls l).
Proof. induction calls; simpl; calm. Qed.
Lemma calm_publish_results f fs : calm f (publish_results (W := W) fs).
Proof. induction fs; simpl; calm. Qed.
Lemma calm_prepare_calls f am calls : calm f (prepare_calls config prompt tools am calls).
Proof. induction calls; simpl; calm. Qed.
Lemma calm_step_future f am x : calm f (step_future config prompt tools am x).
Proof. unfold step_future. calm. Qed.
Hint Resolve calm_answer calm_publish_results calm_prepare_calls calm_step_future : calm.

Lemma calm_run_task n p t : calm false (run_task n p t).
Proof. revert t. induction n; intros []; simpl; calm. Qed.
Lemma calm_join_all n am fs : calm false (join_all config prompt tools n am fs).
Proof. revert fs. induction n; intros fs; simpl; calm. Qed.
Hint Resolve calm_run_task calm_join_all : calm.
Lemma calm_execute_prepared n p : calm false (execute_prepared_tool_call config n p).
Proof. unfold execute_prepared_tool_call. calm. Qed.
Hint Resolve calm_execute_prepared : calm.
Lemma calm_run_call n am call : calm false (run_call config prompt tools n am call).
Proof. unfold run_call, finalize_preparation. calm. Qed.
Hint Resolve calm_run_call : calm.
Lemma calm_sequential n am calls : calm false (sequential_loop config prompt tools n am calls).
Proof. induction calls; simpl; calm. Qed.
Hint Resolve calm_sequential : calm.
Lemma calm_execute n am : calm false (execute_tool_calls config prompt tools n am).
Proof.
  unfold execute_tool_calls, execute_tool_calls_sequential, execute_tool_calls_parallel,
    answer_unexecuted_tool_calls. cbv zeta. calm.
Qed.
Hint Resolve calm_execute : calm.

(** *** One request *)

Lemma tame_drop_ilease l w : (mu (drop_ilease (W := W) l w) ≤ mu w)%nat.
Proof. destruct l; simpl; eauto with calm. Qed.
Lemma tame_drop_slease l w : (mu (drop_slease (W := W) l w) ≤ mu w)%nat.
Proof. destruct l; simpl; eauto with calm. Qed.
Hint Resolve tame_drop_ilease tame_drop_slease : calm.

Lemma calm_build_request f : calm f (build_request config prompt tools).
Proof.
  pose proof (tame_transform _ _ Hfin). pose proof (tame_convert _ _ Hfin). pose proof (tame_key _ _ Hfin).
  pose proof (tame_prompt _ _ Hfin). unfold build_request. cbv zeta.
  calm; apply calm_maybe_abortable; destruct (convert_to_llm _ _ _ config) eqn:?; eauto with calm.
Qed.
Lemma calm_check_inference f l : calm f (check_inference_state config l).
Proof. unfold check_inference_state. calm. Qed.
Lemma calm_check_capture f il sl : calm f (check_source_capture config il sl).
Proof. unfold check_source_capture. calm. Qed.
Lemma calm_throw_if_provider f : calm f (throw_if_provider_aborted (W := W)).
Proof. unfold throw_if_provider_aborted. calm. Qed.
Lemma calm_partial f : calm f (partial_message (W := W)).
Proof. apply calm_get. Qed.
Lemma calm_end_message f m : calm f (end_message (W := W) m).
Proof. unfold end_message, push_context. calm. Qed.
Lemma calm_surface f m : calm f (surface_truncated_response config m).
Proof. unfold surface_truncated_response. calm. Qed.
Lemma calm_finalize_capture f m l : calm f (finalize_source_capture config m l).
Proof.
  pose proof (tame_capture _ _ Hfin) as Hc. unfold finalize_source_capture. calm.
  apply calm_race. by apply (Hc _ eq_refl).
Qed.
Hint Resolve calm_build_request calm_check_inference calm_check_capture calm_throw_if_provider calm_partial
  calm_end_message calm_surface calm_finalize_capture : calm.
Lemma calm_finish f il sl m : calm f (finish_message config il sl m).
Proof. unfold finish_message. calm. Qed.
Lemma tame_close : tame (λ w, ((), close_producer W (cancel_response W w))).
Proof.
  intros w. simpl. pose proof (tame_producer _ _ Hfin (cancel_response W w)).
  pose proof (tame_response _ _ Hfin w). lia.
Qed.
Lemma tame_cancel : tame (λ w, ((), cancel_response W w)).
Proof. intros w. apply (tame_response _ _ Hfin). Qed.
Hint Resolve calm_finish tame_close tame_cancel : calm.
Lemma calm_stalled f wd l : calm f (abort_stalled_stream config wd l).
Proof. unfold abort_stalled_stream. calm. Qed.
Lemma calm_terminal f m : calm f (terminal_message (W := W) m).
Proof. unfold terminal_message. calm. Qed.
Lemma calm_aborted {A} f : calm f (aborted_pump (W := W) (A := A)).
Proof. unfold aborted_pump. calm. Qed.
Hint Resolve calm_stalled calm_terminal calm_aborted : calm.
Lemma calm_pump n wd il sl : calm false (pump config n wd il sl).
Proof. induction n; simpl; unfold push_context; calm. Qed.
Hint Resolve calm_pump : calm.

(** ** Convergence

    Some fuel is enough for a program that only gains from more. *)

Definition gains {A} (m : nat → M A) : Prop := ∀ a b, (a ≤ b)%nat → refines (m a) (m b).
Definition converges {A} (m : nat → M A) (st : St W) : Prop := ∃ n, (m n st).1 ≠ OutOfFuel.

Lemma converges_total {A} (m : M A) st : calm true m → converges (λ _, m) st.
Proof. intros Hm. exists O. by apply Hm. Qed.

Lemma converges_S {A} (m : nat → M A) st : converges (λ n, m (S n)) st → converges m st.
Proof. intros [n Hn]. by exists (S n). Qed.

Lemma converges_step {A B} (m : M A) (k : nat → A → M B) st :
  calm true m →
  (∀ a st', m st = (Returned a, st') → (size st' ≤ size st)%nat → converges (λ n, k n a) st') →
  converges (λ n, m ≫= k n) st.
Proof.
  intros Hm Hk. destruct (Hm st) as [Hs Ho]. unfold converges, mbind, M_bind.
  destruct (m st) as [[a|e|] st'] eqn:E; simpl in *.
  - by apply Hk.
  - by exists O.
  - by destruct (Ho eq_refl).
Qed.

Lemma converges_bind {A B} (m : nat → M A) (k : nat → A → M B) st :
  gains m → (∀ a, gains (λ n, k n a)) → (∀ n, calm false (m n)) → converges m st →
  (∀ n a st', m n st = (Returned a, st') → (size st' ≤ size st)%nat → converges (λ n, k n a) st') →
  converges (λ n, m n ≫= k n) st.
Proof.
  intros Hgm Hgk Hc [n Hn] Hk. destruct (m n st) as [o st'] eqn:E.
  assert (Hmax : ∀ j, (n ≤ j)%nat → m j st = (o, st')).
  { intros j Hj. rewrite <-E. apply Hgm; [done|]. by rewrite E. }
  destruct o as [a|e|]; simpl in Hn; [|exists n; unfold mbind, M_bind; by rewrite E|done].
  destruct (Hk n a st' E) as [i Hi].
  { destruct (Hc n st) as [Hs _]. by rewrite E in Hs. }
  exists (max n i). unfold mbind, M_bind. rewrite Hmax by lia.
  rewrite (Hgk a i (max n i) ltac:(lia) st' Hi). done.
Qed.

Lemma converges_try {A} (m : nat → M A) st : converges m st → converges (λ n, try (m n)) st.
Proof. intros [n Hn]. exists n. unfold try. by destruct (m n st) as [[a|e|] st']. Qed.
Lemma converges_finally {A} (m : nat → M A) c st : converges m st → converges (λ n, finally (m n) c) st.
Proof. intros [n Hn]. exists n. unfold finally. by destruct (m n st) as [[a|e|] st']. Qed.
Lemma converges_guard lease (m : nat → M AssistantMessage) st :
  converges m st → converges (λ n, guard_capture lease (m n)) st.
Proof. intros [n Hn]. exists n. unfold guard_capture. by destruct (m n st) as [[a|e|] st']. Qed.

(** ** Tool calls converge *)

Definition task_size (t : ToolTask) : nat :=
  match t with
  | Running q _ => 2 + length q
  | Closing q _ _ => 1 + length q
  | Settled _ => 0
  end.

(** Either the host spends, or the task gets smaller. *)
Definition advances {A} (sz : A → nat) (before : nat) (m : M A) : Prop := ∀ st,
  match m st with
  | (Returned a, st') => (size st' < size st ∨ size st' ≤ size st ∧ sz a < before)%nat
  | _ => True
  end.

Lemma advances_ret {A} (sz : A → nat) n a : (sz a < n)%nat → advances sz n (mret a).
Proof. intros Ha st. simpl. auto. Qed.

Lemma advances_bind {A B} (sz : B → nat) n (m : M A) (k : A → M B) :
  calm true m → (∀ a, advances sz n (k a)) → advances sz n (m ≫= k).
Proof.
  intros Hm Hk st. unfold mbind, M_bind. destruct (Hm st) as [Hs _].
  destruct (m st) as [[a|e|] st']; simpl in *; [|done..].
  specialize (Hk a st'). destruct (k a st') as [[b|e|] st'']; [|done..]. lia.
Qed.

(** A head that spends lets anything follow. *)
Definition spends {A} (m : M A) (P : A → Prop) : Prop := ∀ st,
  match m st with (Returned a, st') => P a ∨ (size st' < size st)%nat | _ => True end.

Lemma advances_spends {A B} (sz : B → nat) n (m : M A) (k : A → M B) (P : A → Prop) :
  calm true m → spends m P → (∀ a, calm true (k a)) → (∀ a, P a → advances sz n (k a)) →
  advances sz n (m ≫= k).
Proof.
  intros Hm Hp Hc Hk st. unfold mbind, M_bind. destruct (Hm st) as [Hs _]. specialize (Hp st).
  destruct (m st) as [[a|e|] st']; simpl in *; [|done..]. destruct (Hc a st') as [Hs' _].
  destruct Hp as [Hp|Hp].
  - specialize (Hk a Hp st'). destruct (k a st') as [[b|e|] st'']; [|done..]. simpl in *. lia.
  - destruct (k a st') as [[b|e|] st'']; [|done..]. simpl in *. lia.
Qed.

Lemma tool_step_spends c : spends (host (tool_step W c)) (λ s, ∃ r, s = Finishes r).
Proof.
  intros st. unfold host. pose proof (fin_tool _ _ Hfin c (world st)) as Hf.
  by destruct (tool_step W c (world st)) as [s w].
Qed.

Lemma settle_task_advances n d r : (0 < n)%nat → advances task_size n (settle_task d r).
Proof.
  intros Hn. unfold settle_task. destruct d; [by apply advances_ret|].
  destruct r; [by apply advances_ret|]. apply advances_bind; [calm|]. intros c. by apply advances_ret.
Qed.

Lemma step_task_advances p t :
  match t with Settled _ => False | _ => True end → advances task_size (task_size t) (step_task p t).
Proof.
  destruct t as [q d|q d r|o]; intros Ht; [| |done]; simpl.
  - apply advances_bind; [calm|]. intros []; [apply advances_ret; simpl; lia|].
    eapply advances_spends; [calm|apply tool_step_spends|calm|].
    intros ? [r ->]. apply advances_ret. simpl. lia.
  - apply advances_bind; [calm|]. intros [].
    + eapply advances_spends; [calm|apply tool_step_spends|calm|].
      intros ? [r' ->]. apply settle_task_advances. lia.
    + destruct d as [e|], q as [|x q]; try (apply settle_task_advances; simpl; lia).
      unfold drain_one. intros st. unfold mbind, M_bind at 1 2.
      pose proof (calm_try true _ (calm_emit true (ToolExecutionUpdate (tc_id (p_call p)) (tc_name (p_call p))
                 (Object (arguments (p_call p))) x)) st) as [Hs _].
      destruct (try _ st) as [[a|e|] st']; simpl in *; [|done..]. right. lia.
Qed.

(** Induction on what the host has left, then on the size of the task. *)
Lemma advance_ind {A} (sz : A → nat) (P : A → St W → Prop) :
  (∀ a st, (∀ a' st', (size st' < size st ∨ size st' ≤ size st ∧ sz a' < sz a)%nat → P a' st') → P a st) →
  ∀ a st, P a st.
Proof.
  intros Hstep.
  assert (Hmu : ∀ k a st, (size st ≤ k)%nat → P a st); [|intros a st; by apply (Hmu (size st))].
  induction k as [k IHk] using lt_wf_ind.
  assert (Hsz : ∀ n a st, (size st ≤ k)%nat → (sz a ≤ n)%nat → P a st);
    [|intros a st Hk; by apply (Hsz (sz a))].
  induction n as [n IHn] using lt_wf_ind. intros a st Hk Hn. apply Hstep. intros a' st' [Hlt|[Hle Hlt]].
  - apply (IHk (size st')); lia.
  - apply (IHn (sz a')); lia.
Qed.

Lemma run_task_converges p t st : converges (λ n, run_task n p t) st.
Proof.
  revert t st. apply (advance_ind task_size). intros t st IH.
  assert (Hstep : match t with Settled _ => False | _ => True end →
                  converges (λ n, t' ← step_task p t; run_task n p t') st).
  { intros Ht. apply converges_step; [calm|]. intros t' st' E Hle. apply IH.
    pose proof (step_task_advances p t Ht st) as Ha. by rewrite E in Ha. }
  destruct t; [apply converges_S, Hstep; done..|]. by exists O.
Qed.

Definition future_size (f : ToolFuture) : nat :=
  match f with
  | FNew _ => 5
  | FTask _ t => 2 + task_size t
  | FEnding _ => 1
  | FReady _ => 0
  end.
Definition futures_size (fs : list ToolFuture) : nat := sum_list (map future_size fs).

Lemma start_task_small p : advances task_size 3 (start_task config p).
Proof.
  unfold start_task. apply advances_bind; [calm|]. intros []; [|apply advances_ret; simpl; lia].
  apply advances_bind; [calm|]. intros r. apply advances_bind; [calm|]. intros _.
  apply advances_bind; [calm|]. intros []; [apply advances_ret; simpl; lia|].
  destruct (if execution_scope _ _ _ config then r else _); apply advances_ret; simpl; lia.
Qed.

(** Renaming the result of an advancing program. *)
Lemma advances_map {A B} (sza : A → nat) (szb : B → nat) n n' (m : M A) (g : A → B) :
  advances sza n m → (∀ a, sza a < n → szb (g a) < n')%nat → advances szb n' (a ← m; mret (g a)).
Proof.
  intros Hm Hg st. unfold mbind, M_bind. specialize (Hm st).
  destruct (m st) as [[a|e|] st']; [|done..]. simpl. destruct Hm as [?|[? Ha]]; auto.
Qed.

Lemma step_future_advances am f : unfinished f = true →
  advances future_size (future_size f) (step_future config prompt tools am f).
Proof.
  destruct f as [p|p t|f|r]; intros Hu; [| | |done]; simpl.
  - eapply advances_map; [apply start_task_small|]. simpl. lia.
  - assert (Hrun : match t with Settled _ => False | _ => True end →
      advances future_size (2 + task_size t) (t' ← step_task p t; mret (FTask p t'))).
    { intros Ht. eapply advances_map; [by apply step_task_advances|]. simpl. lia. }
    destruct t; [by apply Hrun..|]. simpl. apply advances_bind; [calm|]. intros f. apply advances_ret. simpl. lia.
  - apply advances_bind; [calm|]. intros r. apply advances_ret. simpl. lia.
Qed.

Lemma choose_from k fs i : i ∈ unfinished_indices k fs →
  (k ≤ i)%nat ∧ ∃ f, fs !! (i - k)%nat = Some f ∧ unfinished f = true.
Proof.
  revert k. induction fs as [|f fs IH]; intros k; simpl; [by intros ?%not_elem_of_nil|].
  rewrite elem_of_app. intros [Hi|Hi].
  - destruct (unfinished f) eqn:Hu; [|by apply not_elem_of_nil in Hi].
    apply list_elem_of_singleton in Hi as ->. split; [done|]. exists f. by rewrite Nat.sub_diag.
  - apply IH in Hi as (Hle & f' & Hf & Hu). split; [lia|]. exists f'.
    replace (i - k)%nat with (S (i - S k)) by lia. done.
Qed.

Lemma none_unfinished k fs : unfinished_indices k fs = [] → all_ready fs ≠ None.
Proof.
  revert k. induction fs as [|f fs IH]; intros k; simpl; [done|].
  destruct f; simpl; [done..|]. intros Hn. specialize (IH _ Hn). by destruct (all_ready fs).
Qed.

Lemma choose_unfinished fs i : all_ready fs = None →
  ∃ f, fs !! choose fs i = Some f ∧ unfinished f = true.
Proof.
  intros Hr. unfold choose. set (u := unfinished_indices 0 fs).
  assert (Hu : length u ≠ O). { intros Hl%length_zero_iff_nil. by apply (none_unfinished 0 fs) in Hl. }
  destruct (lookup_lt_is_Some_2 u (i mod length u)) as [j Hj]; [by apply Nat.mod_upper_bound|].
  rewrite Hj. simpl. apply list_elem_of_lookup_2, (choose_from 0) in Hj as (_ & f & Hf & Hun).
  rewrite Nat.sub_0_r in Hf. eauto.
Qed.

Lemma futures_size_insert fs i f f' : fs !! i = Some f →
  (futures_size (<[i := f']> fs) + future_size f = futures_size fs + future_size f')%nat.
Proof.
  revert i. unfold futures_size. induction fs as [|x fs IH]; intros [|i]; simpl; [done..| |].
  - intros [= ->]. lia.
  - intros Hi. specialize (IH i Hi). simpl in *. lia.
Qed.

Lemma join_all_converges am fs st : converges (λ n, join_all config prompt tools n am fs) st.
Proof.
  revert fs st. apply (advance_ind futures_size). intros fs st IH.
  destruct (all_ready fs) as [rs|] eqn:Hr. { exists O. simpl. by rewrite Hr. }
  apply converges_S. simpl. rewrite Hr. apply converges_step; [calm|]. intros i st1 _ Hle1.
  destruct (choose_unfinished fs i Hr) as (f & Hf & Hu). rewrite Hf.
  apply converges_step; [calm|]. intros f' st2 E Hle2. apply IH.
  pose proof (step_future_advances am f Hu st1) as Ha. rewrite E in Ha.
  pose proof (futures_size_insert fs _ f f' Hf). lia.
Qed.

Lemma gains_const {A} (m : M A) : gains (λ _, m).
Proof. intros a b _. apply refines_refl. Qed.

Ltac gain := intros ? ? ?; refine_step.

Lemma gains_task p t : gains (λ n, run_task n p t).
Proof. intros a b Hab. by apply run_task_fuel. Qed.
Lemma gains_join am fs : gains (λ n, join_all config prompt tools n am fs).
Proof. intros a b Hab. by apply join_all_fuel. Qed.
Lemma gains_execute am : gains (λ n, execute_tool_calls config prompt tools n am).
Proof. intros a b Hab. exact (tool_calls_fuel config prompt tools a b Hab am). Qed.
Lemma gains_pump wd il sl : gains (λ n, pump config n wd il sl).
Proof. intros a b Hab. by apply pump_fuel. Qed.
Lemma gains_stream : gains (λ n, stream_assistant_response config prompt tools n).
Proof. intros a b Hab. exact (stream_fuel config prompt tools a b Hab). Qed.
Lemma gains_turn l : gains (λ n, turn config prompt tools n l).
Proof. intros a b Hab. exact (turn_fuel config prompt tools a b Hab l). Qed.

Lemma execute_prepared_converges p st : converges (λ n, execute_prepared_tool_call config n p) st.
Proof. apply converges_step; [calm|]. intros t st' _ _. apply run_task_converges. Qed.
Lemma gains_prepared p : gains (λ n, execute_prepared_tool_call config n p).
Proof. unfold execute_prepared_tool_call. pose proof (gains_task p) as Hg. gain; by apply Hg. Qed.

Lemma finalize_preparation_converges am call x st :
  converges (λ n, finalize_preparation config prompt tools n am call x) st.
Proof.
  destruct x as [p|r b]; simpl; [|by exists O].
  apply converges_bind; [apply gains_prepared|intros; apply gains_const|calm|apply execute_prepared_converges|].
  intros. apply converges_total. calm.
Qed.
Lemma gains_preparation am call x : gains (λ n, finalize_preparation config prompt tools n am call x).
Proof. unfold finalize_preparation. pose proof gains_prepared as Hg. gain; by apply Hg. Qed.
Lemma calm_preparation n am call x : calm false (finalize_preparation config prompt tools n am call x).
Proof. unfold finalize_preparation. calm. Qed.
Hint Resolve calm_preparation : calm.

Lemma run_call_converges am call st : converges (λ n, run_call config prompt tools n am call) st.
Proof.
  unfold run_call. apply converges_step; [calm|]. intros _ st1 _ _.
  apply converges_step; [calm|]. intros x st2 _ _.
  apply converges_bind; [apply gains_preparation|intros; apply gains_const|calm|apply finalize_preparation_converges|].
  intros. apply converges_total. calm.
Qed.
Lemma gains_call am call : gains (λ n, run_call config prompt tools n am call).
Proof. unfold run_call. pose proof (gains_preparation am call) as Hg. gain; by apply Hg. Qed.

Lemma gains_sequential am calls : gains (λ n, sequential_loop config prompt tools n am calls).
Proof.
  pose proof (gains_call am) as Hg. induction calls as [|c calls IH]; simpl; [apply gains_const|].
  gain; by apply Hg || by apply IH.
Qed.

Lemma sequential_converges am calls st : converges (λ n, sequential_loop config prompt tools n am calls) st.
Proof.
  revert st. induction calls as [|c calls IH]; intros st; simpl; [by exists O|].
  apply converges_step; [calm|]. intros [] st1 _ _; [by exists O|].
  apply converges_bind; [apply gains_call| |calm|apply run_call_converges|].
  { intros fm. pose proof (gains_sequential am calls) as Hg. gain; by apply Hg. }
  intros _ fm st2 _ _. apply converges_step; [calm|]. intros [] st3 _ _; [by exists O|].
  apply converges_bind; [apply gains_sequential|intros; apply gains_const|calm|apply IH|].
  intros. by exists O.
Qed.

Lemma execute_converges am st : converges (λ n, execute_tool_calls config prompt tools n am) st.
Proof.
  unfold execute_tool_calls. cbv zeta. destruct (_ || _).
  - unfold execute_tool_calls_sequential, answer_unexecuted_tool_calls.
    apply converges_bind; [apply gains_sequential|intros; apply gains_const|calm|apply sequential_converges|].
    intros. apply converges_total. calm.
  - unfold execute_tool_calls_parallel. apply converges_step; [calm|]. intros fs st1 _ _.
    apply converges_bind; [apply gains_join|intros; apply gains_const|calm|apply join_all_converges|].
    intros. apply converges_total. calm.
Qed.

(** ** A request converges, and spends *)

Lemma next_event_spends : spends (host (next_event W)) (λ n, ends_pump n = true).
Proof.
  intros st. unfold host. pose proof (fin_next _ _ Hfin (world st)) as Hf.
  by destruct (next_event W (world st)) as [n w].
Qed.

Lemma converges_spend {A B} (m : M A) (P : A → Prop) (k : nat → A → M B) st :
  calm true m → spends m P →
  (∀ a st', P a ∨ (size st' < size st)%nat → converges (λ n, k n a) st') →
  converges (λ n, m ≫= k n) st.
Proof.
  intros Hm Hp Hk. apply converges_step; [done|]. intros a st' E _. apply Hk.
  specialize (Hp st). by rewrite E in Hp.
Qed.

Lemma pump_converges wd il sl st : converges (λ n, pump config n wd il sl) st.
Proof.
  remember (size st) as k eqn:Hk. revert st Hk. induction k as [k IH] using lt_wf_ind. intros st ->.
  apply converges_S. simpl. apply converges_step; [calm|]. intros late st1 _ Hle1.
  destruct (match stream_deadline wd with Some _ => late | None => false end);
    [apply converges_total; calm|].
  apply converges_step; [calm|]. intros [] st2 _ Hle2; [apply converges_total; calm|].
  apply (converges_spend _ (λ n, ends_pump n = true)); [calm|apply next_event_spends|].
  intros next st3 Hnext.
  assert (Hrec : ends_pump next = false → ∀ st', (size st' ≤ size st3)%nat →
                 converges (λ n, pump config n wd il sl) st').
  { intros Hn st' Hle. destruct Hnext as [?|Hlt]; [congruence|]. eapply IH; [|done]. lia. }
  clear Hnext IH.
  destruct next as [[e|]| |l]; try (apply converges_total; calm).
  destruct e; simpl; try (apply converges_total; calm);
    try (apply converges_step; [calm|]; intros [] st4 _ Hle4;
         [do 2 (apply converges_step; [calm|]; intros _ ? _ ?)|]; apply Hrec; done || lia).
  - unfold push_context. do 3 (apply converges_step; [calm|]; intros _ ? _ ?). apply Hrec; [done|lia].
  - apply converges_step; [calm|]; intros a st4 _ Hle4. apply Hrec; [done|lia].
Qed.

Lemma inner_converges llm key il sl st :
  converges (λ n, stream_assistant_response_inner config n llm key il sl) st.
Proof.
  unfold stream_assistant_response_inner. do 3 (apply converges_step; [calm|]; intros _ ? _ ?).
  apply converges_step; [calm|]. intros wd st4 _ _. apply pump_converges.
Qed.

(** The part of a request under its guards. *)
Definition guarded (n : nat) (llm : LlmContext) (key : option str) (il : option (ILease W))
    (sl : option (SLease W)) : M AssistantMessage :=
  throw_if_aborted;;
  throw_if_provider_aborted;;
  check_source_capture config il sl;;
  r ← try (stream_assistant_response_inner config n llm key il sl);
  partial ← partial_message;
  match r with
  | Ok message => mret message
  | Err error =>
      c ← is_cancelled;
      if c && is_abort_error error
      then now ← host (now_ms W); end_message (create_aborted_assistant_message config partial now)
      else throw error
  end.

Lemma gains_inner llm key il sl : gains (λ n, stream_assistant_response_inner config n llm key il sl).
Proof.
  unfold stream_assistant_response_inner. pose proof (λ wd, gains_pump wd il sl) as Hg.
  gain; by apply Hg.
Qed.

Lemma calm_inner n llm key il sl : calm false (stream_assistant_response_inner config n llm key il sl).
Proof. unfold stream_assistant_response_inner. calm. Qed.
Hint Resolve calm_inner : calm.

Lemma guarded_converges llm key il sl st : converges (λ n, guarded n llm key il sl) st.
Proof.
  unfold guarded. do 3 (apply converges_step; [calm|]; intros _ ? _ ?).
  apply (converges_bind (λ n, try (stream_assistant_response_inner config n llm key il sl)));
    [|intros; apply gains_const|calm|apply converges_try, inner_converges|].
  { intros a b Hab. by apply refines_try, gains_inner. }
  intros. apply converges_total. calm.
Qed.

Lemma capture_converges request (k : nat → option (SLease W) → M AssistantMessage) st :
  (∀ l st, converges (λ n, k n l) st) → converges (λ n, with_source_capture config request (k n)) st.
Proof.
  intros Hk. pose proof (tame_capture _ _ Hfin) as Hc. unfold with_source_capture.
  destruct (source_capture _ _ _ config) as [hooks|]; [|by apply converges_guard].
  apply converges_step; [|intros l st' _ _; by apply converges_guard].
  apply calm_finally; [|calm]. apply calm_race. apply (Hc _ eq_refl).
Qed.

Lemma state_converges {A} request (k : nat → option (ILease W) → M A) st :
  (∀ l st, converges (λ n, k n l) st) → converges (λ n, with_inference_state config request (k n)) st.
Proof.
  intros Hk. pose proof (tame_resolve _ _ Hfin) as Hc. unfold with_inference_state. cbv zeta.
  destruct (resolve_inference_state _ _ _ config) as [resolve|]; [|by apply converges_finally].
  apply converges_step; [|intros l st' _ _; by apply converges_finally].
  apply calm_finally; [|calm]. apply calm_race. intros w. by apply Hc.
Qed.

Lemma stream_converges st : converges (λ n, stream_assistant_response config prompt tools n) st.
Proof.
  unfold stream_assistant_response. apply converges_step; [calm|]. intros _ st1 _ _.
  apply converges_step; [calm|]. intros [[llm key] request] st2 _ _.
  apply state_converges. intros il st3. do 2 (apply converges_step; [calm|]; intros _ ? _ ?).
  apply capture_converges. intros sl st4. apply guarded_converges.
Qed.

Lemma spends_ret {A} (a : A) (P : A → Prop) : P a → spends (mret a) P.
Proof. intros Ha st. by left. Qed.

Lemma spends_bind {A B} (m : M A) (k : A → M B) P :
  calm false m → (∀ a, spends (k a) P) → spends (m ≫= k) P.
Proof.
  intros Hm Hk st. unfold mbind, M_bind. destruct (Hm st) as [Hs _].
  destruct (m st) as [[a|e|] st']; simpl in *; [|done..].
  specialize (Hk a st'). destruct (k a st') as [[b|e|] st'']; [|done..]. destruct Hk; [by left|right; lia].
Qed.

Lemma spends_then {A B} (m : M A) (k : A → M B) P Q :
  calm false m → spends m P → (∀ a, calm false (k a)) → (∀ a, P a → spends (k a) Q) → spends (m ≫= k) Q.
Proof.
  intros Hm Hp Hc Hk st. unfold mbind, M_bind. destruct (Hm st) as [Hs _]. specialize (Hp st).
  destruct (m st) as [[a|e|] st']; simpl in *; [|done..]. destruct (Hc a st') as [Hs' _].
  destruct Hp as [Hp|Hp].
  - specialize (Hk a Hp st'). destruct (k a st') as [[b|e|] st'']; [|done..]. destruct Hk; [by left|right; lia].
  - destruct (k a st') as [[b|e|] st'']; [|done..]. simpl in *. right. lia.
Qed.

Lemma spends_finally {A} (m : M A) c P :
  (∀ w, (mu (c w) ≤ mu w)%nat) → spends m P → spends (finally m c) P.
Proof.
  intros Hc Hm st. unfold finally. specialize (Hm st). destruct (m st) as [[a|e|] st']; [|done..].
  simpl. destruct Hm; [by left|right]. specialize (Hc (world st')). lia.
Qed.

Lemma spends_guard lease (m : M AssistantMessage) P : spends m P → spends (guard_capture lease m) P.
Proof.
  intros Hm st. unfold guard_capture. specialize (Hm st). destruct (m st) as [[a|e|] st']; [|done..].
  destruct Hm as [?|Hm]; [by left|right]. case_match; [done|]. simpl.
  pose proof (tame_drop_slease lease (world st')). lia.
Qed.

Lemma calm_guard lease (m : M AssistantMessage) f : calm f m → calm f (guard_capture lease m).
Proof.
  intros Hm st. unfold guard_capture. destruct (Hm st) as [Hs Ho]. destruct (m st) as [o st']. simpl in *.
  split; [|done]. case_match; [done|]. simpl. pose proof (tame_drop_slease lease (world st')). lia.
Qed.

Lemma stream_fn_spends llm key : spends (race_with_abort (stream_fn W llm key)) (λ _, False).
Proof.
  apply spends_bind; [calm|]. intros [] st; [done|]. pose proof (fin_stream _ _ Hfin llm key (world st)) as Hs.
  destruct (stream_fn W llm key (world st)) as [[[[]|e]|] w]; [|done..]. right. by apply Hs.
Qed.

Lemma inner_spends n llm key il sl :
  spends (stream_assistant_response_inner config n llm key il sl) (λ _, False).
Proof.
  unfold stream_assistant_response_inner. do 2 (apply spends_bind; [calm|]; intros _).
  eapply spends_then; [calm|apply stream_fn_spends|calm|done].
Qed.

Lemma calm_guarded n llm key il sl : calm false (guarded n llm key il sl).
Proof. unfold guarded. calm. Qed.
Hint Resolve calm_guarded : calm.

(** A request that does not fail has been accepted by the provider. *)
Lemma guarded_spends n llm key il sl : spends (guarded n llm key il sl) (λ am, is_failure am = true).
Proof.
  unfold guarded. do 3 (apply spends_bind; [calm|]; intros _).
  apply (spends_then _ _ (λ r, ∃ e, r = Err e)); [calm| |calm|].
  - intros st. unfold try. pose proof (inner_spends n llm key il sl st) as Hi.
    destruct (stream_assistant_response_inner _ _ _ _ _ _ st) as [[a|e|] st']; [|by left; exists e|done].
    by destruct Hi as [[]|Hi]; right.
  - intros r [e ->]. apply spends_bind; [calm|]. intros partial. apply spends_bind; [calm|]. intros c.
    destruct (c && is_abort_error e); [|by intros st]. apply spends_bind; [calm|]. intros now.
    unfold end_message. apply spends_bind; [calm|]. intros a. unfold push_context.
    do 2 (apply spends_bind; [calm|]; intros _). by apply spends_ret.
Qed.

Lemma calm_with_capture request (k : option (SLease W) → M AssistantMessage) :
  (∀ l, calm false (k l)) → calm false (with_source_capture config request k).
Proof.
  intros Hk. pose proof (tame_capture _ _ Hfin) as Hc. unfold with_source_capture.
  destruct (source_capture _ _ _ config) as [hooks|]; [|by apply calm_guard].
  apply calm_bind; [|intros l; by apply calm_guard].
  apply calm_finally; [|calm]. apply calm_race. apply (Hc _ eq_refl).
Qed.

Lemma spends_with_capture request (k : option (SLease W) → M AssistantMessage) P :
  (∀ l, spends (k l) P) → spends (with_source_capture config request k) P.
Proof.
  intros Hk. pose proof (tame_capture _ _ Hfin) as Hc. unfold with_source_capture.
  destruct (source_capture _ _ _ config) as [hooks|]; [|by apply spends_guard].
  apply spends_bind; [|intros l; by apply spends_guard].
  apply calm_finally; [|calm]. apply calm_race. apply (Hc _ eq_refl).
Qed.

Lemma calm_with_state {A} request (k : option (ILease W) → M A) :
  (∀ l, calm false (k l)) → calm false (with_inference_state config request k).
Proof.
  intros Hk. pose proof (tame_resolve _ _ Hfin) as Hc. unfold with_inference_state. cbv zeta.
  destruct (resolve_inference_state _ _ _ config) as [resolve|]; [|apply calm_finally; [done|calm]].
  apply calm_bind; [|intros l; apply calm_finally; [done|calm]].
  apply calm_finally; [|calm]. apply calm_race. intros w. by apply Hc.
Qed.

Lemma spends_with_state {A} request (k : option (ILease W) → M A) P :
  (∀ l, spends (k l) P) → spends (with_inference_state config request k) P.
Proof.
  intros Hk. pose proof (tame_resolve _ _ Hfin) as Hc. unfold with_inference_state. cbv zeta.
  destruct (resolve_inference_state _ _ _ config) as [resolve|]; [|apply spends_finally; [calm|done]].
  apply spends_bind; [|intros l; apply spends_finally; [calm|done]].
  apply calm_finally; [|calm]. apply calm_race. intros w. by apply Hc.
Qed.

Lemma calm_stream n : calm false (stream_assistant_response config prompt tools n).
Proof.
  unfold stream_assistant_response. apply calm_bind; [calm|]. intros _.
  apply calm_bind; [calm|]. intros [[llm key] request].
  apply calm_with_state. intros il. do 2 (apply calm_bind; [calm|]; intros _).
  apply calm_with_capture. intros sl. apply calm_guarded.
Qed.
Hint Resolve calm_stream : calm.

Lemma stream_spends n : spends (stream_assistant_response config prompt tools n) (λ am, is_failure am = true).
Proof.
  unfold stream_assistant_response. apply spends_bind; [calm|]. intros _.
  apply spends_bind; [calm|]. intros [[llm key] request].
  apply spends_with_state. intros il. do 2 (apply spends_bind; [calm|]; intros _).
  apply spends_with_capture. intros sl. apply guarded_spends.
Qed.

(** ** Turns and runs *)

Lemma calm_stop_before f b : calm f (stop_before_turn config b).
Proof. pose proof (tame_before_turn _ _ Hfin). unfold stop_before_turn. calm. Qed.
Lemma calm_after_stop f t : calm f (after_turn_stop config t).
Proof.
  pose proof (tame_after_turn _ _ Hfin). unfold after_turn_stop. apply calm_settle, calm_maybe_abortable.
  destruct (should_stop_after_turn _ _ _ config) eqn:?; eauto with calm.
Qed.
Lemma calm_steering f : calm f (poll_messages_unless_aborted (get_steering_messages _ _ _ config)).
Proof. apply calm_poll, (tame_steering _ _ Hfin). Qed.
Lemma calm_follow_up f : calm f (poll_messages_unless_aborted (get_follow_up_messages _ _ _ config)).
Proof. apply calm_poll, (tame_follow_up _ _ Hfin). Qed.
Lemma calm_agent_end f : calm f (emit_agent_end (W := W)).
Proof. unfold emit_agent_end. calm. Qed.
Lemma calm_run_over f : calm f (run_over (W := W)).
Proof. unfold run_over, emit_agent_end. calm. Qed.
Hint Resolve calm_stop_before calm_after_stop calm_steering calm_follow_up calm_agent_end calm_run_over : calm.
Lemma calm_settle_turn f l more am rs : calm f (settle_turn config prompt tools l more am rs).
Proof. unfold settle_turn. calm. Qed.
Lemma calm_push_result f r : calm f (push_result (W := W) r).
Proof. unfold push_result, push_context. calm. Qed.
Lemma calm_emit_message f m : calm f (emit_message (W := W) m).
Proof. unfold emit_message. calm. Qed.
Hint Resolve calm_settle_turn calm_push_result calm_emit_message : calm.
Lemma calm_inject f m : calm f (inject (W := W) m).
Proof. unfold inject, push_context. calm. Qed.
Hint Resolve calm_inject : calm.
Lemma calm_run_tools n am : calm false (run_tools config prompt tools n am).
Proof. unfold run_tools. calm. Qed.
Hint Resolve calm_run_tools : calm.
Lemma calm_answer_message n l am : calm false (answer_message config prompt tools n l am).
Proof. unfold answer_message, answer_unexecuted_tool_calls. calm. Qed.
Hint Resolve calm_answer_message : calm.
Lemma calm_before_request f i : calm f (match before_request _ _ _ config with
  | Some hook => race_with_abort (hook i) | None => mret () end).
Proof. pose proof (tame_before _ _ Hfin). calm. Qed.
Hint Resolve calm_before_request : calm.
Lemma calm_turn n l : calm false (turn config prompt tools n l).
Proof. unfold turn. calm. Qed.
Hint Resolve calm_turn : calm.
Lemma calm_inner_loop n j more l : calm false (inner_loop config prompt tools n j more l).
Proof. revert more l. induction j; intros more l; simpl; calm. Qed.
Lemma calm_between f l : calm f (between_turns config l).
Proof.
  pose proof (tame_continuation _ _ Hfin). unfold between_turns. calm.
  apply calm_settle, calm_maybe_abortable. destruct (get_continuation_messages _ _ _ config) eqn:?; eauto with calm.
Qed.
Hint Resolve calm_inner_loop calm_between : calm.

Definition goes_on (f : flow) : bool := match f with GoOn _ _ => true | _ => false end.

(** A turn after which the run goes on has made a request. *)
Lemma turn_spends n l : spends (turn config prompt tools n l) (λ f, goes_on f = false).
Proof.
  unfold turn. do 5 (apply spends_bind; [calm|]; intros _).
  eapply spends_then; [calm|apply stream_spends|calm|]. intros am Hfail. unfold answer_message.
  apply spends_bind; [calm|]. intros _. rewrite Hfail. unfold answer_unexecuted_tool_calls.
  apply spends_bind; [calm|]. intros results. do 2 (apply spends_bind; [calm|]; intros _).
  apply spends_bind; [calm|]. intros _. by apply spends_ret.
Qed.

Lemma inner_loop_spends n j l : spends (inner_loop config prompt tools n j true l) (λ f, goes_on f = false).
Proof.
  destruct j as [|j]; simpl; [by intros st|].
  eapply spends_then; [calm|apply turn_spends|calm|]. intros [] ?; [by apply spends_ret|done|by apply spends_ret].
Qed.

Lemma gains_answer l am : gains (λ n, answer_message config prompt tools n l am).
Proof. unfold answer_message, run_tools. pose proof (gains_execute am) as Hg. gain; by apply Hg. Qed.

Lemma run_tools_converges am st : converges (λ n, run_tools config prompt tools n am) st.
Proof.
  unfold run_tools. destruct (is_empty _); [by exists O|].
  apply converges_bind; [apply gains_execute|intros; apply gains_const|calm|apply execute_converges|].
  intros. apply converges_total. calm.
Qed.

Lemma answer_converges l am st : converges (λ n, answer_message config prompt tools n l am) st.
Proof.
  unfold answer_message, answer_unexecuted_tool_calls. apply converges_step; [calm|]. intros _ st1 _ _.
  destruct (is_failure am); [apply converges_total; calm|].
  apply converges_bind; [|intros; apply gains_const|calm|apply run_tools_converges|].
  { unfold run_tools. pose proof (gains_execute am) as Hg. gain; by apply Hg. }
  intros. apply converges_total. calm.
Qed.

Lemma turn_converges l st : converges (λ n, turn config prompt tools n l) st.
Proof.
  unfold turn. do 5 (apply converges_step; [calm|]; intros _ ? _ ?).
  apply converges_bind; [apply gains_stream|intros; apply gains_answer|calm|apply stream_converges|].
  intros. apply answer_converges.
Qed.

Lemma converges_shift {A} (m m' : nat → M A) st :
  (∀ n, refines (m n) (m' (S n))) → converges m st → converges m' st.
Proof. intros Hr [n Hn]. exists (S n). by rewrite (Hr n st Hn). Qed.

Lemma gains_inner_loop more l : gains (λ n, inner_loop config prompt tools n n more l).
Proof. intros a b Hab. by apply inner_loop_fuel. Qed.

Lemma inner_loop_converges more l st : converges (λ n, inner_loop config prompt tools n n more l) st.
Proof.
  remember (size st) as k eqn:Hk. revert more l st Hk.
  induction k as [k IH] using lt_wf_ind. intros more l st ->.
  apply (converges_shift (λ n, inner_loop config prompt tools n (S n) more l)).
  { intros n. apply inner_loop_fuel; lia. }
  simpl. destruct (more || _); [|by exists O].
  apply converges_bind; [apply gains_turn| |calm|apply turn_converges|].
  { pose proof gains_inner_loop as Hg. gain; by apply Hg. }
  intros n f st' E _. destruct f as [|more' l'|]; [by exists O| |by exists O].
  pose proof (turn_spends n l st) as Hs. rewrite E in Hs. destruct Hs as [?|Hs]; [done|].
  by eapply IH.
Qed.

Lemma outer_loop_converges l st : converges (λ n, outer_loop config prompt tools n n l) st.
Proof.
  remember (size st) as k eqn:Hk. revert l st Hk.
  induction k as [k IH] using lt_wf_ind. intros l st ->.
  apply (converges_shift (λ n, outer_loop config prompt tools n (S n) l)).
  { intros n. apply outer_loop_fuel; lia. }
  simpl. apply converges_step; [calm|]. intros _ st1 _ Hle1.
  apply converges_bind; [apply gains_inner_loop| |calm|apply inner_loop_converges|].
  { assert (Hg : ∀ l, gains (λ n, outer_loop config prompt tools n n l))
      by (intros ? ? ? ?; by apply outer_loop_fuel).
    gain; by apply Hg. }
  intros n f st2 E _. destruct f as [|more' l'|]; [by exists O| |by exists O].
  pose proof (inner_loop_spends n n l st1) as Hs. rewrite E in Hs. destruct Hs as [?|Hs]; [done|].
  apply converges_step; [calm|]. intros f st3 _ Hle3. destruct f as [|m'' l''|]; [by exists O| |].
  - eapply IH; [|done]. lia.
  - apply converges_total. calm.
Qed.

Lemma run_prompts_converges prompts st : converges (λ n, run_prompts config prompt tools n prompts) st.
Proof.
  unfold run_prompts, run_loop. do 3 (apply converges_step; [calm|]; intros _ ? _ ?).
  apply converges_bind; [|intros; apply gains_const| | |intros; apply converges_total; calm].
  - assert (Hg : ∀ l, gains (λ n, outer_loop config prompt tools n n l))
      by (intros ? ? ? ?; by apply outer_loop_fuel).
    gain; by apply Hg.
  - intros n. apply calm_bind; [calm|]. intros pending.
    assert (Ho : ∀ j l, calm false (outer_loop config prompt tools n j l)); [|apply Ho].
    induction j as [|j IHj]; intros l; simpl; calm.
  - apply converges_step; [calm|]. intros pending ? _ _. apply outer_loop_converges.
Qed.
End termination.

(** C2: the loop ends with its host: whenever the host and the hooks offer finitely
    much under some measure, the run of any prompts returns or throws: some fuel is
    enough, and every larger fuel gives the same outcome, state and trace. *)
Theorem run_terminates `{X : Externals} {W : Type} {H : Host W}
    (config : AgentLoopConfig W (ILease W) (SLease W)) (mu : W → nat) prompts cx w :
  finite_host config mu →
  ∃ n, (run_agent_loop config n prompts cx w).1 ≠ OutOfFuel
    ∧ ∀ n', (n ≤ n')%nat → run_agent_loop config n' prompts cx w = run_agent_loop config n prompts cx w.
Proof.
  intros Hfin.
  destruct (run_prompts_converges config mu Hfin (system_prompt cx) (cx_tools cx) prompts
    (mkSt w false (cx_messages cx ++ prompts) prompts prompts false [])) as [n Hn].
  exists n. split; [exact Hn|]. intros n' Hle. by apply run_prompts_fuel.
Qed.
