(* ===== verification/Agent.v ===== *)
(** * The agent

    [pi-agent-core/src/agent.rs]: the pending-message queues, the agent's state as
    the reducer of the loop's events, the lifecycle of a run, steering of the
    active run, and the decisions of [prompt] and [continue_].  The mutexes make
    each operation atomic; the listeners, the hook setters and the loop
    configuration that only copies fields are not modelled. *)
From stdpp Require Import base list numbers gmap strings.
From S2P Require Import Prelude RustStr Watchdog AgentTypes AgentMonad ToolCalls StreamResponse AgentLoop.

Local Open Scope N_scope.

(** ** Queues *)

Inductive QueueMode : Type := All | OneAtATime.

Section queue.
Context {A : Type}.

Record PendingMessageQueue : Type := mkQueue { mode : QueueMode; batches : list (list A) }.

Definition queue_new (m : QueueMode) : PendingMessageQueue := mkQueue m [].

Definition enqueue (batch : list A) (q : PendingMessageQueue) : PendingMessageQueue :=
  if is_empty batch then q else mkQueue (mode q) (batches q ++ [batch]).

Definition enqueue_one (m : A) (q : PendingMessageQueue) : PendingMessageQueue := enqueue [m] q.

Definition has_items (q : PendingMessageQueue) : bool := negb (is_empty (batches q)).

Definition drain (q : PendingMessageQueue) : list A * PendingMessageQueue :=
  match mode q with
  | All => (concat (batches q), mkQueue (mode q) [])
  | OneAtATime =>
      match batches q with
      | first :: rest => (first, mkQueue (mode q) rest)
      | [] => ([], q)
      end
  end.

Definition queue_clear (q : PendingMessageQueue) : PendingMessageQueue := mkQueue (mode q) [].

Definition set_mode (m : QueueMode) (q : PendingMessageQueue) : PendingMessageQueue := mkQueue m (batches q).

(** A batch goes as a whole as soon as one of its messages matches. *)
Definition remove_where (predicate : A → bool) (q : PendingMessageQueue) : list A * PendingMessageQueue :=
  (concat (List.filter (existsb predicate) (batches q)),
   mkQueue (mode q) (List.filter (λ b, negb (existsb predicate b)) (batches q))).

(** *** Sequences of operations *)

Inductive queue_op : Type :=
| Enqueue (batch : list A)
| Drain
| SetMode (m : QueueMode).

(** The queue after an operation, and what the operation handed out. *)
Definition queue_step (o : queue_op) (q : PendingMessageQueue) : list A * PendingMessageQueue :=
  match o with
  | Enqueue b => ([], enqueue b q)
  | Drain => drain q
  | SetMode m => ([], set_mode m q)
  end.

Fixpoint queue_run (ops : list queue_op) (q : PendingMessageQueue) : list A * PendingMessageQueue :=
  match ops with
  | [] => ([], q)
  | o :: ops' =>
      let '(out, q1) := queue_step o q in
      let '(outs, q2) := queue_run ops' q1 in
      (out ++ outs, q2)
  end.

Definition enqueued (ops : list queue_op) : list A :=
  concat (map (λ o, match o with Enqueue b => b | _ => [] end) ops).

(** No queued batch is empty. *)
Definition queue_ok (q : PendingMessageQueue) : Prop := Forall (λ b, b ≠ []) (batches q).

Lemma queue_new_ok m : queue_ok (queue_new m).
Proof. constructor. Qed.

Lemma enqueue_ok b q : queue_ok q → queue_ok (enqueue b q).
Proof.
  intros Hq. unfold enqueue. destruct b as [|x b]; simpl; [done|].
  apply Forall_app. split; [done|by repeat constructor].
Qed.

Lemma drain_ok q : queue_ok q → queue_ok (drain q).2.
Proof.
  intros Hq. unfold drain. destruct (mode q); [constructor|].
  destruct q as [m [|b bs]]; simpl in *; [done|]. by inversion Hq.
Qed.

Lemma queue_step_ok o q : queue_ok q → queue_ok (queue_step o q).2.
Proof. destruct o; [apply enqueue_ok|apply drain_ok|done]. Qed.

Lemma queue_run_ok ops q : queue_ok q → queue_ok (queue_run ops q).2.
Proof.
  revert q. induction ops as [|o ops IH]; intros q Hq; simpl; [done|].
  pose proof (queue_step_ok o q Hq) as Ho. destruct (queue_step o q) as [out q1].
  specialize (IH q1 Ho). by destruct (queue_run ops q1).
Qed.

Lemma drain_nonempty q : queue_ok q → (drain q).1 ≠ [] ↔ has_items q = true.
Proof.
  intros Hq. unfold drain, has_items. destruct q as [[] [|[|x b] bs]]; simpl in *; try done;
    by inversion Hq.
Qed.

Lemma queue_step_conserves o q :
  (queue_step o q).1 ++ concat (batches (queue_step o q).2)
  = concat (batches q) ++ match o with Enqueue b => b | _ => [] end.
Proof.
  destruct o as [b| |m]; simpl.
  - unfold enqueue. destruct b; simpl; [by rewrite app_nil_r|]. by rewrite concat_app; simpl; rewrite app_nil_r.
  - unfold drain. destruct q as [[] [|b bs]]; simpl; by rewrite ?app_nil_r.
  - by rewrite app_nil_r.
Qed.

Lemma queue_run_conserves ops q :
  (queue_run ops q).1 ++ concat (batches (queue_run ops q).2) = concat (batches q) ++ enqueued ops.
Proof.
  revert q. induction ops as [|o ops IH]; intros q; simpl; [by rewrite app_nil_r|].
  pose proof (queue_step_conserves o q) as Ho. destruct (queue_step o q) as [out q1]. simpl in Ho.
  specialize (IH q1). destruct (queue_run ops q1) as [outs q2]. simpl in *.
  rewrite <-(assoc_L (++)), IH. unfold enqueued in *. simpl. by rewrite !(assoc_L (++)), Ho.
Qed.

(** Over any sequence of enqueues, drains and changes of mode, a queue hands out
    the enqueued messages in order, each once: what was handed out, followed by
    what is still queued, is what was enqueued.  A drain hands out something
    exactly when [has_items] says so. *)
Theorem queue_fifo ops m :
  let '(out, q) := queue_run ops (queue_new m) in
  out ++ concat (batches q) = enqueued ops
  ∧ ((drain q).1 ≠ [] ↔ has_items q = true).
Proof.
  pose proof (queue_run_conserves ops (queue_new m)) as Hc.
  pose proof (queue_run_ok ops (queue_new m) (queue_new_ok m)) as Hok.
  destruct (queue_run ops (queue_new m)) as [out q]. split; [done|by apply drain_nonempty].
Qed.

(** Removal takes out exactly the batches with a matching message, whole and in
    order, and keeps the others in order: every message removed comes from a batch
    with a match, and no match is left queued. *)
Theorem remove_where_exact (predicate : A → bool) q :
  let '(removed, q') := remove_where predicate q in
  Permutation (removed ++ concat (batches q')) (concat (batches q))
  ∧ (∀ m, m ∈ concat (batches q') → predicate m = false)
  ∧ (∀ b, b ∈ batches q → existsb predicate b = false → b ∈ batches q')
  ∧ mode q' = mode q.
Proof.
  unfold remove_where. cbn [batches mode]. split; [|split; [|split; [|done]]].
  - induction (batches q) as [|b bs IH]; simpl; [done|].
    destruct (existsb predicate b); simpl.
    + by rewrite <-(assoc_L (++)), IH.
    + rewrite (Permutation_app_comm b), (assoc_L (++)), IH. by rewrite Permutation_app_comm.
  - intros m Hm. apply list_elem_of_In, in_concat in Hm as (b & Hb & Hm).
    apply filter_In in Hb as [_ Hb]. apply negb_true_iff in Hb.
    destruct (predicate m) eqn:Hp; [|done]. exfalso. apply not_true_iff_false in Hb. apply Hb.
    apply existsb_exists. eauto.
  - intros b Hb Hp. apply list_elem_of_In, filter_In. rewrite Hp. split; [|done].
    by apply list_elem_of_In.
Qed.
End queue.
Arguments PendingMessageQueue : clear implicits.
Arguments queue_op : clear implicits.

(** ** State *)

Section agent.
Context {X : Externals}.

(** [AgentState], less the reasoning level and service tier. *)
Record AgentState : Type := mkState {
  s_system_prompt : str;
  s_model_api : str;
  s_model_provider : str;
  s_model_id : str;
  s_tools : option (list AgentTool);
  messages : list AgentMessage;
  is_streaming : bool;
  streaming_message : option AgentMessage;
  pending_tool_calls : gset str;
  s_error_message : option str }.

(** [ActiveRun] with its [ActiveDiagnostics]. *)
Record ActiveRun : Type := mkRun {
  generation : str;
  closed : bool;
  seen : gset str;
  run_messages : list AgentMessage;
  aborted : bool }.

Record Agent : Type := mkAgent {
  state : AgentState;
  steering_queue : PendingMessageQueue AgentMessage;
  follow_up_queue : PendingMessageQueue AgentMessage;
  active_run : option ActiveRun }.

Definition with_state (f : AgentState → AgentState) (a : Agent) : Agent :=
  mkAgent (f (state a)) (steering_queue a) (follow_up_queue a) (active_run a).
Definition with_run (r : option ActiveRun) (a : Agent) : Agent :=
  mkAgent (state a) (steering_queue a) (follow_up_queue a) r.
Definition with_queues (s f : PendingMessageQueue AgentMessage) (a : Agent) : Agent :=
  mkAgent (state a) s f (active_run a).

Definition set_runtime (streaming : bool) (m : option AgentMessage) (s : AgentState) : AgentState :=
  mkState (s_system_prompt s) (s_model_api s) (s_model_provider s) (s_model_id s) (s_tools s)
    (messages s) streaming m (pending_tool_calls s) (s_error_message s).
Definition set_messages (ms : list AgentMessage) (s : AgentState) : AgentState :=
  mkState (s_system_prompt s) (s_model_api s) (s_model_provider s) (s_model_id s) (s_tools s)
    ms (is_streaming s) (streaming_message s) (pending_tool_calls s) (s_error_message s).
Definition set_pending (p : gset str) (s : AgentState) : AgentState :=
  mkState (s_system_prompt s) (s_model_api s) (s_model_provider s) (s_model_id s) (s_tools s)
    (messages s) (is_streaming s) (streaming_message s) p (s_error_message s).
Definition set_error_message (e : option str) (s : AgentState) : AgentState :=
  mkState (s_system_prompt s) (s_model_api s) (s_model_provider s) (s_model_id s) (s_tools s)
    (messages s) (is_streaming s) (streaming_message s) (pending_tool_calls s) e.

(** *** Queue operations *)

Definition steer (b : list AgentMessage) (a : Agent) : Agent :=
  with_queues (enqueue b (steering_queue a)) (follow_up_queue a) a.
Definition follow_up (b : list AgentMessage) (a : Agent) : Agent :=
  with_queues (steering_queue a) (enqueue b (follow_up_queue a)) a.
Definition set_steering_mode (m : QueueMode) (a : Agent) : Agent :=
  with_queues (set_mode m (steering_queue a)) (follow_up_queue a) a.
Definition set_follow_up_mode (m : QueueMode) (a : Agent) : Agent :=
  with_queues (steering_queue a) (set_mode m (follow_up_queue a)) a.
Definition clear_steering_queue (a : Agent) : Agent :=
  with_queues (queue_clear (steering_queue a)) (follow_up_queue a) a.
Definition clear_follow_up_queue (a : Agent) : Agent :=
  with_queues (steering_queue a) (queue_clear (follow_up_queue a)) a.
Definition clear_all_queues (a : Agent) : Agent := clear_follow_up_queue (clear_steering_queue a).

Definition remove_queued_messages (predicate : AgentMessage → bool) (a : Agent)
    : list AgentMessage * Agent :=
  let '(r1, q1) := remove_where predicate (steering_queue a) in
  let '(r2, q2) := remove_where predicate (follow_up_queue a) in
  (r1 ++ r2, with_queues q1 q2 a).

Definition has_queued_messages (a : Agent) : bool :=
  has_items (steering_queue a) || has_items (follow_up_queue a).

Definition reset (a : Agent) : Agent :=
  clear_steering_queue (clear_follow_up_queue
    (with_state (λ s, set_error_message None (set_pending ∅ (set_runtime false None (set_messages [] s)))) a)).

(** *** The active run *)

Definition is_running (a : Agent) : bool := match active_run a with Some _ => true | None => false end.

Definition abort (a : Agent) : Agent :=
  match active_run a with
  | Some r => with_run (Some (mkRun (generation r) (closed r) (seen r) (run_messages r) true)) a
  | None => a
  end.

Definition active_execution_generation (a : Agent) : option str :=
  match active_run a with
  | Some r => if negb (closed r) && negb (aborted r) then Some (generation r) else None
  | None => None
  end.

Definition steer_active (gen id : str) (m : AgentMessage) (a : Agent) : str * Agent :=
  match active_run a with
  | None => (lit "declined_idle", a)
  | Some r =>
      if closed r || aborted r then (lit "declined_stopped", a)
      else if negb (str_eqb (generation r) gen) then (lit "declined_generation", a)
      else if decide (id ∈ seen r) then (lit "duplicate", a)
      else if (256 <=? N.of_nat (size (seen r))) || (32 <=? len (run_messages r))
      then (lit "declined_capacity", a)
      else (lit "accepted",
            with_run (Some (mkRun (generation r) (closed r) ({[ id ]} ∪ seen r)
                              (run_messages r ++ [m]) (aborted r))) a)
  end.

(** The closure behind [get_steering_messages], with its one-shot [skip] flag. *)
Definition poll_steering (skip : bool) (a : Agent) : list AgentMessage * Agent :=
  if skip then ([], a)
  else
    let '(drained, q) := drain (steering_queue a) in
    let a := with_queues q (follow_up_queue a) a in
    match active_run a with
    | Some r =>
        if negb (closed r) && negb (aborted r)
        then (drained ++ run_messages r,
              with_run (Some (mkRun (generation r) (closed r) (seen r) [] (aborted r))) a)
        else (drained, a)
    | None => (drained, a)
    end.

Definition poll_follow_up (a : Agent) : list AgentMessage * Agent :=
  let '(drained, q) := drain (follow_up_queue a) in (drained, with_queues (steering_queue a) q a).

(** *** Events *)

(** The match of [process_events]. *)
Definition reduce (e : AgentEvent) (s : AgentState) : AgentState :=
  match e with
  | MessageStart m | MessageUpdate m _ => set_runtime (is_streaming s) (Some m) s
  | MessageEnd m => set_messages (messages s ++ [m]) (set_runtime (is_streaming s) None s)
  | ToolExecutionStart id _ _ => set_pending ({[ id ]} ∪ pending_tool_calls s) s
  | ToolExecutionEnd id _ _ _ => set_pending (pending_tool_calls s ∖ {[ id ]}) s
  | TurnEnd (LlmMessage (Assistant am)) _ =>
      match error_message am with Some e => set_error_message (Some e) s | None => s end
  | TurnEnd _ _ => s
  | AgentEnd _ => set_runtime (is_streaming s) None s
  | ToolExecutionUpdate _ _ _ _ | AgentStart | TurnStart => s
  end.

(** [process_events]: [None] is the panic outside an active run. *)
Definition process_events (e : AgentEvent) (a : Agent) : option Agent :=
  let a := with_state (reduce e) a in if is_running a then Some a else None.

Fixpoint process_all (es : list AgentEvent) (a : Agent) : option Agent :=
  match es with
  | [] => Some a
  | e :: es' => a' ← process_events e a; process_all es' a'
  end.

(** *** Lifecycle *)

Definition failure_message (error : str) (was_aborted : bool) (now : Z) (s : AgentState) : AssistantMessage :=
  mkAssistant [Text (text_new error)] (s_model_api s) (s_model_provider s) (s_model_id s) None None
    (if was_aborted then None else Some [lifecycle_diagnostic error]) usage_zero
    (if was_aborted then STOP_REASON_ABORTED else STOP_REASON_ERROR) None (Some error) now.

Definition handle_run_failure (error : str) (was_aborted : bool) (now : Z) (a : Agent) : option Agent :=
  let m := of_assistant (failure_message error was_aborted now (state a)) in
  process_all [MessageStart m; MessageEnd m; AgentEnd [m]] (with_state (set_error_message (Some error)) a).

Definition begin_run (gen : str) (a : Agent) : Agent :=
  with_state (λ s, set_error_message None (set_runtime true None s))
    (with_run (Some (mkRun gen false ∅ [] false)) a).

Definition finish_run (a : Agent) : Agent :=
  with_run None (with_state (λ s, set_pending ∅ (set_runtime false None s)) a).

(** [run_with_lifecycle] around an executor that hands the events [es] to the sink
    and then returns [r]; [was_aborted] and [now] are read when it failed. *)
Definition run_with_lifecycle (gen : str) (es : list AgentEvent) (r : result unit str)
    (was_aborted : bool) (now : Z) (a : Agent) : option (result unit str * Agent) :=
  if is_running a then Some (Err (lit "Agent is already processing."), a)
  else
    a ← process_all es (begin_run gen a);
    a ← match r with Ok _ => Some a | Err e => handle_run_failure e was_aborted now a end;
    Some (Ok (), finish_run a).

Definition create_context_snapshot (a : Agent) : AgentContext :=
  mkContext (s_system_prompt (state a)) (messages (state a)) (s_tools (state a)).

(** *** Prompting and continuing *)

(** The run an operation starts. *)
Inductive Plan : Type :=
| RunPrompts (ms : list AgentMessage) (skip_initial_steering_poll : bool)
| RunContinuation.

Inductive ContinueError : Type := Busy | NothingToContinue.

(** [prompt], with the input already normalized. *)
Definition plan_prompt (ms : list AgentMessage) (a : Agent) : result Plan str :=
  if is_running a
  then Err (lit "Agent is already processing a prompt. Use steer() or followUp() to queue messages, or wait for completion.")
  else Ok (RunPrompts ms false).

(** [run_queued_messages]: steering first, then follow-ups. *)
Definition run_queued_messages (a : Agent) : option Plan * Agent :=
  let '(steering, q) := drain (steering_queue a) in
  let a := with_queues q (follow_up_queue a) a in
  match steering with
  | _ :: _ => (Some (RunPrompts steering true), a)
  | [] =>
      let '(follow_ups, q) := drain (follow_up_queue a) in
      let a := with_queues (steering_queue a) q a in
      match follow_ups with
      | _ :: _ => (Some (RunPrompts follow_ups false), a)
      | [] => (None, a)
      end
  end.

(** [custom_tail_converts_to_continuable_role], on the converter's result. *)
Definition continuable_tail (converted : list Message) : bool :=
  match last converted with Some (User _) | Some (ToolResult _) => true | _ => false end.

(** [continue_] up to the run it starts; [convert] is the installed converter. *)
Definition continue_ (convert : list AgentMessage → list Message) (a : Agent)
    : result Plan ContinueError * Agent :=
  if is_running a then (Err Busy, a)
  else
    let or_nothing (k : Agent → result Plan ContinueError * Agent) :=
      match run_queued_messages a with
      | (Some plan, a') => (Ok plan, a')
      | (None, a') => k a'
      end in
    match last (messages (state a)) with
    | None => or_nothing (λ a', (Err NothingToContinue, a'))
    | Some m =>
        if str_eqb (role m) (lit "assistant") then or_nothing (λ a', (Err NothingToContinue, a'))
        else if str_eqb (role m) (lit "custom") then
          or_nothing (λ a',
            if continuable_tail (convert (messages (state a'))) then (Ok RunContinuation, a')
            else (Err NothingToContinue, a'))
        else (Ok RunContinuation, a)
    end.

(** ** Facts *)

(** The messages whose end a list of events announces. *)
Definition ended_messages (es : list AgentEvent) : list AgentMessage :=
  omap (λ e, match e with MessageEnd m => Some m | _ => None end) es.

Lemma reduce_messages e s : messages (reduce e s) = messages s ++ ended_messages [e].
Proof.
  destruct e as [|ms| |[[u|am|r]|c] rs|m|m ev|m|i n v|i n v r|i n r b]; simpl; rewrite ?app_nil_r; try done.
  by destruct (error_message am).
Qed.

(** What the events of a run leave alone. *)
Definition same_but_state (a a' : Agent) : Prop :=
  steering_queue a' = steering_queue a ∧ follow_up_queue a' = follow_up_queue a
  ∧ active_run a' = active_run a ∧ s_model_api (state a') = s_model_api (state a)
  ∧ s_model_provider (state a') = s_model_provider (state a) ∧ s_model_id (state a') = s_model_id (state a).

Lemma reduce_same e a : same_but_state a (with_state (reduce e) a).
Proof.
  destruct e as [|ms| |[[u|am|r]|c] rs|m|m ev|m|i n v|i n v r|i n r b]; try by repeat split.
  unfold same_but_state. simpl. by destruct (error_message am).
Qed.

Lemma same_trans a b c : same_but_state a b → same_but_state b c → same_but_state a c.
Proof. unfold same_but_state. intuition congruence. Qed.

Lemma process_all_spec es a :
  is_running a = true →
  ∃ a', process_all es a = Some a' ∧ same_but_state a a'
        ∧ messages (state a') = messages (state a) ++ ended_messages es.
Proof.
  revert a. induction es as [|e es IH]; intros a Hr; simpl.
  { exists a. rewrite app_nil_r. by repeat split. }
  assert (Hp : process_events e a = Some (with_state (reduce e) a)) by (unfold process_events, is_running in *; simpl; by rewrite Hr).
  rewrite Hp. simpl. destruct (IH (with_state (reduce e) a)) as (a' & Ha & Hs & Hm); [done|].
  exists a'. split; [done|]. split; [by eapply same_trans; [apply (reduce_same e)|]|].
  rewrite Hm. simpl. rewrite reduce_messages, <-(assoc_L (++)). simpl. by destruct e.
Qed.

(** An agent that waits for work. *)
Definition idle (a : Agent) : Prop :=
  is_running a = false ∧ is_streaming (state a) = false ∧ streaming_message (state a) = None
  ∧ pending_tool_calls (state a) = ∅.

Lemma lifecycle_spec gen es r was_aborted now a :
  is_running a = false →
  ∃ a', run_with_lifecycle gen es r was_aborted now a = Some (Ok (), a') ∧ idle a'
    ∧ steering_queue a' = steering_queue a ∧ follow_up_queue a' = follow_up_queue a
    ∧ messages (state a') = messages (state a) ++ ended_messages es
        ++ match r with
           | Ok _ => []
           | Err e => [of_assistant (failure_message e was_aborted now (state a))]
           end.
Proof.
  intros Hr. unfold run_with_lifecycle. rewrite Hr.
  destruct (process_all_spec es (begin_run gen a) eq_refl) as (a1 & -> & (Hq1 & Hq2 & Hrun & Hm1 & Hm2 & Hm3) & Hm).
  simpl in *. destruct r as [u|e]; simpl.
  - eexists. split; [done|]. split; [done|]. rewrite app_nil_r. simpl. auto.
  - unfold handle_run_failure.
    set (f := of_assistant (failure_message e was_aborted now (state a1))).
    destruct (process_all_spec [MessageStart f; MessageEnd f; AgentEnd [f]]
      (with_state (set_error_message (Some e)) a1)) as (a2 & -> & (Hp1 & Hp2 & _) & Hn).
    { unfold is_running. simpl. by rewrite Hrun. }
    simpl in *. eexists. split; [done|]. split; [done|]. simpl.
    split; [by rewrite Hp1|]. split; [by rewrite Hp2|]. rewrite Hn, Hm, <-(assoc_L (++)). do 3 f_equal.
    unfold f, failure_message. by rewrite Hm1, Hm2, Hm3.
Qed.

(** C37: a run always gives the agent back: whatever events it emitted and however it
    ended, the lifecycle neither panics nor leaves the agent busy, streaming or
    with pending calls; the transcript has grown by exactly the messages whose end
    was announced, plus one failure message when the run failed, and the queues
    are untouched. *)
Theorem lifecycle_settles gen es r was_aborted now a :
  is_running a = false →
  ∃ a', run_with_lifecycle gen es r was_aborted now a = Some (Ok (), a') ∧ idle a'
    ∧ steering_queue a' = steering_queue a ∧ follow_up_queue a' = follow_up_queue a
    ∧ messages (state a') = messages (state a) ++ ended_messages es
        ++ match r with
           | Ok _ => []
           | Err e => [of_assistant (failure_message e was_aborted now (state a))]
           end.
Proof. apply lifecycle_spec. Qed.


(** *** Continuing *)

Lemma drain_cases {A} (q : PendingMessageQueue A) :
  queue_ok q →
  (has_items q = true ∧ (drain q).1 ≠ [] ∧ (drain q).1 ++ concat (batches (drain q).2) = concat (batches q))
  ∨ (has_items q = false ∧ (drain q).1 = [] ∧ (drain q).2 = q).
Proof.
  intros Hq. unfold drain, has_items. destruct q as [[] [|[|x b] bs]]; simpl in *;
    try (right; done); try (by inversion Hq); left; rewrite ?app_nil_r; done.
Qed.

Lemma run_queued_spec a :
  queue_ok (steering_queue a) → queue_ok (follow_up_queue a) →
  match run_queued_messages a with
  | (Some (RunPrompts ms true), a') =>
      ms ≠ [] ∧ ms ++ concat (batches (steering_queue a')) = concat (batches (steering_queue a))
      ∧ follow_up_queue a' = follow_up_queue a ∧ state a' = state a
  | (Some (RunPrompts ms false), a') =>
      ms ≠ [] ∧ has_items (steering_queue a) = false ∧ steering_queue a' = steering_queue a
      ∧ ms ++ concat (batches (follow_up_queue a')) = concat (batches (follow_up_queue a))
      ∧ state a' = state a
  | (Some RunContinuation, _) => False
  | (None, a') => has_queued_messages a = false ∧ a' = a
  end.
Proof.
  intros Hs Hf. unfold run_queued_messages, has_queued_messages.
  destruct (drain_cases _ Hs) as [(Hi & Hne & Hc)|(Hi & Hnil & Hq)];
    destruct (drain (steering_queue a)) as [ms q]; simpl in *.
  - destruct ms; [done|]. auto.
  - subst ms q. destruct (drain_cases _ Hf) as [(Hi2 & Hne & Hc)|(Hi2 & Hnil & Hq)];
      destruct (drain (follow_up_queue a)) as [fs q]; simpl in *.
    + destruct fs; [done|]. auto 6.
    + subst fs q. rewrite Hi, Hi2. split; [done|]. by destruct a.
Qed.

(** [continue_] either starts a sensible run or changes nothing.  It is refused
    as busy exactly while a run is active; a prompt run it starts has the oldest
    steering batch (or all of it, by the mode), or a follow-up only when no
    steering is queued, and takes no other message out of a queue; a continuation
    run starts from a context that the loop accepts; and it reports that there is
    nothing to continue only when no message is queued. *)
Theorem continue_starts_valid_run convert a :
  queue_ok (steering_queue a) → queue_ok (follow_up_queue a) →
  match continue_ convert a with
  | (Err Busy, a') => is_running a = true ∧ a' = a
  | (Err NothingToContinue, a') => is_running a = false ∧ has_queued_messages a = false ∧ a' = a
  | (Ok RunContinuation, a') =>
      is_running a = false ∧ a' = a ∧ messages (state a) ≠ []
      ∧ ends_with_assistant (messages (state a)) = false
  | (Ok (RunPrompts ms true), a') =>
      is_running a = false ∧ ms ≠ []
      ∧ ms ++ concat (batches (steering_queue a')) = concat (batches (steering_queue a))
      ∧ follow_up_queue a' = follow_up_queue a ∧ state a' = state a
  | (Ok (RunPrompts ms false), a') =>
      is_running a = false ∧ ms ≠ [] ∧ has_items (steering_queue a) = false
      ∧ steering_queue a' = steering_queue a
      ∧ ms ++ concat (batches (follow_up_queue a')) = concat (batches (follow_up_queue a))
      ∧ state a' = state a
  end.
Proof.
  intros Hs Hf. pose proof (run_queued_spec a Hs Hf) as Hrq. unfold continue_, ends_with_assistant.
  destruct (is_running a) eqn:Hr; [done|].
  assert (Hne : ∀ m, last (messages (state a)) = Some m → messages (state a) ≠ []).
  { intros m Hm Hnil. by rewrite Hnil in Hm. }
  destruct (last (messages (state a))) as [m|] eqn:Hl.
  - destruct (str_eqb (role m) (lit "assistant")) eqn:Has;
      [|destruct (str_eqb (role m) (lit "custom"))].
    + destruct (run_queued_messages a) as [[[ms []|]|] a']; try done; destruct Hrq as [? ->]; auto.
    + destruct (run_queued_messages a) as [[[ms []|]|] a']; try done. destruct Hrq as [? ->].
      destruct (continuable_tail _); eauto 7.
    + eauto 7.
  - destruct (run_queued_messages a) as [[[ms []|]|] a']; try done; destruct Hrq as [? ->]; auto.
Qed.

(** *** Steering the active run *)

Inductive run_op : Type :=
| Steered (gen id : str) (m : AgentMessage)
| Polled
| AbortedRun.

(** The agent after an operation, the id and message it accepted, and the messages
    it delivered to the run. *)
Definition run_step (o : run_op) (a : Agent) : list (str * AgentMessage) * list AgentMessage * Agent :=
  match o with
  | Steered gen id m =>
      let '(verdict, a') := steer_active gen id m a in
      (if str_eqb verdict (lit "accepted") then [(id, m)] else [], [], a')
  | Polled => let '(ms, a') := poll_steering false a in ([], ms, a')
  | AbortedRun => ([], [], abort a)
  end.

Fixpoint run_ops (ops : list run_op) (a : Agent) : list (str * AgentMessage) * list AgentMessage * Agent :=
  match ops with
  | [] => ([], [], a)
  | o :: ops' =>
      let '(acc, del, a1) := run_step o a in
      let '(accs, dels, a2) := run_ops ops' a1 in
      (acc ++ accs, del ++ dels, a2)
  end.

(** The run has accepted [acc], delivered [del] and waits to deliver the rest. *)
Definition steering_inv (acc : list (str * AgentMessage)) (del : list AgentMessage) (a : Agent) : Prop :=
  batches (steering_queue a) = [] ∧ ∃ r, active_run a = Some r
  ∧ NoDup (map fst acc) ∧ seen r = list_to_set (map fst acc)
  ∧ del ++ run_messages r = map snd acc ∧ (length acc ≤ 256)%nat ∧ (length (run_messages r) ≤ 32)%nat.

Lemma drain_empty {A} (q : PendingMessageQueue A) : batches q = [] → drain q = ([], q).
Proof. destruct q as [[] bs]; simpl; by intros ->. Qed.

Lemma run_step_inv o acc del a :
  steering_inv acc del a →
  let '(acc', del', a') := run_step o a in steering_inv (acc ++ acc') (del ++ del') a'.
Proof.
  intros (Hq & r & Hr & Hnd & Hseen & Hdel & Hcap1 & Hcap2).
  assert (Hsame : steering_inv (acc ++ []) (del ++ []) a).
  { rewrite !app_nil_r. split; [done|]. exists r. auto 7. }
  destruct o as [gen id m| |]; unfold run_step.
  - unfold steer_active. rewrite Hr.
    destruct (closed r || aborted r); [exact Hsame|].
    destruct (negb (str_eqb (generation r) gen)); [exact Hsame|].
    destruct (decide (id ∈ seen r)) as [|Hfresh]; [exact Hsame|].
    destruct ((256 <=? N.of_nat (size (seen r))) || (32 <=? len (run_messages r))) eqn:Hcap; [exact Hsame|].
    apply orb_false_iff in Hcap as [Hs1 Hs2]. apply N.leb_gt in Hs1, Hs2. unfold len in Hs2.
    rewrite str_eqb_refl.
    assert (Hsz : size (seen r) = length acc).
    { rewrite Hseen, size_list_to_set by done. by rewrite length_map. }
    split; [done|]. eexists. split; [done|]. rewrite !map_app, app_nil_r. simpl.
    split; [|split; [|split; [|split]]].
    + apply NoDup_app. split; [done|]. split; [|apply NoDup_singleton].
      intros i Hi ->%list_elem_of_singleton. apply Hfresh. rewrite Hseen. by apply elem_of_list_to_set.
    + rewrite Hseen, list_to_set_app_L. simpl. set_solver.
    + by rewrite (assoc_L (++)), Hdel.
    + rewrite length_app. simpl. lia.
    + rewrite length_app. simpl. lia.
  - unfold poll_steering. rewrite (drain_empty _ Hq). cbn [with_queues active_run]. rewrite Hr.
    destruct (negb (closed r) && negb (aborted r)).
    + split; [done|]. eexists. split; [done|]. simpl. rewrite !app_nil_r. auto 6 with lia.
    + rewrite !app_nil_r. split; [done|]. exists r. auto 7.
  - unfold abort. rewrite Hr. split; [done|]. eexists. split; [done|]. rewrite !app_nil_r. auto 7.
Qed.

Lemma run_ops_inv ops acc del a :
  steering_inv acc del a →
  let '(acc', del', a') := run_ops ops a in steering_inv (acc ++ acc') (del ++ del') a'.
Proof.
  revert acc del a. induction ops as [|o ops IH]; intros acc del a Hi; simpl.
  { by rewrite !app_nil_r. }
  pose proof (run_step_inv o acc del a Hi) as Ho. destruct (run_step o a) as [[acc1 del1] a1].
  specialize (IH _ _ _ Ho). destruct (run_ops ops a1) as [[acc2 del2] a2].
  by rewrite !(assoc_L (++)).
Qed.

(** C38: over any sequence of steering requests, polls and aborts of an active run,
    each id is accepted at most once, the accepted messages are delivered to the
    run in order and each once (the rest is still waiting), and the bounds of 256
    ids and 32 waiting messages hold. *)
Theorem steer_active_exactly_once ops gen a :
  batches (steering_queue a) = [] →
  let '(acc, del, a') := run_ops ops (begin_run gen a) in
  NoDup (map fst acc) ∧ (length acc ≤ 256)%nat
  ∧ ∃ r, active_run a' = Some r ∧ del ++ run_messages r = map snd acc
         ∧ (length (run_messages r) ≤ 32)%nat.
Proof.
  intros Hq. pose proof (run_ops_inv ops [] [] (begin_run gen a)) as Hi.
  destruct (run_ops ops (begin_run gen a)) as [[acc del] a']. destruct Hi as (_ & r & ? & ? & ? & ? & ? & ?).
  { split; [done|]. eexists. split; [done|]. simpl. repeat split; [constructor|lia|lia]. }
  eauto 7.
Qed.
End agent.

(** ** The agent around a run *)

Section run.
Context {X : Externals} {W : Type} {H : Host W}.

(** The events a run handed to the sink. *)
Definition emitted (l : list (bool * action)) : list AgentEvent :=
  omap (λ x, match x.2 with Emitted e => Some e | _ => None end) l.

Definition end_of (x : mark) : option AgentMessage := match x with EndOf m => Some m | EndOfRun _ => None end.

Lemma ended_messages_emitted l : ended_messages (emitted l) = omap end_of (marks l).
Proof.
  induction l as [|[c [e|r|t|t p|fr]] l IH]; simpl; try done.
  destruct e; simpl; try exact IH. f_equal. exact IH.
Qed.

Lemma omap_end_of ms : omap end_of (map EndOf ms) = ms.
Proof. induction ms as [|m ms IH]; simpl; [done|]. f_equal. exact IH. Qed.

(** C4: an idle agent that runs a prompt to its end has, afterwards, exactly the
    messages the loop returned appended to its transcript, in order and each once,
    and is idle again: the state kept from the event stream and the loop's own
    list agree. *)
Theorem transcript_matches_run (config : AgentLoopConfig W (ILease W) (SLease W))
    fuel prompts w ms st' gen was_aborted now a :
  (∀ e w, (sink W e w).1 ≠ Err ABORT_ERROR_MESSAGE) →
  is_running a = false →
  run_agent_loop config fuel prompts (create_context_snapshot a) w = (Returned ms, st') →
  ∃ a', run_with_lifecycle gen (emitted (trace st')) (Ok ()) was_aborted now a = Some (Ok (), a')
    ∧ idle a' ∧ messages (state a') = messages (state a) ++ ms.
Proof.
  intros Hsink Hr Hrun.
  destruct (run_prompts_returned _ _ _ _ _ _ _ _ Hsink Hrun) as (ts & Hms & _ & (new & (Htr & _) & Hmk) & _).
  destruct (lifecycle_spec gen (emitted (trace st')) (Ok ()) was_aborted now a Hr)
    as (a' & Ha & Hi & _ & _ & Hm). exists a'. split; [done|]. split; [done|].
  rewrite Hm, app_nil_r, ended_messages_emitted, Htr. simpl. rewrite Hmk, omap_app, omap_end_of, Hms.
  simpl. by rewrite app_nil_r.
Qed.
End run.
