(* ===== verification/TransformMessages.v ===== *)
(** * Messages of a request

    [pi-ai/src/providers/transform_messages.rs]: what every provider client makes of
    a transcript before it serializes a request.  A first pass replaces images the
    model cannot see, drops or flattens reasoning that belongs to another model and
    renames tool calls to ids the provider accepts; a second pass leaves out failed
    replies and orphaned results and answers the calls that have no result.  The id
    normalization of a provider and the clock are arguments. *)
From stdpp Require Import base list gmap strings.
From S2P Require Import Prelude RustStr Watchdog AgentTypes AgentMonad ToolCalls StreamResponse.

Local Open Scope N_scope.

(** ** Models and checkpoints *)

Inductive InputModality : Type := InputText | InputImage.

(** The fields of [Model] that are read here. *)
Record Model : Type := mkModel {
  m_id : str;
  m_api : str;
  m_provider : str;
  m_base_url : str;
  m_input : list InputModality;
  native_compaction : option str }.

(** [value.trim_end_matches('/')]. *)
Fixpoint trim_trailing_slashes (s : str) : str :=
  match s with
  | [] => []
  | c :: s' =>
      match trim_trailing_slashes s' with
      | [] => if c =? 47 then [] else [c]
      | r => c :: r
      end
  end.

Section transform.
Context {X : Externals}.

Definition compaction_matches_model (cp : ProviderCompactionCheckpoint) (model : Model) : bool :=
  if negb (str_eqb (cp_provider cp) (m_provider model)) then false
  else if negb (str_eqb (cp_model cp) (m_id model)) then false
  else if negb (str_eqb (cp_api cp) (m_api model)) then false
  else if negb (str_eqb (trim_trailing_slashes (cp_base_url cp)) (trim_trailing_slashes (m_base_url model)))
  then false
  else match cp_endpoint cp, native_compaction model with
       | None, None => true
       | Some endpoint, Some native => str_eqb (trim_trailing_slashes endpoint) (trim_trailing_slashes native)
       | _, _ => false
       end.

(** ** Images *)

Definition NON_VISION_USER_IMAGE_PLACEHOLDER : str := lit "(image omitted: model does not support images)".
Definition NON_VISION_TOOL_IMAGE_PLACEHOLDER : str :=
  lit "(tool image omitted: model does not support images)".

Fixpoint replace_images (placeholder : str) (previous_was_placeholder : bool) (content : list ResultBlock)
    : list TextContent :=
  match content with
  | [] => []
  | RImage _ :: rest =>
      (if previous_was_placeholder then [] else [text_new placeholder]) ++ replace_images placeholder true rest
  | RText t :: rest => t :: replace_images placeholder (str_eqb (text t) placeholder) rest
  end.

Definition replace_images_with_placeholder (content : list ResultBlock) (placeholder : str) : list TextContent :=
  replace_images placeholder false content.

Definition supports_images (model : Model) : bool :=
  existsb (λ m, match m with InputImage => true | InputText => false end) (m_input model).

Definition downgrade_message (m : Message) : Message :=
  match m with
  | User u =>
      match u_content u with
      | UBlocks blocks =>
          User (mkUser (UBlocks (map RText (replace_images_with_placeholder blocks NON_VISION_USER_IMAGE_PLACEHOLDER)))
                  (provider_context u) (u_timestamp u))
      | UText _ => User u
      end
  | ToolResult r =>
      ToolResult (mkToolResult (tool_call_id r) (tool_name r)
        (map RText (replace_images_with_placeholder (tr_content r) NON_VISION_TOOL_IMAGE_PLACEHOLDER))
        (tr_details r) (tr_is_error r) (tr_timestamp r))
  | Assistant a => Assistant a
  end.

Definition downgrade_unsupported_images (messages : list Message) (model : Model) : list Message :=
  if supports_images model then messages else map downgrade_message messages.

(** ** The first pass *)

Abbreviation IdMap := (gmap str str).

Section pass.
Variable model : Model.
Variable normalize_tool_call_id : option (str → Model → AssistantMessage → str).

Definition FOREIGN_CHECKPOINT : str :=
  lit "Compaction checkpoint belongs to another model or provider; rebuild context from the session transcript".

Definition is_same_model (a : AssistantMessage) : bool :=
  str_eqb (provider a) (m_provider model) && str_eqb (api a) (m_api model) && str_eqb (am_model a) (m_id model).

Definition transform_thinking (same : bool) (t : ThinkingContent) : list ContentBlock :=
  if match redacted t with Some b => b | None => false end
  then if same then [Thinking t] else []
  else if same && match thinking_signature t with Some _ => true | None => false end then [Thinking t]
  else if is_empty (thinking t) || is_empty (trim (thinking t)) then []
  else if same then [Thinking t]
  else [Text (text_new (thinking t))].

Definition transform_call (a : AssistantMessage) (c : ToolCall) (ids : IdMap) : IdMap * ToolCall :=
  let same := is_same_model a in
  let signature := if same then thought_signature c else None in
  match normalize_tool_call_id with
  | Some normalize =>
      let normalized_id := normalize (tc_id c) model a in
      if negb same && negb (str_eqb normalized_id (tc_id c))
      then (<[tc_id c := normalized_id]> ids, mkCall normalized_id (tc_name c) (arguments c) signature)
      else (ids, mkCall (tc_id c) (tc_name c) (arguments c) signature)
  | None => (ids, mkCall (tc_id c) (tc_name c) (arguments c) signature)
  end.

Fixpoint transform_blocks (a : AssistantMessage) (blocks : list ContentBlock) (ids : IdMap)
    : IdMap * list ContentBlock :=
  match blocks with
  | [] => (ids, [])
  | b :: rest =>
      let '(ids', out) :=
        match b with
        | Thinking t => (ids, transform_thinking (is_same_model a) t)
        | Text t => (ids, [Text (if is_same_model a then t else text_new (text t))])
        | ToolCallBlock c => let '(ids', c') := transform_call a c ids in (ids', [ToolCallBlock c'])
        end in
      let '(ids'', out') := transform_blocks a rest ids' in (ids'', out ++ out')
  end.

Definition set_content (a : AssistantMessage) (c : list ContentBlock) : AssistantMessage :=
  mkAssistant c (api a) (provider a) (am_model a) (response_model a) (response_id a) (diagnostics a)
    (usage a) (stop_reason a) (stop_reason_raw a) (error_message a) (am_timestamp a).

Definition set_call_id (r : ToolResultMessage) (id : str) : ToolResultMessage :=
  mkToolResult id (tool_name r) (tr_content r) (tr_details r) (tr_is_error r) (tr_timestamp r).

Definition transform_message (m : Message) (ids : IdMap) : result (IdMap * Message) str :=
  match m with
  | User u =>
      match provider_context u with
      | Some cp => if compaction_matches_model cp model then Ok (ids, User u) else Err FOREIGN_CHECKPOINT
      | None => Ok (ids, User u)
      end
  | ToolResult r =>
      Ok (ids, ToolResult (match ids !! tool_call_id r with Some id => set_call_id r id | None => r end))
  | Assistant a =>
      let '(ids', c) := transform_blocks a (content a) ids in Ok (ids', Assistant (set_content a c))
  end.

Fixpoint transform_all (messages : list Message) (ids : IdMap) : result (list Message) str :=
  match messages with
  | [] => Ok []
  | m :: rest =>
      let* p := transform_message m ids in
      let* out := transform_all rest p.1 in
      Ok (p.2 :: out)
  end.
End pass.

(** ** The second pass *)

(** The variables of the loop; [ticks] counts the readings of the clock. *)
Record Repair : Type := mkRepair {
  rp_result : list Message;
  pending_tool_calls : list ToolCall;
  existing_tool_result_ids : gset str;
  ticks : nat }.

Section repair.
Variable now_ms : nat → Z.

(** [ToolResultMessage::new] for a call without a result. *)
Definition synthetic_result (c : ToolCall) (now : Z) : ToolResultMessage :=
  mkToolResult (tc_id c) (tc_name c) [RText (text_new (lit "No result provided"))] None true now.

Fixpoint synthetic_results (calls : list ToolCall) (existing : gset str) (ticks : nat)
    : list ToolResultMessage * nat :=
  match calls with
  | [] => ([], ticks)
  | c :: rest =>
      if bool_decide (tc_id c ∈ existing) then synthetic_results rest existing ticks
      else let '(rs, n) := synthetic_results rest existing (S ticks) in
           (synthetic_result c (now_ms ticks) :: rs, n)
  end.

Definition insert_synthetic_tool_results (st : Repair) : Repair :=
  match pending_tool_calls st with
  | [] => st
  | calls =>
      let '(rs, n) := synthetic_results calls (existing_tool_result_ids st) (ticks st) in
      mkRepair (rp_result st ++ map ToolResult rs) [] ∅ n
  end.

Definition push_message (m : Message) (st : Repair) : Repair :=
  mkRepair (rp_result st ++ [m]) (pending_tool_calls st) (existing_tool_result_ids st) (ticks st).

Definition repair_step (st : Repair) (m : Message) : Repair :=
  match m with
  | Assistant a =>
      let st := insert_synthetic_tool_results st in
      if is_failure a then st
      else
        let calls := message_tool_calls a in
        push_message m (match calls with
                        | [] => st
                        | _ => mkRepair (rp_result st) calls ∅ (ticks st)
                        end)
  | ToolResult r =>
      if negb (existsb (λ c, str_eqb (tc_id c) (tool_call_id r)) (pending_tool_calls st)) then st
      else push_message m (mkRepair (rp_result st) (pending_tool_calls st)
                             ({[ tool_call_id r ]} ∪ existing_tool_result_ids st) (ticks st))
  | User _ => push_message m (insert_synthetic_tool_results st)
  end.

Definition repair (messages : list Message) : list Message :=
  rp_result (insert_synthetic_tool_results (fold_left repair_step messages (mkRepair [] [] ∅ 0))).

(** [try_transform_messages]. *)
Definition try_transform_messages (messages : list Message) (model : Model)
    (normalize_tool_call_id : option (str → Model → AssistantMessage → str)) : result (list Message) str :=
  let image_aware_messages := downgrade_unsupported_images messages model in
  let* transformed := transform_all model normalize_tool_call_id image_aware_messages ∅ in
  Ok (repair transformed).
End repair.

(** ** What a request may contain *)

Definition call_ids (a : AssistantMessage) : list str := map tc_id (message_tool_calls a).

(** The results of a reply: each belongs to one of its calls, and every call has one. *)
Definition answered (a : AssistantMessage) (rs : list ToolResultMessage) : Prop :=
  (∀ r, r ∈ rs → tool_call_id r ∈ call_ids a) ∧ (∀ id, id ∈ call_ids a → id ∈ map tool_call_id rs).

(** The shape every provider accepts: users and replies that did not fail, each
    reply followed at once by the results of its calls and by no other. *)
Inductive paired : list Message → Prop :=
| paired_nil : paired []
| paired_user u l : paired l → paired (User u :: l)
| paired_turn a rs l :
    is_failure a = false → answered a rs → paired l → paired (Assistant a :: map ToolResult rs ++ l).

Lemma paired_app l1 l2 : paired l1 → paired l2 → paired (l1 ++ l2).
Proof.
  intros H1 H2. induction H1 as [|u l _ IH|a rs l Hf Ha _ IH]; simpl; [done|by constructor|].
  rewrite <-(assoc_L (++)). by constructor.
Qed.

Section paired.
Variable now_ms : nat → Z.

(** Between two messages the result is paired, but for the turn still open. *)
Definition repair_inv (st : Repair) : Prop :=
  ∃ closed open, rp_result st = closed ++ open ∧ paired closed
    ∧ ((pending_tool_calls st = [] ∧ open = [])
       ∨ ∃ a rs, open = Assistant a :: map ToolResult rs ∧ is_failure a = false
           ∧ pending_tool_calls st = message_tool_calls a
           ∧ (∀ r, r ∈ rs → tool_call_id r ∈ call_ids a)
           ∧ ∀ id, id ∈ existing_tool_result_ids st ↔ id ∈ map tool_call_id rs).

Lemma synthetic_ids calls existing n :
  ∀ id, id ∈ map tool_call_id (synthetic_results now_ms calls existing n).1
        ↔ id ∈ map tc_id calls ∧ id ∉ existing.
Proof.
  revert n. induction calls as [|c calls IH]; intros n id; simpl.
  - split; [by intros ?%not_elem_of_nil|by intros [?%not_elem_of_nil _]].
  - case_bool_decide as Hc.
    + rewrite IH, elem_of_cons. split; [by intros []; auto|]. intros [[->|?] ?]; done.
    + specialize (IH (S n) id). destruct (synthetic_results now_ms calls existing (S n)) as [rs m].
      simpl in *. rewrite !elem_of_cons, IH. split; [|naive_solver].
      intros [->|[]]; naive_solver.
Qed.

Lemma insert_synthetic_closes st :
  repair_inv st → let st' := insert_synthetic_tool_results now_ms st in
  pending_tool_calls st' = [] ∧ paired (rp_result st').
Proof.
  intros (closed & open & Hr & Hc & Ho). unfold insert_synthetic_tool_results.
  destruct (pending_tool_calls st) as [|c calls] eqn:Hp; cbv zeta.
  - split; [done|]. rewrite Hr. apply paired_app; [done|].
    destruct Ho as [[_ ->]|(a & rs & -> & Hf & Hm & Hin & _)]; [constructor|].
    rewrite <-(app_nil_r (map ToolResult rs)). constructor; [done| |constructor].
    split; [done|]. intros id. unfold call_ids. rewrite <-Hm. by intros ?%not_elem_of_nil.
  - destruct Ho as [[? _]|(a & rs & -> & Hf & Hm & Hin & Hex)]; [done|].
    pose proof (synthetic_ids (c :: calls) (existing_tool_result_ids st) (ticks st)) as Hs.
    rewrite Hm in Hs |- *. destruct (synthetic_results _ _ _ _) as [rs' n] eqn:E. simpl in *.
    split; [done|]. rewrite Hr, <-(assoc_L (++)). apply paired_app; [done|]. simpl.
    rewrite <-map_app, <-(app_nil_r (map ToolResult (rs ++ rs'))).
    constructor; [done| |constructor]. split.
    + intros r [?|Hr']%elem_of_app; [by apply Hin|].
      destruct (Hs (tool_call_id r)) as [Hs' _]. apply Hs'. by apply list_elem_of_fmap_2.
    + intros id Hid. rewrite map_app, elem_of_app. destruct (decide (id ∈ existing_tool_result_ids st)).
      * left. by apply Hex.
      * right. by apply Hs.
Qed.

Lemma repair_inv_closed st : pending_tool_calls st = [] → paired (rp_result st) → repair_inv st.
Proof. intros Hp Hr. exists (rp_result st), []. rewrite app_nil_r. auto. Qed.

Lemma repair_step_inv st m : repair_inv st → repair_inv (repair_step now_ms st m).
Proof.
  intros Hst. destruct m as [u|a|r]; simpl.
  - destruct (insert_synthetic_closes st Hst) as [Hp Hr]. apply repair_inv_closed; [done|].
    simpl. apply paired_app; [done|]. repeat constructor.
  - destruct (insert_synthetic_closes st Hst) as [Hp Hr].
    destruct (is_failure a) eqn:Hf; [by apply repair_inv_closed|].
    destruct (message_tool_calls a) as [|c calls] eqn:Hm.
    + apply repair_inv_closed; [done|]. simpl. apply paired_app; [done|].
      apply (paired_turn a [] []); [done| |constructor]. split; [by intros ? ?%not_elem_of_nil|].
      unfold call_ids. rewrite Hm. by intros ? ?%not_elem_of_nil.
    + eexists _, _. split; [done|]. split; [exact Hr|]. right. exists a, []. simpl.
      split_and!; [done|done|done|by intros ? ?%not_elem_of_nil|]. intros id. by split; intros ?%not_elem_of_empty || intros ?%not_elem_of_nil.
  - destruct Hst as (closed & open & Hr & Hc & Ho).
    destruct (existsb _ (pending_tool_calls st)) eqn:Hx; simpl; [|by exists closed, open].
    destruct Ho as [[Hp _]|(a & rs & -> & Hf & Hm & Hin & Hex)]; [by rewrite Hp in Hx|].
    exists closed, (Assistant a :: map ToolResult (rs ++ [r])). simpl.
    rewrite Hr, map_app, <-!(assoc_L (++)). split_and!; [done|done|]. right. exists a, (rs ++ [r]).
    rewrite map_app. split_and!; [done|done|done| |].
    + intros r' [?|Hr'%list_elem_of_singleton]%elem_of_app; [by apply Hin|]. subst r'.
      apply existsb_exists in Hx as (c & Hc' & Heq%str_eqb_eq). rewrite <-Heq.
      unfold call_ids. rewrite <-Hm. apply list_elem_of_fmap_2. by apply list_elem_of_In.
    + intros id. rewrite map_app, elem_of_app, elem_of_union, elem_of_singleton, Hex. simpl.
      rewrite list_elem_of_singleton. tauto.
Qed.

Lemma repair_paired ms : paired (repair now_ms ms).
Proof.
  unfold repair. apply insert_synthetic_closes.
  assert (Hstep : ∀ st, repair_inv st → repair_inv (fold_left (repair_step now_ms) ms st)).
  { induction ms as [|m ms IH]; intros st Hst; simpl; [done|]. apply IH. by apply repair_step_inv. }
  apply Hstep, repair_inv_closed; [done|constructor].
Qed.
End paired.

(** ** Transcripts survive

    A transcript as the agent loop writes it: users, and replies followed by the
    results of their calls.  [transcript l kept]: [kept] is [l] less the failed
    replies and the results that follow them. *)
Inductive transcript : list Message → list Message → Prop :=
| transcript_nil : transcript [] []
| transcript_user u l l' : transcript l l' → transcript (User u :: l) (User u :: l')
| transcript_turn a rs l l' :
    is_failure a = false → answered a rs → transcript l l' →
    transcript (Assistant a :: map ToolResult rs ++ l) (Assistant a :: map ToolResult rs ++ l')
| transcript_failed a rs l l' :
    is_failure a = true → transcript l l' → transcript (Assistant a :: map ToolResult rs ++ l) l'.

Section survive.
Variable now_ms : nat → Z.

Definition settled (st : Repair) : Prop :=
  ∀ c, c ∈ pending_tool_calls st → tc_id c ∈ existing_tool_result_ids st.

Lemma insert_settled st : settled st →
  rp_result (insert_synthetic_tool_results now_ms st) = rp_result st
  ∧ pending_tool_calls (insert_synthetic_tool_results now_ms st) = [].
Proof.
  intros Hs. unfold insert_synthetic_tool_results. destruct (pending_tool_calls st) as [|c calls] eqn:Hp; [done|].
  unfold settled in Hs. rewrite Hp in Hs.
  assert (∀ l n, (∀ c, c ∈ l → tc_id c ∈ existing_tool_result_ids st) →
    synthetic_results now_ms l (existing_tool_result_ids st) n = ([], n)) as Hnone.
  { induction l as [|x l IH]; intros n Hl; [done|]. simpl. rewrite bool_decide_true by (apply Hl; by left).
    apply IH. intros y Hy. apply Hl. by right. }
  rewrite Hnone by done. simpl. by rewrite app_nil_r.
Qed.

Lemma fold_dropped rs st : pending_tool_calls st = [] →
  fold_left (repair_step now_ms) (map ToolResult rs) st = st.
Proof. intros Hp. induction rs as [|r rs IH]; [done|]. simpl. by rewrite Hp. Qed.

Lemma fold_results rs st :
  (∀ r, r ∈ rs → tool_call_id r ∈ map tc_id (pending_tool_calls st)) →
  let st' := fold_left (repair_step now_ms) (map ToolResult rs) st in
  rp_result st' = rp_result st ++ map ToolResult rs
  ∧ pending_tool_calls st' = pending_tool_calls st
  ∧ ∀ id, id ∈ map tool_call_id rs → id ∈ existing_tool_result_ids st'.
Proof.
  assert (Hgen : ∀ st, (∀ r, r ∈ rs → tool_call_id r ∈ map tc_id (pending_tool_calls st)) →
    let st' := fold_left (repair_step now_ms) (map ToolResult rs) st in
    rp_result st' = rp_result st ++ map ToolResult rs
    ∧ pending_tool_calls st' = pending_tool_calls st
    ∧ ∀ id, id ∈ map tool_call_id rs ∨ id ∈ existing_tool_result_ids st → id ∈ existing_tool_result_ids st').
  { induction rs as [|r rs IH]; intros st1 Hin; simpl.
    - rewrite app_nil_r. split_and!; [done..|]. by intros id [?%not_elem_of_nil|].
    - assert (Hx : existsb (λ c, str_eqb (tc_id c) (tool_call_id r)) (pending_tool_calls st1) = true).
      { apply existsb_exists. destruct (proj1 (list_elem_of_fmap _ _ _) (Hin r ltac:(by left))) as (c & Hc & Hm).
        exists c. rewrite <-list_elem_of_In. split; [done|]. by apply str_eqb_eq. }
      rewrite Hx. simpl. destruct (IH (push_message (ToolResult r)
        (mkRepair (rp_result st1) (pending_tool_calls st1)
          ({[tool_call_id r]} ∪ existing_tool_result_ids st1) (ticks st1)))) as (H1 & H2 & H3).
      { intros r' Hr'. apply Hin. by right. }
      rewrite H1, H2. simpl. rewrite <-(assoc_L (++)). split_and!; [done..|].
      intros id Hid. apply H3. simpl. rewrite elem_of_cons in Hid. rewrite elem_of_union, elem_of_singleton. tauto. }
  intros Hin. destruct (Hgen st Hin) as (? & ? & ?). split_and!; auto.
Qed.

Lemma repair_transcript_from l l' : transcript l l' → ∀ st, settled st →
  rp_result (insert_synthetic_tool_results now_ms (fold_left (repair_step now_ms) l st)) = rp_result st ++ l'.
Proof.
  induction 1 as [|u l l' _ IH|a rs l l' Hf Ha _ IH|a rs l l' Hf _ IH]; intros st Hst; simpl;
    destruct (insert_settled st Hst) as [Hr Hp].
  - by rewrite app_nil_r.
  - rewrite IH; [simpl; by rewrite Hr, <-(assoc_L (++))|].
    intros c. simpl. rewrite Hp. by intros ?%not_elem_of_nil.
  - rewrite Hf, fold_left_app. destruct Ha as [Hin Hall].
    set (st1 := push_message _ _).
    assert (Hr1 : rp_result st1 = rp_result st ++ [Assistant a]).
    { subst st1. destruct (message_tool_calls a); simpl; by rewrite Hr. }
    assert (Hp1 : pending_tool_calls st1 = message_tool_calls a).
    { subst st1. by destruct (message_tool_calls a). }
    destruct (fold_results rs st1) as (Hr2 & Hp2 & He2); [by rewrite Hp1|].
    rewrite IH; [rewrite Hr2, Hr1, <-!(assoc_L (++)); done|].
    intros c. rewrite Hp2, Hp1. intros Hc. apply He2, Hall. by apply list_elem_of_fmap_2.
  - rewrite Hf, fold_left_app, fold_dropped by done. rewrite IH; [by rewrite Hr|].
    intros c. rewrite Hp. by intros ?%not_elem_of_nil.
Qed.

Lemma repair_transcript l l' : transcript l l' → repair now_ms l = l'.
Proof.
  intros Ht. unfold repair. rewrite (repair_transcript_from l l' Ht); [done|].
  intros c. by intros ?%not_elem_of_nil.
Qed.
End survive.

(** *** Renaming *)

Definition rename (ids : IdMap) (id : str) : str := default id (ids !! id).
Definition rename_result (ids : IdMap) (r : ToolResultMessage) : ToolResultMessage :=
  set_call_id r (rename ids (tool_call_id r)).

(** What becomes of a message that is kept. *)
Definition carried (m m' : Message) : Prop :=
  match m, m' with
  | User u, User u' => u' = u
  | Assistant a, Assistant a' =>
      a' = set_content a (content a')
      ∧ map tc_name (message_tool_calls a') = map tc_name (message_tool_calls a)
      ∧ map arguments (message_tool_calls a') = map arguments (message_tool_calls a)
  | ToolResult r, ToolResult r' => r' = set_call_id r (tool_call_id r')
  | _, _ => False
  end.

Section renaming.
Variable model : Model.
Variable normalize : option (str → Model → AssistantMessage → str).

Lemma transform_results rs l ids out :
  transform_all model normalize l ids = Ok out →
  transform_all model normalize (map ToolResult rs ++ l) ids
  = Ok (map ToolResult (map (rename_result ids) rs) ++ out).
Proof.
  intros Hl. induction rs as [|r rs IH]; simpl; [done|]. rewrite IH. simpl. do 3 f_equal.
  unfold rename_result, rename. destruct (ids !! tool_call_id r); [done|]. by destruct r.
Qed.

(** The calls of a reply, under its renaming. *)
Record renames (blocks blocks' : list ContentBlock) (ids ids' : IdMap) : Prop := {
  ren_ids : map tc_id (omap as_tool_call blocks') = map (rename ids') (map tc_id (omap as_tool_call blocks));
  ren_names : map tc_name (omap as_tool_call blocks') = map tc_name (omap as_tool_call blocks);
  ren_args : map arguments (omap as_tool_call blocks') = map arguments (omap as_tool_call blocks);
  ren_frame : ∀ id, id ∉ map tc_id (omap as_tool_call blocks) → ids' !! id = ids !! id }.

Lemma transform_call_spec a c ids : ids !! tc_id c = None →
  let '(ids', c') := transform_call model normalize a c ids in
  tc_id c' = rename ids' (tc_id c) ∧ tc_name c' = tc_name c ∧ arguments c' = arguments c
  ∧ ∀ id, id ≠ tc_id c → ids' !! id = ids !! id.
Proof.
  intros Hc. unfold transform_call, rename. destruct normalize as [f|]; simpl; [|by rewrite Hc].
  destruct (negb (is_same_model model a) && _); simpl; [|by rewrite Hc].
  rewrite lookup_insert_eq. split_and!; [done..|]. intros id Hid. by rewrite lookup_insert_ne.
Qed.

Lemma thinking_no_calls same t : omap as_tool_call (transform_thinking same t) = [].
Proof. unfold transform_thinking. by repeat case_match. Qed.

Lemma transform_blocks_renames a blocks ids :
  NoDup (map tc_id (omap as_tool_call blocks)) →
  (∀ id, id ∈ map tc_id (omap as_tool_call blocks) → ids !! id = None) →
  let '(ids', blocks') := transform_blocks model normalize a blocks ids in renames blocks blocks' ids ids'.
Proof.
  revert ids. induction blocks as [|b blocks IH]; intros ids Hnd Hfresh; simpl; [by split|].
  destruct b as [t|t|c]; simpl in *.
  - specialize (IH ids Hnd Hfresh). destruct (transform_blocks model normalize a blocks ids) as [ids2 out].
    by destruct IH.
  - specialize (IH ids Hnd Hfresh). destruct (transform_blocks model normalize a blocks ids) as [ids2 out].
    destruct IH as [I1 I2 I3 I4]. by split; rewrite ?omap_app, ?thinking_no_calls; simpl.
  - apply NoDup_cons in Hnd as [Hn Hnd]. pose proof (transform_call_spec a c ids (Hfresh _ ltac:(by left))) as Hcall.
    destruct (transform_call model normalize a c ids) as [ids1 c']. destruct Hcall as (H1 & H2 & H3 & H4).
    assert (Hfresh1 : ∀ id, id ∈ map tc_id (omap as_tool_call blocks) → ids1 !! id = None).
    { intros id Hid. rewrite H4; [apply Hfresh; by right|]. by intros ->. }
    specialize (IH ids1 Hnd Hfresh1). destruct (transform_blocks model normalize a blocks ids1) as [ids2 out].
    destruct IH as [I1 I2 I3 I4].
    split; try change (omap as_tool_call ([ToolCallBlock c'] ++ out)) with (c' :: omap as_tool_call out);
      change (omap as_tool_call (ToolCallBlock c :: blocks)) with (c :: omap as_tool_call blocks); cbn [map].
    + rewrite I1. f_equal. rewrite H1. unfold rename. by rewrite I4.
    + by rewrite I2, H2.
    + by rewrite I3, H3.
    + intros id [Hne Hid]%not_elem_of_cons. rewrite I4 by done. by apply H4.
Qed.

(** The ids of all calls of a list of messages. *)
Definition all_call_ids (l : list Message) : list str :=
  concat (map (λ m, match m with Assistant a => call_ids a | _ => [] end) l).

(** No user message carries a checkpoint of another model. *)
Definition no_foreign_checkpoint (m : Message) : Prop :=
  match m with
  | User u => ∀ cp, provider_context u = Some cp → compaction_matches_model cp model = true
  | _ => True
  end.

Lemma all_call_ids_turn a rs l :
  all_call_ids (Assistant a :: map ToolResult rs ++ l) = call_ids a ++ all_call_ids l.
Proof.
  unfold all_call_ids. simpl. f_equal. rewrite map_app, concat_app, map_map. simpl.
  by induction rs.
Qed.

(** A reply and its results, after the first pass. *)
Lemma transform_turn a rs l ids :
  NoDup (call_ids a ++ all_call_ids l) → (∀ id, id ∈ call_ids a ++ all_call_ids l → ids !! id = None) →
  ∃ ids' a', carried (Assistant a) (Assistant a') ∧ is_failure a' = is_failure a
    ∧ (answered a rs → answered a' (map (rename_result ids') rs))
    ∧ (∀ id, id ∈ all_call_ids l → ids' !! id = None)
    ∧ ∀ out, transform_all model normalize l ids' = Ok out →
        transform_all model normalize (Assistant a :: map ToolResult rs ++ l) ids
        = Ok (Assistant a' :: map ToolResult (map (rename_result ids') rs) ++ out).
Proof.
  intros Hnd Hfresh. apply NoDup_app in Hnd as (Hnd1 & Hdis & Hnd2).
  pose proof (transform_blocks_renames a (content a) ids Hnd1) as Hren.
  simpl. destruct (transform_blocks model normalize a (content a) ids) as [ids' c].
  destruct Hren as [R1 R2 R3 R4]. { intros id Hid. apply Hfresh, elem_of_app. by left. }
  exists ids', (set_content a c).
  assert (Hids : call_ids (set_content a c) = map (rename ids') (call_ids a)) by exact R1.
  split_and!; [done..| | |].
  - intros [Ha1 Ha2]. split.
    + intros r (r0 & -> & Hr0)%list_elem_of_fmap. rewrite Hids.
      apply (list_elem_of_fmap_2 (rename ids')). by apply Ha1.
    + intros id. rewrite Hids, map_map. intros (id0 & -> & Hid0)%list_elem_of_fmap.
      apply Ha2, list_elem_of_fmap in Hid0 as (r & -> & Hr). apply list_elem_of_fmap. by exists r.
  - intros id Hid. rewrite R4; [apply Hfresh, elem_of_app; by right|]. intros Hin. by apply (Hdis id).
  - intros out Hout. simpl. by rewrite (transform_results rs l ids' out Hout).
Qed.

Lemma carried_results ids rs : Forall2 carried (map ToolResult rs) (map ToolResult (map (rename_result ids) rs)).
Proof. induction rs; simpl; constructor; done. Qed.

Lemma transform_all_transcript l l' : transcript l l' → ∀ ids,
  NoDup (all_call_ids l) → (∀ id, id ∈ all_call_ids l → ids !! id = None) →
  Forall no_foreign_checkpoint l →
  ∃ l1 l1', transform_all model normalize l ids = Ok l1 ∧ transcript l1 l1' ∧ Forall2 carried l' l1'.
Proof.
  induction 1 as [|u l l' _ IH|a rs l l' Hf Ha _ IH|a rs l l' Hf _ IH]; intros ids Hnd Hfresh Hck.
  - exists [], []. repeat constructor.
  - apply Forall_cons in Hck as [Hu Hck]. destruct (IH ids Hnd Hfresh Hck) as (l1 & l1' & E & Ht & Hc).
    exists (User u :: l1), (User u :: l1'). split_and!; [|by constructor|by constructor].
    simpl. simpl in Hu. destruct (provider_context u) as [cp|]; [rewrite Hu by done|]; simpl; by rewrite E.
  - rewrite all_call_ids_turn in Hnd, Hfresh.
    destruct (transform_turn a rs l ids Hnd Hfresh) as (ids' & a' & Hcar & Hfa & Hans & Hfr' & Hrun).
    apply Forall_cons in Hck as [_ [_ Hck]%Forall_app]. apply NoDup_app in Hnd as (_ & _ & Hnd).
    destruct (IH ids' Hnd Hfr' Hck) as (l1 & l1' & E & Ht & Hc). eexists _, _. split; [by apply Hrun|].
    split; [apply transcript_turn; [by rewrite Hfa|by apply Hans|done]|].
    constructor; [done|]. apply Forall2_app; [apply carried_results|done].
  - rewrite all_call_ids_turn in Hnd, Hfresh.
    destruct (transform_turn a rs l ids Hnd Hfresh) as (ids' & a' & Hcar & Hfa & Hans & Hfr' & Hrun).
    apply Forall_cons in Hck as [_ [_ Hck]%Forall_app]. apply NoDup_app in Hnd as (_ & _ & Hnd).
    destruct (IH ids' Hnd Hfr' Hck) as (l1 & l1' & E & Ht & Hc). eexists _, _. split; [by apply Hrun|].
    split; [apply transcript_failed; [by rewrite Hfa|done]|done].
Qed.
End renaming.

(** *** Images *)

Lemma downgrade_transcript model l l' : transcript l l' →
  transcript (downgrade_unsupported_images l model) (downgrade_unsupported_images l' model).
Proof.
  unfold downgrade_unsupported_images. destruct (supports_images model); [done|].
  assert (Hu : ∀ u, ∃ u', downgrade_message (User u) = User u').
  { intros u. simpl. destruct (u_content u); eauto. }
  set (down := λ r, mkToolResult (tool_call_id r) (tool_name r)
        (map RText (replace_images_with_placeholder (tr_content r) NON_VISION_TOOL_IMAGE_PLACEHOLDER))
        (tr_details r) (tr_is_error r) (tr_timestamp r)).
  assert (Hr : ∀ rs, map downgrade_message (map ToolResult rs) = map ToolResult (map down rs)).
  { intros rs. by rewrite !map_map. }
  induction 1 as [|u l l' _ IH|a rs l l' Hf Ha _ IH|a rs l l' Hf _ IH]; simpl.
  - constructor.
  - destruct (Hu u) as [u' E]. simpl in E. rewrite E. by constructor.
  - rewrite !map_app, Hr. constructor; [done| |done]. destruct Ha as [Ha1 Ha2]. split.
    + intros r (r0 & -> & Hr0)%list_elem_of_fmap. exact (Ha1 r0 Hr0).
    + intros id Hid. rewrite map_map. exact (Ha2 id Hid).
  - rewrite map_app, Hr. by constructor.
Qed.

Lemma downgrade_call_ids model l : all_call_ids (downgrade_unsupported_images l model) = all_call_ids l.
Proof.
  unfold downgrade_unsupported_images, all_call_ids. destruct (supports_images model); [done|].
  rewrite map_map. f_equal. apply map_ext. intros [u|a|r]; [|done..]. simpl. by destruct (u_content u).
Qed.

Lemma downgrade_checkpoints model l : Forall (no_foreign_checkpoint model) l →
  Forall (no_foreign_checkpoint model) (downgrade_unsupported_images l model).
Proof.
  unfold downgrade_unsupported_images. destruct (supports_images model); [done|]. intros Hl.
  apply Forall_map. eapply Forall_impl; [exact Hl|]. intros [u|a|r]; [|done..]. simpl. by destruct (u_content u).
Qed.

Lemma transform_transcript now_ms model normalize l kept :
  transcript l kept → NoDup (all_call_ids l) → Forall (no_foreign_checkpoint model) l →
  ∃ out, try_transform_messages now_ms l model normalize = Ok out ∧ paired out
    ∧ Forall2 carried (downgrade_unsupported_images kept model) out.
Proof.
  intros Ht Hnd Hck. unfold try_transform_messages.
  destruct (transform_all_transcript model normalize _ _ (downgrade_transcript model l kept Ht) ∅)
    as (l1 & l1' & E & Ht1 & Hc).
  - by rewrite downgrade_call_ids.
  - intros id _. apply lookup_empty.
  - by apply downgrade_checkpoints.
  - rewrite E. simpl. exists l1'. rewrite (repair_transcript now_ms l1 l1' Ht1). split_and!; [done| |done].
    rewrite <-(repair_transcript now_ms l1 l1' Ht1). apply repair_paired.
Qed.

(** *** What holds of every message *)

Definition image_free (m : Message) : Prop :=
  let no_image b := match b with RImage _ => False | RText _ => True end in
  match m with
  | User u => match u_content u with UBlocks bs => Forall no_image bs | UText _ => True end
  | ToolResult r => Forall no_image (tr_content r)
  | Assistant _ => True
  end.

Lemma downgrade_image_free m : image_free (downgrade_message m).
Proof.
  assert (Ht : ∀ l, Forall (λ b, match b with RImage _ => False | RText _ => True end) (map RText l)).
  { intros l. apply Forall_map, Forall_forall. done. }
  destruct m as [u|a|r]; simpl; [|done|apply Ht]. destruct (u_content u) eqn:E; simpl; [by rewrite E|apply Ht].
Qed.

Lemma repair_forall now_ms (P : Message → Prop) ms :
  (∀ c n, P (ToolResult (synthetic_result c n))) → Forall P ms → Forall P (repair now_ms ms).
Proof.
  intros Hsyn. assert (Hs : ∀ l e n, Forall P (map ToolResult (synthetic_results now_ms l e n).1)).
  { induction l as [|c l IH]; intros e n; simpl; [constructor|]. case_bool_decide; [apply IH|].
    specialize (IH e (S n)). destruct (synthetic_results now_ms l e (S n)). simpl in *. by constructor. }
  assert (Hins : ∀ st, Forall P (rp_result st) → Forall P (rp_result (insert_synthetic_tool_results now_ms st))).
  { intros st Hst. unfold insert_synthetic_tool_results. destruct (pending_tool_calls st) as [|c l] eqn:E; [done|].
    specialize (Hs (c :: l) (existing_tool_result_ids st) (ticks st)).
    destruct (synthetic_results _ _ _ _). simpl in *. by apply Forall_app. }
  intros Hms. unfold repair. apply Hins.
  assert (Hf : ∀ st, Forall P (rp_result st) → Forall P (rp_result (fold_left (repair_step now_ms) ms st)));
    [|apply Hf; constructor].
  induction Hms as [|m ms Hm Hms IH]; intros st Hst; simpl; [done|]. apply IH. pose proof (Hins st Hst).
  destruct m as [u|a|r]; simpl.
  - apply Forall_app; auto.
  - destruct (is_failure a); [done|]. destruct (message_tool_calls a); simpl; apply Forall_app; auto.
  - destruct (negb _); [done|]. simpl. apply Forall_app; auto.
Qed.

Lemma transform_all_cases model normalize l ids :
  match transform_all model normalize l ids with
  | Ok out => Forall (no_foreign_checkpoint model) l ∧ (Forall image_free l → Forall image_free out)
  | Err e => e = FOREIGN_CHECKPOINT ∧ ¬ Forall (no_foreign_checkpoint model) l
  end.
Proof.
  revert ids. induction l as [|m l IH]; intros ids; simpl; [by split|].
  destruct (transform_message model normalize m ids) as [[ids' m']|e] eqn:E; simpl.
  - assert (Hm : no_foreign_checkpoint model m ∧ (image_free m → image_free m')).
    { destruct m as [u|a|r]; simpl in *.
      - destruct (provider_context u) as [cp|] eqn:Hp.
        + destruct (compaction_matches_model cp model) eqn:Hc; [|done]. injection E as <- <-.
          split; [by intros ? [= <-]|done].
        + by injection E as <- <-.
      - destruct (transform_blocks _ _ _ _ _). by injection E as <- <-.
      - injection E as <- <-. split; [done|]. by destruct (ids !! tool_call_id r). }
    specialize (IH ids'). destruct (transform_all model normalize l ids'); simpl.
    + split; [constructor; [apply Hm|apply IH]|]. intros [H1 H2]%Forall_cons.
      constructor; [by apply Hm|by apply IH].
    + split; [apply IH|]. intros [_ ?]%Forall_cons. by apply IH.
  - destruct m as [u|a|r]; simpl in E.
    + destruct (provider_context u) as [cp|] eqn:Hp; [|done].
      destruct (compaction_matches_model cp model) eqn:Hc; [done|]. injection E as <-. split; [done|].
      intros [Hu _]%Forall_cons. simpl in Hu. rewrite (Hu cp Hp) in Hc. done.
    + by destruct (transform_blocks _ _ _ _ _).
    + done.
Qed.

(** C6: whatever transcript a provider is given, what it is sent is well formed: users
    and replies that did not fail, each reply followed at once by results of its own
    calls, at least one per call, and by nothing else; no image for a model that
    takes none.  The transformation fails exactly when a user message carries the
    compaction checkpoint of another model. *)
Theorem transform_paired now_ms messages model normalize :
  match try_transform_messages now_ms messages model normalize with
  | Ok out => paired out ∧ Forall (no_foreign_checkpoint model) messages
              ∧ (supports_images model = false → Forall image_free out)
  | Err e => e = FOREIGN_CHECKPOINT ∧ ¬ Forall (no_foreign_checkpoint model) messages
  end.
Proof.
  unfold try_transform_messages.
  pose proof (transform_all_cases model normalize (downgrade_unsupported_images messages model) ∅) as Hc.
  assert (Hck : Forall (no_foreign_checkpoint model) (downgrade_unsupported_images messages model) →
                Forall (no_foreign_checkpoint model) messages).
  { unfold downgrade_unsupported_images. destruct (supports_images model); [done|].
    rewrite Forall_map. intros Hd. eapply Forall_impl; [exact Hd|]. intros [u|a|r]; [|done..]. simpl. by destruct (u_content u). }
  destruct (transform_all model normalize _ ∅) as [out|e]; simpl.
  - destruct Hc as [Hc1 Hc2]. split; [apply repair_paired|]. split; [by apply Hck|]. intros Hs.
    apply repair_forall; [by repeat constructor|]. apply Hc2. unfold downgrade_unsupported_images. rewrite Hs.
    apply Forall_map, Forall_forall. intros m _. apply downgrade_image_free.
  - destruct Hc as [-> Hc]. split; [done|]. intros Hm. by apply Hc, downgrade_checkpoints.
Qed.

(** *** Reused ids *)

(** A provider whose ids may not contain a dot. *)
Definition no_dots (id : str) (_ : Model) (_ : AssistantMessage) : str := map (λ c, if c =? 46 then 95 else c) id.

Definition dotted_call : ToolCall := mkCall (lit "f.0") (lit "read") map_new None.
Definition calls_dotted (model : str) : AssistantMessage :=
  mkAssistant [ToolCallBlock dotted_call] (lit "api") (lit "p") model None None None usage_zero
    (lit "toolUse") None None 0.
Definition dotted_result (s : str) : ToolResultMessage :=
  mkToolResult (lit "f.0") (lit "read") [RText (text_new s)] None false 0.

(** A real result is lost: once a call of another model was renamed, the result of
    a later call of this model with the same id is renamed as well, no longer
    matches its own call, and is replaced by one that says there was no result. *)
Theorem reused_id_loses_result now_ms :
  let model := mkModel (lit "m2") (lit "api") (lit "p") [] [InputText; InputImage] None in
  try_transform_messages now_ms
    [Assistant (calls_dotted (lit "m1")); ToolResult (dotted_result (lit "one"));
     Assistant (calls_dotted (lit "m2")); ToolResult (dotted_result (lit "two"))] model (Some no_dots)
  = Ok [Assistant (set_content (calls_dotted (lit "m1"))
                     [ToolCallBlock (mkCall (lit "f_0") (lit "read") map_new None)]);
        ToolResult (set_call_id (dotted_result (lit "one")) (lit "f_0"));
        Assistant (calls_dotted (lit "m2")); ToolResult (synthetic_result dotted_call (now_ms 0%nat))].
Proof. vm_compute. reflexivity. Qed.
End transform.
