(* ===== verification/Requests.v ===== *)
(** * From a run to the next request

    The messages a run of the agent loop returns are what the next request of a
    provider client is made of: [AgentLoop] composed with [TransformMessages]. *)
From stdpp Require Import base list gmap strings.
From S2P Require Import Prelude RustStr Watchdog AgentTypes AgentMonad ToolCalls StreamResponse AgentLoop TransformMessages.

(** The messages of a transcript that go to the provider. *)
Definition llm_message `{X : Externals} (m : AgentMessage) : option Message :=
  match m with LlmMessage m => Some m | CustomMessage _ => None end.
Definition llm_messages_of `{X : Externals} (ms : list AgentMessage) : list Message := omap llm_message ms.

Definition is_user `{X : Externals} (m : AgentMessage) : Prop := ∃ u, m = LlmMessage (User u).

Section requests.
Context {X : Externals} {W : Type} {H : Host W}.
Variable config : AgentLoopConfig W (ILease W) (SLease W).

Lemma users_transcript us l l' : Forall is_user us → transcript l l' →
  transcript (llm_messages_of us ++ l) (llm_messages_of us ++ l').
Proof. intros Hu Hl. induction Hu as [|m us [u ->] _ IH]; simpl; [done|]. by constructor. Qed.

Lemma answers_answered a rs : NoDup (call_ids a) → answers (message_tool_calls a) rs → answered a rs.
Proof.
  intros Hnd Ha. apply answers_nodup in Ha; [|done].
  assert (Hids : map tool_call_id rs = call_ids a).
  { apply (f_equal (map fst)) in Ha. by rewrite !map_map in Ha. }
  split; [|by rewrite Hids]. intros r Hr. rewrite <-Hids. by apply list_elem_of_fmap_2.
Qed.

Lemma llm_results rs : llm_messages_of (map of_result rs) = map ToolResult rs.
Proof. induction rs as [|r rs IH]; [done|]. simpl. by f_equal. Qed.

Lemma turn_llm t : llm_messages_of (turn_messages t)
  = llm_messages_of (inputs t) ++ Assistant (reply t) :: map ToolResult (results t).
Proof. unfold turn_messages, llm_messages_of. rewrite omap_app. simpl. by rewrite <-llm_results. Qed.

(** What of a turn is sent again: nothing of a reply that failed. *)
Definition kept_turn (t : Turn) : list Message :=
  llm_messages_of (inputs t)
  ++ if is_failure (reply t) then [] else Assistant (reply t) :: map ToolResult (results t).

Lemma llm_messages_app l1 l2 : llm_messages_of (l1 ++ l2) = llm_messages_of l1 ++ llm_messages_of l2.
Proof. apply omap_app. Qed.

Lemma all_call_ids_app l1 l2 : all_call_ids (l1 ++ l2) = all_call_ids l1 ++ all_call_ids l2.
Proof. unfold all_call_ids. by rewrite map_app, concat_app. Qed.

Lemma turns_transcript ts :
  Forall turn_ok ts → Forall is_user (concat (map inputs ts)) →
  NoDup (all_call_ids (llm_messages_of (concat (map turn_messages ts)))) →
  transcript (llm_messages_of (concat (map turn_messages ts))) (concat (map kept_turn ts)).
Proof.
  induction ts as [|t ts IH]; simpl; intros Hok Hu Hnd; [constructor|].
  apply Forall_cons in Hok as [Ht Hok]. apply Forall_app in Hu as [Hu1 Hu2].
  rewrite llm_messages_app, turn_llm in Hnd |- *. rewrite <-(assoc_L (++)) in Hnd |- *.
  unfold kept_turn at 1. rewrite <-(assoc_L (++)). apply users_transcript; [done|].
  rewrite all_call_ids_app in Hnd. apply NoDup_app in Hnd as (_ & _ & Hnd).
  cbn [app] in Hnd |- *. rewrite all_call_ids_turn in Hnd. apply NoDup_app in Hnd as (Hnd1 & _ & Hnd2).
  specialize (IH Hok Hu2 Hnd2). destruct (is_failure (reply t)) eqn:Hf.
  - by apply transcript_failed.
  - apply transcript_turn; [done| |done]. by apply answers_answered.
Qed.

(** C5: the transcript of a run is sent back unharmed: when what was supplied to the
    run is user messages, all its call ids differ, its checkpoints belong to the
    model and no listener fails with the text of an abort, the next request is accepted and well formed, every message is carried
    over in order but for the replies that failed and their results, and no result
    is made up. *)
Theorem run_request_valid fuel prompts cx w ms st' now_ms model normalize :
  (∀ e w, (sink W e w).1 ≠ Err ABORT_ERROR_MESSAGE) →
  run_agent_loop config fuel prompts cx w = (Returned ms, st') →
  Forall is_user (supplied (trace st') ++ newly_supplied st') →
  NoDup (all_call_ids (llm_messages_of ms)) →
  Forall (no_foreign_checkpoint model) (llm_messages_of ms) →
  ∃ ts out, ms = prompts ++ concat (map turn_messages ts)
    ∧ try_transform_messages now_ms (llm_messages_of ms) model normalize = Ok out
    ∧ paired out
    ∧ Forall2 carried
        (downgrade_unsupported_images (llm_messages_of prompts ++ concat (map kept_turn ts)) model) out.
Proof.
  intros Hsink Hrun Hu Hnd Hck.
  destruct (run_prompts_returned _ _ _ _ _ _ _ _ Hsink Hrun) as (ts & Hms & Hok & _ & Hpool).
  simpl in Hms. change (supplied (trace st') ++ newly_supplied st' = prompts ++ concat (map inputs ts)) in Hpool.
  rewrite Hpool in Hu. apply Forall_app in Hu as [Hu1 Hu2].
  assert (Ht : transcript (llm_messages_of ms) (llm_messages_of prompts ++ concat (map kept_turn ts))).
  { rewrite Hms in Hnd |- *. rewrite llm_messages_app in Hnd |- *. rewrite all_call_ids_app in Hnd.
    apply NoDup_app in Hnd as (_ & _ & Hnd). apply users_transcript; [done|]. by apply turns_transcript. }
  destruct (transform_transcript now_ms model normalize _ _ Ht Hnd Hck) as (out & ? & ? & ?).
  exists ts, out. done.
Qed.
End requests.
