(* ===== verification/SessionIndex.v ===== *)
(** * The session manager: entries, index and tree

    [pi-coding-agent/src/core/session_manager.rs]: a session is an append-only list of
    entries, each with an id and the id of its parent, so the entries form a tree; the
    manager keeps an index of them, the labels put on them, and the leaf the next entry
    hangs from.  This file models the manager's data and everything that does not touch
    the disk; [SessionContext] builds the context of a request from a branch, and
    [SessionStore] adds the file.

    An entry is a JSON object in the code; here it is a record with the fields the
    manager reads, and its kind by the [type] field.  Ids come from [uuid] and
    timestamps from the clock, so both are arguments. *)
From stdpp Require Import base list numbers sorting strings.
From S2P Require Import Prelude RustStr AgentTypes.

Local Open Scope nat_scope.

(** ** Insertion-ordered maps ([indexmap::IndexMap]) *)

Section index_map.
Context {A : Type}.

Abbreviation IndexMap := (list (str * A)).

Fixpoint im_get (k : str) (m : IndexMap) : option A :=
  match m with
  | [] => None
  | (k', a) :: m' => if str_eqb k' k then Some a else im_get k m'
  end.

(** [insert] replaces in place or appends. *)
Fixpoint im_insert (k : str) (a : A) (m : IndexMap) : IndexMap :=
  match m with
  | [] => [(k, a)]
  | (k', a') :: m' => if str_eqb k' k then (k', a) :: m' else (k', a') :: im_insert k a m'
  end.

(** [shift_remove] keeps the order of the rest. *)
Fixpoint im_remove (k : str) (m : IndexMap) : IndexMap :=
  match m with
  | [] => []
  | (k', a') :: m' => if str_eqb k' k then m' else (k', a') :: im_remove k m'
  end.

Definition im_has (k : str) (m : IndexMap) : bool :=
  match im_get k m with Some _ => true | None => false end.
End index_map.

(** ** Entries *)

Section session.
Context {X : Externals}.

(** A stored message: the fields the manager reads from its JSON, and what it
    deserializes to, if it does. *)
Record StoredMessage : Type := mkStored {
  sm_role : str;
  sm_provider : str;
  sm_model : str;
  sm_message : option AgentMessage }.

(** The [details] of a compaction: no checkpoint of a provider, one that cannot be read,
    or a checkpoint. *)
Inductive CheckpointField : Type :=
| NoCheckpoint
| Unreadable
| Readable (cp : ProviderCompactionCheckpoint).

Record CompactionBody : Type := mkCompaction {
  c_summary : str;
  first_kept_entry_id : str;
  tokens_before : Value;
  c_details : CheckpointField;
  custom_instructions : option str;
  harness_digest : option str }.

Inductive Body : Type :=
| SessionHeader
| MessageEntry (m : StoredMessage)
| ThinkingLevelChange (level : option str)
| ServiceTierChange (tier : option (option str))
| ModelChange (provider model_id : str)
| CompactionEntry (c : CompactionBody)
| BranchSummaryEntry (summary from_id : str)
| CustomMessageEntry (custom_type : str) (content : Value) (display : bool) (details : option Value)
| LabelEntry (target_id : str) (label : option str)
| SessionInfoEntry (name : str)
| SessionStateEntry (state : Value)
| OtherEntry (type_ : str) (data : Value).

(** Timestamps are milliseconds ([iso_to_millis]). *)
Record SessionEntry : Type := mkEntry {
  entry_id : str;
  entry_parent_id : option str;
  entry_timestamp : Z;
  body : Body }.

Definition is_session_header (e : SessionEntry) : bool :=
  match body e with SessionHeader => true | _ => false end.

(** ** The manager's memory *)

Record Index : Type := mkIndex {
  file_entries : list SessionEntry;
  by_id : list (str * SessionEntry);
  labels_by_id : list (str * str);
  label_timestamps_by_id : list (str * Z);
  leaf_id : option str }.

Definition get_entries (s : Index) : list SessionEntry :=
  List.filter (λ e, negb (is_session_header e)) (file_entries s).

(** What a label entry does to the two label maps. *)
Definition set_label (target : str) (label : option str) (ts : Z) (s : Index) : Index :=
  match label with
  | Some l =>
      mkIndex (file_entries s) (by_id s) (im_insert target l (labels_by_id s))
        (im_insert target ts (label_timestamps_by_id s)) (leaf_id s)
  | None =>
      mkIndex (file_entries s) (by_id s) (im_remove target (labels_by_id s))
        (im_remove target (label_timestamps_by_id s)) (leaf_id s)
  end.

(** One iteration of [build_index]. *)
Definition index_loaded (s : Index) (e : SessionEntry) : Index :=
  if is_session_header e then s
  else
    let s := mkIndex (file_entries s) (im_insert (entry_id e) e (by_id s))
               (labels_by_id s) (label_timestamps_by_id s) (Some (entry_id e)) in
    match body e with
    | LabelEntry target label => set_label target label (entry_timestamp e) s
    | _ => s
    end.

Definition build_index (entries : list SessionEntry) : Index :=
  fold_left index_loaded entries (mkIndex entries [] [] [] None).

(** The part of [append_entry] before it persists. *)
Definition index_entry (e : SessionEntry) (s : Index) : Index :=
  mkIndex (file_entries s ++ [e]) (im_insert (entry_id e) e (by_id s))
    (labels_by_id s) (label_timestamps_by_id s) (Some (entry_id e)).

(** The part of [rollback_last_append] that undoes it. *)
Definition unindex (previous_leaf_id : option str) (s : Index) : Index :=
  match leaf_id s with
  | Some leaf =>
      if bool_decide (leaf_id s = previous_leaf_id) then s
      else mkIndex (removelast (file_entries s)) (im_remove leaf (by_id s))
             (labels_by_id s) (label_timestamps_by_id s) previous_leaf_id
  | None => s
  end.

(** An entry hung from the leaf. *)
Definition new_entry (id : str) (ts : Z) (b : Body) (s : Index) : SessionEntry :=
  mkEntry id (leaf_id s) ts b.

Definition not_found (id : str) : str := lit "Entry " ++ id ++ lit " not found".

Definition branch (branch_from_id : str) (s : Index) : result Index str :=
  if im_has branch_from_id (by_id s)
  then Ok (mkIndex (file_entries s) (by_id s) (labels_by_id s) (label_timestamps_by_id s) (Some branch_from_id))
  else Err (not_found branch_from_id).

Definition reset_leaf (s : Index) : Index :=
  mkIndex (file_entries s) (by_id s) (labels_by_id s) (label_timestamps_by_id s) None.

(** ** Branches *)

(** The walk to the root shared by [visit_branch] and the context builder; [visited]
    ends it on damaged ancestry.  Newest entry first. *)
Fixpoint walk (fuel : nat) (m : list (str * SessionEntry)) (visited : list str) (current : option SessionEntry)
    : list SessionEntry :=
  match fuel, current with
  | S fuel, Some e =>
      if existsb (str_eqb (entry_id e)) visited then []
      else e :: walk fuel m (entry_id e :: visited) (entry_parent_id e ≫= λ p, im_get p m)
  | _, _ => []
  end.

(** [get_branch] and [visit_branch]: each round visits an id it has not seen. *)
Definition get_branch (from_id : option str) (s : Index) : list SessionEntry :=
  let id := match from_id with Some id => Some id | None => leaf_id s end in
  rev (walk (S (length (by_id s))) (by_id s) [] (id ≫= λ i, im_get i (by_id s))).

Definition get_children (parent_id : str) (s : Index) : list SessionEntry :=
  List.filter (λ e, bool_decide (entry_parent_id e = Some parent_id)) (map snd (by_id s)).

(** ** The tree of all entries *)

Record SessionTreeFlatNode : Type := mkFlat {
  flat_entry : SessionEntry;
  flat_label : option str;
  flat_label_timestamp : option Z }.

Inductive SessionTreeNode : Type := TreeNode (node : SessionTreeFlatNode) (children : list SessionTreeNode).

Definition tree_node (t : SessionTreeNode) : SessionTreeFlatNode := let 'TreeNode n _ := t in n.
Definition tree_children (t : SessionTreeNode) : list SessionTreeNode := let 'TreeNode _ cs := t in cs.
Definition tree_id (t : SessionTreeNode) : str := entry_id (flat_entry (tree_node t)).
Definition tree_time (t : SessionTreeNode) : Z := entry_timestamp (flat_entry (tree_node t)).

Definition get_flat_tree (s : Index) : list SessionTreeFlatNode :=
  map (λ e, mkFlat e (im_get (entry_id e) (labels_by_id s)) (im_get (entry_id e) (label_timestamps_by_id s)))
    (get_entries s).

(** One iteration of the loop that attaches the nodes.  A node is copied into its parent's
    list (or into the roots), as the code does. *)
Definition attach (acc : list (str * SessionTreeNode) * list SessionTreeNode) (flat : SessionTreeFlatNode)
    : list (str * SessionTreeNode) * list SessionTreeNode :=
  let '(node_map, roots) := acc in
  let e := flat_entry flat in
  match im_get (entry_id e) node_map with
  | None => acc
  | Some node =>
      match entry_parent_id e with
      | None => (node_map, roots ++ [node])
      | Some p =>
          if str_eqb p (entry_id e) then (node_map, roots ++ [node])
          else
            match im_get p node_map with
            | Some (TreeNode pn cs) => (im_insert p (TreeNode pn (cs ++ [node])) node_map, roots)
            | None => (node_map, roots ++ [node])
            end
      end
  end.

Definition tree_le (a b : SessionTreeNode) : Prop := (tree_time a ≤ tree_time b)%Z.
#[local] Instance tree_le_dec a b : Decision (tree_le a b) := Z.le_dec _ _.

(** The loop over the stack: the sorted children of every node it meets, by id. *)
Fixpoint sort_children (fuel : nat) (stack : list SessionTreeNode) (sorted : list (str * list SessionTreeNode))
    : list (str * list SessionTreeNode) :=
  match fuel, stack with
  | S fuel, node :: stack =>
      let children := merge_sort tree_le (tree_children node) in
      (* the top of the stack is the head of the list *)
      sort_children fuel (rev children ++ stack) (im_insert (tree_id node) children sorted)
  | _, _ => sorted
  end.

Fixpoint apply_sorted (fuel : nat) (sorted : list (str * list SessionTreeNode)) (t : SessionTreeNode) : SessionTreeNode :=
  match fuel with
  | O => t
  | S fuel =>
      let children := match im_get (tree_id t) sorted with Some cs => cs | None => tree_children t end in
      TreeNode (tree_node t) (map (apply_sorted fuel sorted) children)
  end.

Definition get_tree (s : Index) : list SessionTreeNode :=
  let entries := get_flat_tree s in
  let node_map := fold_left (λ m f, im_insert (entry_id (flat_entry f)) (TreeNode f []) m) entries [] in
  let roots := (fold_left attach entries (node_map, [])).2 in
  (* every entry is copied once, so the nodes of all roots are no more than the entries *)
  let fuel := S (length entries) in
  let sorted := sort_children fuel (rev roots) [] in
  map (apply_sorted fuel sorted) roots.

(** ** Operations that only change memory, as one step *)

Inductive op : Type :=
| Append (id : str) (ts : Z) (b : Body)       (* every [append_*]: an entry under the leaf *)
| AppendLabel (id : str) (ts : Z) (target : str) (label : option str)
| Branch (from_id : str)
| ResetLeaf
| BranchWithSummary (id : str) (ts : Z) (from_id : option str) (summary : str).

Definition append_label_change (id : str) (ts : Z) (target : str) (label : option str) (s : Index)
    : result Index str :=
  if im_has target (by_id s)
  then Ok (set_label target label ts (index_entry (new_entry id ts (LabelEntry target label) s) s))
  else Err (not_found target).

Definition branch_with_summary (id : str) (ts : Z) (from_id : option str) (summary : str) (s : Index)
    : result Index str :=
  let missing := match from_id with Some f => negb (im_has f (by_id s)) | None => false end in
  if missing then Err (not_found (default [] from_id))
  else
    let s := mkIndex (file_entries s) (by_id s) (labels_by_id s) (label_timestamps_by_id s) from_id in
    let from := match from_id with Some f => f | None => lit "root" end in
    Ok (index_entry (mkEntry id from_id ts (BranchSummaryEntry summary from)) s).

(** A rejected operation changes nothing. *)
Definition apply_op (o : op) (s : Index) : Index :=
  let keep r := match r with Ok s' => s' | Err _ => s end in
  match o with
  | Append id ts b => index_entry (new_entry id ts b s) s
  | AppendLabel id ts target label => keep (append_label_change id ts target label s)
  | Branch f => keep (branch f s)
  | ResetLeaf => reset_leaf s
  | BranchWithSummary id ts f summary => keep (branch_with_summary id ts f summary s)
  end.

(** An id is fresh for the session ([generate_id] draws until it is), and the bodies that are
    appended are of entries, labels by their own operation. *)
Definition op_ok (s : Index) (o : op) : bool :=
  match o with
  | Append id _ b =>
      negb (im_has id (by_id s)) && match b with SessionHeader | LabelEntry _ _ => false | _ => true end
  | AppendLabel id _ _ _ | BranchWithSummary id _ _ _ => negb (im_has id (by_id s))
  | Branch _ | ResetLeaf => true
  end.

Fixpoint run_ops (ops : list op) (s : Index) : option Index :=
  match ops with
  | [] => Some s
  | o :: ops => if op_ok s o then run_ops ops (apply_op o s) else None
  end.

(** ** Maps *)

Lemma im_get_insert_fresh {A} k (a : A) m : im_get k m = None → im_insert k a m = m ++ [(k, a)].
Proof.
  induction m as [|[k' a'] m IH]; [done|]. simpl. destruct (str_eqb k' k); [done|]. intros H. by rewrite IH.
Qed.

Lemma im_get_None {A} k (m : list (str * A)) : im_get k m = None ↔ k ∉ m.*1.
Proof.
  induction m as [|[k' a'] m IH]; simpl; [split; [intros _; apply not_elem_of_nil|done]|].
  rewrite not_elem_of_cons. destruct (str_eqb_spec k' k) as [->|Hne]; [naive_solver|]. rewrite IH. naive_solver.
Qed.

Lemma im_has_false {A} k (m : list (str * A)) : im_has k m = false ↔ k ∉ m.*1.
Proof. unfold im_has. rewrite <-im_get_None. destruct (im_get k m); naive_solver. Qed.

Lemma im_has_true {A} k (m : list (str * A)) : im_has k m = true ↔ k ∈ m.*1.
Proof.
  split; [|intros H; destruct (im_has k m) eqn:E; [done|by apply im_has_false in E]].
  unfold im_has. intros H. destruct (im_get k m) eqn:E; [|done].
  destruct (decide (k ∈ m.*1)) as [|Hn]; [done|]. apply im_get_None in Hn. congruence.
Qed.

Lemma im_get_In {A} k (m : list (str * A)) a : im_get k m = Some a → (k, a) ∈ m.
Proof.
  induction m as [|[k' a'] m IH]; [done|]. simpl. destruct (str_eqb_spec k' k) as [->|Hne].
  - intros [= ->]. by left.
  - intros H. right. by apply IH.
Qed.

Lemma im_get_NoDup {A} k (m : list (str * A)) a : NoDup m.*1 → (k, a) ∈ m → im_get k m = Some a.
Proof.
  induction m as [|[k' a'] m IH]; simpl; [by intros _ ?%elem_of_nil|].
  intros [Hk Hn]%NoDup_cons [[= -> ->]|H]%elem_of_cons; [by rewrite str_eqb_refl|].
  destruct (str_eqb_spec k' k) as [->|]; [|by apply IH].
  destruct Hk. apply list_elem_of_fmap. by exists (k, a).
Qed.

(** ** The invariant of a session *)

Definition keyed (es : list SessionEntry) : list (str * SessionEntry) := map (λ e, (entry_id e, e)) es.

Lemma keyed_ids es : (keyed es).*1 = map entry_id es.
Proof. unfold keyed. induction es as [|e es IH]; [done|]. cbn [map]. by rewrite fmap_cons, IH. Qed.

(** Parents come before their children. *)
Definition rooted (es : list SessionEntry) : Prop :=
  ∀ pre e post p, es = pre ++ e :: post → entry_parent_id e = Some p → p ∈ map entry_id pre.

Definition loaded (l : list SessionEntry) : Index := fold_left index_loaded l (mkIndex [] [] [] [] None).

Record wf (s : Index) : Prop := {
  wf_index : by_id s = keyed (get_entries s);
  wf_ids : NoDup (map entry_id (get_entries s));
  wf_rooted : rooted (get_entries s);
  wf_leaf : ∀ l, leaf_id s = Some l → l ∈ map entry_id (get_entries s);
  (* what reading the file again would give *)
  wf_loaded : by_id (loaded (file_entries s)) = by_id s;
  wf_labels : labels_by_id (loaded (file_entries s)) = labels_by_id s;
  wf_label_times : label_timestamps_by_id (loaded (file_entries s)) = label_timestamps_by_id s }.

(** The index does not depend on the list of entries it is kept with. *)
Lemma fold_index_fields l f f' b L T leaf :
  let r := fold_left index_loaded l (mkIndex f' b L T leaf) in
  fold_left index_loaded l (mkIndex f b L T leaf) =
    mkIndex f (by_id r) (labels_by_id r) (label_timestamps_by_id r) (leaf_id r).
Proof.
  revert b L T leaf. induction l as [|e l IH]; intros b L T leaf; [done|].
  assert (He : ∃ b' L' T' leaf', ∀ g, index_loaded (mkIndex g b L T leaf) e = mkIndex g b' L' T' leaf').
  { unfold index_loaded, set_label. simpl.
    destruct (is_session_header e); [by do 4 eexists|]. destruct (body e) as [| | | | | | | |? [?|]| | |];
      by do 4 eexists. }
  destruct He as (b' & L' & T' & leaf' & He). cbn [fold_left]. rewrite !He. apply IH.
Qed.

Lemma build_index_loaded l :
  build_index l = mkIndex l (by_id (loaded l)) (labels_by_id (loaded l))
                    (label_timestamps_by_id (loaded l)) (leaf_id (loaded l)).
Proof. apply fold_index_fields. Qed.

Lemma get_entries_snoc es e b L T leaf b' L' T' leaf' :
  is_session_header e = false →
  get_entries (mkIndex (es ++ [e]) b L T leaf) = get_entries (mkIndex es b' L' T' leaf') ++ [e].
Proof. intros H. unfold get_entries. simpl. rewrite List.filter_app. simpl. by rewrite H. Qed.

Lemma rooted_snoc es e :
  rooted es → (∀ p, entry_parent_id e = Some p → p ∈ map entry_id es) → rooted (es ++ [e]).
Proof.
  intros Hr He pre e' post p Hes Hp. destruct post as [|q post _] using rev_ind.
  - apply app_inj_tail in Hes as [-> ->]. by apply He.
  - rewrite app_comm_cons, app_assoc in Hes. apply app_inj_tail in Hes as [-> _]. by eapply Hr.
Qed.

(** An entry indexed in memory, with the effect of a label. *)
Definition appended (e : SessionEntry) (s : Index) : Index :=
  match body e with
  | LabelEntry target label => set_label target label (entry_timestamp e) (index_entry e s)
  | _ => index_entry e s
  end.

Lemma appended_fields e s :
  file_entries (appended e s) = file_entries s ++ [e] ∧
  by_id (appended e s) = im_insert (entry_id e) e (by_id s) ∧ leaf_id (appended e s) = Some (entry_id e).
Proof. unfold appended, set_label. destruct (body e) as [| | | | | | | |? [?|]| | |]; done. Qed.

Lemma loaded_appended e s :
  is_session_header e = false →
  by_id (loaded (file_entries s)) = by_id s → labels_by_id (loaded (file_entries s)) = labels_by_id s →
  label_timestamps_by_id (loaded (file_entries s)) = label_timestamps_by_id s →
  by_id (loaded (file_entries s ++ [e])) = by_id (appended e s) ∧
  labels_by_id (loaded (file_entries s ++ [e])) = labels_by_id (appended e s) ∧
  label_timestamps_by_id (loaded (file_entries s ++ [e])) = label_timestamps_by_id (appended e s).
Proof.
  intros He H1 H2 H3. unfold loaded. rewrite fold_left_app. cbn [fold_left]. fold (loaded (file_entries s)).
  unfold index_loaded, appended, set_label. rewrite He.
  destruct (body e) as [| | | | | | | |? [?|]| | |]; simpl; by rewrite ?H1, ?H2, ?H3.
Qed.

Lemma wf_appended e s :
  wf s → is_session_header e = false → entry_id e ∉ map entry_id (get_entries s) →
  (∀ p, entry_parent_id e = Some p → p ∈ map entry_id (get_entries s)) →
  wf (appended e s).
Proof.
  intros [Hi Hn Hr Hl H1 H2 H3] He Hid Hp.
  destruct (appended_fields e s) as (Hf & Hb & Hleaf).
  assert (Hge : get_entries (appended e s) = get_entries s ++ [e]).
  { unfold get_entries. rewrite Hf, List.filter_app. simpl. by rewrite He. }
  destruct (loaded_appended e s He H1 H2 H3) as (L1 & L2 & L3).
  constructor; rewrite ?Hge, ?Hf.
  - rewrite Hb, Hi, im_get_insert_fresh; [by unfold keyed; rewrite map_app|].
    apply im_get_None. by rewrite keyed_ids.
  - rewrite map_app. apply NoDup_app. split; [done|]. split; [|apply NoDup_singleton].
    intros x Hx Hx'. apply list_elem_of_singleton in Hx' as ->. done.
  - by apply rooted_snoc.
  - rewrite Hleaf. intros l [= <-]. rewrite map_app. apply elem_of_app. right. by left.
  - done.
  - done.
  - done.
Qed.

Lemma wf_set_leaf s l :
  wf s → (∀ x, l = Some x → x ∈ map entry_id (get_entries s)) →
  wf (mkIndex (file_entries s) (by_id s) (labels_by_id s) (label_timestamps_by_id s) l).
Proof. intros [] Hl. by constructor. Qed.

Lemma wf_has s id : wf s → im_has id (by_id s) = true ↔ id ∈ map entry_id (get_entries s).
Proof. intros H. by rewrite im_has_true, (wf_index s H), keyed_ids. Qed.

Lemma wf_fresh s id : wf s → negb (im_has id (by_id s)) = true → id ∉ map entry_id (get_entries s).
Proof. intros H Hf%negb_true_iff Hin. apply (wf_has s id H) in Hin. congruence. Qed.

Lemma op_wf s o : wf s → op_ok s o = true → wf (apply_op o s).
Proof.
  intros H Ho. destruct o as [id ts b|id ts target label|f| |id ts f summary]; cbn [apply_op op_ok] in *.
  - apply andb_true_iff in Ho as [Hf Hb]. apply (wf_fresh s id H) in Hf.
    replace (index_entry (new_entry id ts b s) s) with (appended (new_entry id ts b s) s)
      by (unfold appended; simpl; by destruct b).
    apply wf_appended; [done|by destruct b|done|apply (wf_leaf s H)].
  - apply (wf_fresh s id H) in Ho. unfold append_label_change.
    destruct (im_has target (by_id s)); [|done].
    apply (wf_appended (new_entry id ts (LabelEntry target label) s)); [done..|apply (wf_leaf s H)].
  - unfold branch. destruct (im_has f (by_id s)) eqn:Ef; [|done].
    apply wf_set_leaf; [done|]. intros x [= <-]. by apply wf_has.
  - by apply wf_set_leaf.
  - apply (wf_fresh s id H) in Ho. unfold branch_with_summary.
    assert (Hin : match f with Some f => negb (im_has f (by_id s)) | None => false end = false →
      ∀ p, f = Some p → p ∈ map entry_id (get_entries s)).
    { intros Hf p ->. apply negb_false_iff in Hf. by apply wf_has. }
    destruct (match f with Some f => negb (im_has f (by_id s)) | None => false end); [done|].
    specialize (Hin eq_refl).
    apply (wf_appended (mkEntry id f ts (BranchSummaryEntry summary (match f with Some f => f | None => lit "root" end)))
             (mkIndex (file_entries s) (by_id s) (labels_by_id s) (label_timestamps_by_id s) f));
      [by apply wf_set_leaf|done..].
Qed.

Lemma run_wf ops s s' : wf s → run_ops ops s = Some s' → wf s'.
Proof.
  revert s. induction ops as [|o ops IH]; intros s H Hr; simpl in Hr; [by simplify_eq|].
  destruct (op_ok s o) eqn:E; [|done]. eapply IH; [by apply op_wf|done].
Qed.

(** A session that has just been created: its header and nothing else. *)
Definition fresh_session (id : str) (ts : Z) : Index := build_index [mkEntry id None ts SessionHeader].

Lemma fresh_wf id ts : wf (fresh_session id ts).
Proof.
  constructor; try done.
  - constructor.
  - intros [|? ?] e post p H; simpl in H; discriminate.
Qed.

(** ** Branches are ancestries *)

(** Newest first: each entry is followed by its parent. *)
Fixpoint ascends (path : list SessionEntry) : Prop :=
  match path with
  | a :: (b :: _) as rest => entry_parent_id a = Some (entry_id b) ∧ ascends rest
  | _ => True
  end.

(** The index holds every entry under its own id. *)
Definition own_ids (m : list (str * SessionEntry)) : Prop := ∀ k e, im_get k m = Some e → entry_id e = k.

Lemma visited_spec id visited : existsb (str_eqb id) visited = true ↔ id ∈ visited.
Proof.
  rewrite existsb_exists. split.
  - intros (x & Hx & ->%str_eqb_eq). by apply list_elem_of_In.
  - intros H. exists id. split; [by apply list_elem_of_In|apply str_eqb_refl].
Qed.

Lemma walk_NoDup fuel m visited cur :
  NoDup (map entry_id (walk fuel m visited cur)) ∧
  ∀ x, x ∈ map entry_id (walk fuel m visited cur) → x ∉ visited.
Proof.
  revert visited cur. induction fuel as [|fuel IH]; intros visited cur;
    [split; [constructor|by intros x ?%elem_of_nil]|].
  destruct cur as [e|]; simpl; [|split; [constructor|by intros x ?%elem_of_nil]].
  destruct (existsb (str_eqb (entry_id e)) visited) eqn:E;
    [split; [constructor|by intros x ?%elem_of_nil]|].
  assert (He : entry_id e ∉ visited) by (rewrite <-visited_spec, E; done).
  destruct (IH (entry_id e :: visited) (entry_parent_id e ≫= λ p, im_get p m)) as [H1 H2]. split.
  - simpl. constructor; [|done]. intros Hin. apply (H2 _ Hin). by left.
  - simpl. intros x [->|Hx]%elem_of_cons; [done|]. intros Hv. apply (H2 x Hx). by right.
Qed.

Lemma walk_head fuel m visited e :
  entry_id e ∉ visited → walk (S fuel) m visited (Some e) = e :: walk fuel m (entry_id e :: visited) (entry_parent_id e ≫= λ p, im_get p m).
Proof. intros H. simpl. destruct (existsb _ visited) eqn:E; [by apply visited_spec in E|done]. Qed.

Lemma walk_cons fuel m visited cur x rest :
  walk fuel m visited cur = x :: rest → cur = Some x ∧
    ∃ fuel', fuel = S fuel' ∧ rest = walk fuel' m (entry_id x :: visited) (entry_parent_id x ≫= λ p, im_get p m).
Proof.
  destruct fuel as [|fuel]; [done|]. destruct cur as [e|]; [|done]. simpl.
  destruct (existsb _ visited); [done|]. intros [= <- <-]. eauto.
Qed.

Lemma walk_ascends fuel m visited cur : own_ids m → ascends (walk fuel m visited cur).
Proof.
  intros Hm. revert visited cur. induction fuel as [|fuel IH]; intros visited cur; [done|].
  destruct cur as [e|]; [|done]. simpl. destruct (existsb _ visited); [done|].
  specialize (IH (entry_id e :: visited) (entry_parent_id e ≫= λ p, im_get p m)).
  destruct (walk fuel m _ _) as [|b rest] eqn:Ew; [done|].
  apply walk_cons in Ew as [(p & Hp & Hg)%bind_Some _]. split; [|done]. by rewrite Hp, (Hm p b Hg).
Qed.

(** A walk that did not use up its fuel has stopped for a reason: at an entry without a
    parent in the index, or one whose parent it has seen. *)
Definition stops (m : list (str * SessionEntry)) (seen : list str) (a : SessionEntry) : Prop :=
  match entry_parent_id a ≫= λ p, im_get p m with
  | None => True
  | Some b => entry_id b ∈ seen
  end.

Lemma walk_stops fuel m visited cur a :
  length (walk fuel m visited cur) < fuel → last (walk fuel m visited cur) = Some a →
  stops m (map entry_id (walk fuel m visited cur) ++ visited) a.
Proof.
  revert visited cur. induction fuel as [|fuel IH]; intros visited cur Hlen Hlast; [lia|].
  destruct (walk (S fuel) m visited cur) as [|e rest] eqn:Ew; [done|].
  apply walk_cons in Ew as (-> & fuel' & [= <-] & Hrest). simpl in Hlen.
  specialize (IH (entry_id e :: visited) (entry_parent_id e ≫= λ p, im_get p m)). rewrite <-Hrest in IH.
  destruct rest as [|b rest'].
  - injection Hlast as <-. unfold stops.
    destruct (entry_parent_id e ≫= λ p, im_get p m) as [b|] eqn:Eb; [|done].
    destruct fuel as [|fuel]; [simpl in Hlen; lia|].
    destruct (decide (entry_id b ∈ entry_id e :: visited)) as [Hin|Hnin]; [exact Hin|].
    by rewrite walk_head in Hrest.
  - change (last (e :: b :: rest')) with (last (b :: rest')) in Hlast.
    specialize (IH ltac:(lia) Hlast). unfold stops in *.
    destruct (entry_parent_id a ≫= λ p, im_get p m); [|done].
    cbn [map app] in *. rewrite !elem_of_cons, !elem_of_app, !elem_of_cons in *. tauto.
Qed.

Lemma walk_in fuel m visited cur x :
  (∀ e, cur = Some e → ∃ k, im_get k m = Some e) → x ∈ walk fuel m visited cur → ∃ k, im_get k m = Some x.
Proof.
  revert visited cur. induction fuel as [|fuel IH]; intros visited cur Hc Hx; [by apply elem_of_nil in Hx|].
  destruct cur as [e|]; [|by apply elem_of_nil in Hx]. simpl in Hx.
  destruct (existsb _ visited); [by apply elem_of_nil in Hx|].
  apply elem_of_cons in Hx as [->|Hx]; [by apply Hc|].
  eapply IH; [|exact Hx]. intros b (p & _ & Hg)%bind_Some. eauto.
Qed.

Lemma walk_length m cur fuel :
  own_ids m → (∀ e, cur = Some e → ∃ k, im_get k m = Some e) → length (walk fuel m [] cur) ≤ length m.
Proof.
  intros Hm Hc. rewrite <-(length_map entry_id), <-(length_fmap fst m).
  apply NoDup_incl_length; [apply NoDup_ListNoDup, walk_NoDup|].
  intros x Hx%list_elem_of_In. apply list_elem_of_In.
  apply list_elem_of_fmap in Hx as (e & -> & He).
  destruct (walk_in _ _ _ _ _ Hc He) as [k Hk]. rewrite (Hm k e Hk).
  apply list_elem_of_fmap. exists (k, e). split; [done|by apply im_get_In].
Qed.

Definition older (es : list SessionEntry) (a b : SessionEntry) : Prop :=
  ∃ i j, es !! i = Some a ∧ es !! j = Some b ∧ i < j.

Lemma entries_unique es i j (a b : SessionEntry) :
  NoDup (map entry_id es) → es !! i = Some a → es !! j = Some b → entry_id a = entry_id b → i = j.
Proof.
  intros Hn Hi Hj Hid. eapply NoDup_lookup; [exact Hn| |].
  - by rewrite list_lookup_fmap, Hi.
  - rewrite list_lookup_fmap, Hj. simpl. by rewrite Hid.
Qed.

Lemma older_trans es : NoDup (map entry_id es) → Transitive (older es).
Proof.
  intros Hn a b c (i & j & Ha & Hb & Hij) (k & l & Hb' & Hc & Hkl).
  pose proof (entries_unique es j k b b Hn Hb Hb' eq_refl). exists i, l. repeat split; (done || lia).
Qed.

Lemma wf_own_ids s : wf s → own_ids (by_id s).
Proof.
  intros H k e He%im_get_In. rewrite (wf_index s H) in He.
  apply list_elem_of_fmap in He as (e' & [= -> ->] & _). done.
Qed.

Lemma wf_get s k e : wf s → im_get k (by_id s) = Some e → e ∈ get_entries s.
Proof.
  intros H He%im_get_In. rewrite (wf_index s H) in He.
  by apply list_elem_of_fmap in He as (e' & [= -> ->] & ?).
Qed.

(** In a session every parent is in the index, and older. *)
Lemma parent_older s a p :
  wf s → a ∈ get_entries s → entry_parent_id a = Some p →
  ∃ b, im_get p (by_id s) = Some b ∧ older (get_entries s) b a.
Proof.
  intros H Ha Hp. apply list_elem_of_split in Ha as (pre & post & Hes).
  pose proof (wf_rooted s H pre a post p Hes Hp) as Hin.
  apply list_elem_of_fmap in Hin as (b & -> & Hb). exists b. split.
  - apply im_get_NoDup; rewrite (wf_index s H); [rewrite keyed_ids; apply (wf_ids s H)|].
    apply list_elem_of_fmap. exists b. split; [done|]. rewrite Hes. apply elem_of_app. by left.
  - apply list_elem_of_lookup in Hb as [i Hi]. exists i, (length pre). rewrite Hes.
    split; [by apply lookup_app_l_Some|]. split; [by apply list_lookup_middle|]. by eapply lookup_lt_Some.
Qed.

Lemma ascends_older s path :
  wf s → ascends path → Forall (λ e, e ∈ get_entries s) path → StronglySorted (flip (older (get_entries s))) path.
Proof.
  intros H Ha Hf. apply Sorted_StronglySorted.
  { intros a b c Hab Hbc. by eapply (older_trans _ (wf_ids s H)). }
  induction path as [|a [|b path] IH]; [constructor|by repeat constructor|].
  apply Forall_cons in Hf as [Ha' Hf]. destruct Ha as [Hp Ha]. constructor; [by apply IH|]. constructor.
  destruct (parent_older s a _ H Ha' Hp) as (b' & Hg & Hold).
  apply Forall_cons in Hf as [Hb _].
  assert (b' = b) as <-; [|done]. apply list_elem_of_lookup in Hb as [i Hi].
  destruct Hold as (j & k & Hj & _). pose proof (wf_own_ids s H _ _ Hg) as Hid.
  pose proof (entries_unique _ j i b' b (wf_ids s H) Hj Hi Hid) as ->. congruence.
Qed.

(** The walk of [get_branch] from an indexed entry. *)
Definition ancestry (s : Index) (e : SessionEntry) : list SessionEntry :=
  walk (S (length (by_id s))) (by_id s) [] (Some e).

Lemma ancestry_spec s id e :
  wf s → im_get id (by_id s) = Some e →
  let path := ancestry s e in
  head path = Some e ∧ ascends path ∧ StronglySorted (flip (older (get_entries s))) path ∧
  length path ≤ length (by_id s) ∧ ∀ a, last path = Some a → entry_parent_id a = None.
Proof.
  intros H He path. subst path. unfold ancestry.
  assert (Hc : ∀ e', Some e = Some e' → ∃ k, im_get k (by_id s) = Some e') by (intros ? [= <-]; eauto).
  assert (Hin : Forall (λ e, e ∈ get_entries s) (walk (S (length (by_id s))) (by_id s) [] (Some e))).
  { apply Forall_forall. intros x Hx. destruct (walk_in _ _ _ _ _ Hc Hx) as [k Hk]. by eapply wf_get. }
  pose proof (walk_ascends (S (length (by_id s))) (by_id s) [] (Some e) (wf_own_ids s H)) as Hasc.
  pose proof (ascends_older s _ H Hasc Hin) as Hold.
  pose proof (walk_length (by_id s) (Some e) (S (length (by_id s))) (wf_own_ids s H) Hc) as Hlen.
  split; [by rewrite walk_head by apply not_elem_of_nil|]. do 3 (split; [done|]).
  intros a Hlast. destruct (entry_parent_id a) as [p|] eqn:Hp; [exfalso|done].
  pose proof (walk_stops (S (length (by_id s))) (by_id s) [] (Some e) a ltac:(lia) Hlast) as Hst. unfold stops in Hst.
  assert (Ha : a ∈ get_entries s).
  { rewrite Forall_forall in Hin. apply Hin. apply last_Some in Hlast as [l ->]. apply elem_of_app. right. by left. }
  destruct (parent_older s a p H Ha Hp) as (b & Hg & Hb). rewrite Hp in Hst. cbn [mbind option_bind] in Hst. rewrite Hg, app_nil_r in Hst.
  apply list_elem_of_fmap in Hst as (c & Hid & Hcin).
  assert (Hca : c = a ∨ older (get_entries s) a c).
  { apply last_Some in Hlast as [l Hl]. rewrite Hl in Hcin, Hold.
    apply elem_of_app in Hcin as [Hcin|Hcin]; [right|left; by apply list_elem_of_singleton in Hcin].
    apply StronglySorted_app in Hold as (Hx & _ & _). by apply (Hx c a Hcin ltac:(by left)). }
  destruct Hb as (i & j & Hi & Hj & Hij).
  destruct Hca as [->|(k & l & Hk & Hl & Hkl)].
  - pose proof (entries_unique _ i j b a (wf_ids s H) Hi Hj Hid). lia.
  - pose proof (entries_unique _ i l b c (wf_ids s H) Hi Hl Hid).
    pose proof (entries_unique _ j k a a (wf_ids s H) Hj Hk eq_refl). lia.
Qed.

Lemma get_branch_ancestry s id e :
  im_get id (by_id s) = Some e → get_branch (Some id) s = rev (ancestry s e).
Proof. intros H. unfold get_branch. simpl. by rewrite H. Qed.

(** C26: Over any sequence of operations on a session, the branch of an entry is its whole
    ancestry: it begins with an entry that has no parent, each further entry is the child
    of the one before, the entry itself is last, and all stand in the order in which they
    were written, none twice.  The walk never runs out of rounds. *)
Theorem branch_is_ancestry h ts ops s id e :
  run_ops ops (fresh_session h ts) = Some s → im_get id (by_id s) = Some e →
  let path := get_branch (Some id) s in
  last path = Some e ∧ ascends (rev path) ∧ StronglySorted (flip (older (get_entries s))) (rev path) ∧
  length path ≤ length (by_id s) ∧ ∀ a, head path = Some a → entry_parent_id a = None.
Proof.
  intros Hr He path. pose proof (run_wf ops _ s (fresh_wf h ts) Hr) as H.
  destruct (ancestry_spec s id e H He) as (H1 & H2 & H3 & H4 & H5).
  subst path. rewrite (get_branch_ancestry s id e He), rev_involutive, length_rev.
  assert (Hrev : ∀ l : list SessionEntry, last (rev l) = head l ∧ head (rev l) = last l).
  { intros l. rewrite rev_alt. by rewrite <-(last_reverse l), <-(head_reverse l). }
  destruct (Hrev (ancestry s e)) as [-> ->]. done.
Qed.

(** ** History is immutable *)

Definition extends (m m' : list (str * SessionEntry)) : Prop :=
  ∀ k e, im_get k m = Some e → im_get k m' = Some e.

Lemma apply_op_extends s o : wf s → op_ok s o = true → extends (by_id s) (by_id (apply_op o s)).
Proof.
  intros H Ho k e He.
  assert (Hins : ∀ id x, negb (im_has id (by_id s)) = true → im_get k (im_insert id x (by_id s)) = Some e).
  { intros id x Hf. rewrite im_get_insert_fresh.
    - clear -He. revert He. induction (by_id s) as [|[k' a] m IH]; simpl; [done|].
      destruct (str_eqb k' k); [done|exact IH].
    - apply negb_true_iff in Hf. unfold im_has in Hf. by destruct (im_get id (by_id s)). }
  destruct o as [id ts b|id ts target label|f| |id ts f summary]; cbn [apply_op op_ok] in *.
  - apply andb_true_iff in Ho as [Hf _]. by apply Hins.
  - unfold append_label_change. destruct (im_has target (by_id s)); [|done].
    unfold set_label. destruct label; by apply Hins.
  - unfold branch. by destruct (im_has f (by_id s)).
  - done.
  - unfold branch_with_summary. destruct (match f with Some f => negb (im_has f (by_id s)) | None => false end); [done|].
    by apply Hins.
Qed.

Lemma run_extends ops s s' : wf s → run_ops ops s = Some s' → extends (by_id s) (by_id s').
Proof.
  revert s. induction ops as [|o ops IH]; intros s H Hr; simpl in Hr; [simplify_eq; by intros k e|].
  destruct (op_ok s o) eqn:E; [|done]. intros k e He.
  apply (IH _ (op_wf s o H E) Hr). by apply apply_op_extends.
Qed.

(** A walk that ended below its fuel is the same in an index that holds more. *)
Lemma walk_extends fuel fuel' m m' visited cur :
  extends m m' → fuel ≤ fuel' → length (walk fuel m visited cur) < fuel →
  (∀ k e p, im_get k m = Some e → entry_parent_id e = Some p → is_Some (im_get p m)) →
  (∀ e, cur = Some e → ∃ k, im_get k m = Some e) →
  walk fuel' m' visited cur = walk fuel m visited cur.
Proof.
  intros Hext Hle Hlen Hclosed. revert fuel' visited cur Hle Hlen.
  induction fuel as [|fuel IH]; intros fuel' visited cur Hle Hlen Hc; [lia|].
  destruct fuel' as [|fuel']; [lia|]. destruct cur as [e|]; [|done].
  simpl in Hlen |- *. destruct (existsb (str_eqb (entry_id e)) visited); [done|]. f_equal.
  destruct (Hc e eq_refl) as [k Hk].
  assert (Hp : (entry_parent_id e ≫= λ p, im_get p m') = (entry_parent_id e ≫= λ p, im_get p m)).
  { destruct (entry_parent_id e) as [p|] eqn:Ep; [|done]. simpl.
    destruct (Hclosed k e p Hk Ep) as [b Hb]. by rewrite Hb, (Hext p b Hb). }
  rewrite Hp. apply IH; [lia|simpl in Hlen; lia|].
  intros b (p & _ & Hb)%bind_Some. eauto.
Qed.

(** C27: History is append-only: whatever is done to a session afterwards - new entries,
    branches, labels - the branch of an entry that exists stays what it is, and reading
    the written entries again gives the same index and the same labels. *)
Theorem history_immutable h ts ops1 s1 ops2 s2 id e :
  run_ops ops1 (fresh_session h ts) = Some s1 → run_ops ops2 s1 = Some s2 →
  im_get id (by_id s1) = Some e →
  get_branch (Some id) s2 = get_branch (Some id) s1 ∧
  (∃ l, build_index (file_entries s2) =
     mkIndex (file_entries s2) (by_id s2) (labels_by_id s2) (label_timestamps_by_id s2) l) ∧
  get_branch (Some id) (build_index (file_entries s2)) = get_branch (Some id) s1.
Proof.
  intros Hr1 Hr2 He. pose proof (run_wf ops1 _ s1 (fresh_wf h ts) Hr1) as H1.
  pose proof (run_wf ops2 _ s2 H1 Hr2) as H2. pose proof (run_extends ops2 s1 s2 H1 Hr2) as Hext.
  assert (Hbr : get_branch (Some id) s2 = get_branch (Some id) s1).
  { rewrite (get_branch_ancestry s1 id e He), (get_branch_ancestry s2 id e (Hext _ _ He)). f_equal.
    unfold ancestry. apply walk_extends; [done| | | |].
    - apply le_n_S. rewrite (wf_index s1 H1), (wf_index s2 H2). unfold keyed. rewrite !length_map.
      rewrite <-(length_map entry_id (get_entries s1)), <-(length_map entry_id (get_entries s2)).
      apply NoDup_incl_length; [apply NoDup_ListNoDup, (wf_ids s1 H1)|].
      intros x Hx%list_elem_of_In. apply list_elem_of_In.
      apply (wf_has s1 x H1), im_has_true in Hx. apply (wf_has s2 x H2).
      unfold im_has. destruct (im_get x (by_id s1)) as [a|] eqn:Ea; [by rewrite (Hext _ _ Ea)|].
      by apply im_get_None in Ea.
    - pose proof (ancestry_spec s1 id e H1 He) as (_ & _ & _ & Hlen & _). unfold ancestry in Hlen. lia.
    - intros k a p Hk Hp. destruct (parent_older s1 a p H1 (wf_get s1 k a H1 Hk) Hp) as (b & -> & _). done.
    - intros ? [= <-]. eauto. }
  split; [done|]. rewrite build_index_loaded, (wf_loaded s2 H2), (wf_labels s2 H2), (wf_label_times s2 H2).
  split; [eauto|]. by rewrite <-Hbr.
Qed.

(** ** The tree view *)

Definition childless (t : SessionTreeNode) : Prop := tree_children t = [].

Lemma im_get_insert {A} k k' (a : A) m :
  im_get k (im_insert k' a m) = if str_eqb k' k then Some a else im_get k m.
Proof.
  induction m as [|[k0 a0] m IH]; simpl; [done|].
  destruct (str_eqb_spec k0 k') as [->|Hne]; simpl.
  - by destruct (str_eqb k' k).
  - destruct (str_eqb_spec k0 k) as [->|Hne']; [|done].
    destruct (str_eqb_spec k' k); [congruence|done].
Qed.

Definition flat_of (s : Index) (e : SessionEntry) : SessionTreeFlatNode :=
  mkFlat e (im_get (entry_id e) (labels_by_id s)) (im_get (entry_id e) (label_timestamps_by_id s)).

Definition is_root (e : SessionEntry) : bool :=
  match entry_parent_id e with None => true | Some _ => false end.

(** The first loop of [get_tree] makes a childless node of every entry. *)
Lemma node_map_get s es m e :
  NoDup (map entry_id es) → e ∈ es →
  im_get (entry_id e)
    (fold_left (λ m f, im_insert (entry_id (flat_entry f)) (TreeNode f []) m) (map (flat_of s) es) m) =
    Some (TreeNode (flat_of s e) []).
Proof.
  intros Hn He. induction es as [|x es IH] using rev_ind; [by apply elem_of_nil in He|].
  rewrite map_app in Hn |- *. apply NoDup_app in Hn as (Hn & Hx & _).
  rewrite fold_left_app. cbn [map fold_left]. rewrite im_get_insert. simpl.
  destruct (str_eqb_spec (entry_id x) (entry_id e)) as [Hid|Hne].
  - apply elem_of_app in He as [He|He]; [|by apply list_elem_of_singleton in He as ->].
    destruct (Hx (entry_id e)); [by apply list_elem_of_fmap; exists e|]. rewrite <-Hid. by left.
  - apply IH; [done|]. apply elem_of_app in He as [He|He]; [done|].
    apply list_elem_of_singleton in He as ->. done.
Qed.

(** The second loop: a node is copied to where it belongs before its own children reach it. *)
Lemma attach_all s pre post nm roots :
  wf s → get_entries s = pre ++ post →
  (∀ e, e ∈ post → im_get (entry_id e) nm = Some (TreeNode (flat_of s e) [])) →
  (∀ e, e ∈ pre → is_Some (im_get (entry_id e) nm)) →
  (fold_left attach (map (flat_of s) post) (nm, roots)).2 =
    roots ++ map (λ e, TreeNode (flat_of s e) []) (List.filter is_root post).
Proof.
  intros H. revert pre nm roots. induction post as [|e post IH]; intros pre nm roots Hes Hpost Hpre;
    [by rewrite app_nil_r|].
  cbn [map fold_left]. unfold attach at 2. cbn [flat_of flat_entry].
  rewrite (Hpost e) by (by left).
  assert (Hnext : ∀ e', e' ∈ pre ++ [e] → is_Some (im_get (entry_id e') nm)).
  { intros e' [He'|He']%elem_of_app; [by apply Hpre|]. apply list_elem_of_singleton in He' as ->.
    rewrite (Hpost e) by (by left). done. }
  cbn [List.filter]. unfold is_root at 1. destruct (entry_parent_id e) as [p|] eqn:Ep.
  2: { rewrite (IH (pre ++ [e]) nm); [by rewrite <-app_assoc|by rewrite <-app_assoc| |done].
       intros e' He'. apply Hpost. by right. }
  pose proof (wf_rooted s H pre e post p Hes Ep) as Hp.
  pose proof (wf_ids s H) as Hn. rewrite Hes, map_app in Hn. apply NoDup_app in Hn as (_ & Hdis & _).
  destruct (str_eqb_spec p (entry_id e)) as [->|Hne]; [by destruct (Hdis _ Hp); left|].
  apply list_elem_of_fmap in Hp as (q & -> & Hq). destruct (Hpre q Hq) as [[pn cs] Hg]. rewrite Hg.
  apply (IH (pre ++ [e])); [by rewrite <-app_assoc| |].
  - intros e' He'. rewrite im_get_insert. destruct (str_eqb_spec (entry_id q) (entry_id e')) as [Hid|_].
    + destruct (Hdis (entry_id q)); [by apply list_elem_of_fmap; exists q|].
      right. rewrite Hid. apply list_elem_of_fmap. by exists e'.
    + apply Hpost. by right.
  - intros e' He'. rewrite im_get_insert. destruct (str_eqb _ _); [done|by apply Hnext].
Qed.

Lemma sort_childless fuel stack sorted :
  Forall childless stack → (∀ k cs, im_get k sorted = Some cs → cs = []) →
  ∀ k cs, im_get k (sort_children fuel stack sorted) = Some cs → cs = [].
Proof.
  revert stack sorted. induction fuel as [|fuel IH]; intros stack sorted Hs Hk; [done|].
  destruct stack as [|t stack]; [done|]. apply Forall_cons in Hs as [Ht Hs].
  cbn [sort_children]. unfold childless in Ht. rewrite Ht. cbn.
  apply IH; [done|]. intros k cs. rewrite im_get_insert.
  destruct (str_eqb _ k); [by intros [= <-]|apply Hk].
Qed.

Lemma apply_childless fuel sorted t :
  childless t → (∀ k cs, im_get k sorted = Some cs → cs = []) → apply_sorted fuel sorted t = t.
Proof.
  intros Ht Hk. destruct fuel as [|fuel]; [done|]. cbn [apply_sorted]. destruct t as [n cs].
  unfold childless in Ht. simpl in Ht. subst cs. cbn [tree_children tree_node tree_id].
  destruct (im_get _ sorted) as [cs|] eqn:E; [|done]. by rewrite (Hk _ _ E).
Qed.

(** The tree view of a session shows only the entries without a parent: [get_tree] copies
    each entry to its place before the entry's own children are attached, so every root
    of the result is without children and all other entries are missing from it. *)
Theorem get_tree_only_roots h ts ops s :
  run_ops ops (fresh_session h ts) = Some s →
  get_tree s = map (λ e, TreeNode (flat_of s e) []) (List.filter is_root (get_entries s)).
Proof.
  intros Hr. pose proof (run_wf ops _ s (fresh_wf h ts) Hr) as H.
  unfold get_tree. change (get_flat_tree s) with (map (flat_of s) (get_entries s)). cbv zeta.
  rewrite (attach_all s [] (get_entries s)); [|done|done| |by intros e ?%elem_of_nil].
  2: { intros e He. apply node_map_get; [apply (wf_ids s H)|done]. }
  cbn [app]. set (roots := map _ (List.filter is_root (get_entries s))).
  assert (Hc : Forall childless roots).
  { unfold roots. apply Forall_forall. intros t Ht. by apply list_elem_of_fmap in Ht as (e & -> & _). }
  set (sorted := sort_children _ _ _).
  assert (Hs : ∀ k cs, im_get k sorted = Some cs → cs = []).
  { apply sort_childless; [|done]. apply Forall_rev. done. }
  clearbody sorted roots. induction Hc as [|t roots Ht _ IH]; [done|].
  cbn [map]. by rewrite IH, (apply_childless _ _ t Ht Hs).
Qed.
End session.
