(* ===== verification/SessionContext.v ===== *)
(** * The session manager: the context of a branch

    [pi-coding-agent/src/core/session_manager.rs] 829-1426: from the branch that ends in
    the leaf, the messages a request is made of - all of them, or the summary of the
    last compaction that applies with what it retained and what came after - together
    with the settings in force, and the order in which clients present them. *)
From stdpp Require Import base list numbers sorting strings.
From S2P Require Import Prelude RustStr AgentTypes TransformMessages SessionIndex.

Local Open Scope nat_scope.

Section context.
Context {X : Externals}.

(** What the opaque body of a stored custom message says about its place: the count of a
    compaction summary, and the timestamp. *)
Variable stored_retained_count : CustomBody → option nat.
Variable custom_timestamp : CustomBody → Z.

(** ** Data *)

Record SessionContextModel : Type := mkContextModel { cm_provider : str; cm_model_id : str }.

Record SummaryMessage : Type := mkSummary {
  s_summary : str;
  s_provider_context : option ProviderCompactionCheckpoint;
  s_tokens_before : Value;
  s_retained_message_count : option nat;
  s_custom_instructions : option str;
  s_harness_digest : option str;
  s_timestamp : Z }.

(** The messages of a context: as stored, or made from an entry. *)
Inductive ContextMessage : Type :=
| Stored (m : AgentMessage)
| CustomMsg (custom_type : str) (content : Value) (display : bool) (details : option Value) (timestamp : Z)
| BranchSummaryMsg (summary from_id : str) (timestamp : Z)
| CompactionSummaryMsg (s : SummaryMessage).

Record SessionContextMessage : Type := mkContextMessage { cx_entry_id : str; cx_message : ContextMessage }.

Record SessionContextWithEntryIds : Type := mkSessionContext {
  messages : list ContextMessage;
  entry_ids : list str;
  thinking_level : str;
  service_tier : option (option str);
  model : option SessionContextModel }.

Definition empty_context : SessionContextWithEntryIds :=
  mkSessionContext [] [] (lit "off") (Some (Some (lit "default"))) None.

(** ** Settings along the branch *)

Record Settings : Type := mkSettings {
  st_thinking : str;
  st_tier : option (option str);
  st_model : option SessionContextModel }.

Definition scan_entry (s : Settings) (e : SessionEntry) : Settings :=
  match body e with
  | ThinkingLevelChange (Some level) => mkSettings level (st_tier s) (st_model s)
  | ServiceTierChange tier => mkSettings (st_thinking s) tier (st_model s)
  | ModelChange p m => mkSettings (st_thinking s) (st_tier s) (Some (mkContextModel p m))
  | MessageEntry m =>
      if str_eqb (sm_role m) (lit "assistant")
      then mkSettings (st_thinking s) (st_tier s) (Some (mkContextModel (sm_provider m) (sm_model m)))
      else s
  | _ => s
  end.

(** ** Which compaction applies *)

Record CheckpointModelTarget : Type := mkTarget {
  t_provider : str;
  t_id : str;
  t_api : option str;
  t_base_url : option str;
  t_native_endpoint : option str }.

Definition compaction_matches_target (cp : ProviderCompactionCheckpoint) (t : CheckpointModelTarget) : bool :=
  if negb (str_eqb (cp_provider cp) (t_provider t)) || negb (str_eqb (cp_model cp) (t_id t)) then false
  else if match t_api t with Some api => negb (str_eqb (cp_api cp) api) | None => false end then false
  else if match t_base_url t with
          | Some url => negb (str_eqb (trim_trailing_slashes (cp_base_url cp)) (trim_trailing_slashes url))
          | None => false
          end then false
  else match cp_endpoint cp, t_native_endpoint t with
       | None, None => true
       | Some e, Some n => str_eqb (trim_trailing_slashes e) (trim_trailing_slashes n)
       | _, _ => false
       end.

Definition checkpoint_target (target : option Model) (in_force : option SessionContextModel)
    : option CheckpointModelTarget :=
  match target with
  | Some m => Some (mkTarget (m_provider m) (m_id m) (Some (m_api m)) (Some (m_base_url m)) (native_compaction m))
  | None => (λ m, mkTarget (cm_provider m) (cm_model_id m) None None None) <$> in_force
  end.

Definition get_provider_checkpoint (d : CheckpointField) : option ProviderCompactionCheckpoint :=
  match d with Readable cp => Some cp | _ => None end.

(** Whether a compaction can be used: one without a checkpoint always, one with a checkpoint
    when it is readable and belongs to the target. *)
Definition applies (target : option CheckpointModelTarget) (e : SessionEntry) : bool :=
  match body e with
  | CompactionEntry c =>
      match c_details c with
      | NoCheckpoint => true
      | Unreadable => false
      | Readable cp => match target with Some t => compaction_matches_target cp t | None => false end
      end
  | _ => false
  end.

(** The loop keeps the last one. *)
Definition select_compaction (target : option CheckpointModelTarget) (path : list SessionEntry) : option SessionEntry :=
  fold_left (λ acc e, if applies target e then Some e else acc) path None.

(** ** Messages of entries *)

Definition context_message_for_entry (e : SessionEntry) : option SessionContextMessage :=
  match body e with
  | MessageEntry m => (λ msg, mkContextMessage (entry_id e) (Stored msg)) <$> sm_message m
  | CustomMessageEntry ty content display details =>
      Some (mkContextMessage (entry_id e) (CustomMsg ty content display details (entry_timestamp e)))
  | BranchSummaryEntry summary from_id =>
      if is_empty summary then None
      else Some (mkContextMessage (entry_id e) (BranchSummaryMsg summary from_id (entry_timestamp e)))
  | _ => None
  end.

(** [extend_context_messages]; its parallel map gives the same list. *)
Definition context_messages (path : list SessionEntry) : list SessionContextMessage :=
  omap context_message_for_entry path.

Fixpoint position (p : SessionEntry → bool) (l : list SessionEntry) : option nat :=
  match l with
  | [] => None
  | e :: l => if p e then Some 0 else S <$> position p l
  end.

Definition is_compaction (e : SessionEntry) : bool := match body e with CompactionEntry _ => true | _ => false end.

(** The messages when a compaction applies. *)
Definition compacted_messages (path : list SessionEntry) (e : SessionEntry) (c : CompactionBody)
    : list SessionContextMessage :=
  let idx := default 0 (position (λ x, is_compaction x && str_eqb (entry_id x) (entry_id e)) path) in
  let provider_context := get_provider_checkpoint (c_details c) in
  let retained :=
    match provider_context with
    | Some _ => []
    | None =>
        let first_kept :=
          if is_empty (first_kept_entry_id c) then idx
          else default idx (position (λ x, str_eqb (entry_id x) (first_kept_entry_id c)) (take idx path)) in
        context_messages (drop first_kept (take idx path))
    end in
  mkContextMessage (entry_id e)
    (CompactionSummaryMsg (mkSummary (c_summary c) provider_context (tokens_before c) (Some (length retained))
       (custom_instructions c) (harness_digest c) (entry_timestamp e)))
  :: retained ++ context_messages (drop (idx + 1) path).

Definition path_messages (target : option CheckpointModelTarget) (path : list SessionEntry) : list SessionContextMessage :=
  match select_compaction target path with
  | Some e =>
      match body e with
      | CompactionEntry c => compacted_messages path e c
      | _ => context_messages path    (* [select_compaction] gives compactions only *)
      end
  | None => context_messages path
  end.

(** ** The context *)

(** The branch: the walk from the leaf, oldest first.  The leaf may be missing from the
    index, so one round more than the index has entries. *)
Definition context_path (m : list (str * SessionEntry)) (leaf : SessionEntry) : list SessionEntry :=
  rev (walk (S (S (length m))) m [] (Some leaf)).

Definition context_of_path (target_model : option Model) (path : list SessionEntry) : SessionContextWithEntryIds :=
  let settings := fold_left scan_entry path (mkSettings (lit "off") (Some (Some (lit "default"))) None) in
  let ms := path_messages (checkpoint_target target_model (st_model settings)) path in
  mkSessionContext (map cx_message ms) (map cx_entry_id ms) (st_thinking settings) (st_tier settings) (st_model settings).

Definition build_session_context_with_entry_ids (entries : list SessionEntry) (leaf_id : option (option str))
    (by_id : option (list (str * SessionEntry))) (target_model : option Model) : SessionContextWithEntryIds :=
  let m := match by_id with
           | Some m => m
           | None => fold_left (λ m e, im_insert (entry_id e) e m) entries []
           end in
  let resolved :=
    match leaf_id with
    | Some None => None
    | Some (Some id) => match im_get id m with Some e => Some e | None => last entries end
    | None => last entries
    end in
  match resolved with
  | None => empty_context
  | Some leaf => context_of_path target_model (context_path m leaf)
  end.

(** ** Presentation order *)

Definition is_summary (m : ContextMessage) : bool :=
  match m with
  | CompactionSummaryMsg _ => true
  | Stored (CustomMessage (CompactionSummary _)) => true
  | _ => false
  end.

Definition message_timestamp (m : ContextMessage) : Z :=
  match m with
  | Stored (LlmMessage (User u)) => u_timestamp u
  | Stored (LlmMessage (Assistant a)) => am_timestamp a
  | Stored (LlmMessage (ToolResult r)) => tr_timestamp r
  | Stored (CustomMessage (BashExecution b | Custom b | BranchSummary b | CompactionSummary b)) => custom_timestamp b
  | CustomMsg _ _ _ _ t => t
  | BranchSummaryMsg _ _ t => t
  | CompactionSummaryMsg s => s_timestamp s
  end.

Definition retained_count (m : ContextMessage) : option nat :=
  match m with
  | CompactionSummaryMsg s => s_retained_message_count s
  | Stored (CustomMessage (CompactionSummary b)) => stored_retained_count b
  | _ => None
  end.

Record SessionHistorySnapshot : Type := mkSnapshot {
  h_messages : list ContextMessage;
  h_entry_ids : list str;
  tip_entry_id : option str }.

Fixpoint summary_position (l : list (ContextMessage * str)) : option nat :=
  match l with
  | [] => None
  | (m, _) :: l => if is_summary m then Some 0 else S <$> summary_position l
  end.

Definition order_pairs (pairs : list (ContextMessage * str)) : list (ContextMessage * str) :=
  match summary_position pairs with
  | None => pairs
  | Some i =>
      match pairs !! i with
      | None => pairs
      | Some summary =>
          let remaining := take i pairs ++ drop (S i) pairs in
          let boundary :=
            match retained_count summary.1 with
            | Some count => Nat.min count (length remaining)
            | None => length (List.filter (λ p, (message_timestamp p.1 <? message_timestamp summary.1)%Z) remaining)
            end in
          take boundary remaining ++ summary :: drop boundary remaining
      end
  end.

Definition order_session_context_for_transcript (c : SessionContextWithEntryIds) : SessionHistorySnapshot :=
  let pairs := order_pairs (zip (messages c) (entry_ids c)) in
  mkSnapshot (map fst pairs) (map snd pairs) None.

(** ** The manager's own calls *)

Definition session_context (s : Index) (target_model : option Model) : SessionContextWithEntryIds :=
  build_session_context_with_entry_ids (file_entries s) (Some (leaf_id s)) (Some (by_id s)) target_model.

Definition build_session_history (tip : option str) (target_model : option Model) (s : Index)
    : result SessionHistorySnapshot str :=
  let effective_tip := match tip with Some t => Some t | None => leaf_id s end in
  match effective_tip with
  | Some t =>
      if im_has t (by_id s) then
        let c := build_session_context_with_entry_ids (file_entries s) (Some (Some t)) (Some (by_id s)) target_model in
        let h := order_session_context_for_transcript c in
        Ok (mkSnapshot (h_messages h) (h_entry_ids h) (Some t))
      else Err (lit "Session history tip no longer exists: " ++ t)
  | None =>
      let c := build_session_context_with_entry_ids (file_entries s) (Some None) (Some (by_id s)) target_model in
      Ok (order_session_context_for_transcript c)
  end.

(** ** The specification *)

(** What a compaction keeps of the entries before it. *)
Fixpoint from_entry (id : str) (l : list SessionEntry) : list SessionEntry :=
  match l with
  | [] => []
  | e :: l' => if str_eqb (entry_id e) id then l else from_entry id l'
  end.

Definition kept_part (c : CompactionBody) (before : list SessionEntry) : list SessionEntry :=
  match get_provider_checkpoint (c_details c) with
  | Some _ => []
  | None => if is_empty (first_kept_entry_id c) then [] else from_entry (first_kept_entry_id c) before
  end.

Definition summary_of (e : SessionEntry) (c : CompactionBody) (before : list SessionEntry) : SessionContextMessage :=
  mkContextMessage (entry_id e)
    (CompactionSummaryMsg (mkSummary (c_summary c) (get_provider_checkpoint (c_details c)) (tokens_before c)
       (Some (length (context_messages (kept_part c before)))) (custom_instructions c) (harness_digest c)
       (entry_timestamp e))).

Lemma select_compaction_spec target path :
  match select_compaction target path with
  | None => Forall (λ e, applies target e = false) path
  | Some e => ∃ pre post, path = pre ++ e :: post ∧ applies target e = true ∧
      Forall (λ e, applies target e = false) post
  end.
Proof.
  unfold select_compaction. induction path as [|x path IH] using rev_ind; [constructor|].
  rewrite fold_left_app. cbn [fold_left]. destruct (applies target x) eqn:Ex.
  - exists path, []. by repeat split; [|constructor].
  - destruct (fold_left _ path None) as [e|].
    + destruct IH as (pre & post & -> & Ha & Hp). exists pre, (post ++ [x]).
      rewrite <-app_assoc. repeat split; [done|]. apply Forall_app. by split; [|repeat constructor].
    + apply Forall_app. by split; [|repeat constructor].
Qed.

Lemma position_app p a b :
  Forall (λ e, p e = false) a → position p (a ++ b) = Nat.add (length a) <$> position p b.
Proof.
  induction 1 as [|x a Hx _ IH]; simpl; [by destruct (position p b)|].
  rewrite Hx, IH. by destruct (position p b).
Qed.

Lemma position_from id l :
  drop (default (length l) (position (λ x, str_eqb (entry_id x) id) l)) l = from_entry id l.
Proof.
  induction l as [|x l IH]; [done|]. simpl. destruct (str_eqb (entry_id x) id); [done|].
  rewrite <-IH. by destruct (position _ l).
Qed.

Lemma applies_compaction target e : applies target e = true → ∃ c, body e = CompactionEntry c.
Proof. unfold applies. destruct (body e); eauto; done. Qed.

Lemma drop_length_app {A} (a : list A) x b : drop (length a + 1) (a ++ x :: b) = b.
Proof. rewrite drop_app_ge by lia. by replace (length a + 1 - length a) with 1 by lia. Qed.

(** With an applicable compaction: the summary, what it kept, and what came after. *)
Lemma compacted_messages_spec pre e post c :
  NoDup (map entry_id (pre ++ e :: post)) → body e = CompactionEntry c →
  compacted_messages (pre ++ e :: post) e c =
    summary_of e c pre :: context_messages (kept_part c pre) ++ context_messages post.
Proof.
  intros Hn Hb. rewrite map_app in Hn. apply NoDup_app in Hn as (_ & Hd & _).
  assert (Hpos : position (λ x, is_compaction x && str_eqb (entry_id x) (entry_id e)) (pre ++ e :: post) = Some (length pre)).
  { rewrite position_app.
    - simpl. unfold is_compaction. rewrite Hb, str_eqb_refl. simpl. f_equal. lia.
    - apply Forall_forall. intros x Hx. apply andb_false_iff. right. apply str_eqb_neq. intros Hid.
      apply (Hd (entry_id x)); [by apply list_elem_of_fmap; exists x|]. rewrite Hid. by left. }
  unfold compacted_messages. rewrite Hpos. change (default 0 (Some (length pre))) with (length pre). cbv zeta. rewrite take_app_length, drop_length_app.
  assert (Hk : match get_provider_checkpoint (c_details c) with
    | Some _ => []
    | None => context_messages (drop (if is_empty (first_kept_entry_id c) then length pre
        else default (length pre) (position (λ x, str_eqb (entry_id x) (first_kept_entry_id c)) pre)) pre)
    end = context_messages (kept_part c pre)).
  { unfold kept_part. destruct (get_provider_checkpoint (c_details c)); [done|].
    destruct (is_empty _); [by rewrite drop_all|by rewrite position_from]. }
  cbv zeta. rewrite Hk. done.
Qed.

Lemma path_messages_spec target path :
  NoDup (map entry_id path) →
  (Forall (λ e, applies target e = false) path ∧ path_messages target path = context_messages path) ∨
  ∃ pre e post c, path = pre ++ e :: post ∧ body e = CompactionEntry c ∧ applies target e = true ∧
    Forall (λ e, applies target e = false) post ∧
    path_messages target path = summary_of e c pre :: context_messages (kept_part c pre) ++ context_messages post.
Proof.
  intros Hn. unfold path_messages. pose proof (select_compaction_spec target path) as Hs.
  destruct (select_compaction target path) as [e|]; [right|by left].
  destruct Hs as (pre & post & -> & Ha & Hp). destruct (applies_compaction _ _ Ha) as [c Hc].
  exists pre, e, post, c. rewrite Hc. do 4 (split; [done|]). by apply compacted_messages_spec.
Qed.

(** ** Order *)

Definition pair_of (m : SessionContextMessage) : ContextMessage * str := (cx_message m, cx_entry_id m).

Lemma zip_pairs ms : zip (map cx_message ms) (map cx_entry_id ms) = map pair_of ms.
Proof. induction ms as [|m ms IH]; [done|]. simpl. by rewrite IH. Qed.

Lemma order_first m id rest n :
  is_summary m = true → retained_count m = Some n → n ≤ length rest →
  order_pairs ((m, id) :: rest) = take n rest ++ (m, id) :: drop n rest.
Proof.
  intros Hs Hr Hn. unfold order_pairs. simpl. rewrite Hs. simpl. rewrite Hr. rewrite drop_0.
  by rewrite Nat.min_l.
Qed.

Lemma order_summary_first e c before P :
  let K := context_messages (kept_part c before) in
  order_pairs (map pair_of (summary_of e c before :: K ++ P)) = map pair_of (K ++ summary_of e c before :: P).
Proof.
  intros K. rewrite map_app. cbn [map]. rewrite map_app. unfold pair_of at 1.
  rewrite (order_first _ _ _ (length K)); [|done|done|rewrite length_app, length_map; lia].
  rewrite <-(length_map pair_of K), take_app_length, drop_app_length. done.
Qed.

Lemma order_no_summary ms :
  Forall (λ m, is_summary (cx_message m) = false) ms → order_pairs (map pair_of ms) = map pair_of ms.
Proof.
  intros H. unfold order_pairs. assert (summary_position (map pair_of ms) = None) as ->; [|done].
  induction H as [|m ms Hm _ IH]; [done|]. simpl. by rewrite Hm, IH.
Qed.

Lemma contribution_ids path : map cx_entry_id (context_messages path) `sublist_of` map entry_id path.
Proof.
  unfold context_messages. induction path as [|e path IH]; [constructor|]. cbn [omap list_omap map].
  destruct (context_message_for_entry e) as [m|] eqn:E; [|by constructor].
  assert (Hm : cx_entry_id m = entry_id e).
  { revert E. unfold context_message_for_entry.
    destruct (body e) as [|sm| | | | |summary f| | | | |]; try done.
    - by destruct (sm_message sm); intros [= <-].
    - by destruct (is_empty summary); intros [= <-].
    - by intros [= <-]. }
  cbn [map]. rewrite Hm. by constructor.
Qed.

Lemma from_entry_suffix id l : ∃ a, l = a ++ from_entry id l.
Proof.
  induction l as [|e l [a IH]]; [by exists []|]. simpl. destruct (str_eqb (entry_id e) id); [by exists []|].
  exists (e :: a). simpl. by rewrite <-IH.
Qed.

Lemma kept_suffix c pre : ∃ a, pre = a ++ kept_part c pre.
Proof.
  unfold kept_part. destruct (get_provider_checkpoint _); [exists pre; by rewrite app_nil_r|].
  destruct (is_empty _); [exists pre; by rewrite app_nil_r|]. apply from_entry_suffix.
Qed.

Lemma compacted_ids_sublist pre e post c :
  map cx_entry_id (context_messages (kept_part c pre) ++ summary_of e c pre :: context_messages post)
    `sublist_of` map entry_id (pre ++ e :: post).
Proof.
  rewrite !map_app. cbn [map summary_of cx_entry_id]. apply sublist_app.
  - destruct (kept_suffix c pre) as [a Ha]. rewrite Ha at 2. rewrite map_app.
    apply sublist_inserts_l. apply contribution_ids.
  - apply sublist_skip. apply contribution_ids.
Qed.

(** The walk visits no id twice, whatever the index holds. *)
Lemma context_path_NoDup m leaf : NoDup (map entry_id (context_path m leaf)).
Proof.
  unfold context_path. rewrite map_rev. apply NoDup_ListNoDup, List.NoDup_rev, NoDup_ListNoDup, walk_NoDup.
Qed.

(** What a context and its presentation are, for a branch. *)
Definition presents (path : list SessionEntry) (target : option CheckpointModelTarget)
    (c : SessionContextWithEntryIds) (h : SessionHistorySnapshot) : Prop :=
  (Forall (λ e, applies target e = false) path ∧
   entry_ids c = map cx_entry_id (context_messages path) ∧ messages c = map cx_message (context_messages path) ∧
   h_entry_ids h = entry_ids c ∧ h_messages h = messages c) ∨
  ∃ pre e post cb,
    path = pre ++ e :: post ∧ body e = CompactionEntry cb ∧ applies target e = true ∧
    Forall (λ e, applies target e = false) post ∧
    let kept := context_messages (kept_part cb pre) in
    let later := context_messages post in
    entry_ids c = entry_id e :: map cx_entry_id kept ++ map cx_entry_id later ∧
    messages c = cx_message (summary_of e cb pre) :: map cx_message kept ++ map cx_message later ∧
    h_entry_ids h = map cx_entry_id kept ++ entry_id e :: map cx_entry_id later ∧
    h_messages h = map cx_message kept ++ cx_message (summary_of e cb pre) :: map cx_message later.

Lemma map_pair_of ms : map fst (map pair_of ms) = map cx_message ms ∧ map snd (map pair_of ms) = map cx_entry_id ms.
Proof. by rewrite !map_map. Qed.

Lemma context_presents target_model path :
  NoDup (map entry_id path) →
  Forall (λ m, is_summary (cx_message m) = false) (context_messages path) →
  let c := context_of_path target_model path in
  presents path (checkpoint_target target_model (model c)) c (order_session_context_for_transcript c) ∧
  h_entry_ids (order_session_context_for_transcript c) `sublist_of` map entry_id path.
Proof.
  intros Hn Hsum c. subst c. unfold context_of_path, order_session_context_for_transcript. cbn [messages entry_ids model].
  rewrite zip_pairs. set (settings := fold_left _ _ _).
  set (target := checkpoint_target target_model (st_model settings)).
  destruct (path_messages_spec target path Hn) as [[Hno ->]|(pre & e & post & cb & -> & Hb & Ha & Hp & ->)].
  - rewrite (order_no_summary _ Hsum). destruct (map_pair_of (context_messages path)) as [-> ->].
    split; [left; done|]. apply contribution_ids.
  - rewrite order_summary_first. cbn [h_messages h_entry_ids].
    destruct (map_pair_of (context_messages (kept_part cb pre) ++ summary_of e cb pre :: context_messages post)) as [-> ->].
    split; [|apply compacted_ids_sublist]. right. exists pre, e, post, cb. do 4 (split; [done|]).
    cbn [map]. by rewrite !map_app.
Qed.

(** ** Reachable sessions *)

(** More rounds than the walk takes change nothing. *)
Lemma walk_fuel fuel fuel' m visited cur :
  fuel ≤ fuel' → length (walk fuel m visited cur) < fuel → walk fuel' m visited cur = walk fuel m visited cur.
Proof.
  revert fuel' visited cur. induction fuel as [|fuel IH]; intros fuel' visited cur Hle Hlen; [lia|].
  destruct fuel' as [|fuel']; [lia|]. destruct cur as [e|]; [|done].
  cbn [walk] in Hlen |- *. destruct (existsb (str_eqb (entry_id e)) visited); [done|]. f_equal.
  apply IH; [lia|]. cbn [length] in Hlen. lia.
Qed.

(** The builder walks exactly the branch. *)
Lemma context_path_branch s id e :
  own_ids (by_id s) → im_get id (by_id s) = Some e → context_path (by_id s) e = get_branch (Some id) s.
Proof.
  intros Hm He. rewrite (get_branch_ancestry s id e He). unfold context_path. f_equal. apply walk_fuel; [lia|].
  pose proof (walk_length (by_id s) (Some e) (S (length (by_id s))) Hm) as Hl.
  apply Nat.lt_succ_r, Hl. intros ? [= <-]. eauto.
Qed.

Lemma get_branch_NoDup id s : NoDup (map entry_id (get_branch id s)).
Proof.
  unfold get_branch. rewrite map_rev. apply NoDup_ListNoDup, List.NoDup_rev, NoDup_ListNoDup, walk_NoDup.
Qed.

Lemma history_of_branch s id e target_model :
  wf s → im_get id (by_id s) = Some e →
  let c := context_of_path target_model (get_branch (Some id) s) in
  let h := order_session_context_for_transcript c in
  build_session_context_with_entry_ids (file_entries s) (Some (Some id)) (Some (by_id s)) target_model = c ∧
  build_session_history (Some id) target_model s = Ok (mkSnapshot (h_messages h) (h_entry_ids h) (Some id)).
Proof.
  intros H He c h. subst c h. rewrite <-(context_path_branch s id e (wf_own_ids s H) He).
  unfold build_session_history, build_session_context_with_entry_ids, im_has. by rewrite He.
Qed.

Lemma session_context_branch s l e target_model :
  own_ids (by_id s) → leaf_id s = Some l → im_get l (by_id s) = Some e →
  session_context s target_model = context_of_path target_model (get_branch None s).
Proof.
  intros Hm Hl He. unfold session_context, build_session_context_with_entry_ids. rewrite Hl, He.
  rewrite (context_path_branch s l e Hm He). unfold get_branch. by rewrite Hl.
Qed.

(** Entries that contribute nothing, at the end of a branch, change nothing. *)
Definition neutral (e : SessionEntry) : Prop :=
  context_message_for_entry e = None ∧ (∀ t, applies t e = false) ∧ ∀ st, scan_entry st e = st.

Lemma neutral_messages l : Forall neutral l → context_messages l = [].
Proof.
  unfold context_messages. induction 1 as [|e l (He & _) _ IH]; [done|]. cbn [omap list_omap]. by rewrite He.
Qed.

Lemma neutral_context target_model path l :
  NoDup (map entry_id (path ++ l)) → Forall neutral l →
  context_of_path target_model (path ++ l) = context_of_path target_model path.
Proof.
  intros Hn Hl. unfold context_of_path.
  assert (Hscan : ∀ st, fold_left scan_entry l st = st).
  { clear Hn. induction Hl as [|e l (_ & _ & He) _ IH]; intros st; [done|]. cbn [fold_left]. by rewrite He. }
  rewrite fold_left_app, Hscan. set (st := fold_left scan_entry path _).
  set (target := checkpoint_target target_model (st_model st)).
  assert (Hm : path_messages target (path ++ l) = path_messages target path); [|by rewrite Hm].
  assert (Hsel : select_compaction target (path ++ l) = select_compaction target path).
  { unfold select_compaction. rewrite fold_left_app. generalize (fold_left (λ acc e, if applies target e then Some e else acc) path None).
    clear Hn Hscan. induction Hl as [|e l (_ & He & _) _ IH]; intros acc; [done|]. cbn [fold_left]. by rewrite He. }
  pose proof (select_compaction_spec target path) as Hs. unfold path_messages. rewrite Hsel.
  assert (Happ : ∀ a, context_messages (a ++ l) = context_messages a).
  { intros a. unfold context_messages. rewrite omap_app. fold (context_messages l).
    by rewrite (neutral_messages l Hl), app_nil_r. }
  destruct (select_compaction target path) as [e|]; [|apply Happ].
  destruct Hs as (pre & post & -> & _). destruct (body e) eqn:Eb; try apply Happ.
  assert (Hn' : NoDup (map entry_id (pre ++ e :: post))) by (rewrite map_app in Hn; by apply NoDup_app in Hn as (? & _)).
  rewrite (compacted_messages_spec pre e post c Hn' Eb). rewrite <-app_assoc in Hn |- *.
  rewrite <-app_comm_cons in Hn |- *. by rewrite (compacted_messages_spec pre e (post ++ l) c Hn Eb), Happ.
Qed.

(** C7: The history of an entry: for any session, any entry of it that is asked for as the tip,
    and any model, the request's context is either every message of the branch in order
    (when no compaction on it can be used), or the summary of the last usable compaction
    followed by the messages it kept and those written after it; the transcript shows the
    same messages with the summary moved between the two groups; the ids it gives are ids
    of the branch, in branch order, none twice.  (Compaction summaries only come from
    compaction entries: none was stored as a message.) *)
Theorem history_presents_branch h0 ts ops s id e target_model :
  run_ops ops (fresh_session h0 ts) = Some s → im_get id (by_id s) = Some e →
  let path := get_branch (Some id) s in
  Forall (λ m, is_summary (cx_message m) = false) (context_messages path) →
  let c := build_session_context_with_entry_ids (file_entries s) (Some (Some id)) (Some (by_id s)) target_model in
  ∃ h, build_session_history (Some id) target_model s = Ok h ∧ tip_entry_id h = Some id ∧
    presents path (checkpoint_target target_model (model c)) c h ∧
    h_entry_ids h `sublist_of` map entry_id path ∧ NoDup (h_entry_ids h) ∧
    length (h_messages h) = length (h_entry_ids h).
Proof.
  intros Hr He path Hs c. pose proof (run_wf ops _ s (fresh_wf h0 ts) Hr) as H.
  destruct (history_of_branch s id e target_model H He) as [Hc Hh].
  destruct (context_presents target_model path (get_branch_NoDup _ s) Hs) as [Hp Hsub].
  subst c. rewrite Hc, Hh. fold path. eexists. split; [done|]. split; [done|]. cbn [h_entry_ids h_messages].
  split; [|split; [exact Hsub|split]].
  - destruct Hp as [Hp|(pre & x & post & cb & Hp)]; [left; exact Hp|right]. exists pre, x, post, cb. exact Hp.
  - eapply sublist_NoDup; [|exact Hsub]. apply get_branch_NoDup.
  - unfold order_session_context_for_transcript. simpl. by rewrite !length_map.
Qed.
End context.
