(* ===== verification/SessionFork.v ===== *)
(** * The session manager: forking a session

    [create_branched_session] of [pi-coding-agent/src/core/session_manager.rs]: a new
    session made of the branch that ends in an entry.  The entries that set labels are left
    out and the labels in force on the branch are written again at its end.  The new
    session's header (its id and time) and the ids of the label entries are drawn by the
    code and are arguments here; the file of the new session is not part of this model. *)
From stdpp Require Import base list numbers sorting strings.
From S2P Require Import Prelude RustStr AgentTypes TransformMessages SessionIndex SessionContext.

Local Open Scope nat_scope.

Section fork.
Context {X : Externals}.

Definition is_label (e : SessionEntry) : bool := match body e with LabelEntry _ _ => true | _ => false end.

(** The labels in force on the entries of the branch, in the order of the map. *)
Definition labels_to_write (path_entry_ids : list str) (s : Index) : list (str * str * Z) :=
  map (λ p, (p.1, p.2, default 0%Z (im_get p.1 (label_timestamps_by_id s))))
    (List.filter (λ p, existsb (str_eqb p.1) path_entry_ids) (labels_by_id s)).

(** One entry per label, each hung from the one before. *)
Fixpoint label_entries (ids : list str) (parent_id : option str) (labels : list (str * str * Z)) : list SessionEntry :=
  match ids, labels with
  | id :: ids, (target, label, ts) :: labels =>
      mkEntry id parent_id ts (LabelEntry target (Some label)) :: label_entries ids (Some id) labels
  | _, _ => []
  end.

Definition create_branched_session (header : SessionEntry) (label_ids : list str) (leaf : str) (s : Index)
    : result Index str :=
  let path := get_branch (Some leaf) s in
  if is_empty path then Err (not_found leaf)
  else
    let path_without_labels := List.filter (λ e, negb (is_label e)) path in
    let labels := labels_to_write (map entry_id path_without_labels) s in
    let parent_id := entry_id <$> last path_without_labels in
    Ok (build_index (header :: path_without_labels ++ label_entries label_ids parent_id labels)).

(** What the code draws: an id for each label, none on the branch and none twice. *)
Definition fork_args (header : SessionEntry) (label_ids : list str) (leaf : str) (s : Index) : Prop :=
  let main := List.filter (λ e, negb (is_label e)) (get_branch (Some leaf) s) in
  is_session_header header = true ∧ NoDup label_ids ∧ length label_ids = length (labels_to_write (map entry_id main) s) ∧
  Forall (λ id, id ∉ map entry_id main) label_ids.

(** ** A chain of entries is walked to its end *)

Lemma walk_chain fuel m visited l :
  l ≠ [] → ascends l → NoDup (map entry_id l) → Forall (λ e, entry_id e ∉ visited) l → length l ≤ fuel →
  Forall (λ e, im_get (entry_id e) m = Some e) l →
  (∀ a p, last l = Some a → entry_parent_id a = Some p → im_get p m = None) →
  walk fuel m visited (head l) = l.
Proof.
  revert fuel visited. induction l as [|e l IH]; intros fuel visited Hl Ha Hn Hv Hlen Hm Hend; [done|].
  destruct fuel as [|fuel]; [simpl in Hlen; lia|]. cbn [head]. apply Forall_cons in Hv as [He Hv].
  rewrite walk_head by done. f_equal. apply NoDup_cons in Hn as [Hne Hn]. apply Forall_cons in Hm as [_ Hm].
  destruct l as [|b l].
  - assert ((entry_parent_id e ≫= λ p, im_get p m) = None) as ->; [|by destruct fuel].
    destruct (entry_parent_id e) as [p|] eqn:Ep; [|done]. exact (Hend e p eq_refl Ep).
  - destruct Ha as [Hp Ha]. rewrite Hp. cbn [mbind option_bind].
    pose proof (Forall_inv Hm) as Hb. rewrite Hb.
    apply (IH fuel (entry_id e :: visited)); [done|done|done| |simpl in Hlen |- *; lia|done|exact Hend].
    apply Forall_forall. intros x Hx. rewrite not_elem_of_cons. split.
    + intros Hid. apply Hne. rewrite <-Hid. apply (list_elem_of_fmap_2 entry_id (b :: l)). exact Hx.
    + rewrite Forall_forall in Hv. by apply Hv.
Qed.

(** ** The index of the new session *)

Lemma loaded_snoc l e : loaded (l ++ [e]) = index_loaded (loaded l) e.
Proof. unfold loaded. by rewrite fold_left_app. Qed.

Lemma loaded_entries h es :
  is_session_header h = true → Forall (λ e, is_session_header e = false) es → NoDup (map entry_id es) →
  by_id (loaded (h :: es)) = keyed es ∧ leaf_id (loaded (h :: es)) = entry_id <$> last es.
Proof.
  intros Hh Hf. induction es as [|e es IH] using rev_ind; intros Hn.
  - unfold loaded. simpl. unfold index_loaded. by rewrite Hh.
  - apply Forall_app in Hf as [Hf He]. apply Forall_inv in He. rewrite map_app in Hn.
    apply NoDup_app in Hn as (Hn & Hd & _). destruct (IH Hf Hn) as [Hb _].
    assert (Hfresh : im_get (entry_id e) (keyed es) = None).
    { apply im_get_None. rewrite keyed_ids. intros Hin. apply (Hd _ Hin). by left. }
    rewrite app_comm_cons, loaded_snoc, last_snoc. unfold index_loaded. rewrite He.
    unfold set_label. destruct (body e) as [| | | | | | | |? [?|]| | |]; simpl;
      by rewrite Hb, im_get_insert_fresh by done; unfold keyed; rewrite map_app.
Qed.

Lemma loaded_no_labels h es :
  is_session_header h = true → Forall (λ e, is_label e = false) es →
  labels_by_id (loaded (h :: es)) = [] ∧ label_timestamps_by_id (loaded (h :: es)) = [].
Proof.
  intros Hh. induction es as [|e es IH] using rev_ind; intros Hf.
  - unfold loaded. simpl. unfold index_loaded. by rewrite Hh.
  - apply Forall_app in Hf as [Hf He]. apply Forall_inv in He. destruct (IH Hf) as [H1 H2].
    rewrite app_comm_cons, loaded_snoc. unfold index_loaded, is_label in *. destruct (is_session_header e); [done|].
    by destruct (body e).
Qed.

(** The label entries put back the labels. *)
Lemma loaded_label_entries l ids parent ls :
  length ids = length ls → NoDup (map (λ p, p.1.1) ls) →
  Forall (λ p, p.1.1 ∉ (labels_by_id (loaded l)).*1) ls →
  labels_by_id (loaded (l ++ label_entries ids parent ls)) = labels_by_id (loaded l) ++ map fst ls.
Proof.
  revert l ids parent. induction ls as [|[[t lab] ts] ls IH]; intros l [|id ids] parent Hlen Hn Hf; try done.
  { by rewrite !app_nil_r. }
  cbn [label_entries map]. apply NoDup_cons in Hn as [Ht Hn]. apply Forall_cons in Hf as [Hx Hf].
  set (e := mkEntry id parent ts (LabelEntry t (Some lab))).
  assert (Hl : labels_by_id (loaded (l ++ [e])) = labels_by_id (loaded l) ++ [(t, lab)]).
  { rewrite loaded_snoc. cbn. apply im_get_insert_fresh. by apply im_get_None. }
  replace (l ++ e :: label_entries ids (Some id) ls) with ((l ++ [e]) ++ label_entries ids (Some id) ls)
    by by rewrite <-app_assoc.
  rewrite IH; [|by injection Hlen|done|].
  - by rewrite Hl, <-app_assoc.
  - rewrite Hl. apply Forall_forall. intros p Hp. rewrite fmap_app, not_elem_of_app. split.
    + rewrite Forall_forall in Hf. by apply Hf.
    + intros Hin. apply list_elem_of_singleton in Hin. apply Ht. simpl in Hin. rewrite <-Hin.
      apply list_elem_of_fmap. by exists p.
Qed.

Lemma label_entries_ids ids parent ls :
  length ids = length ls → map entry_id (label_entries ids parent ls) = ids.
Proof.
  revert ids parent. induction ls as [|[[t lab] ts] ls IH]; intros [|id ids] parent H; try done.
  simpl. f_equal. apply IH. by injection H.
Qed.

Lemma label_entries_labels ids parent ls :
  Forall (λ e, is_label e = true ∧ is_session_header e = false) (label_entries ids parent ls).
Proof.
  revert ids parent. induction ls as [|[[t lab] ts] ls IH]; intros [|id ids] parent; simpl; constructor; [done|apply IH].
Qed.

(** Each label entry hangs from the one before, the first from the given parent. *)
Lemma label_entries_chain ids a ls older_part :
  ascends (a :: older_part) → ascends (rev (label_entries ids (Some (entry_id a)) ls) ++ a :: older_part).
Proof.
  revert ids a older_part. induction ls as [|[[t lab] ts] ls IH]; intros [|id ids] a older_part H; try done.
  cbn [label_entries rev]. rewrite <-app_assoc. cbn [app].
  set (e := mkEntry id (Some (entry_id a)) ts (LabelEntry t (Some lab))).
  change (Some id) with (Some (entry_id e)). apply IH. by split.
Qed.

(** The keys of the label map are distinct. *)
Lemma im_insert_NoDup {A} k (a : A) m : NoDup m.*1 → NoDup (im_insert k a m).*1.
Proof.
  intros H. destruct (im_get k m) as [b|] eqn:E.
  - enough ((im_insert k a m).*1 = m.*1) as Hk by (rewrite Hk; exact H).
    clear H. revert E. induction m as [|[k' a'] m IH]; simpl; [done|].
    destruct (str_eqb_spec k' k); [done|]. intros E. cbn [fmap list_fmap]. f_equal. exact (IH E).
  - rewrite im_get_insert_fresh by done. rewrite fmap_app. apply NoDup_app. split; [done|].
    split; [|apply NoDup_singleton]. intros x Hx Hx'. apply list_elem_of_singleton in Hx' as ->.
    by apply im_get_None in E.
Qed.

Lemma im_remove_NoDup {A} k (m : list (str * A)) :
  NoDup m.*1 → NoDup (im_remove k m).*1 ∧ ∀ x, x ∈ (im_remove k m).*1 → x ∈ m.*1.
Proof.
  induction m as [|[k' a'] m IH]; simpl; [done|]. intros [Hk Hn]%NoDup_cons. destruct (IH Hn) as [H1 H2].
  destruct (str_eqb k' k); [split; [done|]; intros x Hx; by right|]. simpl. split.
  - constructor; [|done]. intros Hin. by apply Hk, H2.
  - intros x [->|Hx]%elem_of_cons; [by left|right; by apply H2].
Qed.

Lemma loaded_labels_NoDup l : NoDup (labels_by_id (loaded l)).*1.
Proof.
  induction l as [|e l IH] using rev_ind; [constructor|]. rewrite loaded_snoc. unfold index_loaded, set_label.
  destruct (is_session_header e); [done|]. destruct (body e) as [| | | | | | | |t [lab|]| | |]; try done; simpl.
  - by apply im_insert_NoDup.
  - by apply im_remove_NoDup.
Qed.

(** ** The branch of the new session *)

Lemma ascends_app_r a b : ascends (a ++ b) → ascends b.
Proof.
  induction a as [|x a IH]; [done|]. intros H. apply IH. destruct a as [|y a]; [|apply H].
  destruct b as [|z b]; [done|]. apply H.
Qed.

Lemma ascends_app_l a b : ascends (a ++ b) → ascends a.
Proof.
  induction a as [|x [|y a] IH]; [done|done|]. intros [H1 H2]. split; [done|]. by apply IH.
Qed.

Lemma ascends_middle a b c d : ascends (a ++ b :: c :: d) → entry_parent_id b = Some (entry_id c).
Proof. intros H%ascends_app_r. apply H. Qed.

Abbreviation kept := (List.filter (λ e, negb (is_label e))).

Lemma kept_labels l : Forall (λ e, is_label e = true) l → kept l = [].
Proof. intros H. apply filter_all_false. intros e He. rewrite Forall_forall in H. by rewrite (H e He). Qed.

Lemma kept_all l : Forall (λ e, is_label e = false) l → kept l = l.
Proof. induction 1 as [|e l He _ IH]; [done|]. simpl. by rewrite He, IH. Qed.

Lemma kept_in e l : e ∈ kept l ↔ e ∈ l ∧ is_label e = false.
Proof. by rewrite !list_elem_of_In, List.filter_In, negb_true_iff. Qed.

Lemma kept_NoDup l : NoDup (map entry_id l) → NoDup (map entry_id (kept l)).
Proof.
  induction l as [|e l IH]; [done|]. cbn [map]. intros [He Hn]%NoDup_cons. cbn [List.filter].
  destruct (is_label e); cbn [negb map]; [by apply IH|]. constructor; [|by apply IH].
  intros (x & Hid & Hx)%list_elem_of_fmap. apply kept_in in Hx as [Hx _]. apply He. rewrite Hid.
  apply list_elem_of_fmap. by exists x.
Qed.

Lemma label_ids_NoDup s ids : wf s → NoDup (map (λ p, p.1.1) (labels_to_write ids s)).
Proof.
  intros H. unfold labels_to_write. rewrite map_map. cbn [fst].
  pose proof (loaded_labels_NoDup (file_entries s)) as Hn. rewrite (wf_labels s H) in Hn.
  induction (labels_by_id s) as [|[t lab] m IH]; [constructor|].
  apply NoDup_cons in Hn as [Ht Hn]. cbn [List.filter]. destruct (existsb _ ids); [|by apply IH].
  cbn [map fst]. constructor; [|by apply IH]. intros ([t' l'] & -> & Hin)%list_elem_of_fmap. apply Ht.
  apply list_elem_of_In, List.filter_In in Hin as [Hin _].
  apply list_elem_of_fmap. exists (t', l'). split; [done|]. by apply list_elem_of_In.
Qed.

Lemma branch_entries s id e :
  wf s → im_get id (by_id s) = Some e → Forall (λ x, x ∈ get_entries s) (get_branch (Some id) s).
Proof.
  intros H He. apply Forall_forall. intros x Hx. rewrite (get_branch_ancestry s id e He) in Hx.
  apply list_elem_of_In, in_rev, list_elem_of_In in Hx.
  destruct (walk_in (S (length (by_id s))) (by_id s) [] (Some e) x) as [k Hk]; [|exact Hx|by eapply wf_get].
  intros ? [= <-]. eauto.
Qed.

(** The new session: what its index and its labels are. *)
Lemma fork_index s id header label_ids :
  wf s → (∃ e, im_get id (by_id s) = Some e) → fork_args header label_ids id s →
  let main := kept (get_branch (Some id) s) in
  let labels := labels_to_write (map entry_id main) s in
  let added := label_entries label_ids (entry_id <$> last main) labels in
  ∃ s', create_branched_session header label_ids id s = Ok s' ∧ file_entries s' = header :: main ++ added ∧
    by_id s' = keyed (main ++ added) ∧ leaf_id s' = entry_id <$> last (main ++ added) ∧
    NoDup (map entry_id (main ++ added)) ∧
    labels_by_id s' = List.filter (λ p, existsb (str_eqb p.1) (map entry_id main)) (labels_by_id s).
Proof.
  intros H [e He] (Hh & Hids & Hlen & Hfresh) main labels added.
  pose proof (branch_entries s id e H He) as Hin.
  assert (Hn : NoDup (map entry_id (main ++ added))).
  { rewrite map_app. unfold added. rewrite label_entries_ids by done. apply NoDup_app.
    split; [apply kept_NoDup, get_branch_NoDup|]. split; [|done]. intros x Hx Hx'.
    rewrite Forall_forall in Hfresh. by apply (Hfresh x Hx'). }
  assert (Hnh : Forall (λ x, is_session_header x = false) (main ++ added)).
  { apply Forall_app. split.
    - apply Forall_forall. intros x Hx. apply kept_in in Hx as [Hx _]. rewrite Forall_forall in Hin.
      specialize (Hin x Hx). apply list_elem_of_In, List.filter_In in Hin as [_ Hin]. by apply negb_true_iff.
    - eapply Forall_impl; [apply label_entries_labels|]. by intros x [_ ?]. }
  destruct (loaded_entries header (main ++ added) Hh Hnh Hn) as [Hb Hl].
  exists (build_index (header :: main ++ added)). unfold create_branched_session.
  assert (Hne : is_empty (get_branch (Some id) s) = false).
  { rewrite (get_branch_ancestry s id e He). unfold ancestry. rewrite walk_head by apply not_elem_of_nil.
    simpl. by destruct (rev _). }
  rewrite Hne. split; [done|]. rewrite build_index_loaded. cbn [file_entries by_id leaf_id labels_by_id].
  rewrite Hb, Hl. do 4 (split; [done|]).
  assert (Hm : Forall (λ x, is_label x = false) main).
  { apply Forall_forall. intros x Hx. by apply kept_in in Hx as [_ ?]. }
  destruct (loaded_no_labels header main Hh Hm) as [H0 _]. rewrite app_comm_cons. unfold added.
  rewrite loaded_label_entries; [|done|by apply label_ids_NoDup|].
  - rewrite H0. cbn [app]. unfold labels, labels_to_write. rewrite map_map. cbn [fst snd].
    rewrite <-(map_id (List.filter _ _)) at 2. apply map_ext. by intros [].
  - rewrite H0. apply Forall_forall. intros p _. apply not_elem_of_nil.
Qed.

Lemma keyed_get es e : NoDup (map entry_id es) → e ∈ es → im_get (entry_id e) (keyed es) = Some e.
Proof.
  intros Hn He. apply im_get_NoDup; [by rewrite keyed_ids|]. apply list_elem_of_fmap. by exists e.
Qed.

Lemma last_rev_head {A} (l : list A) : head (rev l) = last l ∧ last (rev l) = head l.
Proof. rewrite rev_alt. by rewrite <-(last_reverse l), <-(head_reverse l). Qed.

(** A stretch of a branch is a chain, up to the entry before it. *)
Lemma branch_stretch s id e pre post rest :
  wf s → im_get id (by_id s) = Some e → get_branch (Some id) s = pre ++ post ++ rest →
  ascends (rev post) ∧
  ∀ b p, head post = Some b → entry_parent_id b = Some p → ∃ l, last pre = Some l ∧ entry_id l = p.
Proof.
  intros H He Hb. pose proof (ancestry_spec s id e H He) as (_ & Ha & _ & _ & Hroot).
  assert (Hr : ancestry s e = rev rest ++ rev post ++ rev pre).
  { rewrite <-(rev_involutive (ancestry s e)), <-(get_branch_ancestry s id e He), Hb.
    by rewrite !rev_app_distr, <-app_assoc. }
  rewrite Hr in Ha, Hroot. apply ascends_app_r in Ha. split; [by apply ascends_app_l in Ha|].
  intros b p Hbp Hp. destruct post as [|b' post]; [done|]. injection Hbp as ->.
  destruct pre as [|l pre _] using rev_ind.
  - rewrite app_nil_r in Hroot. specialize (Hroot b). rewrite Hroot in Hp; [done|].
    simpl. by rewrite app_assoc, last_snoc.
  - exists l. split; [by apply last_snoc|]. rewrite rev_app_distr in Ha. simpl in Ha.
    rewrite <-app_assoc in Ha. apply ascends_middle in Ha. congruence.
Qed.

Lemma label_not_kept s id x :
  is_label x = true → x ∈ get_branch (Some id) s → entry_id x ∉ map entry_id (kept (get_branch (Some id) s)).
Proof.
  intros Hl Hx (y & Hid & Hy)%list_elem_of_fmap. apply kept_in in Hy as [Hy Hyl].
  apply list_elem_of_lookup in Hx as [i Hi]. apply list_elem_of_lookup in Hy as [j Hj].
  pose proof (entries_unique _ i j x y (get_branch_NoDup (Some id) s) Hi Hj Hid). congruence.
Qed.

(** The new session's branch: the stretch without labels at the end of the old one, and
    the labels. *)
Lemma fork_branch s id e header label_ids pre post labs :
  wf s → im_get id (by_id s) = Some e → fork_args header label_ids id s →
  get_branch (Some id) s = pre ++ post ++ labs → post ≠ [] →
  Forall (λ e, is_label e = false) post → Forall (λ e, is_label e = true) labs →
  (∀ l, last pre = Some l → is_label l = true ∧ entry_id l ∉ label_ids) →
  let main := kept (get_branch (Some id) s) in
  ∃ s', create_branched_session header label_ids id s = Ok s' ∧
    labels_by_id s' = List.filter (λ p, existsb (str_eqb p.1) (map entry_id main)) (labels_by_id s) ∧
    get_branch None s' =
      post ++ label_entries label_ids (entry_id <$> last post) (labels_to_write (map entry_id main) s).
Proof.
  intros H He Hargs Hpath Hne Hpost Hlabs Hpre main.
  destruct (fork_index s id header label_ids H (ex_intro _ e He) Hargs) as (s' & Hs' & _ & Hby & Hleaf & Hn & Hlab).
  destruct (branch_stretch s id e pre post labs H He Hpath) as [Hchain Hend].
  assert (Hmain : main = kept pre ++ post).
  { unfold main. rewrite Hpath, !List.filter_app, (kept_labels labs Hlabs), app_nil_r. f_equal. by apply kept_all. }
  exists s'. do 2 (split; [done|]). fold main in Hby, Hleaf, Hn.
  destruct post as [|a post _] using rev_ind; [done|]. clear Hne.
  assert (Hlast : last main = Some a) by (by rewrite Hmain, app_assoc, last_snoc).
  rewrite Hlast in *. rewrite last_snoc. cbn [fmap option_fmap option_map] in *.
  set (added := label_entries label_ids (Some (entry_id a)) (labels_to_write (map entry_id main) s)) in *.
  set (l := (post ++ [a]) ++ added).
  assert (Hsub : main ++ added = kept pre ++ l) by (unfold l; by rewrite Hmain, !app_assoc).
  assert (Hget : Forall (λ x, im_get (entry_id x) (by_id s') = Some x) (rev l)).
  { apply Forall_forall. intros x Hx. rewrite Hby. apply keyed_get; [done|]. rewrite Hsub. apply elem_of_app. right.
    by apply list_elem_of_In, in_rev, list_elem_of_In in Hx. }
  assert (Hh : (leaf_id s' ≫= λ i, im_get i (by_id s')) = head (rev l)).
  { rewrite (proj1 (last_rev_head l)). rewrite Hleaf, Hsub, last_app.
    destruct (last l) as [x|] eqn:Ex; [|exfalso; apply last_None in Ex; unfold l in Ex; destruct post; discriminate Ex].
    simpl. rewrite Hby. apply keyed_get; [done|]. rewrite Hsub. apply last_Some in Ex as [? ->].
    rewrite !elem_of_app. right. right. by left. }
  assert (Hnl : NoDup (map entry_id (rev l))).
  { rewrite map_rev. apply NoDup_ListNoDup, List.NoDup_rev, NoDup_ListNoDup. rewrite Hsub, map_app in Hn.
    by apply NoDup_app in Hn as (_ & _ & ?). }
  unfold get_branch. rewrite Hh, (walk_chain _ _ _ (rev l)); [by rewrite rev_involutive| | |done| | |done|].
  - intros Hl. apply (f_equal (@length SessionEntry)) in Hl. unfold l in Hl.
    rewrite length_rev, !length_app in Hl. simpl in Hl. lia.
  - unfold l. rewrite rev_app_distr, rev_app_distr. simpl. apply label_entries_chain.
    rewrite rev_app_distr in Hchain. exact Hchain.
  - apply Forall_forall. intros x _. apply not_elem_of_nil.
  - rewrite Hby, Hsub. unfold keyed. rewrite length_map, length_rev, length_app. lia.
  - intros b p Hb Hp. rewrite (proj2 (last_rev_head l)) in Hb.
    assert (Hb' : head (post ++ [a]) = Some b) by (unfold l in Hb; by destruct post).
    destruct (Hend b p Hb' Hp) as (x & Hx & <-). destruct (Hpre x Hx) as [Hxl Hxn].
    apply im_get_None. rewrite Hby, keyed_ids, map_app, not_elem_of_app.
    unfold added. rewrite label_entries_ids by apply Hargs. split; [|done].
    apply (label_not_kept s id x Hxl). rewrite Hpath. apply last_Some in Hx as [? ->].
    rewrite !elem_of_app. left. right. by left.
Qed.

(** ** What a fork keeps *)

Lemma label_neutral e : is_label e = true → neutral e.
Proof.
  intros H. unfold is_label in H. unfold neutral, context_message_for_entry, applies, scan_entry. by destruct (body e).
Qed.

Lemma keyed_own es : own_ids (keyed es).
Proof. intros k e He%im_get_In. by apply list_elem_of_fmap in He as (e' & [= -> ->] & _). Qed.

(** The context of the new session is that of the stretch its branch starts with. *)
Lemma fork_context s id e header label_ids pre post labs s' target_model :
  wf s → im_get id (by_id s) = Some e → fork_args header label_ids id s →
  get_branch (Some id) s = pre ++ post ++ labs → post ≠ [] →
  create_branched_session header label_ids id s = Ok s' →
  get_branch None s' =
    post ++ label_entries label_ids (entry_id <$> last post)
              (labels_to_write (map entry_id (kept (get_branch (Some id) s))) s) →
  session_context s' target_model = context_of_path target_model post.
Proof.
  intros H He Hargs Hpath Hne Hs Hb.
  destruct (fork_index s id header label_ids H (ex_intro _ e He) Hargs) as (s2 & Hs2 & _ & Hby & Hleaf & Hn & _).
  rewrite Hs in Hs2. injection Hs2 as <-. set (es := kept _ ++ _) in *.
  destruct (last es) as [a|] eqn:Ea.
  2:{ apply last_None in Ea. unfold get_branch in Hb. rewrite Hleaf in Hb. cbn [fmap option_fmap option_map mbind option_bind walk rev] in Hb.
      by destruct post. }
  rewrite (session_context_branch s' (entry_id a) a).
  - rewrite Hb. apply neutral_context.
    + rewrite <-Hb. apply get_branch_NoDup.
    + eapply Forall_impl; [apply label_entries_labels|]. intros x [Hx _]. by apply label_neutral.
  - rewrite Hby. apply keyed_own.
  - by rewrite Hleaf.
  - rewrite Hby. apply keyed_get; [done|]. apply last_Some in Ea as [? ->]. apply elem_of_app. right. by left.
Qed.

Lemma context_at s id e target_model :
  wf s → im_get id (by_id s) = Some e →
  build_session_context_with_entry_ids (file_entries s) (Some (Some id)) (Some (by_id s)) target_model =
    context_of_path target_model (get_branch (Some id) s).
Proof.
  intros H He. unfold build_session_context_with_entry_ids. rewrite He.
  by rewrite (context_path_branch s id e (wf_own_ids s H) He).
Qed.

(** C28: Forking a session at an entry whose branch holds no labels, except possibly at its
    very end, keeps the conversation: the new session's branch is the old one with the
    labels of its entries written again after it, its labels are exactly those of the old
    session on these entries, and for every model the request's context - messages,
    their entries, thinking level, service tier, model - is the one at the forked entry. *)
Theorem fork_keeps_context h0 ts ops s id e header label_ids main labs target_model :
  run_ops ops (fresh_session h0 ts) = Some s → im_get id (by_id s) = Some e →
  fork_args header label_ids id s →
  get_branch (Some id) s = main ++ labs → main ≠ [] →
  Forall (λ e, is_label e = false) main → Forall (λ e, is_label e = true) labs →
  ∃ s', create_branched_session header label_ids id s = Ok s' ∧
    get_branch None s' = main ++ label_entries label_ids (entry_id <$> last main) (labels_to_write (map entry_id main) s) ∧
    labels_by_id s' = List.filter (λ p, existsb (str_eqb p.1) (map entry_id main)) (labels_by_id s) ∧
    session_context s' target_model =
      build_session_context_with_entry_ids (file_entries s) (Some (Some id)) (Some (by_id s)) target_model.
Proof.
  intros Hr He Hargs Hpath Hne Hm Hl. pose proof (run_wf ops _ s (fresh_wf h0 ts) Hr) as H.
  destruct (fork_branch s id e header label_ids [] main labs H He Hargs Hpath Hne Hm Hl) as (s' & Hs & Hlab & Hb); [done|].
  assert (Hkept : kept (get_branch (Some id) s) = main).
  { rewrite Hpath, List.filter_app, (kept_labels labs Hl), app_nil_r. by apply kept_all. }
  exists s'. split; [done|]. rewrite (fork_context s id e header label_ids [] main labs s' target_model) by done.
  rewrite Hkept in Hb, Hlab. do 2 (split; [done|]). rewrite (context_at s id e target_model H He), Hpath.
  symmetry. apply neutral_context.
  - rewrite <-Hpath. apply get_branch_NoDup.
  - eapply Forall_impl; [exact Hl|]. apply label_neutral.
Qed.

(** A label in the middle of a branch cuts a fork off from its history: the entry after
    it keeps the label entry as its parent, and that entry is not written, so the branch
    of the new session, and with it the context of every request, begins after the last
    such label. *)
Theorem fork_loses_history h0 ts ops s id e header label_ids pre lab post labs target_model :
  run_ops ops (fresh_session h0 ts) = Some s → im_get id (by_id s) = Some e →
  fork_args header label_ids id s →
  get_branch (Some id) s = (pre ++ [lab]) ++ post ++ labs → is_label lab = true → entry_id lab ∉ label_ids →
  post ≠ [] → Forall (λ e, is_label e = false) post → Forall (λ e, is_label e = true) labs →
  ∃ s', create_branched_session header label_ids id s = Ok s' ∧
    (∃ added, Forall (λ e, is_label e = true) added ∧ get_branch None s' = post ++ added) ∧
    session_context s' target_model = context_of_path target_model post.
Proof.
  intros Hr He Hargs Hpath Hlab Hfr Hne Hp Hl. pose proof (run_wf ops _ s (fresh_wf h0 ts) Hr) as H.
  destruct (fork_branch s id e header label_ids (pre ++ [lab]) post labs H He Hargs Hpath Hne Hp Hl)
    as (s' & Hs & _ & Hb).
  { intros l Hl'. rewrite last_snoc in Hl'. by injection Hl' as <-. }
  exists s'. split; [done|]. split; [|by apply (fork_context s id e header label_ids (pre ++ [lab]) post labs)].
  eexists. split; [|exact Hb]. eapply Forall_impl; [apply label_entries_labels|]. by intros x [? _].
Qed.
End fork.
