(* ===== verification/CompactionRetry.v ===== *)
(** * Compaction: pacing of retries

    [CompactionRetryConfig] and [CompactionRetryBackoff] of
    [pi-coding-agent/src/core/compaction/compaction.rs]: after a failed summary the next
    automatic compaction waits, four times longer after each further failure, up to a cap,
    and for the cooldown once the failures are too many.  Milliseconds are 64-bit counts
    with saturating multiplication; instants are milliseconds of a monotonic clock. *)
From stdpp Require Import base list numbers.
From S2P Require Import Prelude.

Local Open Scope N_scope.


Inductive SummaryFailureKind : Type := FilteredOrRefused | LengthExhausted | Other.

Record CompactionRetryConfig : Type := mkConfig {
  initial_delay_ms : N;
  max_delay_ms : N;
  max_consecutive_failures : N;
  cooldown_ms : N;
  filtered_initial_delay_ms : N;
  filtered_max_delay_ms : N }.

Definition default_config : CompactionRetryConfig := mkConfig 30000 300000 3 600000 60000 1800000.

Record CompactionRetryOverrides : Type := mkOverrides {
  o_initial_delay_ms : option N;
  o_max_delay_ms : option N;
  o_max_consecutive_failures : option N;
  o_cooldown_ms : option N }.

(** [overrides.x.filter(> 0).or_else(env)]; the environment's values are already positive,
    and a count that does not fit 32 bits is dropped. *)
Definition positive (o : option N) : option N := match o with Some n => if 0 <? n then Some n else None | None => None end.
Definition env_u64 (parsed : option N) : option N := positive parsed.
Definition env_u32 (parsed : option N) : option N :=
  match env_u64 parsed with Some n => if n <? 2 ^ 32 then Some n else None | None => None end.
Definition or_else (a b : option N) : option N := match a with Some _ => a | None => b end.

Definition resolve (overrides : option CompactionRetryOverrides) (env_initial env_max env_failures env_cooldown : option N)
    : CompactionRetryConfig :=
  let o := default (mkOverrides None None None None) overrides in
  let d := default_config in
  mkConfig
    (default (initial_delay_ms d) (or_else (positive (o_initial_delay_ms o)) (env_u64 env_initial)))
    (default (max_delay_ms d) (or_else (positive (o_max_delay_ms o)) (env_u64 env_max)))
    (default (max_consecutive_failures d) (or_else (positive (o_max_consecutive_failures o)) (env_u32 env_failures)))
    (default (cooldown_ms d) (or_else (positive (o_cooldown_ms o)) (env_u64 env_cooldown)))
    (filtered_initial_delay_ms d) (filtered_max_delay_ms d).

Definition U64_MAX : N := 2 ^ 64 - 1.
Definition U32_MAX : N := 2 ^ 32 - 1.
Definition saturating_mul (a b : N) : N := N.min (a * b) U64_MAX.

Definition ladder (c : CompactionRetryConfig) (kind : SummaryFailureKind) : N * N :=
  match kind with
  | FilteredOrRefused => (filtered_initial_delay_ms c, filtered_max_delay_ms c)
  | _ => (initial_delay_ms c, max_delay_ms c)
  end.

Definition retry_delay (c : CompactionRetryConfig) (kind : SummaryFailureKind) (consecutive_failures : N) : N :=
  let '(initial_ms, ladder_cap_ms) := ladder c kind in
  let failures := N.max consecutive_failures 1 in
  if max_consecutive_failures c <=? failures then N.max (cooldown_ms c) ladder_cap_ms
  else
    let shift := N.min (failures - 1) 16 in
    N.min (saturating_mul initial_ms (N.shiftl 1 (2 * shift))) ladder_cap_ms.

Record CompactionRetryBackoff : Type := mkBackoff {
  config : CompactionRetryConfig;
  consecutive_failures : N;
  last_failure : option N;
  kind : SummaryFailureKind }.

Definition new (c : CompactionRetryConfig) : CompactionRetryBackoff := mkBackoff c 0 None Other.

Definition pending_delay (b : CompactionRetryBackoff) : N :=
  if consecutive_failures b =? 0 then 0 else retry_delay (config b) (kind b) (consecutive_failures b).

Definition record_failure (k : SummaryFailureKind) (now : N) (b : CompactionRetryBackoff) : CompactionRetryBackoff :=
  mkBackoff (config b)
    (N.min (N.min (consecutive_failures b + 1) U32_MAX) (max_consecutive_failures (config b)))
    (Some now) k.

Definition record_success (b : CompactionRetryBackoff) : CompactionRetryBackoff := mkBackoff (config b) 0 None (kind b).

(** [now.duration_since(last)] is zero for an earlier instant. *)
Definition cooldown_remaining (now : N) (b : CompactionRetryBackoff) : option N :=
  match last_failure b with
  | None => None
  | Some last =>
      let delay := pending_delay b in
      let elapsed := now - last in
      if delay <=? elapsed then None else Some (delay - elapsed)
  end.

Definition in_cooldown (now : N) (b : CompactionRetryBackoff) : bool :=
  match cooldown_remaining now b with Some _ => true | None => false end.

(** ** Histories *)

Inductive event : Type := Failed (k : SummaryFailureKind) (now : N) | Succeeded.

Definition record (b : CompactionRetryBackoff) (e : event) : CompactionRetryBackoff :=
  match e with Failed k now => record_failure k now b | Succeeded => record_success b end.

(** The failures since the last success, newest first. *)
Fixpoint streak (events : list event) : list (SummaryFailureKind * N) :=
  match events with
  | [] => []
  | Failed k now :: events => (k, now) :: streak events
  | Succeeded :: _ => []
  end.

Lemma pow4_mono a b : a ≤ b → N.shiftl 1 (2 * a) ≤ N.shiftl 1 (2 * b).
Proof. intros H. rewrite !N.shiftl_1_l. apply N.pow_le_mono_r; lia. Qed.

Lemma retry_delay_mono c k n m : n ≤ m → retry_delay c k n ≤ retry_delay c k m.
Proof.
  intros H. unfold retry_delay. destruct (ladder c k) as [i cap].
  destruct (N.leb_spec (max_consecutive_failures c) (N.max n 1)), (N.leb_spec (max_consecutive_failures c) (N.max m 1)); try lia.
  apply N.min_le_compat_r. unfold saturating_mul. apply N.min_le_compat_r, N.mul_le_mono_l, pow4_mono. lia.
Qed.

Lemma retry_delay_bound c k n : retry_delay c k n ≤ N.max (cooldown_ms c) (ladder c k).2.
Proof. unfold retry_delay. destruct (ladder c k) as [i cap]. simpl. destruct (_ <=? _); lia. Qed.

(** What the state says about the history. *)
Lemma record_spec c events :
  max_consecutive_failures c ≤ U32_MAX →
  let b := fold_left record (rev events) (new c) in
  config b = c ∧ consecutive_failures b = N.min (len (streak events)) (max_consecutive_failures c) ∧
  last_failure b = snd <$> head (streak events) ∧
  ∀ k now rest, streak events = (k, now) :: rest → kind b = k.
Proof.
  intros Hm. induction events as [|e events IH]; [by repeat split; simpl; rewrite ?N.min_0_l|].
  cbn [rev]. rewrite fold_left_app. cbn [fold_left]. destruct IH as (Hc & Hf & Hl & Hk).
  destruct e as [k now|]; cbn [record record_failure record_success config consecutive_failures last_failure kind streak].
  - split; [done|]. rewrite Hc, Hf, len_cons. split; [|split; [done|]; by intros ??? [= <- _ _]].
    generalize dependent (len (streak events)). intros. lia.
  - split; [done|]. split; [unfold len; simpl; by rewrite N.min_0_l|]. done.
Qed.

(** Pacing of automatic compactions: after any history of failures and successes, a
    compaction is held back exactly while the delay of the present streak has not passed
    since its last failure, and never after a success; each further failure of the same
    kind waits at least as long as the one before; and no wait is longer than the cooldown
    or the cap of the kind, whichever is more, however many failures there were. *)
Theorem backoff_exact c events now :
  max_consecutive_failures c ≤ U32_MAX →
  let b := fold_left record (rev events) (new c) in
  in_cooldown now b =
    match streak events with
    | [] => false
    | (k, failed_at) :: rest =>
        negb (max_consecutive_failures c =? 0) && (now - failed_at <? retry_delay c k (N.min (len (streak events)) (max_consecutive_failures c)))
    end ∧
  (∀ k n m, n ≤ m → retry_delay c k n ≤ retry_delay c k m) ∧
  pending_delay b ≤ N.max (cooldown_ms c) (ladder c (kind b)).2.
Proof.
  intros Hm b. destruct (record_spec c events Hm) as (Hc & Hf & Hl & Hk). fold b in Hc, Hf, Hl, Hk.
  split; [|split; [intros k n m; apply retry_delay_mono|]].
  - unfold in_cooldown, cooldown_remaining, pending_delay. rewrite Hl, Hc, Hf.
    destruct (streak events) as [|[k at_] rest] eqn:Es; [done|]. cbn [head fmap option_fmap option_map snd].
    rewrite (Hk k at_ rest eq_refl), len_cons.
    destruct (N.eqb_spec (N.min (len rest + 1) (max_consecutive_failures c)) 0) as [H0|H0].
    + destruct (N.eqb_spec (max_consecutive_failures c) 0) as [|Hz]; [|lia]. cbn [negb andb]. by destruct (0 <=? _) eqn:E; [|apply N.leb_gt in E; lia].
    + destruct (N.eqb_spec (max_consecutive_failures c) 0) as [Hz|_]; [rewrite Hz in H0; lia|]. cbn [negb andb].
      set (delay := retry_delay _ _ _). destruct (N.leb_spec delay (now - at_)), (N.ltb_spec (now - at_) delay); (done || lia).
  - unfold pending_delay. destruct (_ =? 0); [lia|]. rewrite Hc. apply retry_delay_bound.
Qed.

(** Three timeouts, then a refusal, with the default settings. *)
Lemma backoff_exact_witness :
  let b := fold_left record (rev [Failed FilteredOrRefused 1000000; Failed Other 500000; Failed Other 100000; Succeeded]) (new default_config) in
  in_cooldown 2000000 b = true ∧ in_cooldown 2800000 b = false ∧ pending_delay b ≤ 1800000.
Proof.
  split; [vm_compute; reflexivity|]. split; [vm_compute; reflexivity|].
  apply (backoff_exact default_config [Failed FilteredOrRefused 1000000; Failed Other 500000; Failed Other 100000; Succeeded] 2800000).
  vm_compute. discriminate.
Defined.
