(* ===== verification/CompactionCut.v ===== *)
(** * Compaction: where to cut

    [pi-coding-agent/src/core/compaction/compaction.rs] and the conversion of entries in
    [core/agent_session.rs]: which part of a branch a compaction summarizes and which it
    keeps.  The estimates of token counts are floating-point numbers that only decide where
    the walk from the end stops; they are parameters, so the theorems hold for every
    estimate and every way of rounding.  The ledgers, file operations and texts that a
    preparation also carries are not modelled. *)
From stdpp Require Import base list numbers sorting strings.
From S2P Require Import Prelude RustStr AgentTypes TransformMessages SessionIndex SessionContext SessionFork.

Local Open Scope nat_scope.

Section cut.
Context {X : Externals}.

(** ** Entries *)

Inductive CompactionSessionEntry : Type :=
| CMessage (id : str) (message : AgentMessage)
| CCustomMessage (id custom_type : str) (content : Value) (display : bool) (details : option Value) (timestamp : Z)
| CBranchSummary (id from_id summary : str)
| CCompaction (id : str) (c : CompactionBody)
| COther (id : str).

Definition c_id (e : CompactionSessionEntry) : str :=
  match e with
  | CMessage id _ | CCustomMessage id _ _ _ _ _ | CBranchSummary id _ _ | CCompaction id _ | COther id => id
  end.

(** The body of the blank custom message that stands for one that cannot be read. *)
Variable blank : CustomBody.

Definition agent_message_from_value (m : StoredMessage) : AgentMessage :=
  match sm_message m with Some m => m | None => CustomMessage (Custom blank) end.

Definition compaction_session_entry_from (e : SessionEntry) : CompactionSessionEntry :=
  match body e with
  | MessageEntry m => CMessage (entry_id e) (agent_message_from_value m)
  | CustomMessageEntry ty content display details => CCustomMessage (entry_id e) ty content display details (entry_timestamp e)
  | BranchSummaryEntry summary from_id => CBranchSummary (entry_id e) from_id summary
  | CompactionEntry c => CCompaction (entry_id e) c
  | _ => COther (entry_id e)
  end.

(** The message of an entry; the timestamp of a summary was quoted by the conversion and
    cannot be read, which gives 0. *)
Definition get_message_from_entry (e : CompactionSessionEntry) : option ContextMessage :=
  match e with
  | CMessage _ m => Some (Stored m)
  | CCustomMessage _ ty content display details ts => Some (CustomMsg ty content display details ts)
  | CBranchSummary _ from_id summary => Some (BranchSummaryMsg summary from_id 0)
  | CCompaction _ c => Some (CompactionSummaryMsg (mkSummary (c_summary c) None (tokens_before c) None (custom_instructions c) None 0))
  | COther _ => None
  end.

Definition HARNESS_DIGEST_CUSTOM_TYPE : str := lit "harness_digest".

Definition get_message_from_entry_for_compaction (e : CompactionSessionEntry) : option ContextMessage :=
  match e with
  | CCompaction _ _ => None
  | CCustomMessage _ ty _ _ _ _ => if str_eqb ty HARNESS_DIGEST_CUSTOM_TYPE then None else get_message_from_entry e
  | _ => get_message_from_entry e
  end.

(** ** Cut points *)

Definition is_cut_point (e : CompactionSessionEntry) : bool :=
  match e with
  | CMessage _ m =>
      existsb (str_eqb (role m))
        [lit "bashExecution"; lit "custom"; lit "branchSummary"; lit "compactionSummary"; lit "user"; lit "assistant"]
  | CBranchSummary _ _ _ | CCustomMessage _ _ _ _ _ _ => true
  | _ => false
  end.

Definition test (p : CompactionSessionEntry → bool) (es : list CompactionSessionEntry) (i : nat) : bool :=
  match es !! i with Some e => p e | None => false end.

Definition find_valid_cut_points (es : list CompactionSessionEntry) (start_index end_index : nat) : list nat :=
  List.filter (test is_cut_point es) (seq start_index (end_index - start_index)).

(** A loop over [lo..lo+n] from the top. *)
Fixpoint rfind (p : nat → bool) (lo n : nat) : option nat :=
  match n with
  | O => None
  | S n => if p (lo + n) then Some (lo + n) else rfind p lo n
  end.

Definition starts_turn (e : CompactionSessionEntry) : bool :=
  match e with
  | CBranchSummary _ _ _ | CCustomMessage _ _ _ _ _ _ => true
  | CMessage _ m => str_eqb (role m) (lit "user") || str_eqb (role m) (lit "bashExecution")
  | _ => false
  end.

Definition find_turn_start_index (es : list CompactionSessionEntry) (entry_index start_index : nat) : option nat :=
  if entry_index <? start_index then None
  else rfind (test starts_turn es) start_index (S entry_index - start_index).

Record CutPointResult : Type := mkCut {
  first_kept_entry_index : nat;
  turn_start_index : option nat;
  is_split_turn : bool }.

(** The estimates. *)
Variable Tokens : Type.
Variable no_tokens : Tokens.
Variable add_tokens : Tokens → Tokens → Tokens.
Variable reaches : Tokens → Tokens → bool.     (* [a >= b] *)
Variable entry_token_cost : CompactionSessionEntry → option Tokens.

(** The walk from the newest entry: the index where the tokens to keep are reached. *)
Fixpoint walk_back (es : list CompactionSessionEntry) (keep : Tokens) (lo n : nat) (acc : Tokens) : option nat :=
  match n with
  | O => None
  | S n =>
      let acc :=
        match es !! (lo + n) with
        | Some e => match entry_token_cost e with Some t => add_tokens acc t | None => acc end
        | None => acc
        end in
      if reaches acc keep then Some (lo + n) else walk_back es keep lo n acc
  end.

(** The loop that takes in the entries before the cut that are not messages. *)
Fixpoint back_up (es : list CompactionSessionEntry) (start_index cut : nat) : nat :=
  match cut with
  | O => O
  | S c =>
      if start_index <? S c then
        match es !! c with
        | Some (CCompaction _ _) | Some (CMessage _ _) => S c
        | _ => back_up es start_index c
        end
      else S c
  end.

Definition is_user_message (e : CompactionSessionEntry) : bool :=
  match e with CMessage _ m => str_eqb (role m) (lit "user") | _ => false end.

Definition find_cut_point (es : list CompactionSessionEntry) (start_index end_index : nat) (keep : Tokens)
    : CutPointResult :=
  match find_valid_cut_points es start_index end_index with
  | [] => mkCut start_index None false
  | first :: rest =>
      let cut :=
        match walk_back es keep start_index (end_index - start_index) no_tokens with
        | Some i => default (List.last rest first) (list_find (λ c, i ≤ c) (first :: rest) ≫= λ p, Some p.2)
        | None => first
        end in
      let cut := back_up es start_index cut in
      let user := test is_user_message es cut in
      let turn := if user then None else find_turn_start_index es cut start_index in
      mkCut cut turn (negb user && match turn with Some _ => true | None => false end)
  end.

(** ** The preparation *)

Record CompactionPreparation : Type := mkPreparation {
  p_first_kept_entry_id : str;
  messages_to_summarize : list ContextMessage;
  turn_prefix_messages : list ContextMessage;
  p_is_split_turn : bool }.

Definition is_text_compaction (e : CompactionSessionEntry) : bool :=
  match e with CCompaction _ c => match c_details c with NoCheckpoint => true | _ => false end | _ => false end.

Definition id_position (id : str) (es : list CompactionSessionEntry) : option nat :=
  fst <$> list_find (λ e, c_id e = id) es.

(** Where the material of the next summary begins. *)
Definition boundary_start (es : list CompactionSessionEntry) : nat :=
  match rfind (test is_text_compaction es) 0 (length es) with
  | None => 0
  | Some prev =>
      match es !! prev with
      | Some (CCompaction _ c) => default (prev + 1) (id_position (first_kept_entry_id c) es)
      | _ => 0
      end
  end.

Definition slice (es : list CompactionSessionEntry) (a b : nat) : list CompactionSessionEntry := take (b - a) (drop a es).

Definition compaction_messages (es : list CompactionSessionEntry) : list ContextMessage :=
  omap get_message_from_entry_for_compaction es.

(** Nothing came after the last compaction. *)
Definition already_compacted (es : list CompactionSessionEntry) : bool :=
  match last es with Some (CCompaction _ _) => true | _ => false end.

Definition prepare_compaction (es : list CompactionSessionEntry) (keep : Tokens) : option CompactionPreparation :=
  if already_compacted es then None
  else
    let b := boundary_start es in
    let cut := find_cut_point es b (length es) keep in
    match es !! first_kept_entry_index cut with
    | None => None
    | Some kept =>
        if is_empty (c_id kept) then None
        else
          let history_end :=
            if is_split_turn cut then default (first_kept_entry_index cut) (turn_start_index cut)
            else first_kept_entry_index cut in
          let summarize := compaction_messages (slice es b history_end) in
          let prefix :=
            if is_split_turn cut
            then compaction_messages (slice es (default 0 (turn_start_index cut)) (first_kept_entry_index cut))
            else [] in
          if is_empty summarize && is_empty prefix then None
          else Some (mkPreparation (c_id kept) summarize prefix (is_split_turn cut))
    end.

(** ** The cut *)

Lemma cut_points_spec es a b c :
  c ∈ find_valid_cut_points es a b ↔ a ≤ c < b ∧ test is_cut_point es c = true.
Proof.
  unfold find_valid_cut_points. rewrite list_elem_of_In, List.filter_In, in_seq.
  split; intros [H Ht]; (split; [lia|exact Ht]).
Qed.

Lemma rfind_spec p lo n i : rfind p lo n = Some i → lo ≤ i < lo + n ∧ p i = true ∧ ∀ k, i < k < lo + n → p k = false.
Proof.
  induction n as [|n IH]; [done|]. simpl. destruct (p (lo + n)) eqn:E.
  - intros [= <-]. split; [lia|]. split; [done|]. intros k Hk. lia.
  - intros H. destruct (IH H) as (H1 & H2 & H3). split; [lia|]. split; [done|]. intros k Hk.
    destruct (decide (k = lo + n)) as [->|]; [done|]. apply H3. lia.
Qed.

(** The loop only passes entries that are neither messages nor compactions. *)
Lemma back_up_spec es start cut :
  start ≤ cut →
  let r := back_up es start cut in
  start ≤ r ≤ cut ∧
  ∀ i, r ≤ i < cut → match es !! i with Some (CMessage _ _) | Some (CCompaction _ _) => False | _ => True end.
Proof.
  induction cut as [|c IH]; intros Hs; cbn [back_up]; [split; [lia|]; intros i; lia|].
  destruct (Nat.ltb_spec start (S c)) as [Hlt|Hge]; [|split; [lia|]; intros i; lia].
  assert (Hstop : start ≤ S c ≤ S c ∧ ∀ i, S c ≤ i < S c →
    match es !! i with Some (CMessage _ _) | Some (CCompaction _ _) => False | _ => True end) by (split; [lia|intros i; lia]).
  destruct (IH ltac:(lia)) as [H1 H2].
  destruct (es !! c) as [[]|] eqn:E; try done; (split; [lia|]; intros i Hi;
    destruct (decide (i = c)) as [->|]; [by rewrite E|apply H2; lia]).
Qed.

(** The cut point the walk chose. *)
Lemma find_cut_point_spec es start keep :
  start ≤ length es →
  let r := first_kept_entry_index (find_cut_point es start (length es) keep) in
  (find_valid_cut_points es start (length es) = [] ∧ r = start ∧
     is_split_turn (find_cut_point es start (length es) keep) = false) ∨
  ∃ c, c ∈ find_valid_cut_points es start (length es) ∧ r = back_up es start c.
Proof.
  intros Hs r. subst r. unfold find_cut_point.
  destruct (find_valid_cut_points es start (length es)) as [|first rest] eqn:E; [by left|right].
  cbn [first_kept_entry_index]. eexists. split; [|done].
  destruct (walk_back _ _ _ _ _) as [i|]; [|by left].
  destruct (list_find (λ c, i ≤ c) (first :: rest)) as [[k c]|] eqn:Ef; cbn [mbind option_bind default from_option id].
  - apply list_find_Some in Ef as (Hk & _). simpl. by eapply list_elem_of_lookup_2.
  - clear. destruct rest as [|x rest _] using rev_ind; [by left|]. rewrite List.last_last.
    right. apply elem_of_app. right. by left.
Qed.

(** C22: A cut does not separate a reply from the results that follow it directly: if a message
    stands at [i] and a tool result at [j], and no entry after [i] up to [j] is a cut point -
    nothing but further results and records stands between them - the retained part begins
    at or before [i], or after [j].  This holds for every estimate of the tokens.  A notice
    or another message between the call and its result is a cut point, and then they may be
    separated: see [notice_separates_result]. *)
Theorem cut_keeps_results es start keep i j a b :
  start ≤ i → i < j → es !! i = Some a → is_cut_point a = true →
  (∃ id r, b = CMessage id (LlmMessage (ToolResult r))) → es !! j = Some b →
  (∀ k, i < k ≤ j → test is_cut_point es k = false) →
  let r := first_kept_entry_index (find_cut_point es start (length es) keep) in
  start ≤ r < length es ∧ ¬ (i < r ≤ j).
Proof.
  intros Hsi Hij Hi Ha Hb Hj Hnone r. subst r.
  pose proof (lookup_lt_Some _ _ _ Hj) as Hlen.
  destruct (find_cut_point_spec es start keep ltac:(lia)) as [(Hnil & _)|(c & Hc & ->)].
  - exfalso. apply (not_elem_of_nil i). rewrite <-Hnil. apply cut_points_spec. split; [lia|]. unfold test. by rewrite Hi.
  - apply cut_points_spec in Hc as [Hrange Hcp]. destruct (back_up_spec es start c ltac:(lia)) as [Hr Hpass].
    split; [lia|]. intros [Hlo Hhi]. destruct (decide (c ≤ j)) as [Hcj|Hcj].
    + rewrite (Hnone c ltac:(lia)) in Hcp. done.
    + specialize (Hpass j ltac:(lia)). rewrite Hj in Hpass. by destruct Hb as (id & res & ->).
Qed.

(** ** Nothing is lost *)

Lemma drop_slice es a b : a ≤ b → drop a es = slice es a b ++ drop b es.
Proof.
  intros H. unfold slice. rewrite <-(take_drop (b - a) (drop a es)) at 1. f_equal. rewrite drop_drop. f_equal. lia.
Qed.

Lemma messages_drop es a b :
  a ≤ b → compaction_messages (drop a es) = compaction_messages (slice es a b) ++ compaction_messages (drop b es).
Proof. intros H. unfold compaction_messages. by rewrite (drop_slice es a b H), omap_app. Qed.

Lemma turn_start_range es start keep t :
  start ≤ length es → turn_start_index (find_cut_point es start (length es) keep) = Some t →
  start ≤ t ≤ first_kept_entry_index (find_cut_point es start (length es) keep).
Proof.
  intros Hs Ht. unfold find_cut_point in *. destruct (find_valid_cut_points _ _ _) as [|first rest]; [done|].
  cbn [turn_start_index first_kept_entry_index] in *. set (cut := back_up _ _ _) in *.
  destruct (test is_user_message es cut); [done|]. unfold find_turn_start_index in Ht.
  destruct (Nat.ltb_spec cut start) as [|Hge]; [done|]. apply rfind_spec in Ht as [Hr _]. lia.
Qed.

Lemma boundary_start_le es : boundary_start es ≤ length es.
Proof.
  unfold boundary_start. destruct (rfind _ 0 (length es)) as [prev|] eqn:E; [|lia].
  apply rfind_spec in E as [Hr _]. destruct (es !! prev) as [[]|]; try lia.
  unfold id_position. destruct (list_find _ es) as [[i e]|] eqn:Ef; simpl; [|lia].
  apply list_find_Some in Ef as (Hi & _). apply lookup_lt_Some in Hi. lia.
Qed.

Lemma prepare_partition es keep p :
  prepare_compaction es keep = Some p →
  ∃ r e, boundary_start es ≤ r ∧ es !! r = Some e ∧ p_first_kept_entry_id p = c_id e ∧ is_empty (c_id e) = false ∧
    messages_to_summarize p ++ turn_prefix_messages p ++ compaction_messages (drop r es) =
      compaction_messages (drop (boundary_start es) es).
Proof.
  intros H. unfold prepare_compaction in H. pose proof (boundary_start_le es) as Hb. set (b := boundary_start es) in *.
  assert (Hle : b ≤ first_kept_entry_index (find_cut_point es b (length es) keep)).
  { destruct (find_cut_point_spec es b keep Hb) as [(_ & -> & _)|(c & Hc & ->)]; [lia|].
    apply cut_points_spec in Hc as [Hc _]. destruct (back_up_spec es b c ltac:(lia)) as [Hr _]. lia. }
  assert (Ht : ∀ t, turn_start_index (find_cut_point es b (length es) keep) = Some t → b ≤ t ≤ first_kept_entry_index (find_cut_point es b (length es) keep))
    by (intros t; by apply turn_start_range).
  assert (Hsplit : is_split_turn (find_cut_point es b (length es) keep) = true →
    is_Some (turn_start_index (find_cut_point es b (length es) keep))).
  { unfold find_cut_point. destruct (find_valid_cut_points _ _ _); [done|]. cbn [is_split_turn turn_start_index].
    intros Hx. apply andb_true_iff in Hx as [_ Hx].
    destruct (if test is_user_message es _ then None else _); [done|done]. }
  destruct (find_cut_point es b (length es) keep) as [r turn split]. cbn [first_kept_entry_index turn_start_index is_split_turn] in *.
  destruct (already_compacted es); [done|].
  destruct (es !! r) as [e|] eqn:Er; [|done]. destruct (is_empty (c_id e)) eqn:Ee; [done|].
  exists r, e. do 2 (split; [done|]). destruct (_ && _); [done|]. injection H as <-. cbn.
  do 2 (split; [done|]). destruct split.
  - destruct (Hsplit eq_refl) as [t ->]. destruct (Ht t eq_refl). cbn.
    rewrite (messages_drop es b t), (messages_drop es t r) by lia. done.
  - by rewrite (messages_drop es b r) by lia.
Qed.

(** ** The session after a compaction *)

(** An entry under the leaf extends the branch. *)
Lemma branch_append s e l le :
  wf s → leaf_id s = Some l → im_get l (by_id s) = Some le → im_get (entry_id e) (by_id s) = None →
  entry_parent_id e = Some l →
  get_branch None (index_entry e s) = get_branch None s ++ [e].
Proof.
  intros H Hl Hle Hfresh Hp. set (path := get_branch None s).
  assert (Hpath : path = rev (ancestry s le)) by (unfold path, get_branch; by rewrite Hl; simpl; rewrite Hle).
  pose proof (ancestry_spec s l le H Hle) as (Hhead & Hasc & _ & Hlen & Hroot).
  set (chain := e :: ancestry s le).
  assert (Hin : Forall (λ x, im_get (entry_id x) (by_id s) = Some x) (ancestry s le)).
  { apply Forall_forall. intros x Hx.
    destruct (walk_in (S (length (by_id s))) (by_id s) [] (Some le) x) as [k Hk]; [intros ? [= <-]; eauto|exact Hx|].
    by rewrite (wf_own_ids s H k x Hk). }
  assert (Hn : NoDup (map entry_id chain)).
  { unfold chain. cbn [map]. constructor; [|apply walk_NoDup].
    intros (x & Hid & Hx)%list_elem_of_fmap. rewrite Forall_forall in Hin. specialize (Hin x Hx). congruence. }
  assert (Hby : by_id (index_entry e s) = by_id s ++ [(entry_id e, e)]) by (by apply im_get_insert_fresh).
  assert (Hgrow : ∀ k x, im_get k (by_id s) = Some x → im_get k (by_id (index_entry e s)) = Some x).
  { intros k x Hk. simpl. rewrite im_get_insert. destruct (str_eqb_spec (entry_id e) k) as [<-|]; [congruence|done]. }
  unfold get_branch. cbn [index_entry leaf_id mbind option_bind].
  assert (He : im_get (entry_id e) (by_id (index_entry e s)) = Some e) by (simpl; by rewrite im_get_insert, str_eqb_refl).
  change (im_insert (entry_id e) e (by_id s)) with (by_id (index_entry e s)). rewrite He.
  change (Some e) with (head chain).
  rewrite (walk_chain _ _ [] chain); [unfold chain; simpl; by rewrite Hpath|done| |done| | | |].
  - unfold chain. destruct (ancestry s le) as [|x rest]; [done|]. injection Hhead as ->. split; [|done].
    by rewrite Hp, (wf_own_ids s H l le Hle).
  - apply Forall_forall. intros x _. apply not_elem_of_nil.
  - rewrite Hby, length_app. unfold chain. cbn [length]. lia.
  - constructor; [done|]. eapply Forall_impl; [exact Hin|]. intros x Hx. by apply Hgrow.
  - intros a p Ha Hpa. unfold chain in Ha. destruct (ancestry s le) as [|x rest] eqn:Ea; [done|].
    change (last (e :: x :: rest)) with (last (x :: rest)) in Ha. by rewrite (Hroot a Ha) in Hpa.
Qed.

Lemma from_entry_drop l r x : NoDup (map entry_id l) → l !! r = Some x → from_entry (entry_id x) l = drop r l.
Proof.
  revert r. induction l as [|y l IH]; intros r Hn Hr; [done|]. cbn [map] in Hn. apply NoDup_cons in Hn as [Hy Hn].
  destruct r as [|r]; simpl in Hr |- *.
  - injection Hr as ->. by rewrite str_eqb_refl.
  - destruct (str_eqb_spec (entry_id y) (entry_id x)) as [Hid|_]; [|by apply IH].
    destruct Hy. rewrite Hid. apply list_elem_of_fmap. exists x. split; [done|by eapply list_elem_of_lookup_2].
Qed.

Lemma c_id_from e : c_id (compaction_session_entry_from e) = entry_id e.
Proof. unfold compaction_session_entry_from. by destruct (body e). Qed.

(** The context right after a compaction without a checkpoint. *)
Lemma context_after_compaction path e cb r x target_model :
  NoDup (map entry_id (path ++ [e])) → body e = CompactionEntry cb → c_details cb = NoCheckpoint →
  path !! r = Some x → first_kept_entry_id cb = entry_id x → is_empty (entry_id x) = false →
  messages (context_of_path target_model (path ++ [e])) =
    cx_message (summary_of e cb path) :: map cx_message (context_messages (drop r path)).
Proof.
  intros Hn Hb Hd Hr Hf Hne. unfold context_of_path. cbn [messages].
  set (target := checkpoint_target _ _).
  assert (Hsel : select_compaction target (path ++ [e]) = Some e).
  { unfold select_compaction. rewrite fold_left_app. cbn [fold_left]. unfold applies. by rewrite Hb, Hd. }
  unfold path_messages. rewrite Hsel, Hb, (compacted_messages_spec path e [] cb Hn Hb).
  cbn [map context_messages omap list_omap]. rewrite app_nil_r. do 3 f_equal.
  unfold kept_part. rewrite Hd. cbn [get_provider_checkpoint]. rewrite Hf, Hne.
  apply from_entry_drop; [|done]. rewrite map_app in Hn. by apply NoDup_app in Hn as (? & _).
Qed.

(** C21: A compaction loses nothing: what the summarizer is given and what the next context
    keeps are together exactly the messages since the last boundary, in order (harness
    digests, which are made anew, apart), and the context after the compaction is its
    summary followed by the messages of the branch from the first kept entry on.  For
    every session, every estimate of tokens and every model. *)
Theorem compaction_conserves h0 ts0 ops s keep p id ts cb target_model :
  run_ops ops (fresh_session h0 ts0) = Some s →
  let path := get_branch None s in
  let es := map compaction_session_entry_from path in
  prepare_compaction es keep = Some p →
  im_has id (by_id s) = false → first_kept_entry_id cb = p_first_kept_entry_id p → c_details cb = NoCheckpoint →
  let e := new_entry id ts (CompactionEntry cb) s in
  ∃ r, boundary_start es ≤ r ∧
    messages (session_context (index_entry e s) target_model) =
      cx_message (summary_of e cb path) :: map cx_message (context_messages (drop r path)) ∧
    messages_to_summarize p ++ turn_prefix_messages p ++ compaction_messages (drop r es) =
      compaction_messages (drop (boundary_start es) es).
Proof.
  intros Hr path es Hp Hid Hf Hd e. pose proof (run_wf ops _ s (fresh_wf h0 ts0) Hr) as H.
  destruct (prepare_partition es keep p Hp) as (r & ce & Hb & Hce & Hfk & Hne & Hpart). exists r. split; [done|]. split; [|done].
  unfold es in Hce. rewrite list_lookup_fmap in Hce. destruct (path !! r) as [x|] eqn:Hx; [|done].
  injection Hce as <-. rewrite c_id_from in Hfk, Hne.
  assert (Hleaf : ∃ l le, leaf_id s = Some l ∧ im_get l (by_id s) = Some le).
  { unfold path, get_branch in Hx. destruct (leaf_id s) as [l|]; [|done]. simpl in Hx.
    destruct (im_get l (by_id s)) as [le|] eqn:El; [eauto|done]. }
  destruct Hleaf as (l & le & Hl & Hle).
  assert (Hfresh : im_get (entry_id e) (by_id s) = None) by (unfold im_has in Hid; simpl; by destruct (im_get id (by_id s))).
  pose proof (branch_append s e l le H Hl Hle Hfresh Hl) as Hbr. fold path in Hbr.
  assert (Hwf : own_ids (by_id (index_entry e s))).
  { intros k a. simpl. rewrite im_get_insert. destruct (str_eqb_spec id k) as [<-|]; [by intros [= <-]|apply (wf_own_ids s H)]. }
  rewrite (session_context_branch (index_entry e s) id e target_model Hwf eq_refl).
  - rewrite Hbr. apply (context_after_compaction path e cb r x); try done; [|congruence].
    rewrite <-Hbr. apply get_branch_NoDup.
  - simpl. by rewrite im_get_insert, str_eqb_refl.
Qed.
End cut.
