(* ===== verification/SessionStore.v ===== *)
(** * The session manager: the file

    [pi-coding-agent/src/core/session_manager.rs] and the buffer of
    [pi-coding-agent/src/utils/timed_flush.rs]: entries are appended to a file of JSON
    lines through a buffer that a background thread flushes; a failed write drops what was
    buffered and makes the next persist rewrite the whole file; a file that a crash left
    with a torn last line is repaired when it is opened.

    The file system answers each write with an outcome from a script, so every pattern of
    failures is covered: the file cannot be opened, or only some of the bytes arrive.  A
    rewrite goes through a temporary file and a rename and takes place or does not.  The
    background flush is an operation of its own, so it may come between any two others. *)
From stdpp Require Import base list numbers sorting strings.
From S2P Require Import Prelude RustStr AgentTypes SessionIndex.

Local Open Scope nat_scope.

Abbreviation bytes := (list N).

(** ** The format of a line

    [serialize_session_file_entry] and [serde_json]: the text of an entry has no line break
    (JSON escapes them) and no NUL, reads back as the entry, and none of its strict
    prefixes is JSON, because the object's closing brace is its last character. *)
Class SessionFormat {X : Externals} : Type := {
  line : SessionEntry → bytes;
  (* [serde_json::from_str] of a line, lossily decoded: not JSON, some other value, an object *)
  json : bytes → option (option SessionEntry);
  (* [String::from_utf8_lossy] *)
  lossy : bytes → bytes;
  (* the entries the manager writes *)
  storable : SessionEntry → Prop;
  line_nonempty : ∀ e, storable e → line e ≠ [];
  line_chars : ∀ e, storable e → Forall (λ b, b ≠ 10%N ∧ b ≠ 0%N) (line e);
  line_json : ∀ e, storable e → json (line e) = Some (Some e);
  line_prefix : ∀ e p, storable e → p `prefix_of` line e → p ≠ line e → json p = None;
  line_lossy : ∀ e, storable e → lossy (line e) = line e;
  (* [set_usage m u]: the message with [u] in place of its usage;
     [child_usage v]: the target and the usage a [child_usage_attributed] entry carries *)
  set_usage : StoredMessage → Usage → StoredMessage;
  child_usage : Value → option (str * Usage) }.

Section store.
Context {X : Externals} {F : SessionFormat}.

Definition SESSION_WRITE_BUFFER_CAP_BYTES : N := 131072.

Inductive Io : Type :=
| Written
| OpenFails (e : str)
| Torn (n : nat) (e : str).   (* [n] bytes arrived *)

(** The buffer; a deadline is only compared with the time, so whether it is set is enough. *)
Record SessionWriteBuffer : Type := mkBuffer {
  b_bytes : bytes;
  deadline : bool;
  pending_error : option str }.

(** [persisting]: the manager persists and has a session file; [zero_period]: writes are not
    held back; [disk] is the content of the file, if it exists; [io] the outcomes to come. *)
Record Store : Type := mkStore {
  persisting : bool;
  zero_period : bool;
  index : Index;
  flushed : bool;
  buffer : SessionWriteBuffer;
  persist_write_epoch : N;
  disk : option bytes;
  io : list Io }.

Definition with_index (i : Index) (s : Store) : Store :=
  mkStore (persisting s) (zero_period s) i (flushed s) (buffer s) (persist_write_epoch s) (disk s) (io s).
Definition with_flushed (b : bool) (s : Store) : Store :=
  mkStore (persisting s) (zero_period s) (index s) b (buffer s) (persist_write_epoch s) (disk s) (io s).
Definition with_buffer (b : SessionWriteBuffer) (s : Store) : Store :=
  mkStore (persisting s) (zero_period s) (index s) (flushed s) b (persist_write_epoch s) (disk s) (io s).
Definition with_disk (d : option bytes) (io' : list Io) (s : Store) : Store :=
  mkStore (persisting s) (zero_period s) (index s) (flushed s) (buffer s) (persist_write_epoch s) d io'.
Definition next_epoch (s : Store) : Store :=
  mkStore (persisting s) (zero_period s) (index s) (flushed s) (buffer s) (persist_write_epoch s + 1)%N (disk s) (io s).

Definition entries (s : Store) : list SessionEntry := file_entries (index s).
Definition clear_buffer (error : option str) : SessionWriteBuffer := mkBuffer [] false error.

(** ** Writing *)

Definition next_io (s : Store) : Io * list Io :=
  match io s with [] => (Written, []) | o :: rest => (o, rest) end.

(** [OpenOptions::new().create(true).append(true)] and [write_all]. *)
Definition append_bytes (payload : bytes) (s : Store) : result () str * Store :=
  let '(o, rest) := next_io s in
  let before := default [] (disk s) in
  match o with
  | Written => (Ok (), with_disk (Some (before ++ payload)) rest s)
  | OpenFails e => (Err e, with_disk (disk s) rest s)
  | Torn n e => (Err e, with_disk (Some (before ++ take n payload)) rest s)
  end.

(** The write of a whole payload and what it leaves in the buffer: the common part of
    [drain] and [drain_through]. *)
Definition write_payload (payload : bytes) (s : Store) : result () str * Store :=
  match append_bytes payload s with
  | (Ok _, s) => (Ok (), with_buffer (clear_buffer None) s)
  | (Err e, s) => (Err e, with_buffer (clear_buffer (Some e)) s)
  end.

Definition nothing_to_write (s : Store) : result () str * Store :=
  match pending_error (buffer s) with Some e => (Err e, s) | None => (Ok (), s) end.

Definition drain (s : Store) : result () str * Store :=
  if is_empty (b_bytes (buffer s)) then nothing_to_write s else write_payload (b_bytes (buffer s)) s.

Definition drain_through (l : bytes) (s : Store) : result () str * Store :=
  let payload := b_bytes (buffer s) ++ l in
  if is_empty payload then nothing_to_write s else write_payload payload s.

(** [TimedBytes::push]: the deadline is that of the first byte. *)
Definition push (l : bytes) (b : SessionWriteBuffer) : SessionWriteBuffer :=
  mkBuffer (b_bytes b ++ l) (if is_empty (b_bytes b) then true else deadline b) (pending_error b).

Definition push_line (l : bytes) (s : Store) : result () str * Store :=
  match pending_error (buffer s) with
  | Some e => (Err e, s)
  | None =>
      let s := with_buffer (push l (buffer s)) s in
      if (SESSION_WRITE_BUFFER_CAP_BYTES <=? len (b_bytes (buffer s)))%N then drain s else (Ok (), s)
  end.

(** [due]: a deadline that is set has passed. *)
Definition poll_flush (due : bool) (s : Store) : Store :=
  if deadline (buffer s) && due then (drain s).2 else s.

Definition buffer_persist_line (l : bytes) (s : Store) : result () str * Store :=
  let l := l ++ [10%N] in
  let s := next_epoch s in
  if zero_period s then drain_through l s else push_line l s.

Fixpoint join_lines (ls : list bytes) : bytes :=
  match ls with [] => [] | [l] => l | l :: ls => l ++ 10%N :: join_lines ls end.

Definition file_content (es : list SessionEntry) : bytes := join_lines (map line es) ++ [10%N].

Definition rewrite_file (s : Store) : result () str * Store :=
  if negb (persisting s) then (Ok (), s)
  else
    let '(o, rest) := next_io s in
    match o with
    | Written => (Ok (), next_epoch (with_buffer (clear_buffer None) (with_disk (Some (file_content (entries s))) rest s)))
    | OpenFails e | Torn _ e => (Err e, with_disk (disk s) rest s)
    end.

Definition rewrite_and_mark (s : Store) : result () str * Store :=
  match rewrite_file s with (Ok _, s) => (Ok (), with_flushed true s) | (Err e, s) => (Err e, s) end.

Definition on_disk (s : Store) : bool := match disk s with Some _ => true | None => false end.

(** [flush_now] and [flush_now_checked]. *)
Definition flush_now (s : Store) : result () str * Store :=
  if negb (persisting s) then (Ok (), s)
  else if flushed s && on_disk s then drain s
  else rewrite_and_mark s.

Definition is_assistant (e : SessionEntry) : bool :=
  match body e with MessageEntry m => str_eqb (sm_role m) (lit "assistant") | _ => false end.

Definition persist (e : SessionEntry) (s : Store) : result () str * Store :=
  if negb (persisting s) then (Ok (), s)
  else
    let has_assistant := existsb is_assistant (entries s) in
    let without := match body e with SessionStateEntry _ | SessionInfoEntry _ => true | _ => false end in
    if negb (flushed s) && negb has_assistant && negb without then (Ok (), s)
    else if negb (flushed s) || negb (on_disk s) then rewrite_and_mark s
    else buffer_persist_line (line e) s.

Definition append_entry (e : SessionEntry) (s : Store) : result () str * Store :=
  match persist e (with_index (index_entry e (index s)) s) with
  | (Ok _, s) => (Ok (), s)
  | (Err err, s) => (Err err, with_flushed false s)
  end.

Definition rollback_last_append (previous_leaf_id : option str) (s : Store) : Store :=
  match leaf_id (index s) with
  | Some leaf =>
      if bool_decide (leaf_id (index s) = previous_leaf_id) then s
      else
        let s := with_flushed false (with_index (unindex previous_leaf_id (index s)) s) in
        match flush_now s with (Ok _, s) => s | (Err _, s) => with_flushed false s end
  | None => s
  end.

Definition append_entry_with_rollback (append : Store → result () str * Store) (s : Store) : result () str * Store :=
  let previous_leaf_id := leaf_id (index s) in
  match append s with
  | (Ok _, s) =>
      match flush_now s with
      | (Ok _, s) => (Ok (), s)
      | (Err e, s) => (Err e, rollback_last_append previous_leaf_id s)
      end
  | (Err e, s) => (Err e, rollback_last_append previous_leaf_id s)
  end.

(** ** The operations of the manager *)

Inductive sop : Type :=
| SAppend (id : str) (ts : Z) (b : Body)
| SAppendRollback (id : str) (ts : Z) (b : Body)   (* [append_compaction] and the [_with_rollback] calls *)
| SAppendLabel (id : str) (ts : Z) (target : str) (label : option str)
| SBranch (from_id : str)
| SResetLeaf
| SBranchWithSummary (id : str) (ts : Z) (from_id : option str) (summary : str)
| SFlush
| STick (due : bool).

Definition append_label_change (id : str) (ts : Z) (target : str) (label : option str) (s : Store)
    : result () str * Store :=
  if im_has target (by_id (index s)) then
    match append_entry (new_entry id ts (LabelEntry target label) (index s)) s with
    | (Ok _, s) => (Ok (), with_index (set_label target label ts (index s)) s)
    | (Err e, s) => (Err e, s)
    end
  else (Err (not_found target), s).

Definition branch_with_summary (id : str) (ts : Z) (from_id : option str) (summary : str) (s : Store)
    : result () str * Store :=
  let missing := match from_id with Some f => negb (im_has f (by_id (index s))) | None => false end in
  if missing then (Err (not_found (default [] from_id)), s)
  else
    let i := index s in
    let s := with_index (mkIndex (file_entries i) (by_id i) (labels_by_id i) (label_timestamps_by_id i) from_id) s in
    let from := match from_id with Some f => f | None => lit "root" end in
    append_entry (mkEntry id from_id ts (BranchSummaryEntry summary from)) s.

Definition step (o : sop) (s : Store) : result () str * Store :=
  match o with
  | SAppend id ts b => append_entry (new_entry id ts b (index s)) s
  | SAppendRollback id ts b => append_entry_with_rollback (λ s, append_entry (new_entry id ts b (index s)) s) s
  | SAppendLabel id ts target label => append_label_change id ts target label s
  | SBranch f =>
      match branch f (index s) with Ok i => (Ok (), with_index i s) | Err e => (Err e, s) end
  | SResetLeaf => (Ok (), with_index (reset_leaf (index s)) s)
  | SBranchWithSummary id ts f summary => branch_with_summary id ts f summary s
  | SFlush => flush_now s
  | STick due => (Ok (), poll_flush due s)
  end.

Fixpoint run (ops : list sop) (s : Store) : Store :=
  match ops with [] => s | o :: ops => run ops (step o s).2 end.

(** *** The calls of the manager, by what they append

    The parts of an entry the manager does not read again are its opaque data. *)

Definition append_message (id : str) (ts : Z) (m : StoredMessage) : sop := SAppend id ts (MessageEntry m).
Definition append_thinking_level_change (id : str) (ts : Z) (level : str) : sop :=
  SAppend id ts (ThinkingLevelChange (Some level)).
Definition append_service_tier_change (id : str) (ts : Z) (tier : option (option str)) : sop :=
  SAppend id ts (ServiceTierChange tier).
Definition append_model_change (id : str) (ts : Z) (provider model_id : str) : sop :=
  SAppend id ts (ModelChange provider model_id).
Definition append_compaction (id : str) (ts : Z) (c : CompactionBody) : sop := SAppendRollback id ts (CompactionEntry c).
Definition append_custom_entry (id : str) (ts : Z) (data : Value) : sop := SAppend id ts (OtherEntry (lit "custom") data).
Definition append_custom_entry_with_rollback (id : str) (ts : Z) (data : Value) : sop :=
  SAppendRollback id ts (OtherEntry (lit "custom") data).
Definition append_session_info (id : str) (ts : Z) (name : str) : sop := SAppend id ts (SessionInfoEntry (trim name)).
Definition append_session_state (id : str) (ts : Z) (state : Value) : sop := SAppend id ts (SessionStateEntry state).
Definition append_agent_status (id : str) (ts : Z) (status : Value) : sop :=
  SAppend id ts (OtherEntry (lit "agent_status") status).
Definition append_git_state (id : str) (ts : Z) (git : Value) : sop := SAppend id ts (OtherEntry (lit "git_state") git).
Definition append_custom_message_entry (id : str) (ts : Z) (custom_type : str) (content : Value) (display : bool)
    (details : option Value) : sop :=
  SAppend id ts (CustomMessageEntry custom_type content display details).
Definition append_custom_message_entry_with_rollback (id : str) (ts : Z) (custom_type : str) (content : Value)
    (display : bool) (details : option Value) : sop :=
  SAppendRollback id ts (CustomMessageEntry custom_type content display details).

(** The last name given, if it is not blank. *)
Definition get_session_name (s : Store) : option str :=
  match omap (λ e, match body e with SessionInfoEntry name => Some name | _ => None end) (rev (entries s)) with
  | name :: _ => if is_empty (trim name) then None else Some (trim name)
  | [] => None
  end.

(** The list of entries an operation brings about, before a rollback may undo it. *)
Definition attempted (o : sop) (s : Store) : list (list SessionEntry) :=
  match o with
  | SAppend id ts b | SAppendRollback id ts b => [entries s ++ [new_entry id ts b (index s)]]
  | SAppendLabel id ts target label =>
      if im_has target (by_id (index s)) then [entries s ++ [new_entry id ts (LabelEntry target label) (index s)]] else []
  | SBranchWithSummary id ts f summary =>
      let missing := match f with Some f => negb (im_has f (by_id (index s))) | None => false end in
      if missing then []
      else [entries s ++ [mkEntry id f ts (BranchSummaryEntry summary (match f with Some f => f | None => lit "root" end))]]
  | SBranch _ | SResetLeaf | SFlush | STick _ => []
  end.

(** The lists of entries a run went through. *)
Fixpoint moments (ops : list sop) (s : Store) : list (list SessionEntry) :=
  match ops with
  | [] => [entries s]
  | o :: ops => entries s :: attempted o s ++ moments ops (step o s).2
  end.

(** A new session: its header in memory and no file yet. *)
Definition new_session (zero : bool) (h : SessionEntry) (outcomes : list Io) : Store :=
  mkStore true zero (build_index [h]) false (clear_buffer None) 0 None outcomes.

(** ** Opening a file *)

(** [append_entry_from_buffer] and [parse_entries_from_buffer]; the lines of a file. *)
Definition append_entry_from_buffer (l : bytes) : option SessionEntry :=
  if is_empty l then None else match json l with Some (Some e) => Some e | _ => None end.

(** The loops over the lines: each with whether a line break ended it. *)
Fixpoint file_lines (cur : bytes) (b : bytes) : list (bytes * bool) :=
  match b with
  | [] => if is_empty cur then [] else [(rev cur, false)]
  | c :: b => if N.eqb c 10 then (rev cur, true) :: file_lines [] b else file_lines (c :: cur) b
  end.

Definition parse_entries_from_buffer (b : bytes) : list SessionEntry :=
  omap (λ l, append_entry_from_buffer l.1) (file_lines [] b).

Definition parses_as_json (l : bytes) : bool := match json l with Some _ => true | None => false end.

Definition REPAIR_SUSPICION_WINDOW_BYTES : N := 1048576.

(** What stands after the last line break of [b], if there is one. *)
Fixpoint after_last_newline (b : bytes) : option bytes :=
  match b with
  | [] => None
  | c :: b' =>
      match after_last_newline b' with
      | Some l => Some l
      | None => if N.eqb c 10 then Some b' else None
      end
  end.

Definition tail_looks_damaged (b : bytes) : bool :=
  let size := len b in
  if is_empty b then false
  else
    let window := drop (N.to_nat (size - REPAIR_SUSPICION_WINDOW_BYTES)) b in
    if existsb (N.eqb 0) window then true
    else if negb (bool_decide (last window = Some 10%N)) then true
    else
      let shorter := removelast window in
      let judge l := negb (is_empty l) && negb (parses_as_json l) in
      match after_last_newline shorter with
      | None => if (len window <? size)%N then true else judge shorter
      | Some l => judge l
      end.

(** Leading NUL bytes of a line. *)
Fixpoint skip_nuls (l : bytes) : bytes :=
  match l with c :: l' => if N.eqb c 0 then skip_nuls l' else l | [] => [] end.

(** One line of the repair: what is kept of it, and whether that is a change. *)
Definition repair_line (is_last : bool) (lt : bytes * bool) : option bytes * bool :=
  let '(full, terminated) := lt in
  let l := skip_nuls full in
  let readable := negb (is_empty l) && parses_as_json l in
  if length l <? length full then (if readable then Some l else None, true)
  else if negb terminated then (if readable then Some l else None, true)
  else if is_last && negb (is_empty l) && negb (parses_as_json l) then (None, true)
  else (Some l, false).

Fixpoint repair_lines (ls : list (bytes * bool)) : list bytes * bool :=
  match ls with
  | [] => ([], false)
  | lt :: ls =>
      let '(k, d) := repair_line (is_empty ls) lt in
      let '(ks, ds) := repair_lines ls in
      (match k with Some l => l :: ks | None => ks end, d || ds)
  end.

(** [repair_jsonl_damage] when its rewrite succeeds; otherwise the file is not opened. *)
Definition repair_jsonl_damage (b : bytes) : bytes :=
  if negb (tail_looks_damaged b) then b
  else
    let '(kept, dirty) := repair_lines (file_lines [] b) in
    if negb dirty then b
    else if is_empty kept then []
    else join_lines (map lossy kept) ++ [10%N].

(** ** Loading *)

Definition valid_session_id (id : str) : bool :=
  negb (is_empty id) && negb (str_eqb id (lit ".")) && negb (str_eqb id (lit "..")) &&
  negb (existsb (λ c, existsb (N.eqb c) (lit "/\:") || (c <? 32)%N || ((127 <=? c) && (c <? 160))%N) id).

Definition valid_session_header (e : SessionEntry) : bool := is_session_header e && valid_session_id (entry_id e).

(** The attributions in the entries, in order. *)
Definition attributions (es : list SessionEntry) : list (str * Usage) :=
  omap (λ e, match body e with
             | OtherEntry ty data => if str_eqb ty (lit "child_usage_attributed") then child_usage data else None
             | _ => None
             end) es.

(** [assistant_entries_by_id]: the last index of an id wins. *)
Definition assistant_index (es : list SessionEntry) (id : str) : option nat :=
  snd <$> last (List.filter (λ p, is_assistant p.1 && str_eqb (entry_id p.1) id) (zip es (seq 0 (length es)))).

Definition attribute_one (at_ : str → option nat) (es : list SessionEntry) (a : str * Usage) : list SessionEntry :=
  match at_ a.1 with
  | Some i =>
      alter (λ e, match body e with
                  | MessageEntry m => mkEntry (entry_id e) (entry_parent_id e) (entry_timestamp e) (MessageEntry (set_usage m a.2))
                  | _ => e
                  end) i es
  | None => es
  end.

Definition apply_child_usage_attributions (es : list SessionEntry) : list SessionEntry :=
  fold_left (attribute_one (assistant_index es)) (attributions es) es.

Definition finalize_loaded_entries (es : list SessionEntry) : list SessionEntry :=
  match es with
  | [] => []
  | h :: _ => if valid_session_header h then apply_child_usage_attributions es else []
  end.

(** The entries a manager starts with when it opens a file with this content. *)
Definition open_entries (b : bytes) : list SessionEntry :=
  finalize_loaded_entries (parse_entries_from_buffer (repair_jsonl_damage b)).

(** ** The invariant *)

Definition enc (es : list SessionEntry) : bytes := concat (map (λ e, line e ++ [10%N]) es).

Lemma enc_app a b : enc (a ++ b) = enc a ++ enc b.
Proof. unfold enc. by rewrite map_app, concat_app. Qed.

Lemma enc_snoc a e : enc (a ++ [e]) = enc a ++ line e ++ [10%N].
Proof. rewrite enc_app. unfold enc at 2. simpl. by rewrite app_nil_r. Qed.

Lemma enc_prefix a b : a `prefix_of` b → enc a `prefix_of` enc b.
Proof. intros [c ->]. rewrite enc_app. by exists (enc c). Qed.

Lemma join_lines_enc (ls : list bytes) : ls ≠ [] → join_lines ls ++ [10%N] = concat (map (λ l, l ++ [10%N]) ls).
Proof.
  intros H. induction ls as [|l ls IH]; [done|]. destruct ls as [|l' ls]; [simpl; by rewrite app_nil_r|].
  cbn [join_lines map concat] in IH |- *. rewrite <-(IH ltac:(done)). by rewrite <-!app_assoc.
Qed.

Lemma file_content_enc es : es ≠ [] → file_content es = enc es.
Proof.
  intros H. unfold file_content, enc. rewrite join_lines_enc by (by destruct es). by rewrite map_map.
Qed.

(** What the file and the buffer hold.  While [flushed] holds and no error is pending, they
    are the entries together; after an error the buffer is empty and the file is cut
    somewhere; otherwise the file is cut from the entries of some moment, [V]. *)
Definition holds (V : list (list SessionEntry)) (s : Store) : Prop :=
  if flushed s then
    ∃ d, disk s = Some d ∧
      match pending_error (buffer s) with
      | None => d ++ b_bytes (buffer s) = enc (entries s)
      | Some _ => b_bytes (buffer s) = [] ∧ d `prefix_of` enc (entries s)
      end
  else b_bytes (buffer s) = [] ∧ ∀ d, disk s = Some d → ∃ v, v ∈ V ∧ d `prefix_of` enc v.

(** [base]: entries that were flushed once. *)
Record inv (V : list (list SessionEntry)) (base : list SessionEntry) (s : Store) : Prop := {
  inv_persisting : persisting s = true;
  inv_nonempty : entries s ≠ [];
  inv_in : entries s ∈ V;
  inv_base : base `prefix_of` entries s;
  inv_disk : enc base `prefix_of` default [] (disk s);
  inv_zero : zero_period s = true → flushed s = true → pending_error (buffer s) = None ∧ b_bytes (buffer s) = [];
  inv_holds : holds V s }.

(** Everything is in the file. *)
Definition clean (s : Store) : Prop :=
  flushed s = true ∧ disk s = Some (enc (entries s)) ∧ b_bytes (buffer s) = [] ∧ pending_error (buffer s) = None.

Lemma inv_more V V' base s : inv V base s → (∀ v, v ∈ V → v ∈ V') → inv V' base s.
Proof.
  intros [] Hv. constructor; auto. unfold holds in *. destruct (flushed s); [done|].
  destruct inv_holds0 as [Hb Hd]. split; [done|]. intros d Hdisk. destruct (Hd d Hdisk) as (v & ? & ?). eauto.
Qed.

Lemma inv_clean V base s :
  persisting s = true → entries s ≠ [] → entries s ∈ V → base `prefix_of` entries s → clean s → inv V base s.
Proof.
  intros Hp Hn Hin Hb (Hf & Hd & Hbuf & He). constructor; auto.
  - rewrite Hd. by apply enc_prefix.
  - unfold holds. rewrite Hf, Hd, Hbuf, He. eexists. split; [done|]. by rewrite app_nil_r.
Qed.

(** A manager whose buffer is empty may be told to rewrite. *)
Lemma inv_unflush V base s : inv V base s → b_bytes (buffer s) = [] → inv V base (with_flushed false s).
Proof.
  intros [? ? Hin ? ? ? Hh] Hb. constructor; auto; [done|]. unfold holds in *. simpl. split; [done|].
  intros d Hd. destruct (flushed s).
  - destruct Hh as (d' & Hd' & Hx). rewrite Hd in Hd'. injection Hd' as <-. exists (entries s). split; [done|].
    destruct (pending_error (buffer s)); [apply Hx|]. rewrite Hb, app_nil_r in Hx. by rewrite Hx.
  - destruct Hh as [_ Hh]. by apply Hh.
Qed.

Lemma inv_with_index V base s i :
  inv V base s → file_entries i = entries s → inv V base (with_index i s).
Proof.
  intros [? ? ? ? ? ? Hh] Hi. unfold entries in *.
  constructor; unfold entries; cbn [with_index index persisting disk flushed buffer zero_period]; rewrite ?Hi; try done.
  unfold holds, entries in *. cbn [with_index index disk flushed buffer]. by rewrite Hi.
Qed.

(** What an attempt to write leaves behind. *)
Definition attempt (V : list (list SessionEntry)) (base : list SessionEntry) (i : Index) (zero : bool)
    (r : result () str) (s' : Store) : Prop :=
  index s' = i ∧ zero_period s' = zero ∧
  match r with
  | Ok _ => inv V base s'
  | Err _ => b_bytes (buffer s') = [] ∧ inv V base (with_flushed false s') ∧ (zero = false → inv V base s')
  end.

Lemma write_payload_spec V base s payload d :
  persisting s = true → entries s ≠ [] → entries s ∈ V → base `prefix_of` entries s → flushed s = true →
  disk s = Some d → enc base `prefix_of` d → d ++ payload = enc (entries s) →
  let '(r, s') := write_payload payload s in
  attempt V base (index s) (zero_period s) r s' ∧ flushed s' = true ∧ (r = Ok () → clean s').
Proof.
  intros Hp Hn Hin Hb Hf Hd Hdb Henc.
  assert (Hfail : ∀ n e rest,
    let s' := with_buffer (clear_buffer (Some e)) (with_disk (Some (d ++ take n payload)) rest s) in
    attempt V base (index s) (zero_period s) (Err e) s' ∧ flushed s' = true ∧ (@Err () str e = Ok () → clean s')).
  { intros n e rest s'.
    assert (Hpre : d ++ take n payload `prefix_of` enc (entries s)).
    { rewrite <-Henc. apply prefix_app. exists (drop n payload). by rewrite take_drop. }
    assert (Hbase : enc base `prefix_of` d ++ take n payload) by (etrans; [exact Hdb|by eexists]).
    split; [|done]. split; [done|]. split; [done|]. split; [done|]. split.
    - constructor; try done. unfold holds. simpl. split; [done|]. intros d' [= <-]. by exists (entries s).
    - intros Hz. constructor; try done; [simpl; congruence|]. unfold holds. simpl. rewrite Hf. by eexists. }
  unfold write_payload, append_bytes. rewrite Hd. cbn [default from_option id].
  destruct (next_io s) as [[|e|n e] rest].
  - match goal with |- attempt _ _ _ _ _ ?s' ∧ _ ∧ _ => assert (Hc : clean s') end.
    { split; [done|]. split; [simpl; by rewrite Henc|done]. }
    split; [|done]. split; [done|]. split; [done|]. by apply inv_clean.
  - specialize (Hfail 0 e rest). rewrite take_0, app_nil_r in Hfail. exact Hfail.
  - apply Hfail.
Qed.

Lemma drain_spec V base s :
  inv V base s → flushed s = true →
  let '(r, s') := drain s in
  attempt V base (index s) (zero_period s) r s' ∧ flushed s' = true ∧ (r = Ok () → clean s').
Proof.
  intros H Hf. destruct (H) as [Hp Hn Hin Hb Hdk Hz Hh]. unfold holds in Hh. rewrite Hf in Hh.
  destruct Hh as (d & Hd & Hh). unfold drain.
  destruct (is_empty (b_bytes (buffer s))) eqn:Ee.
  - assert (Hbb : b_bytes (buffer s) = []) by (by destruct (b_bytes (buffer s))).
    unfold nothing_to_write. destruct (pending_error (buffer s)) as [e|] eqn:Ep.
    + split; [|done]. do 2 (split; [done|]). split; [done|]. split; [by apply inv_unflush|done].
    + split; [done|]. split; [done|]. intros _. rewrite Hbb, app_nil_r in Hh. subst d. by split.
  - destruct (pending_error (buffer s)) as [e|]; [destruct Hh as [Hbb _]; by rewrite Hbb in Ee|].
    apply (write_payload_spec V base s _ d); try done. rewrite Hd in Hdk. exact Hdk.
Qed.

Lemma rewrite_and_mark_spec V base s :
  inv V base s → b_bytes (buffer s) = [] →
  let '(r, s') := rewrite_and_mark s in
  index s' = index s ∧ zero_period s' = zero_period s ∧ inv V base s' ∧ b_bytes (buffer s') = [] ∧ (r = Ok () → clean s').
Proof.
  intros H Hbb. destruct (H) as [Hp Hn Hin Hb Hdk Hz Hh]. unfold rewrite_and_mark, rewrite_file. rewrite Hp. cbn [negb].
  assert (Hsame : ∀ rest, inv V base (with_disk (disk s) rest s)) by (intros rest; by constructor).
  destruct (next_io s) as [[|e|n e] rest]; do 2 (split; [done|]); try (by split; [apply Hsame|]).
  match goal with |- inv _ _ ?s' ∧ _ => assert (Hc : clean s') end.
  { split; [done|]. split; [|done]. simpl. by rewrite file_content_enc. }
  split; [by apply inv_clean|done].
Qed.

Lemma flush_now_spec V base s :
  inv V base s →
  let '(r, s') := flush_now s in
  index s' = index s ∧ zero_period s' = zero_period s ∧ inv V base s' ∧ b_bytes (buffer s') = [] ∧ (r = Ok () → clean s').
Proof.
  intros H. unfold flush_now. rewrite (inv_persisting _ _ _ H). cbn [negb].
  pose proof (inv_holds _ _ _ H) as Hh. unfold holds in Hh.
  destruct (flushed s) eqn:Hf.
  - destruct Hh as (d & Hd & _). unfold on_disk. rewrite Hd. cbn [andb].
    pose proof (drain_spec V base s H Hf) as Hdr.
    assert (Hzero : zero_period s = true → (drain s).1 = Ok ()).
    { intros Hz. destruct (inv_zero _ _ _ H Hz Hf) as [Hpe Hbb]. unfold drain, nothing_to_write. by rewrite Hbb, Hpe. }
    destruct (drain s) as [[[]|err] s']; destruct Hdr as ((Hi & Hz & Hx) & _ & Hc).
    + do 3 (split; [done|]). split; [|done]. by destruct (Hc eq_refl) as (_ & _ & ? & _).
    + do 2 (split; [done|]). destruct Hx as (Hbb & _ & Hx). split; [|done]. apply Hx.
      destruct (zero_period s); [by specialize (Hzero eq_refl)|done].
  - cbn [andb]. apply rewrite_and_mark_spec; [done|]. apply Hh.
Qed.

(** ** Appending *)

Abbreviation grown s e := (with_index (index_entry e (index s)) s).

(** With no file to keep in step, a new entry changes nothing on the disk. *)
Lemma inv_grown V base s e :
  inv V base s → flushed s = false → inv ((entries s ++ [e]) :: V) base (grown s e).
Proof.
  intros [Hp Hn Hin Hb Hdk Hz Hh] Hf. unfold holds in Hh. rewrite Hf in Hh. destruct Hh as [Hbb Hd].
  constructor; unfold entries in *; simpl; try done.
  - by destruct (file_entries (index s)).
  - by left.
  - etrans; [exact Hb|by eexists].
  - unfold holds. simpl. rewrite Hf. split; [done|]. intros d Hdd. destruct (Hd d Hdd) as (v & Hv & Hpre).
    exists v. split; [by right|done].
Qed.

(** A line put into the buffer of a manager in step. *)
Lemma inv_pushed V base s e b :
  inv V base s → flushed s = true → zero_period s = false → pending_error (buffer s) = None →
  inv ((entries s ++ [e]) :: V) base
    (with_buffer (mkBuffer (b_bytes (buffer s) ++ line e ++ [10%N]) b None) (next_epoch (grown s e))).
Proof.
  intros [Hp Hn Hin Hb Hdk Hz Hh] Hf Hzp Hpe. unfold holds in Hh. rewrite Hf, Hpe in Hh.
  destruct Hh as (d & Hd & Henc). constructor; unfold entries in *; simpl; try done.
  - by destruct (file_entries (index s)).
  - by left.
  - etrans; [exact Hb|by eexists].
  - congruence.
  - unfold holds. simpl. rewrite Hf. exists d. split; [done|]. unfold entries. simpl.
    by rewrite enc_snoc, <-Henc, <-app_assoc.
Qed.

Lemma buffer_persist_spec V base s e :
  inv V base s → flushed s = true →
  let '(r, s') := buffer_persist_line (line e) (grown s e) in
  attempt ((entries s ++ [e]) :: V) base (index_entry e (index s)) (zero_period s) r s'.
Proof.
  intros H Hf. destruct (H) as [Hp Hn Hin Hb Hdk Hz Hh]. unfold holds in Hh. rewrite Hf in Hh.
  destruct Hh as (d & Hd & Hh). unfold buffer_persist_line. cbn [zero_period next_epoch with_index].
  assert (Hn' : entries (grown s e) ≠ []) by (unfold entries; simpl; by destruct (file_entries (index s))).
  assert (Hb' : base `prefix_of` entries (grown s e)) by (etrans; [exact Hb|by eexists]).
  destruct (zero_period s) eqn:Hzp.
  - destruct (Hz eq_refl Hf) as [Hpe Hbb]. rewrite Hpe, Hbb, app_nil_r in Hh. unfold drain_through. simpl.
    rewrite Hbb. cbn [app]. destruct (is_empty _) eqn:Ee; [by destruct (line e)|]. rewrite Hd in Hdk.
    pose proof (write_payload_spec ((entries s ++ [e]) :: V) base (next_epoch (grown s e)) (line e ++ [10%N]) d Hp Hn'
      ltac:(by left) Hb' Hf Hd Hdk) as Hw. simpl in Hw. rewrite Hzp in Hw. subst d.
    specialize (Hw ltac:(unfold entries; simpl; by rewrite enc_snoc)).
    destruct (write_payload _ _) as [r s']. naive_solver.
  - unfold push_line. cbn [next_epoch with_index buffer].
    destruct (pending_error (buffer s)) as [err|] eqn:Hpe.
    + destruct Hh as [Hbb Hpre].
      assert (Hpre' : d `prefix_of` enc (entries s ++ [e])) by (rewrite enc_snoc; etrans; [exact Hpre|by eexists]).
      split; [done|]. split; [done|]. split; [done|]. split; [|intros _]; constructor; try done; try by left.
      * unfold holds. simpl. split; [done|]. intros d' Hd'. rewrite Hd in Hd'. injection Hd' as <-.
        exists (entries s ++ [e]). split; [by left|done].
      * intros Hz'. simpl in Hz'. congruence.
      * unfold holds. simpl. rewrite Hf, Hpe. by exists d.
    + unfold push. rewrite Hpe.
      pose proof (inv_pushed V base s e (if is_empty (b_bytes (buffer s)) then true else deadline (buffer s)) H Hf Hzp Hpe) as Hpu.
      destruct (_ <=? _)%N; [|split; [done|]; split; [done|]; exact Hpu].
      pose proof (drain_spec _ _ _ Hpu Hf) as Hdr. simpl in Hdr. rewrite Hzp in Hdr.
      destruct (drain _) as [r s']. naive_solver.
Qed.

Lemma append_entry_spec V base s e :
  inv V base s →
  let '(r, s') := append_entry e s in
  index s' = index_entry e (index s) ∧ zero_period s' = zero_period s ∧ inv ((entries s ++ [e]) :: V) base s' ∧
  (r = Ok () ∨ b_bytes (buffer s') = []).
Proof.
  intros H. unfold append_entry.
  assert (Hpersist : let '(r, s') := persist e (grown s e) in
    attempt ((entries s ++ [e]) :: V) base (index_entry e (index s)) (zero_period s) r s').
  { unfold persist. cbn [persisting with_index]. rewrite (inv_persisting _ _ _ H). cbn [negb flushed].
    destruct (flushed s) eqn:Hf.
    - cbn [negb andb orb]. pose proof (inv_holds _ _ _ H) as Hh. unfold holds in Hh. rewrite Hf in Hh.
      destruct Hh as (d & Hd & _). unfold on_disk. cbn [disk with_index flushed negb andb orb].
      rewrite Hf, Hd. cbn [negb andb orb]. by apply buffer_persist_spec.
    - cbn [with_index flushed]. rewrite Hf. cbn [negb andb orb]. pose proof (inv_grown V base s e H Hf) as Hg.
      destruct (_ && _); [split; [done|]; split; [done|]; exact Hg|].
      pose proof (rewrite_and_mark_spec _ _ _ Hg) as Hr. simpl in Hr.
      pose proof (inv_holds _ _ _ H) as Hh. unfold holds in Hh. rewrite Hf in Hh. specialize (Hr (proj1 Hh)).
      destruct (rewrite_and_mark _) as [[[]|err] s']; destruct Hr as (Hi & Hz & Hr & Hbb & _); do 2 (split; [done|]); [done|].
      split; [done|]. split; [by apply inv_unflush|done]. }
  destruct (persist e (grown s e)) as [[[]|err] s']; destruct Hpersist as (Hi & Hz & Hx).
  - naive_solver.
  - destruct Hx as (Hb & Hx & _). split; [done|]. split; [done|]. split; [done|]. by right.
Qed.

(** ** Every operation *)

Lemma rollback_spec V base s i0 e previous :
  inv V base s → index s = index_entry e i0 → b_bytes (buffer s) = [] →
  file_entries i0 ≠ [] → file_entries i0 ∈ V → base `prefix_of` file_entries i0 →
  inv V base (rollback_last_append previous s).
Proof.
  intros H Hi Hbb Hn Hin Hb. unfold rollback_last_append. rewrite Hi. cbn [index_entry leaf_id].
  destruct (decide (Some (entry_id e) = previous)) as [Hp|Hp]; [by rewrite bool_decide_true|].
  rewrite bool_decide_false by done. set (s1 := with_flushed false _).
  assert (He : entries s1 = file_entries i0).
  { unfold s1, entries, unindex. cbn [with_flushed with_index index index_entry leaf_id].
    rewrite bool_decide_false by done. cbn [file_entries]. apply removelast_last. }
  assert (Hs1 : inv V base s1).
  { pose proof (inv_unflush V base s H Hbb) as [? _ _ _ ? ? Hh]. constructor; rewrite ?He; try done. }
  pose proof (flush_now_spec V base s1 Hs1) as Hf.
  destruct (flush_now s1) as [[[]|err] s2]; destruct Hf as (_ & _ & Hf & Hbb2 & _); [done|]. by apply inv_unflush.
Qed.

Lemma append_rollback_spec V base s e :
  inv V base s →
  inv ((entries s ++ [e]) :: V) base (append_entry_with_rollback (append_entry e) s).2.
Proof.
  intros H. pose proof (append_entry_spec V base s e H) as Ha. unfold append_entry_with_rollback.
  set (V' := (entries s ++ [e]) :: V) in *.
  assert (Hroll : ∀ s', inv V' base s' → index s' = index_entry e (index s) → b_bytes (buffer s') = [] →
    inv V' base (rollback_last_append (leaf_id (index s)) s')).
  { intros s' H' Hi Hbb. destruct H as [? Hn Hin Hb ? ? ?].
    apply (rollback_spec V' base s' (index s) e); try done. by right. }
  destruct (append_entry e s) as [[[]|err] s1]; destruct Ha as (Hi & _ & Ha & Hbb); cbn [snd].
  - pose proof (flush_now_spec V' base s1 Ha) as Hf.
    destruct (flush_now s1) as [[[]|err] s2]; destruct Hf as (Hi2 & _ & Hf & Hbb2 & _); cbn [snd]; [done|].
    apply Hroll; [done|by rewrite Hi2|done].
  - apply Hroll; [done|done|]. by destruct Hbb.
Qed.

Lemma poll_flush_spec V base due s : inv V base s → inv V base (poll_flush due s).
Proof.
  intros H. unfold poll_flush. destruct (deadline (buffer s) && due); [|done].
  destruct (flushed s) eqn:Hf.
  - pose proof (flush_now_spec V base s H) as Hs. unfold flush_now in Hs.
    rewrite (inv_persisting _ _ _ H), Hf in Hs. cbn [negb andb] in Hs.
    pose proof (inv_holds _ _ _ H) as Hh. unfold holds in Hh. rewrite Hf in Hh. destruct Hh as (d & Hd & _).
    unfold on_disk in Hs. rewrite Hd in Hs. destruct (drain s). apply Hs.
  - pose proof (inv_holds _ _ _ H) as Hh. unfold holds in Hh. rewrite Hf in Hh. destruct Hh as [Hbb _].
    unfold drain, nothing_to_write. rewrite Hbb. simpl. by destruct (pending_error (buffer s)).
Qed.

Lemma store_step_inv V base o s : inv V base s → inv (attempted o s ++ V) base (step o s).2.
Proof.
  intros H. destruct o as [id ts b|id ts b|id ts target label|f| |id ts f summary| |due]; cbn [attempted step app].
  - pose proof (append_entry_spec V base s (new_entry id ts b (index s)) H) as Ha.
    destruct (append_entry _ _). apply Ha.
  - exact (append_rollback_spec V base s (new_entry id ts b (index s)) H).
  - unfold append_label_change. destruct (im_has target (by_id (index s))); [|done].
    pose proof (append_entry_spec V base s (new_entry id ts (LabelEntry target label) (index s)) H) as Ha.
    destruct (append_entry _ _) as [[[]|err] s1]; destruct Ha as (_ & _ & Ha & _); [|done].
    apply inv_with_index; [done|]. by destruct label.
  - unfold branch. destruct (im_has f (by_id (index s))); [|done]. by apply inv_with_index.
  - by apply inv_with_index.
  - unfold branch_with_summary. destruct (match f with Some f => negb (im_has f (by_id (index s))) | None => false end); [done|].
    set (s1 := with_index _ s). assert (H1 : inv V base s1) by (by apply inv_with_index).
    pose proof (append_entry_spec V base s1
      (mkEntry id f ts (BranchSummaryEntry summary (match f with Some f => f | None => lit "root" end))) H1) as Ha.
    destruct (append_entry _ _). apply Ha.
  - pose proof (flush_now_spec V base s H) as Hf. destruct (flush_now s). apply Hf.
  - by apply poll_flush_spec.
Qed.

Lemma store_run_inv V base ops s : inv V base s → inv (moments ops s ++ V) base (run ops s).
Proof.
  revert V s. induction ops as [|o ops IH]; intros V s H; cbn [moments run].
  - eapply inv_more; [exact H|]. intros v Hv. by right.
  - pose proof (IH _ _ (store_step_inv V base o s H)) as Hr. eapply inv_more; [exact Hr|].
    intros v. rewrite !elem_of_app. cbn [app]. rewrite elem_of_cons, !elem_of_app. tauto.
Qed.

(** ** Reading back *)

Lemma line_newline e : storable e → Forall (λ b, b ≠ 10%N) (line e).
Proof. intros H. eapply Forall_impl; [exact (line_chars e H)|]. by intros b [? _]. Qed.

Lemma file_lines_line cur l rest :
  Forall (λ b, b ≠ 10%N) l → file_lines cur (l ++ 10%N :: rest) = (rev cur ++ l, true) :: file_lines [] rest.
Proof.
  intros H. revert cur. induction H as [|c l Hc _ IH]; intros cur; [simpl; by rewrite app_nil_r|].
  cbn [app file_lines]. apply N.eqb_neq in Hc. rewrite Hc, IH. simpl. by rewrite <-app_assoc.
Qed.

Lemma file_lines_torn cur l :
  Forall (λ b, b ≠ 10%N) l → file_lines cur l = if is_empty (rev cur ++ l) then [] else [(rev cur ++ l, false)].
Proof.
  intros H. revert cur. induction H as [|c l Hc _ IH]; intros cur.
  - rewrite app_nil_r. simpl. destruct cur as [|x cur]; [done|]. simpl. by destruct (rev cur).
  - cbn [file_lines]. apply N.eqb_neq in Hc. rewrite Hc, IH. simpl. by rewrite <-app_assoc.
Qed.

Lemma file_lines_enc w rest :
  Forall storable w → file_lines [] (enc w ++ rest) = map (λ e, (line e, true)) w ++ file_lines [] rest.
Proof.
  intros H. induction H as [|e w He _ IH]; [done|]. unfold enc in *. cbn [map concat].
  rewrite <-!app_assoc. cbn [app]. rewrite file_lines_line by (by apply line_newline). simpl. by rewrite IH.
Qed.

(** Complete lines read back. *)
Lemma parse_enc w : Forall storable w → parse_entries_from_buffer (enc w) = w.
Proof.
  intros H. unfold parse_entries_from_buffer. rewrite <-(app_nil_r (enc w)), file_lines_enc by done.
  rewrite app_nil_r. induction H as [|e w He _ IH]; [done|]. cbn [map omap list_omap fst].
  unfold append_entry_from_buffer at 1. pose proof (line_nonempty e He) as Hn.
  destruct (line e) as [|c l] eqn:El; [done|]. cbn [is_empty]. rewrite <-El, (line_json e He). by rewrite IH.
Qed.

(** A prefix of the file's bytes ends in complete lines and at most one piece of a line. *)
Lemma cut_file v d :
  d `prefix_of` enc v →
  ∃ w torn, d = enc w ++ torn ∧ w `prefix_of` v ∧
    (torn = [] ∨ ∃ e, w ++ [e] `prefix_of` v ∧ torn `prefix_of` line e).
Proof.
  revert d. induction v as [|e v IH]; intros d Hd.
  - apply prefix_nil_inv in Hd as ->. exists [], []. split; [done|]. split; [done|by left].
  - unfold enc in Hd. cbn [map concat] in Hd. fold (enc v) in Hd.
    destruct (decide (length d ≤ length (line e))) as [Hle|Hgt].
    + exists [], d. split; [done|]. split; [apply prefix_nil|]. right. exists e. split; [by exists v|].
      destruct Hd as [r Hr]. rewrite <-app_assoc in Hr. apply (f_equal (take (length d))) in Hr.
      rewrite take_app_le in Hr by done. rewrite take_app_length in Hr. rewrite <-Hr. apply prefix_take.
    + destruct Hd as [r Hr].
      assert (Hd' : ∃ d', d = (line e ++ [10%N]) ++ d').
      { exists (drop (length (line e ++ [10%N])) d). apply (f_equal (take (length (line e ++ [10%N])))) in Hr.
        rewrite take_app_length in Hr. rewrite take_app_le in Hr by (rewrite length_app; simpl; lia).
        rewrite Hr at 1. by rewrite take_drop. }
      destruct Hd' as [d' ->]. rewrite <-(app_assoc _ d' r) in Hr. apply app_inv_head in Hr.
      destruct (IH d' ltac:(by exists r)) as (w & torn & -> & Hw & Ht). exists (e :: w), torn.
      split; [unfold enc; cbn [map concat]; by rewrite <-!app_assoc|]. split; [by apply prefix_cons|].
      destruct Ht as [->|(x & Hx & Htorn)]; [by left|right]. exists x. split; [|done]. by apply (prefix_cons e (w ++ [x])).
Qed.

(** What was written completely is among the complete lines. *)
Lemma complete_lines a w torn :
  Forall storable a → Forall storable w → Forall (λ b, b ≠ 10%N) torn →
  enc a `prefix_of` enc w ++ torn → a `prefix_of` w.
Proof.
  intros Ha. revert w. induction Ha as [|x a Hx _ IH]; intros w Hw Ht [r Hr]; [apply prefix_nil|].
  assert (Hx' : file_lines [] (enc (x :: a) ++ r) = (line x, true) :: file_lines [] (enc a ++ r)).
  { unfold enc. cbn [map concat]. rewrite <-!app_assoc. cbn [app]. by rewrite file_lines_line by (by apply line_newline). }
  rewrite <-Hr in Hx'. destruct w as [|y w].
  - simpl in Hx'. rewrite file_lines_torn in Hx' by done. by destruct (is_empty _).
  - rewrite file_lines_enc in Hx' by done. cbn [map app] in Hx'. injection Hx' as Hxy _.
    apply Forall_cons in Hw as [Hy Hw].
    assert (y = x) as ->.
    { pose proof (line_json y Hy) as Hj. rewrite Hxy, (line_json x Hx) in Hj. congruence. }
    apply prefix_cons, (IH w Hw Ht). exists r. unfold enc in Hr. cbn [map concat] in Hr. rewrite <-!app_assoc in Hr.
    by do 2 apply app_inv_head in Hr.
Qed.

(** ** Repair *)

Lemma skip_line e : storable e → skip_nuls (line e) = line e.
Proof.
  intros H. pose proof (line_chars e H) as Hc. destruct (line e) as [|c l]; [done|].
  apply Forall_cons in Hc as [[_ Hc] _]. simpl. by apply N.eqb_neq in Hc as ->.
Qed.

Lemma line_parses e : storable e → parses_as_json (line e) = true.
Proof. intros H. unfold parses_as_json. by rewrite (line_json e H). Qed.

Lemma repair_whole_lines w rest :
  Forall storable w →
  repair_lines (map (λ e, (line e, true)) w ++ rest) =
    (map line w ++ (repair_lines rest).1, (repair_lines rest).2).
Proof.
  induction 1 as [|e w He _ IH]; [cbn [map app]; by destruct (repair_lines rest)|].
  cbn [map app repair_lines]. rewrite IH.
  unfold repair_line. rewrite skip_line, line_parses by done. rewrite Nat.ltb_irrefl. cbn [negb]. by rewrite andb_false_r.
Qed.

(** A piece of a line is dropped, unless only its line break is missing. *)
Lemma repair_torn e torn :
  storable e → torn ≠ [] → torn `prefix_of` line e →
  repair_lines [(torn, false)] = (if bool_decide (torn = line e) then [line e] else [], true).
Proof.
  intros He Hne Hpre. assert (Hskip : skip_nuls torn = torn).
  { pose proof (line_chars e He) as Hc. destruct Hpre as [r Hr]. rewrite Hr in Hc. destruct torn as [|c l]; [done|].
    apply Forall_cons in Hc as [[_ Hc] _]. simpl. by apply N.eqb_neq in Hc as ->. }
  cbn [repair_lines]. unfold repair_line. rewrite Hskip, Nat.ltb_irrefl. cbn [negb].
  assert (is_empty torn = false) as -> by (by destruct torn). cbn [negb andb].
  destruct (bool_decide_reflect (torn = line e)) as [->|Hd]; [by rewrite line_parses|].
  unfold parses_as_json. by rewrite (line_prefix e torn He Hpre Hd).
Qed.

Lemma map_lossy w : Forall storable w → map lossy (map line w) = map line w.
Proof. induction 1 as [|e w He _ IH]; [done|]. cbn [map]. by rewrite line_lossy, IH. Qed.

Lemma repaired_content w :
  Forall storable w →
  (if is_empty (map line w) then [] else join_lines (map lossy (map line w)) ++ [10%N]) = enc w.
Proof.
  intros H. rewrite map_lossy by done. destruct w as [|e w]; [done|]. cbn [map is_empty].
  exact (file_content_enc (e :: w) ltac:(done)).
Qed.

Lemma torn_damaged d torn :
  torn ≠ [] → Forall (λ b, b ≠ 10%N) torn → tail_looks_damaged (d ++ torn) = true.
Proof.
  intros Hne Ht. unfold tail_looks_damaged.
  destruct torn as [|c torn _] using rev_ind; [done|]. apply Forall_app in Ht as [_ Hc]. apply Forall_inv in Hc.
  rewrite app_assoc. set (l := d ++ torn).
  destruct (is_empty (l ++ [c])) eqn:Ee; [by destruct l|].
  set (k := N.to_nat _). destruct (existsb _ _); [done|].
  assert (Hk : k ≤ length l).
  { unfold k, len, REPAIR_SUSPICION_WINDOW_BYTES. rewrite length_app. simpl. lia. }
  rewrite drop_app_le by done. rewrite last_snoc. rewrite bool_decide_false; [done|]. congruence.
Qed.

(** A file cut anywhere is repaired to complete lines. *)
Lemma repair_cut v d :
  Forall storable v → d `prefix_of` enc v →
  ∃ w, w `prefix_of` v ∧ repair_jsonl_damage d = enc w ∧
    ∀ a, Forall storable a → enc a `prefix_of` d → a `prefix_of` w.
Proof.
  intros Hv Hd. destruct (cut_file v d Hd) as (w & torn & -> & Hw & Ht).
  assert (Hsw : Forall storable w) by (destruct Hw as [? ->]; by apply Forall_app in Hv as [? _]).
  destruct (decide (torn = [])) as [->|Hne].
  - exists w. split; [done|]. rewrite app_nil_r. split; [|by intros a Ha Hpre; apply (complete_lines a w []); rewrite ?app_nil_r].
    unfold repair_jsonl_damage. destruct (negb _); [done|].
    rewrite <-(app_nil_r (enc w)), file_lines_enc, repair_whole_lines by done. by rewrite app_nil_r.
  - destruct Ht as [->|(e & He & Hpre)]; [done|].
    assert (Hse : storable e).
    { destruct He as [? ->]. apply Forall_app in Hv as [Hv _]. apply Forall_app in Hv as [_ Hv]. by apply Forall_inv in Hv. }
    assert (Hnt : Forall (λ b, b ≠ 10%N) torn).
    { pose proof (line_newline e Hse) as Hl. destruct Hpre as [? Hpre]. rewrite Hpre in Hl. by apply Forall_app in Hl as [? _]. }
    assert (Hrep : repair_jsonl_damage (enc w ++ torn) =
      enc (w ++ (if bool_decide (torn = line e) then [e] else []))).
    { unfold repair_jsonl_damage. rewrite (torn_damaged _ _ Hne Hnt), file_lines_enc, file_lines_torn, repair_whole_lines by done.
      cbn [negb rev app]. assert (is_empty torn = false) as -> by (by destruct torn).
      rewrite (repair_torn e torn Hse Hne Hpre). cbn [fst snd negb].
      rewrite <-repaired_content.
      - rewrite !map_app. by destruct (bool_decide _).
      - apply Forall_app. split; [done|]. destruct (bool_decide _); by constructor. }
    exists (w ++ (if bool_decide (torn = line e) then [e] else [])). split; [destruct (bool_decide _); by rewrite ?app_nil_r|].
    split; [done|]. intros a Ha Hpa. etrans; [by apply (complete_lines a w torn)|by eexists].
Qed.

Lemma open_cut v d h :
  Forall storable v → d `prefix_of` enc v → head v = Some h → valid_session_header h = true →
  ∃ w, w `prefix_of` v ∧ open_entries d = apply_child_usage_attributions w ∧
    ∀ a, Forall storable a → enc a `prefix_of` d → a `prefix_of` w.
Proof.
  intros Hv Hd Hh Hvalid. destruct (repair_cut v d Hv Hd) as (w & Hw & Hr & Ha). exists w. split; [done|]. split; [|done].
  unfold open_entries. rewrite Hr, parse_enc by (destruct Hw as [? ->]; by apply Forall_app in Hv as [? _]).
  destruct w as [|x w]; [done|]. destruct Hw as [r ->]. simpl in Hh. injection Hh as ->. simpl. by rewrite Hvalid.
Qed.

(** ** Runs *)

Definition headed (h : SessionEntry) (v : list SessionEntry) : Prop := head v = Some h.

Lemma attempted_headed V base h o s :
  inv V base s → Forall (headed h) V → Forall (headed h) (attempted o s).
Proof.
  intros H HV. rewrite Forall_forall in HV. pose proof (HV _ (inv_in _ _ _ H)) as Hh.
  assert (Hs : ∀ e, headed h (entries s ++ [e])) by (intros e; unfold headed in *; by destruct (entries s)).
  destruct o as [id ts b|id ts b|id ts target label|f| |id ts f summary| |due]; cbn [attempted];
    try (by repeat constructor).
  - destruct (im_has _ _); by repeat constructor.
  - destruct (match f with Some f => negb (im_has f (by_id (index s))) | None => false end); by repeat constructor.
Qed.

Lemma moments_headed V base h ops s :
  inv V base s → Forall (headed h) V → Forall (headed h) (moments ops s).
Proof.
  revert V s. induction ops as [|o ops IH]; intros V s H HV; cbn [moments].
  - constructor; [|constructor]. rewrite Forall_forall in HV. apply HV, (inv_in _ _ _ H).
  - constructor; [rewrite Forall_forall in HV; apply HV, (inv_in _ _ _ H)|].
    pose proof (attempted_headed V base h o s H HV) as Ha. apply Forall_app. split; [done|].
    apply (IH (attempted o s ++ V)); [by apply store_step_inv|]. apply Forall_app. by split.
Qed.

Lemma new_session_inv zero h outcomes :
  is_session_header h = true → inv [[h]] [] (new_session zero h outcomes).
Proof.
  intros Hh. assert (He : entries (new_session zero h outcomes) = [h]).
  { unfold entries, new_session. cbn [index]. by rewrite build_index_loaded. }
  constructor; rewrite ?He; try done; [by left|apply prefix_nil].
Qed.

(** The file is cut from the entries of some moment, of the present one while [flushed] holds. *)
Lemma disk_cut V base s d :
  inv V base s → disk s = Some d → ∃ v, v ∈ V ∧ (flushed s = true → v = entries s) ∧ d `prefix_of` enc v.
Proof.
  intros [Hp Hn Hin Hb Hdk Hz Hh] Hd. unfold holds in Hh. destruct (flushed s).
  - destruct Hh as (d' & Hd' & Hx). rewrite Hd in Hd'. injection Hd' as <-. exists (entries s). split; [done|]. split; [done|].
    destruct (pending_error (buffer s)); [apply Hx|]. rewrite <-Hx. by eexists.
  - destruct Hh as [_ Hh]. destruct (Hh d Hd) as (v & Hv & Hpre). by exists v.
Qed.

Lemma enc_nonempty es : es ≠ [] → enc es ≠ [].
Proof. destruct es as [|e es]; [done|]. intros _. unfold enc. simpl. by destruct (line e). Qed.

Lemma flush_now_clean V base s s' :
  inv V base s → flush_now s = (Ok (), s') → clean s' ∧ index s' = index s ∧ inv V (entries s) s'.
Proof.
  intros H Hf. pose proof (flush_now_spec V base s H) as Hs. rewrite Hf in Hs.
  destruct Hs as (Hi & _ & Hinv & _ & Hc). specialize (Hc eq_refl). split; [done|]. split; [done|].
  assert (He : entries s' = entries s) by (unfold entries; by rewrite Hi).
  destruct Hinv as [? ? ? _ _ _ _]. apply inv_clean; try done. by rewrite He.
Qed.

(** C3: What was flushed is never lost, whatever the disk does afterwards and wherever the
    process stops: once [flush_now] has succeeded, then after any further operations - with
    any pattern of writes that fail, or arrive in part - opening the file repairs it and
    gives entries that begin with everything flushed, and that are a beginning of what the
    session held at some moment of the run, never anything else; while the manager regards
    the file as its own, of what it holds now.  (Usage attributed to messages by later
    entries is filled in on loading.) *)
Theorem flushed_survives_crash zero h outcomes ops1 ops2 s2 :
  let s0 := new_session zero h outcomes in
  let s1 := run ops1 s0 in
  let s3 := run ops2 s2 in
  let V := moments ops2 s2 ++ moments ops1 s0 in
  valid_session_header h = true → flush_now s1 = (Ok (), s2) → Forall (Forall storable) V →
  ∃ d w v, disk s3 = Some d ∧ open_entries d = apply_child_usage_attributions w ∧
    entries s1 `prefix_of` w ∧ w `prefix_of` v ∧ v ∈ V ∧ (flushed s3 = true → v = entries s3).
Proof.
  intros s0 s1 s3 V Hh Hf Hst.
  assert (Hhd : is_session_header h = true) by (apply andb_true_iff in Hh as [? _]; done).
  pose proof (new_session_inv zero h outcomes Hhd) as H0. fold s0 in H0.
  assert (HV1 : Forall (headed h) (moments ops1 s0)) by (apply (moments_headed [[h]] [] h); [done|by repeat constructor]).
  assert (H1 : inv (moments ops1 s0) [] s1).
  { eapply inv_more; [apply (store_run_inv [[h]]), H0|]. intros v [Hv|Hv]%elem_of_app; [done|].
    apply list_elem_of_singleton in Hv as ->. assert (He : entries s0 = [h]).
    { pose proof (inv_in _ _ _ H0) as Hin. by apply list_elem_of_singleton in Hin. }
    rewrite <-He. destruct ops1; by left. }
  destruct (flush_now_clean _ _ _ _ H1 Hf) as (Hc & Hi & H2).
  pose proof (store_run_inv _ _ ops2 _ H2) as H3. fold s3 in H3.
  assert (HV2 : Forall (headed h) V).
  { apply Forall_app. split; [|done]. by apply (moments_headed (moments ops1 s0) (entries s1)). }
  destruct (disk s3) as [d|] eqn:Hd.
  2:{ pose proof (inv_disk _ _ _ H3) as Hx. rewrite Hd in Hx. apply prefix_nil_inv in Hx.
      by apply enc_nonempty in Hx; [|apply (inv_nonempty _ _ _ H1)]. }
  destruct (disk_cut _ _ _ _ H3 Hd) as (v & Hv & Hflu & Hpre). rewrite Forall_forall in Hst, HV2.
  destruct (open_cut v d h (Hst v Hv) Hpre (HV2 v Hv) Hh) as (w & Hw & Hopen & Hall).
  exists d, w, v. do 2 (split; [done|]). split; [|done]. apply Hall.
  - apply Hst, elem_of_app. right. apply (inv_in _ _ _ H1).
  - pose proof (inv_disk _ _ _ H3) as Hx. by rewrite Hd in Hx.
Qed.

(** ** Recovery *)

(** All writes succeed from now on, and no error of a drain is pending on a file in use. *)
Definition healthy (s : Store) : Prop := io s = [] ∧ (flushed s = true → pending_error (buffer s) = None).

Lemma write_payload_healthy payload s : io s = [] → let '(r, s') := write_payload payload s in r = Ok () ∧ healthy s'.
Proof. intros H. unfold write_payload, append_bytes, next_io. rewrite H. by destruct (disk s). Qed.

Lemma rewrite_and_mark_healthy s :
  persisting s = true → io s = [] → let '(r, s') := rewrite_and_mark s in r = Ok () ∧ healthy s'.
Proof. intros Hp H. unfold rewrite_and_mark, rewrite_file, next_io. by rewrite Hp, H. Qed.

Lemma flush_now_healthy s : persisting s = true → healthy s → (flush_now s).1 = Ok ().
Proof.
  intros Hp [Hio Hpe]. unfold flush_now. rewrite Hp. cbn [negb].
  destruct (flushed s) eqn:Hf; cbn [andb].
  - destruct (on_disk s).
    + unfold drain, nothing_to_write. destruct (is_empty _); [by rewrite Hpe|].
      pose proof (write_payload_healthy (b_bytes (buffer s)) s Hio) as Hw. destruct (write_payload _ s). apply Hw.
    + pose proof (rewrite_and_mark_healthy s Hp Hio) as Hw. destruct (rewrite_and_mark s). apply Hw.
  - pose proof (rewrite_and_mark_healthy s Hp Hio) as Hw. destruct (rewrite_and_mark s). apply Hw.
Qed.

(** An append that fails leaves a manager that will rewrite. *)
Lemma append_entry_healthy V base e s : inv V base s → io s = [] → healthy (append_entry e s).2.
Proof.
  intros H Hio. unfold append_entry, persist. cbn [persisting with_index]. rewrite (inv_persisting _ _ _ H). cbn [negb].
  destruct (_ && _ && _) eqn:Eskip.
  { apply andb_true_iff in Eskip as [Eskip _]. apply andb_true_iff in Eskip as [Eskip _]. simpl in Eskip.
    split; [done|]. simpl. intros Hf. by rewrite Hf in Eskip. }
  destruct (_ || _) eqn:Erw.
  { pose proof (rewrite_and_mark_healthy (grown s e) (inv_persisting _ _ _ H) Hio) as Hw.
    destruct (rewrite_and_mark _) as [r s1]. by destruct Hw as [-> Hw]. }
  apply orb_false_iff in Erw as [Hf _]. apply negb_false_iff in Hf. simpl in Hf.
  unfold buffer_persist_line. cbn [next_epoch with_index zero_period]. destruct (zero_period s) eqn:Hz.
  - destruct (inv_zero _ _ _ H Hz Hf) as [Hpe Hbb]. unfold drain_through. simpl. rewrite Hbb. cbn [app].
    destruct (is_empty _) eqn:Ee; [by destruct (line e)|].
    pose proof (write_payload_healthy (line e ++ [10%N]) (next_epoch (grown s e)) Hio) as Hw. cbn [next_epoch with_index] in Hw.
    destruct (write_payload _ _) as [r s1]. by destruct Hw as [-> Hw].
  - unfold push_line. simpl. destruct (pending_error (buffer s)) as [err|] eqn:Hpe; [by split|].
    destruct (_ <=? _)%N; [|split; [done|]; intros _; simpl; by rewrite Hpe].
    unfold drain. destruct (is_empty _) eqn:Ee; [|].
    + unfold nothing_to_write. simpl. rewrite Hpe. split; [done|]. intros _. simpl. by rewrite Hpe.
    + match goal with |- context [write_payload ?p ?x] => pose proof (write_payload_healthy p x Hio) as Hw;
        destruct (write_payload p x) as [r s1] end. by destruct Hw as [-> Hw].
Qed.

(** C10: The manager recovers by itself: after any operations with any failures, once writes
    succeed again, one more append - whatever it reports - and a flush bring the file to
    exactly the entries of the session, the new one included. *)
Theorem store_recovers zero h outcomes ops e :
  let s := run ops (new_session zero h outcomes) in
  is_session_header h = true → io s = [] →
  ∃ s', flush_now (append_entry e s).2 = (Ok (), s') ∧ entries s' = entries s ++ [e] ∧
    disk s' = Some (file_content (entries s')) ∧ b_bytes (buffer s') = [].
Proof.
  intros s Hh Hio. pose proof (store_run_inv _ _ ops _ (new_session_inv zero h outcomes Hh)) as H. fold s in H.
  pose proof (append_entry_healthy _ _ e s H Hio) as Hhl. pose proof (append_entry_spec _ _ s e H) as Ha.
  destruct (append_entry e s) as [r s1]. destruct Ha as (Hi & _ & Ha & _). cbn [snd] in *.
  pose proof (flush_now_healthy s1 (inv_persisting _ _ _ Ha) Hhl) as Hf.
  destruct (flush_now s1) as [r' s'] eqn:Efl. cbn [fst] in Hf. subst r'. exists s'.
  destruct (flush_now_clean _ _ _ _ Ha Efl) as ((_ & Hd & Hb & _) & Hi' & Hinv').
  assert (He : entries s' = entries s ++ [e]) by (unfold entries; by rewrite Hi', Hi).
  do 2 (split; [done|]). rewrite Hd, file_content_enc; [done|]. apply (inv_nonempty _ _ _ Hinv').
Qed.

(** ** What a failed flush leaves *)

(** The error of a background flush is reported by every later [flush_now], also when the
    disk is well again, and nothing is tried. *)
Fact flush_error_sticks e s :
  persisting s = true → flushed s = true → on_disk s = true → b_bytes (buffer s) = [] →
  pending_error (buffer s) = Some e → flush_now s = (Err e, s).
Proof.
  intros Hp Hf Hd Hb He. unfold flush_now. rewrite Hp, Hf, Hd. unfold drain, nothing_to_write. by rewrite Hb, He.
Qed.

(** A drain that fails drops what was buffered. *)
Fact failed_drain_drops e s s' : drain s = (Err e, s') → b_bytes (buffer s') = [].
Proof.
  unfold drain, nothing_to_write, write_payload. destruct (is_empty (b_bytes (buffer s))) eqn:Eb.
  - destruct (pending_error (buffer s)); [|done]. intros [= _ <-]. by destruct (b_bytes (buffer s)).
  - destruct (append_bytes _ s) as [[[]|err] s1]; [done|]. by intros [= _ <-].
Qed.

(** A label whose entry could not be written stays in the session, without its effect. *)
Fact failed_label_not_set id ts target label e s s' :
  append_label_change id ts target label s = (Err e, s') → im_has target (by_id (index s)) = true →
  labels_by_id (index s') = labels_by_id (index s).
Proof.
  intros H Ht. unfold append_label_change in H. rewrite Ht in H.
  assert (Hi : ∀ x s1, index (append_entry x s1).2 = index_entry x (index s1)).
  { intros x s1. unfold append_entry.
    assert (Hp : index (persist x (grown s1 x)).2 = index_entry x (index s1)).
    { assert (Hw : ∀ p s2, index (write_payload p s2).2 = index s2).
      { intros p s2. unfold write_payload, append_bytes. by destruct (next_io s2) as [[] ?]. }
      assert (Hd : ∀ s2, index (drain s2).2 = index s2).
      { intros s2. unfold drain, nothing_to_write. destruct (is_empty _); [|apply Hw]. by destruct (pending_error _). }
      assert (Hr : ∀ s2, index (rewrite_and_mark s2).2 = index s2).
      { intros s2. unfold rewrite_and_mark, rewrite_file. destruct (negb _); [done|]. by destruct (next_io s2) as [[] ?]. }
      unfold persist. destruct (negb _); [done|]. destruct (_ && _ && _); [done|]. destruct (_ || _); [apply Hr|].
      unfold buffer_persist_line. cbn [next_epoch zero_period with_index]. destruct (zero_period s1).
      - unfold drain_through, nothing_to_write. destruct (is_empty _); [|apply Hw]. by destruct (pending_error _).
      - unfold push_line. destruct (pending_error _); [done|]. destruct (_ <=? _)%N; [apply Hd|done]. }
    destruct (persist _ _) as [[[]|err] s2]; exact Hp. }
  specialize (Hi (new_entry id ts (LabelEntry target label) (index s)) s).
  destruct (append_entry _ s) as [[[]|err] s1]; [done|]. injection H as _ <-. simpl in Hi. by rewrite Hi.
Qed.
End store.
