(* ===== verification/AssistantProtocol.v ===== *)
(** * The protocol of assistant events

    What a stream of [pi_ai::types::AssistantMessageEvent] promises to those who follow it
    (the doc comment of that type): it starts with one [start], ends with one terminal
    event, and every partial message in between is the one before with the event applied to
    it.  Providers are proved to keep the protocol, consumers are proved against it.

    The one thing that changes without an event of its own is the signature of a thinking
    block, so contents are compared without it. *)
From stdpp Require Import base list numbers strings.
From S2P Require Import Prelude RustStr AgentTypes.

Local Open Scope N_scope.

Section protocol.
Context {X : Externals}.

(** A block without the signature of its thinking. *)
Definition unsigned (b : ContentBlock) : ContentBlock :=
  match b with
  | Thinking t => Thinking (mkThinking (thinking t) None (redacted t))
  | b => b
  end.

(** What a message shows. *)
Definition shown (m : AssistantMessage) : list ContentBlock := map unsigned (content m).

Definition with_text (t : TextContent) (s : str) : TextContent := mkText s (text_signature t).
Definition with_thinking (t : ThinkingContent) (s : str) : ThinkingContent :=
  mkThinking s (thinking_signature t) (redacted t).
Definition with_arguments (c : ToolCall) (a : Map) : ToolCall :=
  mkCall (tc_id c) (tc_name c) a (thought_signature c).

(** The event that may follow contents [u], with its partial message: a block is opened at
    the end and, but for redacted thinking and for arguments that come at once, empty; a
    later event of a block names its position and has its kind. *)
Inductive protocol_step (u : list ContentBlock) : AssistantMessageEvent → AssistantMessage → Prop :=
| opens_text t p :
    text t = [] → shown p = u ++ [Text t] → protocol_step u (TextStart (len u) p) p
| adds_text i t d p :
    u !! i = Some (Text t) → shown p = <[i := Text (with_text t (text t ++ d))]> u →
    protocol_step u (TextDelta (N.of_nat i) d p) p
| ends_text i t p :
    u !! i = Some (Text t) → shown p = u → protocol_step u (TextEnd (N.of_nat i) (text t) p) p
| opens_thinking t p :
    thinking t = [] ∨ redacted t = Some true → shown p = u ++ [Thinking t] →
    protocol_step u (ThinkingStart (len u) p) p
| adds_thinking i t d p :
    u !! i = Some (Thinking t) → shown p = <[i := Thinking (with_thinking t (thinking t ++ d))]> u →
    protocol_step u (ThinkingDelta (N.of_nat i) d p) p
| ends_thinking i t p :
    u !! i = Some (Thinking t) → shown p = u → protocol_step u (ThinkingEnd (N.of_nat i) (thinking t) p) p
| opens_call c p :
    shown p = u ++ [ToolCallBlock c] → protocol_step u (ToolCallStart (len u) p) p
| adds_arguments i c a d p :
    u !! i = Some (ToolCallBlock c) → shown p = <[i := ToolCallBlock (with_arguments c a)]> u →
    protocol_step u (ToolCallDelta (N.of_nat i) d p) p
| ends_call i c a p :
    u !! i = Some (ToolCallBlock c) → shown p = <[i := ToolCallBlock (with_arguments c a)]> u →
    protocol_step u (ToolCallEnd (N.of_nat i) (with_arguments c a) p) p
| keeps_alive p : shown p = u → protocol_step u (Keepalive p) p.

Inductive protocol : list ContentBlock → list AssistantMessageEvent → list ContentBlock → Prop :=
| protocol_nil u : protocol u [] u
| protocol_cons u e p es u' :
    protocol_step u e p → protocol (shown p) es u' → protocol u (e :: es) u'.

Lemma protocol_app u es u' es' u'' : protocol u es u' → protocol u' es' u'' → protocol u (es ++ es') u''.
Proof. induction 1; cbn [app]; [done|]. intros. econstructor; eauto. Qed.

Lemma protocol_one u e p : protocol_step u e p → protocol u [e] (shown p).
Proof. intros. econstructor; [done|constructor]. Qed.

(** The last message may have parsed arguments the last partial did not. *)
Definition same_but_arguments (b b' : ContentBlock) : Prop :=
  match b, b' with
  | ToolCallBlock c, ToolCallBlock c' => with_arguments c (arguments c') = c'
  | b, b' => b = b'
  end.

(** A whole stream: nothing but an error, or a start, the events of the blocks and one
    terminal event, whose message has the blocks that were opened. *)
Definition stream_follows_protocol (es : list AssistantMessageEvent) : Prop :=
  (∃ reason m, es = [ErrorEvent reason m]) ∨
  ∃ p mid last u, es = Start p :: mid ++ [last] ∧ content p = [] ∧ protocol [] mid u ∧
    match last with
    | Done reason m => Forall2 same_but_arguments u (shown m) ∧ stop_reason m = reason
    | ErrorEvent reason m => Forall2 same_but_arguments u (shown m) ∧ stop_reason m = reason
    | _ => False
    end.

End protocol.
