(* ===== verification/JsonText.v ===== *)
(** * JSON texts

    The values of [serde_json] as the sources use them ([Value], and [Map] with its
    [preserve_order] feature), the grammar of JSON texts (RFC 8259) as inductive
    relations, what a text denotes, and the interface of [serde_json::from_str], which is
    not among the sources: it accepts only JSON texts, gives them the value they denote,
    and accepts every string literal and every number.  [serde_scalars] is a decoder of
    scalars that satisfies the interface. *)
From stdpp Require Import base list numbers gmap sorting strings.
From S2P Require Import Prelude RustStr.

Local Open Scope N_scope.

Abbreviation QUOTE := 34 (only parsing).
Abbreviation BACKSLASH := 92 (only parsing).
Abbreviation COMMA := 44 (only parsing).
Abbreviation COLON := 58 (only parsing).
Abbreviation LBRACKET := 91 (only parsing).
Abbreviation RBRACKET := 93 (only parsing).
Abbreviation LBRACE := 123 (only parsing).
Abbreviation RBRACE := 125 (only parsing).
Abbreviation MINUS := 45 (only parsing).

(** ** Values *)

Inductive Value (Num : Type) : Type :=
| Null
| Bool (b : bool)
| Number (n : Num)
| String (s : str)
| Array (l : list (Value Num))
| Object (m : list (str * Value Num)).
Arguments Null {Num}.
Arguments Bool {Num} b.
Arguments Number {Num} n.
Arguments String {Num} s.
Arguments Array {Num} l.
Arguments Object {Num} m.

(** [Map::insert]: a key that is present keeps its place. *)
Fixpoint map_insert {V} (k : str) (v : V) (m : list (str * V)) : list (str * V) :=
  match m with
  | [] => [(k, v)]
  | (k', v') :: m' => if str_eqb k k' then (k', v) :: m' else (k', v') :: map_insert k v m'
  end.

(** The map a sequence of members leaves. *)
Definition from_members {V} (ms : list (str * V)) : list (str * V) :=
  fold_left (λ m '(k, v), map_insert k v m) ms [].

(** ** Characters of the grammar *)

Definition is_blank (c : N) : bool := (c =? 32) || (c =? 10) || (c =? 13) || (c =? 9).
Definition blank (w : str) : Prop := Forall (λ c, is_blank c = true) w.

Definition is_hexdigit (c : N) : bool :=
  is_ascii_digit c || ((65 <=? c) && (c <=? 70)) || ((97 <=? c) && (c <=? 102)).
Definition hex_value (c : N) : N :=
  if is_ascii_digit c then c - 48 else if c <=? 70 then c - 55 else c - 87.
Definition hex4 (a b c d : N) : N :=
  ((hex_value a * 16 + hex_value b) * 16 + hex_value c) * 16 + hex_value d.
Definition hexdigits (a b c d : N) : bool :=
  is_hexdigit a && is_hexdigit b && is_hexdigit c && is_hexdigit d.

(** The character a one-letter escape denotes. *)
Definition unescape (c : N) : option N :=
  if (c =? QUOTE) || (c =? BACKSLASH) || (c =? 47) then Some c
  else if c =? 98 then Some 8 else if c =? 102 then Some 12 else if c =? 110 then Some 10
  else if c =? 114 then Some 13 else if c =? 116 then Some 9 else None.

Definition high_surrogate (n : N) : bool := (55296 <=? n) && (n <? 56320).
Definition low_surrogate (n : N) : bool := (56320 <=? n) && (n <? 57344).

(** ** String literals: the text between the quotes and the string it denotes *)

Inductive literal : str → str → Prop :=
| literal_nil : literal [] []
| literal_plain c b s :
    c ≠ QUOTE → c ≠ BACKSLASH → 32 <= c → literal b s → literal (c :: b) (c :: s)
| literal_escape e c b s :
    unescape e = Some c → literal b s → literal (BACKSLASH :: e :: b) (c :: s)
| literal_unicode h1 h2 h3 h4 b s :
    hexdigits h1 h2 h3 h4 = true →
    high_surrogate (hex4 h1 h2 h3 h4) = false → low_surrogate (hex4 h1 h2 h3 h4) = false →
    literal b s →
    literal (BACKSLASH :: 117 :: h1 :: h2 :: h3 :: h4 :: b) (hex4 h1 h2 h3 h4 :: s)
| literal_pair h1 h2 h3 h4 l1 l2 l3 l4 b s :
    hexdigits h1 h2 h3 h4 = true → high_surrogate (hex4 h1 h2 h3 h4) = true →
    hexdigits l1 l2 l3 l4 = true → low_surrogate (hex4 l1 l2 l3 l4) = true →
    literal b s →
    literal (BACKSLASH :: 117 :: h1 :: h2 :: h3 :: h4
             :: BACKSLASH :: 117 :: l1 :: l2 :: l3 :: l4 :: b)
            (65536 + (hex4 h1 h2 h3 h4 - 55296) * 1024 + (hex4 l1 l2 l3 l4 - 56320) :: s).

(** ** Numbers *)

Fixpoint skip_digits (s : str) : str :=
  match s with
  | c :: s' => if is_ascii_digit c then skip_digits s' else s
  | [] => []
  end.

(** One digit or more. *)
Definition digits1 (s : str) : option str :=
  match s with
  | c :: s' => if is_ascii_digit c then Some (skip_digits s') else None
  | [] => None
  end.

Definition number_exponent (s : str) : bool :=
  match s with
  | [] => true
  | c :: s' =>
      if (c =? 101) || (c =? 69) then
        let s'' := match s' with
                   | d :: r => if (d =? 43) || (d =? MINUS) then r else s'
                   | [] => s'
                   end in
        match digits1 s'' with Some [] => true | _ => false end
      else false
  end.

Definition number_fraction (s : str) : bool :=
  match s with
  | c :: s' => if c =? 46
               then match digits1 s' with Some r => number_exponent r | None => false end
               else number_exponent s
  | [] => true
  end.

Definition number_integer (s : str) : bool :=
  match s with
  | c :: s' => if c =? 48 then number_fraction s'
               else match digits1 s with Some r => number_fraction r | None => false end
  | [] => false
  end.

(** [-? int frac? exp?] *)
Definition json_number (s : str) : bool :=
  match s with
  | c :: s' => if c =? MINUS then number_integer s' else number_integer s
  | [] => false
  end.

(** ** Documents

    A [tree] is what a text says, members in the order written and repeated names
    included; [eval] is the value it denotes. *)
Section grammar.
Context {Num : Type}.

Inductive tree : Type :=
| TNull
| TBool (b : bool)
| TNumber (text : str) (n : Num)
| TString (s : str)
| TArray (l : list tree)
| TObject (l : list (str * tree)).

Fixpoint eval (t : tree) : Value Num :=
  match t with
  | TNull => Null
  | TBool b => Bool b
  | TNumber _ n => Number n
  | TString s => String s
  | TArray l => Array (map eval l)
  | TObject l => Object (from_members (map (λ kt, (kt.1, eval kt.2)) l))
  end.

Definition eval_member (kt : str * tree) : str * Value Num := (kt.1, eval kt.2).

(** [number_value]: the number a number text denotes, when [serde_json] can represent it. *)
Context (number_value : str → option Num).

(** [tight]: no blanks inside the brackets of an empty array. *)
Inductive doc (tight : bool) : tree → str → Prop :=
| doc_null : doc tight TNull (lit "null")
| doc_true : doc tight (TBool true) (lit "true")
| doc_false : doc tight (TBool false) (lit "false")
| doc_number d n :
    json_number d = true → number_value d = Some n → doc tight (TNumber d n) d
| doc_string b s : literal b s → doc tight (TString s) (QUOTE :: b ++ [QUOTE])
| doc_array_empty w :
    blank w → (tight = true → w = []) → doc tight (TArray []) (LBRACKET :: w ++ [RBRACKET])
| doc_array ts b : elements tight ts b → doc tight (TArray ts) (LBRACKET :: b)
| doc_object_empty w : blank w → doc tight (TObject []) (LBRACE :: w ++ [RBRACE])
| doc_object ms b : members tight ms b → doc tight (TObject ms) (LBRACE :: b)
with elements (tight : bool) : list tree → str → Prop :=
| elements_last t w1 d w2 :
    blank w1 → doc tight t d → blank w2 → elements tight [t] (w1 ++ d ++ w2 ++ [RBRACKET])
| elements_cons t ts w1 d w2 r :
    blank w1 → doc tight t d → blank w2 → elements tight ts r →
    elements tight (t :: ts) (w1 ++ d ++ w2 ++ COMMA :: r)
with members (tight : bool) : list (str * tree) → str → Prop :=
| members_last k t w0 b w1 w2 d w3 :
    blank w0 → literal b k → blank w1 → blank w2 → doc tight t d → blank w3 →
    members tight [(k, t)]
      (w0 ++ QUOTE :: b ++ QUOTE :: w1 ++ COLON :: w2 ++ d ++ w3 ++ [RBRACE])
| members_cons k t ms w0 b w1 w2 d w3 r :
    blank w0 → literal b k → blank w1 → blank w2 → doc tight t d → blank w3 →
    members tight ms r →
    members tight ((k, t) :: ms)
      (w0 ++ QUOTE :: b ++ QUOTE :: w1 ++ COLON :: w2 ++ d ++ w3 ++ COMMA :: r).

(** A whole text: a document between blanks. *)
Definition json_text (tight : bool) (t : tree) (p : str) : Prop :=
  ∃ w1 d w2, p = w1 ++ d ++ w2 ∧ blank w1 ∧ doc tight t d ∧ blank w2.

(** What a value shown for a text still being received may be: containers that stop after
    some of their members, the last one possibly incomplete itself, strings cut short, and
    numbers that some first part of a number denotes. *)
Inductive shows : tree → Value Num → Prop :=
| shows_null : shows TNull Null
| shows_bool b : shows (TBool b) (Bool b)
| shows_number d n d' n' :
    d' `prefix_of` d → json_number d' = true → number_value d' = Some n' →
    shows (TNumber d n) (Number n')
| shows_string s s' : s' `prefix_of` s → shows (TString s) (String s')
| shows_array l1 l2 : shows (TArray (l1 ++ l2)) (Array (map eval l1))
| shows_array_in l1 t l2 v :
    shows t v → shows (TArray (l1 ++ t :: l2)) (Array (map eval l1 ++ [v]))
| shows_object l1 l2 :
    shows (TObject (l1 ++ l2)) (Object (from_members (map eval_member l1)))
| shows_object_in l1 k t l2 v :
    shows t v →
    shows (TObject (l1 ++ (k, t) :: l2))
          (Object (from_members (map eval_member l1 ++ [(k, v)]))).

End grammar.
Arguments tree Num : clear implicits.

Scheme doc_mut := Induction for doc Sort Prop
with elements_mut := Induction for elements Sort Prop
with members_mut := Induction for members Sort Prop.
Combined Scheme doc_elements_members_ind from doc_mut, elements_mut, members_mut.

(** ** The interface of [serde_json]

    [from_str::<Value>] accepts JSON texts only, gives an accepted text the value it
    denotes, and accepts every string literal and every representable number.  It may
    refuse other texts (it does when they are nested too deeply). *)
Class SerdeJson (Num : Type) : Type := {
  from_str : str → result (Value Num) str;
  value_to_string : Value Num → str;
  number_value : str → option Num;
  from_str_accepts p v : from_str p = Ok v → ∃ t, json_text number_value false t p;
  from_str_denotes p t v : json_text number_value false t p → from_str p = Ok v → v = eval t;
  from_str_string b s : literal b s → from_str (QUOTE :: b ++ [QUOTE]) = Ok (String s);
  from_str_number d n w :
    json_number d = true → number_value d = Some n → blank w → from_str (d ++ w) = Ok (Number n)
}.

(** ** Facts about the grammar *)

Lemma blank_app a b : blank (a ++ b) ↔ blank a ∧ blank b.
Proof. apply Forall_app. Qed.

Lemma blank_nil : blank [].
Proof. constructor. Qed.

Lemma blank_not_in c w : blank w → is_blank c = false → c ∉ w.
Proof. intros Hw Hc Hin. unfold blank in Hw. rewrite Forall_forall in Hw. by rewrite Hw in Hc. Qed.

#[export] Hint Resolve blank_nil : optimus.

Lemma is_blank_whitespace c : is_blank c = true → is_whitespace c = true.
Proof.
  unfold is_blank. rewrite !orb_true_iff, !N.eqb_eq.
  intros [[[-> | ->]| ->]| ->]; reflexivity.
Qed.

(** What a part of a literal denotes is a part of what the literal denotes. *)
Lemma literal_prefix b s c S : literal b s → literal (b ++ c) S → s `prefix_of` S.
Proof.
  intros H. revert S. induction H as [|x b s Hq Hb Hc H IH|e x b s He H IH
    |h1 h2 h3 h4 b s Hh Hhi Hlo H IH|h1 h2 h3 h4 l1 l2 l3 l4 b s Hh Hhi Hl Hlo H IH];
    intros S HS; [apply prefix_nil|..]; inversion HS; subst; simplify_eq;
    try (cbv in He; congruence); try congruence; by apply prefix_cons, IH.
Qed.

Definition number_char (c : N) : bool :=
  is_ascii_digit c || (c =? MINUS) || (c =? 43) || (c =? 46) || (c =? 101) || (c =? 69).
Abbreviation number_chars := (Forall (λ c, number_char c = true)).

Lemma digit_number_char c : is_ascii_digit c = true → number_char c = true.
Proof. unfold number_char. by intros ->. Qed.

#[local] Hint Resolve digit_number_char : core.

Lemma skip_digits_chars s : number_chars (skip_digits s) → number_chars s.
Proof.
  induction s as [|c s IH]; simpl; [done|]. destruct (is_ascii_digit c) eqn:E; [|done].
  intros H. constructor; auto.
Qed.

Lemma digits1_chars s r : digits1 s = Some r → number_chars r → number_chars s.
Proof.
  destruct s as [|c s]; simpl; [done|]. destruct (is_ascii_digit c) eqn:E; [|done].
  intros [= <-] H. constructor; auto using skip_digits_chars.
Qed.

Lemma number_exponent_chars s : number_exponent s = true → number_chars s.
Proof.
  destruct s as [|c s]; [constructor|]. cbn [number_exponent].
  destruct ((c =? 101) || (c =? 69)) eqn:Hc; [|done]. intros H.
  assert (number_char c = true).
  { apply orb_true_iff in Hc. unfold number_char. rewrite !N.eqb_eq in Hc.
    by destruct Hc as [-> | ->]. }
  constructor; [done|]. destruct s as [|d s]; [constructor|].
  destruct ((d =? 43) || (d =? MINUS)) eqn:Hd.
  - destruct (digits1 s) as [[|]|] eqn:E; [|done..]. constructor.
    + apply orb_true_iff in Hd. unfold number_char. rewrite !N.eqb_eq in Hd.
      by destruct Hd as [-> | ->].
    + eapply digits1_chars; [done|constructor].
  - destruct (digits1 (d :: s)) as [[|]|] eqn:E; [|done..].
    eapply digits1_chars; [done|constructor].
Qed.

Lemma number_fraction_chars s : number_fraction s = true → number_chars s.
Proof.
  destruct s as [|c s]; [constructor|]. cbn [number_fraction].
  destruct (N.eqb_spec c 46) as [->|]; [|apply number_exponent_chars].
  destruct (digits1 s) as [r|] eqn:E; [|done]. intros H%number_exponent_chars.
  constructor; [done|]. by eapply digits1_chars.
Qed.

Lemma number_integer_chars s :
  number_integer s = true →
  number_chars s ∧ ∃ c r, s = c :: r ∧ is_ascii_digit c = true.
Proof.
  destruct s as [|c s]; [done|]. cbn [number_integer].
  destruct (N.eqb_spec c 48) as [->|].
  - intros H%number_fraction_chars. split; [by constructor|]. by exists 48, s.
  - destruct (digits1 (c :: s)) as [r|] eqn:E; [|done]. intros H%number_fraction_chars.
    split; [by eapply digits1_chars|]. exists c, s. split; [done|].
    cbn in E. by destruct (is_ascii_digit c).
Qed.

(** The first character of a number. *)
Definition number_start (c : N) : bool := (c =? MINUS) || is_ascii_digit c.

Lemma json_number_chars d :
  json_number d = true → number_chars d ∧ ∃ c r, d = c :: r ∧ number_start c = true.
Proof.
  destruct d as [|c d]; [done|]. cbn [json_number]. unfold number_start.
  destruct (N.eqb_spec c MINUS) as [->|].
  - intros (H&_)%number_integer_chars. split; [by constructor|]. by exists MINUS, d.
  - intros (H&c'&r&Heq&Hd)%number_integer_chars. simplify_eq.
    split; [done|]. exists c', r. by rewrite Hd, orb_true_r.
Qed.

Lemma number_char_plain c :
  number_char c = true →
  is_blank c = false ∧ c ≠ COMMA ∧ c ≠ RBRACKET ∧ c ≠ RBRACE ∧ c ≠ QUOTE ∧ c ≠ LBRACKET ∧ c ≠ LBRACE.
Proof.
  unfold number_char, is_ascii_digit, is_blank. rewrite !orb_true_iff, andb_true_iff, !N.eqb_eq, !N.leb_le.
  intros H. rewrite !orb_false_iff, !N.eqb_neq. lia.
Qed.

(** The characters a document may start with. *)
Definition doc_start (c : N) : bool :=
  number_start c || (c =? QUOTE) || (c =? LBRACKET) || (c =? LBRACE)
  || (c =? 110) || (c =? 116) || (c =? 102).

Lemma doc_head {Num} (nv : str → option Num) tight t d :
  doc nv tight t d → ∃ c r, d = c :: r ∧ doc_start c = true.
Proof.
  unfold doc_start. destruct 1 as [| | |d n Hd| | | | |]; try by do 2 eexists.
  apply json_number_chars in Hd as (_&c&r&->&Hc). exists c, r. by rewrite Hc.
Qed.

Lemma doc_start_not_blank c : doc_start c = true → is_blank c = false.
Proof.
  unfold doc_start, number_start, is_ascii_digit, is_blank.
  rewrite !orb_true_iff, andb_true_iff, !N.eqb_eq, !N.leb_le.
  rewrite !orb_false_iff, !N.eqb_neq. lia.
Qed.

(** ** What follows from the interface *)
Section serde.
Context {Num : Type} {S : SerdeJson Num}.

(** A text whose first character is not blank starts with its document. *)
Lemma json_text_head {nv : str → option Num} tight t c r :
  is_blank c = false → json_text nv tight t (c :: r) →
  ∃ d w, c :: r = d ++ w ∧ doc nv tight t d ∧ blank w.
Proof.
  intros Hc (w1&d&w2&Heq&Hw1&Hd&Hw2). destruct w1 as [|x w1]; [by exists d, w2|].
  inversion Hw1; subst. simplify_eq/=. congruence.
Qed.

Lemma from_str_empty v : from_str [] ≠ Ok v.
Proof.
  intros (t&w1&d&w2&Heq&_&(c&r&->&_)%doc_head&_)%from_str_accepts.
  by destruct w1.
Qed.

Lemma from_str_quoted b v :
  from_str (QUOTE :: b ++ [QUOTE]) = Ok v → ∃ s, v = String s ∧ literal b s.
Proof.
  intros Hok. destruct (from_str_accepts _ _ Hok) as [t Ht].
  rewrite (from_str_denotes _ _ _ Ht Hok).
  apply json_text_head in Ht as (d&w&Heq&Hd&Hw); [|done].
  inversion Hd; subst; simplify_eq/=;
    try (match goal with H : json_number _ = true |- _ =>
      apply json_number_chars in H as (?&?&?&->&?); simplify_eq/=; done end).
  destruct w as [|x w _] using rev_ind.
  - rewrite app_nil_r in Heq. apply app_inj_tail in Heq as [-> _]. eauto.
  - rewrite app_assoc in Heq. apply app_inj_tail in Heq as [_ <-].
    apply blank_app in Hw as [_ Hx]. by inversion Hx.
Qed.

Lemma from_str_numeral c r v :
  number_start c = true → from_str (c :: r) = Ok v →
  ∃ d n w, c :: r = d ++ w ∧ json_number d = true ∧ number_value d = Some n ∧
    blank w ∧ v = Number n.
Proof.
  intros Hc Hok. destruct (from_str_accepts _ _ Hok) as [t Ht].
  rewrite (from_str_denotes _ _ _ Ht Hok).
  apply json_text_head in Ht as (d&w&Heq&Hd&Hw);
    [|by apply doc_start_not_blank; unfold doc_start; rewrite Hc].
  inversion Hd; subst; simplify_eq/=. eauto 10.
Qed.

End serde.

(** ** A decoder of scalars, an instance of the interface *)

Fixpoint decode_literal (b : str) : option str :=
  match b with
  | [] => Some []
  | c :: b1 =>
      if c =? BACKSLASH then
        match b1 with
        | [] => None
        | e :: b2 =>
            if e =? 117 then
              match b2 with
              | h1 :: h2 :: h3 :: h4 :: b3 =>
                  let h := hex4 h1 h2 h3 h4 in
                  if negb (hexdigits h1 h2 h3 h4) || low_surrogate h then None
                  else if high_surrogate h then
                    match b3 with
                    | x :: y :: l1 :: l2 :: l3 :: l4 :: b4 =>
                        let l := hex4 l1 l2 l3 l4 in
                        if (x =? BACKSLASH) && (y =? 117) && hexdigits l1 l2 l3 l4
                           && low_surrogate l
                        then cons (65536 + (h - 55296) * 1024 + (l - 56320)) <$> decode_literal b4
                        else None
                    | _ => None
                    end
                  else cons h <$> decode_literal b3
              | _ => None
              end
            else match unescape e with
                 | Some x => cons x <$> decode_literal b2
                 | None => None
                 end
        end
      else if (c =? QUOTE) || (c <? 32) then None
      else cons c <$> decode_literal b1
  end.

Lemma surrogates_disjoint h : high_surrogate h = true → low_surrogate h = false.
Proof.
  unfold high_surrogate, low_surrogate. rewrite andb_true_iff, andb_false_iff.
  rewrite N.leb_le, N.ltb_lt, N.leb_gt, N.ltb_ge. lia.
Qed.

Lemma decode_literal_complete b s : literal b s → decode_literal b = Some s.
Proof.
  induction 1 as [|c b s Hq Hb Hc H IH|e c b s He H IH
    |h1 h2 h3 h4 b s Hh Hhi Hlo H IH|h1 h2 h3 h4 l1 l2 l3 l4 b s Hh Hhi Hl Hlo H IH];
    cbn [decode_literal]; [done|..].
  - apply N.eqb_neq in Hq, Hb. apply N.ltb_ge in Hc. by rewrite Hb, Hq, Hc, IH.
  - destruct (N.eqb_spec e 117) as [->|]; [done|]. by rewrite He, IH.
  - cbn zeta. cbn [N.eqb Pos.eqb]. by rewrite Hh, Hhi, Hlo, IH.
  - cbn zeta. cbn [N.eqb Pos.eqb]. by rewrite Hh, Hhi, Hl, Hlo, (surrogates_disjoint _ Hhi), IH.
Qed.

Lemma fmap_cons_Some (c : N) o (s : str) : cons c <$> o = Some s → ∃ s', o = Some s' ∧ s = c :: s'.
Proof. destruct o; simpl; [intros [= <-]; eauto|done]. Qed.

Lemma decode_literal_sound b s : decode_literal b = Some s → literal b s.
Proof.
  remember (length b) as n eqn:Hn. revert b s Hn.
  induction n as [n IH] using lt_wf_ind. intros b s ->.
  destruct b as [|c b1]; cbn [decode_literal]; [intros [= <-]; constructor|].
  destruct (N.eqb_spec c BACKSLASH) as [->|Hb].
  - destruct b1 as [|e b2]; [done|]. destruct (N.eqb_spec e 117) as [->|].
    + destruct b2 as [|h1 [|h2 [|h3 [|h4 b3]]]]; [done..|]. cbn zeta.
      destruct (hexdigits h1 h2 h3 h4) eqn:Hh; [|done].
      destruct (low_surrogate _) eqn:Hlo; [done|]. cbn [negb orb].
      destruct (high_surrogate _) eqn:Hhi.
      * destruct b3 as [|x [|y [|l1 [|l2 [|l3 [|l4 b4]]]]]]; [done..|].
        destruct (_ && _ && _ && _) eqn:E; [|done].
        rewrite !andb_true_iff, !N.eqb_eq in E. destruct E as [[[-> ->] Hl] Hl'].
        intros (s'&Hs&->)%fmap_cons_Some. apply literal_pair; try done.
        eapply IH; [|reflexivity|done]. simpl. lia.
      * intros (s'&Hs&->)%fmap_cons_Some. apply literal_unicode; try done.
        eapply IH; [|reflexivity|done]. simpl. lia.
    + destruct (unescape e) eqn:He; [|done]. intros (s'&Hs&->)%fmap_cons_Some.
      constructor; [done|]. eapply IH; [|reflexivity|done]. simpl. lia.
  - destruct (N.eqb_spec c QUOTE) as [|Hq]; [done|]. cbn [orb].
    destruct (N.ltb_spec c 32); [done|]. intros (s'&Hs&->)%fmap_cons_Some.
    constructor; try done. eapply IH; [|reflexivity|done]. simpl. lia.
Qed.

Fixpoint nonblank_part (p : str) : str :=
  match p with
  | c :: p' => if is_blank c then [] else c :: nonblank_part p'
  | [] => []
  end.

(** String literals and numbers with blanks after them. *)
Definition scalar_from_str (p : str) : result (Value str) str :=
  match p with
  | c :: r =>
      if c =? QUOTE then
        match strip_suffix_char QUOTE r with
        | Some b => match decode_literal b with
                    | Some s => Ok (String s)
                    | None => Err (lit "invalid string")
                    end
        | None => Err (lit "invalid string")
        end
      else
        let d := nonblank_part p in
        if json_number d && forallb is_blank (drop (length d) p) then Ok (Number d)
        else Err (lit "expected a string or a number")
  | [] => Err (lit "EOF while parsing a value")
  end.

Lemma nonblank_part_app d w :
  number_chars d → blank w → nonblank_part (d ++ w) = d.
Proof.
  intros Hd Hw. induction Hd as [|c d Hc Hd IH]; simpl.
  - destruct Hw as [|c w Hc Hw]; simpl; [done|]. by rewrite Hc.
  - apply number_char_plain in Hc as [-> _]. by rewrite IH.
Qed.

Lemma nonblank_part_prefix p : p = nonblank_part p ++ drop (length (nonblank_part p)) p.
Proof.
  induction p as [|c p IH]; simpl; [done|]. destruct (is_blank c); simpl; [done|]. by f_equal.
Qed.

Lemma scalar_string b s :
  literal b s → scalar_from_str (QUOTE :: b ++ [QUOTE]) = Ok (String s).
Proof.
  intros H. unfold scalar_from_str. cbn [N.eqb Pos.eqb].
  rewrite (proj2 (strip_suffix_char_Some QUOTE (b ++ [QUOTE]) b) eq_refl).
  by rewrite (decode_literal_complete _ _ H).
Qed.

Lemma scalar_number d w :
  json_number d = true → blank w → scalar_from_str (d ++ w) = Ok (Number d).
Proof.
  intros Hd Hw. destruct (json_number_chars _ Hd) as (Hch&c&r&->&Hc). cbn [app scalar_from_str].
  assert (c =? QUOTE = false) as ->.
  { inversion Hch as [|?? H _]; subst. apply number_char_plain in H. apply N.eqb_neq. tauto. }
  cbn zeta. change (c :: r ++ w) with ((c :: r) ++ w).
  rewrite (nonblank_part_app _ _ Hch Hw), Hd, drop_app_length. cbn [andb].
  by rewrite (proj2 (forallb_forall is_blank w)); [|intros x Hx; eapply Forall_forall in Hw;
    [exact Hw|by apply list_elem_of_In]].
Qed.

Lemma scalar_accepts p v : scalar_from_str p = Ok v → ∃ t, json_text Some false t p ∧ v = eval t.
Proof.
  destruct p as [|c r]; [done|]. cbn [scalar_from_str].
  destruct (N.eqb_spec c QUOTE) as [->|].
  - destruct (strip_suffix_char QUOTE r) as [b|] eqn:E; [|done].
    apply strip_suffix_char_Some in E as ->.
    destruct (decode_literal b) as [s|] eqn:E; [|done]. intros [= <-].
    exists (TString s). split; [|done].
    exists [], (QUOTE :: b ++ [QUOTE]), []. rewrite app_nil_r.
    split; [done|]. split; [constructor|]. split; [|constructor].
    constructor. by apply decode_literal_sound.
  - cbn zeta. set (d := nonblank_part (c :: r)).
    destruct (json_number d) eqn:Hd; [|done]. destruct (forallb _ _) eqn:Hw; [|done].
    intros [= <-]. exists (TNumber d d). split; [|done].
    exists [], d, (drop (length d) (c :: r)). split; [apply nonblank_part_prefix|].
    split; [constructor|]. split; [by constructor|].
    apply Forall_forall. intros x Hx. apply list_elem_of_In in Hx.
    by apply (proj1 (forallb_forall _ _) Hw).
Qed.

Lemma scalar_denotes p t v :
  json_text Some false t p → scalar_from_str p = Ok v → v = eval t.
Proof.
  intros Ht Hok. destruct p as [|c r]; [done|].
  destruct (is_blank c) eqn:Hc.
  { destruct (scalar_accepts _ _ Hok) as (t'&_&_). exfalso. revert Hok. cbn [scalar_from_str].
    destruct (N.eqb_spec c QUOTE) as [->|]; [done|]. cbn [nonblank_part]. by rewrite Hc. }
  apply json_text_head in Ht as (d&w&Heq&Hd&Hw); [|done]. rewrite Heq in Hok.
  inversion Hd; subst; cbn [eval]; try discriminate Hok.
  - match goal with H : json_number _ = true |- _ => rewrite (scalar_number _ _ H Hw) in Hok end.
    congruence.
  - destruct w as [|x w _] using rev_ind.
    + rewrite app_nil_r in Hok. rewrite (scalar_string b s) in Hok by done. congruence.
    + exfalso. revert Hok. rewrite app_assoc. cbn [scalar_from_str app N.eqb Pos.eqb].
      destruct (strip_suffix_char QUOTE _) as [b'|] eqn:E; [|done].
      apply strip_suffix_char_Some in E. apply app_inj_tail in E as [_ ->].
      apply blank_app in Hw as [_ Hx]. by inversion Hx.
Qed.

Definition serde_scalars : SerdeJson str := {|
  from_str := scalar_from_str;
  value_to_string _ := [];
  number_value := Some;
  from_str_accepts p v H := let '(ex_intro _ t (conj Ht _)) := scalar_accepts p v H in ex_intro _ t Ht;
  from_str_denotes := scalar_denotes;
  from_str_string := scalar_string;
  from_str_number d n w Hd Hn Hw :=
    eq_trans (scalar_number d w Hd Hw) (f_equal (λ x, Ok (Number x)) (f_equal (default d) Hn))
|}.
