(* ===== verification/JsonCodec.v ===== *)
(** * Values by position

    A simple encoding of options, lists and fields as JSON values, with which the instances
    of the interfaces to derived serialisation code are written. *)
From stdpp Require Import base list numbers strings.
From S2P Require Import Prelude RustStr JsonText.

Section codec.
Context {Num : Type}.
Abbreviation V := (JsonText.Value Num).

Definition opt_value {B} (f : B → V) (o : option B) : V :=
  match o with Some b => JsonText.Array [f b] | None => JsonText.Array [] end.
Definition value_opt {B} (f : V → option B) (v : V) : option (option B) :=
  match v with
  | JsonText.Array [] => Some None
  | JsonText.Array [v] => Some <$> f v
  | _ => None
  end.
Definition value_str (v : V) : option str := match v with JsonText.String s => Some s | _ => None end.
Definition value_bool (v : V) : option bool := match v with JsonText.Bool b => Some b | _ => None end.
Definition value_list {B} (f : V → option B) (v : V) : option (list B) :=
  match v with JsonText.Array l => mapM f l | _ => None end.

Lemma value_opt_value {B} (f : B → V) g o : (∀ b, g (f b) = Some b) → value_opt g (opt_value f o) = Some o.
Proof. intros H. destruct o; cbn; [by rewrite H|done]. Qed.

Lemma value_list_map {B} (f : B → V) g l : (∀ b, g (f b) = Some b) → mapM g (map f l) = Some l.
Proof. intros H. induction l as [|b l IH]; cbn [map mapM]; [done|]. by rewrite H; cbn; rewrite IH. Qed.

Definition or_error {B} (o : option B) : result B str := ok_or o (lit "not encodable").
Lemma or_error_ok {B} (o : option B) b : or_error o = Ok b → o = Some b.
Proof. destruct o; [by intros [= ->]|done]. Qed.

End codec.
