(* ===== verification/JsonRepair.v ===== *)
(** * Repairing JSON texts

    [repair_json] of [pi-ai/src/utils/json_parse.rs]: raw control characters inside strings
    are escaped and the backslash of an unknown escape is doubled.  A scanner that knows
    only strings, escapes and brackets describes where in a text one is; with it, repaired
    texts are exactly the texts the repair leaves alone, JSON texts are among them, and no
    proper part of an object is a JSON text. *)
From stdpp Require Import base list numbers gmap sorting strings.
From S2P Require Import Prelude RustStr JsonText.

Local Open Scope N_scope.

(** ** [repair_json] *)

Definition VALID_JSON_ESCAPES : list N := [QUOTE; BACKSLASH; 47; 98; 102; 110; 114; 116; 117].
Definition valid_json_escape (c : N) : bool := existsb (N.eqb c) VALID_JSON_ESCAPES.

Definition is_control_character (ch : N) : bool := ch <=? 31.

(** A lower-case hexadecimal digit. *)
Definition hex_digit (n : N) : N := if n <? 10 then 48 + n else 87 + n.

Definition escape_control_character (ch : N) : str :=
  if ch =? 8 then lit "\b" else if ch =? 12 then lit "\f" else if ch =? 10 then lit "\n"
  else if ch =? 13 then lit "\r" else if ch =? 9 then lit "\t"
  else lit "\u" ++ [hex_digit (ch / 4096); hex_digit (ch / 256 mod 16);
                    hex_digit (ch / 16 mod 16); hex_digit (ch mod 16)].

(** The loop from a character on, inside a string or not. *)
Fixpoint repair (in_string : bool) (chars : str) : str :=
  match chars with
  | [] => []
  | ch :: rest =>
      if negb in_string then ch :: repair (ch =? QUOTE) rest
      else if ch =? QUOTE then ch :: repair false rest
      else if ch =? BACKSLASH then
        match rest with
        | [] => [BACKSLASH; BACKSLASH]
        | next_char :: rest2 =>
            let other :=
              if valid_json_escape next_char
              then BACKSLASH :: next_char :: repair true rest2
              else BACKSLASH :: BACKSLASH :: repair true rest in
            if next_char =? 117 then
              match rest2 with
              | h1 :: h2 :: h3 :: h4 :: rest6 =>
                  if hexdigits h1 h2 h3 h4
                  then BACKSLASH :: 117 :: h1 :: h2 :: h3 :: h4 :: repair true rest6
                  else other
              | _ => other
              end
            else other
        end
      else if is_control_character ch then escape_control_character ch ++ repair true rest
      else ch :: repair true rest
  end.

Definition repair_json (json : str) : str := repair false json.

(** ** Where in a text one is *)

Inductive mode : Type := Outside | Inside | Escaped.
#[export] Instance mode_eq_dec : EqDecision mode.
Proof. solve_decision. Defined.

Definition mode_step (m : mode) (c : N) : mode :=
  match m with
  | Outside => if c =? QUOTE then Inside else Outside
  | Inside => if c =? QUOTE then Outside else if c =? BACKSLASH then Escaped else Inside
  | Escaped => Inside
  end.
Definition mode_after (m : mode) (s : str) : mode := fold_left mode_step s m.

(** How many brackets are open. *)
Definition depth_step (m : mode) (k : nat) (c : N) : nat :=
  match m with
  | Outside => if (c =? LBRACE) || (c =? LBRACKET) then S k
               else if (c =? RBRACE) || (c =? RBRACKET) then pred k else k
  | _ => k
  end.

Fixpoint depth_after (m : mode) (k : nat) (s : str) : nat :=
  match s with
  | [] => k
  | c :: s' => depth_after (mode_step m c) (depth_step m k c) s'
  end.

(** No character that the repair would have to change. *)
Fixpoint clean (m : mode) (s : str) : bool :=
  match s with
  | [] => true
  | c :: s' =>
      match m with
      | Outside => true
      | Inside => negb (is_control_character c)
      | Escaped => valid_json_escape c
      end && clean (mode_step m c) s'
  end.

Lemma mode_after_app m a b : mode_after m (a ++ b) = mode_after (mode_after m a) b.
Proof. apply fold_left_app. Qed.

Lemma depth_after_app m k a b :
  depth_after m k (a ++ b) = depth_after (mode_after m a) (depth_after m k a) b.
Proof. revert m k. induction a as [|c a IH]; intros m k; simpl; [done|apply IH]. Qed.

Lemma clean_app m a b : clean m (a ++ b) = clean m a && clean (mode_after m a) b.
Proof.
  revert m. induction a as [|c a IH]; intros m; simpl; [done|]. by rewrite IH, andb_assoc.
Qed.

Lemma clean_prefix m p s : p `prefix_of` s → clean m s = true → clean m p = true.
Proof. intros [r ->]. rewrite clean_app, andb_true_iff. tauto. Qed.

(** ** What the repair does, one character at a time *)

Lemma hexdigit_plain c :
  is_hexdigit c = true → c ≠ QUOTE ∧ c ≠ BACKSLASH ∧ is_control_character c = false.
Proof.
  unfold is_hexdigit, is_ascii_digit, is_control_character.
  rewrite !orb_true_iff, !andb_true_iff, !N.leb_le, N.leb_gt. lia.
Qed.

Lemma repair_plain c s :
  c ≠ QUOTE → c ≠ BACKSLASH → is_control_character c = false →
  repair true (c :: s) = c :: repair true s.
Proof. intros Hq Hb Hc. apply N.eqb_neq in Hq, Hb. cbn [repair negb]. by rewrite Hq, Hb, Hc. Qed.

Lemma repair_hexdigits h1 h2 h3 h4 s :
  hexdigits h1 h2 h3 h4 = true →
  repair true (h1 :: h2 :: h3 :: h4 :: s) = h1 :: h2 :: h3 :: h4 :: repair true s.
Proof.
  unfold hexdigits. rewrite !andb_true_iff. intros [[[H1 H2] H3] H4].
  apply hexdigit_plain in H1 as (?&?&?), H2 as (?&?&?), H3 as (?&?&?), H4 as (?&?&?).
  by rewrite !repair_plain.
Qed.

(** The case of [\u] with four digits copies what the case of a known escape would copy. *)
Lemma repair_escape e s :
  repair true (BACKSLASH :: e :: s) =
  if valid_json_escape e then BACKSLASH :: e :: repair true s
  else BACKSLASH :: BACKSLASH :: repair true (e :: s).
Proof.
  change (repair true (BACKSLASH :: e :: s)) with
    (if e =? 117 then
       match s with
       | h1 :: h2 :: h3 :: h4 :: s' =>
           if hexdigits h1 h2 h3 h4
           then BACKSLASH :: 117 :: h1 :: h2 :: h3 :: h4 :: repair true s'
           else if valid_json_escape e then BACKSLASH :: e :: repair true s
                else BACKSLASH :: BACKSLASH :: repair true (e :: s)
       | _ => if valid_json_escape e then BACKSLASH :: e :: repair true s
              else BACKSLASH :: BACKSLASH :: repair true (e :: s)
       end
     else if valid_json_escape e then BACKSLASH :: e :: repair true s
          else BACKSLASH :: BACKSLASH :: repair true (e :: s)).
  destruct (N.eqb_spec e 117) as [->|]; [|done].
  destruct s as [|h1 [|h2 [|h3 [|h4 s']]]]; try done.
  destruct (hexdigits h1 h2 h3 h4) eqn:Hh; [|done].
  by rewrite repair_hexdigits.
Qed.

Lemma repair_control c s :
  is_control_character c = true → repair true (c :: s) = escape_control_character c ++ repair true s.
Proof.
  intros Hc. cbn [repair negb]. rewrite Hc. unfold is_control_character in Hc.
  apply N.leb_le in Hc.
  assert (c =? QUOTE = false) as -> by (apply N.eqb_neq; lia).
  by assert (c =? BACKSLASH = false) as -> by (apply N.eqb_neq; lia).
Qed.

Lemma escape_control_clean c :
  is_control_character c = true →
  clean Inside (escape_control_character c) = true ∧
  mode_after Inside (escape_control_character c) = Inside.
Proof.
  unfold is_control_character. intros Hc%N.leb_le.
  assert (∀ n, n ≤ 31 → clean Inside (escape_control_character n) = true ∧
    mode_after Inside (escape_control_character n) = Inside) as H; [|auto].
  clear c Hc. intros n Hn.
  assert (n = N.of_nat (N.to_nat n)) as -> by lia. assert (N.to_nat n ≤ 31)%nat as H by lia.
  generalize dependent (N.to_nat n). clear n Hn. intros n Hn.
  do 32 (destruct n as [|n]; [by vm_compute|]). lia.
Qed.

(** ** Repaired texts are clean *)

Definition start_mode (in_string : bool) : mode := if in_string then Inside else Outside.

Definition unescaped (m : mode) : mode := match m with Escaped => Inside | _ => m end.

Lemma valid_escape_117 : valid_json_escape 117 = true.
Proof. reflexivity. Qed.

Lemma control_false c : is_control_character c = false ↔ 32 ≤ c.
Proof. unfold is_control_character. rewrite N.leb_gt. lia. Qed.

Lemma repair_spec b s :
  clean (start_mode b) (repair b s) = true ∧
  mode_after (start_mode b) (repair b s) = unescaped (mode_after (start_mode b) s).
Proof.
  remember (length s) as n eqn:Hn. revert b s Hn.
  induction n as [n IH] using lt_wf_ind. intros b s ->.
  assert (∀ b s', (length s' < length s)%nat →
    clean (start_mode b) (repair b s') = true ∧
    mode_after (start_mode b) (repair b s') = unescaped (mode_after (start_mode b) s')) as IH'
    by (intros; by eapply IH).
  clear IH. destruct s as [|c s]; [by destruct b|].
  destruct b.
  2:{ destruct (IH' (c =? QUOTE) s) as [H1 H2]; [simpl; lia|].
      cbn [repair negb clean mode_after fold_left start_mode mode_step andb] in *.
      by destruct (c =? QUOTE). }
  destruct (N.eqb_spec c QUOTE) as [->|Hq].
  { destruct (IH' false s) as [H1 H2]; [simpl; lia|]. by split. }
  destruct (N.eqb_spec c BACKSLASH) as [->|Hb].
  - destruct s as [|e s]; [done|]. rewrite repair_escape.
    destruct (valid_json_escape e) eqn:He.
    + destruct (IH' true s) as [H1 H2]; [simpl; lia|].
      cbn [start_mode clean mode_after fold_left] in *.
      change (mode_step Inside BACKSLASH) with Escaped. cbn [mode_step].
      rewrite He, H1. split; [done|exact H2].
    + destruct (IH' true (e :: s)) as [H1 H2]; [simpl; lia|].
      split; [exact H1|]. etrans; [exact H2|].
      assert (mode_step Inside e = Inside) as Hm.
      { cbn [mode_step]. destruct (N.eqb_spec e QUOTE) as [->|]; [done|].
        by destruct (N.eqb_spec e BACKSLASH) as [->|]. }
      cbn [start_mode mode_after fold_left]. by rewrite Hm.
  - destruct (is_control_character c) eqn:Hc.
    + destruct (IH' true s) as [H1 H2]; [simpl; lia|]. rewrite repair_control by done.
      destruct (escape_control_clean _ Hc) as [H3 H4].
      rewrite clean_app, mode_after_app. cbn [start_mode] in *. rewrite H3, H4, H1, H2.
      split; [done|]. cbn [mode_after fold_left mode_step].
      apply N.eqb_neq in Hq, Hb. by rewrite Hq, Hb.
    + destruct (IH' true s) as [H1 H2]; [simpl; lia|]. rewrite repair_plain by done.
      cbn [start_mode clean mode_after fold_left mode_step] in *.
      apply N.eqb_neq in Hq, Hb. rewrite Hq, Hb, Hc. by split.
Qed.

(** A clean text is left alone, but for a last dangling backslash, which is doubled. *)
Lemma repair_clean_id b s :
  clean (start_mode b) s = true →
  repair b s = match mode_after (start_mode b) s with Escaped => s ++ [BACKSLASH] | _ => s end.
Proof.
  remember (length s) as n eqn:Hn. revert b s Hn.
  induction n as [n IH] using lt_wf_ind. intros b s ->.
  assert (∀ b s', (length s' < length s)%nat → clean (start_mode b) s' = true →
    repair b s' = match mode_after (start_mode b) s' with Escaped => s' ++ [BACKSLASH] | _ => s' end)
    as IH' by (intros; by eapply IH).
  clear IH. destruct s as [|c s]; [by destruct b|]. intros Hcl.
  destruct b.
  2:{ cbn [repair negb]. cbn [start_mode clean mode_step andb mode_after fold_left] in *.
      specialize (IH' (c =? QUOTE) s). destruct (c =? QUOTE);
        (rewrite IH' by (done || simpl; lia)); unfold mode_after; cbn [start_mode];
        by destruct (fold_left _ _ _). }
  destruct (N.eqb_spec c QUOTE) as [->|Hq].
  { cbn [repair negb N.eqb Pos.eqb]. rewrite IH'; [|simpl; lia|done].
    change (mode_after (start_mode true) (QUOTE :: s)) with (mode_after (start_mode false) s).
    by destruct (mode_after _ _). }
  destruct (N.eqb_spec c BACKSLASH) as [->|Hb].
  - destruct s as [|e s]; [done|]. rewrite repair_escape.
    cbn [start_mode clean] in Hcl. change (mode_step Inside BACKSLASH) with Escaped in Hcl.
    apply andb_true_iff in Hcl as [_ [He Hcl]%andb_true_iff]. rewrite He.
    rewrite IH'; [|simpl; lia|done].
    change (mode_after (start_mode true) (BACKSLASH :: e :: s)) with (mode_after (start_mode true) s).
    by destruct (mode_after _ _).
  - cbn [start_mode clean] in Hcl. apply andb_true_iff in Hcl as [Hc%negb_true_iff Hcl].
    assert (mode_step Inside c = Inside) as Hm.
    { apply N.eqb_neq in Hq, Hb. cbn [mode_step]. by rewrite Hq, Hb. }
    rewrite Hm in Hcl. rewrite repair_plain, IH' by (done || simpl; lia).
    unfold mode_after. cbn [start_mode fold_left]. rewrite Hm. by destruct (fold_left _ _ _).
Qed.

(** The repair turns every text into one that is clean - no raw control character and no
    unknown escape inside a string, no dangling backslash - and leaves clean texts alone, so
    repairing twice is repairing once. *)
Theorem repair_normalizes json :
  clean Outside (repair_json json) = true ∧
  mode_after Outside (repair_json json) ≠ Escaped ∧
  repair_json (repair_json json) = repair_json json ∧
  (clean Outside json = true → mode_after Outside json ≠ Escaped → repair_json json = json).
Proof.
  destruct (repair_spec false json) as [Hc Hm]. cbn [start_mode] in *.
  assert (mode_after Outside (repair_json json) ≠ Escaped) as He
    by (unfold repair_json; rewrite Hm; destruct (mode_after Outside json); discriminate).
  assert (∀ s, clean Outside s = true → mode_after Outside s ≠ Escaped → repair_json s = s) as Hid.
  { intros s Hs Hs'. unfold repair_json. rewrite repair_clean_id by done. cbn [start_mode].
    revert Hs'. by destruct (mode_after Outside s). }
  auto.
Qed.

(** ** JSON texts are clean and balanced *)

Lemma prefix_app_cases {A} (p a b : list A) :
  p `prefix_of` a ++ b → p `prefix_of` a ∨ ∃ q, p = a ++ q ∧ q `prefix_of` b.
Proof.
  revert p. induction a as [|x a IH]; intros p H; [right; by exists p|].
  destruct p as [|y p]; [left; apply prefix_nil|]. cbn [app] in H.
  pose proof (prefix_cons_inv_1 _ _ _ _ H) as ->. apply prefix_cons_inv_2 in H.
  destruct (IH _ H) as [Hp|(q&->&Hq)]; [left; by apply prefix_cons|right; by exists q].
Qed.

(** A stretch of text outside strings that closes what it opens and nothing else. *)
Definition level (d : str) : Prop := ∀ k,
  clean Outside d = true ∧ mode_after Outside d = Outside ∧ depth_after Outside k d = k ∧
  ∀ p, p `prefix_of` d → (k ≤ depth_after Outside k p)%nat.

Lemma level_nil : level [].
Proof. intros k. split; [done|]. do 2 (split; [done|]). by intros p ->%prefix_nil_inv. Qed.

Lemma level_app a b : level a → level b → level (a ++ b).
Proof.
  intros Ha Hb k. destruct (Ha k) as (Ha1&Ha2&Ha3&Ha4), (Hb k) as (Hb1&Hb2&Hb3&Hb4).
  rewrite clean_app, mode_after_app, depth_after_app, Ha1, Ha2, Ha3.
  split; [done|]. do 2 (split; [done|]). intros p [Hp|(q&->&Hq)]%prefix_app_cases; [auto|].
  rewrite depth_after_app, Ha2, Ha3. auto.
Qed.

Definition plain_char (c : N) : bool :=
  negb ((c =? QUOTE) || (c =? LBRACE) || (c =? LBRACKET) || (c =? RBRACE) || (c =? RBRACKET)).

Lemma level_char c : plain_char c = true → level [c].
Proof.
  unfold plain_char. rewrite negb_true_iff, !orb_false_iff. intros ((((H1&H2)&H3)&H4)&H5) k.
  unfold mode_after. cbn [clean fold_left mode_step depth_after depth_step andb].
  rewrite H1, H2, H3, H4, H5. split; [done|]. do 2 (split; [done|]).
  intros [|x p] Hp; [simpl; lia|].
  pose proof (prefix_cons_inv_1 _ _ _ _ Hp) as ->.
  apply prefix_cons_inv_2, prefix_nil_inv in Hp as ->.
  cbn [depth_after depth_step]. rewrite H2, H3, H4, H5. done.
Qed.

Lemma level_chars s : Forall (λ c, plain_char c = true) s → level s.
Proof.
  induction 1 as [|c s Hc Hs IH]; [apply level_nil|].
  apply (level_app [c] s); [by apply level_char|done].
Qed.

Lemma level_blank w : blank w → level w.
Proof.
  intros H. apply level_chars. eapply Forall_impl; [exact H|]. intros c.
  unfold is_blank, plain_char. rewrite !orb_true_iff, !N.eqb_eq. by intros [[[-> | ->]| ->]| ->].
Qed.

Lemma level_number d : json_number d = true → level d.
Proof.
  intros [H _]%json_number_chars. apply level_chars. eapply Forall_impl; [exact H|]. intros c Hc.
  apply number_char_plain in Hc as (_&_&?&?&?&?&?). unfold plain_char.
  rewrite negb_true_iff, !orb_false_iff, !N.eqb_neq. tauto.
Qed.

(** Inside a string: no character is a bracket. *)
Fixpoint quiet (m : mode) (s : str) : Prop :=
  match s with [] => True | c :: s' => m ≠ Outside ∧ quiet (mode_step m c) s' end.

Lemma quiet_depth m k s p : quiet m s → p `prefix_of` s → depth_after m k p = k.
Proof.
  revert m s. induction p as [|c p IH]; intros m s Hs Hp; [done|].
  destruct s as [|c' s]; [by apply prefix_nil_not in Hp|].
  pose proof (prefix_cons_inv_1 _ _ _ _ Hp) as ->. apply prefix_cons_inv_2 in Hp.
  destruct Hs as [Hm Hs]. cbn [depth_after]. destruct m; [done|..]; by eapply IH.
Qed.

Lemma quiet_app m a b : quiet m (a ++ b) ↔ quiet m a ∧ quiet (mode_after m a) b.
Proof.
  revert m. induction a as [|c a IH]; intros m; simpl; [tauto|]. rewrite IH. tauto.
Qed.

Definition string_body (b : str) : Prop :=
  clean Inside b = true ∧ mode_after Inside b = Inside ∧ quiet Inside b.

Lemma string_body_app a b : string_body a → string_body b → string_body (a ++ b).
Proof.
  intros (Ha1&Ha2&Ha3) (Hb1&Hb2&Hb3). unfold string_body.
  by rewrite clean_app, mode_after_app, quiet_app, Ha1, Ha2.
Qed.

Lemma string_body_plain c :
  c ≠ QUOTE → c ≠ BACKSLASH → is_control_character c = false → string_body [c].
Proof.
  intros Hq Hb Hc. apply N.eqb_neq in Hq, Hb. unfold string_body, mode_after.
  cbn [clean fold_left mode_step quiet]. by rewrite Hq, Hb, Hc.
Qed.

Lemma string_body_escape e : valid_json_escape e = true → string_body [BACKSLASH; e].
Proof. intros He. unfold string_body. cbn. unfold valid_json_escape in He. cbn in He. by rewrite He. Qed.

Lemma string_body_hexdigits h1 h2 h3 h4 : hexdigits h1 h2 h3 h4 = true → string_body [h1; h2; h3; h4].
Proof.
  unfold hexdigits. rewrite !andb_true_iff. intros [[[H1 H2] H3] H4].
  apply hexdigit_plain in H1 as (?&?&?), H2 as (?&?&?), H3 as (?&?&?), H4 as (?&?&?).
  apply (string_body_app [h1]); [by apply string_body_plain|].
  apply (string_body_app [h2]); [by apply string_body_plain|].
  apply (string_body_app [h3]); by apply string_body_plain.
Qed.

Lemma unescape_valid e c : unescape e = Some c → valid_json_escape e = true.
Proof.
  unfold unescape, valid_json_escape. cbn [existsb VALID_JSON_ESCAPES].
  destruct (e =? QUOTE), (e =? BACKSLASH), (e =? 47), (e =? 98), (e =? 102), (e =? 110),
    (e =? 114), (e =? 116); done.
Qed.

Lemma literal_body b s : literal b s → string_body b.
Proof.
  induction 1 as [|c b s Hq Hb Hc H IH|e c b s He H IH
    |h1 h2 h3 h4 b s Hh Hhi Hlo H IH|h1 h2 h3 h4 l1 l2 l3 l4 b s Hh Hhi Hl Hlo H IH].
  - done.
  - apply (string_body_app [c]); [|done]. by apply string_body_plain, control_false.
  - apply (string_body_app [BACKSLASH; e]); [|done]. by eapply string_body_escape, unescape_valid.
  - apply (string_body_app [BACKSLASH; 117]); [by apply string_body_escape|].
    by apply (string_body_app [h1; h2; h3; h4]); [apply string_body_hexdigits|].
  - apply (string_body_app [BACKSLASH; 117]); [by apply string_body_escape|].
    apply (string_body_app [h1; h2; h3; h4]); [by apply string_body_hexdigits|].
    apply (string_body_app [BACKSLASH; 117]); [by apply string_body_escape|].
    by apply (string_body_app [l1; l2; l3; l4]); [apply string_body_hexdigits|].
Qed.

Lemma level_literal b s : literal b s → level (QUOTE :: b ++ [QUOTE]).
Proof.
  intros (Hc&Hm&Hq)%literal_body k. cbn [clean andb depth_after].
  change (mode_step Outside QUOTE) with Inside. change (depth_step Outside k QUOTE) with k.
  change (mode_after Outside (QUOTE :: b ++ [QUOTE])) with (mode_after Inside (b ++ [QUOTE])).
  assert (depth_after Inside k b = k) as Hd by by apply (quiet_depth _ _ b).
  rewrite clean_app, mode_after_app, depth_after_app, Hc, Hm, Hd.
  split; [done|]. do 2 (split; [done|]).
  intros [|c p] Hp; [simpl; lia|].
  pose proof (prefix_cons_inv_1 _ _ _ _ Hp) as ->. apply prefix_cons_inv_2 in Hp.
  cbn [depth_after]. change (mode_step Outside QUOTE) with Inside.
  change (depth_step Outside k QUOTE) with k.
  apply prefix_app_cases in Hp as [Hp|(q&->&Hp)]; [by erewrite quiet_depth|].
  rewrite depth_after_app, Hm, Hd. destruct q as [|x q]; [done|].
  pose proof (prefix_cons_inv_1 _ _ _ _ Hp) as ->.
  by apply prefix_cons_inv_2, prefix_nil_inv in Hp as ->.
Qed.

(** Every proper part of the text leaves a bracket open. *)
Definition enclosed (d : str) : Prop := ∀ k p,
  p `prefix_of` d → p ≠ [] → p ≠ d → (k < depth_after Outside k p)%nat.

Definition bracket_pair (o c : N) : Prop :=
  (o = LBRACE ∧ c = RBRACE) ∨ (o = LBRACKET ∧ c = RBRACKET).

Lemma level_bracketed o c b : bracket_pair o c → level b → level (o :: b ++ [c]) ∧ enclosed (o :: b ++ [c]).
Proof.
  intros Hoc Hb.
  assert (mode_step Outside o = Outside ∧ mode_step Outside c = Outside ∧
    (∀ k, depth_step Outside k o = S k) ∧ (∀ k, depth_step Outside (S k) c = k)) as (Ho&Hc&Hdo&Hdc)
    by (by destruct Hoc as [[-> ->]|[-> ->]]).
  assert (∀ k p, p `prefix_of` b → (k < depth_after Outside k (o :: p))%nat) as Hin.
  { intros k p Hp. cbn [depth_after]. rewrite Ho, Hdo.
    destruct (Hb (S k)) as (_&_&_&H). specialize (H _ Hp). lia. }
  assert (enclosed (o :: b ++ [c])) as Henc.
  { intros k [|x p] Hp Hne Hnd; [done|].
    pose proof (prefix_cons_inv_1 _ _ _ _ Hp) as ->. apply prefix_cons_inv_2 in Hp.
    apply prefix_app_cases in Hp as [Hp|(q&->&Hq)]; [auto|].
    destruct q as [|y q]; [rewrite app_nil_r; by apply Hin|].
    pose proof (prefix_cons_inv_1 _ _ _ _ Hq) as ->.
    by apply prefix_cons_inv_2, prefix_nil_inv in Hq as ->. }
  split; [|exact Henc]. intros k. destruct (Hb (S k)) as (Hb1&Hb2&Hb3&Hb4).
  assert (depth_after Outside k (o :: b ++ [c]) = k) as Hd.
  { cbn [depth_after]. rewrite Ho, Hdo, depth_after_app, Hb2, Hb3. cbn [depth_after]. apply Hdc. }
  cbn [clean andb]. unfold mode_after. cbn [fold_left]. rewrite Ho.
  change (fold_left mode_step (b ++ [c]) Outside) with (mode_after Outside (b ++ [c])).
  rewrite clean_app, mode_after_app, Hb1, Hb2, Hd.
  split; [done|]. split; [exact Hc|]. split; [done|].
  intros p Hp. destruct (decide (p = [])) as [->|Hne]; [done|].
  destruct (decide (p = o :: b ++ [c])) as [->|Hnd]; [by rewrite Hd|].
  specialize (Henc k p Hp Hne Hnd). lia.
Qed.

#[local] Hint Resolve level_app level_blank level_nil level_number : core.

Lemma level_member w0 b k w1 w2 d w3 :
  blank w0 → literal b k → blank w1 → blank w2 → level d → blank w3 →
  level (w0 ++ QUOTE :: b ++ QUOTE :: w1 ++ COLON :: w2 ++ d ++ w3).
Proof.
  intros Hw0 Hb Hw1 Hw2 Hd Hw3. apply level_app; [auto|].
  replace (QUOTE :: b ++ QUOTE :: w1 ++ COLON :: w2 ++ d ++ w3)
    with ((QUOTE :: b ++ [QUOTE]) ++ w1 ++ [COLON] ++ w2 ++ d ++ w3)
    by (simpl; by rewrite <-app_assoc).
  apply level_app; [by eapply level_literal|]. apply level_app; [auto|].
  apply level_app; [by apply level_char|]. auto.
Qed.

Section documents.
Context {Num : Type} (nv : str → option Num) (tight : bool).

Lemma grammar_level :
  (∀ t d, doc nv tight t d → level d) ∧
  (∀ ts b, elements nv tight ts b → ∃ b', b = b' ++ [RBRACKET] ∧ level b') ∧
  (∀ ms b, members nv tight ms b → ∃ b', b = b' ++ [RBRACE] ∧ level b').
Proof.
  apply doc_elements_members_ind; intros.
  - by apply level_chars; repeat constructor.
  - by apply level_chars; repeat constructor.
  - by apply level_chars; repeat constructor.
  - auto.
  - by eapply level_literal.
  - apply level_bracketed; [by right|auto].
  - destruct H as (b'&->&Hb). apply level_bracketed; [by right|auto].
  - apply level_bracketed; [by left|auto].
  - destruct H as (b'&->&Hb). apply level_bracketed; [by left|auto].
  - exists (w1 ++ d ++ w2). rewrite <-!app_assoc. auto.
  - destruct H0 as (b'&->&Hb). exists (w1 ++ d ++ w2 ++ COMMA :: b').
    rewrite <-!app_assoc. split; [done|]. do 3 (apply level_app; [auto|]).
    apply (level_app [COMMA]); [by apply level_char|done].
  - eexists (w0 ++ QUOTE :: b ++ QUOTE :: w1 ++ COLON :: w2 ++ d ++ w3).
    split; [|by eapply level_member]. by repeat (rewrite <-app_assoc; simpl).
  - destruct H0 as (b'&->&Hb).
    exists ((w0 ++ QUOTE :: b ++ QUOTE :: w1 ++ COLON :: w2 ++ d ++ w3) ++ COMMA :: b').
    split; [by repeat (rewrite <-app_assoc; simpl)|].
    apply level_app; [by eapply level_member|].
    apply (level_app [COMMA]); [by apply level_char|done].
Qed.

Lemma object_enclosed ms d : doc nv tight (TObject ms) d → enclosed d.
Proof.
  inversion 1 as [| | | | | | |w Hw|? b Hb]; subst.
  - apply level_bracketed; [by left|auto].
  - apply (proj2 (proj2 grammar_level)) in Hb as (b'&->&Hb').
    apply level_bracketed; [by left|auto].
Qed.

Lemma json_text_level t p : json_text nv tight t p → level p.
Proof. intros (w1&d&w2&->&Hw1&Hd%(proj1 grammar_level)&Hw2). auto. Qed.

End documents.

(** The only part of the text of an object that is a JSON text is the whole text, but for
    the blanks after it. *)
Lemma object_text_parts {Num} (nv : str → option Num) ti ti' ms w1 d w2 p t :
  blank w1 → doc nv ti (TObject ms) d → p `prefix_of` w1 ++ d ++ w2 →
  json_text nv ti' t p → ∃ w, p = w1 ++ d ++ w ∧ w `prefix_of` w2.
Proof.
  intros Hw1 Hd Hp Ht. pose proof (json_text_level _ _ _ _ Ht 0%nat) as (_&Hm&Hdep&_).
  assert (¬ blank p) as Hnb.
  { intros Hb. destruct Ht as (w1'&d'&w2'&->&_&(c&r&->&Hc)%doc_head&_).
    apply blank_app in Hb as [_ Hb]. inversion Hb as [|?? H _].
    rewrite (doc_start_not_blank _ Hc) in H. done. }
  apply prefix_app_cases in Hp as [Hp|(q&->&Hq)].
  { destruct Hp as [r ->]. apply blank_app in Hw1. tauto. }
  apply prefix_app_cases in Hq as [Hq|(r&->&Hr)]; [|by exists r].
  destruct (decide (q = [])) as [->|Hne]; [by rewrite app_nil_r in Hnb|].
  destruct (decide (q = d)) as [->|Hnd].
  { exists []. split; [by rewrite app_nil_r|apply prefix_nil]. }
  exfalso. destruct (level_blank _ Hw1 0%nat) as (_&Hm1&Hd1&_).
  rewrite depth_after_app, Hm1, Hd1 in Hdep.
  pose proof (object_enclosed _ _ _ _ Hd 0%nat q Hq Hne Hnd). lia.
Qed.
