(* ===== verification/PartialJson.v ===== *)
(** * The parser of incomplete JSON

    [partial_json_crate] of [pi-ai/src/utils/json_parse.rs], the port of the
    [partial-json] parser: a recursive descent over the characters of a text that gives
    what has been received of a value.  The parser is a cursor into the characters; an
    error leaves the cursor where it is, which matters because containers recover from the
    errors of their members.  Loops and recursion take fuel; [Panicked] is an index out of
    the bounds of a slice. *)
From stdpp Require Import base list numbers gmap sorting strings.
From S2P Require Import Prelude RustStr JsonText.

Local Open Scope N_scope.

(** ** Flags and errors *)

Definition STR : N := 1.
Definition NUM : N := 2.
Definition ARR : N := 4.
Definition OBJ : N := 8.
Definition NULL : N := 16.
Definition BOOL : N := 32.
Definition NAN : N := 64.
Definition INFINITY : N := 128.
Definition _INFINITY : N := 256.
Definition ALL : N :=
  fold_left N.lor [NUM; ARR; OBJ; NULL; BOOL; NAN; INFINITY; _INFINITY] STR.

Inductive PartialJsonError : Type :=
| Partial (msg : str)
| Malformed (msg : str).

(** What a parsing function leaves: the cursor and the value or the error. *)
Inductive outcome (A : Type) : Type :=
| Ret (index : nat) (r : result A PartialJsonError)
| Panicked
| OutOfFuel.
Arguments Ret {A} index r.
Arguments Panicked {A}.
Arguments OutOfFuel {A}.

(** ** Helpers on characters *)

Fixpoint blanks (s : str) : nat :=
  match s with
  | c :: s' => if is_blank c then S (blanks s') else O
  | [] => O
  end.

(** [starts_with]. *)
Definition starts_with (s p : str) : bool :=
  match strip_prefix p s with Some _ => true | None => false end.

(** [iter().rposition(|c| c == ch)]. *)
Fixpoint rposition (ch : N) (s : str) : option nat :=
  match s with
  | [] => None
  | c :: s' => match rposition ch s' with
               | Some i => Some (S i)
               | None => if c =? ch then Some O else None
               end
  end.

(** The loop of [parse_str] over the characters after the opening quote: how far it goes
    and whether it ends after an escaping backslash. *)
Fixpoint string_end (prev : N) (escape : bool) (s : str) : nat * bool :=
  match s with
  | [] => (O, escape)
  | c :: s' =>
      if negb (c =? QUOTE) || (escape && (prev =? BACKSLASH)) then
        let '(n, e) := string_end c (if c =? BACKSLASH then negb escape else false) s' in
        (S n, e)
      else (O, escape)
  end.

(** The loop of [parse_num]: up to a comma or a closing bracket. *)
Fixpoint number_end (s : str) : nat :=
  match s with
  | c :: s' => if (c =? COMMA) || (c =? RBRACKET) || (c =? RBRACE) then O else S (number_end s')
  | [] => O
  end.

Section parser.
Context {Num : Type}.
Variables (from_str : str → result (Value Num) str) (value_to_string : Value Num → str).
Variables (chars : str) (allow : N).

Definition length_ : nat := length chars.
Definition char_at (index : nat) : option N := chars !! index.
Definition substring (start end_ : nat) : str := take (end_ - start) (drop start chars).
Definition allows (flag : N) : bool := negb (N.land flag allow =? 0).
Definition is_char (index : nat) (c : N) : bool :=
  match char_at index with Some x => x =? c | None => false end.

Definition at_position (msg : str) (index : nat) : str :=
  msg ++ lit " at position " ++ dec (N.of_nat index).
Definition mark_partial_json {A} (index : nat) (msg : str) : outcome A :=
  Ret index (Err (Partial (at_position msg index))).
Definition throw_malformed_error {A} (index : nat) (msg : str) : outcome A :=
  Ret index (Err (Malformed (at_position msg index))).

Definition skip_blank (index : nat) : nat := index + blanks (drop index chars).

(** [&self.chars[..index]]. *)
Definition slice_to (index : nat) : option str :=
  if (index <=? length_)%nat then Some (take index chars) else None.

Definition parse_str (start : nat) : outcome (Value Num) :=
  let '(n, escape) :=
    string_end (default 0 (char_at start)) false (drop (S start) chars) in
  let index := (S start + n)%nat in
  let end_of index := if escape then pred index else index in
  if is_char index QUOTE then
    let index := S index in
    match from_str (substring start (end_of index)) with
    | Ok v => Ret index (Ok v)
    | Err e => throw_malformed_error index e
    end
  else if allows STR then
    match from_str (substring start (end_of index) ++ [QUOTE]) with
    | Ok (String s) => Ret index (Ok (String s))
    | _ =>
        match slice_to index with
        | None => Panicked
        | Some before =>
            let last_backslash := default O (rposition BACKSLASH before) in
            match from_str (substring start last_backslash ++ [QUOTE]) with
            | Ok (String s) => Ret index (Ok (String s))
            | _ => throw_malformed_error index (lit "Invalid escape sequence")
            end
        end
    end
  else mark_partial_json index (lit "Unterminated string literal").

Definition parse_num (start : nat) : outcome (Value Num) :=
  if (start =? 0)%nat then
    if str_eqb chars (lit "-") then throw_malformed_error start (lit "Not sure what '-' is")
    else match from_str chars with
         | Ok v => Ret start (Ok v)
         | Err e =>
             match (if allows NUM then rposition 101 chars else None) with
             | Some last_e => match from_str (take last_e chars) with
                              | Ok v => Ret start (Ok v)
                              | Err _ => throw_malformed_error start e
                              end
             | None => throw_malformed_error start e
             end
         end
  else
    let index := if is_char start MINUS then S start else start in
    let index := (index + number_end (drop index chars))%nat in
    if (index =? length_)%nat && negb (allows NUM)
    then mark_partial_json index (lit "Unterminated number literal")
    else
      let slice := substring start index in
      match from_str slice with
      | Ok v => Ret index (Ok v)
      | Err e =>
          if str_eqb slice (lit "-")
          then mark_partial_json index (lit "Not sure what '-' is")
          else match slice_to index with
               | None => Panicked
               | Some before =>
                   let last_e := default O (rposition 101 before) in
                   match (if (start <? last_e)%nat then from_str (substring start last_e)
                          else Err e) with
                   | Ok v => Ret index (Ok v)
                   | Err _ => throw_malformed_error index e
                   end
               end
      end.

(** [substring(index, index + n) == word], or the rest of the text is a part of the word. *)
Definition word_at (index : nat) (word : str) (flag : N) (least : nat) : bool :=
  let remaining := (length_ - index)%nat in
  str_eqb (substring index (index + length word)) word
  || (allows flag && (least <=? remaining)%nat && (remaining <? length word)%nat
      && starts_with word (substring index length_)).

(** The words and numbers of [parse_any]. *)
Definition parse_word (index : nat) : outcome (Value Num) :=
  if word_at index (lit "null") NULL 0 then Ret (index + 4) (Ok Null)
  else if word_at index (lit "true") BOOL 0 then Ret (index + 4) (Ok (Bool true))
  else if word_at index (lit "false") BOOL 0 then Ret (index + 5) (Ok (Bool false))
  else if word_at index (lit "Infinity") INFINITY 0 then Ret (index + 8) (Ok Null)
  else if word_at index (lit "-Infinity") _INFINITY 2 then Ret (index + 9) (Ok Null)
  else if word_at index (lit "NaN") NAN 0 then Ret (index + 3) (Ok Null)
  else parse_num index.

(** [parse_any], and the loops of [parse_obj] and [parse_arr] after the opening bracket.  The
    source recurses on the stack of the thread, without a limit: the model takes the stack to
    be large enough for the nesting of the text, at most [fuel] calls. *)
Fixpoint parse_any (fuel : nat) (index : nat) : outcome (Value Num) :=
  match fuel with
  | O => OutOfFuel
  | S fuel =>
      let index := skip_blank index in
      if (length_ <=? index)%nat then mark_partial_json index (lit "Unexpected end of input")
      else if is_char index QUOTE then parse_str index
      else if is_char index LBRACE then parse_obj fuel (skip_blank (S index)) []
      else if is_char index LBRACKET then parse_arr fuel (S index) []
      else parse_word index
  end
with parse_obj (fuel : nat) (index : nat) (obj : list (str * Value Num)) : outcome (Value Num) :=
  match fuel with
  | O => OutOfFuel
  | S fuel =>
      if is_char index RBRACE then Ret (S index) (Ok (Object obj))
      else
        let index := skip_blank index in
        if (length_ <=? index)%nat && allows OBJ then Ret index (Ok (Object obj))
        else
          match parse_str index with
          | Ret index (Ok key) =>
              let key := match key with String key => key | other => value_to_string other end in
              match parse_any fuel (S (skip_blank index)) with
              | Ret index (Ok value) =>
                  let obj := map_insert key value obj in
                  let index := skip_blank index in
                  let index := if is_char index COMMA then S index else index in
                  if (length_ <=? index)%nat && allows OBJ then Ret index (Ok (Object obj))
                  else parse_obj fuel index obj
              | Ret index (Err e) =>
                  if allows OBJ then Ret index (Ok (Object obj)) else Ret index (Err e)
              | other => other
              end
          | Ret index (Err e) =>
              if allows OBJ then Ret index (Ok (Object obj)) else Ret index (Err e)
          | other => other
          end
  end
with parse_arr (fuel : nat) (index : nat) (arr : list (Value Num)) : outcome (Value Num) :=
  match fuel with
  | O => OutOfFuel
  | S fuel =>
      if is_char index RBRACKET then Ret (S index) (Ok (Array arr))
      else if (length_ <=? index)%nat then
        if allows ARR then Ret index (Ok (Array arr))
        else mark_partial_json index (lit "Expected ']' at end of array")
      else
        match parse_any fuel index with
        | Ret index (Ok value) =>
            let arr := arr ++ [value] in
            let index := skip_blank index in
            let index := if is_char index COMMA then S index else index in
            parse_arr fuel index arr
        | Ret index (Err e) =>
            if allows ARR then Ret index (Ok (Array arr)) else Ret index (Err e)
        | other => other
        end
  end.

(** Enough for every text ([parse_any_returns]). *)
Definition parse_fuel : nat := 2 * length_ + 2.

End parser.

(** [parse]: the whole text, without the white space around it. *)
Definition parse {Num} (from_str : str → result (Value Num) str)
    (value_to_string : Value Num → str) (json_string : str) : outcome (Value Num) :=
  if is_empty (trim json_string)
  then Ret 0 (Err (Malformed (json_string ++ lit " is empty")))
  else
    let chars := trim json_string in
    parse_any from_str value_to_string chars ALL (parse_fuel chars) 0.

(** One unfolding of the three mutual functions, whose instances are given. *)
Ltac unfold_parser any obj arr := cbn [parse_any parse_obj parse_arr]; fold any; fold obj; fold arr.

(** ** The parser returns on every text *)

Lemma string_end_le prev e s : ((string_end prev e s).1 ≤ length s)%nat.
Proof.
  revert prev e. induction s as [|c s IH]; intros prev e; simpl; [done|].
  destruct (_ || _); [|simpl; lia].
  specialize (IH c (if c =? BACKSLASH then negb e else false)).
  destruct (string_end c _ s) as [n e']. simpl in *. lia.
Qed.

Lemma number_end_le s : (number_end s ≤ length s)%nat.
Proof. induction s as [|c s IH]; simpl; [done|]. destruct (_ || _ || _); lia. Qed.

Section returns.
Context {Num : Type}.
Variables (from_str : str → result (Value Num) str) (value_to_string : Value Num → str).
Variable chars : str.
(** An empty text is not a value: without this the loop over an array would not end. *)
Hypothesis from_str_no_empty : ∀ v, from_str [] ≠ Ok v.

Abbreviation n := (length chars).
Abbreviation parse_any := (parse_any from_str value_to_string chars ALL).
Abbreviation parse_obj := (parse_obj from_str value_to_string chars ALL).
Abbreviation parse_arr := (parse_arr from_str value_to_string chars ALL).

(** A result, no [Panicked] and no [OutOfFuel], with the cursor at or after a bound, and at
    or after a further one when a value was found. *)
Definition returns (lo hi : nat) (o : outcome (Value Num)) : Prop :=
  ∃ i r, o = Ret i r ∧ (lo ≤ i)%nat ∧ (is_ok r = true → (hi ≤ i)%nat).

Lemma returns_ok lo hi i v : (lo ≤ i)%nat → (hi ≤ i)%nat → returns lo hi (Ret i (Ok v)).
Proof. intros H H'. by exists i, (Ok v). Qed.

Lemma returns_err lo hi i e : (lo ≤ i)%nat → returns lo hi (Ret i (Err e)).
Proof. intros H. by exists i, (Err e). Qed.

Lemma returns_weaken lo hi lo' hi' o :
  (lo' ≤ lo)%nat → (hi' ≤ hi)%nat → returns lo hi o → returns lo' hi' o.
Proof.
  intros Hlo Hhi (i&r&->&H1&H2). exists i, r. split; [done|]. split; [lia|].
  intros H. specialize (H2 H). lia.
Qed.

Ltac solve_returns := first [apply returns_ok; lia | apply returns_err; lia].

Lemma is_char_lt i c : is_char chars i c = true → (i < n)%nat.
Proof.
  unfold is_char, char_at. destruct (chars !! i) eqn:E; [|done].
  intros _. by eapply lookup_lt_Some.
Qed.

Lemma slice_to_le i : (i ≤ n)%nat → slice_to chars i = Some (take i chars).
Proof. intros H. unfold slice_to, length_. by rewrite (proj2 (Nat.leb_le _ _) H). Qed.

Lemma parse_str_returns i : (i < n)%nat → returns i (S i) (parse_str from_str chars ALL i).
Proof.
  intros Hi. unfold parse_str.
  pose proof (string_end_le (default 0 (char_at chars i)) false (drop (S i) chars)) as Hle.
  destruct (string_end _ _ _) as [m e]. rewrite length_drop in Hle. simpl in Hle.
  destruct (is_char chars _ QUOTE); [case_match; solve_returns|].
  change (allows ALL STR) with true. cbn iota. rewrite slice_to_le by lia.
  assert (∀ (r : result (Value Num) str) k, returns i (S i) k →
    returns i (S i) (match r with Ok (String s) => Ret (S i + m) (Ok (String s)) | _ => k end)) as Hk.
  { intros [[]|] k Hk; try done. solve_returns. }
  apply Hk, Hk. solve_returns.
Qed.

Lemma substring_nil i : substring chars i i = [].
Proof. unfold substring. by rewrite Nat.sub_diag. Qed.

Lemma rposition_lt c s r : rposition c s = Some r → (r < length s)%nat.
Proof.
  revert r. induction s as [|x s IH]; intros r; simpl; [done|].
  destruct (rposition c s); [intros [= <-]; specialize (IH _ eq_refl); lia|].
  destruct (x =? c); [intros [= <-]; lia|done].
Qed.

Lemma parse_num_returns i :
  (0 < i)%nat → (i < n)%nat → returns i (S i) (parse_num from_str chars ALL i).
Proof.
  intros H0 Hi. unfold parse_num. destruct (Nat.eqb_spec i 0) as [|Hne]; [lia|].
  set (j := if is_char chars i MINUS then S i else i).
  assert (i ≤ j ∧ j ≤ n)%nat as [Hij Hj].
  { unfold j. destruct (is_char chars i MINUS) eqn:E; [|lia]. apply is_char_lt in E. lia. }
  pose proof (number_end_le (drop j chars)) as Hle. rewrite length_drop in Hle.
  set (k := (j + number_end (drop j chars))%nat).
  change (allows ALL NUM) with true. rewrite andb_false_r. cbn zeta.
  destruct (from_str (substring chars i k)) as [v|e] eqn:E.
  { apply returns_ok; [lia|]. destruct (decide (k = i)) as [Hk|]; [|lia].
    rewrite Hk, substring_nil in E. by apply from_str_no_empty in E. }
  destruct (str_eqb _ _); [solve_returns|]. rewrite slice_to_le by lia.
  destruct (Nat.ltb_spec i (default O (rposition 101 (take k chars)))) as [Hlt|]; [|solve_returns].
  case_match; [|solve_returns].
  destruct (rposition 101 (take k chars)) as [r|] eqn:Er; simpl in Hlt; [|lia].
  apply rposition_lt in Er. rewrite length_take in Er. solve_returns.
Qed.

Lemma parse_word_returns i :
  (0 < i)%nat → (i < n)%nat → returns i (S i) (parse_word from_str chars ALL i).
Proof.
  intros H0 Hi. unfold parse_word.
  do 6 (destruct (word_at _ _ _ _ _ _); [solve_returns|]). by apply parse_num_returns.
Qed.

Lemma skip_blank_le i : (i ≤ skip_blank chars i)%nat.
Proof. unfold skip_blank. lia. Qed.

Definition any_returns (fuel : nat) : Prop := ∀ i,
  (0 < i)%nat → (2 * (n - i) + 1 ≤ fuel)%nat → returns i (S i) (parse_any fuel i).
Definition obj_returns (fuel : nat) : Prop := ∀ i obj,
  (0 < i)%nat → (2 * (n - i) + 2 ≤ fuel)%nat → returns i i (parse_obj fuel i obj).
Definition arr_returns (fuel : nat) : Prop := ∀ i arr,
  (0 < i)%nat → (2 * (n - i) + 2 ≤ fuel)%nat → returns i i (parse_arr fuel i arr).

Lemma parse_any_step fuel : obj_returns fuel → arr_returns fuel → any_returns (S fuel).
Proof.
  intros IHo IHr i H0 Hf. unfold_parser constr:(parse_any) constr:(parse_obj) constr:(parse_arr). pose proof (skip_blank_le i).
  set (j := skip_blank chars i) in *. unfold length_.
  destruct (Nat.leb_spec n j); [solve_returns|].
  apply (returns_weaken j (S j)); [lia..|].
  destruct (is_char chars j QUOTE); [by apply parse_str_returns|].
  destruct (is_char chars j LBRACE).
  { pose proof (skip_blank_le (S j)). eapply returns_weaken; [..|apply IHo]; lia. }
  destruct (is_char chars j LBRACKET).
  { eapply returns_weaken; [..|apply IHr]; lia. }
  apply parse_word_returns; lia.
Qed.

Lemma parse_obj_step fuel : any_returns fuel → obj_returns fuel → obj_returns (S fuel).
Proof.
  intros IHa IHo i obj H0 Hf. unfold_parser constr:(parse_any) constr:(parse_obj) constr:(parse_arr). pose proof (skip_blank_le i).
  destruct (is_char chars i RBRACE); [solve_returns|].
  set (j := skip_blank chars i) in *. unfold length_. change (allows ALL OBJ) with true.
  rewrite !andb_true_r. destruct (Nat.leb_spec n j); [solve_returns|].
  destruct (parse_str_returns j) as (i1&[key|e]&->&Hi1&Hi1'); [done| |solve_returns].
  specialize (Hi1' eq_refl). pose proof (skip_blank_le i1).
  destruct (IHa (S (skip_blank chars i1))) as (i2&[v|e]&->&Hi2&Hi2'); [lia..| |solve_returns].
  pose proof (skip_blank_le i2). cbn zeta. rewrite andb_true_r.
  set (i3 := if is_char chars (skip_blank chars i2) COMMA then _ else _).
  assert (i2 ≤ i3)%nat by (unfold i3; case_match; lia).
  destruct (Nat.leb_spec n i3); [solve_returns|].
  eapply returns_weaken; [..|apply IHo]; lia.
Qed.

Lemma parse_arr_step fuel : any_returns fuel → arr_returns fuel → arr_returns (S fuel).
Proof.
  intros IHa IHr i arr H0 Hf. unfold_parser constr:(parse_any) constr:(parse_obj) constr:(parse_arr).
  destruct (is_char chars i RBRACKET); [solve_returns|]. unfold length_.
  change (allows ALL ARR) with true. destruct (Nat.leb_spec n i); [solve_returns|].
  destruct (IHa i) as (i2&[v|e]&->&Hi2&Hi2'); [lia..| |solve_returns].
  specialize (Hi2' eq_refl). pose proof (skip_blank_le i2). cbn zeta.
  set (i3 := if is_char chars (skip_blank chars i2) COMMA then _ else _).
  assert (i2 ≤ i3)%nat by (unfold i3; case_match; lia).
  eapply returns_weaken; [..|apply IHr]; lia.
Qed.

(** Every call of the parser advances the cursor or ends the enclosing container. *)
Lemma parse_all_return fuel : any_returns fuel ∧ obj_returns fuel ∧ arr_returns fuel.
Proof.
  induction fuel as [|fuel (IHa&IHo&IHr)].
  { unfold any_returns, obj_returns, arr_returns. split; [|split]; lia. }
  split; [by apply parse_any_step|]. split; [by apply parse_obj_step|by apply parse_arr_step].
Qed.

Lemma parse_any_top_returns : ∃ i r, parse_any (parse_fuel chars) 0 = Ret i r.
Proof.
  unfold parse_fuel, length_. destruct (parse_all_return (2 * n + 1)) as (_&IHo&IHr).
  replace (2 * n + 2)%nat with (S (2 * n + 1)) by lia. unfold_parser constr:(parse_any) constr:(parse_obj) constr:(parse_arr).
  set (j := skip_blank chars 0). unfold length_.
  assert (∀ lo hi o, returns lo hi o → ∃ i r, o = Ret i r) as Hr by (intros ??? (i&r&->&_); eauto).
  destruct (Nat.leb_spec n j); [by do 2 eexists|].
  destruct (is_char chars j QUOTE); [by eapply Hr, parse_str_returns|].
  destruct (is_char chars j LBRACE).
  { pose proof (skip_blank_le (S j)). eapply Hr, IHo; lia. }
  destruct (is_char chars j LBRACKET); [eapply Hr, IHr; lia|].
  unfold parse_word. do 6 (destruct (word_at _ _ _ _ _ _); [by do 2 eexists|]).
  destruct (decide (j = O)) as [->|]; [|eapply Hr, parse_num_returns; lia].
  unfold parse_num. cbn [Nat.eqb]. repeat case_match; by do 2 eexists.
Qed.

End returns.
