(* ===== verification/JsonPreview.v ===== *)
(** * Previews of JSON that is still arriving

    What [partial_json_crate] ([PartialJson]) returns for a JSON text and for every part
    of it from the start: the value of the whole text, or a value that the part already
    determines ([shows]).  Tool calls are shown to the user while their arguments are
    being received; these are the values shown. *)
From stdpp Require Import base list numbers gmap sorting strings.
From S2P Require Import Prelude RustStr JsonText JsonRepair PartialJson.

Local Open Scope N_scope.

Section cursor.
Context {Num : Type} {J : SerdeJson Num}.
Variable chars : str.

Abbreviation n := (length chars).

(** The cursor stands before [s]. *)
Definition here (i : nat) (s : str) : Prop := (i ≤ n)%nat ∧ drop i chars = s.

Lemma here_app i a b : here i (a ++ b) → here (i + length a) b.
Proof.
  intros [Hi H]. split.
  - apply (f_equal length) in H. rewrite length_drop, length_app in H. lia.
  - rewrite <-drop_drop, H. apply drop_app_length.
Qed.

Lemma here_cons i c s : here i (c :: s) → here (S i) s.
Proof. intros H%(here_app i [c] s). by rewrite Nat.add_comm in H. Qed.

Lemma here_length i s : here i s → n = (i + length s)%nat.
Proof. intros [Hi H]. apply (f_equal length) in H. rewrite length_drop in H. lia. Qed.

Lemma here_is_char i c s x : here i (c :: s) → is_char chars i x = (c =? x).
Proof.
  intros [Hi H]. unfold is_char, char_at.
  replace (chars !! i) with (drop i chars !! 0%nat) by (rewrite lookup_drop; f_equal; lia).
  by rewrite H.
Qed.

Lemma end_is_char i x : (n ≤ i)%nat → is_char chars i x = false.
Proof. intros H. unfold is_char, char_at. by rewrite lookup_ge_None_2. Qed.

Lemma here_substring i a b : here i (a ++ b) → substring chars i (i + length a) = a.
Proof.
  intros [_ H]. unfold substring. rewrite H.
  replace (i + length a - i)%nat with (length a) by lia. by rewrite take_app_length.
Qed.

Lemma here_rest i s : here i s → substring chars i n = s.
Proof.
  intros H. pose proof (here_length _ _ H) as ->.
  apply (here_substring i s []). by rewrite app_nil_r.
Qed.

(** What the blanks end at. *)
Definition stops (s : str) : Prop := match s with c :: _ => is_blank c = false | [] => True end.

Lemma blanks_app w s : blank w → stops s → blanks (w ++ s) = length w.
Proof.
  intros Hw Hs. induction Hw as [|c w Hc Hw IH]; simpl; [|by rewrite Hc, IH].
  destruct s as [|c s]; simpl; [done|]. by rewrite Hs.
Qed.

Lemma here_skip i w s : here i (w ++ s) → blank w → stops s → skip_blank chars i = (i + length w)%nat.
Proof. intros [_ H] Hw Hs. unfold skip_blank. by rewrite H, blanks_app. Qed.

Lemma skip_blank_end i : (n ≤ i)%nat → skip_blank chars i = i.
Proof. intros H. unfold skip_blank. rewrite drop_ge by done. simpl. lia. Qed.

Lemma skip_blank_idemp i : skip_blank chars (skip_blank chars i) = skip_blank chars i.
Proof.
  unfold skip_blank at 2. unfold skip_blank at 2. unfold skip_blank. rewrite <-drop_drop.
  generalize (drop i chars) as s. intros s.
  assert (blanks (drop (blanks s) s) = 0%nat) as ->; [|lia].
  induction s as [|c s IH]; [done|]. simpl. destruct (is_blank c) eqn:E; simpl; [done|]. by rewrite E.
Qed.

(** ** Strings *)

Lemma quiet_prefix m q s :
  quiet m s → mode_after m s ≠ Outside → q `prefix_of` s →
  quiet m q ∧ mode_after m q ≠ Outside.
Proof.
  intros Hs Hm [r ->]. apply quiet_app in Hs as [Hq Hr]. split; [done|].
  destruct r as [|c r]; [by rewrite app_nil_r in Hm|]. by destruct Hr.
Qed.

Lemma string_end_app prev m q rest :
  m ≠ Outside → quiet m q → mode_after m q ≠ Outside → (m = Escaped → prev = BACKSLASH) →
  ∃ prev', (mode_after m q = Escaped → prev' = BACKSLASH) ∧
    string_end prev (bool_decide (m = Escaped)) (q ++ rest) =
    let '(k, e) := string_end prev' (bool_decide (mode_after m q = Escaped)) rest in
    ((length q + k)%nat, e).
Proof.
  revert prev m. induction q as [|c q IH]; intros prev m Hm Hq Ha Hp.
  { exists prev. split; [done|]. simpl. by destruct (string_end _ _ _). }
  destruct Hq as [_ Hq]. change (mode_after m (c :: q)) with (mode_after (mode_step m c) q) in *.
  assert (mode_step m c ≠ Outside) as Hm'.
  { intros E. rewrite E in Hq, Ha. destruct q; [done|]. by destruct Hq. }
  destruct (IH c (mode_step m c)) as (prev'&Hp'&Hend); [done..| |].
  { destruct m; [done| |by intros]. cbn [mode_step]. destruct (c =? QUOTE); [done|].
    by destruct (N.eqb_spec c BACKSLASH) as [->|]. }
  exists prev'. split; [done|]. cbn [app string_end].
  assert (negb (c =? QUOTE) || bool_decide (m = Escaped) && (prev =? BACKSLASH) = true) as ->.
  { destruct m; [done| |].
    - cbn [mode_step] in Hm'. by destruct (c =? QUOTE).
    - rewrite (Hp eq_refl). by destruct (c =? QUOTE). }
  assert ((if c =? BACKSLASH then negb (bool_decide (m = Escaped)) else false)
    = bool_decide (mode_step m c = Escaped)) as ->.
  { destruct m; [done| |]; cbn [mode_step].
    - destruct (N.eqb_spec c BACKSLASH) as [->|]; [done|]. by destruct (c =? QUOTE).
    - by destruct (c =? BACKSLASH). }
  rewrite Hend. clear Hend. by destruct (string_end prev' _ rest).
Qed.

(** The loop of [parse_str] stops at the quote that ends a literal. *)
Lemma string_end_literal b s rest :
  literal b s → string_end QUOTE false (b ++ QUOTE :: rest) = (length b, false).
Proof.
  intros (_&Hm&Hq)%literal_body.
  destruct (string_end_app QUOTE Inside b (QUOTE :: rest)) as (prev'&_&Hend); [done|done|by rewrite Hm|done|].
  change (bool_decide (Inside = Escaped)) with false in Hend. rewrite Hend, Hm. simpl. f_equal. lia.
Qed.

(** In a part of a literal it runs to the end. *)
Lemma string_end_part b s q :
  literal b s → q `prefix_of` b →
  string_end QUOTE false q = (length q, bool_decide (mode_after Inside q = Escaped)).
Proof.
  intros (_&Hm&Hq)%literal_body Hp. destruct (quiet_prefix Inside q b) as [Hq' Hm']; [done|by rewrite Hm|done|].
  destruct (string_end_app QUOTE Inside q []) as (prev'&_&Hend); [done..|].
  change (bool_decide (Inside = Escaped)) with false in Hend. rewrite app_nil_r in Hend.
  rewrite Hend. simpl. f_equal. lia.
Qed.

Lemma from_str_lone_quote v : from_str [QUOTE] ≠ Ok v.
Proof.
  intros [t Ht]%from_str_accepts. apply json_text_head in Ht as (d&w&Heq&Hd&Hw); [|done].
  inversion Hd; subst; simplify_eq/=;
    try (match goal with H : json_number _ = true |- _ =>
      apply json_number_chars in H as (?&?&?&->&?); simplify_eq/=; done end).
  match goal with H : [] = (?x ++ _) ++ _ |- _ => by destruct x end.
Qed.

(** A closed part of a string: what it decodes to is a part of the string. *)
Lemma from_str_part b s q v :
  literal b s → q `prefix_of` b → from_str (QUOTE :: q ++ [QUOTE]) = Ok v →
  ∃ s', v = String s' ∧ s' `prefix_of` s.
Proof.
  intros Hb [r ->] (s'&->&Hs')%from_str_quoted. exists s'. split; [done|]. by eapply literal_prefix.
Qed.

Lemma parse_str_literal i b s rest :
  here i (QUOTE :: b ++ QUOTE :: rest) → literal b s →
  parse_str from_str chars ALL i = Ret (i + length (QUOTE :: b ++ [QUOTE])) (Ok (String s)).
Proof.
  intros Hi Hb. unfold parse_str. pose proof (here_cons _ _ _ Hi) as [_ Hd].
  assert (char_at chars i = Some QUOTE) as ->.
  { pose proof (here_is_char _ _ _ QUOTE Hi) as H. unfold is_char in H.
    destruct (char_at chars i); [|done]. apply N.eqb_eq in H. by subst. }
  rewrite Hd. cbn [from_option id]. rewrite (string_end_literal _ _ _ Hb).
  pose proof (here_app _ (QUOTE :: b) _ Hi) as Hq. cbn [length] in Hq.
  replace (S i + length b)%nat with (i + S (length b))%nat by lia.
  rewrite (here_is_char _ _ _ _ Hq). cbn [N.eqb Pos.eqb].
  assert (here i ((QUOTE :: b ++ [QUOTE]) ++ rest)) as Hi'
    by (simpl; by rewrite <-app_assoc).
  pose proof (here_substring _ _ _ Hi') as Hsub.
  assert (length (QUOTE :: b ++ [QUOTE]) = S (S (length b))) as Hl
    by (simpl; rewrite length_app; simpl; lia).
  rewrite Hl, Nat.add_succ_r in Hsub. rewrite Hsub, (from_str_string _ _ Hb), Hl.
  f_equal. lia.
Qed.

Lemma substring_cut i c q e :
  here i (c :: q) → substring chars i e = [] ∨ substring chars i e = c :: take (e - 1 - i) q.
Proof.
  intros [_ H]. unfold substring. rewrite H. destruct (e - i)%nat as [|k] eqn:E; [by left|right].
  cbn [take]. do 2 f_equal. lia.
Qed.

Lemma from_str_cut i b s q e v :
  here i (QUOTE :: q) → literal b s → q `prefix_of` b →
  from_str (substring chars i e ++ [QUOTE]) = Ok v → ∃ s', v = String s' ∧ s' `prefix_of` s.
Proof.
  intros Hi Hb Hq. destruct (substring_cut _ _ _ e Hi) as [-> | ->].
  { intros H. by apply from_str_lone_quote in H. }
  intros H. eapply from_str_part; [done| |exact H].
  etrans; [|exact Hq]. apply prefix_take.
Qed.

(** The outcome for a part of a text: nothing is left to read, and a value that is
    returned is one the part determines. *)
Definition preview (t : tree Num) (o : outcome (Value Num)) : Prop :=
  ∃ i r, o = Ret i r ∧ (n ≤ i)%nat ∧ ∀ v, r = Ok v → shows number_value t v.

Lemma preview_err t i e : (n ≤ i)%nat → preview t (Ret i (Err e)).
Proof. intros H. by exists i, (Err e). Qed.

Lemma preview_ok t i v : (n ≤ i)%nat → shows number_value t v → preview t (Ret i (Ok v)).
Proof. intros H Hv. exists i, (Ok v). split; [done|]. split; [done|]. by intros ? [= <-]. Qed.

Lemma parse_str_part i b s q :
  here i (QUOTE :: q) → literal b s → q `prefix_of` b →
  preview (TString s) (parse_str from_str chars ALL i).
Proof.
  intros Hi Hb Hq. unfold parse_str. pose proof (here_cons _ _ _ Hi) as [_ Hd].
  assert (char_at chars i = Some QUOTE) as ->.
  { pose proof (here_is_char _ _ _ QUOTE Hi) as H. unfold is_char in H.
    destruct (char_at chars i); [|done]. apply N.eqb_eq in H. by subst. }
  rewrite Hd. cbn [from_option id]. rewrite (string_end_part _ _ _ Hb Hq).
  pose proof (here_length _ _ Hi) as Hn. cbn [length] in Hn.
  rewrite end_is_char by lia. change (allows ALL STR) with true. cbn iota.
  rewrite slice_to_le by lia.
  assert (∀ e k, preview (TString s) k →
    preview (TString s) (match from_str (substring chars i e ++ [QUOTE]) with
      | Ok (String s) => Ret (S i + length q) (Ok (String s)) | _ => k end)) as Hk.
  { intros e k Hk. destruct (from_str _) as [v|] eqn:E; [|done].
    destruct (from_str_cut _ _ _ _ _ _ Hi Hb Hq E) as (s'&->&Hs').
    apply preview_ok; [lia|by constructor]. }
  apply Hk, Hk. apply preview_err. lia.
Qed.

(** ** Words and numbers *)

Lemma word_at_here i p word flag least :
  here i p → allows ALL flag = true →
  word_at chars ALL i word flag least =
  str_eqb (take (length word) p) word
  || ((least <=? length p)%nat && (length p <? length word)%nat && starts_with word p).
Proof.
  intros Hi Hf. unfold word_at, length_. rewrite Hf, (here_rest _ _ Hi), (here_length _ _ Hi).
  replace (i + length p - i)%nat with (length p) by lia.
  unfold substring. destruct Hi as [_ ->].
  by replace (i + length word - i)%nat with (length word) by lia.
Qed.

(** Another first character, another word. *)
Lemma word_at_other i c p w ws flag least :
  here i (c :: p) → allows ALL flag = true → c ≠ w → word_at chars ALL i (w :: ws) flag least = false.
Proof.
  intros Hi Hf Hc. rewrite (word_at_here _ _ _ _ _ Hi Hf). apply N.eqb_neq in Hc.
  cbn [length take str_eqb]. unfold starts_with. cbn [strip_prefix]. rewrite Hc.
  by rewrite andb_false_r.
Qed.

Lemma minus_infinity_other i p :
  here i (MINUS :: p) → match p with x :: _ => x ≠ 73 | [] => True end →
  word_at chars ALL i (lit "-Infinity") _INFINITY 2 = false.
Proof.
  intros Hi HI. rewrite (word_at_here _ _ _ _ _ Hi) by done.
  change (lit "-Infinity") with (MINUS :: 73 :: lit "nfinity").
  destruct p as [|x p]; [done|]. apply N.eqb_neq in HI.
  cbn [length take str_eqb]. unfold starts_with. cbn [strip_prefix]. rewrite HI.
  by rewrite !andb_false_r.
Qed.

(** A text whose first character starts no word is a number for [parse_word]. *)
Lemma parse_word_number i c p :
  here i (c :: p) → number_start c = true →
  match p with x :: _ => x ≠ 73 | [] => True end →
  parse_word from_str chars ALL i = parse_num from_str chars ALL i.
Proof.
  intros Hi Hc HI. unfold parse_word.
  assert (c = MINUS ∨ (48 ≤ c ∧ c ≤ 57)) as Hd.
  { unfold number_start, is_ascii_digit in Hc.
    rewrite orb_true_iff, andb_true_iff, N.eqb_eq, !N.leb_le in Hc. done. }
  change (lit "null") with (110 :: lit "ull"). change (lit "true") with (116 :: lit "rue").
  change (lit "false") with (102 :: lit "alse"). change (lit "Infinity") with (73 :: lit "nfinity").
  change (lit "NaN") with (78 :: lit "aN").
  rewrite !(word_at_other _ _ _ _ _ _ _ Hi) by (done || lia).
  assert (word_at chars ALL i (lit "-Infinity") _INFINITY 2 = false) as ->; [|done].
  destruct Hd as [->|Hd]; [by eapply minus_infinity_other|].
  change (lit "-Infinity") with (MINUS :: lit "Infinity").
  apply (word_at_other _ _ _ _ _ _ _ Hi); [done|lia].
Qed.

Definition closer (c : N) : bool := (c =? COMMA) || (c =? RBRACKET) || (c =? RBRACE).
Definition ends (r : str) : Prop := match r with c :: _ => closer c = true | [] => True end.

(** What follows a document: blanks, then the end of the text, a comma or a bracket. *)
Definition follows (rest : str) : Prop := ∃ w r, rest = w ++ r ∧ blank w ∧ ends r.

Lemma number_end_app s r :
  Forall (λ c, closer c = false) s → ends r → number_end (s ++ r) = length s.
Proof.
  intros Hs Hr. induction Hs as [|c s Hc Hs IH]; cbn [app number_end length].
  - destruct r as [|c r]; [done|]. cbn [number_end]. unfold ends, closer in Hr. by rewrite Hr.
  - unfold closer in Hc. by rewrite Hc, IH.
Qed.

Lemma number_char_not_closer c : number_char c = true → closer c = false.
Proof.
  intros (_&H1&H2&H3&_)%number_char_plain. unfold closer.
  by rewrite !orb_false_iff, !N.eqb_neq.
Qed.

Lemma blank_not_closer c : is_blank c = true → closer c = false.
Proof.
  unfold is_blank. rewrite !orb_true_iff, !N.eqb_eq. by intros [[[-> | ->]| ->]| ->].
Qed.

(** The slice [parse_num] cuts. *)
Lemma parse_num_slice i c s r :
  (0 < i)%nat → here i ((c :: s) ++ r) → Forall (λ c, closer c = false) (c :: s) → ends r →
  parse_num from_str chars ALL i =
  match from_str (c :: s) with
  | Ok v => Ret (i + length (c :: s)) (Ok v)
  | Err e =>
      if str_eqb (c :: s) (lit "-")
      then mark_partial_json (i + length (c :: s)) (lit "Not sure what '-' is")
      else let last_e := default O (rposition 101 (take (i + length (c :: s)) chars)) in
           match (if (i <? last_e)%nat then from_str (substring chars i last_e) else Err e) with
           | Ok v => Ret (i + length (c :: s)) (Ok v)
           | Err _ => throw_malformed_error (i + length (c :: s)) e
           end
  end.
Proof.
  intros H0 Hi Hs Hr. unfold parse_num. destruct (Nat.eqb_spec i 0) as [|_]; [lia|].
  pose proof (here_length _ _ (here_app _ _ _ Hi)) as Hn.
  set (j := if is_char chars i MINUS then S i else i).
  assert (j + number_end (drop j chars) = i + length (c :: s))%nat as ->.
  { unfold j. destruct (is_char chars i MINUS) eqn:E.
    - destruct (here_cons i c (s ++ r) Hi) as [_ Hd]. rewrite Hd.
      inversion Hs; subst. rewrite number_end_app by done. cbn [length]. lia.
    - destruct Hi as [_ Hd]. rewrite Hd. by rewrite number_end_app. }
  change (allows ALL NUM) with true. rewrite andb_false_r. cbn zeta.
  rewrite (here_substring _ _ _ Hi). by rewrite slice_to_le by lia.
Qed.

Lemma parse_num_complete i d m w r :
  (0 < i)%nat → here i (d ++ w ++ r) → json_number d = true → number_value d = Some m →
  blank w → ends r →
  parse_num from_str chars ALL i = Ret (i + length d + length w) (Ok (Number m)).
Proof.
  intros H0 Hi Hd Hm Hw Hr. rewrite app_assoc in Hi.
  destruct (json_number_chars _ Hd) as (Hch&c&s&Heq&_).
  rewrite Heq in Hi. rewrite (parse_num_slice i c (s ++ w) r); [|done|exact Hi| |done].
  - change (c :: s ++ w) with ((c :: s) ++ w). rewrite <-Heq.
    rewrite (from_str_number _ _ _ Hd Hm Hw). by rewrite length_app, Nat.add_assoc.
  - change (c :: s ++ w) with ((c :: s) ++ w). rewrite <-Heq. apply Forall_app. split.
    + eapply Forall_impl; [exact Hch|]. apply number_char_not_closer.
    + eapply Forall_impl; [exact Hw|]. apply blank_not_closer.
Qed.

(** A value read from a first part of a number. *)
Lemma numeral_shows c s d m v :
  c :: s `prefix_of` d → json_number d = true → from_str (c :: s) = Ok v →
  shows number_value (TNumber d m) v.
Proof.
  intros Hp Hd Hok. destruct (json_number_chars _ Hd) as (_&c'&s'&->&Hc).
  pose proof (prefix_cons_inv_1 _ _ _ _ Hp) as <-.
  apply from_str_numeral in Hok as (d'&m'&w&Heq&Hd'&Hm'&_&->); [|done].
  eapply shows_number; [|done|done]. etrans; [|exact Hp]. rewrite Heq. by eexists.
Qed.

Lemma parse_num_part i c s d m :
  (0 < i)%nat → here i (c :: s) → c :: s `prefix_of` d → json_number d = true →
  preview (TNumber d m) (parse_num from_str chars ALL i).
Proof.
  intros H0 Hi Hp Hd. pose proof (here_length _ _ Hi) as Hn.
  assert (Forall (λ c, closer c = false) (c :: s)) as Hcl.
  { destruct (json_number_chars _ Hd) as (Hch&_). destruct Hp as [k ->].
    apply Forall_app in Hch as [Hch _]. eapply Forall_impl; [exact Hch|]. apply number_char_not_closer. }
  rewrite (parse_num_slice i c s []); [|done|by rewrite app_nil_r|done|done].
  destruct (from_str (c :: s)) as [v|e] eqn:E.
  { apply preview_ok; [lia|]. by eapply numeral_shows. }
  destruct (str_eqb _ _); [apply preview_err; lia|]. cbn zeta.
  destruct (Nat.ltb_spec i (default O (rposition 101 (take (i + length (c :: s)) chars))));
    [|apply preview_err; lia].
  destruct (from_str (substring chars i _)) as [v|] eqn:E'; [|apply preview_err; lia].
  apply preview_ok; [lia|].
  destruct (substring_cut _ _ _ (default O (rposition 101 (take (i + length (c :: s)) chars))) Hi)
    as [Hsub|Hsub]; rewrite Hsub in E'; [by apply from_str_empty in E'|].
  eapply numeral_shows; [|done|exact E']. etrans; [|exact Hp]. apply prefix_cons, prefix_take.
Qed.

(** ** Complete documents *)

Abbreviation pany := (parse_any from_str value_to_string chars ALL).
Abbreviation pobj := (parse_obj from_str value_to_string chars ALL).
Abbreviation parr := (parse_arr from_str value_to_string chars ALL).

Lemma parse_any_at fuel i w c s :
  here i (w ++ c :: s) → blank w → is_blank c = false →
  pany (S fuel) i =
  let j := (i + length w)%nat in
  if c =? QUOTE then parse_str from_str chars ALL j
  else if c =? LBRACE then pobj fuel (skip_blank chars (S j)) []
  else if c =? LBRACKET then parr fuel (S j) []
  else parse_word from_str chars ALL j.
Proof.
  intros Hi Hw Hc. unfold_parser constr:(pany) constr:(pobj) constr:(parr). cbn zeta.
  rewrite (here_skip _ _ _ Hi Hw Hc). pose proof (here_app _ _ _ Hi) as Hj.
  pose proof (here_length _ _ Hj) as Hn. cbn [length] in Hn. unfold length_.
  destruct (Nat.leb_spec n (i + length w)); [lia|].
  by rewrite !(here_is_char _ _ _ _ Hj).
Qed.

Lemma parse_any_end fuel i w :
  (n ≤ i)%nat ∨ (here i w ∧ blank w) →
  ∃ j e, pany (S fuel) i = Ret j (Err e) ∧ (n ≤ j)%nat.
Proof.
  intros H. unfold_parser constr:(pany) constr:(pobj) constr:(parr). cbn zeta. unfold length_.
  assert (n ≤ skip_blank chars i)%nat as Hle.
  { destruct H as [H|[H Hw]]; [by rewrite skip_blank_end|].
    assert (here i (w ++ [])) as H' by by rewrite app_nil_r.
    rewrite (here_skip _ _ _ H' Hw I), (here_length _ _ H). lia. }
  destruct (Nat.leb_spec n (skip_blank chars i)); [|lia]. by do 2 eexists.
Qed.

Definition insert_all {V} (acc l : list (str * V)) : list (str * V) :=
  fold_left (λ m '(k, v), map_insert k v m) l acc.

Lemma insert_all_cons {V} acc k (v : V) l :
  insert_all acc ((k, v) :: l) = insert_all (map_insert k v acc) l.
Proof. done. Qed.

Definition complete_any (t : tree Num) (d : str) : Prop := ∀ fuel i w rest,
  (0 < i)%nat → here i (w ++ d ++ rest) → blank w → follows rest →
  (2 * (n - i) + 1 ≤ fuel)%nat →
  ∃ i', pany fuel i = Ret i' (Ok (eval t)) ∧ (i < i')%nat ∧
        skip_blank chars i' = skip_blank chars (i + length w + length d).

Definition complete_arr (ts : list (tree Num)) (b : str) : Prop := ∀ fuel i rest acc,
  (0 < i)%nat → here i (b ++ rest) → (2 * (n - i) + 2 ≤ fuel)%nat →
  parr fuel i acc = Ret (i + length b) (Ok (Array (acc ++ map eval ts))).

Definition complete_obj (ms : list (str * tree Num)) (b : str) : Prop := ∀ fuel i rest acc,
  (0 < i)%nat → here i (b ++ rest) → (2 * (n - i) + 2 ≤ fuel)%nat →
  pobj fuel i acc = Ret (i + length b) (Ok (Object (insert_all acc (map eval_member ms)))).

Lemma closer_not_blank c : closer c = true → is_blank c = false.
Proof. unfold closer. rewrite !orb_true_iff, !N.eqb_eq. by intros [[-> | ->]| ->]. Qed.

Lemma ends_stops r : ends r → stops r.
Proof. destruct r; [done|]. apply closer_not_blank. Qed.

(** A scalar: the cursor ends up right after it. *)
Lemma complete_any_end (t : tree Num) (d : str) i (w : str) o :
  d ≠ [] → o = Ret (i + length w + length d) (Ok (eval t)) →
  ∃ i', o = Ret i' (Ok (eval t)) ∧ (i < i')%nat ∧
        skip_blank chars i' = skip_blank chars (i + length w + length d).
Proof.
  intros Hd ->. eexists. split; [done|]. split; [|done]. destruct d; [done|]. cbn [length]. lia.
Qed.

Lemma word_at_word i word rest flag least :
  here i (word ++ rest) → allows ALL flag = true → word_at chars ALL i word flag least = true.
Proof.
  intros Hi Hf. rewrite (word_at_here _ _ _ _ _ Hi Hf), take_app_length. by rewrite str_eqb_refl.
Qed.

Lemma number_second c s rest :
  number_chars (c :: s) → follows rest →
  match s ++ rest with x :: _ => x ≠ 73 | [] => True end.
Proof.
  intros Hd (w&r&->&Hw&Hr). inversion Hd as [|?? _ Hs]; subst.
  destruct Hs as [|x s Hx _]; [|by intros ->].
  destruct Hw as [|x w Hx _]; [|by intros ->].
  destruct r; [done|]. cbn in *. by intros ->.
Qed.

Lemma complete_null : complete_any TNull (lit "null").
Proof.
  intros [|fuel] i w rest H0 Hi Hw Hr Hf; [lia|]. apply complete_any_end; [done|].
  rewrite (parse_any_at fuel i w 110 (lit "ull" ++ rest)) by done. cbn zeta. cbn [N.eqb Pos.eqb].
  unfold parse_word. rewrite (word_at_word _ _ rest) by (by apply here_app in Hi). done.
Qed.

Lemma complete_bool b : complete_any (TBool b) (if b then lit "true" else lit "false").
Proof.
  intros [|fuel] i w rest H0 Hi Hw Hr Hf; [lia|]. apply complete_any_end; [by destruct b|].
  destruct b.
  - rewrite (parse_any_at fuel i w 116 (lit "rue" ++ rest)) by done. cbn zeta. cbn [N.eqb Pos.eqb].
    apply here_app in Hi. unfold parse_word. change (lit "null") with (110 :: lit "ull").
    rewrite (word_at_other _ 116 (lit "rue" ++ rest)) by done.
    by rewrite (word_at_word _ _ rest).
  - rewrite (parse_any_at fuel i w 102 (lit "alse" ++ rest)) by done. cbn zeta. cbn [N.eqb Pos.eqb].
    apply here_app in Hi. unfold parse_word.
    change (lit "null") with (110 :: lit "ull"). change (lit "true") with (116 :: lit "rue").
    rewrite !(word_at_other _ 102 (lit "alse" ++ rest)) by done.
    by rewrite (word_at_word _ _ rest).
Qed.

Lemma complete_number d m :
  json_number d = true → number_value d = Some m → complete_any (TNumber d m) d.
Proof.
  intros Hd Hm [|fuel] i w rest H0 Hi Hw Hr Hf; [lia|].
  destruct (json_number_chars _ Hd) as (Hch&c&s&->&Hc).
  rewrite (parse_any_at fuel i w c (s ++ rest)); [|done|done|].
  2:{ apply doc_start_not_blank. unfold doc_start. by rewrite Hc. }
  inversion Hch as [|?? (_&_&_&_&H1&H2&H3)%number_char_plain _]; subst.
  apply N.eqb_neq in H1, H2, H3. cbn zeta. rewrite H1, H2, H3.
  apply here_app in Hi. rewrite (parse_word_number _ c (s ++ rest)); [|done|done|by apply (number_second c)].
  destruct Hr as (w'&r&->&Hw'&Hr). rewrite (parse_num_complete _ (c :: s) m w' r) by (done || lia).
  eexists. split; [done|]. split; [cbn [length]; lia|].
  pose proof (here_app _ _ _ Hi) as Hi'.
  rewrite (here_skip _ _ _ Hi' Hw' (ends_stops _ Hr)).
  apply here_app in Hi'. rewrite (here_skip _ [] r Hi' blank_nil (ends_stops _ Hr)). cbn [length]. lia.
Qed.

Lemma complete_string b s : literal b s → complete_any (TString s) (QUOTE :: b ++ [QUOTE]).
Proof.
  intros Hb [|fuel] i w rest H0 Hi Hw Hr Hf; [lia|]. apply complete_any_end; [done|].
  cbn [app] in Hi. rewrite <-app_assoc in Hi.
  rewrite (parse_any_at fuel i w QUOTE (b ++ QUOTE :: rest)) by done.
  cbn zeta. cbn [N.eqb Pos.eqb]. apply here_app in Hi. by apply parse_str_literal with rest.
Qed.

(** ** Members of containers *)

Lemma here_unique i j s : here i s → here j s → i = j.
Proof. intros Hi%here_length Hj%here_length. lia. Qed.

Lemma here_doc_not i tight t w d rest c :
  here i (w ++ d ++ rest) → blank w → doc number_value tight t d → closer c = true →
  is_char chars i c = false.
Proof.
  intros Hi Hw (x&r&->&Hx)%doc_head Hc.
  destruct Hw as [|y w Hy Hw]; cbn [app] in Hi; rewrite (here_is_char _ _ _ _ Hi); apply N.eqb_neq.
  - intros ->. unfold closer in Hc. rewrite !orb_true_iff, !N.eqb_eq in Hc.
    by destruct Hc as [[-> | ->]| ->].
  - intros ->. by rewrite (closer_not_blank _ Hc) in Hy.
Qed.

(** Where a loop goes on: after a comma, if there is one. *)
Definition after_comma (k : nat) (r : str) : nat :=
  match r with c :: _ => if c =? COMMA then S k else k | [] => k end.

Lemma here_after_comma k r :
  here k r → (if is_char chars k COMMA then S k else k) = after_comma k r.
Proof.
  intros Hk. destruct r as [|c r]; [|by rewrite (here_is_char _ _ _ _ Hk)].
  rewrite end_is_char; [done|]. apply here_length in Hk. simpl in Hk. lia.
Qed.

(** After a complete value: its blanks are skipped. *)
Lemma complete_any_next tight t d fuel i w1 w2 r k :
  complete_any t d → doc number_value tight t d → (0 < i)%nat → here i (w1 ++ d ++ w2 ++ r) →
  blank w1 → blank w2 → ends r → (2 * (n - i) + 1 ≤ fuel)%nat → here k r →
  ∃ i', pany fuel i = Ret i' (Ok (eval t)) ∧ skip_blank chars i' = k ∧ (i < k)%nat.
Proof.
  intros Hany Hd H0 Hi Hw1 Hw2 Hr Hf Hk.
  destruct (Hany fuel i w1 (w2 ++ r)) as (i'&->&Hlt&Hskip); [done..|by exists w2, r|done|].
  exists i'. split; [done|]. pose proof (here_app _ _ _ Hi) as Hi2. apply here_app in Hi2.
  rewrite Hskip, (here_skip _ _ _ Hi2 Hw2 (ends_stops _ Hr)).
  apply here_app in Hi2. rewrite (here_unique _ _ _ Hi2 Hk). split; [done|].
  pose proof (skip_blank_le chars i'). rewrite Hskip in H.
  rewrite (here_skip _ _ _ (here_app _ _ _ (here_app _ _ _ Hi)) Hw2 (ends_stops _ Hr)) in H.
  pose proof (here_unique _ _ _ Hi2 Hk). lia.
Qed.

Lemma arr_element tight t d fuel i w1 w2 r k acc :
  complete_any t d → doc number_value tight t d → (0 < i)%nat → here i (w1 ++ d ++ w2 ++ r) →
  blank w1 → blank w2 → ends r → (2 * (n - i) + 1 ≤ fuel)%nat → here k r →
  parr (S fuel) i acc = parr fuel (after_comma k r) (acc ++ [eval t]) ∧ (i < k)%nat.
Proof.
  intros Hany Hd H0 Hi Hw1 Hw2 Hr Hf Hk.
  destruct (complete_any_next tight t d fuel i w1 w2 r k) as (i'&Hp&Hskip&Hlt); [done..|].
  split; [|done]. unfold_parser constr:(pany) constr:(pobj) constr:(parr).
  rewrite (here_doc_not _ tight t _ _ _ _ Hi) by done. unfold length_.
  destruct (Nat.leb_spec n i); [apply here_length in Hk; lia|].
  rewrite Hp. cbn zeta. by rewrite Hskip, (here_after_comma _ _ Hk).
Qed.

Definition member_text (w0 b w1 w2 d w3 r : str) : str :=
  w0 ++ QUOTE :: b ++ QUOTE :: w1 ++ COLON :: w2 ++ d ++ w3 ++ r.

(** Up to the value of a member. *)
Lemma obj_key fuel i w0 b key w1 s acc :
  here i (w0 ++ QUOTE :: b ++ QUOTE :: w1 ++ COLON :: s) → blank w0 → literal b key → blank w1 →
  ∃ k, here k s ∧ (i < k)%nat ∧
    pobj (S fuel) i acc =
    match pany fuel k with
    | Ret index (Ok value) =>
        let obj := map_insert key value acc in
        let index := skip_blank chars index in
        let index := if is_char chars index COMMA then S index else index in
        if (n <=? index)%nat then Ret index (Ok (Object obj)) else pobj fuel index obj
    | Ret index (Err e) => Ret index (Ok (Object acc))
    | other => other
    end.
Proof.
  intros Hi Hw0 Hb Hw1. pose proof (here_app _ _ _ Hi) as Hq.
  assert (here (i + length w0) ((QUOTE :: b ++ [QUOTE]) ++ w1 ++ COLON :: s)) as Hq'
    by (simpl; by rewrite <-app_assoc).
  pose proof (here_app _ _ _ Hq') as Hc. pose proof (here_app _ _ _ Hc) as Hk.
  set (j := (i + length w0 + length (QUOTE :: b ++ [QUOTE]))%nat) in *.
  exists (S (j + length w1)). split; [by apply here_cons in Hk|]. split; [unfold j; lia|].
  unfold_parser constr:(pany) constr:(pobj) constr:(parr).
  assert (is_char chars i RBRACE = false) as ->.
  { destruct Hw0 as [|y w0 Hy Hw0]; cbn [app] in Hi; rewrite (here_is_char _ _ _ _ Hi); [done|].
    apply N.eqb_neq. by intros ->. }
  rewrite (here_skip _ _ _ Hi Hw0) by done. cbn zeta. change (allows ALL OBJ) with true.
  unfold length_. rewrite andb_true_r.
  destruct (Nat.leb_spec n (i + length w0)); [apply here_length in Hq; simpl in Hq; lia|].
  rewrite (parse_str_literal _ _ _ _ Hq Hb). fold j.
  rewrite (here_skip _ _ _ Hc Hw1) by done.
  destruct (pany fuel (S (j + length w1))) as [i' [v|e]| |]; try done.
  by rewrite andb_true_r.
Qed.

Lemma obj_member tight t d fuel i w0 b key w1 w2 w3 r k acc :
  complete_any t d → doc number_value tight t d →
  here i (member_text w0 b w1 w2 d w3 r) → blank w0 → literal b key → blank w1 → blank w2 →
  blank w3 → ends r → (2 * (n - i) ≤ fuel)%nat → here k r →
  pobj (S fuel) i acc =
    (if (n <=? after_comma k r)%nat
     then Ret (after_comma k r) (Ok (Object (map_insert key (eval t) acc)))
     else pobj fuel (after_comma k r) (map_insert key (eval t) acc)) ∧ (i < k)%nat.
Proof.
  intros Hany Hd Hi Hw0 Hb Hw1 Hw2 Hw3 Hr Hf Hk.
  destruct (obj_key fuel i w0 b key w1 (w2 ++ d ++ w3 ++ r) acc) as (j&Hj&Hij&Heq); [done..|].
  destruct (complete_any_next tight t d fuel j w2 w3 r k) as (i'&Hp&Hskip&Hlt);
    [done|done|lia|done..| |done|].
  { apply here_length in Hj. destruct (doc_head _ _ _ _ Hd) as (?&?&->&_).
    rewrite !length_app in Hj. cbn [length] in Hj. lia. }
  split; [|lia]. rewrite Heq, Hp. cbn zeta. by rewrite Hskip, (here_after_comma _ _ Hk).
Qed.

Lemma complete_arr_end k r fuel acc :
  here k (RBRACKET :: r) → (0 < fuel)%nat → parr fuel k acc = Ret (S k) (Ok (Array acc)).
Proof.
  intros Hk Hf. destruct fuel as [|fuel]; [lia|].
  unfold_parser constr:(pany) constr:(pobj) constr:(parr). by rewrite (here_is_char _ _ _ _ Hk).
Qed.

Lemma complete_obj_end k r fuel acc :
  here k (RBRACE :: r) → (0 < fuel)%nat → pobj fuel k acc = Ret (S k) (Ok (Object acc)).
Proof.
  intros Hk Hf. destruct fuel as [|fuel]; [lia|].
  unfold_parser constr:(pany) constr:(pobj) constr:(parr). by rewrite (here_is_char _ _ _ _ Hk).
Qed.

(** Blanks before a member do not matter to the loop over an object. *)
Lemma parse_obj_skip fuel i acc :
  is_char chars i RBRACE = is_char chars (skip_blank chars i) RBRACE →
  (is_char chars i RBRACE = true → skip_blank chars i = i) →
  pobj fuel (skip_blank chars i) acc = pobj fuel i acc.
Proof.
  intros Heq Hid. destruct (is_char chars i RBRACE) eqn:E; [by rewrite Hid|].
  destruct fuel as [|fuel]; [done|]. unfold_parser constr:(pany) constr:(pobj) constr:(parr).
  by rewrite E, <-Heq, skip_blank_idemp.
Qed.

Lemma members_head tight ms b :
  members number_value tight ms b → ∃ w s, b = w ++ QUOTE :: s ∧ blank w.
Proof. destruct 1; eauto. Qed.

Lemma obj_skip_quote fuel i w s acc :
  here i (w ++ QUOTE :: s) → blank w → pobj fuel (skip_blank chars i) acc = pobj fuel i acc.
Proof.
  intros Hi Hw. assert (is_char chars i RBRACE = false) as E.
  { destruct Hw as [|y w Hy Hw]; cbn [app] in Hi; rewrite (here_is_char _ _ _ _ Hi); [done|].
    apply N.eqb_neq. by intros ->. }
  apply parse_obj_skip; rewrite E; [|done].
  rewrite (here_skip _ _ _ Hi Hw) by done. apply here_app in Hi. by rewrite (here_is_char _ _ _ _ Hi).
Qed.

Lemma complete_array_empty : complete_any (TArray []) (LBRACKET :: [] ++ [RBRACKET]).
Proof.
  intros [|fuel] i w rest H0 Hi Hw Hr Hf; [lia|]. apply complete_any_end; [done|].
  rewrite (parse_any_at fuel i w LBRACKET (RBRACKET :: rest)) by done. cbn zeta. cbn [N.eqb Pos.eqb].
  apply here_app in Hi. pose proof (here_cons _ _ _ Hi) as Hk. apply here_length in Hi as Hn. cbn [length app] in Hn.
  rewrite (complete_arr_end _ _ _ _ Hk) by lia. cbn [length app]. f_equal. lia.
Qed.

Lemma complete_array ts b : complete_arr ts b → complete_any (TArray ts) (LBRACKET :: b).
Proof.
  intros Harr [|fuel] i w rest H0 Hi Hw Hr Hf; [lia|]. apply complete_any_end; [done|].
  rewrite (parse_any_at fuel i w LBRACKET (b ++ rest)) by done. cbn zeta. cbn [N.eqb Pos.eqb].
  apply here_app in Hi. pose proof (here_cons _ _ _ Hi) as Hk. apply here_length in Hi as Hn. cbn [length app] in Hn.
  rewrite (Harr fuel _ rest []) by (done || lia). cbn [length app]. f_equal. lia.
Qed.

Lemma complete_object_empty w' : blank w' → complete_any (TObject []) (LBRACE :: w' ++ [RBRACE]).
Proof.
  intros Hw' [|fuel] i w rest H0 Hi Hw Hr Hf; [lia|]. apply complete_any_end; [done|].
  cbn [app] in Hi. rewrite <-app_assoc in Hi.
  rewrite (parse_any_at fuel i w LBRACE (w' ++ RBRACE :: rest)) by done. cbn zeta. cbn [N.eqb Pos.eqb].
  apply here_app in Hi. pose proof (here_cons _ _ _ Hi) as Hk. apply here_length in Hi as Hn. cbn [length app] in Hn.
  rewrite (here_skip _ _ _ Hk Hw') by done. apply here_app in Hk.
  rewrite (complete_obj_end _ _ _ _ Hk) by lia. cbn [length]. rewrite length_app. cbn [length]. f_equal. lia.
Qed.

Lemma complete_object tight ms b :
  members number_value tight ms b → complete_obj ms b → complete_any (TObject ms) (LBRACE :: b).
Proof.
  intros Hms Hobj [|fuel] i w rest H0 Hi Hw Hr Hf; [lia|]. apply complete_any_end; [done|].
  rewrite (parse_any_at fuel i w LBRACE (b ++ rest)) by done. cbn zeta. cbn [N.eqb Pos.eqb].
  apply here_app in Hi. pose proof (here_cons _ _ _ Hi) as Hk. apply here_length in Hi as Hn. cbn [length app] in Hn.
  destruct (members_head _ _ _ Hms) as (w0&s&Heq&Hw0).
  assert (here (S (i + length w)) (w0 ++ QUOTE :: (s ++ rest))) as Hk'
    by (change (here (S (i + length w)) (b ++ rest)) in Hk; by rewrite Heq, <-app_assoc in Hk).
  rewrite (obj_skip_quote _ _ _ _ _ Hk' Hw0).
  rewrite (Hobj fuel _ rest []) by (done || lia). cbn [length eval].
  unfold from_members, insert_all. f_equal. lia.
Qed.

Lemma complete_elements_last tight t d w1 w2 :
  blank w1 → doc number_value tight t d → complete_any t d → blank w2 →
  complete_arr [t] (w1 ++ d ++ w2 ++ [RBRACKET]).
Proof.
  intros Hw1 Hd Hany Hw2 [|fuel] i rest acc H0 Hi Hf; [lia|].
  pose proof (here_app _ _ _ Hi) as He. rewrite <-!app_assoc in Hi. cbn [app] in Hi.
  pose proof (here_app _ _ _ (here_app _ _ _ (here_app _ _ _ Hi))) as Hk.
  destruct (arr_element tight t d fuel i w1 w2 (RBRACKET :: rest) _ acc Hany Hd H0 Hi Hw1 Hw2 eq_refl
    ltac:(lia) Hk) as [-> Hlt].
  cbn [after_comma N.eqb Pos.eqb]. rewrite (complete_arr_end _ _ _ _ Hk) by lia.
  cbn [map]. f_equal. by eapply here_unique; [apply here_cons in Hk; exact Hk|].
Qed.

Lemma complete_elements_cons tight t ts d w1 w2 r :
  blank w1 → doc number_value tight t d → complete_any t d → blank w2 → complete_arr ts r →
  complete_arr (t :: ts) (w1 ++ d ++ w2 ++ COMMA :: r).
Proof.
  intros Hw1 Hd Hany Hw2 Harr [|fuel] i rest acc H0 Hi Hf; [lia|].
  pose proof (here_app _ _ _ Hi) as He. rewrite <-!app_assoc in Hi. cbn [app] in Hi.
  pose proof (here_app _ _ _ (here_app _ _ _ (here_app _ _ _ Hi))) as Hk.
  destruct (arr_element tight t d fuel i w1 w2 (COMMA :: r ++ rest) _ acc Hany Hd H0 Hi Hw1 Hw2 eq_refl
    ltac:(lia) Hk) as [-> Hlt].
  cbn [after_comma N.eqb Pos.eqb]. apply here_cons in Hk.
  pose proof (here_length _ _ Hk). rewrite (Harr fuel _ rest); [|lia|exact Hk|lia].
  cbn [map]. rewrite <-app_assoc. f_equal.
  by eapply here_unique; [apply here_app in Hk; exact Hk|].
Qed.

Lemma member_text_app w0 b w1 w2 d w3 r :
  member_text w0 b w1 w2 d w3 r = member_text w0 b w1 w2 d w3 [] ++ r.
Proof. unfold member_text. repeat (rewrite <-?app_assoc; cbn [app]). done. Qed.

Lemma complete_members_last tight key t w0 b w1 w2 d w3 :
  blank w0 → literal b key → blank w1 → blank w2 → doc number_value tight t d →
  complete_any t d → blank w3 →
  complete_obj [(key, t)] (member_text w0 b w1 w2 d w3 [RBRACE]).
Proof.
  intros Hw0 Hb Hw1 Hw2 Hd Hany Hw3 [|fuel] i rest acc H0 Hi Hf; [lia|].
  pose proof (here_app _ _ _ Hi) as He.
  rewrite member_text_app, <-app_assoc in Hi. pose proof (here_app _ _ _ Hi) as Hk.
  rewrite <-member_text_app in Hi. cbn [app] in Hi, Hk.
  destruct (obj_member tight t d fuel i w0 b key w1 w2 w3 (RBRACE :: rest) _ acc Hany Hd Hi Hw0 Hb
    Hw1 Hw2 Hw3 eq_refl ltac:(lia) Hk) as [-> Hlt].
  cbn [after_comma N.eqb Pos.eqb]. pose proof (here_length _ _ Hk) as Hn. cbn [length] in Hn.
  destruct (Nat.leb_spec n (i + length (member_text w0 b w1 w2 d w3 []))); [lia|].
  rewrite (complete_obj_end _ _ _ _ Hk) by lia. f_equal. apply here_cons in Hk.
  by eapply here_unique.
Qed.

Lemma complete_members_cons tight key t ms w0 b w1 w2 d w3 r :
  blank w0 → literal b key → blank w1 → blank w2 → doc number_value tight t d →
  complete_any t d → blank w3 → members number_value tight ms r → complete_obj ms r →
  complete_obj ((key, t) :: ms) (member_text w0 b w1 w2 d w3 (COMMA :: r)).
Proof.
  intros Hw0 Hb Hw1 Hw2 Hd Hany Hw3 Hms Hobj [|fuel] i rest acc H0 Hi Hf; [lia|].
  pose proof (here_app _ _ _ Hi) as He.
  rewrite member_text_app, <-app_assoc in Hi. pose proof (here_app _ _ _ Hi) as Hk.
  rewrite <-member_text_app in Hi. cbn [app] in Hi, Hk.
  destruct (obj_member tight t d fuel i w0 b key w1 w2 w3 (COMMA :: r ++ rest) _ acc Hany Hd Hi Hw0 Hb
    Hw1 Hw2 Hw3 eq_refl ltac:(lia) Hk) as [-> Hlt].
  cbn [after_comma N.eqb Pos.eqb]. apply here_cons in Hk.
  pose proof (here_length _ _ Hk) as Hn. rewrite length_app in Hn.
  destruct (members_head _ _ _ Hms) as (w'&s&Heq&_).
  assert (0 < length r)%nat by (rewrite Heq, length_app; cbn [length]; lia).
  destruct (Nat.leb_spec n (S (i + length (member_text w0 b w1 w2 d w3 [])))); [lia|].
  rewrite (Hobj fuel _ rest) by (done || lia). f_equal. apply here_app in Hk.
  by eapply here_unique.
Qed.

(** The value of a complete document, whatever surrounds it. *)
Lemma complete_grammar :
  (∀ t d, doc number_value true t d → complete_any t d) ∧
  (∀ ts b, elements number_value true ts b → complete_arr ts b) ∧
  (∀ ms b, members number_value true ms b → complete_obj ms b).
Proof.
  apply doc_elements_members_ind; intros.
  - apply complete_null.
  - apply (complete_bool true).
  - apply (complete_bool false).
  - by apply complete_number.
  - by apply complete_string.
  - rewrite (e eq_refl). apply complete_array_empty.
  - by apply complete_array.
  - by apply complete_object_empty.
  - by eapply complete_object.
  - by eapply complete_elements_last.
  - by eapply complete_elements_cons.
  - by eapply complete_members_last.
  - by eapply complete_members_cons.
Qed.

(** ** Parts of documents *)

Definition proper (p s : str) : Prop := p `prefix_of` s ∧ p ≠ s.

Lemma proper_app_cases p a b :
  proper p (a ++ b) → proper p a ∨ ∃ q, p = a ++ q ∧ proper q b.
Proof.
  intros [[Hp|(q&->&Hq)]%prefix_app_cases Hne].
  - destruct (decide (p = a)) as [->|]; [|by left]. right. exists [].
    rewrite app_nil_r. split; [done|]. split; [apply prefix_nil|].
    intros <-. by rewrite app_nil_r in Hne.
  - right. exists q. split; [done|]. split; [done|]. by intros ->.
Qed.

Lemma proper_cons_cases p c s : proper p (c :: s) → p = [] ∨ ∃ q, p = c :: q ∧ proper q s.
Proof.
  intros [Hp Hne]. destruct p as [|x p]; [by left|right].
  pose proof (prefix_cons_inv_1 _ _ _ _ Hp) as ->. apply prefix_cons_inv_2 in Hp.
  exists p. split; [done|]. split; [done|]. by intros ->.
Qed.

Lemma proper_nil c s : proper [] (c :: s).
Proof. split; [apply prefix_nil|done]. Qed.

Lemma proper_blank w1 w : blank w → proper w1 w → blank w1.
Proof. intros Hw [[r ->] _]. by apply blank_app in Hw as [? _]. Qed.

Definition part_any (t : tree Num) (d : str) : Prop := ∀ fuel i w p,
  (0 < i)%nat → here i (w ++ p) → blank w → proper p d → (2 * (n - i) + 1 ≤ fuel)%nat →
  preview t (pany fuel i).

(** What a container cut short holds. *)
Definition arr_part (ts : list (tree Num)) (x : list (Value Num)) : Prop :=
  (∃ l1 l2, ts = l1 ++ l2 ∧ x = map eval l1) ∨
  (∃ l1 t l2 v, ts = l1 ++ t :: l2 ∧ x = map eval l1 ++ [v] ∧ shows number_value t v).

Definition obj_part (ms : list (str * tree Num)) (x : list (str * Value Num)) : Prop :=
  (∃ l1 l2, ms = l1 ++ l2 ∧ x = map eval_member l1) ∨
  (∃ l1 k t l2 v, ms = l1 ++ (k, t) :: l2 ∧ x = map eval_member l1 ++ [(k, v)] ∧
                  shows number_value t v).

Lemma arr_part_nil ts : arr_part ts [].
Proof. left. by exists [], ts. Qed.
Lemma arr_part_in t ts v : shows number_value t v → arr_part (t :: ts) [v].
Proof. intros H. right. by exists [], t, ts, v. Qed.
Lemma arr_part_cons t ts x : arr_part ts x → arr_part (t :: ts) (eval t :: x).
Proof.
  intros [(l1&l2&->&->)|(l1&t'&l2&v&->&->&Hv)]; [left; by exists (t :: l1), l2|].
  right. by exists (t :: l1), t', l2, v.
Qed.
Lemma arr_part_shows ts x : arr_part ts x → shows number_value (TArray ts) (Array x).
Proof. intros [(l1&l2&->&->)|(l1&t'&l2&v&->&->&Hv)]; by constructor. Qed.

Lemma obj_part_nil ms : obj_part ms [].
Proof. left. by exists [], ms. Qed.
Lemma obj_part_in k t ms v : shows number_value t v → obj_part ((k, t) :: ms) [(k, v)].
Proof. intros H. right. by exists [], k, t, ms, v. Qed.
Lemma obj_part_cons k t ms x : obj_part ms x → obj_part ((k, t) :: ms) ((k, eval t) :: x).
Proof.
  intros [(l1&l2&->&->)|(l1&k'&t'&l2&v&->&->&Hv)]; [left; by exists ((k, t) :: l1), l2|].
  right. by exists ((k, t) :: l1), k', t', l2, v.
Qed.
Lemma obj_part_shows ms x :
  obj_part ms x → shows number_value (TObject ms) (Object (insert_all [] x)).
Proof.
  intros [(l1&l2&->&->)|(l1&k&t'&l2&v&->&->&Hv)];
    change (insert_all []) with (@from_members (Value Num)); by constructor.
Qed.

#[local] Hint Resolve arr_part_nil arr_part_in arr_part_cons obj_part_nil obj_part_in obj_part_cons : core.

Definition arr_cut (ts : list (tree Num)) (acc : list (Value Num)) (o : outcome (Value Num)) : Prop :=
  ∃ i x, o = Ret i (Ok (Array (acc ++ x))) ∧ (n ≤ i)%nat ∧ arr_part ts x.
Definition obj_cut (ms : list (str * tree Num)) acc (o : outcome (Value Num)) : Prop :=
  ∃ i x, o = Ret i (Ok (Object (insert_all acc x))) ∧ (n ≤ i)%nat ∧ obj_part ms x.

Definition part_arr (ts : list (tree Num)) (b : str) : Prop := ∀ fuel i q acc,
  (0 < i)%nat → here i q → proper q b → (2 * (n - i) + 2 ≤ fuel)%nat →
  arr_cut ts acc (parr fuel i acc).
Definition part_obj (ms : list (str * tree Num)) (b : str) : Prop := ∀ fuel i q acc,
  (0 < i)%nat → here i q → proper q b → (2 * (n - i) + 2 ≤ fuel)%nat →
  obj_cut ms acc (pobj fuel i acc).

Lemma arr_cut_here ts acc i : (n ≤ i)%nat → arr_cut ts acc (Ret i (Ok (Array acc))).
Proof. intros H. exists i, []. by rewrite app_nil_r. Qed.
Lemma obj_cut_here ms acc i : (n ≤ i)%nat → obj_cut ms acc (Ret i (Ok (Object acc))).
Proof. intros H. by exists i, []. Qed.

Lemma parr_end fuel i acc : (n ≤ i)%nat → parr (S fuel) i acc = Ret i (Ok (Array acc)).
Proof.
  intros H. unfold_parser constr:(pany) constr:(pobj) constr:(parr). rewrite end_is_char by done.
  unfold length_. by destruct (Nat.leb_spec n i); [|lia].
Qed.

Lemma pobj_end fuel i w acc :
  here i w → blank w → ∃ k, pobj (S fuel) i acc = Ret k (Ok (Object acc)) ∧ (n ≤ k)%nat.
Proof.
  intros Hi Hw. unfold_parser constr:(pany) constr:(pobj) constr:(parr).
  assert (is_char chars i RBRACE = false) as ->.
  { destruct Hw as [|y w Hy Hw]; [apply end_is_char; apply here_length in Hi; simpl in Hi; lia|].
    rewrite (here_is_char _ _ _ _ Hi). apply N.eqb_neq. by intros ->. }
  assert (here i (w ++ [])) as Hi' by by rewrite app_nil_r.
  rewrite (here_skip _ _ _ Hi' Hw I). apply here_length in Hi as Hn. cbn zeta. unfold length_.
  destruct (Nat.leb_spec n (i + length w)); [|lia]. change (allows ALL OBJ) with true.
  eexists. split; [done|lia].
Qed.

(** An element cut short ends the array, with or without the element. *)
Lemma arr_value_part t d ts fuel i w p acc :
  part_any t d → (∃ tight, doc number_value tight t d) → (0 < i)%nat → here i (w ++ p) →
  blank w → proper p d → (2 * (n - i) + 1 ≤ fuel)%nat →
  arr_cut (t :: ts) acc (parr (S fuel) i acc).
Proof.
  intros Hany [tight Hd] H0 Hi Hw Hp Hf.
  destruct (decide (n ≤ i)%nat) as [Hle|Hgt]; [rewrite parr_end by done; by apply arr_cut_here|].
  unfold_parser constr:(pany) constr:(pobj) constr:(parr).
  assert (is_char chars i RBRACKET = false) as ->.
  { destruct Hw as [|y w Hy Hw]; cbn [app] in Hi.
    - destruct p as [|c p]; [apply here_length in Hi; simpl in Hi; lia|].
      rewrite (here_is_char _ _ _ _ Hi). apply N.eqb_neq. intros ->.
      destruct (doc_head _ _ _ _ Hd) as (x&r&->&Hx), Hp as [Hp _].
      pose proof (prefix_cons_inv_1 _ _ _ _ Hp) as <-. done.
    - rewrite (here_is_char _ _ _ _ Hi). apply N.eqb_neq. by intros ->. }
  unfold length_. destruct (Nat.leb_spec n i); [lia|].
  destruct (Hany fuel i w p) as (i'&[v|e]&->&Hn&Hv); [done..| |].
  - rewrite skip_blank_end by done. rewrite end_is_char by done.
    destruct fuel as [|fuel]; [lia|]. rewrite parr_end by done.
    exists i', [v]. split; [done|]. split; [done|]. by apply arr_part_in, Hv.
  - change (allows ALL ARR) with true. by apply arr_cut_here.
Qed.

(** An element that is complete, with nothing but blanks after it. *)
Lemma arr_value_whole t d ts fuel i w1 w2 acc :
  complete_any t d → doc number_value true t d → (0 < i)%nat → here i (w1 ++ d ++ w2) →
  blank w1 → blank w2 → (2 * (n - i) + 1 ≤ fuel)%nat →
  arr_cut (t :: ts) acc (parr (S fuel) i acc).
Proof.
  intros Hany Hd H0 Hi Hw1 Hw2 Hf.
  assert (here i (w1 ++ d ++ w2 ++ [])) as Hi' by by rewrite app_nil_r.
  pose proof (here_app _ _ _ (here_app _ _ _ (here_app _ _ _ Hi'))) as Hk.
  destruct (arr_element true t d fuel i w1 w2 [] _ acc Hany Hd H0 Hi' Hw1 Hw2 I Hf Hk) as [-> Hlt].
  pose proof (here_length _ _ Hk) as Hn. cbn [length] in Hn. cbn [after_comma].
  destruct fuel as [|fuel]; [lia|]. rewrite parr_end by lia.
  eexists _, [eval t]. split; [done|]. split; [lia|]. auto.
Qed.

Lemma part_elements_cons t ts d w1 w2 c r :
  (c = RBRACKET ∨ c = COMMA ∧ part_arr ts r) →
  blank w1 → doc number_value true t d → complete_any t d → part_any t d → blank w2 →
  part_arr (t :: ts) (w1 ++ d ++ w2 ++ c :: (if c =? COMMA then r else [])).
Proof.
  intros Hc Hw1 Hd Hcom Hany Hw2 [|fuel] i q acc H0 Hi Hq Hf; [lia|].
  apply proper_app_cases in Hq as [Hq|(p&->&Hp)].
  { destruct (doc_head _ _ _ _ Hd) as (x&s&Hds&_).
    apply (arr_value_part t d ts fuel i q [] acc); try done; [by exists true|by rewrite app_nil_r|
      by apply (proper_blank q w1)|rewrite Hds; apply proper_nil|lia]. }
  apply proper_app_cases in Hp as [Hp|(p'&->&Hp)].
  { apply (arr_value_part t d ts fuel i w1 p acc); try done; [by exists true|lia]. }
  apply proper_app_cases in Hp as [Hp|(p''&->&Hp)].
  { eapply (arr_value_whole t d ts fuel i w1 p'); try done; [by apply (proper_blank p' w2)|lia]. }
  apply proper_cons_cases in Hp as [->|(p&->&Hp)].
  { eapply (arr_value_whole t d ts fuel i w1 w2); try done; [by rewrite app_nil_r in Hi|lia]. }
  destruct Hc as [->|[-> Harr]]; cbn [N.eqb Pos.eqb] in Hp.
  { destruct Hp as [->%prefix_nil_inv []]. done. }
  pose proof (here_app _ _ _ (here_app _ _ _ (here_app _ _ _ Hi))) as Hk.
  destruct (arr_element true t d fuel i w1 w2 (COMMA :: p) _ acc Hcom Hd H0 Hi Hw1 Hw2 eq_refl
    ltac:(lia) Hk) as [-> Hlt].
  cbn [after_comma N.eqb Pos.eqb]. apply here_cons in Hk. pose proof (here_length _ _ Hk).
  unshelve epose proof (Harr fuel _ p (acc ++ [eval t]) _ Hk Hp _) as (i'&x&->&Hn&Hx); [lia..|].
  exists i', (eval t :: x). rewrite <-app_assoc. auto.
Qed.

(** A name cut short, or without a value, ends the object. *)
Lemma obj_name_part fuel i w0 b key q ms acc :
  (0 < fuel)%nat → here i (w0 ++ QUOTE :: q) → blank w0 → literal b key →
  (q `prefix_of` b ∨ ∃ w1, q = b ++ QUOTE :: w1 ∧ blank w1) →
  obj_cut ms acc (pobj (S fuel) i acc).
Proof.
  intros Hf Hi Hw0 Hb Hq.
  unfold_parser constr:(pany) constr:(pobj) constr:(parr).
  assert (is_char chars i RBRACE = false) as ->.
  { destruct Hw0 as [|y w0 Hy Hw0]; cbn [app] in Hi; rewrite (here_is_char _ _ _ _ Hi); [done|].
    apply N.eqb_neq. by intros ->. }
  rewrite (here_skip _ _ _ Hi Hw0) by done. apply here_app in Hi. cbn zeta. unfold length_.
  change (allows ALL OBJ) with true. rewrite andb_true_r.
  destruct (Nat.leb_spec n (i + length w0)); [apply here_length in Hi; simpl in Hi; lia|].
  assert (∃ j r, parse_str from_str chars ALL (i + length w0) = Ret j r ∧
    (n ≤ skip_blank chars j)%nat ∧ (∀ e, r = Err e → n ≤ j)%nat) as (j&[v|e]&->&Hj&Herr).
  { destruct Hq as [Hq|(w1&->&Hw1)].
    - destruct (parse_str_part _ _ _ _ Hi Hb Hq) as (j&r&->&Hn&_). exists j, r.
      split; [done|]. by rewrite skip_blank_end.
    - rewrite (parse_str_literal _ _ _ _ Hi Hb). eexists _, _. split; [done|].
      assert (here (i + length w0) ((QUOTE :: b ++ [QUOTE]) ++ w1 ++ [])) as Hi'
        by (simpl; by rewrite app_nil_r, <-app_assoc).
      apply here_app in Hi'. rewrite (here_skip _ _ _ Hi' Hw1 I).
      apply here_app, here_length in Hi'. simpl in Hi' |- *. split; [lia|done]. }
  - destruct fuel as [|fuel]; [lia|]. destruct (parse_any_end fuel (S (skip_blank chars j)) []) as (k&e&->&Hk); [left; lia|].
    by apply obj_cut_here.
  - by eapply obj_cut_here, Herr.
Qed.

(** A value cut short ends the object, with or without the member. *)
Lemma obj_value_part t d ms fuel i w0 b key w1 w2 p acc :
  part_any t d → here i (w0 ++ QUOTE :: b ++ QUOTE :: w1 ++ COLON :: w2 ++ p) → blank w0 →
  literal b key → blank w1 → blank w2 → proper p d → (2 * (n - i) ≤ fuel)%nat →
  obj_cut ((key, t) :: ms) acc (pobj (S fuel) i acc).
Proof.
  intros Hany Hi Hw0 Hb Hw1 Hw2 Hp Hf.
  destruct (obj_key fuel i w0 b key w1 (w2 ++ p) acc) as (k&Hk&Hlt&->); [done..|].
  pose proof (here_length _ _ Hk).
  destruct (Hany fuel k w2 p) as (i'&[v|e]&->&Hn&Hv); [lia|done|done|done|lia| |].
  - cbn zeta. rewrite skip_blank_end by done. rewrite end_is_char by done.
    destruct (Nat.leb_spec n i'); [|lia].
    exists i', [(key, v)]. split; [done|]. split; [done|]. by apply obj_part_in, Hv.
  - by apply obj_cut_here.
Qed.

Lemma obj_value_whole t d ms fuel i w0 b key w1 w2 w3 acc :
  complete_any t d → doc number_value true t d →
  here i (member_text w0 b w1 w2 d w3 []) → blank w0 → literal b key → blank w1 → blank w2 →
  blank w3 → (2 * (n - i) ≤ fuel)%nat →
  obj_cut ((key, t) :: ms) acc (pobj (S fuel) i acc).
Proof.
  intros Hany Hd Hi Hw0 Hb Hw1 Hw2 Hw3 Hf.
  assert (here i (member_text w0 b w1 w2 d w3 [] ++ [])) as Hi' by by rewrite app_nil_r.
  pose proof (here_app _ _ _ Hi') as Hk.
  destruct (obj_member true t d fuel i w0 b key w1 w2 w3 [] _ acc Hany Hd Hi Hw0 Hb Hw1 Hw2 Hw3 I Hf Hk)
    as [-> Hlt].
  pose proof (here_length _ _ Hk) as Hn. cbn [length] in Hn. cbn [after_comma].
  destruct (Nat.leb_spec n (i + length (member_text w0 b w1 w2 d w3 []))); [|lia].
  eexists _, [(key, eval t)]. split; [done|]. split; [lia|]. auto.
Qed.

(** Where in a member a text is cut. *)
Lemma member_cases q w0 b w1 w2 d w3 r :
  proper q (member_text w0 b w1 w2 d w3 r) →
  q `prefix_of` w0 ∨
  (∃ q', q = w0 ++ QUOTE :: q' ∧ (q' `prefix_of` b ∨ ∃ w, q' = b ++ QUOTE :: w ∧ w `prefix_of` w1)) ∨
  (∃ w p, q = w0 ++ QUOTE :: b ++ QUOTE :: w1 ++ COLON :: w ++ p ∧ w `prefix_of` w2 ∧
     (p = [] ∨ w = w2 ∧ proper p d)) ∨
  (∃ w, q = member_text w0 b w1 w2 d w [] ∧ w `prefix_of` w3) ∨
  (∃ q', q = member_text w0 b w1 w2 d w3 q' ∧ q' ≠ [] ∧ proper q' r).
Proof.
  unfold member_text. intros Hq.
  apply proper_app_cases in Hq as [[Hq _]|(q1&->&Hq)]; [by left|].
  apply proper_cons_cases in Hq as [->|(q2&->&Hq)]; [left; by rewrite app_nil_r|right].
  apply proper_app_cases in Hq as [[Hq _]|(q3&->&Hq)]; [left; eauto|].
  apply proper_cons_cases in Hq as [->|(q4&->&Hq)].
  { left. eexists. split; [done|]. left. by rewrite app_nil_r. }
  apply proper_app_cases in Hq as [[Hq _]|(q5&->&Hq)]; [left; eauto 10|].
  apply proper_cons_cases in Hq as [->|(q6&->&Hq)].
  { left. eexists. split; [done|]. right. exists w1. by rewrite app_nil_r. }
  right. apply proper_app_cases in Hq as [[Hq _]|(q7&->&Hq)].
  { left. exists q6, []. rewrite app_nil_r. eauto. }
  apply proper_app_cases in Hq as [Hq|(q8&->&Hq)]; [left; exists w2, q7; eauto|].
  right. apply proper_app_cases in Hq as [[Hq _]|(q9&->&Hq)].
  { left. exists q8. by rewrite app_nil_r. }
  destruct (decide (q9 = [])) as [->|Hne]; [left; by exists w3|right; eauto].
Qed.

Lemma blank_prefix w w' : blank w → w' `prefix_of` w → blank w'.
Proof. intros Hw [r ->]. by apply blank_app in Hw as [? _]. Qed.

Lemma part_members_cons key t ms w0 b w1 w2 d w3 c r :
  (c = RBRACE ∨ c = COMMA ∧ part_obj ms r) →
  blank w0 → literal b key → blank w1 → blank w2 → doc number_value true t d →
  complete_any t d → part_any t d → blank w3 →
  part_obj ((key, t) :: ms) (member_text w0 b w1 w2 d w3 (c :: (if c =? COMMA then r else []))).
Proof.
  intros Hc Hw0 Hb Hw1 Hw2 Hd Hcom Hany Hw3 [|fuel] i q acc H0 Hi Hq Hf; [lia|].
  apply member_cases in Hq as [Hq|[(q'&->&Hq)|[(w&p&->&Hw&Hp)|[(w&->&Hw)|(q'&->&Hne&Hq)]]]].
  - destruct (pobj_end fuel i q acc Hi (blank_prefix _ _ Hw0 Hq)) as (k&->&Hk). by apply obj_cut_here.
  - eapply obj_name_part; [lia|exact Hi|done|done|].
    destruct Hq as [Hq|(w&->&Hw)]; [by left|right; exists w; eauto using blank_prefix].
  - destruct (doc_head _ _ _ _ Hd) as (x&s&Hds&_).
    eapply (obj_value_part t d ms fuel i w0 b key w1 w p); try done; [by apply (blank_prefix w2)| |lia].
    destruct Hp as [->|[_ Hp]]; [|done]. rewrite Hds. apply proper_nil.
  - eapply (obj_value_whole t d ms fuel i w0 b key w1 w2 w); try done; [by apply (blank_prefix w3)|lia].
  - destruct q' as [|c' q']; [done|]. apply proper_cons_cases in Hq as [?|(p&Heq&Hp)]; [done|].
    simplify_eq. destruct Hc as [->|[-> Hobj]]; cbn [N.eqb Pos.eqb] in Hp.
    { destruct Hp as [->%prefix_nil_inv []]. done. }
    assert (here i (member_text w0 b w1 w2 d w3 [] ++ COMMA :: p)) as Hi'
      by by rewrite <-member_text_app.
    pose proof (here_app _ _ _ Hi') as Hk.
    destruct (obj_member true t d fuel i w0 b key w1 w2 w3 (COMMA :: p) _ acc Hcom Hd Hi Hw0 Hb Hw1
      Hw2 Hw3 eq_refl ltac:(lia) Hk) as [-> Hlt].
    cbn [after_comma N.eqb Pos.eqb]. apply here_cons in Hk. pose proof (here_length _ _ Hk).
    destruct (Nat.leb_spec n (S (i + length (member_text w0 b w1 w2 d w3 [])))).
    { eexists _, [(key, eval t)]. auto. }
    unshelve epose proof (Hobj fuel _ p (map_insert key (eval t) acc) _ Hk Hp _)
      as (i'&x&->&Hn&Hx); [lia..|].
    exists i', ((key, eval t) :: x). auto.
Qed.

Lemma part_any_intro t d :
  (∀ fuel i w c p, (0 < i)%nat → here i (w ++ c :: p) → blank w → proper (c :: p) d →
     (2 * (n - i) ≤ fuel)%nat → preview t (pany (S fuel) i)) →
  part_any t d.
Proof.
  intros H [|fuel] i w [|c p] H0 Hi Hw Hp Hf; [lia..| |apply (H fuel i w c p); (done || lia)].
  rewrite app_nil_r in Hi. destruct (parse_any_end fuel i w) as (j&e&->&Hj); [by right|].
  by apply preview_err.
Qed.

Lemma proper_length p s : proper p s → (length p < length s)%nat.
Proof.
  intros [[r ->] Hne]. rewrite length_app. destruct r; [by rewrite app_nil_r in Hne|simpl; lia].
Qed.

Lemma word_at_part i p word flag :
  here i p → allows ALL flag = true → proper p word → word_at chars ALL i word flag 0 = true.
Proof.
  intros Hi Hf Hp. rewrite (word_at_here _ _ _ _ _ Hi Hf). pose proof (proper_length _ _ Hp) as Hl.
  apply Nat.ltb_lt in Hl. rewrite Hl. destruct Hp as [[r ->] _].
  unfold starts_with. rewrite strip_prefix_app. by rewrite !orb_true_r.
Qed.

Lemma part_null : part_any TNull (lit "null").
Proof.
  apply part_any_intro. intros fuel i w c p H0 Hi Hw Hp Hf. pose proof (proper_length _ _ Hp) as Hl.
  assert (c = 110) as -> by (destruct Hp as [Hp _]; by apply prefix_cons_inv_1 in Hp).
  rewrite (parse_any_at fuel i w 110 p) by done. cbn zeta. cbn [N.eqb Pos.eqb].
  apply here_app in Hi. unfold parse_word. rewrite (word_at_part _ _ _ _ Hi) by done.
  apply here_length in Hi. change (length (lit "null")) with 4%nat in Hl.
  apply preview_ok; [lia|constructor].
Qed.

Lemma part_bool b : part_any (TBool b) (if b then lit "true" else lit "false").
Proof.
  apply part_any_intro. intros fuel i w c p H0 Hi Hw Hp Hf. pose proof (proper_length _ _ Hp) as Hl.
  destruct b.
  - assert (c = 116) as -> by (destruct Hp as [Hp _]; by apply prefix_cons_inv_1 in Hp).
    rewrite (parse_any_at fuel i w 116 p) by done. cbn zeta. cbn [N.eqb Pos.eqb].
    apply here_app in Hi. unfold parse_word. change (lit "null") with (110 :: lit "ull").
    rewrite (word_at_other _ _ _ _ _ _ _ Hi), (word_at_part _ _ _ _ Hi) by done.
    apply here_length in Hi. change (length (lit "true")) with 4%nat in Hl.
    apply preview_ok; [lia|constructor].
  - assert (c = 102) as -> by (destruct Hp as [Hp _]; by apply prefix_cons_inv_1 in Hp).
    rewrite (parse_any_at fuel i w 102 p) by done. cbn zeta. cbn [N.eqb Pos.eqb].
    apply here_app in Hi. unfold parse_word.
    change (lit "null") with (110 :: lit "ull"). change (lit "true") with (116 :: lit "rue").
    rewrite !(word_at_other _ _ _ _ _ _ _ Hi), (word_at_part _ _ _ _ Hi) by done.
    apply here_length in Hi. change (length (lit "false")) with 5%nat in Hl.
    apply preview_ok; [lia|constructor].
Qed.

Lemma part_number d m : json_number d = true → part_any (TNumber d m) d.
Proof.
  intros Hd. apply part_any_intro. intros fuel i w c p H0 Hi Hw [Hp _] Hf.
  destruct (json_number_chars _ Hd) as (Hch&c'&s&->&Hc).
  pose proof (prefix_cons_inv_1 _ _ _ _ Hp) as <-.
  rewrite (parse_any_at fuel i w c p); [|done|done|].
  2:{ apply doc_start_not_blank. unfold doc_start. by rewrite Hc. }
  assert (number_chars (c :: p)) as Hcp.
  { destruct Hp as [r Hr]. rewrite Hr in Hch. by apply Forall_app in Hch as [? _]. }
  inversion Hch as [|?? (_&_&_&_&H1&H2&H3)%number_char_plain _]; subst.
  apply N.eqb_neq in H1, H2, H3. cbn zeta. rewrite H1, H2, H3.
  apply here_app in Hi. rewrite (parse_word_number _ c p); [|done|done|].
  2:{ pose proof (number_second c p [] Hcp) as Hs. rewrite app_nil_r in Hs. apply Hs.
      exists [], []. split; [done|]. split; [constructor|done]. }
  apply parse_num_part with c p; (done || lia).
Qed.

Lemma part_string b s : literal b s → part_any (TString s) (QUOTE :: b ++ [QUOTE]).
Proof.
  intros Hb. apply part_any_intro. intros fuel i w c p H0 Hi Hw Hp Hf.
  apply proper_cons_cases in Hp as [?|(q&Heq&Hq)]; [done|]. simplify_eq.
  rewrite (parse_any_at fuel i w QUOTE q) by done. cbn zeta. cbn [N.eqb Pos.eqb].
  apply here_app in Hi. apply parse_str_part with b q; [done|done|].
  apply proper_app_cases in Hq as [[Hq _]|(r&->&Hr)]; [done|].
  apply proper_cons_cases in Hr as [->|(r'&->&[->%prefix_nil_inv []])]; [|done]. by rewrite app_nil_r.
Qed.

Lemma part_array ts b : part_arr ts b → part_any (TArray ts) (LBRACKET :: b).
Proof.
  intros Harr. apply part_any_intro. intros fuel i w c p H0 Hi Hw Hp Hf.
  apply proper_cons_cases in Hp as [?|(q&Heq&Hq)]; [done|]. simplify_eq.
  rewrite (parse_any_at fuel i w LBRACKET q) by done. cbn zeta. cbn [N.eqb Pos.eqb].
  apply here_app, here_cons in Hi. pose proof (here_length _ _ Hi).
  unshelve epose proof (Harr fuel _ q [] _ Hi Hq _) as (i'&x&->&Hn&Hx); [lia..|].
  apply preview_ok; [done|]. by apply arr_part_shows.
Qed.

Lemma part_array_empty : part_arr [] [RBRACKET].
Proof.
  intros [|fuel] i q acc H0 Hi Hq Hf; [lia|].
  apply proper_cons_cases in Hq as [->|(r'&->&[->%prefix_nil_inv []])]; [|done].
  apply here_length in Hi. simpl in Hi. rewrite parr_end by lia. apply arr_cut_here. lia.
Qed.

Lemma part_object_empty w : blank w → part_obj [] (w ++ [RBRACE]).
Proof.
  intros Hw [|fuel] i q acc H0 Hi Hq Hf; [lia|].
  assert (blank q) as Hb.
  { apply proper_app_cases in Hq as [Hq|(r&->&Hr)]; [by eapply proper_blank|].
    apply proper_cons_cases in Hr as [->|(r'&->&[->%prefix_nil_inv []])]; [|done]. by rewrite app_nil_r. }
  destruct (pobj_end fuel i q acc Hi Hb) as (k&->&Hk). by apply obj_cut_here.
Qed.

(** The text after the opening brace: blanks, then a name or nothing. *)
Definition name_or_blank (q : str) : Prop := blank q ∨ ∃ w s, q = w ++ QUOTE :: s ∧ blank w.

Lemma obj_skip_part fuel i q acc :
  here i q → name_or_blank q → pobj fuel (skip_blank chars i) acc = pobj fuel i acc.
Proof.
  intros Hi [Hq|(w&s&->&Hw)]; [|by eapply obj_skip_quote].
  assert (is_char chars i RBRACE = false) as E.
  { destruct Hq as [|y w Hy Hw]; [apply end_is_char; apply here_length in Hi; simpl in Hi; lia|].
    rewrite (here_is_char _ _ _ _ Hi). apply N.eqb_neq. by intros ->. }
  apply parse_obj_skip; rewrite E; [|done]. symmetry. apply end_is_char.
  assert (here i (q ++ [])) as Hi' by by rewrite app_nil_r.
  rewrite (here_skip _ _ _ Hi' Hq I). apply here_length in Hi. lia.
Qed.

Lemma part_object ms b :
  part_obj ms b → (∀ q, proper q b → name_or_blank q) → part_any (TObject ms) (LBRACE :: b).
Proof.
  intros Hobj Hb. apply part_any_intro. intros fuel i w c p H0 Hi Hw Hp Hf.
  apply proper_cons_cases in Hp as [?|(q&Heq&Hq)]; [done|]. simplify_eq.
  rewrite (parse_any_at fuel i w LBRACE q) by done. cbn zeta. cbn [N.eqb Pos.eqb].
  apply here_app, here_cons in Hi. pose proof (here_length _ _ Hi).
  rewrite (obj_skip_part _ _ _ _ Hi (Hb _ Hq)).
  unshelve epose proof (Hobj fuel _ q [] _ Hi Hq _) as (i'&x&->&Hn&Hx); [lia..|].
  apply preview_ok; [done|]. by apply obj_part_shows.
Qed.

Lemma proper_name_or_blank w c s q :
  blank w → c = QUOTE ∨ s = [] → proper q (w ++ c :: s) → name_or_blank q.
Proof.
  intros Hw Hc Hq. apply proper_app_cases in Hq as [Hq|(r&->&Hr)]; [left; by eapply proper_blank|].
  apply proper_cons_cases in Hr as [->|(r'&->&Hr)]; [left; by rewrite app_nil_r|].
  destruct Hc as [->| ->]; [right; by exists w, r'|]. by destruct Hr as [->%prefix_nil_inv []].
Qed.

(** What a part of a document shows, whatever is before it. *)
Lemma part_grammar :
  (∀ t d, doc number_value true t d → part_any t d) ∧
  (∀ ts b, elements number_value true ts b → part_arr ts b) ∧
  (∀ ms b, members number_value true ms b → part_obj ms b).
Proof.
  destruct complete_grammar as [Hcom _].
  apply doc_elements_members_ind; intros.
  - apply part_null.
  - apply (part_bool true).
  - apply (part_bool false).
  - by apply part_number.
  - by apply part_string.
  - rewrite (e eq_refl). apply part_array, part_array_empty.
  - by apply part_array.
  - apply part_object; [by apply part_object_empty|]. intros q. by apply proper_name_or_blank; [|right].
  - destruct (members_head _ _ _ m) as (w&s&->&Hw).
    apply part_object; [done|]. intros q. by apply proper_name_or_blank; [|left].
  - apply (part_elements_cons t [] d w1 w2 RBRACKET []); auto.
  - apply (part_elements_cons t ts d w1 w2 COMMA r); auto.
  - apply (part_members_cons k t [] w0 b w1 w2 d w3 RBRACE []); auto.
  - apply (part_members_cons k t ms w0 b w1 w2 d w3 COMMA r); auto.
Qed.

End cursor.

(** ** Whole texts *)

Lemma trim_end_prefix s : trim_end s `prefix_of` s.
Proof.
  induction s as [|c s IH]; [done|]. cbn [trim_end].
  destruct (trim_end s); [destruct (is_whitespace c); [apply prefix_nil|apply prefix_cons, prefix_nil]|].
  by apply prefix_cons.
Qed.

Lemma trim_start_blank w s : blank w → trim_start (w ++ s) = trim_start s.
Proof.
  induction 1 as [|c w Hc Hw IH]; [done|]. cbn [app trim_start].
  by rewrite (is_blank_whitespace _ Hc).
Qed.

Section texts.
Context {Num : Type} {J : SerdeJson Num}.

(** The body of an object: what the loop over its members makes of it and of its parts. *)
Lemma object_body chars ms d :
  doc number_value true (TObject ms) d →
  ∃ b, d = LBRACE :: b ∧ part_obj chars ms b ∧ (∀ q, proper q b → name_or_blank q) ∧
    ∀ fuel rest, here chars 1 (b ++ rest) → (2 * (length chars - 1) + 2 ≤ fuel)%nat →
      ∃ i, parse_obj from_str value_to_string chars ALL fuel (skip_blank chars 1) []
           = Ret i (Ok (eval (TObject ms))).
Proof.
  intros Hd. inversion Hd as [| | | | | | |w Hw|? b Hb]; subst.
  - exists (w ++ [RBRACE]). split; [done|]. split; [by apply part_object_empty|].
    split; [intros q; by apply proper_name_or_blank; [|right]|].
    intros fuel rest Hi Hf. rewrite <-app_assoc in Hi. rewrite (here_skip _ _ _ _ Hi Hw) by done.
    apply here_app in Hi. rewrite (complete_obj_end _ _ _ _ _ Hi) by lia. eauto.
  - exists b. split; [done|]. split; [by apply part_grammar|].
    destruct (members_head _ _ _ Hb) as (w&s&Heq&Hw). split.
    { intros q. rewrite Heq. by apply proper_name_or_blank; [|left]. }
    intros fuel rest Hi Hf. pose proof (proj2 (proj2 (complete_grammar chars)) _ _ Hb) as Hcom.
    assert (here chars 1 (w ++ QUOTE :: (s ++ rest))) as Hi'
      by (rewrite Heq, <-app_assoc in Hi; exact Hi).
    rewrite (obj_skip_quote _ _ _ _ _ _ Hi' Hw), (Hcom fuel 1%nat rest []) by (done || lia). eauto.
Qed.

Lemma parse_any_object q fuel :
  parse_any from_str value_to_string (LBRACE :: q) ALL (S fuel) 0 =
  parse_obj from_str value_to_string (LBRACE :: q) ALL fuel (skip_blank (LBRACE :: q) 1) [].
Proof.
  assert (here (LBRACE :: q) 0 ([] ++ LBRACE :: q)) as Hi by (split; [simpl; lia|done]).
  by rewrite (parse_any_at _ fuel 0 [] LBRACE q Hi blank_nil).
Qed.

Lemma here_tail c q : here (c :: q) 1 q.
Proof. split; [simpl; lia|done]. Qed.

Lemma parse_object_part ms d p :
  doc number_value true (TObject ms) d → proper p d → p ≠ [] →
  ∃ i v, parse_any from_str value_to_string p ALL (parse_fuel p) 0 = Ret i (Ok v) ∧
         shows number_value (TObject ms) v.
Proof.
  intros Hd Hp Hne. destruct (object_body p ms d Hd) as (b&->&Hpart&Hnb&_).
  apply proper_cons_cases in Hp as [|(q&->&Hq)]; [done|]. unfold parse_fuel, length_.
  rewrite Nat.add_succ_r, parse_any_object, (obj_skip_part _ _ _ _ _ (here_tail _ _) (Hnb _ Hq)).
  unshelve epose proof (Hpart (2 * length (LBRACE :: q) + 1)%nat 1%nat q [] _ (here_tail _ _) Hq _)
    as (i&x&->&_&Hx); [lia|cbn [length]; lia|].
  eexists _, _. split; [done|]. by apply obj_part_shows.
Qed.

Lemma parse_object_whole ms d w :
  doc number_value true (TObject ms) d →
  ∃ i, parse_any from_str value_to_string (d ++ w) ALL (parse_fuel (d ++ w)) 0
       = Ret i (Ok (eval (TObject ms))).
Proof.
  intros Hd. destruct (object_body (d ++ w) ms d Hd) as (b&->&_&_&Hwhole).
  cbn [app] in *. unfold parse_fuel, length_. rewrite Nat.add_succ_r, parse_any_object.
  apply (Hwhole _ w); [apply here_tail|cbn [length]; lia].
Qed.

(** What [parse] returns for a part of the text of an object that is not blank, and for
    the whole text. *)
Lemma parse_part ms w1 d w2 p :
  blank w1 → doc number_value true (TObject ms) d → blank w2 → p `prefix_of` w1 ++ d ++ w2 →
  is_empty (trim p) = false →
  ∃ i v, parse from_str value_to_string p = Ret i (Ok v) ∧ shows number_value (TObject ms) v.
Proof.
  intros Hw1 Hd Hw2 Hp Hne. unfold parse. rewrite Hne. cbn zeta.
  assert (trim p `prefix_of` d ++ w2) as Hq.
  { apply prefix_app_cases in Hp as [Hp|(q&->&Hq)].
    - destruct Hp as [r ->]. apply blank_app in Hw1 as [Hw1 _]. unfold trim.
      rewrite <-(app_nil_r p), trim_start_blank by done. apply prefix_nil.
    - unfold trim. rewrite trim_start_blank by done. etrans; [apply trim_end_prefix|].
      destruct (doc_head _ _ _ _ Hd) as (c&s&->&_). destruct q as [|x q]; [apply prefix_nil|].
      pose proof (prefix_cons_inv_1 _ _ _ _ Hq) as ->. cbn [trim_start].
      inversion Hd; subst; exact Hq. }
  apply prefix_app_cases in Hq as [Hq|(w&->&Hw)].
  - destruct (decide (trim p = d)) as [->|Hnd].
    + rewrite <-(app_nil_r d). destruct (parse_object_whole ms d [] Hd) as [i ->].
      eexists _, _. split; [done|]. rewrite <-(app_nil_r ms) at 1. constructor.
    + eapply parse_object_part; [done|done|]. intros E. by rewrite E in Hne.
  - destruct (parse_object_whole ms d w Hd) as [i ->].
    eexists _, _. split; [done|]. rewrite <-(app_nil_r ms) at 1. constructor.
Qed.

Lemma trim_end_blank a w : blank w → trim_end (a ++ w) = trim_end a.
Proof.
  intros Hw. induction a as [|c a IH]; cbn [app trim_end].
  - induction Hw as [|c w Hc Hw IH]; [done|]. cbn [trim_end] in *. rewrite IH.
    by rewrite (is_blank_whitespace _ Hc).
  - by rewrite IH.
Qed.

Lemma trim_end_last a c : is_whitespace c = false → trim_end (a ++ [c]) = a ++ [c].
Proof.
  intros Hc. induction a as [|x a IH]; cbn [app trim_end]; [by rewrite Hc|].
  rewrite IH. by destruct a.
Qed.

Lemma object_last ms d : doc number_value true (TObject ms) d → ∃ b, d = b ++ [RBRACE].
Proof.
  inversion 1 as [| | | | | | |w Hw|? b Hb]; subst; [by exists (LBRACE :: w)|].
  apply (proj2 (proj2 (grammar_level _ _))) in Hb as (b'&->&_). by exists (LBRACE :: b').
Qed.

Lemma parse_whole ms w1 d w2 :
  blank w1 → doc number_value true (TObject ms) d → blank w2 →
  ∃ i, parse from_str value_to_string (w1 ++ d ++ w2) = Ret i (Ok (eval (TObject ms))).
Proof.
  intros Hw1 Hd Hw2. assert (trim (w1 ++ d ++ w2) = d) as Ht.
  { unfold trim. rewrite trim_start_blank by done.
    assert (trim_start (d ++ w2) = d ++ w2) as -> by (inversion Hd; subst; done).
    rewrite trim_end_blank by done. destruct (object_last _ _ Hd) as [b ->]. by apply trim_end_last. }
  unfold parse. rewrite Ht. destruct (parse_object_whole ms d [] Hd) as [i Hi].
  rewrite app_nil_r in Hi. destruct (doc_head _ _ _ _ Hd) as (c&s&->&_). eauto.
Qed.

Lemma doc_loosen :
  (∀ t d, doc (Num := Num) number_value true t d → doc number_value false t d) ∧
  (∀ ts b, elements (Num := Num) number_value true ts b → elements number_value false ts b) ∧
  (∀ ms b, members (Num := Num) number_value true ms b → members number_value false ms b).
Proof. apply doc_elements_members_ind; intros; by constructor. Qed.

End texts.
