(* ===== verification/JsonStream.v ===== *)
(** * Arguments that arrive in pieces

    The entry points of [pi-ai/src/utils/json_parse.rs]: [parse_json_with_repair],
    [parse_streaming_json] and [StreamingJsonAccumulator], which collects the pieces of the
    arguments of a tool call and decides when they are parsed again. *)
From stdpp Require Import base list numbers gmap sorting strings.
From S2P Require Import Prelude RustStr JsonText JsonRepair PartialJson JsonPreview.

Local Open Scope N_scope.

Section stream.
Context {Num : Type}.
Variables (from_str : str → result (Value Num) str) (value_to_string : Value Num → str).

Definition parse_json_with_repair (json : str) : result (Value Num) str :=
  match from_str json with
  | Ok value => Ok value
  | Err error =>
      let repaired_json := repair_json json in
      if negb (str_eqb repaired_json json) then from_str repaired_json else Err error
  end.

(** [None] is a parser that panics or does not return ([parse_streaming_returns]: it does
    not happen). *)
Definition parse_streaming_json (partial_json : option str) : option (Value Num) :=
  match partial_json with
  | None => Some (Object [])
  | Some partial_json =>
      if is_empty (trim partial_json) then Some (Object [])
      else
        match parse_json_with_repair partial_json with
        | Ok value => Some value
        | Err _ =>
            match parse from_str value_to_string partial_json with
            | Ret _ (Ok value) => Some value
            | Ret _ (Err _) =>
                match parse from_str value_to_string (repair_json partial_json) with
                | Ret _ (Ok value) => Some value
                | Ret _ (Err _) => Some (Object [])
                | _ => None
                end
            | _ => None
            end
        end
  end.

(** ** [StreamingJsonAccumulator] *)

Definition len_utf16_char (c : N) : N := if c <? 65536 then 1 else 2.
Fixpoint utf16_len (s : str) : N :=
  match s with [] => 0 | c :: s' => len_utf16_char c + utf16_len s' end.

Record StreamingJsonAccumulator : Type := mkAccumulator {
  text : str;
  len_utf16 : N;
  parsed_length : N;
}.

Definition acc_default : StreamingJsonAccumulator := mkAccumulator [] 0 0.
Definition acc_new (text : str) : StreamingJsonAccumulator := mkAccumulator text (utf16_len text) 0.

(** [usize::div_ceil]. *)
Definition div_ceil (a b : N) : N := (a + (b - 1)) / b.

Definition acc_parse (self : StreamingJsonAccumulator)
    : StreamingJsonAccumulator * option (Value Num) :=
  (mkAccumulator (text self) (len_utf16 self) (len_utf16 self),
   parse_streaming_json (Some (text self))).

(** The second component is what is returned: [None] when nothing is parsed. *)
Definition acc_append (self : StreamingJsonAccumulator) (delta : str)
    : StreamingJsonAccumulator * option (option (Value Num)) :=
  let self := mkAccumulator (text self ++ delta) (len_utf16 self + utf16_len delta)
                (parsed_length self) in
  if (8 * 1024 <? len_utf16 self)
     && (len_utf16 self - parsed_length self <? div_ceil (parsed_length self) 16)
  then (self, None)
  else let '(self, v) := acc_parse self in (self, Some v).

Definition acc_flush (self : StreamingJsonAccumulator)
    : StreamingJsonAccumulator * option (option (Value Num)) :=
  if parsed_length self =? len_utf16 self then (self, None)
  else let '(self, v) := acc_parse self in (self, Some v).

End stream.

(** ** Every text has a value *)

(** C39: Parsing what has been received of a tool call's arguments returns, on a stack with room for
    its recursion: on every text of [n] characters, as received or repaired, the loops of the
    partial parser end, at most [2 * n + 2] calls are nested (the fuel counts them, and bounds what the stack must
    hold), and nothing is indexed out of bounds.  The size of the stack is not modelled; the
    source does not limit the recursion, and [parse_nesting] shows that it does grow with the
    nesting of the text. *)
Theorem parse_streaming_returns {Num} (from_str : str → result (Value Num) str)
    (value_to_string : Value Num → str) (partial_json : option str) :
  (∀ v, from_str [] ≠ Ok v) →
  ∃ v, parse_streaming_json from_str value_to_string partial_json = Some v.
Proof.
  intros Hempty. destruct partial_json as [p|]; [|by eexists]. cbn [parse_streaming_json].
  destruct (is_empty (trim p)); [by eexists|].
  destruct (parse_json_with_repair _ _) as [v|e]; [by eexists|].
  assert (∀ s, ∃ i r, parse from_str value_to_string s = Ret i r) as Hret.
  { intros s. unfold parse. destruct (is_empty (trim s)); [by do 2 eexists|].
    by apply parse_any_top_returns. }
  destruct (Hret p) as (i&[v|e']&->); [by eexists|].
  destruct (Hret (repair_json p)) as (j&[v|e'']&->); by eexists.
Qed.

Lemma parse_streaming_returns_witness :
  ∃ v, parse_streaming_json scalar_from_str (λ _, []) (Some (lit "{'a':[1,-")) = Some v.
Proof. apply parse_streaming_returns. by intros v. Defined.

Section truthful.
Context {Num : Type} {J : SerdeJson Num}.

Abbreviation streaming := (parse_streaming_json from_str value_to_string).

(** Serde accepts a part of the text of an object only when all of it has arrived. *)
Lemma from_str_part_whole ms w1 d w2 p v :
  blank w1 → doc number_value true (TObject ms) d → blank w2 → p `prefix_of` w1 ++ d ++ w2 →
  from_str p = Ok v → v = eval (TObject ms).
Proof.
  intros Hw1 Hd Hw2 Hp Hok. destruct (from_str_accepts _ _ Hok) as [t Ht].
  destruct (object_text_parts _ _ _ _ _ _ _ _ _ Hw1 Hd Hp Ht) as (w&->&[r ->]).
  apply blank_app in Hw2 as [Hw2 _]. eapply from_str_denotes; [|exact Hok].
  exists w1, d, w. split; [done|]. split; [done|]. split; [by apply doc_loosen|done].
Qed.

Lemma with_repair_part ms w1 d w2 p v :
  blank w1 → doc number_value true (TObject ms) d → blank w2 → p `prefix_of` w1 ++ d ++ w2 →
  parse_json_with_repair from_str p = Ok v → v = eval (TObject ms).
Proof.
  intros Hw1 Hd Hw2 Hp. unfold parse_json_with_repair.
  destruct (from_str p) as [v'|e] eqn:E.
  { intros [= <-]. by apply (from_str_part_whole ms w1 d w2 p). }
  assert (json_text number_value true (TObject ms) (w1 ++ d ++ w2)) as Ht by by exists w1, d, w2.
  destruct (json_text_level _ _ _ _ Ht 0%nat) as (Hc&_).
  apply (clean_prefix _ _ _ Hp) in Hc. cbn zeta.
  unfold repair_json. rewrite (repair_clean_id false p Hc). cbn [start_mode].
  destruct (mode_after Outside p) eqn:Hm; [by rewrite str_eqb_refl..|].
  destruct (negb _); [|done]. intros (t&Ht')%from_str_accepts.
  destruct (json_text_level _ _ _ _ Ht' 0%nat) as (_&Hm'&_).
  by rewrite mode_after_app, Hm in Hm'.
Qed.

(** The value of the whole text of an object. *)
Lemma streaming_whole ms whole :
  json_text number_value true (TObject ms) whole → streaming (Some whole) = Some (eval (TObject ms)).
Proof.
  intros (w1&d&w2&->&Hw1&Hd&Hw2). cbn [parse_streaming_json].
  destruct (parse_whole ms w1 d w2 Hw1 Hd Hw2) as [i Hi].
  destruct (is_empty (trim (w1 ++ d ++ w2))) eqn:Hne.
  { unfold parse in Hi. by rewrite Hne in Hi. }
  destruct (parse_json_with_repair from_str _) as [v|e] eqn:E; [|by rewrite Hi].
  by apply (with_repair_part ms w1 d w2) in E as ->.
Qed.

(** C11: What is shown of a tool call while its arguments arrive is true: for every part, from the
    start, of the text of an object, [parse_streaming_json] returns an object that the part
    determines - members of the object in order, the last one possibly cut short itself -
    and the value of the whole text once it has arrived - provided that the text writes empty
    arrays without blanks inside the brackets: with blanks what is shown may be false, see
    [blank_array_breaks_preview]. *)
Theorem previews_truthful ms whole part :
  json_text number_value true (TObject ms) whole → part `prefix_of` whole →
  (∃ v, parse_streaming_json from_str value_to_string (Some part) = Some v ∧ shows number_value (TObject ms) v) ∧
  parse_streaming_json from_str value_to_string (Some whole) = Some (eval (TObject ms)).
Proof.
  intros Ht Hp. split; [|by apply streaming_whole].
  destruct Ht as (w1&d&w2&->&Hw1&Hd&Hw2). cbn [parse_streaming_json].
  destruct (is_empty (trim part)) eqn:Hne.
  { eexists. split; [done|]. apply (shows_object number_value [] ms). }
  destruct (parse_json_with_repair from_str part) as [v|e] eqn:E.
  { apply (with_repair_part ms w1 d w2) in E as ->; try done.
    eexists. split; [done|]. rewrite <-(app_nil_r ms) at 1. apply shows_object. }
  destruct (parse_part ms w1 d w2 part Hw1 Hd Hw2 Hp Hne) as (i&v&->&Hv). eauto.
Qed.

End truthful.

(** ** Examples *)

(** A literal with its single quotes as double quotes. *)
Definition qlit (s : string) : str := map (λ c, if c =? 39 then QUOTE else c) (lit s).
Arguments qlit s%_string_scope.

Definition sample_members : list (str * tree str) :=
  [(lit "path", TString (lit "a.rs"));
   (lit "lines", TArray [TNumber (lit "12") (lit "12"); TBool true])].
Definition sample_text : str := qlit "{'path':'a.rs','lines':[12,true]}".

Lemma literal_lit s : forallb (λ c, negb ((c =? QUOTE) || (c =? BACKSLASH) || (c <? 32))) s = true → literal s s.
Proof.
  induction s as [|c s IH]; cbn [forallb]; [constructor|].
  rewrite andb_true_iff, negb_true_iff, !orb_false_iff, !N.eqb_neq, N.ltb_ge.
  intros [[[H1 H2] H3] H4]. constructor; auto.
Qed.

Lemma sample_json : json_text (Num := str) Some true (TObject sample_members) sample_text.
Proof.
  exists [], sample_text, []. split; [by rewrite app_nil_r|]. split; [constructor|]. split; [|constructor].
  apply doc_object.
  apply (members_cons _ _ (lit "path") _ [(lit "lines", _)] [] (lit "path") [] []
    (QUOTE :: lit "a.rs" ++ [QUOTE]) [] (qlit "'lines':[12,true]}"));
    [constructor|by apply literal_lit|constructor|constructor| |constructor|].
  { apply doc_string. by apply literal_lit. }
  apply (members_last _ _ (lit "lines") _ [] (lit "lines") [] [] (lit "[12,true]") []);
    [constructor|by apply literal_lit|constructor|constructor| |constructor].
  apply doc_array, (elements_cons _ _ _ [_] [] (lit "12") [] (lit "true]"));
    [constructor|by apply doc_number|constructor|].
  apply (elements_last _ _ _ [] (lit "true") []); constructor.
Qed.

Lemma previews_truthful_witness :
  let streaming := parse_streaming_json (@from_str str serde_scalars) (@value_to_string str serde_scalars) in
  (∃ v, streaming (Some (qlit "{'path':'a.rs','lines':[1")) = Some v ∧
        shows Some (TObject sample_members) v) ∧
  streaming (Some sample_text) = Some (eval (TObject sample_members)) ∧
  streaming (Some (qlit "{'path':'a.rs','lines':[1")) =
    Some (Object [(lit "path", String (lit "a.rs")); (lit "lines", Array [Number (lit "1")])]).
Proof.
  intros streaming.
  destruct (previews_truthful (J := serde_scalars) sample_members sample_text
    (qlit "{'path':'a.rs','lines':[1") sample_json) as [H1 H2]; [by exists (qlit "2,true]}")|].
  split; [exact H1|]. split; [exact H2|reflexivity].
Defined.

(** With blanks inside an empty array the parser takes the rest of the text for something
    else: the part below shows a member that the text does not have. *)
Lemma blank_array_breaks_preview :
  parse_streaming_json scalar_from_str (λ _, [])
    (Some (qlit "{'x':{'a':[ ],'':5},'z':1")) =
  Some (Object [(lit "x", Object [(lit "a", Array [])]); (lit ":5},", String (lit ":1"))]).
Proof. reflexivity. Qed.

(** Not an object. *)
Lemma streaming_not_object :
  parse_streaming_json scalar_from_str (λ _, []) (Some (lit "[1,2")) =
  Some (Array [Number (lit "1"); Number (lit "2")]).
Proof. reflexivity. Qed.

(** An escape that is no escape is repaired, unless it starts with [u]. *)
Lemma repair_keeps_bad_unicode :
  repair_json (qlit "{'a':'\q'}") = qlit "{'a':'\\q'}" ∧
  repair_json (qlit "{'a':'\u12'}") = qlit "{'a':'\u12'}".
Proof. split; reflexivity. Qed.

(** The recursion is as deep as the text is nested: two calls per open bracket. *)
Lemma parse_nesting {Num} {J : SerdeJson Num} fuel k i chars :
  here chars i (replicate k LBRACKET) → (fuel < 2 * k)%nat →
  parse_any from_str value_to_string chars ALL fuel i = OutOfFuel.
Proof.
  revert fuel i. induction k as [|k IH]; intros [|fuel] i Hi Hf; [lia..|done|].
  rewrite (parse_any_at chars fuel i [] LBRACKET (replicate k LBRACKET) Hi blank_nil) by done.
  cbn zeta. cbn [N.eqb Pos.eqb length]. rewrite Nat.add_0_r. apply here_cons in Hi.
  destruct fuel as [|fuel]; [done|]. destruct k as [|k]; [lia|].
  unfold_parser constr:(parse_any from_str value_to_string chars ALL)
    constr:(parse_obj from_str value_to_string chars ALL)
    constr:(parse_arr from_str value_to_string chars ALL).
  rewrite (here_is_char _ _ _ _ _ Hi). cbn [N.eqb Pos.eqb]. unfold length_.
  pose proof (here_length _ _ _ Hi) as Hn. cbn [replicate length] in Hn.
  destruct (Nat.leb_spec (length chars) (S i)); [lia|]. rewrite IH; [done|done|lia].
Qed.

(** ** The accumulator *)

Lemma utf16_length_app a b : utf16_len (a ++ b) = utf16_len a + utf16_len b.
Proof. induction a as [|c a IH]; simpl; [done|]. rewrite IH. lia. Qed.

Lemma utf16_len_zero s : utf16_len s = 0 → s = [].
Proof. destruct s as [|c s]; [done|]. simpl. unfold len_utf16_char. destruct (c <? 65536); lia. Qed.

(** The threshold leaves a sixteenth of the parsed length unparsed, no more. *)
Lemma div_ceil_16 p g : div_ceil p 16 ≤ g ↔ p ≤ 16 * g.
Proof.
  unfold div_ceil. change (16 - 1) with 15. split; intros H.
  - pose proof (N.div_mod (p + 15) 16 ltac:(lia)) as Hd.
    pose proof (N.mod_lt (p + 15) 16 ltac:(lia)). lia.
  - apply N.lt_succ_r, N.Div0.div_lt_upper_bound. lia.
Qed.

Section accumulator.
Context {Num : Type}.
Variables (from_str : str → result (Value Num) str) (value_to_string : Value Num → str).

Abbreviation streaming := (parse_streaming_json from_str value_to_string).
Abbreviation append := (acc_append from_str value_to_string).
Abbreviation flush := (acc_flush from_str value_to_string).

(** A stream of deltas: the final state, what each of them returned, and how many code units
    were parsed, each time the whole text. *)
Fixpoint appends (a : StreamingJsonAccumulator) (deltas : list str)
    : StreamingJsonAccumulator * list (option (option (Value Num))) * N :=
  match deltas with
  | [] => (a, [], 0)
  | d :: ds =>
      let '(a1, r) := append a d in
      let '(a2, rs, work) := appends a1 ds in
      (a2, r :: rs,
       match r with Some _ => len_utf16 a1 + work | None => work end)
  end.

(** The deltas with which a text that has [len] code units so far stays within 8 KiB. *)
Fixpoint eager_deltas (len : N) (deltas : list str) : N :=
  match deltas with
  | [] => 0
  | d :: ds => let len := len + utf16_len d in (if len <=? 8 * 1024 then 1 else 0) + eager_deltas len ds
  end.

(** The last preview that was published. *)
Definition published {A} (last : option A) (rs : list (option A)) : option A :=
  fold_left (λ l r, match r with Some v => Some v | None => l end) rs last.

Definition acc_ok (a : StreamingJsonAccumulator) (last : option (option (Value Num))) : Prop :=
  len_utf16 a = utf16_len (text a) ∧ parsed_length a ≤ len_utf16 a ∧
  (parsed_length a = len_utf16 a → text a = [] ∨ last = Some (streaming (Some (text a)))).

Definition caught_up (a : StreamingJsonAccumulator) : Prop :=
  parsed_length a = len_utf16 a ∨
  8 * 1024 < len_utf16 a ∧ 16 * (len_utf16 a - parsed_length a) ≤ parsed_length a + 15.

Lemma append_spec a d last a1 r :
  acc_ok a last → append a d = (a1, r) →
  text a1 = text a ++ d ∧ acc_ok a1 (match r with Some v => Some v | None => last end) ∧
  caught_up a1 ∧
  (if r then parsed_length a1 = len_utf16 a1 ∧
             (8 * 1024 < len_utf16 a1 → 17 * parsed_length a ≤ 16 * len_utf16 a1)
   else parsed_length a1 = parsed_length a).
Proof.
  intros (Hlen&Hle&Hlast). unfold acc_append. cbn zeta. cbn [len_utf16 parsed_length text].
  set (l := len_utf16 a + utf16_len d).
  assert (l = utf16_len (text a ++ d)) as Hl by (unfold l; rewrite utf16_length_app; lia).
  destruct (N.ltb_spec (8 * 1024) l) as [Hbig|Hsmall]; cbn [andb];
    [destruct (N.ltb_spec (l - parsed_length a) (div_ceil (parsed_length a) 16)) as [Hskip|Hdo]|].
  - intros [= <- <-]. cbn [text]. split; [done|]. split; [|split; [|done]].
    + split; [done|]. split; cbn [len_utf16 parsed_length text]; [lia|]. intros Heq.
      assert (utf16_len d = 0) as Hz by lia. apply utf16_len_zero in Hz as ->.
      rewrite app_nil_r. apply Hlast. unfold l in *. simpl in *. lia.
    + right. cbn [len_utf16 parsed_length]. split; [done|].
      enough (¬ (parsed_length a + 16 ≤ 16 * (l - parsed_length a))) by lia. intros H.
      enough (div_ceil (parsed_length a) 16 ≤ l - parsed_length a) by lia. apply div_ceil_16. lia.
  - intros [= <- <-]. cbn [text len_utf16 parsed_length]. split; [done|]. split; [|split; [by left|]].
    + split; [done|]. split; [done|]. intros _. by right.
    + split; [done|]. intros _. apply div_ceil_16 in Hdo. lia.
  - intros [= <- <-]. cbn [text len_utf16 parsed_length]. split; [done|]. split; [|split; [by left|]].
    + split; [done|]. split; [done|]. intros _. by right.
    + split; [done|]. lia.
Qed.

Lemma appends_spec ds a last a' rs work :
  acc_ok a last → appends a ds = (a', rs, work) →
  text a' = text a ++ concat ds ∧ acc_ok a' (published last rs) ∧
  (caught_up a → caught_up a') ∧
  work + 17 * parsed_length a ≤ 17 * parsed_length a' + 8 * 1024 * eager_deltas (len_utf16 a) ds.
Proof.
  revert a last a' rs work. induction ds as [|d ds IH]; intros a last a' rs work Ha; cbn [appends].
  { intros [= <- <- <-]. rewrite app_nil_r. split; [done|]. split; [done|]. split; [done|]. cbn [eager_deltas]. lia. }
  destruct (append a d) as [a1 r] eqn:E1. destruct (append_spec _ _ _ _ _ Ha E1) as (Ht&Hok&Hcu&Hr).
  destruct (appends a1 ds) as [[a2 rs'] work'] eqn:E2. intros [= <- <- <-].
  destruct (IH _ _ _ _ _ Hok E2) as (Ht'&Hok'&Hcu'&Hw). cbn [concat eager_deltas].
  rewrite Ht', Ht, app_assoc. split; [done|]. split; [done|]. split; [auto|].
  assert (len_utf16 a + utf16_len d = len_utf16 a1) as ->.
  { destruct Ha as (->&_), Hok as (->&_). by rewrite Ht, utf16_length_app. }
  destruct r; [|destruct (_ <=? _); lia]. destruct Hr as [Hp Hr].
  assert (parsed_length a ≤ parsed_length a1).
  { destruct Ha as (Hla&Hle&_), Hok as (Hla1&_). rewrite Hp, Hla1, Ht, utf16_length_app. lia. }
  destruct (N.leb_spec (len_utf16 a1) (8 * 1024)); [lia|specialize (Hr ltac:(done)); lia].
Qed.

Lemma flush_spec_acc a last a' r :
  acc_ok a last → flush a = (a', r) → text a ≠ [] →
  match r with Some v => Some v | None => last end = Some (streaming (Some (text a))).
Proof.
  intros (Hlen&Hle&Hlast) Hf Hne. unfold acc_flush in Hf.
  destruct (N.eqb_spec (parsed_length a) (len_utf16 a)) as [Heq|_]; injection Hf as <- <-; [|done].
  by destruct (Hlast Heq).
Qed.

(** C40: However a tool call's arguments are cut into deltas, after the last delta and a flush the
    last published value is the value of the whole text; before the flush at most a
    sixteenth of what was parsed is missing from the preview; and all the code units parsed,
    again and again and by the flush, add up to at most eighteen times the length of the
    text and 8 KiB for each delta with which the text is still within 8 KiB: up to there every
    delta parses the whole text, beyond it the text must have grown by a sixteenth. *)
Theorem accumulator_complete_and_linear deltas a rs work a' r :
  appends acc_default deltas = (a, rs, work) → flush a = (a', r) →
  text a' = concat deltas ∧
  (text a' ≠ [] → published None (rs ++ [r]) = Some (streaming (Some (concat deltas)))) ∧
  (parsed_length a = len_utf16 a ∨
   8 * 1024 < len_utf16 a ∧ 16 * (len_utf16 a - parsed_length a) ≤ parsed_length a + 15) ∧
  work + match r with Some _ => len_utf16 a' | None => 0 end ≤
    18 * utf16_len (concat deltas) + 8 * 1024 * eager_deltas 0 deltas.
Proof.
  intros Hrun Hflush.
  assert (acc_ok acc_default None) as H0 by (split; [done|]; split; [done|]; by left).
  destruct (appends_spec _ _ _ _ _ _ H0 Hrun) as (Ht&(Hlen&Hle&Hlast)&Hcu&Hw).
  change (text a = concat deltas) in Ht. change (parsed_length acc_default) with 0 in Hw. change (len_utf16 acc_default) with 0 in Hw.
  assert (text a' = text a ∧ (text a ≠ [] → published None (rs ++ [r]) = Some (streaming (Some (text a)))))
    as [Ha' Hpub].
  { unfold published. rewrite fold_left_app. cbn [fold_left]. split.
    - unfold acc_flush in Hflush. destruct (_ =? _); by injection Hflush as <- <-.
    - intros Hne. by eapply flush_spec_acc. }
  assert (match r with Some _ => len_utf16 a' | None => 0 end ≤ len_utf16 a).
  { unfold acc_flush in Hflush. destruct (_ =? _); injection Hflush as <- <-; cbn [len_utf16]; lia. }
  rewrite <-Ht, Ha'. split; [done|]. split; [done|]. split; [apply Hcu; by left|]. lia.
Qed.

End accumulator.

(** A long string in small pieces: the first piece is over the threshold at once, and of the
    six hundred that follow few are parsed. *)
Definition long_deltas : list str :=
  qlit "{'path':'" :: replicate 9000 97 :: replicate 600 (replicate 10 97) ++ [qlit "'}"].

Lemma long_run :
  let '(a, rs, work) := appends scalar_from_str (λ _, []) acc_default long_deltas in
  length (List.filter (λ r : option (option (Value str)), match r with Some _ => true | None => false end) rs) = 10%nat ∧
  utf16_len (text a) = 15011 ∧ work = 104790.
Proof. vm_compute. done. Qed.

Lemma accumulator_complete_and_linear_witness :
  let '(a, rs, work) := appends scalar_from_str (λ _, []) acc_default long_deltas in
  let '(a', r) := acc_flush scalar_from_str (λ _, []) a in
  text a' = concat long_deltas ∧
  work + match r with Some _ => len_utf16 a' | None => 0 end ≤ 18 * 15011 + 8 * 1024 * 1 ∧
  published None (rs ++ [r]) = Some (parse_streaming_json scalar_from_str (λ _, []) (Some (concat long_deltas))).
Proof.
  destruct (appends scalar_from_str (λ _, []) acc_default long_deltas) as [[a rs] work] eqn:E.
  destruct (acc_flush scalar_from_str (λ _, []) a) as [a' r] eqn:E'.
  destruct (accumulator_complete_and_linear scalar_from_str (λ _, []) long_deltas a rs work a' r E E') as (H1&H2&_&H4).
  split; [exact H1|]. split; [exact H4|]. apply H2. rewrite H1. discriminate.
Defined.
