(* ===== verification/SseReader.v ===== *)
(** * Server-sent events

    The byte stream of a provider's answer and the events in it.  [anthropic.rs]:
    the streaming UTF-8 decoder ([decode_utf8_stream], [decode_utf8_final]), the lines
    ([split_line_at]), the fields of an event ([decode_sse_line], [flush_sse_event]) and
    [SseMessageReader], which the client of Anthropic's API reads.  [sse_frames.rs]:
    [SseFrames], the framing the other clients use, and the deadline between chunks. *)
From stdpp Require Import base list numbers gmap sorting strings.
From S2P Require Import Prelude RustStr.

Local Open Scope N_scope.

Abbreviation LF := 10 (only parsing).
Abbreviation CR := 13 (only parsing).
Abbreviation REPLACEMENT := 65533 (only parsing).

(** ** UTF-8, as [std::str::from_utf8] validates it *)

Inductive utf8_step : Type :=
| UEnd
| UChar (c : N) (rest : list N)
| UBad (error_len : nat) (rest : list N)
| UIncomplete.

Definition continuation (b : N) : bool := (128 <=? b) && (b <=? 191).

(** The second byte of a sequence of three and of four. *)
Definition second_of_three (a b : N) : bool :=
  if a =? 224 then (160 <=? b) && (b <=? 191)
  else if a =? 237 then (128 <=? b) && (b <=? 159) else continuation b.
Definition second_of_four (a b : N) : bool :=
  if a =? 240 then (144 <=? b) && (b <=? 191)
  else if a =? 244 then (128 <=? b) && (b <=? 143) else continuation b.

(** The first character of a byte string, or the error there. *)
Definition utf8_next (s : list N) : utf8_step :=
  match s with
  | [] => UEnd
  | a :: s1 =>
      if a <? 128 then UChar a s1
      else if (194 <=? a) && (a <=? 223) then
        match s1 with
        | [] => UIncomplete
        | b :: s2 => if continuation b then UChar ((a - 192) * 64 + (b - 128)) s2 else UBad 1 s1
        end
      else if (224 <=? a) && (a <=? 239) then
        match s1 with
        | [] => UIncomplete
        | b :: s2 =>
            if second_of_three a b then
              match s2 with
              | [] => UIncomplete
              | c :: s3 => if continuation c
                           then UChar (((a - 224) * 64 + (b - 128)) * 64 + (c - 128)) s3
                           else UBad 2 s2
              end
            else UBad 1 s1
        end
      else if (240 <=? a) && (a <=? 244) then
        match s1 with
        | [] => UIncomplete
        | b :: s2 =>
            if second_of_four a b then
              match s2 with
              | [] => UIncomplete
              | c :: s3 =>
                  if continuation c then
                    match s3 with
                    | [] => UIncomplete
                    | d :: s4 =>
                        if continuation d
                        then UChar ((((a - 240) * 64 + (b - 128)) * 64 + (c - 128)) * 64 + (d - 128)) s4
                        else UBad 3 s3
                    end
                  else UBad 2 s2
              end
            else UBad 1 s1
        end
      else UBad 1 s1
  end.

(** [std::str::from_utf8]: the valid part, and what is left at the first error with its
    [error_len]. *)
Fixpoint from_utf8 (fuel : nat) (s : list N) : str * option (list N * option nat) :=
  match fuel with
  | O => ([], None)
  | S fuel =>
      match utf8_next s with
      | UEnd => ([], None)
      | UChar c rest => let '(valid, e) := from_utf8 fuel rest in (c :: valid, e)
      | UBad n _ => ([], Some (s, Some n))
      | UIncomplete => ([], Some (s, None))
      end
  end.

(** The text decoded and the bytes that stay pending. *)
Fixpoint decode_utf8_loop (fuel : nat) (pending : list N) : str * list N :=
  match fuel with
  | O => ([], pending)
  | S fuel =>
      match from_utf8 (S (length pending)) pending with
      | (valid, None) => (valid, [])
      | (valid, Some (rest, None)) => (valid, rest)
      | (valid, Some (rest, Some error_len)) =>
          let '(out, pending) := decode_utf8_loop fuel (drop error_len rest) in
          (valid ++ REPLACEMENT :: out, pending)
      end
  end.
Definition decode_utf8_stream (pending : list N) : str * list N :=
  decode_utf8_loop (S (length pending)) pending.

Definition decode_utf8_final (pending : list N) : str :=
  let '(out, pending) := decode_utf8_stream pending in
  if is_empty pending then out else out ++ [REPLACEMENT].

(** ** Lines and fields *)

Record ServerSentEvent : Type := mkSse { event : option str; data : str; raw : list str }.

Record SseDecoderState : Type := mkDecoder {
  st_event : option str; st_data : list str; st_raw : list str }.
Definition decoder_default : SseDecoderState := mkDecoder None [] [].

Definition flush_sse_event (state : SseDecoderState) : SseDecoderState * option ServerSentEvent :=
  match st_event state, st_data state with
  | None, [] => (state, None)
  | _, _ => (mkDecoder None [] [],
             Some (mkSse (st_event state) (join [LF] (st_data state)) (st_raw state)))
  end.

Definition strip_space (value : str) : str :=
  match strip_prefix [32] value with Some stripped => stripped | None => value end.

Definition decode_sse_line (line : str) (state : SseDecoderState)
    : SseDecoderState * option ServerSentEvent :=
  match line with
  | [] => flush_sse_event state
  | c :: _ =>
      let state := mkDecoder (st_event state) (st_data state) (st_raw state ++ [line]) in
      if c =? 58 then (state, None)
      else
        let '(field_name, value) :=
          match split_once 58 line with Some (f, v) => (f, v) | None => (line, []) end in
        let value := strip_space value in
        if str_eqb field_name (lit "event")
        then (mkDecoder (Some value) (st_data state) (st_raw state), None)
        else if str_eqb field_name (lit "data")
        then (mkDecoder (st_event state) (st_data state ++ [value]) (st_raw state), None)
        else (state, None)
  end.

(** [split_line_at]: the first line of a text that has a line break, and the text after it;
    CR followed by LF is one break. *)
Fixpoint split_line (text : str) : option (str * str) :=
  match text with
  | [] => None
  | c :: rest =>
      if c =? CR then Some ([], match rest with d :: rest' => if d =? LF then rest' else rest | [] => [] end)
      else if c =? LF then Some ([], rest)
      else match split_line rest with
           | Some (line, after) => Some (c :: line, after)
           | None => None
           end
  end.

(** ** [SseMessageReader] *)

(** What waiting for the next chunk may bring; the end of the script is the end of the body. *)
Inductive arrival : Type :=
| Bytes (bytes : list N)
| Failed (error : str)
| Stalled
| Aborted.

Record SseMessageReader : Type := mkReader {
  chunks : list arrival;
  byte_pending : list N;
  buffer : str;            (* the text from [cursor] on *)
  state : SseDecoderState;
  finished : bool;
  final_decoded : bool;
  trailing_flushed : bool;
}.

Definition reader_new (chunks : list arrival) : SseMessageReader :=
  mkReader chunks [] [] decoder_default false false false.

Section reader.
(** The resolved deadline between chunks, in milliseconds. *)
Variable idle_timeout : N.

(** [next]: the event, [Ok None] at the end, or an error; [None] when the fuel of its loop
    is used up. *)
Fixpoint reader_next (fuel : nat) (self : SseMessageReader)
    : SseMessageReader * option (result (option ServerSentEvent) str) :=
  match fuel with
  | O => (self, None)
  | S fuel =>
      let 'mkReader chunks byte_pending buffer state finished final_decoded trailing_flushed := self in
      match split_line buffer with
      | Some (line, after) =>
          let '(state, event) := decode_sse_line line state in
          let self := mkReader chunks byte_pending after state finished final_decoded trailing_flushed in
          match event with
          | Some event => (self, Some (Ok (Some event)))
          | None => reader_next fuel self
          end
      | None =>
          if finished then
            if negb final_decoded then
              reader_next fuel (mkReader chunks [] (buffer ++ decode_utf8_final byte_pending) state
                                  finished true trailing_flushed)
            else if negb (is_empty buffer) then
              let '(state, event) := decode_sse_line buffer state in
              let self := mkReader chunks byte_pending [] state finished final_decoded trailing_flushed in
              match event with
              | Some event => (self, Some (Ok (Some event)))
              | None => reader_next fuel self
              end
            else if negb trailing_flushed then
              let '(state, event) := flush_sse_event state in
              let self := mkReader chunks byte_pending buffer state finished final_decoded true in
              match event with
              | Some event => (self, Some (Ok (Some event)))
              | None => (self, Some (Ok None))
              end
            else (self, Some (Ok None))
          else
            match chunks with
            | [] => reader_next fuel (mkReader [] byte_pending buffer state true final_decoded trailing_flushed)
            | Aborted :: _ => (self, Some (Err (lit "Request was aborted")))
            | Stalled :: chunks =>
                (mkReader chunks byte_pending buffer state finished final_decoded trailing_flushed,
                 Some (Err (lit "SSE stream stalled: no data received within " ++ dec idle_timeout ++ lit "ms")))
            | Failed error :: chunks =>
                (mkReader chunks byte_pending buffer state finished final_decoded trailing_flushed,
                 Some (Err error))
            | Bytes bytes :: chunks =>
                let '(decoded, byte_pending) := decode_utf8_stream (byte_pending ++ bytes) in
                reader_next fuel (mkReader chunks byte_pending (buffer ++ decoded) state finished
                                    final_decoded trailing_flushed)
            end
      end
  end.

(** How many rounds of the loop a reader may still take. *)
Definition reader_fuel (self : SseMessageReader) : nat :=
  S (S (S (S (length (buffer self) + length (chunks self)
     + 2 * (length (byte_pending self)
            + sum_list (map (λ a, match a with Bytes b => length b | _ => 0%nat end) (chunks self))))))).

(** Reading to the end: the events, and the error if there was one. *)
Fixpoint read_all (calls : nat) (self : SseMessageReader)
    : list ServerSentEvent * option (option str) :=
  match calls with
  | O => ([], None)
  | S calls =>
      match reader_next (reader_fuel self) self with
      | (self, Some (Ok (Some event))) =>
          let '(events, r) := read_all calls self in (event :: events, r)
      | (_, Some (Ok None)) => ([], Some None)
      | (_, Some (Err e)) => ([], Some (Some e))
      | (_, None) => ([], None)
      end
  end.

End reader.

(** ** Decoding piece by piece *)

(** What a byte string decodes to and what it leaves pending. *)
Inductive decodes : list N → str → list N → Prop :=
| decodes_end : decodes [] [] []
| decodes_char s c r out p : utf8_next s = UChar c r → decodes r out p → decodes s (c :: out) p
| decodes_bad s n r out p : utf8_next s = UBad n r → decodes r out p → decodes s (REPLACEMENT :: out) p
| decodes_incomplete s : utf8_next s = UIncomplete → decodes s [] s.

(** Case analysis on the tests a step of the decoder makes. *)
Ltac split_utf8 :=
  repeat (cbn [app]; match goal with
  | |- (if ?b then _ else _) = _ → _ => destruct b eqn:?
  | |- (match ?s with [] => _ | _ :: _ => _ end) = _ → _ => destruct s
  end);
  let H := fresh in intros H; first [discriminate H|injection H as; subst].

Lemma utf8_next_char s c r : utf8_next s = UChar c r → (length r < length s)%nat ∧
  (∃ a s', s = a :: s' ∧ (a = c ∨ 128 ≤ a)) ∧ ∀ t, utf8_next (s ++ t) = UChar c (r ++ t).
Proof.
  destruct s as [|a s]; cbn [utf8_next]; [done|]. intros H.
  split; [|split]; revert H; [split_utf8; cbn [length]; lia| |].
  - intros H. exists a, s. split; [done|]. revert H. destruct (N.ltb_spec a 128); [|by right].
    intros [= -> _]. by left.
  - intros H t. revert H. cbn [app utf8_next]. split_utf8; done.
Qed.

Lemma utf8_next_bad s n r : utf8_next s = UBad n r →
  (length r < length s)%nat ∧ r = drop n s ∧ (∃ a s', s = a :: s' ∧ 128 ≤ a) ∧
  ∀ t, utf8_next (s ++ t) = UBad n (r ++ t).
Proof.
  destruct s as [|a s]; cbn [utf8_next]; [done|]. intros H.
  split; [|split; [|split]]; revert H; [split_utf8; cbn [length]; lia|by split_utf8| |].
  - intros H. exists a, s. split; [done|]. revert H. by destruct (N.ltb_spec a 128).
  - intros H t. revert H. cbn [app utf8_next]. split_utf8; done.
Qed.

Lemma utf8_next_end s : utf8_next s = UEnd → s = [].
Proof. destruct s as [|a s]; cbn [utf8_next]; [done|]. split_utf8. Qed.

Lemma from_utf8_decodes fuel s valid e :
  (length s < fuel)%nat → from_utf8 fuel s = (valid, e) →
  match e with
  | None => decodes s valid []
  | Some (rest, None) => decodes s valid rest
  | Some (rest, Some n) =>
      (length (drop n rest) < length s)%nat ∧
      ∀ out p, decodes (drop n rest) out p → decodes s (valid ++ REPLACEMENT :: out) p
  end.
Proof.
  revert s valid e. induction fuel as [|fuel IH]; intros s valid e Hf; [lia|]. cbn [from_utf8].
  destruct (utf8_next s) as [|c r|n r|] eqn:E.
  - apply utf8_next_end in E as ->. intros [= <- <-]. constructor.
  - destruct (utf8_next_char _ _ _ E) as (Hl&_). destruct (from_utf8 fuel r) as [v e'] eqn:Er.
    intros [= <- <-]. specialize (IH r v e' ltac:(lia) Er).
    destruct e' as [[rest [n|]]|]; [|by econstructor..].
    destruct IH as [Hr IH]. split; [lia|]. intros out p Hd. cbn [app]. by econstructor; [|apply IH].
  - intros [= <- <-]. destruct (utf8_next_bad _ _ _ E) as (Hl&->&_). split; [done|].
    intros out p Hd. cbn [app]. by econstructor.
  - intros [= <- <-]. by constructor.
Qed.

Lemma decode_utf8_decodes s : decodes s (decode_utf8_stream s).1 (decode_utf8_stream s).2.
Proof.
  unfold decode_utf8_stream. assert (∀ fuel s, (length s < fuel)%nat →
    decodes s (decode_utf8_loop fuel s).1 (decode_utf8_loop fuel s).2) as H; [|apply H; lia].
  clear s. induction fuel as [|fuel IH]; intros s Hf; [lia|]. cbn [decode_utf8_loop].
  destruct (from_utf8 (S (length s)) s) as [valid e] eqn:E.
  apply from_utf8_decodes in E; [|lia]. destruct e as [[rest [n|]]|]; [|done..].
  destruct E as [Hl E]. specialize (IH (drop n rest) ltac:(lia)).
  destruct (decode_utf8_loop fuel (drop n rest)) as [out p]. by apply E.
Qed.

Lemma decodes_det s o p o' p' : decodes s o p → decodes s o' p' → o = o' ∧ p = p'.
Proof.
  intros H. revert o' p'. induction H as [|s c r out p E H IH|s n r out p E H IH|s E];
    intros o' p' H'; inversion H' as [|? ? ? ? ? E' Hr|? ? ? ? ? E' Hr|? E']; subst;
    try (rewrite E in E'; simplify_eq); try done.
  - destruct (IH _ _ Hr) as [-> ->]. done.
  - destruct (IH _ _ Hr) as [-> ->]. done.
Qed.

(** Pending bytes and more bytes decode to the rest of the text. *)
Lemma decodes_app s o p t o' p' : decodes s o p → decodes (p ++ t) o' p' → decodes (s ++ t) (o ++ o') p'.
Proof.
  induction 1 as [|s c r out p E H IH|s n r out p E H IH|s E]; intros H'; cbn [app]; [done|..|done].
  - apply utf8_next_char in E as (_&_&E). econstructor; [apply E|auto].
  - apply utf8_next_bad in E as (_&_&_&E). econstructor; [apply E|auto].
Qed.

Lemma decode_stream_app s t :
  let '(o, p) := decode_utf8_stream s in
  decode_utf8_stream (s ++ t) = (o ++ (decode_utf8_stream (p ++ t)).1, (decode_utf8_stream (p ++ t)).2).
Proof.
  pose proof (decode_utf8_decodes s) as Hs. destruct (decode_utf8_stream s) as [o p].
  cbn [fst snd] in Hs.
  pose proof (decodes_app _ _ _ t _ _ Hs (decode_utf8_decodes (p ++ t))) as H.
  destruct (decodes_det _ _ _ _ _ (decode_utf8_decodes (s ++ t)) H) as [H1 H2].
  rewrite <-H1, <-H2. by destruct (decode_utf8_stream (s ++ t)).
Qed.

Lemma decodes_length s o p : decodes s o p → (length o + length p ≤ length s)%nat.
Proof.
  induction 1 as [|s c r out p E H IH|s n r out p E H IH|s E]; cbn [length]; [lia|..|lia].
  - apply utf8_next_char in E as (?&_). lia.
  - apply utf8_next_bad in E as (?&_). lia.
Qed.

Lemma utf8_next_ascii s c r : utf8_next s = UChar c r → c < 128 → head s = Some c.
Proof.
  destruct s as [|a s]; cbn [utf8_next]; [done|]. intros H Hc. cbn [head]. revert H Hc.
  destruct (N.ltb_spec a 128) as [|Ha]; [by intros [= -> _]|].
  assert (∀ b, second_of_three 224 b = true → 160 ≤ b) as H3.
  { unfold second_of_three. cbn [N.eqb Pos.eqb]. intros b [Hb _]%andb_true_iff. by apply N.leb_le. }
  assert (∀ b, second_of_four 240 b = true → 144 ≤ b) as H4.
  { unfold second_of_four. cbn [N.eqb Pos.eqb]. intros b [Hb _]%andb_true_iff. by apply N.leb_le. }
  split_utf8; intros Hc; exfalso;
    repeat match goal with H : _ && _ = true |- _ => apply andb_true_iff in H as [?%N.leb_le ?%N.leb_le] end;
    try (destruct (decide (a = 224)) as [->|]; [pose proof (H3 _ ltac:(eassumption))|]);
    try (destruct (decide (a = 240)) as [->|]; [pose proof (H4 _ ltac:(eassumption))|]); lia.
Qed.

Lemma utf8_next_suffix s c r : utf8_next s = UChar c r → ∃ k, r = drop k s.
Proof.
  destruct s as [|a s]; cbn [utf8_next]; [done|].
  split_utf8; first [by exists 1%nat|by exists 2%nat|by exists 3%nat|by exists 4%nat].
Qed.

Lemma not_elem_of_drop {A} k (x : A) l : x ∉ l → x ∉ drop k l.
Proof. intros H Hin. apply H. rewrite <-(take_drop k l). apply elem_of_app. by right. Qed.

Lemma decodes_ascii s o p c : decodes s o p → c < 128 → c ∉ s → c ∉ o ∧ c ∉ p.
Proof.
  intros H Hc. induction H as [|s x r out p E H IH|s n r out p E H IH|s E]; intros Hs;
    [split; apply not_elem_of_nil|..|split; [apply not_elem_of_nil|done]].
  - destruct (utf8_next_suffix _ _ _ E) as [k ->]. destruct IH as [Ho Hp]; [by apply not_elem_of_drop|].
    split; [|done]. apply not_elem_of_cons. split; [|done]. intros <-. apply Hs.
    apply utf8_next_ascii in E; [|done]. destruct s; [done|]. simplify_eq/=. left.
  - destruct (utf8_next_bad _ _ _ E) as (_&->&_). destruct IH as [Ho Hp]; [by apply not_elem_of_drop|].
    split; [|done]. apply not_elem_of_cons. split; [lia|done].
Qed.

Lemma decode_stream_length s : (length (decode_utf8_stream s).1 + length (decode_utf8_stream s).2 ≤ length s)%nat.
Proof. apply decodes_length, decode_utf8_decodes. Qed.

Lemma decode_final_app s t :
  decode_utf8_final (s ++ t) = (decode_utf8_stream s).1 ++ decode_utf8_final ((decode_utf8_stream s).2 ++ t).
Proof.
  unfold decode_utf8_final. pose proof (decode_stream_app s t) as H.
  destruct (decode_utf8_stream s) as [o p]. rewrite H. cbn [fst snd].
  destruct (decode_utf8_stream (p ++ t)) as [o' p']. cbn [fst snd].
  destruct (is_empty p'); [done|by rewrite app_assoc].
Qed.

Lemma decode_final_length s : (length (decode_utf8_final s) ≤ length s)%nat.
Proof.
  unfold decode_utf8_final. pose proof (decode_stream_length s).
  destruct (decode_utf8_stream s) as [o p]. cbn [fst snd] in *.
  destruct p; cbn [is_empty length] in *; [lia|]. rewrite length_app. cbn [length]. lia.
Qed.

Lemma decode_final_ascii s c : c < 128 → c ∉ s → c ∉ decode_utf8_final s.
Proof.
  intros Hc Hs. unfold decode_utf8_final.
  pose proof (decodes_ascii _ _ _ c (decode_utf8_decodes s) Hc Hs) as [Ho _].
  destruct (decode_utf8_stream s) as [o p]. cbn [fst] in Ho. destruct (is_empty p); [done|].
  apply not_elem_of_app. split; [done|]. apply not_elem_of_cons. split; [lia|apply not_elem_of_nil].
Qed.

(** ** The events of a text *)

Definition list_of {A} (o : option A) : list A := match o with Some a => [a] | None => [] end.

(** One pass over the characters of a text without CR: [acc] is the current line. *)
Fixpoint text_events (acc : str) (st : SseDecoderState) (text : str) : list ServerSentEvent :=
  match text with
  | [] =>
      let st := if is_empty acc then st else (decode_sse_line acc st).1 in
      list_of (flush_sse_event st).2
  | c :: text =>
      if c =? LF then
        let '(st, e) := decode_sse_line acc st in list_of e ++ text_events [] st text
      else text_events (acc ++ [c]) st text
  end.
Definition sse_events (text : str) : list ServerSentEvent := text_events [] decoder_default text.

Lemma text_events_line line acc st rest :
  LF ∉ line →
  text_events acc st (line ++ LF :: rest) =
  let '(st', e) := decode_sse_line (acc ++ line) st in list_of e ++ text_events [] st' rest.
Proof.
  revert acc. induction line as [|c line IH]; intros acc Hl; cbn [app text_events].
  - by rewrite app_nil_r.
  - apply not_elem_of_cons in Hl as [Hc Hl]. destruct (N.eqb_spec c LF) as [->|]; [done|].
    rewrite IH by done. by rewrite <-app_assoc.
Qed.

Lemma text_events_last line acc st :
  LF ∉ line → text_events acc st line =
  list_of (flush_sse_event (if is_empty (acc ++ line) then st else (decode_sse_line (acc ++ line) st).1)).2.
Proof.
  revert acc. induction line as [|c line IH]; intros acc Hl; cbn [text_events].
  - by rewrite app_nil_r.
  - apply not_elem_of_cons in Hl as [Hc Hl]. destruct (N.eqb_spec c LF) as [->|]; [done|].
    rewrite IH by done. by rewrite <-app_assoc.
Qed.

Lemma split_line_Some text line after :
  CR ∉ text → split_line text = Some (line, after) → text = line ++ LF :: after ∧ LF ∉ line.
Proof.
  revert line. induction text as [|c text IH]; intros line Hcr; cbn [split_line]; [done|].
  apply not_elem_of_cons in Hcr as [Hc Hcr]. destruct (N.eqb_spec c CR) as [->|]; [done|].
  destruct (N.eqb_spec c LF) as [->|].
  - intros [= <- <-]. split; [done|apply not_elem_of_nil].
  - destruct (split_line text) as [[l a]|] eqn:E; [|done]. intros [= <- <-].
    destruct (IH l Hcr eq_refl) as [-> Hl]. split; [done|]. by apply not_elem_of_cons.
Qed.

Lemma split_line_None text : split_line text = None → LF ∉ text.
Proof.
  induction text as [|c text IH]; cbn [split_line]; [intros _; apply not_elem_of_nil|].
  destruct (c =? CR); [done|]. destruct (N.eqb_spec c LF) as [->|Hc]; [done|].
  destruct (split_line text) as [[l a]|]; [done|]. intros _. apply not_elem_of_cons. auto.
Qed.

(** A line that is not empty only changes the state. *)
Lemma decode_sse_line_none line st : line ≠ [] → (decode_sse_line line st).2 = None.
Proof.
  destruct line as [|c line]; [done|]. intros _. cbn [decode_sse_line].
  destruct (c =? 58); [done|]. destruct (split_once 58 (c :: line)) as [[f v]|];
    destruct (str_eqb _ (lit "event")); [done| |done|]; by destruct (str_eqb _ _).
Qed.

(** ** The reader and the text it is sent *)

Definition arrived (a : arrival) : list N := match a with Bytes b => b | _ => [] end.
Definition all_bytes (l : list arrival) : Prop := Forall (λ a, ∃ b, a = Bytes b) l.

(** The text still to be read. *)
Definition reader_text (r : SseMessageReader) : str :=
  buffer r ++
  (if final_decoded r then []
   else decode_utf8_final (byte_pending r ++ (if finished r then [] else concat (map arrived (chunks r))))).

Definition reader_events (r : SseMessageReader) : list ServerSentEvent :=
  if trailing_flushed r then [] else text_events [] (state r) (reader_text r).

Record reader_ok (r : SseMessageReader) : Prop := {
  ok_chunks : all_bytes (chunks r);
  ok_buffer : CR ∉ buffer r;
  ok_pending : CR ∉ byte_pending r;
  ok_bytes : CR ∉ concat (map arrived (chunks r));
  ok_final : final_decoded r = true → finished r = true;
  ok_trailing : trailing_flushed r = true → final_decoded r = true ∧ buffer r = [];
}.

Definition reader_measure (r : SseMessageReader) : nat :=
  length (buffer r) + length (chunks r) + (if finished r then 0 else 1)
  + (if final_decoded r then 0 else 1 + 2 * (length (byte_pending r) + length (concat (map arrived (chunks r))))).

(** What a call of [next] does with the events still to come. *)
Definition next_spec (r : SseMessageReader)
    (res : SseMessageReader * option (result (option ServerSentEvent) str)) : Prop :=
  match res with
  | (r', Some (Ok (Some e))) => reader_ok r' ∧ reader_events r = e :: reader_events r'
  | (_, Some (Ok None)) => reader_events r = []
  | _ => False
  end.

Lemma next_spec_mono r r' res :
  reader_events r = reader_events r' → next_spec r' res → next_spec r res.
Proof. unfold next_spec. intros ->. done. Qed.

Lemma flush_spec st : (flush_sse_event st).2 = None ↔ (flush_sse_event st).1 = st ∧ (flush_sse_event st).2 = None.
Proof.
  unfold flush_sse_event. destruct (st_event st), (st_data st); cbn; naive_solver.
Qed.

Section chunks.
Variable idle_timeout : N.

Lemma reader_line r line after :
  reader_ok r → split_line (buffer r) = Some (line, after) →
  let '(st, e) := decode_sse_line line (state r) in
  let r' := mkReader (chunks r) (byte_pending r) after st (finished r) (final_decoded r) (trailing_flushed r) in
  reader_ok r' ∧ reader_events r = list_of e ++ reader_events r' ∧ (reader_measure r' < reader_measure r)%nat.
Proof.
  intros [Hch Hb Hp Hby Hf Ht] Hs. destruct (split_line_Some _ _ _ Hb Hs) as [Hbuf Hl].
  destruct (decode_sse_line line (state r)) as [st e] eqn:E.
  assert (trailing_flushed r = false) as Htr.
  { destruct (trailing_flushed r); [|done]. destruct (Ht eq_refl) as [_ Hn]. rewrite Hn in Hbuf. by destruct line. }
  rewrite Hbuf in Hb. apply not_elem_of_app in Hb as [_ [_ Hb]%not_elem_of_cons].
  split; [|split].
  - constructor; try done. cbn. intros Htr'. by rewrite Htr' in Htr.
  - unfold reader_events, reader_text. cbn [trailing_flushed state buffer final_decoded byte_pending finished chunks].
    rewrite Htr, Hbuf. rewrite <-app_assoc. cbn [app]. rewrite text_events_line by done. cbn [app]. by rewrite E.
  - unfold reader_measure. cbn [buffer chunks finished final_decoded byte_pending].
    rewrite Hbuf, length_app. cbn [length]. lia.
Qed.

(** The two steps at the end of the body: the last bytes, and a line without a break. *)
Lemma reader_final_bytes r :
  reader_ok r → finished r = true → final_decoded r = false →
  let r' := mkReader (chunks r) [] (buffer r ++ decode_utf8_final (byte_pending r)) (state r) true true
              (trailing_flushed r) in
  reader_ok r' ∧ reader_events r = reader_events r' ∧ (reader_measure r' < reader_measure r)%nat.
Proof.
  intros [Hch Hb Hp Hby Hfin Htr] Hf Hfd. cbn zeta.
  assert (trailing_flushed r = false) as Ht.
  { destruct (trailing_flushed r); [|done]. destruct (Htr eq_refl). congruence. }
  split; [|split].
  - constructor; cbn [chunks buffer byte_pending finished final_decoded trailing_flushed]; try done.
    + apply not_elem_of_app. split; [done|]. by apply decode_final_ascii.
    + apply not_elem_of_nil.
    + by rewrite Ht.
  - unfold reader_events, reader_text. cbn [trailing_flushed state buffer final_decoded].
    by rewrite Ht, Hf, Hfd, !app_nil_r.
  - unfold reader_measure. cbn [buffer chunks finished final_decoded byte_pending].
    rewrite Hf, Hfd, length_app. pose proof (decode_final_length (byte_pending r)). lia.
Qed.

Lemma reader_last_line r :
  reader_ok r → finished r = true → final_decoded r = true → buffer r ≠ [] → LF ∉ buffer r →
  let r' := mkReader (chunks r) (byte_pending r) [] (decode_sse_line (buffer r) (state r)).1 true true
              (trailing_flushed r) in
  reader_ok r' ∧ reader_events r = reader_events r' ∧ (reader_measure r' < reader_measure r)%nat.
Proof.
  intros [Hch Hb Hp Hby Hfin Htr] Hf Hfd Hne Hlf. cbn zeta.
  assert (trailing_flushed r = false) as Ht.
  { destruct (trailing_flushed r); [|done]. by destruct (Htr eq_refl). }
  split; [|split].
  - constructor; cbn [chunks buffer byte_pending finished final_decoded trailing_flushed]; try done.
    apply not_elem_of_nil.
  - unfold reader_events, reader_text. cbn [trailing_flushed state buffer final_decoded].
    rewrite Ht, Hfd, app_nil_r, text_events_last by done. cbn [app].
    destruct (buffer r) eqn:E; [done|]. done.
  - unfold reader_measure. cbn [buffer chunks finished final_decoded byte_pending length].
    rewrite Hf, Hfd. destruct (buffer r); [done|]. cbn [length]. lia.
Qed.

Lemma reader_chunk r b ch :
  reader_ok r → finished r = false → chunks r = Bytes b :: ch →
  let '(decoded, pending) := decode_utf8_stream (byte_pending r ++ b) in
  let r' := mkReader ch pending (buffer r ++ decoded) (state r) false (final_decoded r) (trailing_flushed r) in
  reader_ok r' ∧ reader_events r = reader_events r' ∧ (reader_measure r' < reader_measure r)%nat.
Proof.
  intros [Hch Hb Hp Hby Hfin Htr] Hf Hc. rewrite Hc in *. cbn [map concat arrived] in Hby.
  apply not_elem_of_app in Hby as [Hb1 Hby].
  pose proof (decode_stream_length (byte_pending r ++ b)) as Hlen. rewrite length_app in Hlen.
  pose proof (decodes_ascii _ _ _ CR (decode_utf8_decodes (byte_pending r ++ b))) as Hcr.
  destruct Hcr as [Hcr1 Hcr2]; [lia|by apply not_elem_of_app|].
  pose proof (decode_final_app (byte_pending r ++ b) (concat (map arrived ch))) as Happ.
  destruct (decode_utf8_stream (byte_pending r ++ b)) as [o p]. cbn [fst snd] in *.
  assert (final_decoded r = false) as Hfd by (destruct (final_decoded r); [by rewrite Hfin in Hf|done]).
  assert (trailing_flushed r = false) as Ht.
  { destruct (trailing_flushed r); [|done]. destruct (Htr eq_refl). congruence. }
  split; [|split].
  - constructor; cbn [chunks buffer byte_pending finished final_decoded trailing_flushed]; try done.
    + by inversion Hch.
    + by apply not_elem_of_app.
    + by rewrite Hfd.
    + by rewrite Ht.
  - unfold reader_events, reader_text.
    cbn [trailing_flushed state buffer final_decoded finished chunks byte_pending].
    rewrite Ht, Hf, Hfd, Hc. cbn [map concat arrived]. by rewrite (app_assoc (byte_pending r)), Happ, app_assoc.
  - unfold reader_measure. cbn [buffer chunks finished final_decoded byte_pending].
    rewrite Hf, Hfd, Hc. cbn [map concat arrived length]. rewrite !length_app. lia.
Qed.

Lemma reader_body_end r :
  reader_ok r → finished r = false → chunks r = [] →
  let r' := mkReader [] (byte_pending r) (buffer r) (state r) true (final_decoded r) (trailing_flushed r) in
  reader_ok r' ∧ reader_events r = reader_events r' ∧ (reader_measure r' < reader_measure r)%nat.
Proof.
  intros [Hch Hb Hp Hby Hfin Htr] Hf Hc. rewrite Hc in *. split; [|split].
  - by constructor.
  - unfold reader_events, reader_text.
    cbn [trailing_flushed state buffer final_decoded finished chunks byte_pending]. by rewrite Hf, Hc.
  - unfold reader_measure. cbn [buffer chunks finished final_decoded byte_pending]. rewrite Hf, Hc.
    cbn [length map concat]. lia.
Qed.

Lemma next_correct fuel r :
  reader_ok r → (reader_measure r < fuel)%nat → next_spec r (reader_next idle_timeout fuel r).
Proof.
  revert r. induction fuel as [|fuel IH]; intros r Hok Hf; [lia|].
  assert (∀ r', reader_ok r' ∧ reader_events r = reader_events r' ∧ (reader_measure r' < reader_measure r)%nat →
    next_spec r (reader_next idle_timeout fuel r')) as Hgo.
  { intros r' (Hok'&Hev&Hm). eapply next_spec_mono; [exact Hev|]. apply IH; [done|lia]. }
  pose proof (reader_line r) as Hline. pose proof (reader_final_bytes r Hok) as Hfb.
  pose proof (reader_last_line r Hok) as Hll. pose proof (reader_chunk r) as Hck.
  pose proof (reader_body_end r Hok) as Hbe. pose proof Hok as [Hch _ _ _ _ Htr].
  destruct r as [ch bp buf st fin fd tr]. cbn [reader_next].
  cbn [buffer state chunks byte_pending finished final_decoded trailing_flushed] in *.
  destruct (split_line buf) as [[line after]|] eqn:Hs.
  { specialize (Hline line after Hok eq_refl). destruct (decode_sse_line line st) as [st' [e|]].
    - destruct Hline as (Hok'&Hev&_). by split.
    - by apply Hgo. }
  apply split_line_None in Hs. destruct fin; [destruct fd; cbn [negb]|].
  - destruct buf as [|c buf]; cbn [is_empty negb].
    + destruct tr; cbn [negb]; [done|]. unfold next_spec, reader_events, reader_text.
      cbn [trailing_flushed state buffer final_decoded app text_events is_empty].
      destruct (flush_sse_event st) as [st' [e|]]; [|done]. split; [|done].
      destruct Hok. by constructor.
    + specialize (Hll eq_refl eq_refl ltac:(done) Hs).
      pose proof (decode_sse_line_none (c :: buf) st ltac:(done)) as Hn.
      destruct (decode_sse_line (c :: buf) st) as [st' e]. cbn [fst snd] in *. subst e. by apply Hgo.
  - apply Hgo, Hfb; done.
  - destruct ch as [|a ch]; [by apply Hgo, Hbe|]. inversion Hch as [|? ? [b ->] _]; subst.
    specialize (Hck b ch Hok eq_refl eq_refl).
    destruct (decode_utf8_stream (bp ++ b)) as [o p]. by apply Hgo.
Qed.

Lemma reader_measure_fuel r : all_bytes (chunks r) → (reader_measure r < reader_fuel r)%nat.
Proof.
  intros Hch. unfold reader_measure, reader_fuel.
  assert (sum_list (map (λ a, match a with Bytes b => length b | _ => 0%nat end) (chunks r))
    = length (concat (map arrived (chunks r)))) as ->.
  { induction Hch as [|a l [b ->] Hl IH]; [done|].
    cbn [map concat arrived sum_list sum_list_with foldr]. rewrite length_app.
    change (length b + sum_list (map (λ a, match a with Bytes b => length b | _ => 0%nat end) l)
      = length b + length (concat (map arrived l)))%nat. lia. }
  destruct (finished r), (final_decoded r); lia.
Qed.

Lemma read_all_correct calls r :
  reader_ok r → (length (reader_events r) < calls)%nat →
  read_all idle_timeout calls r = (reader_events r, Some None).
Proof.
  revert r. induction calls as [|calls IH]; intros r Hok Hc; [lia|]. cbn [read_all].
  pose proof (next_correct (reader_fuel r) r Hok (reader_measure_fuel _ (ok_chunks _ Hok))) as H.
  destruct (reader_next idle_timeout (reader_fuel r) r) as [r' [[[e|]|]|]]; cbn in H; try done.
  - destruct H as [Hok' Hev]. rewrite Hev in *. cbn [length] in Hc. rewrite IH by (done || lia). done.
  - by rewrite H.
Qed.

(** C15: The events read from a provider's answer whose lines end in LF do not depend on how the
    network cut it into chunks, even inside a character: for a body without CR, whatever the
    chunks, reading to the end returns the events of the decoded text, one pass over its
    characters, and no error.  With lines that end in CR LF they may depend on the chunks:
    see [crlf_cut_breaks_event]. *)
Theorem reader_ignores_chunks (body : list (list N)) calls :
  CR ∉ concat body →
  (length (sse_events (decode_utf8_final (concat body))) < calls)%nat →
  read_all idle_timeout calls (reader_new (map Bytes body)) =
  (sse_events (decode_utf8_final (concat body)), Some None).
Proof.
  intros Hcr Hcalls.
  assert (concat (map arrived (map Bytes body)) = concat body) as Hc.
  { f_equal. rewrite map_map. apply map_id. }
  assert (reader_ok (reader_new (map Bytes body))) as Hok.
  { constructor; cbn [reader_new chunks buffer byte_pending finished final_decoded trailing_flushed]; try done;
      try apply not_elem_of_nil; [|by rewrite Hc].
    apply Forall_map. by apply Forall_true; eauto. }
  assert (reader_events (reader_new (map Bytes body)) = sse_events (decode_utf8_final (concat body))) as Hev.
  { unfold reader_events, reader_text. cbn [reader_new trailing_flushed final_decoded finished state buffer
      byte_pending chunks app]. by rewrite Hc. }
  rewrite <-Hev in *. by apply read_all_correct.
Qed.
End chunks.

(** Text of an ASCII example as bytes. *)
Lemma reader_ignores_chunks_witness :
  let body := [lit "event: ping"; [10; 100]; lit "ata: " ++ [226]; [130; 172; 10]; [10]] in
  read_all 120000 3 (reader_new (map Bytes body)) =
  ([mkSse (Some (lit "ping")) [8364] [lit "event: ping"; lit "data: " ++ [8364]]], Some None).
Proof.
  intros body. rewrite (reader_ignores_chunks 120000 body 3).
  - reflexivity.
  - apply fresh_dec. reflexivity.
  - vm_compute. lia.
Defined.

(** Lines that end in CR LF depend on the chunks: when the body is cut between the two, the
    reader sees an empty line and the event ends before its data. *)
Definition crlf_body : str :=
  lit "event: ping" ++ [CR; LF] ++ lit "data: 1" ++ [CR; LF; CR; LF].
Lemma crlf_cut_breaks_event :
  read_all 120000 5 (reader_new [Bytes crlf_body]) =
    ([mkSse (Some (lit "ping")) (lit "1") [lit "event: ping"; lit "data: 1"]], Some None) ∧
  read_all 120000 5 (reader_new [Bytes (take 12 crlf_body); Bytes (drop 12 crlf_body)]) =
    ([mkSse (Some (lit "ping")) [] [lit "event: ping"]; mkSse None (lit "1") [lit "data: 1"]], Some None).
Proof. split; reflexivity. Qed.

(** ** [SseFrames] *)

Record SseFrames : Type := mkFrames { line : list N; frames_data : list str; skip_lf : bool }.
Definition frames_default : SseFrames := mkFrames [] [] false.

(** [String::from_utf8_lossy]. *)
Definition from_utf8_lossy (bytes : list N) : str := decode_utf8_final bytes.

Definition finish_line (self : SseFrames) : SseFrames :=
  mkFrames []
    (match strip_prefix (lit "data:") (from_utf8_lossy (line self)) with
     | Some data => frames_data self ++ [strip_space data]
     | None => frames_data self
     end)
    (skip_lf self).

Definition take_data (self : SseFrames) : SseFrames * option str :=
  let data := join [LF] (frames_data self) in
  (mkFrames (line self) [] (skip_lf self),
   if is_empty (trim data) || str_eqb (trim data) (lit "[DONE]") then None else Some data).

(** One round of the loop of [push]. *)
Definition push_byte (self : SseFrames) (byte : N) : SseFrames * list str :=
  if skip_lf self && (byte =? LF) then (mkFrames (line self) (frames_data self) false, [])
  else if negb (byte =? CR) && negb (byte =? LF)
  then (mkFrames (line self ++ [byte]) (frames_data self) false, [])
  else
    let self := mkFrames (line self) (frames_data self) (byte =? CR) in
    if is_empty (line self) then let '(self, data) := take_data self in (self, list_of data)
    else (finish_line self, []).

Fixpoint push (self : SseFrames) (bytes : list N) : SseFrames * list str :=
  match bytes with
  | [] => (self, [])
  | byte :: bytes =>
      let '(self, f) := push_byte self byte in
      let '(self, fs) := push self bytes in (self, f ++ fs)
  end.

Definition finish (self : SseFrames) : SseFrames * list str :=
  let self := if is_empty (line self) then self else finish_line self in
  let '(self, data) := take_data self in (self, list_of data).

(** A body that arrives in chunks. *)
Fixpoint push_chunks (self : SseFrames) (body : list (list N)) : SseFrames * list str :=
  match body with
  | [] => (self, [])
  | bytes :: body =>
      let '(self, f) := push self bytes in
      let '(self, fs) := push_chunks self body in (self, f ++ fs)
  end.

Definition default_sse_idle_timeout_ms : N := 120000.
Definition sse_idle_timeout_min_ms : N := 5000.
Definition sse_idle_timeout_max_ms : N := 600000.

(** [resolve_sse_idle_timeout], on the value of the environment variable. *)
Definition resolve_sse_idle_timeout (var : option str) : N :=
  let requested := match var ≫= (λ value, parse_u64 (trim value)) with
                   | Some ms => ms
                   | None => default_sse_idle_timeout_ms
                   end in
  N.min (N.max requested sse_idle_timeout_min_ms) sse_idle_timeout_max_ms.

(** The same body with every line ended by LF; [skip] says that a CR came just before. *)
Fixpoint unix_lines (skip : bool) (bytes : list N) : list N :=
  match bytes with
  | [] => []
  | b :: bytes =>
      if skip && (b =? LF) then unix_lines false bytes
      else if b =? CR then LF :: unix_lines true bytes
      else b :: unix_lines false bytes
  end.

Lemma push_app self a b :
  push self (a ++ b) =
  let '(s1, f1) := push self a in let '(s2, f2) := push s1 b in (s2, f1 ++ f2).
Proof.
  revert self. induction a as [|x a IH]; intros self; cbn [app push].
  { by destruct (push self b). }
  destruct (push_byte self x) as [s1 f1]. rewrite IH.
  destruct (push s1 a) as [s2 f2]. destruct (push s2 b) as [s3 f3]. by rewrite app_assoc.
Qed.

Lemma push_chunks_concat self body : push_chunks self body = push self (concat body).
Proof.
  revert self. induction body as [|b body IH]; intros self; cbn [push_chunks concat]; [done|].
  rewrite push_app. destruct (push self b) as [s1 f1]. by rewrite IH.
Qed.

(** The flag only matters to a following LF. *)
Definition with_skip (skip : bool) (self : SseFrames) : SseFrames :=
  mkFrames (line self) (frames_data self) skip.

(** A CR acts as an LF that also sets the flag. *)
Lemma push_byte_unix self b skip :
  skip && (b =? LF) = false →
  push_byte (with_skip skip self) b =
  let '(s, f) := push_byte (with_skip false self) (if b =? CR then LF else b) in
  (with_skip (b =? CR) s, f).
Proof.
  intros Hs. unfold push_byte. cbn [skip_lf with_skip line frames_data andb]. rewrite Hs.
  destruct (N.eqb_spec b CR) as [->|Hcr]; cbn [N.eqb Pos.eqb negb andb].
  - unfold finish_line, take_data. cbn [line frames_data skip_lf].
    destruct (is_empty (line self)); done.
  - apply N.eqb_neq in Hcr. rewrite Hcr. cbn [negb andb]. destruct (b =? LF); cbn [negb andb]; [|done].
    unfold finish_line, take_data. cbn [line frames_data skip_lf]. by destruct (is_empty (line self)).
Qed.

Lemma push_unix self bytes skip :
  (push (with_skip skip self) bytes).2 = (push (with_skip false self) (unix_lines skip bytes)).2 ∧
  with_skip false (push (with_skip skip self) bytes).1 =
  with_skip false (push (with_skip false self) (unix_lines skip bytes)).1.
Proof.
  revert self skip. induction bytes as [|b bytes IH]; intros self skip; cbn [push unix_lines]; [done|].
  destruct (skip && (b =? LF)) eqn:Hskip.
  { apply andb_true_iff in Hskip as [-> Hlf]. specialize (IH self false).
    unfold push_byte. cbn [skip_lf with_skip andb line frames_data]. rewrite Hlf.
    change (mkFrames (line self) (frames_data self) false) with (with_skip false self).
    destruct (push (with_skip false self) bytes), (push _ (unix_lines false bytes)). exact IH. }
  rewrite push_byte_unix by done.
  replace (if b =? CR then LF :: unix_lines true bytes else b :: unix_lines false bytes)
    with ((if b =? CR then LF else b) :: unix_lines (b =? CR) bytes) by (by destruct (b =? CR)).
  cbn [push]. set (b' := if b =? CR then LF else b).
  assert (b' ≠ CR) as Hb' by (unfold b'; destruct (N.eqb_spec b CR); lia).
  assert (∃ s f, push_byte (with_skip false self) b' = (with_skip false s, f)) as (s&f&->).
  { pose proof (push_byte_unix self b' false eq_refl) as H. apply N.eqb_neq in Hb'. rewrite Hb' in H.
    destruct (push_byte (with_skip false self) b') as [s f]. exists s, f. congruence. }
  specialize (IH s (b =? CR)).
  change (with_skip (b =? CR) (with_skip false s)) with (with_skip (b =? CR) s).
  destruct (push (with_skip (b =? CR) s) bytes), (push _ (unix_lines (b =? CR) bytes)).
  destruct IH as [H1 H2]. cbn [fst snd] in *. by rewrite H1.
Qed.

(** The frames of a body depend neither on its chunks nor on how its lines end: with LF, CR LF
    or CR, and cut anywhere, the same frames come out, at the end of the body too. *)
Theorem frames_ignore_chunks_and_newlines (body : list (list N)) :
  let '(s1, fs1) := push_chunks frames_default body in
  let '(s2, fs2) := push frames_default (unix_lines false (concat body)) in
  fs1 ++ (finish s1).2 = fs2 ++ (finish s2).2.
Proof.
  rewrite push_chunks_concat. destruct (push_unix frames_default (concat body) false) as [H1 H2].
  change (with_skip false frames_default) with frames_default in *.
  destruct (push frames_default (concat body)) as [s1 f1].
  destruct (push frames_default (unix_lines false (concat body))) as [s2 f2]. cbn [fst snd] in *.
  assert (∀ s, (finish s).2 = (finish (with_skip false s)).2) as Hf.
  { intros s. unfold finish. cbn [with_skip line]. destruct (is_empty (line s)); done. }
  by rewrite H1, (Hf s1), H2, <-Hf.
Qed.

(** The deadline between chunks stays within five seconds and ten minutes. *)
Lemma idle_timeout_bounds var :
  sse_idle_timeout_min_ms ≤ resolve_sse_idle_timeout var ≤ sse_idle_timeout_max_ms.
Proof. unfold resolve_sse_idle_timeout, sse_idle_timeout_min_ms, sse_idle_timeout_max_ms. lia. Qed.
