(* ===== verification/AnthropicStream.v ===== *)
(** * The client of Anthropic's API: from server-sent events to assistant events

    [pi-ai/src/providers/anthropic.rs]: [AnthropicEventIterator] over the events of
    [SseReader], the loop of [run_stream_anthropic] that turns them into blocks of a message
    and into the events the agent loop consumes, and [stream_anthropic], which ends every
    stream with one terminal event.

    Parameters: [serde_json] ([SerdeJson], and its typed decoding of a delta), the numbers
    of the standard library as far as an index needs them, Unicode lower case, the
    accounting of tokens and costs, and the texts of failures, which are opaque. *)
From stdpp Require Import base list numbers strings.
From S2P Require Import Prelude RustStr Watchdog AgentTypes AssistantProtocol JsonText JsonRepair PartialJson JsonPreview JsonStream SseReader.

Local Open Scope N_scope.

(** ** JSON values as the values the loop carries *)
Definition json_externals (Num : Type) (eqb : JsonText.Value Num → JsonText.Value Num → bool)
    (X : Externals) : Externals := {|
  AgentTypes.Value := JsonText.Value Num;
  AgentTypes.Map := list (str * JsonText.Value Num);
  AgentTypes.Object := JsonText.Object;
  AgentTypes.as_object v := match v with JsonText.Object m => Some m | _ => None end;
  AgentTypes.map_new := [];
  AgentTypes.map_singleton k v := [(k, v)];
  AgentTypes.value_eqb := eqb;
  AgentTypes.Image := AgentTypes.Image (Externals := X);
  AgentTypes.Usage := AgentTypes.Usage (Externals := X);
  AgentTypes.usage_zero := AgentTypes.usage_zero (Externals := X);
  AgentTypes.CheckpointBody := AgentTypes.CheckpointBody (Externals := X);
  AgentTypes.CustomBody := AgentTypes.CustomBody (Externals := X);
  AgentTypes.Diagnostic := AgentTypes.Diagnostic (Externals := X);
  AgentTypes.stall_diagnostic := AgentTypes.stall_diagnostic (Externals := X);
  AgentTypes.truncated_diagnostic := AgentTypes.truncated_diagnostic (Externals := X);
  AgentTypes.capture_diagnostic := AgentTypes.capture_diagnostic (Externals := X);
  AgentTypes.lifecycle_diagnostic := AgentTypes.lifecycle_diagnostic (Externals := X);
|}.

(** ** Reading values *)
Section values.
Context {Num : Type}.
Abbreviation Value := (JsonText.Value Num).

Fixpoint map_get (m : list (str * Value)) (key : str) : option Value :=
  match m with
  | [] => None
  | (k, v) :: m' => if str_eqb key k then Some v else map_get m' key
  end.

(** [Value::get] with a key. *)
Definition get (v : Value) (key : str) : option Value :=
  match v with JsonText.Object m => map_get m key | _ => None end.

(** [Value::pointer] along names. *)
Fixpoint pointer (v : Value) (path : list str) : option Value :=
  match path with
  | [] => Some v
  | key :: path => match get v key with Some v => pointer v path | None => None end
  end.

Definition as_str (v : option Value) : option str :=
  match v with Some (JsonText.String s) => Some s | _ => None end.
Definition str_or_empty (v : option Value) : str := default [] (as_str v).

End values.

(** ** The typed delta *)

Record TypedAnthropicDelta : Type := mkTypedDelta {
  type_ : option str;
  delta_text : option str;
  delta_thinking : option str;
  delta_partial_json : option str;
  delta_signature : option str }.

Record TypedContentBlockDelta : Type := mkTyped { typed_index : option Z; typed_delta : option TypedAnthropicDelta }.

Definition get_type (d : TypedAnthropicDelta) : str := default [] (type_ d).

Inductive AnthropicParsed (Num : Type) : Type :=
| Delta (typed : TypedContentBlockDelta)
| PValue (value : JsonText.Value Num).
Arguments Delta {Num} typed.
Arguments PValue {Num} value.

Definition ANTHROPIC_MESSAGE_EVENTS : list str :=
  [lit "message_start"; lit "message_delta"; lit "message_stop"; lit "content_block_start";
   lit "content_block_delta"; lit "content_block_stop"].

(** What is outside this file: numbers, Unicode, accounting and failure texts. *)
Class AnthropicHost (Num Usage Diagnostic : Type) : Type := {
  F64 : Type;
  f64_zero : F64;
  as_f64 : Num → option F64;
  parse_f64 : str → option F64;
  f64_as_i64 : F64 → Z;
  to_lowercase : str → str;
  typed_from_str : str → option TypedContentBlockDelta;
  CacheCost : Type;
  usage_at_start : Usage → option CacheCost → JsonText.Value Num → Usage * option CacheCost;
  usage_at_delta : Usage → option CacheCost → JsonText.Value Num → Usage * option CacheCost;
  StreamFailureError : Type;
  sse_error : str → StreamFailureError;
  ended_early : StreamFailureError;
  unparseable : ServerSentEvent → str → StreamFailureError;
  refusal_failure : option str → option (JsonText.Value Num) → StreamFailureError;
  failure_message : (StreamFailureError + str) → str;
  failure_diagnostic : (StreamFailureError + str) → Diagnostic }.

Section anthropic.
Context {Num : Type} {J : SerdeJson Num} (eqb : JsonText.Value Num → JsonText.Value Num → bool) {X0 : Externals}.
Let X : Externals := json_externals Num eqb X0.
#[local] Existing Instance X.
Context {A : AnthropicHost Num (AgentTypes.Usage (Externals := X0)) (AgentTypes.Diagnostic (Externals := X0))}.

Abbreviation Value := (JsonText.Value Num).
Abbreviation Map := (list (str * Value)).
Abbreviation AnthropicStreamError := (StreamFailureError + str)%type.
Abbreviation streaming := (parse_streaming_json from_str value_to_string).

(** [number_or_zero]. *)
Definition number_or_zero (value : option Value) : F64 :=
  match value with
  | Some (JsonText.Number number) => default f64_zero (as_f64 number)
  | Some (JsonText.String text) => default f64_zero (parse_f64 text)
  | _ => f64_zero
  end.
Definition index_of (value : option Value) : Z := f64_as_i64 (number_or_zero value).

(** [from_claude_code_name]. *)
Definition from_claude_code_name (name : str) (tools : option (list str)) : str :=
  match tools with
  | Some tools =>
      let lower_name := to_lowercase name in
      match List.find (λ tool, str_eqb (to_lowercase tool) lower_name) tools with
      | Some tool => tool
      | None => name
      end
  | None => name
  end.

(** [map_stop_reason]. *)
Definition map_stop_reason (reason : str) : result str AnthropicStreamError :=
  if str_eqb reason (lit "end_turn") then Ok (lit "stop")
  else if str_eqb reason (lit "max_tokens") then Ok (lit "length")
  else if str_eqb reason (lit "tool_use") then Ok (lit "toolUse")
  else if str_eqb reason (lit "refusal") then Ok (lit "error")
  else if str_eqb reason (lit "pause_turn") then Ok (lit "stop")
  else if str_eqb reason (lit "stop_sequence") then Ok (lit "stop")
  else if str_eqb reason (lit "sensitive") then Ok (lit "error")
  else Err (inr (lit "Unhandled stop reason: " ++ reason)).

(** ** [AnthropicEventIterator] *)

Inductive fetched : Type := Fetched (event : AnthropicParsed Num) | FetchError (error : AnthropicStreamError).

Definition parse_typed_anthropic_event (data : str) : result (AnthropicParsed Num) str :=
  match typed_from_str data with
  | Some typed => Ok (Delta typed)
  | None => let* value := parse_json_with_repair from_str data in Ok (PValue value)
  end.

Definition parsed_type (event : AnthropicParsed Num) : str :=
  match event with
  | Delta _ => lit "content_block_delta"
  | PValue value => str_or_empty (get value (lit "type"))
  end.

(** [next] until it returns [None] or an error, over what the reader returns. *)
Fixpoint iterate (saw_message_start saw_message_end : bool) (events : list ServerSentEvent)
    (failure : option str) : list fetched :=
  match events with
  | [] =>
      match failure with
      | Some e => [FetchError (inr e)]
      | None => if saw_message_start && negb saw_message_end then [FetchError (inl ended_early)] else []
      end
  | sse :: events =>
      if match SseReader.event sse with Some e => str_eqb e (lit "error") | None => false end
      then [FetchError (inl (sse_error (SseReader.data sse)))]
      else if negb (existsb (str_eqb (default [] (SseReader.event sse))) ANTHROPIC_MESSAGE_EVENTS)
      then iterate saw_message_start saw_message_end events failure
      else match parse_typed_anthropic_event (SseReader.data sse) with
           | Ok event =>
               Fetched event ::
               iterate (saw_message_start || str_eqb (parsed_type event) (lit "message_start"))
                       (saw_message_end || str_eqb (parsed_type event) (lit "message_stop"))
                       events failure
           | Err message => [FetchError (inl (unparseable sse message))]
           end
  end.

(** ** Blocks *)

Inductive AnthropicBlock : Type :=
| ABText (text : str) (index : Z)
| ABThinking (thinking thinking_signature : str) (redacted : option bool) (index : Z)
| ABToolCall (tool_call : ToolCall) (partial_json : StreamingJsonAccumulator) (index : Z).

Definition block_index (b : AnthropicBlock) : Z :=
  match b with ABText _ i => i | ABThinking _ _ _ i => i | ABToolCall _ _ i => i end.

Definition to_content_block (b : AnthropicBlock) : ContentBlock :=
  match b with
  | ABText text _ => Text (text_new text)
  | ABThinking thinking sig redacted _ => Thinking (mkThinking thinking (Some sig) redacted)
  | ABToolCall tool_call _ _ => ToolCallBlock tool_call
  end.

Definition position {B} (p : B → bool) : list B → option nat :=
  fix go l := match l with
              | [] => None
              | b :: l' => if p b then Some O else S <$> go l'
              end.

Definition find_block_index (blocks : list AnthropicBlock) (index : Z) : option nat :=
  position (λ b, (block_index b =? index)%Z) blocks.

(** The message with other contents. *)
Definition set_content (m : AssistantMessage) (c : list ContentBlock) : AssistantMessage :=
  mkAssistant c (api m) (provider m) (am_model m) (response_model m) (response_id m)
    (diagnostics m) (usage m) (stop_reason m) (stop_reason_raw m) (error_message m) (am_timestamp m).

Definition partial_from_blocks (output : AssistantMessage) (blocks : list AnthropicBlock) : AssistantMessage :=
  set_content output (map to_content_block blocks).

(** [parsed.as_object().cloned().unwrap_or_default()]. *)
Definition object_or_empty (v : option Value) : Map :=
  match v with Some (JsonText.Object m) => m | _ => [] end.

Definition set_arguments (c : ToolCall) (arguments : Map) : ToolCall :=
  mkCall (tc_id c) (tc_name c) arguments (thought_signature c).

(** What the loop of [run_stream_anthropic] keeps. *)
Record Consumer : Type := mkConsumer {
  output : AssistantMessage;
  blocks : list AnthropicBlock;
  refusal_details : option Value;
  cache_write_cost : option CacheCost;
  emitted : list AssistantMessageEvent }.

(** The request: the tools, whose token it is, fallback routing, and the price of cache
    writes known before the response. *)
Variables (is_oauth : bool) (tools : option (list str)) (fallback_enabled : bool)
  (initial_cost : option CacheCost).

(** Whether the token is cancelled after the loop, and when a failure is recorded. *)
Variables (cancelled aborted : bool).

Definition emit (s : Consumer) (e : AssistantMessageEvent) : Consumer :=
  mkConsumer (output s) (blocks s) (refusal_details s) (cache_write_cost s) (emitted s ++ [e]).
Definition with_blocks (s : Consumer) (bs : list AnthropicBlock) : Consumer :=
  mkConsumer (output s) bs (refusal_details s) (cache_write_cost s) (emitted s).
Definition with_output (s : Consumer) (m : AssistantMessage) : Consumer :=
  mkConsumer m (blocks s) (refusal_details s) (cache_write_cost s) (emitted s).
Definition with_cost (s : Consumer) (cost : option CacheCost) : Consumer :=
  mkConsumer (output s) (blocks s) (refusal_details s) cost (emitted s).

Definition set_response_id (m : AssistantMessage) (id : option str) : AssistantMessage :=
  mkAssistant (content m) (api m) (provider m) (am_model m) (response_model m) id
    (diagnostics m) (usage m) (stop_reason m) (stop_reason_raw m) (error_message m) (am_timestamp m).
Definition set_usage (m : AssistantMessage) (u : Usage) : AssistantMessage :=
  mkAssistant (content m) (api m) (provider m) (am_model m) (response_model m) (response_id m)
    (diagnostics m) u (stop_reason m) (stop_reason_raw m) (error_message m) (am_timestamp m).
Definition set_model (m : AssistantMessage) (model : str) : AssistantMessage :=
  mkAssistant (content m) (api m) (provider m) model (response_model m) (response_id m)
    (diagnostics m) (usage m) (stop_reason m) (stop_reason_raw m) (error_message m) (am_timestamp m).
Definition set_stop (m : AssistantMessage) (reason : str) (raw : option str) : AssistantMessage :=
  mkAssistant (content m) (api m) (provider m) (am_model m) (response_model m) (response_id m)
    (diagnostics m) (usage m) reason raw (error_message m) (am_timestamp m).

Definition model_byte (c : N) : bool :=
  is_ascii_digit c || is_ascii_uppercase c || ((97 <=? c) && (c <=? 122)) || (c =? 45) || (c =? 46).

(** [refusal::observe_serving_model]. *)
Definition observe_serving_model (m : AssistantMessage) (model : option Value) : AssistantMessage :=
  match as_str model with
  | Some id =>
      if starts_with id (lit "claude-") && (byte_len id <=? 128) && forallb model_byte id
      then if str_eqb id (am_model m) then m else set_model m id
      else m
  | None => m
  end.

(** ** The events *)

Definition on_message_start (s : Consumer) (event : Value) : Consumer :=
  let m := output s in
  let m := if fallback_enabled
           then observe_serving_model m (pointer event [lit "message"; lit "model"]) else m in
  let m := set_response_id m (as_str (pointer event [lit "message"; lit "id"])) in
  let '(u, cost) := usage_at_start (usage m) (cache_write_cost s) event in
  with_cost (with_output s (set_usage m u)) cost.

(** A new block at the end, announced. *)
Definition open_block (s : Consumer) (b : AnthropicBlock)
    (announce : N → AssistantMessage → AssistantMessageEvent) : Consumer :=
  let bs := blocks s ++ [b] in
  emit (with_blocks s bs) (announce (len bs - 1) (partial_from_blocks (output s) bs)).

Definition on_content_block_start (s : Consumer) (event : Value) : Consumer :=
  let index := index_of (get event (lit "index")) in
  let field key := pointer event [lit "content_block"; key] in
  match as_str (field (lit "type")) with
  | None => s
  | Some kind =>
      if str_eqb kind (lit "fallback") && fallback_enabled then
        with_output s (observe_serving_model (output s)
                         (pointer event [lit "content_block"; lit "to"; lit "model"]))
      else if str_eqb kind (lit "text") then open_block s (ABText [] index) TextStart
      else if str_eqb kind (lit "thinking") then open_block s (ABThinking [] [] None index) ThinkingStart
      else if str_eqb kind (lit "redacted_thinking") then
        open_block s (ABThinking (lit "[Reasoning redacted]") (str_or_empty (field (lit "data"))) (Some true) index)
          ThinkingStart
      else if str_eqb kind (lit "tool_use") then
        let name := str_or_empty (field (lit "name")) in
        let name := if is_oauth then from_claude_code_name name tools else name in
        let arguments := object_or_empty (field (lit "input")) in
        open_block s (ABToolCall (mkCall (str_or_empty (field (lit "id"))) name arguments None)
                        acc_default index) ToolCallStart
      else s
  end.

(** A block changed in place, announced when there is something to announce. *)
Definition update_block (s : Consumer) (i : nat) (b : AnthropicBlock)
    (announce : option (AssistantMessage → AssistantMessageEvent)) : Consumer :=
  let bs := <[i := b]> (blocks s) in
  let s := with_blocks s bs in
  match announce with
  | Some announce => emit s (announce (partial_from_blocks (output s) bs))
  | None => s
  end.

Definition on_content_block_delta (s : Consumer) (typed : option TypedContentBlockDelta) (event : Value)
    : Consumer :=
  let delta_index := match typed with
                     | Some typed => default 0%Z (typed_index typed)
                     | None => index_of (get event (lit "index"))
                     end in
  let delta_kind := typed ≫= typed_delta in
  let field (own : TypedAnthropicDelta → option str) key :=
    match delta_kind ≫= own with
    | Some d => d
    | None => str_or_empty (pointer event [lit "delta"; key])
    end in
  let delta_type := match delta_kind with
                    | Some d => get_type d
                    | None => str_or_empty (pointer event [lit "delta"; lit "type"])
                    end in
  match find_block_index (blocks s) delta_index with
  | None => s
  | Some i =>
      match blocks s !! i with
      | None => s
      | Some block =>
          if str_eqb delta_type (lit "text_delta") then
            let delta := field delta_text (lit "text") in
            match block with
            | ABText text index => update_block s i (ABText (text ++ delta) index) (Some (TextDelta (N.of_nat i) delta))
            | _ => s
            end
          else if str_eqb delta_type (lit "thinking_delta") then
            let delta := field delta_thinking (lit "thinking") in
            match block with
            | ABThinking thinking sig redacted index =>
                update_block s i (ABThinking (thinking ++ delta) sig redacted index)
                  (Some (ThinkingDelta (N.of_nat i) delta))
            | _ => s
            end
          else if str_eqb delta_type (lit "input_json_delta") then
            let delta := field delta_partial_json (lit "partial_json") in
            match block with
            | ABToolCall tool_call partial_json index =>
                let '(partial_json, parsed) := acc_append from_str value_to_string partial_json delta in
                let tool_call := match parsed with
                                 | Some v => set_arguments tool_call (object_or_empty v)
                                 | None => tool_call
                                 end in
                update_block s i (ABToolCall tool_call partial_json index) (Some (ToolCallDelta (N.of_nat i) delta))
            | _ => s
            end
          else if str_eqb delta_type (lit "signature_delta") then
            let delta := field delta_signature (lit "signature") in
            match block with
            | ABThinking thinking sig redacted index =>
                update_block s i (ABThinking thinking (sig ++ delta) redacted index) None
            | _ => s
            end
          else s
      end
  end.

Definition on_content_block_stop (s : Consumer) (event : Value) : Consumer :=
  match find_block_index (blocks s) (index_of (get event (lit "index"))) with
  | None => s
  | Some i =>
      match blocks s !! i with
      | Some (ABText text _) =>
          emit s (TextEnd (N.of_nat i) text (partial_from_blocks (output s) (blocks s)))
      | Some (ABThinking thinking _ _ _) =>
          emit s (ThinkingEnd (N.of_nat i) thinking (partial_from_blocks (output s) (blocks s)))
      | Some (ABToolCall tool_call partial_json index) =>
          let tool_call :=
            set_arguments tool_call (object_or_empty (streaming (Some (JsonStream.text partial_json)))) in
          update_block s i (ABToolCall tool_call acc_default index) (Some (ToolCallEnd (N.of_nat i) tool_call))
      | None => s
      end
  end.

Definition on_message_delta (s : Consumer) (event : Value) : result Consumer AnthropicStreamError :=
  let details := match pointer event [lit "delta"; lit "stop_details"] with
                 | Some (JsonText.Object m) => Some (JsonText.Object m)
                 | Some _ => None
                 | None => refusal_details s
                 end in
  let s := mkConsumer (output s) (blocks s) details (cache_write_cost s) (emitted s) in
  let* s := match as_str (pointer event [lit "delta"; lit "stop_reason"]) with
            | Some stop_reason =>
                let* reason := map_stop_reason stop_reason in
                Ok (with_output s (set_stop (output s) reason
                     (if str_eqb reason (lit "error") || str_eqb reason (lit "length")
                      then Some stop_reason else None)))
            | None => Ok s
            end in
  let '(u, cost) := usage_at_delta (usage (output s)) (cache_write_cost s) event in
  Ok (with_cost (with_output s (set_usage (output s) u)) cost).

(** One round of the loop over the events. *)
Definition on_event (s : Consumer) (parsed : AnthropicParsed Num) : result Consumer AnthropicStreamError :=
  let event_type := parsed_type parsed in
  let '(typed, event) := match parsed with
                         | Delta typed => (Some typed, JsonText.Null)
                         | PValue value => (None, value)
                         end in
  if str_eqb event_type (lit "message_start") then Ok (on_message_start s event)
  else if str_eqb event_type (lit "content_block_start") then Ok (on_content_block_start s event)
  else if str_eqb event_type (lit "content_block_delta") then Ok (on_content_block_delta s typed event)
  else if str_eqb event_type (lit "content_block_stop") then Ok (on_content_block_stop s event)
  else if str_eqb event_type (lit "message_delta") then on_message_delta s event
  else Ok s.

(** The loop; an error keeps what was received. *)
Fixpoint consume (s : Consumer) (events : list fetched) : Consumer * option AnthropicStreamError :=
  match events with
  | [] => (s, None)
  | FetchError e :: _ => (s, Some e)
  | Fetched parsed :: events =>
      match on_event s parsed with
      | Ok s => consume s events
      | Err e => (s, Some e)
      end
  end.

(** After the loop, however it ended: arguments not parsed yet are. *)
Definition settle_block (b : AnthropicBlock) : AnthropicBlock :=
  match b with
  | ABToolCall tool_call partial_json index =>
      match acc_flush from_str value_to_string partial_json with
      | (partial_json, Some v) => ABToolCall (set_arguments tool_call (object_or_empty v)) partial_json index
      | (partial_json, None) => ABToolCall tool_call partial_json index
      end
  | b => b
  end.

(** [run_stream_anthropic] after the request was sent: the [Start] event, the loop, the
    checks after it. *)
Definition run_stream (m : AssistantMessage) (events : list fetched)
    : AssistantMessage * list AssistantMessageEvent * result unit AnthropicStreamError :=
  let '(s, failure) := consume (mkConsumer m [] None initial_cost [Start m]) events in
  let bs := map settle_block (blocks s) in
  let m := partial_from_blocks (output s) bs in
  match failure with
  | Some e => (m, emitted s, Err e)
  | None =>
      if cancelled then (m, emitted s, Err (inr (lit "Request was aborted")))
      else if str_eqb (stop_reason m) (lit "aborted") || str_eqb (stop_reason m) (lit "error")
      then (m, emitted s, Err (inl (refusal_failure (stop_reason_raw m) (refusal_details s))))
      else (m, emitted s ++ [Done (stop_reason m) m], Ok tt)
  end.

(** [stream_anthropic]: [setup] is the outcome of everything up to the response. *)
Definition stream_anthropic (m : AssistantMessage) (setup : result (list fetched) AnthropicStreamError)
    : list AssistantMessageEvent :=
  let '(m, events, r) := match setup with
                         | Ok events => run_stream m events
                         | Err e => (m, [], Err e)
                         end in
  match r with
  | Ok _ => events
  | Err e =>
      let reason := if aborted then lit "aborted" else lit "error" in
      let m := mkAssistant (content m) (api m) (provider m) (am_model m) (response_model m) (response_id m)
                 (if aborted then diagnostics m
                  else Some (default [] (diagnostics m) ++ [failure_diagnostic e]))
                 (usage m) reason (stop_reason_raw m) (Some (failure_message e)) (am_timestamp m) in
      events ++ [ErrorEvent reason m]
  end.

(** ** The client keeps the protocol of assistant events *)

Definition view (b : AnthropicBlock) : ContentBlock := unsigned (to_content_block b).
Definition views (s : Consumer) : list ContentBlock := map view (blocks s).

Lemma shown_partial m bs : shown (partial_from_blocks m bs) = map view bs.
Proof. unfold shown, partial_from_blocks. cbn [set_content content]. by rewrite map_map. Qed.

(** What an operation on the blocks adds to the stream. *)
Definition extends (s s' : Consumer) : Prop :=
  ∃ new, emitted s' = emitted s ++ new ∧ protocol (views s) new (views s').

Lemma emits_refl s s' : emitted s' = emitted s → views s' = views s → extends s s'.
Proof. intros He Hk. exists []. rewrite app_nil_r, Hk. split; [done|constructor]. Qed.

Lemma extends_same s s' : emitted s' = emitted s ∧ blocks s' = blocks s → extends s s'.
Proof. intros [He Hb]. apply emits_refl; [done|]. unfold views. by rewrite Hb. Qed.

Lemma emits_trans s1 s2 s3 : extends s1 s2 → extends s2 s3 → extends s1 s3.
Proof.
  intros (n1&E1&P1) (n2&E2&P2). exists (n1 ++ n2). rewrite E2, E1, app_assoc. split; [done|].
  by eapply protocol_app.
Qed.

Lemma extends_one s s' e m :
  emitted s' = emitted s ++ [e] → protocol_step (views s) e (partial_from_blocks m (blocks s')) → extends s s'.
Proof.
  intros He Hp. exists [e]. split; [done|]. unfold views at 2. rewrite <-(shown_partial m). by apply protocol_one.
Qed.

Lemma open_block_extends s b announce :
  (∀ p, shown p = views s ++ [view b] → protocol_step (views s) (announce (len (views s)) p) p) →
  extends s (open_block s b announce).
Proof.
  intros Ha. eapply (extends_one _ _ _ (output s)); [done|].
  assert (len (blocks s ++ [b]) - 1 = len (views s)) as ->.
  { unfold views, len. rewrite length_app, length_map. cbn [length]. lia. }
  apply Ha. rewrite shown_partial. apply map_app.
Qed.

Lemma map_insert_same {B C} (f : B → C) (l : list B) i b b0 :
  l !! i = Some b0 → f b = f b0 → map f (<[i:=b]> l) = map f l.
Proof.
  intros Hl Hf. change (f <$> <[i:=b]> l = f <$> l). rewrite list_fmap_insert, Hf. apply list_insert_id.
  by rewrite list_lookup_fmap, Hl.
Qed.

Lemma lookup_view s i b : blocks s !! i = Some b → views s !! i = Some (view b).
Proof. intros Hl. change ((view <$> blocks s) !! i = Some (view b)). by rewrite list_lookup_fmap, Hl. Qed.

Lemma update_block_extends s i b f :
  (∀ p, shown p = <[i:=view b]> (views s) → protocol_step (views s) (f p) p) →
  extends s (update_block s i b (Some f)).
Proof.
  intros Hf. eapply (extends_one _ _ _ (output s)); [done|]. apply Hf. rewrite shown_partial.
  apply (list_fmap_insert view).
Qed.

(** An end changes nothing. *)
Lemma emit_extends s f :
  (∀ p, shown p = views s → protocol_step (views s) (f p) p) →
  extends s (emit s (f (partial_from_blocks (output s) (blocks s)))).
Proof. intros Hf. eapply (extends_one _ _ _ (output s)); [done|]. apply Hf. by rewrite shown_partial. Qed.

Lemma on_content_block_start_extends s event : extends s (on_content_block_start s event).
Proof.
  unfold on_content_block_start. destruct (as_str _) as [kind|]; [|by apply emits_refl].
  repeat (destruct (_ && _) || destruct (str_eqb _ _)); try (by apply extends_same);
    apply open_block_extends; intros p Hp.
  - by eapply opens_text; [|exact Hp].
  - eapply opens_thinking; [|exact Hp]. by left.
  - eapply opens_thinking; [|exact Hp]. by right.
  - eapply opens_call. exact Hp.
Qed.

Lemma on_content_block_delta_extends s typed event : extends s (on_content_block_delta s typed event).
Proof.
  unfold on_content_block_delta.
  destruct (find_block_index _ _) as [i|]; [|by apply emits_refl].
  destruct (blocks s !! i) as [b|] eqn:Hl; [|by apply emits_refl]. pose proof (lookup_view _ _ _ Hl) as Hv.
  cbn zeta. destruct (str_eqb _ (lit "text_delta")).
  { destruct b; try by apply emits_refl. apply update_block_extends. intros p Hp. eapply adds_text; [exact Hv|exact Hp]. }
  destruct (str_eqb _ (lit "thinking_delta")).
  { destruct b; try by apply emits_refl. apply update_block_extends. intros p Hp. eapply adds_thinking; [exact Hv|exact Hp]. }
  destruct (str_eqb _ (lit "input_json_delta")).
  { destruct b as [| |c acc index]; try by apply emits_refl.
    destruct (acc_append _ _ _ _) as [acc' parsed]. apply update_block_extends. intros p Hp.
    apply (adds_arguments _ i c (match parsed with Some v => object_or_empty v | None => arguments c end)); [done|].
    rewrite Hp. destruct parsed; [done|]. by destruct c. }
  destruct (str_eqb _ (lit "signature_delta")); [|by apply emits_refl].
  destruct b; try by apply emits_refl. apply emits_refl; [done|]. unfold views.
  by apply map_insert_same with (1 := Hl).
Qed.

Lemma on_content_block_stop_extends s event : extends s (on_content_block_stop s event).
Proof.
  unfold on_content_block_stop.
  destruct (find_block_index _ _) as [i|]; [|by apply emits_refl].
  destruct (blocks s !! i) as [[text index|thinking sig red index|c acc index]|] eqn:Hl; [| | |by apply emits_refl];
    pose proof (lookup_view _ _ _ Hl) as Hv.
  - apply emit_extends. intros p Hp. by apply (ends_text _ i (text_new text)).
  - apply emit_extends. intros p Hp. by apply (ends_thinking _ i (mkThinking thinking None red)).
  - apply update_block_extends. intros p Hp. by apply (ends_call _ i c).
Qed.

Lemma on_message_delta_same s event s' :
  on_message_delta s event = Ok s' → emitted s' = emitted s ∧ blocks s' = blocks s.
Proof.
  unfold on_message_delta. cbn zeta. destruct (as_str _) as [r|].
  - destruct (map_stop_reason r); [|done]. cbn beta iota. destruct (usage_at_delta _ _ _). by intros [= <-].
  - cbn beta iota. destruct (usage_at_delta _ _ _). by intros [= <-].
Qed.

Lemma on_message_start_same s event :
  emitted (on_message_start s event) = emitted s ∧ blocks (on_message_start s event) = blocks s.
Proof. unfold on_message_start. cbn zeta. by destruct (usage_at_start _ _ _). Qed.

Lemma on_event_extends s parsed s' : on_event s parsed = Ok s' → extends s s'.
Proof.
  unfold on_event. destruct (match parsed with Delta _ => _ | PValue _ => _ end) as [typed event].
  destruct (str_eqb _ _); [intros [= <-]; by apply extends_same, on_message_start_same|].
  destruct (str_eqb _ _); [intros [= <-]; apply on_content_block_start_extends|].
  destruct (str_eqb _ _); [intros [= <-]; apply on_content_block_delta_extends|].
  destruct (str_eqb _ _); [intros [= <-]; apply on_content_block_stop_extends|].
  destruct (str_eqb _ _); [|intros [= <-]; by apply emits_refl].
  intros H%on_message_delta_same. by apply extends_same.
Qed.

Lemma consume_extends s events : extends s (consume s events).1.
Proof.
  revert s. induction events as [|[parsed|e] events IH]; intros s; cbn [consume]; try by apply emits_refl.
  destruct (on_event s parsed) as [s'|e] eqn:E; [|by apply emits_refl].
  eapply emits_trans; [by eapply on_event_extends|apply IH].
Qed.

Lemma settle_same b : same_but_arguments (view b) (view (settle_block b)).
Proof. destruct b as [| |c acc index]; try done. cbn [settle_block]. destruct (acc_flush _ _ _) as [? [?|]]; by destruct c. Qed.

(** The stream of a response. *)
Lemma response_protocol m events :
  ∃ mid last u, stream_anthropic m (Ok events) = Start m :: mid ++ [last] ∧ protocol [] mid u ∧
    match last with
    | Done reason m | ErrorEvent reason m => Forall2 same_but_arguments u (shown m) ∧ stop_reason m = reason
    | _ => False
    end.
Proof.
  unfold stream_anthropic, run_stream.
  pose proof (consume_extends (mkConsumer m [] None initial_cost [Start m]) events) as (new&He&Hp).
  destruct (consume _ events) as [s failure]. cbn [fst emitted] in He. change (views _) with (@nil ContentBlock) in Hp at 1.
  assert (Forall2 same_but_arguments (views s)
    (shown (partial_from_blocks (output s) (map settle_block (blocks s))))) as Hk.
  { rewrite shown_partial, map_map. unfold views. apply Forall2_fmap, Forall_Forall2_diag, Forall_forall.
    intros b _. apply settle_same. }
  rewrite He. cbn [app].
  destruct failure as [e|]; [|destruct cancelled; [|destruct (_ || _)]];
    (eexists new, _, _; split; [done|]; split; [exact Hp|]; by split).
Qed.

(** C14: Every stream of the client keeps the protocol of assistant events, whatever the server
    sends and however the connection ends: it is a single error, or it starts, opens blocks
    at the end of the content, changes each block only by the events that name it - every
    partial message is the one before with the event applied - and ends in exactly one
    terminal event, with the blocks that were opened. *)
Theorem stream_keeps_protocol m setup :
  content m = [] → stream_follows_protocol (stream_anthropic m setup).
Proof.
  intros Hm. destruct setup as [events|e]; [right|left; by do 2 eexists].
  destruct (response_protocol m events) as (mid&last&u&Hs&Hp&Hlast). rewrite Hs. exists m, mid, last, u.
  split; [done|]. split; [done|]. split; [done|]. by destruct last.
Qed.

(** ** The arguments of a tool call *)

(** The block an event is about. *)
Definition event_index (p : AnthropicParsed Num) : option Z :=
  match p with
  | Delta typed => Some (default 0%Z (typed_index typed))
  | PValue v =>
      if existsb (str_eqb (parsed_type p))
           [lit "content_block_start"; lit "content_block_delta"; lit "content_block_stop"]
      then Some (index_of (get v (lit "index"))) else None
  end.

(** The piece of the arguments an event brings. *)
Definition json_delta (p : AnthropicParsed Num) : option str :=
  match p with
  | Delta typed =>
      match typed_delta typed with
      | Some d => if str_eqb (get_type d) (lit "input_json_delta") then Some (default [] (delta_partial_json d)) else None
      | None => None
      end
  | PValue v =>
      if str_eqb (parsed_type p) (lit "content_block_delta")
         && str_eqb (str_or_empty (pointer v [lit "delta"; lit "type"])) (lit "input_json_delta")
      then Some (str_or_empty (pointer v [lit "delta"; lit "partial_json"])) else None
  end.

Definition is_stop (p : AnthropicParsed Num) : Prop := parsed_type p = lit "content_block_stop" ∧ ∃ v, p = PValue v.

(** The call a [tool_use] block announces. *)
Definition tool_start (p : AnthropicParsed Num) : option (str * str) :=
  match p with
  | PValue v =>
      if str_eqb (parsed_type p) (lit "content_block_start")
         && match as_str (pointer v [lit "content_block"; lit "type"]) with
            | Some kind => str_eqb kind (lit "tool_use")
            | None => false
            end
      then let name := str_or_empty (pointer v [lit "content_block"; lit "name"]) in
           Some (str_or_empty (pointer v [lit "content_block"; lit "id"]),
                 if is_oauth then from_claude_code_name name tools else name)
      else None
  | Delta _ => None
  end.

Lemma position_map (bs : list AnthropicBlock) z :
  find_block_index bs z = position (λ i, (i =? z)%Z) (map block_index bs).
Proof. induction bs as [|b bs IH]; [done|]. unfold find_block_index in *. cbn [position map]. by rewrite IH. Qed.

Lemma find_position_lookup {B} (p : B → bool) l i : position p l = Some i → ∃ b, l !! i = Some b ∧ p b = true.
Proof.
  revert i. induction l as [|b l IH]; intros i; cbn [position]; [done|].
  destruct (p b) eqn:E; [intros [= <-]; eauto|].
  destruct (position p l) as [j|]; [|done]. intros [= <-]. by apply IH.
Qed.

Lemma find_position_app {B} (p : B → bool) l l' :
  position p (l ++ l') = match position p l with
                         | Some i => Some i
                         | None => (λ j, (length l + j)%nat) <$> position p l'
                         end.
Proof.
  induction l as [|b l IH]; cbn [app position]; [by destruct (position p l')|].
  destruct (p b); [done|]. rewrite IH. destruct (position p l); [done|]. by destruct (position p l').
Qed.

(** Nothing happened to the block of index [z]. *)
Definition same_at (z : Z) (s s' : Consumer) : Prop :=
  find_block_index (blocks s') z = find_block_index (blocks s) z ∧
  ∀ i, find_block_index (blocks s) z = Some i → blocks s' !! i = blocks s !! i.

Lemma same_at_refl z s s' : blocks s' = blocks s → same_at z s s'.
Proof. unfold same_at. by intros ->. Qed.

Lemma same_at_open z s b announce : block_index b ≠ z → same_at z s (open_block s b announce).
Proof.
  intros Hz. unfold same_at. cbn [open_block emit with_blocks blocks]. split.
  - unfold find_block_index. rewrite find_position_app. cbn [position].
    destruct (Z.eqb_spec (block_index b) z); [done|]. by destruct (position _ (blocks s)).
  - intros i (b0&Hl&_)%find_position_lookup. rewrite lookup_app_l; [done|]. by eapply lookup_lt_Some.
Qed.

Lemma find_lookup bs z i : find_block_index bs z = Some i → ∃ b, bs !! i = Some b ∧ block_index b = z.
Proof. intros (b&Hl&Hb%Z.eqb_eq)%find_position_lookup. eauto. Qed.

Lemma find_insert bs z i b b0 :
  bs !! i = Some b0 → block_index b = block_index b0 →
  find_block_index (<[i:=b]> bs) z = find_block_index bs z.
Proof. intros Hl Hb. by rewrite !position_map, (map_insert_same _ _ _ _ b0). Qed.

Lemma same_at_update z z' s i b b0 announce :
  find_block_index (blocks s) z' = Some i → z' ≠ z → blocks s !! i = Some b0 →
  block_index b = block_index b0 → same_at z s (update_block s i b announce).
Proof.
  intros Hf Hz Hl Hb. unfold same_at.
  assert (blocks (update_block s i b announce) = <[i:=b]> (blocks s)) as ->
    by (unfold update_block; by destruct announce).
  split; [by eapply find_insert|]. intros j Hj.
  destruct (find_lookup _ _ _ Hj) as (b1&Hl1&Hb1), (find_lookup _ _ _ Hf) as (b2&Hl2&Hb2).
  rewrite list_lookup_insert_ne; [done|]. intros ->. congruence.
Qed.

Lemma delta_same_at z s typed event :
  match typed with
  | Some typed => default 0%Z (typed_index typed)
  | None => index_of (get event (lit "index"))
  end ≠ z → same_at z s (on_content_block_delta s typed event).
Proof.
  unfold on_content_block_delta. cbn zeta. generalize (match typed with
    | Some typed => default 0%Z (typed_index typed) | None => index_of (get event (lit "index")) end) as z'.
  intros z' Hne. destruct (find_block_index _ _) as [i|] eqn:Hf; [|by apply same_at_refl].
  destruct (blocks s !! i) as [b|] eqn:Hl; [|by apply same_at_refl].
  repeat (destruct (str_eqb _ _); [destruct b; try (by apply same_at_refl);
    try (destruct (acc_append _ _ _ _) as [? [?|]]); by eapply same_at_update|]).
  by apply same_at_refl.
Qed.

Lemma stop_same_at z s event :
  index_of (get event (lit "index")) ≠ z → same_at z s (on_content_block_stop s event).
Proof.
  intros Hne. unfold on_content_block_stop.
  destruct (find_block_index _ _) as [i|] eqn:Hf; [|by apply same_at_refl].
  destruct (blocks s !! i) as [[| |]|] eqn:Hl; try (by apply same_at_refl). by eapply same_at_update.
Qed.

Lemma start_same_at z s event :
  index_of (get event (lit "index")) ≠ z → same_at z s (on_content_block_start s event).
Proof.
  intros Hne. unfold on_content_block_start. destruct (as_str _) as [kind|]; [|by apply same_at_refl].
  repeat (destruct (_ && _) || destruct (str_eqb _ _)); try (by apply same_at_refl); by apply same_at_open.
Qed.

(** Events about other blocks leave a block alone. *)
Lemma on_event_other z s p s' : event_index p ≠ Some z → on_event s p = Ok s' → same_at z s s'.
Proof.
  unfold on_event. intros Hz.
  destruct p as [typed|v]; cbn [parsed_type event_index] in *.
  - change (str_eqb _ (lit "message_start")) with false. change (str_eqb _ (lit "content_block_start")) with false.
    change (str_eqb _ (lit "content_block_delta")) with true. cbn iota. intros [= <-].
    apply delta_same_at. congruence.
  - cbn [existsb] in Hz. destruct (str_eqb _ (lit "message_start")); [intros [= <-]; by apply same_at_refl, on_message_start_same|].
    destruct (str_eqb _ (lit "content_block_start")); [intros [= <-]; apply start_same_at; cbn [orb] in Hz; congruence|].
    destruct (str_eqb _ (lit "content_block_delta")); [intros [= <-]; apply delta_same_at; cbn [orb] in Hz; congruence|].
    destruct (str_eqb _ (lit "content_block_stop")); [intros [= <-]; apply stop_same_at; cbn [orb] in Hz; congruence|].
    destruct (str_eqb _ (lit "message_delta")); [|intros [= <-]; by apply same_at_refl].
    intros [_ Hb]%on_message_delta_same. by apply same_at_refl.
Qed.

(** The block of a call whose arguments so far are [received]. *)
Definition collecting (z : Z) (id name : str) (received : str) (s : Consumer) : Prop :=
  ∃ i c acc, find_block_index (blocks s) z = Some i ∧ blocks s !! i = Some (ABToolCall c acc z) ∧
    tc_id c = id ∧ tc_name c = name ∧ thought_signature c = None ∧ JsonStream.text acc = received ∧
    ∃ last, acc_ok from_str value_to_string acc last ∧
      ∀ v, last = Some v → arguments c = object_or_empty v.

Lemma collecting_same z id name received s s' :
  same_at z s s' → collecting z id name received s → collecting z id name received s'.
Proof.
  intros [Hf Hl] (i&c&acc&Hi&Hb&H). exists i, c, acc. rewrite Hf, (Hl i Hi). auto.
Qed.

Lemma acc_default_ok : acc_ok from_str value_to_string acc_default (None : option (option Value)).
Proof. split; [done|]. split; [done|]. by left. Qed.

Lemma on_event_start z id name s p s' :
  find_block_index (blocks s) z = None → event_index p = Some z → tool_start p = Some (id, name) →
  on_event s p = Ok s' → collecting z id name [] s'.
Proof.
  intros Hf Hz Hp. destruct p as [typed|v]; [done|]. unfold on_event. cbn [parsed_type tool_start event_index] in *.
  destruct (str_eqb (str_or_empty (get v (lit "type"))) (lit "content_block_start")) eqn:E; [|done].
  apply str_eqb_eq in E. rewrite E in *. cbn [existsb] in Hz. rewrite ?str_eqb_refl in Hz. cbn [orb] in Hz.
  change (str_eqb (lit "content_block_start") (lit "message_start")) with false.
  cbn iota. intros [= <-]. unfold on_content_block_start. cbn zeta. revert Hp. cbn [andb].
  destruct (as_str (pointer v [lit "content_block"; lit "type"])) as [kind|]; [|done].
  destruct (str_eqb kind (lit "tool_use")) eqn:Ek; [|done]. apply str_eqb_eq in Ek as ->. intros Hp.
  change (str_eqb (lit "tool_use") (lit "fallback")) with false. change (str_eqb (lit "tool_use") (lit "text")) with false.
  change (str_eqb (lit "tool_use") (lit "thinking")) with false.
  change (str_eqb (lit "tool_use") (lit "redacted_thinking")) with false. cbn [andb]. cbn iota.
  injection Hp as <- <-. injection Hz as Hz. rewrite Hz.
  eexists (length (blocks s)), _, acc_default. cbn [open_block emit with_blocks blocks].
  split; [|split; [by apply list_lookup_middle|do 4 (split; [done|]); exists None; split; [apply acc_default_ok|done]]].
  unfold find_block_index in *. rewrite find_position_app, Hf. cbn [position block_index]. rewrite Z.eqb_refl.
  cbn. f_equal. lia.
Qed.

(** A piece appended to the block. *)
Lemma collecting_append z id name received s typed event delta :
  collecting z id name received s →
  match typed with
  | Some typed => default 0%Z (typed_index typed)
  | None => index_of (get event (lit "index"))
  end = z →
  match typed ≫= typed_delta with
  | Some d => get_type d
  | None => str_or_empty (pointer event [lit "delta"; lit "type"])
  end = lit "input_json_delta" →
  match (typed ≫= typed_delta) ≫= delta_partial_json with
  | Some d => d
  | None => str_or_empty (pointer event [lit "delta"; lit "partial_json"])
  end = delta →
  collecting z id name (received ++ delta) (on_content_block_delta s typed event).
Proof.
  intros (i&c&acc&Hi&Hb&Hid&Hname&Hsig&Htext&last&Hok&Hlast) Hz Ht Hd. unfold on_content_block_delta. cbn zeta.
  rewrite Hz, Ht, Hi, Hb. change (str_eqb (lit "input_json_delta") (lit "text_delta")) with false.
  change (str_eqb (lit "input_json_delta") (lit "thinking_delta")) with false. rewrite str_eqb_refl. cbn iota.
  rewrite Hd. destruct (acc_append from_str value_to_string acc delta) as [acc' parsed] eqn:E.
  destruct (append_spec _ _ _ _ _ _ _ Hok E) as (Htext'&Hok'&_).
  set (c' := match parsed with Some v => set_arguments c (object_or_empty v) | None => c end).
  exists i, c', acc'. cbn [update_block emit with_blocks blocks].
  rewrite (find_insert _ _ _ _ _ Hb) by done. split; [done|].
  split; [apply list_lookup_insert_eq; by eapply lookup_lt_Some|].
  do 3 (split; [unfold c'; by destruct parsed|]). split; [by rewrite Htext', Htext|].
  exists (match parsed with Some v => Some v | None => last end). split; [done|].
  unfold c'. destruct parsed; [by intros ? [= <-]|done].
Qed.

Lemma on_event_json z id name received s p s' delta :
  collecting z id name received s → event_index p = Some z → json_delta p = Some delta →
  on_event s p = Ok s' → collecting z id name (received ++ delta) s'.
Proof.
  intros Hc Hz Hd. unfold on_event. destruct p as [typed|v]; cbn [parsed_type json_delta event_index] in *.
  - change (str_eqb _ (lit "message_start")) with false. change (str_eqb _ (lit "content_block_start")) with false.
    change (str_eqb _ (lit "content_block_delta")) with true. cbn iota. intros [= <-].
    destruct (typed_delta typed) as [d|] eqn:Et; [|done].
    destruct (str_eqb (get_type d) (lit "input_json_delta")) eqn:Ed; [|done]. apply str_eqb_eq in Ed.
    injection Hz as Hz. injection Hd as Hd.
    apply collecting_append; [done|done| |]; unfold mbind, option_bind; rewrite Et; [done|].
    rewrite <-Hd. by destruct (delta_partial_json d).
  - destruct (str_eqb (str_or_empty (get v (lit "type"))) (lit "content_block_delta")) eqn:E; [|done].
    apply str_eqb_eq in E. rewrite E in *.
    change (str_eqb (lit "content_block_delta") (lit "message_start")) with false.
    change (str_eqb (lit "content_block_delta") (lit "content_block_start")) with false.
    cbn iota. intros [= <-]. cbn [andb] in Hd.
    destruct (str_eqb (str_or_empty (pointer v [lit "delta"; lit "type"])) (lit "input_json_delta")) eqn:Ed; [|done].
    apply str_eqb_eq in Ed. injection Hd as Hd.
    assert (index_of (get v (lit "index")) = z) as Hz'.
    { revert Hz. cbn [existsb]. rewrite str_eqb_refl, orb_true_r. by intros [= ->]. }
    by apply collecting_append.
Qed.

(** The call with its final arguments. *)
Definition complete_call (z : Z) (c : ToolCall) (s : Consumer) : Prop :=
  ∃ i, find_block_index (blocks s) z = Some i ∧ blocks s !! i = Some (ABToolCall c acc_default z).

Lemma complete_call_same z c s s' : same_at z s s' → complete_call z c s → complete_call z c s'.
Proof. intros [Hf Hl] (i&Hi&Hb). exists i. by rewrite Hf, (Hl i Hi). Qed.

Lemma on_event_stop z id name received s p s' :
  collecting z id name received s → event_index p = Some z → is_stop p → on_event s p = Ok s' →
  complete_call z (mkCall id name (object_or_empty (streaming (Some received))) None) s'.
Proof.
  intros (i&c&acc&Hi&Hb&<-&<-&Hsig&<-&_) Hz [Ht [v ->]]. unfold on_event. cbn [event_index] in Hz. rewrite Ht in *.
  change (str_eqb (lit "content_block_stop") (lit "message_start")) with false.
  change (str_eqb (lit "content_block_stop") (lit "content_block_start")) with false.
  change (str_eqb (lit "content_block_stop") (lit "content_block_delta")) with false.
  rewrite str_eqb_refl. cbn iota. intros [= <-].
  assert (index_of (get v (lit "index")) = z) as Hz'.
  { revert Hz. cbn [existsb]. rewrite str_eqb_refl, !orb_true_r. by intros [= ->]. }
  unfold on_content_block_stop. rewrite Hz', Hi, Hb. cbn zeta. exists i.
  cbn [update_block emit with_blocks blocks]. rewrite (find_insert _ _ _ _ _ Hb) by done. split; [done|].
  rewrite list_lookup_insert_eq by (by eapply lookup_lt_Some). by rewrite <-Hsig.
Qed.

Lemma settle_collecting z id name received s :
  collecting z id name received s → received ≠ [] →
  ToolCallBlock (mkCall id name (object_or_empty (streaming (Some received))) None)
    ∈ map to_content_block (map settle_block (blocks s)).
Proof.
  intros (i&c&acc&Hi&Hb&<-&<-&Hsig&<-&last&Hok&Hlast) Hne.
  apply list_elem_of_lookup. exists i. rewrite map_map.
  change ((λ b, to_content_block (settle_block b)) <$> blocks s) with
    (map (λ b, to_content_block (settle_block b)) (blocks s)).
  change (((λ b, to_content_block (settle_block b)) <$> blocks s) !! i =
    Some (ToolCallBlock (mkCall (tc_id c) (tc_name c) (object_or_empty (streaming (Some (JsonStream.text acc)))) None))).
  rewrite list_lookup_fmap, Hb. cbn [fmap option_fmap option_map settle_block].
  destruct (acc_flush from_str value_to_string acc) as [acc' r] eqn:E.
  pose proof (flush_spec_acc _ _ _ _ _ _ Hok E Hne) as Hf.
  destruct r as [v|]; cbn [to_content_block]; [injection Hf as ->; by rewrite <-Hsig|].
  rewrite <-(Hlast _ Hf), <-Hsig. by destruct c.
Qed.

Lemma settle_complete z c s :
  complete_call z c s → ToolCallBlock c ∈ map to_content_block (map settle_block (blocks s)).
Proof.
  intros (i&Hi&Hb). apply list_elem_of_lookup. exists i. rewrite map_map.
  change (((λ b, to_content_block (settle_block b)) <$> blocks s) !! i = Some (ToolCallBlock c)).
  by rewrite list_lookup_fmap, Hb.
Qed.

(** The events about block [z], in the order received. *)
Definition about (z : Z) (es : list fetched) : list (AnthropicParsed Num) :=
  omap (λ f, match f with
             | Fetched p => if decide (event_index p = Some z) then Some p else None
             | FetchError _ => None
             end) es.

Lemma about_event z p es :
  about z (Fetched p :: es) = if decide (event_index p = Some z) then p :: about z es else about z es.
Proof. unfold about. cbn [omap list_omap]. by destruct (decide _). Qed.

Lemma consume_app s es es' :
  snd (consume s es) = None → consume s (es ++ es') = consume (fst (consume s es)) es'.
Proof.
  revert s. induction es as [|[p|e] es IH]; intros s; cbn [app consume]; [done| |done].
  destruct (on_event s p); [apply IH|done].
Qed.

Lemma consume_other z s es : about z es = [] → same_at z s (fst (consume s es)).
Proof.
  revert s. induction es as [|[p|e] es IH]; intros s; [by intros; apply same_at_refl| |by intros; apply same_at_refl].
  rewrite about_event. destruct (decide (event_index p = Some z)) as [|Hz]; [done|]. intros Ha. cbn [consume].
  destruct (on_event s p) as [s'|e] eqn:E; [|by apply same_at_refl].
  destruct (on_event_other _ _ _ _ Hz E) as [H1 H2], (IH s' Ha) as [H3 H4].
  split; [by rewrite H3|]. intros i Hi. rewrite <-(H2 i Hi). apply H4. by rewrite H1.
Qed.

Lemma consume_collects z id name pieces es : ∀ received s,
  collecting z id name received s → map json_delta (about z es) = map Some pieces → snd (consume s es) = None →
  collecting z id name (received ++ concat pieces) (fst (consume s es)).
Proof.
  revert pieces. induction es as [|[p|e] es IH]; intros pieces received s Hc; [|rewrite about_event|done].
  { destruct pieces; [|done]. intros _ _. cbn [consume fst concat]. by rewrite app_nil_r. }
  cbn [consume]. destruct (on_event s p) as [s'|e] eqn:E; [|done].
  destruct (decide (event_index p = Some z)) as [Hz|Hz].
  - destruct pieces as [|d ds]; [done|]. cbn [map concat]. intros [= Hd Hds]. rewrite app_assoc.
    apply IH; [|done]. by eapply on_event_json.
  - apply IH. eapply collecting_same; [|done]. by eapply on_event_other.
Qed.

Lemma consume_started z id name start deltas pieces es : ∀ s,
  find_block_index (blocks s) z = None → about z es = start :: deltas → tool_start start = Some (id, name) →
  map json_delta deltas = map Some pieces → snd (consume s es) = None →
  collecting z id name (concat pieces) (fst (consume s es)).
Proof.
  induction es as [|[p|e] es IH]; intros s Hf; [done|rewrite about_event|done].
  cbn [consume]. destruct (on_event s p) as [s'|e] eqn:E; [|done].
  destruct (decide (event_index p = Some z)) as [Hz|Hz].
  - intros [= -> <-] Ht Hd Hc. apply (consume_collects z id name pieces es [] s'); [|done|done].
    by eapply on_event_start.
  - intros Ha Ht Hd. apply IH; [|done|done|done]. destruct (on_event_other _ _ _ _ Hz E) as [-> _]. done.
Qed.

Lemma consume_stopped z id name received stop es : ∀ s,
  collecting z id name received s → about z es = [stop] → is_stop stop →
  let s' := fst (consume s es) in
  collecting z id name received s' ∨
  complete_call z (mkCall id name (object_or_empty (streaming (Some received))) None) s'.
Proof.
  induction es as [|[p|e] es IH]; intros s Hc; [done|rewrite about_event|intros; by left].
  cbn [consume]. destruct (on_event s p) as [s'|e] eqn:E; [|intros; by left].
  destruct (decide (event_index p = Some z)) as [Hz|Hz].
  - intros [= -> Ha] Hs. right. eapply complete_call_same; [by apply consume_other|]. by eapply on_event_stop.
  - apply IH. eapply collecting_same; [|done]. by eapply on_event_other.
Qed.

Lemma object_text_nonempty strict ms whole : json_text number_value strict (TObject ms) whole → whole ≠ [].
Proof.
  intros (w1&d&w2&->&_&Hd&_). assert (d ≠ []) by (by inversion Hd). destruct w1; [by destruct d|done].
Qed.

(** C12: The arguments of a tool call are those the model wrote: once the pieces of block [z] make
    the text of an object, the final message has the call with that object as arguments -
    however the text was cut into pieces, whatever other blocks were interleaved with it,
    whether the previews of the arguments were parsed or skipped on the way, and whether the
    stream then closes the block, fails, ends early or is cancelled. *)
Theorem tool_call_arguments_exact m z id name ms whole start deltas pieces seen rest :
  let s := mkConsumer m [] None initial_cost [Start m] in
  snd (consume s seen) = None →
  about z seen = start :: deltas → tool_start start = Some (id, name) →
  map json_delta deltas = map Some pieces → concat pieces = whole →
  json_text number_value true (TObject ms) whole →
  (about z rest = [] ∨ ∃ stop, about z rest = [stop] ∧ is_stop stop) →
  ToolCallBlock (mkCall id name (from_members (map eval_member ms)) None)
    ∈ content (fst (fst (run_stream m (seen ++ rest)))).
Proof.
  intros s Hseen Ha Ht Hd <- Hw Hrest.
  assert (collecting z id name (concat pieces) (fst (consume s seen))) as Hc by (by eapply consume_started).
  assert (object_or_empty (streaming (Some (concat pieces))) = from_members (map eval_member ms)) as Hv
    by (by rewrite (streaming_whole _ _ Hw)).
  rewrite <-Hv. unfold run_stream. fold s. rewrite (consume_app _ _ _ Hseen).
  pose proof (object_text_nonempty _ _ _ Hw) as Hne.
  assert (collecting z id name (concat pieces) (fst (consume (fst (consume s seen)) rest)) ∨
    complete_call z (mkCall id name (object_or_empty (streaming (Some (concat pieces)))) None)
      (fst (consume (fst (consume s seen)) rest))) as Hend.
  { destruct Hrest as [Hr|(stop&Hr&Hs)]; [left; eapply collecting_same; [by apply consume_other|done]|].
    by eapply consume_stopped. }
  destruct (consume (fst (consume s seen)) rest) as [s' failure]. cbn [fst] in Hend.
  assert (ToolCallBlock (mkCall id name (object_or_empty (streaming (Some (concat pieces)))) None)
    ∈ content (partial_from_blocks (output s') (map settle_block (blocks s')))) as H.
  { destruct Hend as [H|H]; [by eapply settle_collecting|by eapply settle_complete]. }
  destruct failure; [done|]. destruct cancelled; [done|]. by destruct (_ || _).
Qed.

End anthropic.

(** ** A stream of two interleaved blocks *)

Definition sample_externals : Externals := {|
  AgentTypes.Value := unit; AgentTypes.Map := unit; AgentTypes.Object v := v; AgentTypes.as_object v := Some v;
  AgentTypes.map_new := tt; AgentTypes.map_singleton _ v := v; AgentTypes.value_eqb _ _ := true;
  AgentTypes.Image := unit; AgentTypes.Usage := N; AgentTypes.usage_zero := 0; AgentTypes.CheckpointBody := unit;
  AgentTypes.CustomBody := unit; AgentTypes.Diagnostic := str;
  AgentTypes.stall_diagnostic _ _ _ _ _ _ := lit "stalled"; AgentTypes.truncated_diagnostic _ _ _ := lit "truncated";
  AgentTypes.capture_diagnostic s := s; AgentTypes.lifecycle_diagnostic s := s |}.

(** Numbers are decimal numerals, counts are not kept. *)
Definition sample_host : AnthropicHost str N str := {|
  F64 := Z; f64_zero := 0%Z;
  as_f64 s := Some (fold_left (λ n d, (10 * n + (Z.of_N d - 48))%Z) s 0%Z);
  parse_f64 _ := None; f64_as_i64 z := z; to_lowercase s := s; typed_from_str _ := None;
  CacheCost := unit; usage_at_start u c _ := (u, c); usage_at_delta u c _ := (u, c);
  StreamFailureError := str; sse_error s := s; ended_early := lit "ended early"; unparseable _ s := s;
  refusal_failure _ _ := lit "refused";
  failure_message e := match e with inl s => s | inr s => s end;
  failure_diagnostic e := match e with inl s => s | inr s => s end |}.

Section sample.
#[local] Existing Instance serde_scalars.
#[local] Existing Instance sample_externals.
#[local] Existing Instance sample_host.

Abbreviation no_eqb := (λ _ _ : JsonText.Value str, false).
Abbreviation sample_run := (run_stream no_eqb false None false None false).

Definition string (s : str) : JsonText.Value str := JsonText.String s.
Definition block_event (kind index : str) (more : list (str * JsonText.Value str)) : fetched :=
  Fetched (PValue (JsonText.Object ((lit "type", string kind) :: (lit "index", JsonText.Number index) :: more))).
Definition start_of (index : str) (block : list (str * JsonText.Value str)) : fetched :=
  block_event (lit "content_block_start") index [(lit "content_block", JsonText.Object block)].
Definition text_of (index s : str) : fetched :=
  block_event (lit "content_block_delta") index
    [(lit "delta", JsonText.Object [(lit "type", string (lit "text_delta")); (lit "text", string s)])].
Definition piece_of (index : Z) (s : str) : fetched :=
  Fetched (Delta (mkTyped (Some index) (Some (mkTypedDelta (Some (lit "input_json_delta")) None None (Some s) None)))).
Definition stop_of (index : str) : fetched := block_event (lit "content_block_stop") index [].

Definition sample_message : @AssistantMessage (json_externals str no_eqb sample_externals) :=
  mkAssistant (X := json_externals str no_eqb sample_externals)
    [] [] [] [] None None None 0 (lit "stop") None None 0%Z.

Definition call_start (index : str) (input : list (str * JsonText.Value str)) : fetched :=
  start_of index [(lit "type", string (lit "tool_use")); (lit "id", string (lit "call_1"));
                  (lit "name", string (lit "read")); (lit "input", JsonText.Object input)].

Definition sample_seen : list fetched :=
  [start_of (lit "0") [(lit "type", string (lit "text"))]; call_start (lit "1") [];
   text_of (lit "0") (lit "Reading"); piece_of 1 (qlit "{'path':'a"); text_of (lit "0") (lit " it");
   piece_of 1 (qlit ".rs','lines':[12,tr"); piece_of 1 (qlit "ue]}")].

Lemma stream_keeps_protocol_witness :
  stream_follows_protocol
    (stream_anthropic no_eqb false None false None false false sample_message (Ok (sample_seen ++ [stop_of (lit "1")]))) ∧
  length (stream_anthropic no_eqb false None false None false false sample_message (Ok (sample_seen ++ [stop_of (lit "1")]))) = 10%nat.
Proof.
  split; [|reflexivity]. by apply (stream_keeps_protocol no_eqb false None false None false false sample_message).
Defined.

Lemma tool_call_arguments_exact_witness :
  let call := mkCall (X := json_externals str no_eqb sample_externals) (lit "call_1") (lit "read")
    [(lit "path", string (lit "a.rs")); (lit "lines", JsonText.Array [JsonText.Number (lit "12"); JsonText.Bool true])] None in
  ToolCallBlock call ∈ content (sample_run sample_message (sample_seen ++ [stop_of (lit "1")])).1.1 ∧
  ToolCallBlock call ∈ content (sample_run sample_message (sample_seen ++ [FetchError (inr (lit "reset"))])).1.1.
Proof.
  intros call.
  pose proof (λ rest, tool_call_arguments_exact no_eqb false None false None false sample_message 1%Z (lit "call_1")
    (lit "read") sample_members sample_text _ _
    [qlit "{'path':'a"; qlit ".rs','lines':[12,tr"; qlit "ue]}"] sample_seen rest
    eq_refl eq_refl eq_refl eq_refl eq_refl sample_json) as H.
  split; apply H; [right|by left]. eexists. split; [reflexivity|]. split; [reflexivity|by eexists].
Defined.

(** A call whose arguments come with the start of its block loses them when the block is
    closed, unless pieces follow. *)
Lemma stop_drops_initial_input :
  content (sample_run sample_message
    [call_start (lit "0") [(lit "path", string (lit "a.rs"))]; stop_of (lit "0")]).1.1 =
  [ToolCallBlock (mkCall (X := json_externals str no_eqb sample_externals) (lit "call_1") (lit "read") [] None)] ∧
  content (sample_run sample_message [call_start (lit "0") [(lit "path", string (lit "a.rs"))]]).1.1 =
  [ToolCallBlock (mkCall (X := json_externals str no_eqb sample_externals) (lit "call_1") (lit "read")
    [(lit "path", string (lit "a.rs"))] None)].
Proof. by split. Qed.

(** The index of a block that was closed still finds it: pieces of a second block under the
    same index go to the first. *)
Lemma closed_index_still_finds :
  content (sample_run sample_message
    [start_of (lit "0") [(lit "type", string (lit "text"))]; text_of (lit "0") (lit "a"); stop_of (lit "0");
     start_of (lit "0") [(lit "type", string (lit "text"))]; text_of (lit "0") (lit "b")]).1.1 =
  [Text (text_new (lit "ab")); Text (text_new [])].
Proof. reflexivity. Qed.

End sample.
