(* ===== verification/CompactStream.v ===== *)
(** * The compact assistant stream of the daemon

    [pi-coding-agent/src/modes/daemon/compact_session_stream.rs]: a worker sends the events
    of an assistant message to its supervisor without the partial message each carries
    ([create_compact_assistant_delta]), and the supervisor rebuilds the message from them
    ([CompactAssistantStreamReconstructor]) for its clients.  The two ends are
    [DaemonMode::write] of [daemon_mode.rs] and [forward_frame] of [native_supervisor.rs].

    The (de)serialisation of messages, events and deltas is derived by serde: a parameter,
    with what its attributes promise as laws.  Theorem: clients are shown, update by update,
    the message of any stream that keeps the protocol of [AssistantProtocol] - in
    particular of [stream_anthropic]. *)
From stdpp Require Import base list numbers gmap strings.
From S2P Require Import Prelude RustStr AgentTypes StreamResponse AssistantProtocol JsonText JsonRepair PartialJson JsonPreview JsonStream JsonCodec SseReader AnthropicStream.

Local Open Scope N_scope.

Section types.
Context {X : Externals}.

(** The streaming event with its partial message omitted. *)
Inductive CompactAssistantMessageEvent : Type :=
| CStart
| CTextStart (content_index : N)
| CTextDelta (content_index : N) (delta : str)
| CTextEnd (content_index : N) (content : str)
| CThinkingStart (content_index : N)
| CThinkingDelta (content_index : N) (delta : str)
| CThinkingEnd (content_index : N) (content : str)
| CToolCallStart (content_index : N)
| CToolCallDelta (content_index : N) (delta : str)
| CToolCallEnd (content_index : N) (tool_call : ToolCall)
| CDone (reason : str) (message : AssistantMessage)
| CError (reason : str) (error : AssistantMessage).

Record CompactAssistantDelta (Meta : Type) : Type := mkDelta {
  delta_type : str;
  active_session_id : str;
  assistant_message_event : CompactAssistantMessageEvent;
  content_start : option ContentBlock;
  tool_call_arguments : option Map;
  meta : option Meta }.

(** What is left of the event of an open message. *)
Definition compact_of (e : AssistantMessageEvent) : option CompactAssistantMessageEvent :=
  match e with
  | TextStart i _ => Some (CTextStart i)
  | TextDelta i d _ => Some (CTextDelta i d)
  | TextEnd i s _ => Some (CTextEnd i s)
  | ThinkingStart i _ => Some (CThinkingStart i)
  | ThinkingDelta i d _ => Some (CThinkingDelta i d)
  | ThinkingEnd i s _ => Some (CThinkingEnd i s)
  | ToolCallStart i _ => Some (CToolCallStart i)
  | ToolCallDelta i d _ => Some (CToolCallDelta i d)
  | ToolCallEnd i c _ => Some (CToolCallEnd i c)
  | Start _ | Keepalive _ | Done _ _ | ErrorEvent _ _ => None
  end.
End types.
Arguments mkDelta {X Meta}.
Arguments delta_type {X Meta} c.
Arguments active_session_id {X Meta} c.
Arguments assistant_message_event {X Meta} c.
Arguments content_start {X Meta} c.
Arguments tool_call_arguments {X Meta} c.
Arguments meta {X Meta} c.

(** What serde derives: fields by name, [type] as the tag of an event, unknown fields
    ignored, [None] left out.  A message comes back when its counts are finite (JSON has no
    other numbers). *)
Class DaemonSerde (Num : Type) (X : Externals) : Type := {
  DaemonEventMeta : Type;
  finite_usage : Usage → Prop;
  message_from_value : JsonText.Value Num → result AssistantMessage str;
  message_to_value : AssistantMessage → result (JsonText.Value Num) str;
  event_from_value : JsonText.Value Num → result CompactAssistantMessageEvent str;
  event_to_value : CompactAssistantMessageEvent → result (JsonText.Value Num) str;
  full_event_to_value : AssistantMessageEvent → JsonText.Value Num;
  meta_from_value : JsonText.Value Num → option DaemonEventMeta;
  meta_to_value : DaemonEventMeta → result (JsonText.Value Num) str;
  delta_from_value : JsonText.Value Num → result (CompactAssistantDelta DaemonEventMeta) str;
  delta_to_value : CompactAssistantDelta DaemonEventMeta → JsonText.Value Num;
  message_roundtrip m : finite_usage (usage m) →
    ∃ v, message_to_value m = Ok v ∧ message_from_value v = Ok m ∧
      get v (lit "role") = Some (JsonText.String (lit "assistant"));
  event_ignores_partial e c : compact_of e = Some c →
    event_from_value (full_event_to_value e) = Ok c ∧ ∃ v, event_to_value c = Ok v;
  meta_encodes x : ∃ v, meta_to_value x = Ok v;
  delta_roundtrips d e : compact_of e = Some (assistant_message_event d) →
    delta_from_value (delta_to_value d) = Ok d;
  delta_keeps_session d d' :
    delta_from_value (delta_to_value d) = Ok d' → active_session_id d' = active_session_id d }.

Section compact.
Context {Num : Type} {J : SerdeJson Num} (eqb : JsonText.Value Num → JsonText.Value Num → bool) {X0 : Externals}.
Let X : Externals := json_externals Num eqb X0.
#[local] Existing Instance X.
Context {D : DaemonSerde Num X}.

Abbreviation Value := (JsonText.Value Num).
Abbreviation Map := (list (str * Value)).
Abbreviation Delta := (CompactAssistantDelta DaemonEventMeta).
Abbreviation streaming := (parse_streaming_json from_str value_to_string).

(** ** The worker's side *)

Definition compact_tool_call_arguments (message : AssistantMessage) (event : CompactAssistantMessageEvent)
    : option Map :=
  match event with
  | CToolCallDelta content_index _ =>
      match content message !! N.to_nat content_index with
      | Some (ToolCallBlock tool_call) => Some (arguments tool_call)
      | _ => None
      end
  | _ => None
  end.

Definition compact_content_start (message : AssistantMessage) (event : CompactAssistantMessageEvent)
    : option ContentBlock :=
  match event with
  | CTextStart i =>
      match content message !! N.to_nat i with
      | Some (Text text) => Some (Text (with_text text []))
      | _ => None
      end
  | CThinkingStart i =>
      match content message !! N.to_nat i with
      | Some (Thinking thinking) => Some (Thinking (with_thinking thinking []))
      | _ => None
      end
  | CToolCallStart i =>
      match content message !! N.to_nat i with
      | Some (ToolCallBlock tool_call) => Some (ToolCallBlock (with_arguments tool_call []))
      | _ => None
      end
  | _ => None
  end.

Definition is_str (v : option Value) (s : str) : bool :=
  match as_str v with Some t => str_eqb t s | None => false end.
Definition as_object (v : Value) : option Map := match v with JsonText.Object m => Some m | _ => None end.

Definition create_compact_assistant_delta (outbound : Value) : result (option Delta) str :=
  match as_object outbound with
  | None => Ok None
  | Some _ =>
      if negb (is_str (get outbound (lit "type")) (lit "session_event")) then Ok None
      else match get outbound (lit "event") ≫= as_object with
      | None => Ok None
      | Some fields =>
          let event := JsonText.Object fields in
          if negb (is_str (get event (lit "type")) (lit "message_update")) then Ok None
          else match get event (lit "message") with
          | None => Ok None
          | Some message =>
              if negb (is_str (get message (lit "role")) (lit "assistant")) then Ok None
              else
                let* assistant_message := message_from_value message in
                let* event_value := ok_or (get event (lit "assistantMessageEvent"))
                                      (lit "message_update without assistantMessageEvent") in
                let* compact_event := event_from_value event_value in
                Ok (Some (mkDelta (lit "assistant_stream_delta") (str_or_empty (get outbound (lit "activeSessionId")))
                            compact_event (compact_content_start assistant_message compact_event)
                            (compact_tool_call_arguments assistant_message compact_event)
                            (get outbound (lit "meta") ≫= meta_from_value)))
          end
      end
  end.

(** The frame of [write]: its encoding and its payload. *)
Definition write (compact_allowed : bool) (value : Value) : str * Value :=
  if compact_allowed then
    match create_compact_assistant_delta value with
    | Ok (Some delta) => (lit "assistant-delta", delta_to_value delta)
    | _ => (lit "jsonl", value)
    end
  else (lit "jsonl", value).

(** ** The supervisor's side *)

Record CompactAssistantStreamReconstructor : Type := mkReconstructor {
  partial_messages : gmap str AssistantMessage;
  tool_call_json : gmap str str }.

Definition reconstructor_new : CompactAssistantStreamReconstructor := mkReconstructor ∅ ∅.

Definition tool_call_key (active_session_id : str) (content_index : N) : str :=
  active_session_id ++ lit ":" ++ dec content_index.

Definition seed (r : CompactAssistantStreamReconstructor) (active_session_id : str) (message : AssistantMessage)
    : CompactAssistantStreamReconstructor :=
  mkReconstructor (<[active_session_id := message]> (partial_messages r)) (tool_call_json r).

Definition clear (r : CompactAssistantStreamReconstructor) (active_session_id : str)
    : CompactAssistantStreamReconstructor :=
  let prefix := active_session_id ++ lit ":" in
  mkReconstructor (delete active_session_id (partial_messages r))
    (filter (λ kv, starts_with kv.1 prefix = false) (tool_call_json r)).

Definition observe (r : CompactAssistantStreamReconstructor) (outbound : Value)
    : CompactAssistantStreamReconstructor :=
  match as_object outbound with
  | None => r
  | Some _ =>
      let message_type := str_or_empty (get outbound (lit "type")) in
      let active_session_id := str_or_empty (get outbound (lit "activeSessionId")) in
      if negb (str_eqb message_type (lit "session_event")) then
        if existsb (str_eqb message_type) [lit "session_replaced"; lit "session_resynced"; lit "session_closed"]
        then clear r active_session_id else r
      else match get outbound (lit "event") ≫= as_object with
      | None => r
      | Some fields =>
          let event := JsonText.Object fields in
          match as_str (get event (lit "type")) with
          | None => r
          | Some kind =>
              if str_eqb kind (lit "message_start") then
                match get event (lit "message") with
                | None => r
                | Some message =>
                    if is_str (get message (lit "role")) (lit "assistant") then
                      match message_from_value message with
                      | Ok message => seed r active_session_id message
                      | Err _ => r
                      end
                    else r
                end
              else if str_eqb kind (lit "message_end") then clear r active_session_id
              else r
          end
      end
  end.

(** [set_content]: the contents are filled up to the index. *)
Definition set_block (message : AssistantMessage) (index : N) (block : ContentBlock) : AssistantMessage :=
  let index := N.to_nat index in
  let c := content message ++ replicate (S index - length (content message)) (Text (text_new [])) in
  set_content eqb message (<[index := block]> c).

(** [partial.content.get_mut(index)] and an assignment through it. *)
Definition change_block (message : AssistantMessage) (index : N) (f : ContentBlock → option ContentBlock)
    : option AssistantMessage :=
  b ← content message !! N.to_nat index; b' ← f b;
  Some (set_content eqb message (<[N.to_nat index := b']> (content message))).

(** The partial message and the texts of arguments after the event. *)
Definition apply_delta (id : str) (delta : Delta) (partial : AssistantMessage) (jsons : gmap str str)
    : option AssistantMessage * gmap str str :=
  match assistant_message_event delta with
  | CTextStart i => (Some (set_block partial i (default (Text (text_new [])) (content_start delta))), jsons)
  | CTextDelta i d =>
      (change_block partial i (λ b, match b with Text t => Some (Text (with_text t (AgentTypes.text t ++ d))) | _ => None end), jsons)
  | CTextEnd i s =>
      (change_block partial i (λ b, match b with Text t => Some (Text (with_text t s)) | _ => None end), jsons)
  | CThinkingStart i =>
      (Some (set_block partial i (default (Thinking (mkThinking [] None None)) (content_start delta))), jsons)
  | CThinkingDelta i d =>
      (change_block partial i (λ b, match b with
         | Thinking t => Some (Thinking (with_thinking t (thinking t ++ d))) | _ => None end), jsons)
  | CThinkingEnd i s =>
      (change_block partial i (λ b, match b with Thinking t => Some (Thinking (with_thinking t s)) | _ => None end), jsons)
  | CToolCallStart i =>
      match content_start delta with
      | Some (ToolCallBlock tool_call) =>
          (Some (set_block partial i (ToolCallBlock tool_call)), <[tool_call_key id i := []]> jsons)
      | _ => (None, jsons)
      end
  | CToolCallDelta i d =>
      let key := tool_call_key id i in
      let '(arguments, jsons) :=
        match tool_call_arguments delta with
        | Some arguments => (arguments, jsons)
        | None =>
            let partial_json := default [] (jsons !! key) ++ d in
            (object_or_empty (streaming (Some partial_json)), <[key := partial_json]> jsons)
        end in
      (change_block partial i (λ b, match b with
         | ToolCallBlock c => Some (ToolCallBlock (with_arguments c arguments)) | _ => None end), jsons)
  | CToolCallEnd i tool_call =>
      (Some (set_block partial i (ToolCallBlock tool_call)), delete (tool_call_key id i) jsons)
  | CStart | CDone _ _ | CError _ _ => (None, jsons)
  end.

Definition ok {A} (r : result A str) : option A := match r with Ok a => Some a | Err _ => None end.

(** The [session_event] of an update. *)
Definition update_value (id : str) (message event : Value) (meta : option Value) : Value :=
  JsonText.Object ([(lit "type", JsonText.String (lit "session_event")); (lit "activeSessionId", JsonText.String id);
    (lit "event", JsonText.Object [(lit "type", JsonText.String (lit "message_update")); (lit "message", message);
                                   (lit "assistantMessageEvent", event)])] ++
    match meta with Some m => [(lit "meta", m)] | None => [] end).

Definition reconstruct (r : CompactAssistantStreamReconstructor) (delta : Delta)
    : CompactAssistantStreamReconstructor * option Value :=
  let id := active_session_id delta in
  match partial_messages r !! id with
  | None => (r, None)
  | Some partial =>
      match apply_delta id delta partial (tool_call_json r) with
      | (None, jsons) => (mkReconstructor (partial_messages r) jsons, None)
      | (Some message, jsons) =>
          (mkReconstructor (<[id := message]> (partial_messages r)) jsons,
           event ← ok (event_to_value (assistant_message_event delta));
           m ← ok (message_to_value message);
           match meta delta with
           | None => Some (update_value id m event None)
           | Some x => v ← ok (meta_to_value x); Some (update_value id m event (Some v))
           end)
      end
  end.

(** [forward_frame] up to what is written to the clients. *)
Definition forward_frame (r : CompactAssistantStreamReconstructor) (kind : str) (frame : str * Value)
    : CompactAssistantStreamReconstructor * option Value :=
  let '(encoding, payload) := frame in
  if existsb (str_eqb kind) [lit "daemon_hello"; lit "response"] then (r, None)
  else if str_eqb encoding (lit "assistant-delta") then
    match delta_from_value payload with
    | Ok delta => reconstruct r delta
    | Err _ => (r, None)
    end
  else (observe r payload, Some payload).

(** ** What clients are shown *)

(** A block of the message ([b], without signature) and the block the supervisor keeps:
    redacted thinking and arguments that came with the start of a block may be missing. *)
Definition mirror (b b' : ContentBlock) : Prop :=
  match b, b' with
  | Text t, Text t' => t' = t
  | Thinking t, Thinking t' => redacted t' = redacted t ∧ (thinking t' = thinking t ∨ redacted t = Some true)
  | ToolCallBlock c, ToolCallBlock c' => c' = c ∨ c' = with_arguments c []
  | _, _ => False
  end.

(** The block an event leaves as it is in the message. *)
Definition settles (e : AssistantMessageEvent) : option N :=
  match e with
  | TextStart i _ | TextDelta i _ _ | TextEnd i _ _ | ThinkingEnd i _ _ | ToolCallDelta i _ _ | ToolCallEnd i _ _ => Some i
  | _ => None
  end.

(** [m'] shows [p] after event [e]. *)
Definition shows_message (e : AssistantMessageEvent) (p m' : AssistantMessage) : Prop :=
  Forall2 mirror (shown p) (content m') ∧
  ∀ i, settles e = Some i → shown p !! N.to_nat i = map unsigned (content m') !! N.to_nat i.

Lemma mirror_unsigned b b' : unsigned b' = b → mirror b b'.
Proof. intros <-. destruct b'; cbn; auto. Qed.

Lemma lookup_shown p i b : shown p !! i = Some b → ∃ b', content p !! i = Some b' ∧ unsigned b' = b.
Proof.
  change (shown p) with (unsigned <$> content p). rewrite list_lookup_fmap.
  destruct (content p !! i) as [b'|]; [|done]. intros [= <-]. by exists b'.
Qed.

(** A block at the end. *)
Lemma set_block_end m i b :
  length (content m) = i → content (set_block m (N.of_nat i) b) = content m ++ [b].
Proof.
  intros <-. unfold set_block. cbn [set_content content]. rewrite Nat2N.id, Nat.sub_succ_l, Nat.sub_diag by lia.
  cbn [replicate]. by rewrite insert_app_r_alt, Nat.sub_diag by lia.
Qed.

Lemma change_block_eq m i b b' f :
  content m !! i = Some b → f b = Some b' →
  change_block m (N.of_nat i) f = Some (set_content eqb m (<[i := b']> (content m))).
Proof. intros Hb Hf. unfold change_block. rewrite Nat2N.id, Hb. cbn [mbind option_bind]. by rewrite Hf. Qed.

(** An opened block and a changed block. *)
Lemma opened_shows e p m m' u b b' :
  Forall2 mirror u (content m) → shown p = u ++ [b] → content m' = content m ++ [b'] → mirror b b' →
  (∀ j, settles e = Some j → j = len u ∧ unsigned b' = b) → shows_message e p m'.
Proof.
  intros Hu Hp Hm Hb He. split; rewrite Hp, Hm; [by apply Forall2_app; [|repeat constructor]|].
  intros j [-> Hj]%He. unfold len. rewrite Nat2N.id, map_app, <-Hj.
  pose proof (Forall2_length _ _ _ Hu) as Hlen.
  rewrite list_lookup_middle by done. symmetry. apply list_lookup_middle. by rewrite length_map, Hlen.
Qed.

Lemma changed_shows e p m m' u i b b' :
  Forall2 mirror u (content m) → (i < length u)%nat → shown p = <[i := b]> u →
  content m' = <[i := b']> (content m) → mirror b b' →
  (∀ j, settles e = Some j → j = N.of_nat i ∧ unsigned b' = b) → shows_message e p m'.
Proof.
  intros Hu Hi Hp Hm Hb He. split; rewrite Hp, Hm; [by apply Forall2_insert|].
  intros j [-> Hj]%He. rewrite Nat2N.id, list_lookup_insert_eq by done.
  change (map unsigned (<[i:=b']> (content m))) with (unsigned <$> <[i:=b']> (content m)).
  rewrite list_lookup_fmap, list_lookup_insert_eq by (by rewrite <-(Forall2_length _ _ _ Hu)). cbn. by rewrite Hj.
Qed.

Lemma mirrored_lookup u c i b : Forall2 mirror u c → u !! i = Some b → ∃ b', c !! i = Some b' ∧ mirror b b'.
Proof. intros Hu Hb. by eapply Forall2_lookup_l in Hu as (b'&?&?); eauto. Qed.

(** An update keeps what is shown, whatever the texts of arguments. *)
Definition applies (id : str) (d : Delta) (m : AssistantMessage) (e : AssistantMessageEvent) (p : AssistantMessage) : Prop :=
  ∀ jsons, ∃ m' jsons', apply_delta id d m jsons = (Some m', jsons') ∧ shows_message e p m' ∧
    m' = set_content eqb m (content m').

Definition delta_of (id : str) (c : CompactAssistantMessageEvent) (p : AssistantMessage)
    (mt : option DaemonEventMeta) : Delta :=
  mkDelta (lit "assistant_stream_delta") id c (compact_content_start p c) (compact_tool_call_arguments p c) mt.

Lemma applies_open id mt m e p u b b' c :
  Forall2 mirror u (content m) → shown p = u ++ [b] → mirror b b' →
  (∀ j, settles e = Some j → j = len u ∧ unsigned b' = b) →
  (∀ jsons, (apply_delta id (delta_of id c p mt) m jsons).1 = Some (set_block m (len u) b')) →
  applies id (delta_of id c p mt) m e p.
Proof.
  intros Hu Hp Hb He Ha jsons. destruct (apply_delta _ _ _ _) as [o jsons'] eqn:E.
  specialize (Ha jsons). rewrite E in Ha. cbn in Ha. subst o.
  eexists _, jsons'. split; [done|]. pose proof (Forall2_length _ _ _ Hu) as Hlen. split; [|done].
  eapply opened_shows; [done|done| |done|done]. by apply set_block_end.
Qed.

Lemma applies_change id mt m e p u i b b' c :
  Forall2 mirror u (content m) → (i < length u)%nat → shown p = <[i := b]> u → mirror b b' →
  (∀ j, settles e = Some j → j = N.of_nat i ∧ unsigned b' = b) →
  (∀ jsons, (apply_delta id (delta_of id c p mt) m jsons).1 = Some (set_content eqb m (<[i := b']> (content m)))) →
  applies id (delta_of id c p mt) m e p.
Proof.
  intros Hu Hi Hp Hb He Ha jsons. destruct (apply_delta _ _ _ _) as [o jsons'] eqn:E.
  specialize (Ha jsons). rewrite E in Ha. cbn in Ha. subst o.
  eexists _, jsons'. split; [done|]. split; [|done]. by eapply changed_shows.
Qed.

Lemma opens_applies id mt m e p u c :
  Forall2 mirror u (content m) → protocol_step u e p → compact_of e = Some c →
  match e with TextStart _ _ | ThinkingStart _ _ | ToolCallStart _ _ => True | _ => False end →
  applies id (delta_of id c p mt) m e p.
Proof.
  intros Hu Hs. assert (∀ b, shown p = u ++ [b] → ∃ b', content p !! N.to_nat (len u) = Some b' ∧ unsigned b' = b) as Hl.
  { intros b Hp. apply lookup_shown. unfold len. rewrite Hp, Nat2N.id. by apply list_lookup_middle. }
  destruct Hs as [t p Ht Hp| | |t p Ht Hp| | |tc p Hp| | |]; try done; intros [= <-] _;
    destruct (Hl _ Hp) as (b&Hb&Hub); destruct b as [t'|t'|c']; try done.
  - injection Hub as ->. apply (applies_open _ _ _ _ _ u (Text t) (Text t)); [done|done|done|by intros j [= <-]|].
    intros jsons. unfold delta_of, compact_content_start. rewrite Hb. cbn. unfold with_text. by destruct t; cbn in Ht; subst.
  - injection Hub as <-. eapply (applies_open _ _ _ _ _ u _ (Thinking (with_thinking t' []))); [done|exact Hp| |done|].
    + split; [done|]. cbn in Ht |- *. destruct Ht as [->|Ht]; auto.
    + intros jsons. unfold delta_of, compact_content_start. by rewrite Hb.
  - injection Hub as ->. eapply (applies_open _ _ _ _ _ u _ (ToolCallBlock (with_arguments tc []))); [done|exact Hp| |done|].
    + by right.
    + intros jsons. unfold delta_of, compact_content_start. by rewrite Hb.
Qed.

Lemma text_applies id mt m e p u c :
  Forall2 mirror u (content m) → protocol_step u e p → compact_of e = Some c →
  match e with TextDelta _ _ _ | TextEnd _ _ _ => True | _ => False end →
  applies id (delta_of id c p mt) m e p.
Proof.
  intros Hu Hs. destruct Hs as [|i t d p Hl Hp|i t p Hl Hp| | | | | | |]; try done; intros [= <-] _;
    destruct (mirrored_lookup _ _ _ _ Hu Hl) as ([t'|t'|c']&Hx&Hm); try done; cbn in Hm; subst t'.
  - eapply (applies_change _ _ _ _ _ u i); [done|by eapply lookup_lt_Some|exact Hp|by eapply (mirror_unsigned _ (Text _))|
      by intros j [= <-]|]. intros jsons. by apply (change_block_eq _ _ _ _ _ Hx).
  - eapply (applies_change _ _ _ _ _ u i (Text t) (Text t)); [done|by eapply lookup_lt_Some| |done|by intros j [= <-]|].
    + by rewrite list_insert_id.
    + intros jsons. apply (change_block_eq _ _ _ _ _ Hx). by destruct t.
Qed.

Lemma thinking_applies id mt m e p u c :
  Forall2 mirror u (content m) → protocol_step u e p → compact_of e = Some c →
  match e with ThinkingDelta _ _ _ | ThinkingEnd _ _ _ => True | _ => False end →
  applies id (delta_of id c p mt) m e p.
Proof.
  intros Hu Hs. destruct Hs as [| | | |i t d p Hl Hp|i t p Hl Hp| | | |]; try done; intros [= <-] _;
    destruct (mirrored_lookup _ _ _ _ Hu Hl) as ([t'|t'|c']&Hx&Hm); try done; destruct Hm as [Hr Ht].
  - eapply (applies_change _ _ _ _ _ u i _ (Thinking (with_thinking t' (thinking t' ++ d))));
      [done|by eapply lookup_lt_Some|exact Hp| |done|].
    + split; [done|]. cbn. destruct Ht as [->|Ht]; auto.
    + intros jsons. by apply (change_block_eq _ _ _ _ _ Hx).
  - assert (unsigned (Thinking (with_thinking t' (thinking t))) = Thinking t) as He.
    { assert (shown p !! i = Some (Thinking t)) as (b&_&Hb)%lookup_shown by (by rewrite Hp).
      destruct b as [|t0|]; try done. injection Hb as <-. cbn in Hr |- *. by rewrite Hr. }
    eapply (applies_change _ _ _ _ _ u i (Thinking t) (Thinking (with_thinking t' (thinking t))));
      [done|by eapply lookup_lt_Some|by rewrite list_insert_id|by apply mirror_unsigned|by intros j [= <-]|].
    intros jsons. by apply (change_block_eq _ _ _ _ _ Hx).
Qed.

Lemma call_applies id mt m e p u c :
  Forall2 mirror u (content m) → protocol_step u e p → compact_of e = Some c →
  match e with ToolCallDelta _ _ _ | ToolCallEnd _ _ _ => True | _ => False end →
  applies id (delta_of id c p mt) m e p.
Proof.
  intros Hu Hs. destruct Hs as [| | | | | | |i tc a d p Hl Hp|i tc a p Hl Hp|]; try done; intros [= <-] _;
    destruct (mirrored_lookup _ _ _ _ Hu Hl) as ([t'|t'|c']&Hx&Hm); try done;
    (assert (with_arguments c' a = with_arguments tc a) as Hc by (by destruct Hm as [->| ->]));
    pose proof (lookup_lt_Some _ _ _ Hl) as Hi.
  - assert (shown p !! i = Some (ToolCallBlock (with_arguments tc a))) as (b&Hb&Hub)%lookup_shown
      by (rewrite Hp; by apply list_lookup_insert_eq).
    destruct b as [| |cb]; try done. injection Hub as ->.
    eapply (applies_change _ _ _ _ _ u i _ (ToolCallBlock (with_arguments tc a))); [done|done|exact Hp|by left|
      by intros j [= <-]|].
    intros jsons. unfold delta_of, apply_delta, compact_tool_call_arguments.
    cbn [assistant_message_event tool_call_arguments]. rewrite Nat2N.id, Hb. cbn [fst arguments with_arguments].
    apply (change_block_eq _ _ _ _ _ Hx). by rewrite Hc.
  - eapply (applies_change _ _ _ _ _ u i _ (ToolCallBlock (with_arguments tc a))); [done|done|exact Hp|by left|
      by intros j [= <-]|].
    intros jsons. unfold delta_of, apply_delta. cbn [assistant_message_event fst]. f_equal. unfold set_block.
    f_equal. rewrite Nat2N.id, (Forall2_length _ _ _ Hu) in *.
    by replace (S i - length (content m))%nat with O by lia; rewrite app_nil_r.
Qed.

Lemma update_applies id mt m e p u c :
  Forall2 mirror u (content m) → protocol_step u e p → compact_of e = Some c → applies id (delta_of id c p mt) m e p.
Proof.
  intros Hu Hs Hc. destruct e; try done;
    (by eapply opens_applies) || (by eapply text_applies) || (by eapply thinking_applies) || (by eapply call_applies).
Qed.

(** ** From the worker to the clients *)

(** The [session_event] of a new message. *)
Definition start_value (id : str) (message : Value) : Value :=
  JsonText.Object [(lit "type", JsonText.String (lit "session_event")); (lit "activeSessionId", JsonText.String id);
    (lit "event", JsonText.Object [(lit "type", JsonText.String (lit "message_start")); (lit "message", message)])].

Definition active_of (v : Value) : str := str_or_empty (get v (lit "activeSessionId")).

(** One message of the worker, of a given type, through its frame. *)
Definition deliver (r : CompactAssistantStreamReconstructor) (kv : str * Value)
    : CompactAssistantStreamReconstructor * option Value :=
  forward_frame r kv.1 (write true kv.2).

(** The messages of a worker, each with what the clients of its session are sent. *)
Fixpoint deliver_all (r : CompactAssistantStreamReconstructor) (vs : list (str * Value))
    : list (Value * option Value) :=
  match vs with
  | [] => []
  | kv :: vs => let '(r, out) := deliver r kv in (kv.2, out) :: deliver_all r vs
  end.

(** [vs] has the updates [es] of session [id], between messages of other sessions. *)
Inductive carries (id : str) : list (str * Value) → list AssistantMessageEvent → Prop :=
| carries_nil : carries id [] []
| carries_other kind v vs es : active_of v ≠ id → carries id vs es → carries id ((kind, v) :: vs) es
| carries_update e p m mt vs es :
    update_partial e = Some p → message_to_value p = Ok m → carries id vs es →
    carries id ((lit "session_event", update_value id m (full_event_to_value e) mt) :: vs) (e :: es).

(** The message of a value sent to clients. *)
Definition message_of (v : Value) : result AssistantMessage str :=
  match pointer v [lit "event"; lit "message"] with
  | Some m => message_from_value m
  | None => Err (lit "no message")
  end.

Lemma clear_other id r id' : id' ≠ id → partial_messages (clear r id') !! id = partial_messages r !! id.
Proof. intros. cbn. by apply lookup_delete_ne. Qed.

Lemma observe_other id r v : active_of v ≠ id → partial_messages (observe r v) !! id = partial_messages r !! id.
Proof.
  intros Hne. unfold observe. cbn zeta. fold (active_of v).
  repeat (case_match; try done; try (by apply clear_other)). by apply lookup_insert_ne.
Qed.

Lemma reconstruct_other id r d :
  active_session_id d ≠ id → partial_messages (reconstruct r d).1 !! id = partial_messages r !! id.
Proof.
  intros Hne. unfold reconstruct. destruct (partial_messages r !! active_session_id d) as [m|]; [|done].
  destruct (apply_delta _ _ _ _) as [[m'|] jsons]; [|done]. by apply lookup_insert_ne.
Qed.

Lemma create_session v d : create_compact_assistant_delta v = Ok (Some d) → active_session_id d = active_of v.
Proof. unfold create_compact_assistant_delta. repeat case_match; try done; by intros [= <-]. Qed.

(** Messages of other sessions leave a session's message alone. *)
Lemma deliver_other id r kind v :
  active_of v ≠ id → partial_messages (deliver r (kind, v)).1 !! id = partial_messages r !! id.
Proof.
  intros Hne. unfold deliver, forward_frame, write. cbn [fst snd].
  destruct (create_compact_assistant_delta v) as [[d|]|e] eqn:E;
    (destruct (existsb _ [lit "daemon_hello"; lit "response"]); [done|]); [|by apply observe_other|by apply observe_other].
  rewrite str_eqb_refl. destruct (delta_from_value (delta_to_value d)) as [d'|] eqn:Ed; [|done].
  apply reconstruct_other. apply create_session in E. apply delta_keeps_session in Ed. congruence.
Qed.

Lemma compact_of_update e p : update_partial e = Some p → ∃ c, compact_of e = Some c.
Proof. destruct e; try done; intros _; by eexists. Qed.

Lemma update_fields id m e mt :
  let v := update_value id m e mt in
  get v (lit "type") = Some (JsonText.String (lit "session_event")) ∧
  get v (lit "activeSessionId") = Some (JsonText.String id) ∧
  get v (lit "event") = Some (JsonText.Object [(lit "type", JsonText.String (lit "message_update")); (lit "message", m);
                                               (lit "assistantMessageEvent", e)]) ∧
  get v (lit "meta") = mt.
Proof. split; [done|]. split; [done|]. split; [done|]. by destruct mt. Qed.

(** An update is sent without its partial message. *)
Lemma create_update id e c p m mt :
  compact_of e = Some c → message_from_value m = Ok p →
  get m (lit "role") = Some (JsonText.String (lit "assistant")) →
  create_compact_assistant_delta (update_value id m (full_event_to_value e) mt) =
    Ok (Some (delta_of id c p (mt ≫= meta_from_value))).
Proof.
  intros Hc Hm Hr. unfold create_compact_assistant_delta.
  destruct (update_fields id m (full_event_to_value e) mt) as (H1&H2&H3&H4). rewrite H1, H2, H3, H4.
  cbn [as_object update_value mbind option_bind is_str as_str]. rewrite str_eqb_refl. cbn [negb].
  change (get (JsonText.Object _) (lit "type")) with (Some (@JsonText.String Num (lit "message_update"))).
  cbn [is_str as_str]. rewrite str_eqb_refl. cbn [negb].
  change (get (JsonText.Object _) (lit "message")) with (Some m). cbn iota. rewrite Hr. cbn [is_str as_str].
  rewrite str_eqb_refl. cbn [negb]. rewrite Hm.
  change (get (JsonText.Object _) (lit "assistantMessageEvent")) with (Some (full_event_to_value e)).
  cbn [ok_or]. destruct (event_ignores_partial e c Hc) as [-> _]. done.
Qed.

(** What clients are sent for an update. *)
Lemma deliver_update id r e p u m0 m mt :
  partial_messages r !! id = Some m0 → Forall2 mirror u (content m0) → finite_usage (usage m0) →
  protocol_step u e p → update_partial e = Some p → finite_usage (usage p) → message_to_value p = Ok m →
  ∃ r' v m', deliver r (lit "session_event", update_value id m (full_event_to_value e) mt) = (r', Some v) ∧
    message_of v = Ok m' ∧ shows_message e p m' ∧ m' = set_content eqb m0 (content m') ∧
    partial_messages r' !! id = Some m'.
Proof.
  intros Hr Hu Hfin Hs He Hfp Hm. destruct (compact_of_update _ _ He) as [c Hc].
  destruct (message_roundtrip p Hfp) as (m1&Hm1&Hback&Hrole). rewrite Hm in Hm1. injection Hm1 as <-.
  destruct (event_ignores_partial e c Hc) as [_ [ev Hev]].
  unfold deliver, forward_frame, write. cbn [fst snd]. rewrite (create_update _ _ _ _ _ _ Hc Hback Hrole).
  change (existsb (str_eqb (lit "session_event")) [lit "daemon_hello"; lit "response"]) with false.
  rewrite str_eqb_refl, (delta_roundtrips _ e) by done. unfold reconstruct.
  cbn [active_session_id delta_of assistant_message_event meta]. rewrite Hr.
  destruct (update_applies id (mt ≫= meta_from_value) m0 e p u c Hu Hs Hc (tool_call_json r)) as (m'&jsons&Ha&Hsh&Hset).
  rewrite Ha, Hev. cbn [ok mbind option_bind].
  assert (finite_usage (usage m')) as Hf by (by rewrite Hset).
  destruct (message_roundtrip m' Hf) as (v'&Hv'&Hv''&_). rewrite Hv'. cbn [ok].
  destruct (mt ≫= meta_from_value) as [x|].
  - destruct (meta_encodes x) as [vx ->]. cbn [ok]. eexists _, _, m'. split; [done|].
    split; [exact Hv''|]. split; [done|]. split; [done|]. apply lookup_insert_eq.
  - eexists _, _, m'. split; [done|]. split; [exact Hv''|]. split; [done|]. split; [done|]. apply lookup_insert_eq.
Qed.

(** What is sent for update [e] of a message that started as [m0]: [m0] with contents that
    show those of the worker's message. *)
Definition shown_as (m0 : AssistantMessage) (e : AssistantMessageEvent) (sent : Value * option Value) : Prop :=
  ∃ p v m', update_partial e = Some p ∧ sent.2 = Some v ∧ message_of v = Ok m' ∧ shows_message e p m' ∧
    m' = set_content eqb m0 (content m').

Definition finite_update (e : AssistantMessageEvent) : Prop := ∀ p, update_partial e = Some p → finite_usage (usage p).

Lemma protocol_update u e es u' p :
  protocol u (e :: es) u' → update_partial e = Some p → protocol_step u e p ∧ protocol (shown p) es u'.
Proof.
  intros Hp He. inversion Hp as [|? ? p' ? ? Hs Hrest]; subst.
  assert (p' = p) as -> by (destruct Hs; cbn in He; congruence). done.
Qed.

Lemma carried_followed id vs es : carries id vs es → ∀ r u u' m0 m,
  protocol u es u' → partial_messages r !! id = Some m → Forall2 mirror u (content m) →
  m = set_content eqb m0 (content m) → finite_usage (usage m0) → Forall finite_update es →
  Forall2 (shown_as m0) es (filter (λ sent, active_of sent.1 = id) (deliver_all r vs)).
Proof.
  induction 1 as [|kind v vs es Hne Hc IH|e p m1 mt vs es He Hm1 Hc IH]; intros r u u' m0 m Hp Hr Hu Hm Hfin Hfe.
  - constructor.
  - cbn [deliver_all]. pose proof (deliver_other id r kind v Hne) as Hr'. destruct (deliver r (kind, v)) as [r' out].
    rewrite filter_cons_False by done. eapply IH; [done| |done|done|done|done]. cbn in Hr'. by rewrite Hr'.
  - apply Forall_cons in Hfe as [Hfe1 Hfe]. destruct (protocol_update _ _ _ _ _ Hp He) as [Hs Hrest].
    assert (finite_usage (usage m)) as Hfm by (by rewrite Hm).
    destruct (deliver_update id r e p u m m1 mt Hr Hu Hfm Hs He (Hfe1 p He) Hm1) as (r'&v&m'&Hd&Hv&Hsh&Hset&Hr').
    cbn [deliver_all]. rewrite Hd. rewrite filter_cons_True by done.
    assert (m' = set_content eqb m0 (content m')) as Hm' by (rewrite Hm in Hset; by rewrite Hset at 1).
    constructor; [by exists p, v, m'|]. eapply IH; [done|done|by destruct Hsh|done|done|done].
Qed.

(** The events forwarded by the agent loop as updates. *)
Definition updates (es : list AssistantMessageEvent) : list AssistantMessageEvent :=
  filter (λ e, is_Some (update_partial e)) es.

Lemma protocol_updates u es u' : protocol u es u' → protocol u (updates es) u'.
Proof.
  induction 1 as [|u e p es u' Hs Hp IH]; [constructor|]. unfold updates in *.
  destruct (decide (is_Some (update_partial e))) as [He|He].
  - rewrite filter_cons_True by done. by econstructor.
  - rewrite filter_cons_False by done. destruct Hs; try (by destruct He; eexists).
    match goal with H : shown _ = u |- _ => by rewrite H in IH end.
Qed.

(** What the supervisor keeps once a message started. *)
Lemma deliver_start id r m v :
  finite_usage (usage m) → message_to_value m = Ok v →
  partial_messages (deliver r (lit "session_event", start_value id v)).1 !! id = Some m.
Proof.
  intros Hf Hv. destruct (message_roundtrip m Hf) as (v'&Hv'&Hback&Hrole). rewrite Hv in Hv'. injection Hv' as <-.
  unfold deliver, forward_frame, write. cbn [fst snd].
  change (create_compact_assistant_delta (start_value id v)) with (Ok (E := str) (@None Delta)).
  change (existsb (str_eqb (lit "session_event")) [lit "daemon_hello"; lit "response"]) with false.
  change (str_eqb (lit "jsonl") (lit "assistant-delta")) with false. cbn iota. unfold observe.
  assert (get (start_value id v) (lit "event") ≫= as_object =
    Some [(lit "type", JsonText.String (lit "message_start")); (lit "message", v)]) as -> by done.
  cbn [as_object start_value fst].
  assert (get (JsonText.Object [(lit "type", JsonText.String (lit "message_start")); (lit "message", v)]) (lit "message")
    = Some v) as -> by done.
  assert (is_str (get v (lit "role")) (lit "assistant") = true) as -> by (by rewrite Hrole).
  rewrite Hback. apply lookup_insert_eq.
Qed.

Lemma stream_followed id r m v vs es u :
  content m = [] → finite_usage (usage m) → message_to_value m = Ok v → protocol [] es u →
  carries id vs (updates es) → Forall finite_update (updates es) →
  Forall2 (shown_as m) (updates es)
    (filter (λ sent, active_of sent.1 = id) (deliver_all (deliver r (lit "session_event", start_value id v)).1 vs)).
Proof.
  intros Hc Hf Hv Hp%protocol_updates Hvs Hfe.
  eapply carried_followed; [done|done|by apply deliver_start| |by destruct m|done|done].
  rewrite Hc. constructor.
Qed.

Context {A : AnthropicHost Num (AgentTypes.Usage (Externals := X0)) (AgentTypes.Diagnostic (Externals := X0))}.

(** C13: The clients of a supervised session are shown the message as the worker receives it: for
    every response of the Anthropic API, the supervisor sends for each update of the
    worker's message - interleaved with whatever other sessions send, and transmitted
    without the message - a message whose contents show those of the worker's: as many
    blocks, of the same kinds, texts equal, thinking equal unless redacted, tool calls equal
    but for arguments not yet confirmed by a piece; and the block of a text event, of the
    end of thinking and of every event of a call after its start is the worker's, up to the
    signature of thinking. *)
Theorem clients_follow_response is_oauth tools fallback_enabled cost cancelled aborted id r m v events vs :
  let es := updates (stream_anthropic eqb is_oauth tools fallback_enabled cost cancelled aborted m (Ok events)) in
  content m = [] → finite_usage (usage m) → Forall finite_update es → message_to_value m = Ok v → carries id vs es →
  Forall2 (shown_as m) es
    (filter (λ sent, active_of sent.1 = id) (deliver_all (deliver r (lit "session_event", start_value id v)).1 vs)).
Proof.
  intros es Hc Hf Hfe Hv Hvs.
  destruct (response_protocol eqb is_oauth tools fallback_enabled cost cancelled aborted m events) as (mid&last&u&Hs&Hp&Hlast).
  assert (es = updates mid) as Hes.
  { unfold es. rewrite Hs. unfold updates. rewrite filter_cons_False by (by intros []).
    rewrite filter_app, filter_cons_False; [by rewrite app_nil_r|]. by destruct last; intros []. }
  rewrite Hes in *. by eapply stream_followed.
Qed.

End compact.

(** ** A session *)

Section sample.
#[local] Existing Instance serde_scalars.
#[local] Existing Instance sample_externals.
#[local] Existing Instance sample_host.
Abbreviation XS := (json_externals str (λ _ _ : JsonText.Value str, false) sample_externals).
Abbreviation V := (JsonText.Value str).

Definition block_value (b : @ContentBlock XS) : V :=
  match b with
  | Text t => JsonText.Array [JsonText.String (AgentTypes.text t); opt_value JsonText.String (text_signature t)]
  | Thinking t =>
      JsonText.Array [JsonText.String (thinking t); opt_value JsonText.String (thinking_signature t);
                      opt_value JsonText.Bool (redacted t)]
  | ToolCallBlock c =>
      JsonText.Array [JsonText.String (tc_id c); JsonText.String (tc_name c); JsonText.Object (arguments c);
                      opt_value JsonText.String (thought_signature c)]
  end.
Definition value_block (v : V) : option (@ContentBlock XS) :=
  match v with
  | JsonText.Array [JsonText.String s; o] => o ← value_opt value_str o; Some (Text (mkText s o))
  | JsonText.Array [JsonText.String s; o; r] =>
      o ← value_opt value_str o; r ← value_opt value_bool r; Some (Thinking (mkThinking s o r))
  | JsonText.Array [JsonText.String i; JsonText.String n; JsonText.Object a; o] =>
      o ← value_opt value_str o; Some (ToolCallBlock (mkCall (X := XS) i n a o))
  | _ => None
  end.

Definition message_value (m : @AssistantMessage XS) : V :=
  JsonText.Object [(lit "role", JsonText.String (lit "assistant"));
    (lit "fields", JsonText.Array
      [JsonText.Array (map block_value (content m)); JsonText.String (api m); JsonText.String (provider m);
       JsonText.String (am_model m); opt_value JsonText.String (response_model m);
       opt_value JsonText.String (response_id m);
       opt_value (λ l, JsonText.Array (map JsonText.String l)) (diagnostics m); JsonText.Number [usage m];
       JsonText.String (stop_reason m); opt_value JsonText.String (stop_reason_raw m);
       opt_value JsonText.String (error_message m);
       JsonText.Bool (Z.leb 0 (am_timestamp m)); JsonText.Number [Z.abs_N (am_timestamp m)]])].
Definition value_message (v : V) : option (@AssistantMessage XS) :=
  match v with
  | JsonText.Object [_; (_, JsonText.Array [c; JsonText.String a; JsonText.String p; JsonText.String m; rm; ri; d;
      JsonText.Number [u]; JsonText.String s; sr; e; JsonText.Bool sign; JsonText.Number [t]])] =>
      c ← value_list value_block c; rm ← value_opt value_str rm; ri ← value_opt value_str ri;
      d ← value_opt (value_list value_str) d; sr ← value_opt value_str sr; e ← value_opt value_str e;
      Some (mkAssistant (X := XS) c a p m rm ri d u s sr e (if sign then Z.of_N t else (- Z.of_N t)%Z))
  | _ => None
  end.

Lemma value_block_value b : value_block (block_value b) = Some b.
Proof. by destruct b as [[? []]|[? [] []]|[? ? ? []]]. Qed.

Lemma value_message_value m : value_message (message_value m) = Some m.
Proof.
  destruct m. cbn -[value_opt opt_value block_value value_block mapM Z.leb Z.of_N].
  rewrite (value_list_map block_value value_block) by apply value_block_value. cbn [mbind option_bind].
  do 2 (rewrite value_opt_value by done; cbn [mbind option_bind]).
  rewrite value_opt_value by (intros l; by apply value_list_map). cbn [mbind option_bind].
  do 2 (rewrite value_opt_value by done; cbn [mbind option_bind]).
  do 2 f_equal. destruct (Z.leb_spec 0 am_timestamp); lia.
Qed.

(** Events of an open message by number. *)
Definition event_code (c : @CompactAssistantMessageEvent XS) : option V :=
  let code (tag i : N) (x : V) := Some (JsonText.Array [JsonText.Number [tag; i]; x]) in
  match c with
  | CTextStart i => code 0 i JsonText.Null
  | CTextDelta i d => code 1 i (JsonText.String d)
  | CTextEnd i d => code 2 i (JsonText.String d)
  | CThinkingStart i => code 3 i JsonText.Null
  | CThinkingDelta i d => code 4 i (JsonText.String d)
  | CThinkingEnd i d => code 5 i (JsonText.String d)
  | CToolCallStart i => code 6 i JsonText.Null
  | CToolCallDelta i d => code 7 i (JsonText.String d)
  | CToolCallEnd i c => code 8 i (block_value (ToolCallBlock c))
  | CStart | CDone _ _ | CError _ _ => None
  end.
Definition code_event (v : V) : option (@CompactAssistantMessageEvent XS) :=
  match v with
  | JsonText.Array [JsonText.Number [tag; i]; x] =>
      match tag, x with
      | 0, _ => Some (CTextStart i)
      | 1, JsonText.String d => Some (CTextDelta i d)
      | 2, JsonText.String d => Some (CTextEnd i d)
      | 3, _ => Some (CThinkingStart i)
      | 4, JsonText.String d => Some (CThinkingDelta i d)
      | 5, JsonText.String d => Some (CThinkingEnd i d)
      | 6, _ => Some (CToolCallStart i)
      | 7, JsonText.String d => Some (CToolCallDelta i d)
      | 8, x => match value_block x with Some (ToolCallBlock c) => Some (CToolCallEnd i c) | _ => None end
      | _, _ => None
      end
  | _ => None
  end.

Lemma code_event_code (e : @AssistantMessageEvent XS) c : compact_of e = Some c → ∃ v, event_code c = Some v ∧ code_event v = Some c.
Proof.
  destruct e; try done; intros [= <-]; eexists; (split; [reflexivity|]); try reflexivity.
  cbn [code_event]. by rewrite value_block_value.
Qed.

Definition delta_value (d : @CompactAssistantDelta XS unit) : V :=
  JsonText.Array [JsonText.String (delta_type d); JsonText.String (active_session_id d);
    default JsonText.Null (event_code (assistant_message_event d)); opt_value block_value (content_start d);
    opt_value JsonText.Object (tool_call_arguments d); opt_value (λ _, JsonText.Null) (meta d)].
Definition value_delta (v : V) : option (@CompactAssistantDelta XS unit) :=
  match v with
  | JsonText.Array [JsonText.String t; JsonText.String i; e; c; a; m] =>
      e ← code_event e; c ← value_opt value_block c; a ← value_opt (@as_object str) a;
      m ← value_opt (λ _, Some tt) m; Some (mkDelta (X := XS) (Meta := unit) t i e c a m)
  | _ => None
  end.

Lemma value_delta_value (d : @CompactAssistantDelta XS unit) e :
  compact_of e = Some (assistant_message_event d) → or_error (value_delta (delta_value d)) = Ok d.
Proof.
  intros He. destruct (code_event_code e _ He) as (v&Hv&Hc). unfold delta_value, value_delta. rewrite Hv.
  change (default JsonText.Null (Some v)) with v. rewrite Hc.
  rewrite (value_opt_value block_value value_block) by apply value_block_value.
  rewrite (value_opt_value JsonText.Object as_object) by done.
  rewrite (value_opt_value (λ _, JsonText.Null) (λ _, Some tt)) by (by intros []). by destruct d.
Qed.

Lemma value_delta_session (d d' : @CompactAssistantDelta XS unit) :
  or_error (value_delta (delta_value d)) = Ok d' → active_session_id d' = active_session_id d.
Proof.
  intros H%or_error_ok. unfold delta_value, value_delta in H.
  apply bind_Some in H as (?&_&H). apply bind_Some in H as (?&_&H). apply bind_Some in H as (?&_&H).
  apply bind_Some in H as (?&_&H). by injection H as <-.
Qed.

Definition full_code (e : @AssistantMessageEvent XS) : V :=
  match compact_of e with Some c => default JsonText.Null (event_code c) | None => JsonText.Null end.

Lemma full_code_event (e : @AssistantMessageEvent XS) c :
  compact_of e = Some c → or_error (code_event (full_code e)) = Ok c ∧ ∃ v, or_error (event_code c) = Ok v.
Proof.
  intros Hc. destruct (code_event_code e c Hc) as (v&Hv&He). unfold full_code. rewrite Hc, Hv.
  change (default JsonText.Null (Some v)) with v. rewrite He. split; [done|]. by exists v.
Qed.

Definition sample_serde : DaemonSerde str XS := {|
  DaemonEventMeta := unit;
  finite_usage _ := True;
  message_from_value v := or_error (value_message v);
  message_to_value m := Ok (message_value m);
  event_from_value v := or_error (code_event v);
  event_to_value c := or_error (event_code c);
  full_event_to_value := full_code;
  meta_from_value _ := Some tt;
  meta_to_value _ := Ok JsonText.Null;
  delta_from_value v := or_error (value_delta v);
  delta_to_value := delta_value;
  message_roundtrip m _ :=
    ex_intro _ (message_value m) (conj eq_refl (conj (f_equal or_error (value_message_value m)) eq_refl));
  event_ignores_partial := full_code_event;
  meta_encodes _ := ex_intro _ JsonText.Null eq_refl;
  delta_roundtrips := value_delta_value;
  delta_keeps_session := value_delta_session |}.
#[local] Existing Instance sample_serde.

Abbreviation no_eqb := (λ _ _ : JsonText.Value str, false).

(** The updates of session [a], with a message of session [b] before each. *)
Definition sample_wire (e : @AssistantMessageEvent XS) : list (str * V) :=
  match update_partial e with
  | Some p =>
      [(lit "session_event", start_value (lit "b") (message_value sample_message));
       (lit "session_event", update_value (lit "a") (message_value p) (full_event_to_value e) None)]
  | None => []
  end.

Lemma sample_carried es : carries no_eqb (lit "a") (concat (map sample_wire (updates no_eqb es))) (updates no_eqb es).
Proof.
  unfold updates. induction es as [|e es IH]; [constructor|].
  destruct (decide (is_Some (update_partial e))) as [[p Hp]|He];
    [rewrite filter_cons_True by (by eexists)|by rewrite filter_cons_False].
  cbn [map concat]. unfold sample_wire at 1. rewrite Hp. cbn [app]. by apply carries_other, carries_update with p.
Qed.

Lemma clients_follow_response_witness :
  let es := updates no_eqb (stream_anthropic no_eqb false None false None false false sample_message
                              (Ok (sample_seen ++ [stop_of (lit "1")]))) in
  length es = 8%nat ∧
  Forall2 (shown_as no_eqb sample_message) es
    (filter (λ sent, active_of sent.1 = lit "a")
       (deliver_all no_eqb
          (deliver no_eqb (reconstructor_new no_eqb)
             (lit "session_event", start_value (lit "a") (message_value sample_message))).1
          (concat (map sample_wire es)))).
Proof.
  intros es. split; [vm_compute; reflexivity|].
  apply (clients_follow_response no_eqb (X0 := sample_externals) (A := sample_host)); [| | | |apply sample_carried].
  - exact eq_refl.
  - exact I.
  - apply Forall_forall. exact (λ _ _ _ _, I).
  - exact eq_refl.
Defined.

End sample.
