(* ===== verification/CommandJournal.v ===== *)
(** * The command recovery journal of the supervisor

    [pi-coding-agent/src/modes/daemon/command_recovery_journal.rs] and the part of
    [handle_line] of [native_supervisor.rs] that uses it: before a mutating command of a
    client is dispatched its receipt is appended to a file, its response is appended before
    it is sent, and an acknowledged command is forgotten, so that a command repeated after
    a crash is answered from the journal and not run again.

    The file is its bytes.  Every append and every compaction has an outcome: some of the
    bytes may have arrived although it failed, the replacement of the file may have taken
    place although it was reported as failed, and a crash may come between any two
    operations (a crash inside an operation is its failure followed by a crash).  JSON and
    the code serde derives are parameters with their laws; so are the clock and the order in
    which a [HashMap] is iterated. *)
From stdpp Require Import base list numbers gmap strings.
From S2P Require Import Prelude RustStr Truncate JsonText JsonCodec SseReader AnthropicStream.

Local Open Scope N_scope.

Definition COMPACT_AFTER_RECORDS : N := 4096.

(** [DaemonResponse]; the information of an error is opaque. *)
Record DaemonResponse (Num Info : Type) : Type := mkResponse {
  response_id : option str;
  response_type : str;
  response_command : str;
  success : bool;
  response_data : option (JsonText.Value Num);
  response_error : option str;
  error_info : option Info }.
Arguments mkResponse {Num Info}.
Arguments response_type {Num Info} d.

Record ReceivedRecord : Type := mkReceived {
  received_version : N;
  received_type : str;
  received_key : str;
  client_id : str;
  command_id : str;
  command_type : str;
  received_at : str }.

Record ResultRecord (Response : Type) : Type := mkResult {
  result_version : N;
  result_type : str;
  result_key : str;
  response : Response;
  result_at : str }.
Arguments mkResult {Response}.
Arguments result_version {Response} r.
Arguments result_type {Response} r.
Arguments result_key {Response} r.
Arguments response {Response} r.

Record AcknowledgedRecord : Type := mkAcknowledged {
  acknowledged_version : N;
  acknowledged_type : str;
  acknowledged_key : str;
  acknowledged_at : str }.

Inductive JournalRecord (Response : Type) : Type :=
| Received (r : ReceivedRecord)
| Result (r : ResultRecord Response)
| Acknowledged (r : AcknowledgedRecord).
Arguments Received {Response} r.
Arguments Result {Response} r.
Arguments Acknowledged {Response} r.

Definition version {Response} (r : JournalRecord Response) : N :=
  match r with Received r => received_version r | Result r => result_version r | Acknowledged r => acknowledged_version r end.
Definition key {Response} (r : JournalRecord Response) : str :=
  match r with Received r => received_key r | Result r => result_key r | Acknowledged r => acknowledged_key r end.
Definition type_ {Response} (r : JournalRecord Response) : str :=
  match r with Received r => received_type r | Result r => result_type r | Acknowledged r => acknowledged_type r end.

(** A Unicode scalar value. *)
Definition scalar (c : N) : Prop := c < 55296 ∨ 57344 ≤ c < 1114112.

(** [serde_json] and the derived code: a record is written as an object with its fields, on
    one line, and read back. *)
Class JournalSerde (Num : Type) : Type := {
  DaemonErrorInfo : Type;
  as_u64 : Num → option N;
  to_string : JsonText.Value Num → result str str;
  value_from_str : str → result (JsonText.Value Num) str;
  pair_to_string : str → str → result str str;
  record_to_value : JournalRecord (DaemonResponse Num DaemonErrorInfo) → result (JsonText.Value Num) str;
  received_from_value : JsonText.Value Num → result ReceivedRecord str;
  result_from_value : JsonText.Value Num → result (ResultRecord (DaemonResponse Num DaemonErrorInfo)) str;
  record_written r : ∃ fields t, let v := JsonText.Object fields in
    record_to_value r = Ok v ∧ to_string v = Ok t ∧ value_from_str t = Ok v ∧
    t ≠ [] ∧ 10 ∉ t ∧ Forall scalar t ∧
    (∃ n, get v (lit "version") = Some (JsonText.Number n) ∧ as_u64 n = Some (version r)) ∧
    get v (lit "key") = Some (JsonText.String (key r)) ∧
    get v (lit "type") = Some (JsonText.String (type_ r)) ∧
    match r with
    | Received x => received_from_value v = Ok x
    | Result x => result_from_value v = Ok x
    | Acknowledged _ => True
    end;
  pair_key c i c' i' k : pair_to_string c i = Ok k → pair_to_string c' i' = Ok k → c = c' ∧ i = i';
  pair_written c i : ∃ k, pair_to_string c i = Ok k }.

(** ** Text and bytes *)

(** Comparisons that linear arithmetic decides. *)
Ltac decide_tests :=
  repeat match goal with
  | |- context [?a <? ?b] => first [rewrite (proj2 (N.ltb_lt a b)) by lia|rewrite (proj2 (N.ltb_ge a b)) by lia]
  | |- context [?a <=? ?b] => first [rewrite (proj2 (N.leb_le a b)) by lia|rewrite (proj2 (N.leb_gt a b)) by lia]
  end; cbn [andb].

Lemma second_three q m : m < 64 → (q = 0 → 32 ≤ m) → (q = 13 → m < 32) → second_of_three (224 + q) (128 + m) = true.
Proof.
  intros Hm H0 H13. unfold second_of_three.
  destruct (N.eqb_spec (224 + q) 224); [decide_tests; done|].
  destruct (N.eqb_spec (224 + q) 237); [decide_tests; done|]. unfold continuation. by decide_tests.
Qed.

Lemma second_four q m : m < 64 → (q = 0 → 16 ≤ m) → (q = 4 → m < 16) → second_of_four (240 + q) (128 + m) = true.
Proof.
  intros Hm H0 H13. unfold second_of_four.
  destruct (N.eqb_spec (240 + q) 240); [decide_tests; done|].
  destruct (N.eqb_spec (240 + q) 244); [decide_tests; done|]. unfold continuation. by decide_tests.
Qed.

Lemma utf8_next_encode c r : scalar c → utf8_next (encode_utf8_char c ++ r) = UChar c r.
Proof.
  intros Hc. unfold scalar in Hc. unfold encode_utf8_char.
  destruct (N.ltb_spec c 128) as [H1|H1]; [by cbn [app utf8_next]; rewrite (proj2 (N.ltb_lt _ _) H1)|].
  pose proof (N.div_mod c 64 ltac:(done)) as D1. pose proof (N.mod_lt c 64 ltac:(done)) as M1.
  pose proof (N.div_mod (c / 64) 64 ltac:(done)) as D2. pose proof (N.mod_lt (c / 64) 64 ltac:(done)) as M2.
  pose proof (N.div_mod (c / 64 / 64) 64 ltac:(done)) as D3. pose proof (N.mod_lt (c / 64 / 64) 64 ltac:(done)) as M3.
  rewrite !N.Div0.div_div in *. change (64 * 64) with 4096 in *. change (4096 * 64) with 262144 in *.
  set (q1 := c / 64) in *. set (q2 := c / 4096) in *. set (q3 := c / 262144) in *.
  set (m1 := c mod 64) in *. set (m2 := q1 mod 64) in *. set (m3 := q2 mod 64) in *. clearbody q1 q2 q3 m1 m2 m3.
  assert (∀ m, m < 64 → continuation (128 + m) = true) as Hcont by (intros; unfold continuation; by decide_tests).
  destruct (N.ltb_spec c 2048) as [H2|H2]; [|destruct (N.ltb_spec c 65536) as [H3|H3]]; cbn [app utf8_next]; decide_tests.
  - rewrite Hcont by done. f_equal. lia.
  - rewrite second_three by lia. rewrite Hcont by done. f_equal. lia.
  - rewrite second_four by lia. rewrite !Hcont by done. f_equal. lia.
Qed.

Lemma from_utf8_as_bytes fuel s :
  Forall scalar s → (length (as_bytes s) < fuel)%nat → from_utf8 fuel (as_bytes s) = (s, None).
Proof.
  revert s. induction fuel as [|fuel IH]; intros s Hs Hf; [lia|].
  destruct s as [|c s]; [done|]. inversion Hs; subst. unfold as_bytes in *. cbn [flat_map] in *. cbn [from_utf8].
  rewrite utf8_next_encode by done. rewrite IH; [done|done|].
  rewrite length_app in Hf. assert (length (encode_utf8_char c) ≠ O) by (unfold encode_utf8_char; repeat case_match; done).
  lia.
Qed.

Lemma as_bytes_app s t : as_bytes (s ++ t) = as_bytes s ++ as_bytes t.
Proof. apply flat_map_app. Qed.

Section journal.
Context {Num : Type} {S : JournalSerde Num}.

Abbreviation Value := (JsonText.Value Num).
Abbreviation Response := (DaemonResponse Num DaemonErrorInfo).
Abbreviation Record_ := (JournalRecord Response).

Record JournalEntry : Type := mkEntry { received : ReceivedRecord; entry_response : option Response }.

(** The order in which a map with these entries is iterated. *)
Variable iteration : gmap str JournalEntry → list (str * JournalEntry).

Inductive CommandJournalBeginResult : Type :=
| New
| Pending
| Complete (response : Response).

Record CommandRecoveryJournal : Type := mkJournal {
  entries : gmap str JournalEntry;
  record_count : N }.

Definition create_command_idempotency_key (client_id command_id : str) : str :=
  match pair_to_string client_id command_id with
  | Ok k => k
  | Err _ => lit "[" ++ [34] ++ client_id ++ [34] ++ lit "," ++ [34] ++ command_id ++ [34] ++ lit "]"
  end.

(** ** Loading *)

(** [fs::read_to_string] of a file that exists. *)
Definition read_to_string (bytes : list N) : result str str :=
  match from_utf8 (Datatypes.S (length bytes)) bytes with
  | (text, None) => Ok text
  | _ => Err (lit "stream did not contain valid UTF-8")
  end.

Definition as_str_of (v : Value) (name : str) : option str := as_str (get v name).

(** One record, once the fields that select it are read. *)
Definition apply_value (es : gmap str JournalEntry) (key : str) (kind : option str) (record : Value)
    : gmap str JournalEntry :=
  match kind with
  | None => es
  | Some kind =>
      if str_eqb kind (lit "received") then
        match received_from_value record with
        | Ok r => if negb (is_empty (client_id r)) && negb (is_empty (command_id r)) && negb (is_empty (command_type r))
                  then <[key := mkEntry r None]> es else es
        | Err _ => es
        end
      else if str_eqb kind (lit "acknowledged") then delete key es
      else if str_eqb kind (lit "result") then
        match result_from_value record with
        | Ok r => if str_eqb (response_type (response r)) (lit "response")
                  then alter (λ e, mkEntry (received e) (Some (response r))) key es else es
        | Err _ => es
        end
      else es
  end.

Definition load_line (self : CommandRecoveryJournal) (line : str) : CommandRecoveryJournal :=
  if is_empty line then self
  else match value_from_str line with
  | Err _ => self
  | Ok record =>
      match record with
      | JsonText.Object _ =>
          match get record (lit "version") with
          | Some (JsonText.Number n) =>
              if bool_decide (as_u64 n = Some 1) then
                match as_str_of record (lit "key") with
                | None => self
                | Some key =>
                    mkJournal (apply_value (entries self) key (as_str_of record (lit "type")) record)
                      (record_count self + 1)
                end
              else self
          | _ => self
          end
      | _ => self
      end
  end.

(** [new]: the journal of a file, if it exists. *)
Definition load (disk : option (list N)) : result CommandRecoveryJournal str :=
  match disk with
  | None => Ok (mkJournal ∅ 0)
  | Some bytes =>
      let* contents := read_to_string bytes in
      Ok (fold_left load_line (split_on 10 contents) (mkJournal ∅ 0))
  end.

(** ** Writing *)

Inductive AppendOutcome : Type :=
| Appended
| AppendFails (arrived : option nat) (e : str).   (* so many bytes are in the file, or all *)

Inductive CompactOutcome : Type :=
| Compacted
| CompactFails (replaced : bool) (e : str).

Definition record_value (r : Record_) : Value :=
  match record_to_value r with Ok v => v | Err _ => JsonText.Null end.

Definition append (self : CommandRecoveryJournal) (disk : option (list N)) (r : Record_) (o : AppendOutcome)
    : result CommandRecoveryJournal str * option (list N) :=
  match to_string (record_value r) with
  | Err e => (Err e, Some (default [] disk))
  | Ok line =>
      let payload := as_bytes (line ++ [10]) in
      match o with
      | Appended => (Ok (mkJournal (entries self) (record_count self + 1)), Some (default [] disk ++ payload))
      | AppendFails None e => (Err e, Some (default [] disk ++ payload))
      | AppendFails (Some n) e => (Err e, Some (default [] disk ++ take n payload))
      end
  end.

Definition entry_records (now : str) (ke : str * JournalEntry) : list Record_ :=
  Received (received ke.2) ::
  match entry_response ke.2 with
  | Some r => [Result (mkResult 1 (lit "result") ke.1 r now)]
  | None => []
  end.

Definition compact_records (self : CommandRecoveryJournal) (now : str) : list Record_ :=
  concat (map (entry_records now) (iteration (entries self))).

Definition record_line (r : Record_) : str := match to_string (record_value r) with Ok t => t | Err _ => [] end.

Definition compact (self : CommandRecoveryJournal) (disk : option (list N)) (now : str) (o : CompactOutcome)
    : result CommandRecoveryJournal str * option (list N) :=
  let records := compact_records self now in
  let payload := as_bytes (join [10] (map record_line records) ++ [10]) in
  match o with
  | Compacted => (Ok (mkJournal (entries self) (len records)), Some payload)
  | CompactFails replaced e => (Err e, if replaced then Some payload else disk)
  end.

(** ** The operations *)

Definition lookup_command (self : CommandRecoveryJournal) (client_id command_id : str)
    : option CommandJournalBeginResult :=
  match entries self !! create_command_idempotency_key client_id command_id with
  | Some entry => Some (match entry_response entry with Some r => Complete r | None => Pending end)
  | None => None
  end.

Definition begin (self : CommandRecoveryJournal) (disk : option (list N)) (client_id command_id command_type now : str)
    (o : AppendOutcome) : result CommandJournalBeginResult str * CommandRecoveryJournal * option (list N) :=
  let key := create_command_idempotency_key client_id command_id in
  match lookup_command self client_id command_id with
  | Some existing => (Ok existing, self, disk)
  | None =>
      let r := mkReceived 1 (lit "received") key client_id command_id command_type now in
      match append self disk (Received r) o with
      | (Ok self, disk) => (Ok New, mkJournal (<[key := mkEntry r None]> (entries self)) (record_count self), disk)
      | (Err e, disk) => (Err e, self, disk)
      end
  end.

(** What a failed compaction leaves in memory. *)
Definition compacted (self : CommandRecoveryJournal) (disk : option (list N)) (now : str) (o : CompactOutcome)
    : result () str * CommandRecoveryJournal * option (list N) :=
  match compact self disk now o with
  | (Ok self, disk) => (Ok (), self, disk)
  | (Err e, disk) => (Err e, self, disk)
  end.

Definition record_result (self : CommandRecoveryJournal) (disk : option (list N)) (client_id command_id : str)
    (response : Response) (now : str) (o : AppendOutcome) (c : CompactOutcome)
    : result () str * CommandRecoveryJournal * option (list N) :=
  let key := create_command_idempotency_key client_id command_id in
  match entries self !! key with
  | None => (Err (lit "Cannot record a result before command receipt: " ++ key), self, disk)
  | Some _ =>
      match append self disk (Result (mkResult 1 (lit "result") key response now)) o with
      | (Err e, disk) => (Err e, self, disk)
      | (Ok self, disk) =>
          let self := mkJournal (alter (λ e, mkEntry (received e) (Some response)) key (entries self))
                        (record_count self) in
          if COMPACT_AFTER_RECORDS <=? record_count self then compacted self disk now c else (Ok (), self, disk)
      end
  end.

Definition acknowledge (self : CommandRecoveryJournal) (disk : option (list N)) (client_id command_id now : str)
    (o : AppendOutcome) (c : CompactOutcome) : result () str * CommandRecoveryJournal * option (list N) :=
  let key := create_command_idempotency_key client_id command_id in
  match entries self !! key with
  | None => (Ok (), self, disk)
  | Some _ =>
      match append self disk (Acknowledged (mkAcknowledged 1 (lit "acknowledged") key now)) o with
      | (Err e, disk) => (Err e, self, disk)
      | (Ok self, disk) =>
          let self := mkJournal (delete key (entries self)) (record_count self) in
          if bool_decide (entries self = ∅) || (COMPACT_AFTER_RECORDS <=? record_count self)
          then compacted self disk now c else (Ok (), self, disk)
      end
  end.

(** [try_record_result] checks the receipt once more. *)
Definition try_record_result (self : CommandRecoveryJournal) (disk : option (list N)) (client_id command_id : str)
    (response : Response) (now : str) (o : AppendOutcome) (c : CompactOutcome)
    : result () str * CommandRecoveryJournal * option (list N) :=
  let key := create_command_idempotency_key client_id command_id in
  match entries self !! key with
  | None => (Err (lit "Cannot record a result before command receipt: " ++ key), self, disk)
  | Some _ => record_result self disk client_id command_id response now o c
  end.

Record CommandJournalPendingSummary : Type := mkSummary {
  total : N;
  without_result : N;
  oldest_recorded_at : option str;
  oldest_command_type : option str }.

(** One entry: the counts, and the oldest receipt so far with its type. *)
Definition summary_step (acc : N * N * option (str * str)) (e : JournalEntry) : N * N * option (str * str) :=
  let '(total, without, oldest) := acc in
  let total := total + 1 in
  let without := match entry_response e with None => without + 1 | Some _ => without end in
  let at_ := received_at (received e) in
  let older := match oldest with None => true | Some (at', _) => negb (str_leb at' at_) end in
  if is_empty at_ then (total, without, oldest)
  else (total, without, if older then Some (at_, command_type (received e)) else oldest).

Definition pending_summary (self : CommandRecoveryJournal) : CommandJournalPendingSummary :=
  let '(total, without, oldest) := fold_left summary_step ((iteration (entries self)).*2) (0, 0, None) in
  mkSummary total without (fst <$> oldest) (snd <$> oldest).

(** ** The supervisor *)

Record Supervisor : Type := mkSupervisor {
  disk : option (list N);
  journal : option CommandRecoveryJournal;   (* [None]: not running *)
  dispatched : list (str * str) }.           (* commands whose dispatch has not returned *)

Inductive Action : Type :=
| Request (owned : bool) (client id kind now : str) (o : AppendOutcome)
| Respond (owned : bool) (client id : str) (response : option Response) (now : str) (o : AppendOutcome) (c : CompactOutcome)
| Ack (client id now : str) (o : AppendOutcome) (c : CompactOutcome)
| Crash
| Start.

(** What happens to command [id] of [client]. *)
Inductive Event : Type :=
| Dispatched (client id : str)
| Replayed (client id : str) (response : Response)
| Uncertain (client id : str)
| Refused (client id : str)       (* its receipt could not be written *)
| NotOwner (client id : str)
| Answered (client id : str) (response : Response)
| Failed (client id : str)        (* its response could not be recorded *)
| Acked (client id : str).

(** [handle_line] for a command with a journal identity, up to the dispatch. *)
Definition request (s : Supervisor) (self : CommandRecoveryJournal) (owned : bool) (client id kind now : str)
    (o : AppendOutcome) : Supervisor * list Event :=
  if negb owned then (s, [NotOwner client id])
  else
    let '(r, self, d) := begin self (disk s) client id kind now o in
    match r with
    | Ok (Complete response) => (mkSupervisor d (Some self) (dispatched s), [Replayed client id response])
    | Ok Pending => (mkSupervisor d (Some self) (dispatched s), [Uncertain client id])
    | Ok New => (mkSupervisor d (Some self) (dispatched s ++ [(client, id)]), [Dispatched client id])
    | Err _ => (mkSupervisor d (Some self) (dispatched s), [Refused client id])
    end.

(** The rest of it, once the dispatch has returned. *)
Definition respond (s : Supervisor) (self : CommandRecoveryJournal) (owned : bool) (client id : str)
    (response : option Response) (now : str) (o : AppendOutcome) (c : CompactOutcome) : Supervisor * list Event :=
  match response with
  | None => (s, [])
  | Some response =>
      if negb owned then (s, [Failed client id])
      else
        let '(r, self, d) := record_result self (disk s) client id response now o c in
        (mkSupervisor d (Some self) (dispatched s),
         match r with Ok _ => [Answered client id response] | Err _ => [Failed client id] end)
  end.

(** A command that is in the list, once less. *)
Fixpoint remove_one (k : str * str) (l : list (str * str)) : option (list (str * str)) :=
  match l with
  | [] => None
  | k' :: l => if bool_decide (k = k') then Some l else (k' ::.) <$> remove_one k l
  end.

Definition step (s : Supervisor) (a : Action) : Supervisor * list Event :=
  match journal s, a with
  | Some self, Request owned client id kind now o => request s self owned client id kind now o
  | Some self, Respond owned client id response now o c =>
      match remove_one (client, id) (dispatched s) with
      | Some rest => respond (mkSupervisor (disk s) (journal s) rest) self owned client id response now o c
      | None => (s, [])
      end
  | Some self, Ack client id now o c =>
      let '(_, self, d) := acknowledge self (disk s) client id now o c in
      (mkSupervisor d (Some self) (dispatched s), [Acked client id])
  | Some _, Crash => (mkSupervisor (disk s) None [], [])
  | None, Start =>
      match load (disk s) with
      | Ok self => (mkSupervisor (disk s) (Some self) [], [])
      | Err _ => (s, [])
      end
  | _, _ => (s, [])
  end.

Fixpoint run (s : Supervisor) (acts : list Action) : Supervisor * list Event :=
  match acts with
  | [] => (s, [])
  | a :: acts => let '(s, es) := step s a in let '(s', es') := run s acts in (s', es ++ es')
  end.

Definition fresh : Supervisor := mkSupervisor None None [].

(** ** What a file of whole lines loads to *)

(** Lines of the file: records, and the empty line an empty compaction leaves. *)
Definition line_of (l : option Record_) : str := match l with Some r => record_line r | None => [] end.
Definition content_of (ls : list (option Record_)) : str := concat (map (λ l, line_of l ++ [10]) ls).

(** The records this code writes. *)
Definition wf_record (r : Record_) : Prop :=
  version r = 1 ∧
  match r with
  | Received x => type_ r = lit "received" ∧ client_id x ≠ [] ∧ command_id x ≠ [] ∧ command_type x ≠ []
  | Result x => type_ r = lit "result" ∧ response_type (response x) = lit "response"
  | Acknowledged _ => type_ r = lit "acknowledged"
  end.
Definition wf_lines (ls : list (option Record_)) : Prop := Forall (λ l, ∀ r, l = Some r → wf_record r) ls.

(** Their effect. *)
Definition apply_record (es : gmap str JournalEntry) (r : Record_) : gmap str JournalEntry :=
  match r with
  | Received x => <[received_key x := mkEntry x None]> es
  | Result x => alter (λ e, mkEntry (received e) (Some (response x))) (result_key x) es
  | Acknowledged x => delete (acknowledged_key x) es
  end.
Definition replay (es : gmap str JournalEntry) (ls : list (option Record_)) : gmap str JournalEntry :=
  fold_left (λ es l, match l with Some r => apply_record es r | None => es end) ls es.

Lemma record_line_text r :
  record_line r ≠ [] ∧ 10 ∉ record_line r ∧ Forall scalar (record_line r) ∧
  to_string (record_value r) = Ok (record_line r).
Proof.
  destruct (record_written r) as (fields&t&Hv&Ht&_&Hne&Hnl&Hs&_). unfold record_line, record_value.
  rewrite Hv, Ht. done.
Qed.

Lemma load_line_record self r :
  wf_record r → load_line self (record_line r) = mkJournal (apply_record (entries self) r) (record_count self + 1).
Proof.
  intros [Hv Hr]. destruct (record_written r) as (fields&t&Htv&Ht&Hback&Hne&_&_&(n&Hn&Hu)&Hk&Hty&Hdec).
  unfold load_line, record_line, record_value. rewrite Htv, Ht. destruct t as [|c t]; [done|]. cbn [is_empty].
  rewrite Hback, Hn, Hu, Hv, bool_decide_true by done. unfold as_str_of. rewrite Hk, Hty. cbn [as_str].
  f_equal. unfold apply_value. destruct r as [x|x|x]; cbn [type_ key apply_record] in *.
  - destruct Hr as (->&H1&H2&H3). rewrite str_eqb_refl, Hdec.
    destruct (client_id x); [done|]. destruct (command_id x); [done|]. by destruct (command_type x).
  - destruct Hr as [-> H1]. change (str_eqb (lit "result") (lit "received")) with false.
    change (str_eqb (lit "result") (lit "acknowledged")) with false. by rewrite str_eqb_refl, Hdec, H1, str_eqb_refl.
  - rewrite Hr. change (str_eqb (lit "acknowledged") (lit "received")) with false. by rewrite str_eqb_refl.
Qed.

Lemma split_content ls : split_on 10 (content_of ls) = map line_of ls ++ [[]].
Proof.
  induction ls as [|l ls IH]; [done|]. unfold content_of. cbn [map concat app].
  rewrite <-app_assoc. cbn [app]. rewrite split_on_app, <-IH; [done|].
  destruct l as [r|]; [apply record_line_text|]. apply not_elem_of_nil.
Qed.

Lemma load_lines ls self : wf_lines ls →
  ∃ n, fold_left load_line (map line_of ls) self = mkJournal (replay (entries self) ls) n.
Proof.
  revert self. induction ls as [|[r|] ls IH]; intros self Hw; cbn [map fold_left].
  - exists (record_count self). by destruct self.
  - inversion Hw as [|? ? H1 H2]; subst. cbn [line_of]. rewrite load_line_record by (by apply H1).
    destruct (IH (mkJournal (apply_record (entries self) r) (record_count self + 1)) H2) as [n ->]. by exists n.
  - inversion Hw; subst. by apply IH.
Qed.

Lemma content_scalar ls : Forall scalar (content_of ls).
Proof.
  unfold content_of. apply Forall_concat, Forall_fmap, Forall_forall. intros l _.
  apply Forall_app. split; [|repeat constructor; unfold scalar; lia].
  destruct l as [r|]; [apply record_line_text|constructor].
Qed.

(** A file of whole lines. *)
Definition file_of (disk : option (list N)) (ls : list (option Record_)) : Prop :=
  default [] disk = as_bytes (content_of ls) ∧ wf_lines ls.

Lemma load_file disk ls : file_of disk ls → ∃ n, load disk = Ok (mkJournal (replay ∅ ls) n).
Proof.
  intros [Hd Hw]. destruct disk as [bytes|]; cbn [load].
  - change (bytes = as_bytes (content_of ls)) in Hd. unfold read_to_string. rewrite Hd, from_utf8_as_bytes by (try lia; apply content_scalar).
    rewrite split_content, fold_left_app. destruct (load_lines ls (mkJournal ∅ 0) Hw) as [n ->]. by exists n.
  - assert (ls = []) as ->; [|by exists 0]. destruct ls as [|l ls]; [done|].
    unfold content_of in Hd. cbn [map concat] in Hd. rewrite !as_bytes_app in Hd.
    apply (f_equal length) in Hd. rewrite !length_app in Hd. cbn in Hd. lia.
Qed.

(** ** Appends and compactions on a file of whole lines *)

(** No append leaves a part of its line. *)
Definition whole (o : AppendOutcome) : Prop :=
  match o with AppendFails (Some (Datatypes.S _)) _ => False | _ => True end.

Lemma content_app ls ls' : content_of (ls ++ ls') = content_of ls ++ content_of ls'.
Proof. unfold content_of. by rewrite map_app, concat_app. Qed.

Lemma file_append disk ls r :
  file_of disk ls → wf_record r → file_of (Some (default [] disk ++ as_bytes (record_line r ++ [10]))) (ls ++ [Some r]).
Proof.
  intros [Hd Hw] Hr. split.
  - change (default [] disk ++ as_bytes (record_line r ++ [10]) = as_bytes (content_of (ls ++ [Some r]))).
    rewrite content_app, Hd, <-as_bytes_app. do 2 f_equal. unfold content_of. cbn [map concat line_of]. by rewrite app_nil_r.
  - apply Forall_app. split; [done|]. apply Forall_singleton. by intros ? [= <-].
Qed.

Lemma journal_append_spec self disk ls r o :
  file_of disk ls → wf_record r → whole o →
  let '(res, disk') := append self disk r o in
  match res with
  | Ok self' => entries self' = entries self ∧ file_of disk' (ls ++ [Some r])
  | Err _ => file_of disk' ls ∨ file_of disk' (ls ++ [Some r])
  end.
Proof.
  intros Hf Hr Ho. unfold append. destruct (record_line_text r) as (_&_&_&->).
  pose proof (file_append disk ls r Hf Hr) as Hf'.
  destruct o as [|[[|n]|] e]; [done| |done|by right].
  left. rewrite take_0, app_nil_r. exact Hf.
Qed.

Definition wf_entry (k : str) (e : JournalEntry) : Prop :=
  wf_record (Received (received e)) ∧ received_key (received e) = k ∧
  ∀ r, entry_response e = Some r → response_type r = lit "response".
Definition wf_entries (es : gmap str JournalEntry) : Prop := map_Forall wf_entry es.

Lemma apply_record_wf es r : wf_entries es → wf_record r → wf_entries (apply_record es r).
Proof.
  intros He Hr. destruct r as [x|x|x]; cbn [apply_record].
  - apply map_Forall_insert_2; [|done]. by split.
  - intros k e Hk. destruct (decide (k = result_key x)) as [->|Hne].
    + rewrite lookup_alter_eq in Hk. destruct (es !! result_key x) as [e'|] eqn:E; [|done]. injection Hk as <-.
      destruct (He _ _ E) as (H1&H2&H3). split; [done|]. split; [done|]. cbn. intros ? [= <-]. apply Hr.
    + rewrite lookup_alter_ne in Hk by done. by apply He.
  - by apply map_Forall_delete.
Qed.

Lemma replay_wf es ls : wf_entries es → wf_lines ls → wf_entries (replay es ls).
Proof.
  revert es. induction ls as [|[r|] ls IH]; intros es He Hw; [done| |]; inversion Hw as [|? ? H1 H2]; subst; cbn.
  - apply IH; [|done]. apply apply_record_wf; [done|]. by apply H1.
  - by apply IH.
Qed.

Lemma replay_app es ls ls' : replay es (ls ++ ls') = replay (replay es ls) ls'.
Proof. apply fold_left_app. Qed.

(** The records of an entry restore it. *)
Lemma replay_entry es now k e :
  wf_entry k e → replay es (map Some (entry_records now (k, e))) = <[k := e]> es.
Proof.
  destruct e as [x [r|]]; intros (_&<-&_); unfold entry_records; cbn; [|done].
  by rewrite alter_insert_eq.
Qed.

Lemma replay_compacted now l es :
  NoDup (l.*1) → (∀ k e, (k, e) ∈ l → wf_entry k e) →
  replay es (map Some (concat (map (entry_records now) l))) = list_to_map l ∪ es.
Proof.
  revert es. induction l as [|[k e] l IH]; intros es Hn Hw; [symmetry; apply map_empty_union|].
  cbn [map concat]. rewrite map_app, replay_app, replay_entry by (apply Hw; left).
  apply NoDup_cons in Hn as [Hk Hn]. rewrite IH; [|done|intros; apply Hw; by right].
  change (list_to_map ((k, e) :: l)) with (<[k := e]> (list_to_map l : gmap str JournalEntry)).
  rewrite <-insert_union_l, insert_union_r; [done|]. by apply not_elem_of_list_to_map_1.
Qed.

Hypothesis iteration_ok : ∀ m, iteration m ≡ₚ map_to_list m.

Lemma iteration_entries es : wf_entries es →
  NoDup ((iteration es).*1) ∧ list_to_map (iteration es) = es ∧ ∀ k e, (k, e) ∈ iteration es → wf_entry k e.
Proof.
  intros He. assert (NoDup ((iteration es).*1)) as Hn.
  { rewrite iteration_ok. apply NoDup_fst_map_to_list. }
  split; [done|]. split.
  - rewrite (list_to_map_proper _ _ Hn (iteration_ok es)). apply list_to_map_to_list.
  - intros k e Hin. rewrite iteration_ok in Hin. apply elem_of_map_to_list in Hin. by apply He.
Qed.

Lemma join_content (rs : list Record_) :
  join [10] (map record_line rs) ++ [10] = content_of (match rs with [] => [None] | _ => map Some rs end).
Proof.
  destruct rs as [|r rs]; [done|]. revert r. induction rs as [|r' rs IH]; intros r.
  - unfold content_of. cbn. by rewrite app_nil_r.
  - change (join [10] (map record_line (r :: r' :: rs))) with
      (record_line r ++ [10] ++ join [10] (map record_line (r' :: rs))).
    rewrite <-!app_assoc, IH. unfold content_of. cbn [map concat line_of]. by rewrite <-!app_assoc.
Qed.

Lemma compact_spec self disk ls now o :
  wf_entries (entries self) → file_of disk ls →
  let '(res, disk') := compact self disk now o in
  (∀ self', res = Ok self' → entries self' = entries self) ∧
  ∃ ls', file_of disk' ls' ∧ (ls' = ls ∨ replay ∅ ls' = entries self).
Proof.
  intros He Hf. destruct (iteration_entries _ He) as (Hn&Hm&Hw). unfold compact.
  set (rs := compact_records self now).
  set (ls' := match rs with [] => [None] | _ => map Some rs end).
  assert (file_of (Some (as_bytes (join [10] (map record_line rs) ++ [10]))) ls' ∧ replay ∅ ls' = entries self) as [Hf' Hr'].
  { split.
    - split; [by rewrite join_content|]. unfold ls'. apply Forall_forall. intros l Hl r ->.
      assert (r ∈ rs) as Hin.
      { destruct rs as [|r0 rs0]; [by apply list_elem_of_singleton in Hl|].
        change (map Some (r0 :: rs0)) with (Some <$> r0 :: rs0) in Hl. by apply list_elem_of_fmap in Hl as (?&[= <-]&?). }
      unfold rs, compact_records in Hin. apply list_elem_of_In, in_concat in Hin as (l&Hl'%in_map_iff&Hr%list_elem_of_In).
      destruct Hl' as ([k e]&<-&Hke%list_elem_of_In). destruct (Hw _ _ Hke) as (H1&H2&H3). unfold entry_records in Hr.
      apply elem_of_cons in Hr as [->|Hr]; [done|]. cbn in Hr. destruct (entry_response e) as [x|]; [|by inversion Hr].
      apply list_elem_of_singleton in Hr as ->. split; [done|]. split; [done|]. by apply H3.
    - assert (replay ∅ ls' = replay ∅ (map Some rs)) as -> by (unfold ls'; by destruct rs).
      unfold rs, compact_records. rewrite replay_compacted, map_union_empty by done. done. }
  destruct o as [|[] e]; split; try (by intros ? [= <-]); eauto.
Qed.

(** The summary counts the entries, those without a response apart. *)
Lemma summary_counts l t w o :
  (fold_left summary_step l (t, w, o)).1 = (t + len l, w + len (filter (λ e, entry_response e = None) l)).
Proof.
  revert t w o. induction l as [|e l IH]; intros t w o; cbn [fold_left].
  - change (len (filter _ _)) with 0. unfold len. cbn [fst length]. f_equal; lia.
  - unfold summary_step at 2. destruct (entry_response e) as [r|] eqn:E.
    + rewrite filter_cons_False by (by rewrite E). destruct (is_empty _); rewrite IH; unfold len; cbn [length]; f_equal; lia.
    + rewrite filter_cons_True by done. destruct (is_empty _); rewrite IH; unfold len; cbn [length]; f_equal; lia.
Qed.

Lemma pending_summary_counts self :
  total (pending_summary self) = N.of_nat (size (entries self)) ∧
  without_result (pending_summary self) = len (filter (λ e, entry_response e = None) ((iteration (entries self)).*2)).
Proof.
  unfold pending_summary. pose proof (summary_counts ((iteration (entries self)).*2) 0 0 None) as H.
  destruct (fold_left _ _ _) as [[t w] o]. injection H as -> ->. cbn [total without_result].
  split; [|lia]. unfold len. rewrite length_fmap, (Permutation_length (iteration_ok _)), length_map_to_list. lia.
Qed.

(** ** A table of commands

    What the journal promises: a table of the commands dispatched and not acknowledged
    since, each with its response once it was sent, that no crash forgets. *)

Abbreviation Table := (gmap (str * str) (option Response)).

Inductive table_step (g : Table) : Event → Table → Prop :=
| table_dispatch c i : g !! (c, i) = None → table_step g (Dispatched c i) (<[(c, i) := None]> g)
| table_replay c i r : (∀ r', g !! (c, i) = Some (Some r') → r' = r) → table_step g (Replayed c i r) g
| table_uncertain c i : (∀ r, g !! (c, i) ≠ Some (Some r)) → table_step g (Uncertain c i) g
| table_refuse c i : g !! (c, i) = None → table_step g (Refused c i) g
| table_not_owner c i : table_step g (NotOwner c i) g
| table_answer c i r : table_step g (Answered c i r) (alter (λ _, Some r) (c, i) g)
| table_fail c i : table_step g (Failed c i) (alter (λ _, None) (c, i) g)
| table_ack c i : table_step g (Acked c i) (delete (c, i) g).

Inductive table_run : Table → list Event → Table → Prop :=
| table_nil g : table_run g [] g
| table_cons g e g' es g'' : table_step g e g' → table_run g' es g'' → table_run g (e :: es) g''.

Lemma table_run_app g es g' es' g'' : table_run g es g' → table_run g' es' g'' → table_run g (es ++ es') g''.
Proof. induction 1; cbn [app]; [done|]. intros. econstructor; eauto. Qed.

Lemma table_one g e g' : table_step g e g' → table_run g [e] g'.
Proof. intros. econstructor; [done|constructor]. Qed.

Lemma key_inj c i c' i' :
  create_command_idempotency_key c i = create_command_idempotency_key c' i' → (c, i) = (c', i').
Proof.
  unfold create_command_idempotency_key. destruct (pair_written c i) as [k Hk], (pair_written c' i') as [k' Hk'].
  rewrite Hk, Hk'. intros <-. by destruct (pair_key _ _ _ _ _ Hk Hk') as [-> ->].
Qed.

(** The entries remember the table. *)
Definition agrees (v : option Response) (x : option JournalEntry) : Prop :=
  ∃ e, x = Some e ∧ ∀ r, v = Some r → entry_response e = Some r.
Definition remembers (g : Table) (es : gmap str JournalEntry) : Prop :=
  ∀ c i v, g !! (c, i) = Some v → agrees v (es !! create_command_idempotency_key c i).

Lemma remembers_insert g es c i x :
  remembers g es → remembers (<[(c, i) := None]> g) (<[create_command_idempotency_key c i := mkEntry x None]> es).
Proof.
  intros H c' i' v. destruct (decide ((c', i') = (c, i))) as [[= -> ->]|Hne].
  - rewrite !lookup_insert_eq. intros [= <-]. by eexists.
  - rewrite !lookup_insert_ne; [by apply H| |done]. intros Heq%key_inj. congruence.
Qed.

Lemma remembers_delete g es c i :
  remembers g es → remembers (delete (c, i) g) (delete (create_command_idempotency_key c i) es).
Proof.
  intros H c' i' v. destruct (decide ((c', i') = (c, i))) as [[= -> ->]|Hne]; [by rewrite lookup_delete_eq|].
  rewrite !lookup_delete_ne; [by apply H| |done]. intros Heq%key_inj. congruence.
Qed.

Lemma remembers_weaken g g' es :
  remembers g es → (∀ k v, g' !! k = Some v → g !! k = Some v ∨ v = None ∧ is_Some (g !! k)) → remembers g' es.
Proof.
  intros H Hg c i v Hv. destruct (Hg _ _ Hv) as [Hv'|[-> [w Hw]]]; [by apply H|].
  destruct (H _ _ _ Hw) as (e&He&_). by exists e.
Qed.

Lemma remembers_delete_l g es c i : remembers g es → remembers (delete (c, i) g) es.
Proof. intros H. eapply remembers_weaken; [done|]. intros k v [_ Hk]%lookup_delete_Some. by left. Qed.

Lemma remembers_fail g es c i : remembers g es → remembers (alter (λ _, None) (c, i) g) es.
Proof.
  intros H. eapply remembers_weaken; [done|]. intros k v Hk. destruct (decide (k = (c, i))) as [->|Hne].
  - rewrite lookup_alter_eq in Hk. destruct (g !! (c, i)); [|done]. injection Hk as <-. right. split; [done|]. by eexists.
  - left. by rewrite lookup_alter_ne in Hk.
Qed.

Lemma remembers_answer g es c i r :
  remembers g es →
  remembers (alter (λ _, Some r) (c, i) g)
    (alter (λ e, mkEntry (received e) (Some r)) (create_command_idempotency_key c i) es).
Proof.
  intros H c' i' v. destruct (decide ((c', i') = (c, i))) as [[= -> ->]|Hne].
  - rewrite !lookup_alter_eq. destruct (g !! (c, i)) as [w|] eqn:E; [|done]. intros [= <-].
    destruct (H _ _ _ E) as (e&->&_). eexists. split; [done|]. by intros ? [= <-].
  - rewrite !lookup_alter_ne; [by apply H| |done]. intros Heq%key_inj. congruence.
Qed.

(** Less is claimed of a response that could not be recorded. *)
Lemma fail_answer (g : Table) c i r k v :
  alter (λ _, None) (c, i) g !! k = Some v →
  alter (λ _, Some r) (c, i) g !! k = Some v ∨ v = None ∧ is_Some (alter (λ _, Some r) (c, i) g !! k).
Proof.
  intros Hv. destruct (decide (k = (c, i))) as [->|Hne].
  - rewrite lookup_alter_eq in *. destruct (g !! (c, i)); [|done]. injection Hv as <-. right. split; [done|]. by eexists.
  - left. by rewrite lookup_alter_ne in *.
Qed.

(** A result whose record did or did not arrive. *)
Lemma remembers_failed_result g es c i r x :
  remembers g es → result_key x = create_command_idempotency_key c i → response x = r →
  remembers (alter (λ _, None) (c, i) g) (apply_record es (Result x)).
Proof.
  intros H Hk <-. cbn [apply_record]. rewrite Hk. pose proof (remembers_answer g es c i (response x) H) as H'.
  apply (remembers_weaken _ _ _ H'), fail_answer.
Qed.

(** The state of the supervisor and the table. *)
Definition tracks (g : Table) (s : Supervisor) : Prop :=
  (∃ ls, file_of (disk s) ls ∧ remembers g (replay ∅ ls)) ∧
  ∀ self, journal s = Some self → wf_entries (entries self) ∧ remembers g (entries self).

Lemma compacted_tracks g self disk0 now o sent :
  wf_entries (entries self) → remembers g (entries self) →
  (∃ ls, file_of disk0 ls ∧ remembers g (replay ∅ ls)) →
  let '(_, self', disk') := compacted self disk0 now o in tracks g (mkSupervisor disk' (Some self') sent).
Proof.
  intros Hw Hg (ls&Hf&Hr). unfold compacted. pose proof (compact_spec self disk0 ls now o Hw Hf) as Hc.
  destruct (compact self disk0 now o) as [[self'|e] disk']; destruct Hc as (Hs&ls'&Hf'&Hls);
    (split; [exists ls'; split; [done|]; destruct Hls as [->| ->]; done|]); intros ? [= <-]; [|done].
  by rewrite (Hs _ eq_refl).
Qed.

Lemma remembers_insert_other g es c i x :
  g !! (c, i) = None → remembers g es → remembers g (<[create_command_idempotency_key c i := x]> es).
Proof.
  intros Hn H c' i' v Hv. rewrite lookup_insert_ne; [by apply H|]. intros Heq%key_inj. congruence.
Qed.

Lemma replay_snoc ls r : replay ∅ (ls ++ [Some r]) = apply_record (replay ∅ ls) r.
Proof. by rewrite replay_app. Qed.

Lemma request_tracks g s self owned c i kind now o :
  tracks g s → journal s = Some self → whole o → c ≠ [] → i ≠ [] → kind ≠ [] →
  let '(s', es) := request s self owned c i kind now o in ∃ g', table_run g es g' ∧ tracks g' s'.
Proof.
  intros Ht Hj Ho Hc Hi Hk. unfold request. destruct owned; cbn [negb]; [|by exists g; split; [apply table_one; constructor|]].
  destruct Ht as [(ls&Hf&Hr) Hmem]. destruct (Hmem self Hj) as [Hw Hg]. unfold begin, lookup_command.
  destruct (entries self !! create_command_idempotency_key c i) as [e|] eqn:E.
  { assert (∀ r, g !! (c, i) = Some (Some r) → entry_response e = Some r) as He.
    { intros r Hgr. destruct (Hg _ _ _ Hgr) as (e'&He'&H'). rewrite E in He'. injection He' as <-. auto. }
    destruct (entry_response e) as [r|]; exists g.
    - split; [apply table_one; constructor; intros r' Hr'; by specialize (He _ Hr') as [= <-]|].
      split; [by exists ls|]. by intros ? [= <-].
    - split; [apply table_one; constructor; intros r' Hr'; by specialize (He _ Hr')|].
      split; [by exists ls|]. by intros ? [= <-]. }
  assert (g !! (c, i) = None) as Hn.
  { destruct (g !! (c, i)) as [v|] eqn:Ev; [|done]. destruct (Hg _ _ _ Ev) as (e&He&_). congruence. }
  set (r := mkReceived 1 (lit "received") (create_command_idempotency_key c i) c i kind now).
  assert (wf_record (Received (Response := Response) r)) as Hwr by done.
  pose proof (journal_append_spec self (disk s) ls _ o Hf Hwr Ho) as Ha.
  destruct (append self (disk s) (Received r) o) as [[self'|e] disk'].
  - destruct Ha as [Hs Hf']. exists (<[(c, i) := None]> g). split; [apply table_one; by constructor|]. split.
    + exists (ls ++ [Some (Received r)]). split; [done|]. rewrite replay_snoc. by apply remembers_insert.
    + intros ? [= <-]. cbn [entries]. rewrite Hs. split; [by apply map_Forall_insert_2|]. by apply remembers_insert.
  - exists g. split; [apply table_one; by constructor|]. split; [|by intros ? [= <-]].
    destruct Ha as [Hf'|Hf']; [by exists ls|]. exists (ls ++ [Some (Received r)]). split; [done|].
    rewrite replay_snoc. by apply remembers_insert_other.
Qed.

Lemma respond_tracks g s self owned c i resp now o cc :
  tracks g s → journal s = Some self → whole o → (∀ r, resp = Some r → response_type r = lit "response") →
  let '(s', es) := respond s self owned c i resp now o cc in ∃ g', table_run g es g' ∧ tracks g' s'.
Proof.
  intros Ht Hj Ho Hresp. unfold respond. destruct resp as [r|]; [|exists g; by split; [constructor|]].
  assert (∀ s0, tracks g s0 → tracks (alter (λ _, None) (c, i) g) s0) as Hweak.
  { intros s0 [(ls&?&?) Hm]. split; [exists ls; split; [done|]; by apply remembers_fail|].
    intros self' Hs'. destruct (Hm self' Hs'). split; [done|]. by apply remembers_fail. }
  destruct owned; cbn [negb]; [|eexists; split; [apply table_one, table_fail|]; by apply Hweak].
  destruct Ht as [(ls&Hf&Hr) Hmem]. destruct (Hmem self Hj) as [Hw Hg]. unfold record_result.
  destruct (entries self !! create_command_idempotency_key c i) as [e|] eqn:E.
  2:{ eexists. split; [apply table_one, table_fail|]. apply Hweak. split; [by exists ls|]. by intros ? [= <-]. }
  set (x := mkResult 1 (lit "result") (create_command_idempotency_key c i) r now).
  assert (wf_record (Result x)) as Hwx by (split; [done|]; split; [done|]; by apply Hresp).
  pose proof (journal_append_spec self (disk s) ls _ o Hf Hwx Ho) as Ha.
  destruct (append self (disk s) (Result x) o) as [[self'|e'] disk'].
  - destruct Ha as [Hs Hf']. set (self2 := mkJournal _ _).
    assert (wf_entries (entries self2)) as Hw2.
    { cbn [self2 entries]. rewrite Hs. by apply (apply_record_wf _ (Result x)). }
    assert (remembers (alter (λ _, Some r) (c, i) g) (entries self2)) as Hg2.
    { cbn [self2 entries]. rewrite Hs. by apply remembers_answer. }
    assert (∃ ls', file_of disk' ls' ∧ remembers (alter (λ _, Some r) (c, i) g) (replay ∅ ls')) as Hfile.
    { exists (ls ++ [Some (Result x)]). split; [done|]. rewrite replay_snoc. by apply remembers_answer. }
    destruct (COMPACT_AFTER_RECORDS <=? record_count self2).
    + pose proof (compacted_tracks _ self2 disk' now cc (dispatched s) Hw2 Hg2 Hfile) as Hct.
      destruct (compacted self2 disk' now cc) as [[[[]|e'] self3] disk3];
        (eexists; split; [apply table_one; constructor|]); [done|].
      destruct Hct as [(ls3&?&H3) Hm3]. split.
      * exists ls3. split; [done|]. apply (remembers_weaken _ _ _ H3). apply fail_answer.
      * intros self4 H4. destruct (Hm3 self4 H4) as [? H5]. split; [done|]. apply (remembers_weaken _ _ _ H5), fail_answer.
    + eexists. split; [apply table_one; constructor|]. split; [done|]. by intros ? [= <-].
  - eexists. split; [apply table_one, table_fail|]. split.
    + destruct Ha as [Hf'|Hf']; [exists ls; split; [done|]; by apply remembers_fail|].
      exists (ls ++ [Some (Result x)]). split; [done|]. rewrite replay_snoc. by eapply remembers_failed_result.
    + intros ? [= <-]. split; [done|]. by apply remembers_fail.
Qed.

Lemma ack_tracks g s self c i now o cc :
  tracks g s → journal s = Some self → whole o →
  let '(_, self', d) := acknowledge self (disk s) c i now o cc in
  tracks (delete (c, i) g) (mkSupervisor d (Some self') (dispatched s)).
Proof.
  intros [(ls&Hf&Hr) Hmem] Hj Ho. destruct (Hmem self Hj) as [Hw Hg]. unfold acknowledge.
  destruct (entries self !! create_command_idempotency_key c i) as [e|] eqn:E.
  2:{ split; [exists ls; split; [done|]; by apply remembers_delete_l|]. intros ? [= <-]. split; [done|].
      by apply remembers_delete_l. }
  set (x := mkAcknowledged 1 (lit "acknowledged") (create_command_idempotency_key c i) now).
  pose proof (journal_append_spec self (disk s) ls (Acknowledged x) o Hf (conj eq_refl eq_refl) Ho) as Ha.
  destruct (append self (disk s) (Acknowledged x) o) as [[self'|e'] disk'].
  - destruct Ha as [Hs Hf']. set (self2 := mkJournal _ _).
    assert (wf_entries (entries self2)) as Hw2 by (cbn [self2 entries]; rewrite Hs; by apply map_Forall_delete).
    assert (remembers (delete (c, i) g) (entries self2)) as Hg2
      by (cbn [self2 entries]; rewrite Hs; by apply remembers_delete).
    assert (∃ ls', file_of disk' ls' ∧ remembers (delete (c, i) g) (replay ∅ ls')) as Hfile.
    { exists (ls ++ [Some (Acknowledged x)]). split; [done|]. rewrite replay_snoc. by apply remembers_delete. }
    destruct (_ || _); [|split; [done|]; by intros ? [= <-]].
    by apply compacted_tracks.
  - split; [|intros ? [= <-]; split; [done|]; by apply remembers_delete_l].
    destruct Ha as [Hf'|Hf']; [exists ls; split; [done|]; by apply remembers_delete_l|].
    exists (ls ++ [Some (Acknowledged x)]). split; [done|]. rewrite replay_snoc. by apply remembers_delete.
Qed.

(** The commands are named, the responses are responses, and no append is torn. *)
Definition sound (a : Action) : Prop :=
  match a with
  | Request _ client id kind _ o => whole o ∧ client ≠ [] ∧ id ≠ [] ∧ kind ≠ []
  | Respond _ _ _ response _ o _ => whole o ∧ ∀ r, response = Some r → response_type r = lit "response"
  | Ack _ _ _ o _ => whole o
  | Crash | Start => True
  end.

Lemma step_tracks g s a :
  tracks g s → sound a → let '(s', es) := step s a in ∃ g', table_run g es g' ∧ tracks g' s'.
Proof.
  intros Ht Ha. assert (∃ g', table_run g [] g' ∧ tracks g' s) as Hskip by (exists g; by split; [constructor|]).
  unfold step. destruct (journal s) as [self|] eqn:Hj, a; try done; cbn [sound] in Ha.
  - destruct Ha as (Ho&Hc&Hi&Hk). by apply request_tracks.
  - destruct Ha as [Ho Hr]. destruct (remove_one _ _) as [rest|]; [|done].
    apply respond_tracks; [|done|done|done]. destruct Ht as [Hf Hm]. split; [done|]. intros ? [= <-]. by apply Hm.
  - pose proof (ack_tracks g s self client id now o c Ht Hj Ha) as Hack.
    destruct (acknowledge _ _ _ _ _ _ _) as [[? self'] d]. eexists. split; [apply table_one; constructor|done].
  - exists g. split; [constructor|]. destruct Ht as [Hf _]. by split.
  - destruct Ht as [(ls&Hf&Hr) _]. destruct (load_file _ _ Hf) as [n ->]. exists g. split; [constructor|].
    split; [by exists ls|]. intros ? [= <-]. split; [|done]. cbn [entries]. apply replay_wf; [|apply Hf].
    apply map_Forall_empty.
Qed.

Lemma journal_run_tracks acts : ∀ g s, tracks g s → Forall sound acts →
  let '(s', es) := run s acts in ∃ g', table_run g es g' ∧ tracks g' s'.
Proof.
  induction acts as [|a acts IH]; intros g s Ht Ha; cbn [run]; [exists g; by split; [constructor|]|].
  inversion Ha; subst. pose proof (step_tracks g s a Ht ltac:(done)) as Hs. destruct (step s a) as [s1 es1].
  destruct Hs as (g1&Hr1&Ht1). specialize (IH g1 s1 Ht1 ltac:(done)). destruct (run s1 acts) as [s2 es2].
  destruct IH as (g2&Hr2&Ht2). exists g2. split; [by eapply table_run_app|done].
Qed.

(** The events of a run are those of the table. *)
Lemma run_table acts : Forall sound acts → ∃ g, table_run ∅ (run fresh acts).2 g.
Proof.
  intros Ha. pose proof (journal_run_tracks acts ∅ fresh) as H. destruct (run fresh acts) as [s es].
  destruct H as (g&Hg&_); [|done|by exists g]. split; [|done]. exists []. split; [|done]. split; [done|constructor].
Qed.

Lemma table_split g t1 t2 g'' : table_run g (t1 ++ t2) g'' → ∃ g', table_run g t1 g' ∧ table_run g' t2 g''.
Proof.
  revert g. induction t1 as [|e t1 IH]; intros g H; [by exists g; split; [constructor|]|].
  inversion H as [|? ? g1 ? ? Hs Hr]; subst. destruct (IH g1 Hr) as (g'&H1&H2). exists g'. split; [by econstructor|done].
Qed.

(** A command stays in the table until it is acknowledged. *)
Lemma table_keeps g es g' c i :
  table_run g es g' → is_Some (g !! (c, i)) → is_Some (g' !! (c, i)) ∨ Acked c i ∈ es.
Proof.
  induction 1 as [|g e g' es g'' Hs Hr IH]; [by left|]. intros Hin.
  assert (is_Some (g' !! (c, i)) ∨ e = Acked c i) as [H|H].
  { destruct Hs as [c' i'| | | | |c' i' r|c' i'|c' i']; try (by left).
    - destruct (decide ((c', i') = (c, i))) as [->|Hne]; [rewrite lookup_insert_eq; by left; eexists|].
      left. by rewrite lookup_insert_ne.
    - left. by apply lookup_alter_is_Some.
    - left. by apply lookup_alter_is_Some.
    - destruct (decide ((c', i') = (c, i))) as [[= -> ->]|Hne]; [by right|]. left. by rewrite lookup_delete_ne. }
  - destruct (IH H) as [?|?]; [by left|]. right. by right.
  - right. subst. by left.
Qed.

(** C16: A command runs at most once: over every sequence of commands, repetitions, responses,
    acknowledgements, failed writes, crashes and restarts, in every interleaving, a command
    of a client is dispatched a second time only after the client has acknowledged it -
    provided that no append leaves a part of a line in the file and that commands have
    names. *)
Theorem commands_run_once acts c i t1 t2 t3 :
  Forall sound acts → (run fresh acts).2 = t1 ++ Dispatched c i :: t2 ++ Dispatched c i :: t3 → Acked c i ∈ t2.
Proof.
  intros (g&Hg)%run_table Ht. rewrite Ht in Hg. apply table_split in Hg as (g1&_&Hg).
  inversion Hg as [|? ? g2 ? ? Hs1 Hr]; subst. apply table_split in Hr as (g3&Hr2&Hr3).
  inversion Hr3 as [|? ? g4 ? ? Hs2 _]; subst. inversion Hs2; subst.
  assert (is_Some (g2 !! (c, i))) as Hin by (inversion Hs1; subst; rewrite lookup_insert_eq; by eexists).
  destruct (table_keeps _ _ _ _ _ Hr2 Hin) as [[v Hv]|?]; [congruence|done].
Qed.

(** The reply to a request. *)
Definition replies (c i : str) (e : Event) : Prop :=
  match e with
  | Dispatched c' i' | Replayed c' i' _ | Uncertain c' i' | Refused c' i' | NotOwner c' i' => (c', i') = (c, i)
  | _ => False
  end.

(** An event after which another response, or none, is owed. *)
Definition resets (c i : str) (e : Event) : Prop :=
  match e with
  | Answered c' i' _ | Failed c' i' | Acked c' i' => (c', i') = (c, i)
  | _ => False
  end.

Lemma table_same g es g' c i v :
  table_run g es g' → Forall (λ e, ¬ resets c i e) es → g !! (c, i) = Some v → g' !! (c, i) = Some v.
Proof.
  induction 1 as [|g e g' es g'' Hs Hr IH]; [done|]. intros [He Hes]%Forall_cons Hv. apply (IH Hes).
  destruct Hs as [c' i' Hn| | | | |c' i' r|c' i'|c' i']; try done; cbn [resets] in He.
  - rewrite lookup_insert_ne; [done|]. congruence.
  - by rewrite lookup_alter_ne.
  - by rewrite lookup_alter_ne.
  - by rewrite lookup_delete_ne.
Qed.

(** C23: A response that was sent is the response for good: once a dispatched command has been
    answered, every later repetition of it is answered with the same response, across
    crashes, restarts, compactions and failed writes, until the client acknowledges it -
    unless the supervisor is no longer the owner of the session directory and refuses to
    answer at all, and provided that no append leaves a part of a line in the file and that
    commands have names. *)
Theorem responses_replayed acts c i r t1 t2 t3 e t4 :
  Forall sound acts →
  (run fresh acts).2 = t1 ++ Dispatched c i :: t2 ++ Answered c i r :: t3 ++ e :: t4 →
  Acked c i ∉ t2 → Forall (λ e, ¬ resets c i e) t3 → replies c i e → e = Replayed c i r ∨ e = NotOwner c i.
Proof.
  intros (g&Hg)%run_table Ht Hack Ht3 He. rewrite Ht in Hg. apply table_split in Hg as (g1&_&Hg).
  inversion Hg as [|? ? g2 ? ? Hs1 Hr]; subst. apply table_split in Hr as (g3&Hr2&Hr3).
  inversion Hr3 as [|? ? g4 ? ? Hs2 Hr4]; subst. apply table_split in Hr4 as (g5&Hr5&Hr6).
  inversion Hr6 as [|? ? g6 ? ? Hs3 _]; subst.
  assert (is_Some (g2 !! (c, i))) as Hin by (inversion Hs1; subst; rewrite lookup_insert_eq; by eexists).
  destruct (table_keeps _ _ _ _ _ Hr2 Hin) as [[v Hv]|?]; [|done].
  assert (g4 !! (c, i) = Some (Some r)) as Hv4 by (inversion Hs2; subst; by rewrite lookup_alter_eq, Hv).
  pose proof (table_same _ _ _ _ _ _ Hr5 Ht3 Hv4) as Hv5.
  destruct Hs3 as [c' i' Hn|c' i' r' Hr'|c' i' Hn|c' i' Hn|c' i'| | |]; cbn [replies] in He; try done; injection He as -> ->.
  - congruence.
  - left. by rewrite (Hr' _ Hv5).
  - by destruct (Hn r).
  - congruence.
  - by right.
Qed.

End journal.

(** ** An encoding, and runs *)

Section values.
Abbreviation V := (JsonText.Value N).
Abbreviation leaf := (option bool + (N + str))%type.

Fixpoint value_tree (v : V) : gen_tree leaf :=
  match v with
  | JsonText.Null => GenLeaf (inl None)
  | JsonText.Bool b => GenLeaf (inl (Some b))
  | JsonText.Number n => GenLeaf (inr (inl n))
  | JsonText.String s => GenLeaf (inr (inr s))
  | JsonText.Array l => GenNode 0 (map value_tree l)
  | JsonText.Object m => GenNode 1 (map (λ kv, GenNode 2 [GenLeaf (inr (inr kv.1)); value_tree kv.2]) m)
  end.

Fixpoint tree_value (t : gen_tree leaf) : V :=
  match t with
  | GenLeaf (inl None) => JsonText.Null
  | GenLeaf (inl (Some b)) => JsonText.Bool b
  | GenLeaf (inr (inl n)) => JsonText.Number n
  | GenLeaf (inr (inr s)) => JsonText.String s
  | GenNode 0 l => JsonText.Array (map tree_value l)
  | GenNode _ l =>
      JsonText.Object (map (λ t, match t with
                                 | GenNode _ [GenLeaf (inr (inr k)); v] => (k, tree_value v)
                                 | _ => ([], JsonText.Null)
                                 end) l)
  end.

Lemma tree_value_tree : ∀ v, tree_value (value_tree v) = v.
Proof.
  fix IH 1. intros [|b|n|s|l|m]; [done|done|done|done| |]; cbn [value_tree tree_value].
  - f_equal. rewrite map_map. induction l as [|v l IHl]; [done|]. cbn [map]. by rewrite IH, IHl.
  - f_equal. rewrite map_map. induction m as [|[k v] m IHm]; [done|]. cbn [map fst snd]. by rewrite IH, IHm.
Qed.

#[local] Instance value_eq_dec : EqDecision V.
Proof. refine (λ v w, cast_if (decide (value_tree v = value_tree w))); [|congruence].
  by rewrite <-(tree_value_tree v), <-(tree_value_tree w), e. Defined.
#[local] Instance value_countable : Countable V := inj_countable' value_tree tree_value tree_value_tree.

(** Digits of a positive number, the lowest first. *)
Fixpoint digits (p : positive) : str :=
  match p with xH => [50] | xO p => 48 :: digits p | xI p => 49 :: digits p end.
Fixpoint undigits (s : str) : option positive :=
  match s with
  | [] => None
  | c :: s => if c =? 50 then Some xH else p ← undigits s; Some (if c =? 48 then xO p else xI p)
  end.
Lemma undigits_digits p : undigits (digits p) = Some p.
Proof. induction p as [p IH|p IH|]; cbn [digits undigits]; [by rewrite IH|by rewrite IH|done]. Qed.
Lemma digits_line p : digits p ≠ [] ∧ 10 ∉ digits p ∧ Forall scalar (digits p).
Proof.
  induction p as [p (_&H1&H2)|p (_&H1&H2)|]; cbn [digits]; (split; [done|]); rewrite ?not_elem_of_cons;
    (split; [done || (split; [done|apply not_elem_of_nil])|]); constructor; try done; unfold scalar; lia.
Qed.

Abbreviation R := (DaemonResponse N ()).
Definition response_value (r : R) : V :=
  JsonText.Array [opt_value JsonText.String (response_id _ _ r); JsonText.String (response_type r);
    JsonText.String (response_command _ _ r); JsonText.Bool (success _ _ r); opt_value id (response_data _ _ r);
    opt_value JsonText.String (response_error _ _ r); opt_value (λ _, JsonText.Null) (error_info _ _ r)].

Definition value_response (v : V) : option R :=
  match v with
  | JsonText.Array [i; JsonText.String t; JsonText.String c; JsonText.Bool b; d; e; x] =>
      i ← value_opt value_str i; d ← value_opt Some d; e ← value_opt value_str e; x ← value_opt (λ _, Some ()) x;
      Some (mkResponse i t c b d e x)
  | _ => None
  end.

Lemma value_response_value r : value_response (response_value r) = Some r.
Proof. by destruct r as [[] ? ? ? [] [] [[]|]]. Qed.

Definition sample_record_value (r : JournalRecord R) : V :=
  JsonText.Object ([(lit "version", JsonText.Number (version r)); (lit "key", JsonText.String (key r));
    (lit "type", JsonText.String (type_ r))] ++
    match r with
    | Received x => [(lit "clientId", JsonText.String (client_id x)); (lit "commandId", JsonText.String (command_id x));
        (lit "commandType", JsonText.String (command_type x)); (lit "recordedAt", JsonText.String (received_at x))]
    | Result x => [(lit "response", response_value (response x)); (lit "recordedAt", JsonText.String (result_at _ x))]
    | Acknowledged x => [(lit "recordedAt", JsonText.String (acknowledged_at x))]
    end).
Definition sample_received (v : V) : option ReceivedRecord :=
  match v with
  | JsonText.Object [(_, JsonText.Number n); (_, JsonText.String k); (_, JsonText.String t); (_, JsonText.String c);
      (_, JsonText.String i); (_, JsonText.String ty); (_, JsonText.String at_)] => Some (mkReceived n t k c i ty at_)
  | _ => None
  end.
Definition sample_result (v : V) : option (ResultRecord R) :=
  match v with
  | JsonText.Object [(_, JsonText.Number n); (_, JsonText.String k); (_, JsonText.String t); (_, r);
      (_, JsonText.String at_)] => r ← value_response r; Some (mkResult n t k r at_)
  | _ => None
  end.

Definition encode_text {B} `{Countable B} (b : B) : str := digits (encode b).
Definition decode_text {B} `{Countable B} (s : str) : result B str := or_error (p ← undigits s; decode p).
Lemma decode_encode_text {B} `{Countable B} (b : B) : decode_text (encode_text b) = Ok b.
Proof. unfold decode_text, encode_text. rewrite undigits_digits. cbn. by rewrite decode_encode. Qed.

Lemma sample_record_written (r : JournalRecord R) : ∃ fields t, let v := JsonText.Object fields in
  Ok (E := str) (sample_record_value r) = Ok v ∧ Ok (E := str) (encode_text v) = Ok t ∧ decode_text t = Ok v ∧
  t ≠ [] ∧ 10 ∉ t ∧ Forall scalar t ∧
  (∃ n, get v (lit "version") = Some (JsonText.Number n) ∧ Some n = Some (version r)) ∧
  get v (lit "key") = Some (JsonText.String (key r)) ∧
  get v (lit "type") = Some (JsonText.String (type_ r)) ∧
  match r with
  | Received x => or_error (sample_received v) = Ok x
  | Result x => or_error (sample_result v) = Ok x
  | Acknowledged _ => True
  end.
Proof.
  eexists _, _. split; [reflexivity|]. split; [reflexivity|]. split; [apply decode_encode_text|].
  destruct (digits_line (encode (sample_record_value r))) as (H1&H2&H3).
  split; [exact H1|]. split; [exact H2|]. split; [exact H3|]. split; [by eexists|]. split; [done|]. split; [done|].
  destruct r as [[]|x|]; [done| |done]. cbn -[response_value value_response]. rewrite value_response_value. by destruct x.
Qed.

Lemma encode_text_inj {B} `{Countable B} (b b' : B) k :
  Ok (E := str) (encode_text b) = Ok k → Ok (E := str) (encode_text b') = Ok k → b = b'.
Proof. intros [= <-] [= Heq]. pose proof (decode_encode_text b) as H1. rewrite <-Heq, decode_encode_text in H1. by injection H1. Qed.

Definition sample_journal_serde : JournalSerde N := {|
  DaemonErrorInfo := ();
  as_u64 := Some;
  to_string v := Ok (encode_text v);
  value_from_str := decode_text;
  pair_to_string c i := Ok (encode_text (c, i));
  record_to_value r := Ok (sample_record_value r);
  received_from_value v := or_error (sample_received v);
  result_from_value v := or_error (sample_result v);
  record_written := sample_record_written;
  pair_key c i c' i' k H H' :=
    let Heq := encode_text_inj (c, i) (c', i') k H H' in conj (f_equal fst Heq) (f_equal snd Heq);
  pair_written c i := ex_intro _ (encode_text (c, i)) eq_refl |}.

#[local] Existing Instance sample_journal_serde.
Definition in_order (m : gmap str (JournalEntry (Num := N))) : list (str * JournalEntry) := map_to_list m.
Abbreviation sample_run := (run in_order fresh).

Definition sample_ask (o : AppendOutcome) (id : str) : Action :=
  Request true (lit "cli") id (lit "prompt") (lit "now") o.
Definition sample_response : R := mkResponse (Some (lit "1")) (lit "response") (lit "prompt") true None None None.
Definition sample_answer (id : str) (c : CompactOutcome) : Action :=
  Respond true (lit "cli") id (Some sample_response) (lit "now") Appended c.
Definition sample_ack (id : str) (o : AppendOutcome) (c : CompactOutcome) : Action :=
  Ack (lit "cli") id (lit "now") o c.

Lemma in_order_ok m : in_order m ≡ₚ map_to_list m.
Proof. done. Qed.

Lemma ask_sound o id : whole o → id ≠ [] → sound (sample_ask o id).
Proof. by split. Qed.
Lemma answer_sound id c : sound (sample_answer id c).
Proof. split; [done|]. by intros r [= <-]. Qed.
Ltac all_sound :=
  repeat first [apply Forall_nil_2|apply Forall_cons_2];
  first [exact I|apply answer_sound|apply ask_sound; [exact I|discriminate]].

Lemma commands_run_once_witness :
  let acts := [Start; sample_ask (AppendFails (Some 0%nat) (lit "disk full")) (lit "1"); sample_ask Appended (lit "1");
    Crash; Start; sample_ask Appended (lit "1"); sample_ack (lit "1") Appended (CompactFails true (lit "fsync"));
    sample_ask Appended (lit "1")] in
  (sample_run acts).2 = [Refused (lit "cli") (lit "1"); Dispatched (lit "cli") (lit "1"); Uncertain (lit "cli") (lit "1");
    Acked (lit "cli") (lit "1"); Dispatched (lit "cli") (lit "1")] ∧
  Acked (lit "cli") (lit "1") ∈ [Uncertain (lit "cli") (lit "1"); Acked (lit "cli") (lit "1")].
Proof.
  intros acts. assert ((sample_run acts).2 = [Refused (lit "cli") (lit "1"); Dispatched (lit "cli") (lit "1");
    Uncertain (lit "cli") (lit "1"); Acked (lit "cli") (lit "1"); Dispatched (lit "cli") (lit "1")]) as Ht
    by (vm_compute; reflexivity).
  split; [exact Ht|].
  apply (commands_run_once in_order in_order_ok acts _ _ [Refused (lit "cli") (lit "1")] _ []); [|exact Ht].
  all_sound.
Defined.

Lemma responses_replayed_witness :
  let acts := [Start; sample_ask Appended (lit "1"); sample_answer (lit "1") Compacted; sample_ask Appended (lit "2");
    Crash; Start; sample_ask (AppendFails None (lit "disk full")) (lit "1")] in
  (sample_run acts).2 = [Dispatched (lit "cli") (lit "1"); Answered (lit "cli") (lit "1") sample_response;
    Dispatched (lit "cli") (lit "2"); Replayed (lit "cli") (lit "1") sample_response] ∧
  (Replayed (lit "cli") (lit "1") sample_response = Replayed (lit "cli") (lit "1") sample_response ∨
   Replayed (lit "cli") (lit "1") sample_response = NotOwner (lit "cli") (lit "1")).
Proof.
  intros acts. assert ((sample_run acts).2 = [Dispatched (lit "cli") (lit "1");
    Answered (lit "cli") (lit "1") sample_response; Dispatched (lit "cli") (lit "2");
    Replayed (lit "cli") (lit "1") sample_response]) as Ht by (vm_compute; reflexivity).
  split; [exact Ht|].
  refine (responses_replayed in_order in_order_ok acts _ _ _ [] [] [Dispatched (lit "cli") (lit "2")] _ [] _ Ht
    (not_elem_of_nil _) _ eq_refl); [all_sound|]. apply Forall_singleton. exact (λ f, f).
Defined.

(** A torn line takes the next record with it: a command whose receipt follows one is
    dispatched again after a restart. *)
Lemma torn_append_runs_twice :
  (sample_run [Start; sample_ask (AppendFails (Some 5%nat) (lit "disk full")) (lit "1"); sample_ask Appended (lit "2");
    Crash; Start; sample_ask Appended (lit "2")]).2 =
  [Refused (lit "cli") (lit "1"); Dispatched (lit "cli") (lit "2"); Dispatched (lit "cli") (lit "2")].
Proof. vm_compute. reflexivity. Qed.

(** So is a command without a name. *)
Lemma unnamed_command_runs_twice :
  (sample_run [Start; sample_ask Appended []; Crash; Start; sample_ask Appended []]).2 =
  [Dispatched (lit "cli") []; Dispatched (lit "cli") []].
Proof. vm_compute. reflexivity. Qed.

(** A file that ends within a character cannot be loaded at all. *)
Lemma torn_character_stops_start :
  load (Some (as_bytes (lit "{") ++ take 1 (as_bytes [233]))) = Err (lit "stream did not contain valid UTF-8").
Proof. vm_compute. reflexivity. Qed.

End values.
