(* ===== verification/SessionLease.v ===== *)
(** * Session leases

    [pi-coding-agent/src/core/session_lease.rs]: at most one process may have a session
    open.  A lease is a directory with the record of its owner, put in place by renaming a
    candidate; a lease whose owner is dead is moved out of the way.  Both happen under a
    guard, a directory made with [create_dir] that is given up after use and taken over
    when it is older than five seconds.

    The file system and the clock are shared by any number of actors (threads) in any number
    of processes.  Every system call is one step, processes are killed at any point, and the
    steps of the actors are interleaved arbitrarily; one session path is followed.  What a
    call does on failure is a step of its own kind.  A token is a fresh number (the source
    takes random UUIDs), a process is its pid with its start id. *)
From stdpp Require Import base list numbers gmap sets strings.
From S2P Require Import Prelude RustStr.

Local Open Scope N_scope.

Definition LEASE_GUARD_STALE_MS : N := 5000.
Definition LEASE_GUARD_ATTEMPTS : nat := 100.
Definition LEASE_ACQUIRE_ATTEMPTS : nat := 3.
Definition SESSION_LEASE_SWEEP_MIN_AGE_MS : N := 30000.

Record SessionLeaseOwner : Type := mkOwner {
  token : nat;
  pid : nat;
  active_session_id : option str;
  created_at : option N }.   (* [parse_lease_created_at] of it *)

(** [read_lease_owner]: what the owner file of the lease directory is. *)
Inductive LeaseOwnerState : Type :=
| Owner (o : SessionLeaseOwner)
| Absent
| Unreadable
| Corrupt.

(** The lease directory. *)
Inductive Lock : Type :=
| NoLock
| EmptyDir
| Dir (owner : LeaseOwnerState).

Inductive Task : Type :=
| AcquireTask (owner_id : option str)
| ReleaseTask (token : nat)
| SweepTask.

(** Where an actor is in [acquire_session_lease], [SessionLease::release] or
    [sweep_dead_owner_leases] (of this lease).  [g]: [LeaseGuard::acquired_modified]. *)
Inductive Pc : Type :=
| Idle
| Creating (t : Task) (attempt : nat)        (* before [create_dir] of the guard *)
| Waiting (t : Task) (attempt : nat)         (* the guard existed *)
| Evicting (t : Task) (attempt : nat)        (* the guard was stale *)
| Entered (t : Task)                         (* the guard was created *)
| Renaming (id : option str) (k : nat) (g : option N)
| Reading (id : option str) (k : nat) (g : option N)
| Checking (id : option str) (k : nat) (o : SessionLeaseOwner) (g : option N)
| Reclaiming (id : option str) (k : nat) (g : option N)
| LastReading (g : option N)                 (* the attempts to acquire are used up *)
| LastChecking (o : SessionLeaseOwner) (g : option N)
| ReleaseReading (t : nat) (g : option N)
| ReleaseReclaiming (t : nat) (g : option N)
| SweepReading (g : option N)
| SweepChecking (o : SessionLeaseOwner) (g : option N)
| SweepReclaiming (g : option N)
| Leaving (g : option N)                     (* the action is done *)
| Unguarding.                                (* the guard was not compromised *)

Inductive Outcome : Type :=
| NoOutcome
| Acquired
| AlreadyActive (active_session_id : option str)
| Other.

Record Actor : Type := mkActor { proc : nat; pc : Pc; lease : option nat; outcome : Outcome }.

Record State : Type := mkState {
  time : N;
  guard : option N;            (* its modification time *)
  lock : Lock;
  next_token : nat;
  dead : gset nat;
  actors : gmap nat Actor }.

Definition set_actor (s : State) (a : nat) (x : Actor) : State :=
  mkState (time s) (guard s) (lock s) (next_token s) (dead s) (<[a := x]> (actors s)).
Definition set_guard (s : State) (g : option N) : State :=
  mkState (time s) g (lock s) (next_token s) (dead s) (actors s).
Definition set_lock (s : State) (l : Lock) : State :=
  mkState (time s) (guard s) l (next_token s) (dead s) (actors s).
Definition take_token (s : State) : State :=
  mkState (time s) (guard s) (lock s) (S (next_token s)) (dead s) (actors s).

Definition at_pc (x : Actor) (p : Pc) : Actor := mkActor (proc x) p (lease x) (outcome x).
Definition ending (x : Actor) (p : Pc) (o : Outcome) : Actor := mkActor (proc x) p (lease x) o.

(** [read_lease_owner]. *)
Definition read_lease_owner (l : Lock) : LeaseOwnerState :=
  match l with NoLock | EmptyDir => Absent | Dir o => o end.

(** [is_lease_owner_alive]: a live process is always found alive; of a dead one the probe may
    be unable to say so. *)
Definition is_lease_owner_alive (s : State) (o : SessionLeaseOwner) (unsure : bool) : bool :=
  bool_decide (pid o ∉ dead s) || unsure.

(** How a system call ends. *)
Inductive Io : Type := Done | NotFound | Failed.

Definition is_done (io : Io) : bool := match io with Done => true | _ => false end.

(** The next attempt to acquire. *)
Definition again (id : option str) (k : nat) (g : option N) (x : Actor) : Actor :=
  if (S k <? LEASE_ACQUIRE_ATTEMPTS)%nat then at_pc x (Renaming id (S k) g) else at_pc x (LastReading g).

(** The next attempt to get the guard. *)
Definition retry (t : Task) (n : nat) (x : Actor) : Actor :=
  if (S n <? LEASE_GUARD_ATTEMPTS)%nat then at_pc x (Creating t (S n)) else ending x Idle Other.

(** The owner file is read. *)
Definition read_owner (s : State) (io : Io) : LeaseOwnerState :=
  match io with Failed => Unreadable | _ => read_lease_owner (lock s) end.

(** The age floor of the sweep. *)
Definition young (s : State) (o : SessionLeaseOwner) : bool :=
  match created_at o with Some c => time s - c <? SESSION_LEASE_SWEEP_MIN_AGE_MS | None => false end.

(** A system call of actor [a] ends with [io].  A call that is not [Done] changes nothing; the
    probe of a process that is not [Done] cannot tell that it is dead; [NotFound] of a rename
    is the candidate that has vanished. *)

(** [acquire_lease_guard], the [create_dir] of [try_with_lease_guard], and [LeaseGuard::acquire]. *)
Definition run_guard (s : State) (a : nat) (x : Actor) (io : Io) : State :=
  match pc x with
  | Creating t n =>
      match io, guard s with
      | Done, None => set_actor (set_guard s (Some (time s))) a (at_pc x (Entered t))
      | Done, Some _ =>
          match t with
          | SweepTask => set_actor s a (ending x Idle Other)
          | _ => set_actor s a (at_pc x (Waiting t n))
          end
      | _, _ => set_actor s a (ending x Idle Other)
      end
  | Waiting t n =>
      let stale := match guard s with Some m => LEASE_GUARD_STALE_MS <? time s - m | None => false end in
      if stale && is_done io then set_actor s a (at_pc x (Evicting t n)) else set_actor s a (retry t n x)
  | Evicting t n => set_actor (if is_done io then set_guard s None else s) a (retry t n x)
  | Entered t =>
      let g := if is_done io then guard s else None in
      match t with
      | AcquireTask id => set_actor s a (at_pc x (Renaming id 0 g))
      | ReleaseTask t => set_actor s a (at_pc x (ReleaseReading t g))
      | SweepTask => set_actor s a (at_pc x (SweepReading g))
      end
  | _ => s
  end.

(** [acquire_session_lease] under the guard. *)
Definition run_acquire (s : State) (a : nat) (x : Actor) (io : Io) : State :=
  match pc x with
  | Renaming id k g =>
      match io, lock s with
      | Done, (NoLock | EmptyDir) =>
          let t := next_token s in
          let o := mkOwner t (proc x) id (Some (time s)) in
          set_actor (take_token (set_lock s (Dir (Owner o)))) a (mkActor (proc x) (Leaving g) (Some t) Acquired)
      | Done, Dir _ => set_actor s a (at_pc x (Reading id k g))
      | NotFound, _ => set_actor s a (again id k g x)
      | Failed, _ => set_actor s a (ending x (Leaving g) Other)
      end
  | Reading id k g =>
      match read_owner s io with
      | Owner o => set_actor s a (at_pc x (Checking id k o g))
      | Absent => set_actor s a (at_pc x (Reclaiming id k g))
      | Unreadable => set_actor s a (again id k g x)
      | Corrupt => set_actor s a (ending x (Leaving g) Other)
      end
  | Checking id k o g =>
      if is_lease_owner_alive s o (negb (is_done io))
      then set_actor s a (ending x (Leaving g) (AlreadyActive (active_session_id o)))
      else set_actor s a (at_pc x (Reclaiming id k g))
  | Reclaiming id k g => set_actor (if is_done io then set_lock s NoLock else s) a (again id k g x)
  | LastReading g =>
      match read_owner s io with
      | Owner o => set_actor s a (at_pc x (LastChecking o g))
      | _ => set_actor s a (ending x (Leaving g) Other)
      end
  | LastChecking o g =>
      set_actor s a (ending x (Leaving g) (if is_lease_owner_alive s o (negb (is_done io))
                                           then AlreadyActive (active_session_id o) else Other))
  | _ => s
  end.

(** [SessionLease::release] under the guard. *)
Definition run_release (s : State) (a : nat) (x : Actor) (io : Io) : State :=
  match pc x with
  | ReleaseReading t g =>
      match read_owner s io with
      | Owner o => set_actor s a (at_pc x (if bool_decide (token o = t) then ReleaseReclaiming t g else Leaving g))
      | _ => set_actor s a (at_pc x (Leaving g))
      end
  | ReleaseReclaiming t g => set_actor (if is_done io then set_lock s NoLock else s) a (at_pc x (Leaving g))
  | _ => s
  end.

(** [sweep_dead_owner_leases] under the guard. *)
Definition run_sweep (s : State) (a : nat) (x : Actor) (io : Io) : State :=
  match pc x with
  | SweepReading g =>
      match read_owner s io with
      | Owner o =>
          set_actor s a (at_pc x (if young s o then Leaving g
                                  else SweepChecking o g))
      | Absent => set_actor s a (at_pc x (SweepReclaiming g))
      | Unreadable | Corrupt => set_actor s a (at_pc x (Leaving g))
      end
  | SweepChecking o g =>
      set_actor s a (at_pc x (if is_lease_owner_alive s o (negb (is_done io)) then Leaving g else SweepReclaiming g))
  | SweepReclaiming g => set_actor (if is_done io then set_lock s NoLock else s) a (at_pc x (Leaving g))
  | _ => s
  end.

(** [with_acquired_lease_guard] after the action: [is_compromised] and [LeaseGuard::release]. *)
Definition run_leave (s : State) (a : nat) (x : Actor) (io : Io) : State :=
  match pc x with
  | Leaving g =>
      match guard s with
      | Some m => set_actor s a (at_pc x (if is_done io && bool_decide (Some m = g) then Unguarding else Idle))
      | None => set_actor s a (at_pc x Idle)
      end
  | Unguarding => set_actor (if is_done io then set_guard s None else s) a (at_pc x Idle)
  | _ => s
  end.

Definition run_actor (s : State) (a : nat) (x : Actor) (io : Io) : State :=
  match pc x with
  | Idle => s
  | Creating _ _ | Waiting _ _ | Evicting _ _ | Entered _ => run_guard s a x io
  | Renaming _ _ _ | Reading _ _ _ | Checking _ _ _ _ | Reclaiming _ _ _ | LastReading _ | LastChecking _ _ =>
      run_acquire s a x io
  | ReleaseReading _ _ | ReleaseReclaiming _ _ => run_release s a x io
  | SweepReading _ | SweepChecking _ _ | SweepReclaiming _ => run_sweep s a x io
  | Leaving _ | Unguarding => run_leave s a x io
  end.

Inductive Action : Type :=
| Clock (now : N)
| Kill (p : nat)
| Spawn (a p : nat)
| Acquire (a : nat) (owner_id : option str)
| Release (a : nat)
| Sweep (a : nat)
| Run (a : nat) (io : Io).

(** An actor of a live process. *)
Definition live (s : State) (a : nat) : option Actor :=
  match actors s !! a with
  | Some x => if bool_decide (proc x ∈ dead s) then None else Some x
  | None => None
  end.

Definition step (s : State) (act : Action) : State :=
  match act with
  | Clock now => mkState now (guard s) (lock s) (next_token s) (dead s) (actors s)
  | Kill p => mkState (time s) (guard s) (lock s) (next_token s) ({[p]} ∪ dead s) (actors s)
  | Spawn a p =>
      match actors s !! a with
      | Some _ => s
      | None => set_actor s a (mkActor p Idle None NoOutcome)
      end
  | Acquire a id =>
      match live s a with
      | Some x => match pc x, lease x with
                  | Idle, None => set_actor s a (mkActor (proc x) (Creating (AcquireTask id) 0) None NoOutcome)
                  | _, _ => s
                  end
      | None => s
      end
  | Release a =>
      match live s a with
      | Some x => match pc x, lease x with
                  | Idle, Some t => set_actor s a (mkActor (proc x) (Creating (ReleaseTask t) 0) None NoOutcome)
                  | _, _ => s
                  end
      | None => s
      end
  | Sweep a =>
      match live s a with
      | Some x => match pc x with Idle => set_actor s a (at_pc x (Creating SweepTask 0)) | _ => s end
      | None => s
      end
  | Run a io => match live s a with Some x => run_actor s a x io | None => s end
  end.

Definition run (s : State) (acts : list Action) : State := fold_left step acts s.

(** No lease is held; there may be a lease directory and a guard of an earlier time. *)
Definition initial (t : N) (g : option N) (l : Lock) (n : nat) (d : gset nat) : State := mkState t g l n d ∅.

(** ** One actor at a time *)

(** Past the guard. *)
Definition in_section (p : Pc) : bool :=
  match p with Idle | Creating _ _ | Waiting _ _ | Evicting _ _ => false | _ => true end.

(** The lease a release gives up. *)
Definition task_token (t : Task) : option nat := match t with ReleaseTask t => Some t | _ => None end.
Definition releasing (p : Pc) : option nat :=
  match p with
  | Creating t _ | Waiting t _ | Evicting t _ | Entered t => task_token t
  | ReleaseReading t _ | ReleaseReclaiming t _ => Some t
  | _ => None
  end.
Definition claims (x : Actor) (t : nat) : Prop := lease x = Some t ∨ releasing (pc x) = Some t.

(** What an actor knows of the lease directory. *)
Definition pc_ok (s : State) (p : Pc) : Prop :=
  match p with
  | Checking _ _ o _ | SweepChecking o _ => lock s = Dir (Owner o)
  | Reclaiming _ _ _ | SweepReclaiming _ => ∀ o, lock s = Dir (Owner o) → pid o ∈ dead s
  | ReleaseReclaiming t _ => ∀ o, lock s = Dir (Owner o) → token o = t
  | _ => True
  end.

Record inv (s : State) : Prop := {
  inv_one : ∀ a b x y, live s a = Some x → live s b = Some y →
    in_section (pc x) = true → in_section (pc y) = true → a = b;
  inv_guard : ∀ a x, live s a = Some x → in_section (pc x) = true → guard s ≠ None;
  inv_lease : ∀ a x t, live s a = Some x → lease x = Some t →
    ∃ o, lock s = Dir (Owner o) ∧ token o = t ∧ pid o = proc x;
  inv_pc : ∀ a x, live s a = Some x → pc_ok s (pc x);
  inv_fresh : ∀ a x t, actors s !! a = Some x → claims x t → (t < next_token s)%nat;
  inv_unique : ∀ a b x y t, actors s !! a = Some x → actors s !! b = Some y → claims x t → claims y t → a = b;
  inv_release : ∀ a x t, actors s !! a = Some x → releasing (pc x) = Some t → lease x = None }.

Lemma live_Some s a x : live s a = Some x ↔ actors s !! a = Some x ∧ proc x ∉ dead s.
Proof.
  unfold live. destruct (actors s !! a) as [y|]; [|split; [done|by intros [? _]]].
  destruct (bool_decide_reflect (proc y ∈ dead s)); split; try done; [by intros [[= ->] ?]|by intros [= ->]|by intros [[= ->] ?]].
Qed.

Lemma pc_ok_outside s p : in_section p = false → pc_ok s p.
Proof. by destruct p. Qed.

(** A step of one actor keeps the invariant. *)
Lemma inv_set s s' a x x' :
  inv s → live s a = Some x → proc x' = proc x → actors s' = <[a := x']> (actors s) → dead s' = dead s →
  (next_token s ≤ next_token s')%nat →
  (in_section (pc x') = true → in_section (pc x) = true ∨ guard s = None) →
  (in_section (pc x') = true → guard s' ≠ None) →
  (guard s' = None → guard s = None ∨ in_section (pc x) = true ∨
    ∀ b y, live s b = Some y → in_section (pc y) = false) →
  (lock s' = lock s ∨ in_section (pc x) = true ∧ ∀ b y, b ≠ a → live s b = Some y → lease y = None) →
  (∀ t, lease x' = Some t → ∃ o, lock s' = Dir (Owner o) ∧ token o = t ∧ pid o = proc x) →
  pc_ok s' (pc x') →
  (∀ t, claims x' t → claims x t ∨ t = next_token s ∧ (next_token s < next_token s')%nat) →
  (∀ t, releasing (pc x') = Some t → lease x' = None) →
  inv s'.
Proof.
  intros I Hx Hproc Hact Hdead Hle Hin Hg Hg0 Hlock Hl Hpc Hclaims Hrel.
  assert (∀ b y, live s' b = Some y → b = a ∧ y = x' ∨ b ≠ a ∧ live s b = Some y) as Hlive.
  { intros b y (Hb&Hd)%live_Some. rewrite Hact in Hb. rewrite Hdead in Hd.
    apply lookup_insert_Some in Hb as [[<- <-]|[Hne Hb]]; [by left|]. right. split; [done|]. by apply live_Some. }
  assert (∀ b y, actors s' !! b = Some y → b = a ∧ y = x' ∨ b ≠ a ∧ actors s !! b = Some y) as Hacts.
  { intros b y. rewrite Hact. intros [[<- <-]|[Hne Hb]]%lookup_insert_Some; [by left|by right]. }
  assert (∀ b y, b ≠ a → live s b = Some y → in_section (pc x') = true → in_section (pc y) = false) as Hother.
  { intros b y Hne Hb Hs. destruct (in_section (pc y)) eqn:E; [|done]. exfalso.
    destruct (Hin Hs) as [Hs'|Hnone]; [by apply Hne, (inv_one s I b a y x)|by apply (inv_guard s I b y)]. }
  constructor.
  - intros b c y z [[-> ->]|[Hb Hy]]%Hlive [[-> ->]|[Hc Hz]]%Hlive Hsy Hsz; [done| | |by eapply (inv_one s I)];
      exfalso; [rewrite (Hother c z) in Hsz by done|rewrite (Hother b y) in Hsy by done]; done.
  - intros b y [[-> ->]|[Hb Hy]]%Hlive Hsy; [by apply Hg|]. intros Hnone.
    destruct (Hg0 Hnone) as [H|[H|H]]; [by apply (inv_guard s I b y)|by apply Hb, (inv_one s I b a y x)|].
    by rewrite (H b y) in Hsy.
  - intros b y t [[-> ->]|[Hb Hy]]%Hlive Ht; [rewrite Hproc; by apply Hl|].
    destruct Hlock as [->|[_ Hno]]; [by apply (inv_lease s I b)|]. by rewrite (Hno b y) in Ht.
  - intros b y [[-> ->]|[Hb Hy]]%Hlive; [done|]. destruct (in_section (pc y)) eqn:E; [|by apply pc_ok_outside].
    destruct Hlock as [Heq|[Hs _]]; [|exfalso; by apply Hb, (inv_one s I b a y x)].
    pose proof (inv_pc s I b y Hy) as H. unfold pc_ok. rewrite Heq, Hdead. exact H.
  - intros b y t [[-> ->]|[Hb Hy]]%Hacts Ht; [|pose proof (inv_fresh s I b y t Hy Ht); lia].
    destruct (Hclaims t Ht) as [Hc|[-> ?]]; [|lia]. apply live_Some in Hx as [Hx _].
    pose proof (inv_fresh s I a x t Hx Hc). lia.
  - apply live_Some in Hx as [Hx _]. assert (∀ b y t, b ≠ a → actors s !! b = Some y → claims y t → claims x' t → False) as Hu.
    { intros b y t Hb Hy Hyt Ht. destruct (Hclaims t Ht) as [Hc|[-> ?]]; [by apply Hb, (inv_unique s I b a y x t)|].
      pose proof (inv_fresh s I b y _ Hy Hyt). lia. }
    intros b c y z t [[-> ->]|[Hb Hy]]%Hacts [[-> ->]|[Hc Hz]]%Hacts Hyt Hzt; [done| | |by eapply (inv_unique s I)];
      exfalso; eauto.
  - intros b y t [[-> ->]|[Hb Hy]]%Hacts Ht; [by apply (Hrel t)|by eapply (inv_release s I)].
Qed.

(** Every guard that is taken over is that of a dead process, or of one that has left: no
    live actor is past the guard when a stale one is removed. *)
Definition fair_step (s : State) (act : Action) : Prop :=
  match act with
  | Run a Done =>
      match live s a with
      | Some x => match pc x with
                  | Evicting _ _ => ∀ b y, live s b = Some y → in_section (pc y) = false
                  | _ => True
                  end
      | None => True
      end
  | _ => True
  end.

Fixpoint fair (s : State) (acts : list Action) : Prop :=
  match acts with
  | [] => True
  | act :: acts => fair_step s act ∧ fair (step s act) acts
  end.

(** A step that changes neither the guard nor the lease directory. *)
Lemma inv_move s a x x' :
  inv s → live s a = Some x → proc x' = proc x → lease x' = lease x →
  (in_section (pc x') = true → in_section (pc x) = true) →
  (releasing (pc x') = None ∨ releasing (pc x') = releasing (pc x)) → pc_ok s (pc x') →
  inv (set_actor s a x').
Proof.
  intros I Hx Hp Hl Hin Hr Hpc. eapply (inv_set s _ a x x'); cbn; try done; try lia; auto.
  - intros H. by apply (inv_guard s I a x Hx), Hin.
  - intros t. rewrite Hl. intros Ht. by apply (inv_lease s I a x).
  - intros t [Ht|Ht]; left; [left; by rewrite <-Hl|]. right. by destruct Hr as [H|H]; rewrite H in Ht.
  - intros t Ht. rewrite Hl. apply live_Some in Hx as [Hx _]. apply (inv_release s I a x t Hx).
    by destruct Hr as [H|H]; rewrite H in Ht.
Qed.

(** The lease directory is moved away by an actor that knows it is nobody's. *)
Lemma inv_reclaim s a x x' (done : bool) :
  inv s → live s a = Some x → proc x' = proc x → lease x' = lease x →
  in_section (pc x) = true → in_section (pc x') = true →
  releasing (pc x') = None → (∀ l, pc_ok (set_lock s l) (pc x')) →
  (∀ b y t o, live s b = Some y → lease y = Some t → lock s = Dir (Owner o) → token o = t → pid o = proc y → False) →
  inv (set_actor (if done then set_lock s NoLock else s) a x').
Proof.
  intros I Hx Hp Hl Hs Hs' Hr Hpc Hno.
  assert (∀ b y, live s b = Some y → lease y = None) as Hnone.
  { intros b y Hy. destruct (lease y) as [t|] eqn:E; [|done].
    destruct (inv_lease s I b y t Hy E) as (o&Ho&Ht&Hpid). exfalso. eauto. }
  destruct done; [|apply (inv_move s a x); auto; pose proof (Hpc (lock s)) as H; by destruct s].
  eapply (inv_set s _ a x x'); cbn; try done; try lia; auto.
  - intros _. by apply (inv_guard s I a x).
  - right. split; [done|]. intros b y _. apply Hnone.
  - intros t. by rewrite Hl, (Hnone a x Hx).
  - apply Hpc.
  - intros t [Ht|Ht]; [left; left; by rewrite <-Hl|]. by rewrite Hr in Ht.
  - intros t Ht. by rewrite Hr in Ht.
Qed.

Lemma again_at id k g x :
  proc (again id k g x) = proc x ∧ lease (again id k g x) = lease x ∧ in_section (pc (again id k g x)) = true ∧
  releasing (pc (again id k g x)) = None ∧ ∀ s, pc_ok s (pc (again id k g x)).
Proof. unfold again. by destruct (_ <? _)%nat. Qed.

Lemma retry_at t n x :
  proc (retry t n x) = proc x ∧ lease (retry t n x) = lease x ∧ in_section (pc (retry t n x)) = false ∧
  (releasing (pc (retry t n x)) = None ∨ releasing (pc (retry t n x)) = task_token t) ∧
  ∀ s, pc_ok s (pc (retry t n x)).
Proof. unfold retry. destruct (_ <? _)%nat; (do 3 (split; [done|])); (split; [auto|done]). Qed.

(** No live actor holds a lease whose recorded owner is dead. *)
Lemma dead_owner_unheld s b y t o :
  live s b = Some y → lease y = Some t → token o = t → pid o = proc y → pid o ∈ dead s → False.
Proof. intros [_ Hd]%live_Some _ _ Hp. by rewrite Hp. Qed.

(** A step to a place that needs no knowledge of the lease directory and releases nothing. *)
Lemma inv_plain s a x x' :
  inv s → live s a = Some x → proc x' = proc x → lease x' = lease x →
  (in_section (pc x') = true → in_section (pc x) = true) → releasing (pc x') = None →
  (∀ s, pc_ok s (pc x')) → inv (set_actor s a x').
Proof. intros. apply (inv_move s a x); auto. Qed.

(** Getting to the guard. *)
Lemma entry_inv s a x io :
  inv s → live s a = Some x → fair_step s (Run a io) → in_section (pc x) = false →
  inv (run_actor s a x io).
Proof.
  intros I Hx Hf Hpc. pose proof Hx as Hx'. pose proof Hx as [Hax _]%live_Some.
  unfold run_actor, run_guard, run_acquire, run_release, run_sweep, run_leave. destruct (pc x) as [|t n|t n|t n| | | | | | | | | | | | | |] eqn:E; try done.
  - destruct io; [|by apply (inv_plain s a x)..].
    destruct (guard s) as [m|] eqn:Eg.
    { destruct t; apply (inv_move s a x); auto; rewrite ?E; auto; done. }
    eapply (inv_set s _ a x (at_pc x (Entered t)) I Hx); cbn; try done; try lia; auto.
    + intros u Hu. by apply (inv_lease s I a x).
    + intros u [Hu|Hu]; left; [by left|right; by rewrite E].
    + intros u Hu. apply (inv_release s I a x u Hax). by rewrite E.
  - destruct (retry_at t n x) as (Hp&Hl&Hin&Hr&Hok).
    destruct (_ && _); apply (inv_move s a x); auto; rewrite ?E, ?Hin; auto; try done.
  - destruct (retry_at t n x) as (Hp&Hl&Hin&Hr&Hok).
    assert (releasing (pc (retry t n x)) = None ∨ releasing (pc (retry t n x)) = releasing (pc x)) as Hr' by by rewrite E.
    destruct (is_done io) eqn:Eio; [|apply (inv_move s a x); auto; by rewrite Hin].
    destruct io; try done. cbn [fair_step] in Hf. rewrite Hx', E in Hf.
    eapply (inv_set s _ a x (retry t n x) I Hx); cbn; try done; try lia; auto; try (by rewrite Hin).
    + intros u. rewrite Hl. by apply (inv_lease s I a x).
    + intros u [Hu|Hu]; left; [left; by rewrite <-Hl|right]. by destruct Hr' as [H|H]; rewrite H in Hu.
    + intros u Hu. rewrite Hl. apply (inv_release s I a x u Hax). by destruct Hr' as [H|H]; rewrite H in Hu.
Qed.

Lemma read_owner_Owner s io o : read_owner s io = Owner o → lock s = Dir (Owner o).
Proof. unfold read_owner. by destruct io, (lock s); cbn; intros; simplify_eq. Qed.

Lemma read_owner_Absent s io o : read_owner s io = Absent → lock s = Dir (Owner o) → False.
Proof. unfold read_owner. intros H Ho. rewrite Ho in H. by destruct io. Qed.

Lemma found_dead s o io :
  is_lease_owner_alive s o io = false → lock s = Dir (Owner o) → ∀ o', lock s = Dir (Owner o') → pid o' ∈ dead s.
Proof.
  unfold is_lease_owner_alive. intros [H _]%orb_false_iff -> o' [= <-]. apply bool_decide_eq_false in H.
  destruct (decide (pid o ∈ dead s)); [done|by destruct H].
Qed.

(** The rename puts the lease of a new owner in place. *)
Lemma inv_acquire s a x id k g :
  inv s → live s a = Some x → pc x = Renaming id k g → lock s = NoLock ∨ lock s = EmptyDir →
  inv (set_actor (take_token (set_lock s (Dir (Owner (mkOwner (next_token s) (proc x) id (Some (time s))))))) a
    (mkActor (proc x) (Leaving g) (Some (next_token s)) Acquired)).
Proof.
  intros I Hx E Hl.
  eapply (inv_set s _ a x (mkActor (proc x) (Leaving g) (Some (next_token s)) Acquired) I Hx); cbn; try done; try lia.
  - intros _. left. by rewrite E.
  - intros _. apply (inv_guard s I a x Hx). by rewrite E.
  - auto.
  - right. split; [by rewrite E|]. intros b y _ Hy. destruct (lease y) as [t|] eqn:El; [|done].
    destruct (inv_lease s I b y t Hy El) as (o&Ho&_). destruct Hl; congruence.
  - intros t [= <-]. eexists. by split.
  - intros t [[= <-]|?]; [|done]. right. split; [done|lia].
Qed.

(** The guard is given up. *)
Lemma inv_unguard s a x (done : bool) :
  inv s → live s a = Some x → in_section (pc x) = true →
  inv (set_actor (if done then set_guard s None else s) a (at_pc x Idle)).
Proof.
  intros I Hx Hs. destruct done; [|by apply (inv_plain s a x)].
  eapply (inv_set s _ a x (at_pc x Idle) I Hx); cbn; try done; try lia; auto.
  - intros t Ht. by apply (inv_lease s I a x).
  - intros t [Ht|Ht]; [|done]. left. by left.
Qed.

(** Only the actor that releases a lease claims it. *)
Lemma released_unheld s a x t b y u o :
  inv s → live s a = Some x → releasing (pc x) = Some t → live s b = Some y → lease y = Some u → token o = t →
  token o = u → False.
Proof.
  intros I [Hax _]%live_Some Hr [Hby _]%live_Some Hu <- <-.
  assert (a = b) as <- by (apply (inv_unique s I a b x y (token o)); [done|done|by right|by left]).
  rewrite Hax in Hby. injection Hby as <-. by rewrite (inv_release s I a x _ Hax Hr) in Hu.
Qed.

(** An acquisition past the guard. *)
Lemma acquiring_inv s a x io :
  inv s → live s a = Some x →
  match pc x with
  | Renaming _ _ _ | Reading _ _ _ | Checking _ _ _ _ | Reclaiming _ _ _ | LastReading _ | LastChecking _ _ => True
  | _ => False
  end → inv (run_actor s a x io).
Proof.
  intros I Hx Hp. pose proof (inv_pc s I a x Hx) as Hok.
  assert (∀ id k g, in_section (pc x) = true → inv (set_actor s a (again id k g x))) as Hagain.
  { intros id k g Hs. destruct (again_at id k g x) as (?&?&?&?&?). by apply (inv_plain s a x). }
  unfold run_actor, run_guard, run_acquire, run_release, run_sweep, run_leave. destruct (pc x) as [|?|?|?|?|id k g|id k g|id k o g|id k g|g|o g| | | | | | |] eqn:E; try done; cbn [pc_ok] in Hok.
  - destruct io; [|by apply Hagain|by apply (inv_plain s a x); auto; rewrite E].
    destruct (lock s) eqn:El; [by eapply inv_acquire; eauto..|]. apply (inv_plain s a x); auto; by rewrite E.
  - destruct (read_owner s io) as [o| | |] eqn:Er; [| |by apply Hagain|by apply (inv_plain s a x); auto; rewrite E];
      apply (inv_move s a x); auto; try (by rewrite E); cbn.
    + by eapply read_owner_Owner.
    + intros o Ho. exfalso. by eapply read_owner_Absent.
  - destruct (is_lease_owner_alive _ _ _) eqn:Ea; apply (inv_move s a x); auto; try (by rewrite E).
    exact (found_dead s o _ Ea Hok).
  - destruct (again_at id k g x) as (?&?&?&?&?). apply (inv_reclaim s a x); auto; [by rewrite E|].
    intros b y t o Hy Ht Ho Hto Hpid. by eapply dead_owner_unheld, Hok.
  - destruct (read_owner s io) as [o| | |] eqn:Er; apply (inv_plain s a x); auto; by rewrite E.
  - destruct (is_lease_owner_alive _ _ _); apply (inv_plain s a x); auto; by rewrite E.
Qed.

(** Past the guard. *)
Lemma section_inv s a x io :
  inv s → live s a = Some x → in_section (pc x) = true → inv (run_actor s a x io).
Proof.
  intros I Hx Hs. pose proof (inv_pc s I a x Hx) as Hok. pose proof (acquiring_inv s a x io I Hx) as Hacq.
  assert (∀ p, releasing p = None → (∀ s, pc_ok s p) → inv (set_actor s a (at_pc x p))) as Hplain.
  { intros p Hr Hp. by apply (inv_plain s a x). }
  unfold run_actor, run_guard, run_acquire, run_release, run_sweep, run_leave in *.
  destruct (pc x) as [|?|?|?|t|?|?|?|?|?|?|t g|t g|g|o g|g|g|] eqn:E; try done; try (by apply Hacq); clear Hacq; cbn [pc_ok] in Hok.
  - destruct t; [by apply Hplain| |by apply Hplain]. apply (inv_move s a x); auto; rewrite ?E; auto; try done.
  - destruct (read_owner s io) as [o| | |] eqn:Er; [|by apply Hplain..].
    destruct (bool_decide_reflect (token o = t)) as [Ht|Ht]; [|by apply Hplain].
    apply (inv_move s a x); auto; rewrite ?E; auto; try done. cbn. apply read_owner_Owner in Er.
    intros o' Ho'. rewrite Er in Ho'. by injection Ho' as <-.
  - apply (inv_reclaim s a x); auto; [by rewrite E|done|].
    intros b y u o Hy Hu Ho Hto _. eapply (released_unheld s a x t b y u o I Hx); eauto. by rewrite E.
  - destruct (read_owner s io) as [o| | |] eqn:Er; [| |by apply Hplain..].
    + destruct (young s o); [by apply Hplain|]. apply (inv_move s a x); auto; rewrite ?E; auto; try done.
      by eapply read_owner_Owner.
    + apply (inv_move s a x); auto; rewrite ?E; auto; try done. intros o Ho. exfalso. by eapply read_owner_Absent.
  - destruct (is_lease_owner_alive _ _ _) eqn:Ea; [by apply Hplain|]. apply (inv_move s a x); auto; rewrite ?E; auto; try done.
    exact (found_dead s o _ Ea Hok).
  - apply (inv_reclaim s a x); auto; [by rewrite E|done|].
    intros b y t o Hy Ht Ho Hto Hpid. by eapply dead_owner_unheld, Hok.
  - destruct (guard s); [|by apply Hplain]. destruct (_ && _); by apply Hplain.
  - apply inv_unguard; auto. by rewrite E.
Qed.

(** A change of the clock or the death of a process. *)
Lemma inv_environment s t d : inv s → dead s ⊆ d → inv (mkState t (guard s) (lock s) (next_token s) d (actors s)).
Proof.
  intros I Hd. set (s' := mkState _ _ _ _ _ _).
  assert (∀ a x, live s' a = Some x → live s a = Some x) as Hlive.
  { intros a x (Ha&Hx)%live_Some. apply live_Some. split; [done|]. intros ?. by apply Hx, Hd. }
  constructor.
  - intros a b x y Ha%Hlive Hb%Hlive. by apply (inv_one s I).
  - intros a x Ha%Hlive. by apply (inv_guard s I a).
  - intros a x u Ha%Hlive. by apply (inv_lease s I a).
  - intros a x Ha%Hlive. pose proof (inv_pc s I a x Ha) as H. unfold pc_ok in *.
    destruct (pc x); cbn; try done; intros o Ho; by apply Hd, H.
  - apply (inv_fresh s I).
  - apply (inv_unique s I).
  - apply (inv_release s I).
Qed.

(** A new actor, in its place nobody was. *)
Lemma inv_spawn s a p : inv s → actors s !! a = None → inv (set_actor s a (mkActor p Idle None NoOutcome)).
Proof.
  intros I Ha. set (s' := set_actor _ _ _).
  assert (∀ b y, actors s' !! b = Some y → y = mkActor p Idle None NoOutcome ∨ actors s !! b = Some y) as Hacts.
  { intros b y. cbn. intros [[<- <-]|[Hne Hb]]%lookup_insert_Some; [by left|by right]. }
  assert (∀ b y, live s' b = Some y → y = mkActor p Idle None NoOutcome ∨ live s b = Some y) as Hlive.
  { intros b y ([->|Hb]%Hacts&Hd)%live_Some; [by left|right]. by apply live_Some. }
  constructor.
  - intros b c y z [->|Hb]%Hlive [->|Hc]%Hlive; [done..|by apply (inv_one s I)].
  - intros b y [->|Hb]%Hlive; [done|by apply (inv_guard s I b)].
  - intros b y t [->|Hb]%Hlive; [done|by apply (inv_lease s I b)].
  - intros b y [->|Hb]%Hlive; [done|by apply (inv_pc s I b)].
  - intros b y t [->|Hb]%Hacts; [by intros [?|?]|by apply (inv_fresh s I b)].
  - intros b c y z t [->|Hb]%Hacts [->|Hc]%Hacts; [by intros [?|?]..|by intros ? [?|?]|by apply (inv_unique s I)].
  - intros b y t [->|Hb]%Hacts; [done|by apply (inv_release s I b)].
Qed.

Lemma lease_step_inv s act : inv s → fair_step s act → inv (step s act).
Proof.
  intros I Hf. destruct act as [t|p|a p|a id|a|a|a io]; cbn [step].
  - by apply inv_environment.
  - apply inv_environment; [done|set_solver].
  - destruct (actors s !! a) eqn:E; [done|by apply inv_spawn].
  - destruct (live s a) as [x|] eqn:Hx; [|done]. destruct (pc x) eqn:E, (lease x) eqn:El; try done.
    by apply (inv_plain s a x).
  - destruct (live s a) as [x|] eqn:Hx; [|done]. destruct (pc x) eqn:E, (lease x) as [u|] eqn:El; try done.
    eapply (inv_set s _ a x (mkActor (proc x) (Creating (ReleaseTask u) 0) None NoOutcome) I Hx); cbn; try done; try lia; auto.
    intros v [?|[= ->]]; [done|]. left. by left.
  - destruct (live s a) as [x|] eqn:Hx; [|done]. destruct (pc x) eqn:E; try done. by apply (inv_plain s a x).
  - destruct (live s a) as [x|] eqn:Hx; [|done]. destruct (in_section (pc x)) eqn:E; [by apply section_inv|by apply entry_inv].
Qed.

Lemma lease_run_inv acts : ∀ s, inv s → fair s acts → inv (run s acts).
Proof.
  induction acts as [|act acts IH]; intros s I; [done|]. intros [Hf Hr]. apply IH; [by apply lease_step_inv|done].
Qed.

Lemma initial_inv t g l n d : inv (initial t g l n d).
Proof.
  assert (∀ a x, actors (initial t g l n d) !! a = Some x → False) as H by (intros a x; cbn; by rewrite lookup_empty).
  assert (∀ a x, live (initial t g l n d) a = Some x → False) as Hl by (intros a x [Ha _]%live_Some; exact (H a x Ha)).
  constructor; [intros a b x y Ha|intros a x Ha|intros a x u Ha|intros a x Ha|intros a x u Ha|intros a b x y u Ha
    |intros a x u Ha]; exfalso; first [exact (H _ _ Ha)|exact (Hl _ _ Ha)].
Qed.

(** C17: At most one process has a session open.  However the system calls of any number of
    threads in any number of processes are interleaved, whichever fail, whichever processes
    are killed between two calls and however the clock moves, two live threads that hold a
    lease of the session are the same, and the lease directory names that process as its
    owner, provided no guard is taken over while a live process is still past it. *)
Theorem lease_exclusive t g l n d acts :
  fair (initial t g l n d) acts →
  ∀ a x u, live (run (initial t g l n d) acts) a = Some x → lease x = Some u →
    (∃ o, lock (run (initial t g l n d) acts) = Dir (Owner o) ∧ token o = u ∧ pid o = proc x) ∧
    ∀ b y v, live (run (initial t g l n d) acts) b = Some y → lease y = Some v → b = a.
Proof.
  intros Hf a x u Ha Hu. pose proof (lease_run_inv acts _ (initial_inv t g l n d) Hf) as I.
  destruct (inv_lease _ I a x u Ha Hu) as (o&Ho&Ht&Hp). split; [by exists o|].
  intros b y v Hb Hv. destruct (inv_lease _ I b y v Hb Hv) as (o'&Ho'&Ht'&_).
  apply live_Some in Ha as [Ha _], Hb as [Hb _].
  apply (inv_unique _ I b a y x u); [done|done| |by left]. left. congruence.
Qed.

(** ** An actor that is not disturbed *)

(** A step of an actor whose state was just written. *)
Lemma solo_run t g l n d m a x io acts :
  proc x ∉ d → pc x ≠ Idle →
  run (mkState t g l n d (<[a := x]> m)) (Run a io :: acts) = run (run_actor (mkState t g l n d m) a x io) acts.
Proof.
  intros Hd Hp. change (run ?s (?act :: acts)) with (run (step s act) acts). f_equal. cbn [step].
  set (s := mkState _ _ _ _ _ _). assert (live s a = Some x) as -> by (apply live_Some; cbn; by rewrite lookup_insert_eq).
  subst s. unfold run_actor, run_guard, run_acquire, run_release, run_sweep, run_leave. destruct (pc x) eqn:E; try done;
    unfold set_actor, set_guard, set_lock, take_token, read_owner, young, is_lease_owner_alive; cbn;
    repeat case_match; cbn; try done; by rewrite insert_insert_eq.
Qed.

Lemma run_app s xs ys : run s (xs ++ ys) = run (run s xs) ys.
Proof. apply fold_left_app. Qed.

(** The calls of one actor, none of which fails. *)
Abbreviation calls a k := (replicate k (Run a Done)).

Ltac solo :=
  rewrite solo_run by done; cbn -[run N.ltb N.sub bool_decide is_lease_owner_alive];
  unfold set_actor, set_guard, set_lock, take_token; cbn -[run N.ltb N.sub bool_decide is_lease_owner_alive].

(** To the guard. *)
Lemma solo_enter t g l n d m a p id y :
  p ∉ d → match g with None => True | Some w => LEASE_GUARD_STALE_MS < t - w end →
  ∃ k, (k ≤ 5)%nat ∧
    run (mkState t g l n d (<[a := mkActor p (Creating (AcquireTask id) 0) None y]> m)) (calls a k) =
    mkState t (Some t) l n d (<[a := mkActor p (Renaming id 0 (Some t)) None y]> m).
Proof.
  intros Hp Hg. destruct g as [w|]; [exists 5%nat|exists 2%nat]; (split; [lia|]); cbn -[run].
  - solo. solo. apply N.ltb_lt in Hg. rewrite Hg. cbn -[run]. solo. solo. by solo.
  - solo. by solo.
Qed.

(** Back from it. *)
Lemma solo_leave t l n d m a p le y :
  p ∉ d →
  run (mkState t (Some t) l n d (<[a := mkActor p (Leaving (Some t)) le y]> m)) (calls a 2) =
  mkState t None l n d (<[a := mkActor p Idle le y]> m).
Proof. intros Hp. cbn -[run]. solo. rewrite bool_decide_eq_true_2 by done. cbn -[run]. by solo. Qed.

(** What acquiring a lease leaves behind. *)
Definition settled (s : State) (a : nat) (x : Actor) (id : option str) : State :=
  let ended l n le y := mkState (time s) None l n (dead s) (<[a := mkActor (proc x) Idle le y]> (actors s)) in
  let refused y := ended (lock s) (next_token s) None y in
  let granted := ended (Dir (Owner (mkOwner (next_token s) (proc x) id (Some (time s))))) (S (next_token s))
                       (Some (next_token s)) Acquired in
  match lock s with
  | NoLock | EmptyDir | Dir Absent => granted
  | Dir (Owner o) => if bool_decide (pid o ∈ dead s) then granted else refused (AlreadyActive (active_session_id o))
  | Dir Unreadable | Dir Corrupt => refused Other
  end.

Lemma solo_acquire s a x id :
  proc x ∉ dead s →
  ∃ k, (k ≤ 7)%nat ∧
    run (mkState (time s) (Some (time s)) (lock s) (next_token s) (dead s)
      (<[a := mkActor (proc x) (Renaming id 0 (Some (time s))) None NoOutcome]> (actors s))) (calls a k ++ calls a 2) =
    settled s a x id.
Proof.
  intros Hp. unfold settled. destruct (lock s) as [| |[o| | |]].
  - exists 1%nat. split; [lia|]. cbn -[run]. solo. by apply solo_leave.
  - exists 1%nat. split; [lia|]. cbn -[run]. solo. by apply solo_leave.
  - destruct (bool_decide_reflect (pid o ∈ dead s)) as [Hd|Hd].
    + exists 5%nat. split; [lia|]. cbn -[run]. solo. solo. solo. unfold is_lease_owner_alive.
      rewrite bool_decide_eq_false_2 by (cbn; by auto). cbn -[run]. solo. solo. by apply solo_leave.
    + exists 3%nat. split; [lia|]. cbn -[run]. solo. solo. solo. unfold is_lease_owner_alive.
      rewrite bool_decide_eq_true_2 by done. by apply solo_leave.
  - exists 4%nat. split; [lia|]. cbn -[run]. solo. solo. solo. solo. by apply solo_leave.
  - exists 7%nat. split; [lia|]. cbn -[run]. do 7 solo. by apply solo_leave.
  - exists 2%nat. split; [lia|]. cbn -[run]. solo. solo. by apply solo_leave.
Qed.

(** C25: An actor that is not disturbed settles a lease within fourteen calls, also when a
    process that died past the guard has left it behind and it is stale: the lease becomes
    its own when there is none, when nobody is recorded as its owner and when the owner is
    dead; it is refused, naming the session, when the owner is alive, and refused when the
    owner file cannot be read or is corrupt.  A refusal leaves the lease as it is, and the
    guard is gone in every case. *)
Theorem acquire_settles s a x id :
  live s a = Some x → pc x = Idle → lease x = None →
  match guard s with None => True | Some w => LEASE_GUARD_STALE_MS < time s - w end →
  ∃ k, (k ≤ 14)%nat ∧ run s (Acquire a id :: replicate k (Run a Done)) = settled s a x id.
Proof.
  intros Hx Hpc Hl Hg. pose proof Hx as [_ Hp]%live_Some.
  destruct (solo_enter (time s) (guard s) (lock s) (next_token s) (dead s) (actors s) a (proc x) id NoOutcome Hp Hg)
    as (k1&Hk1&E1).
  destruct (solo_acquire s a x id Hp) as (k2&Hk2&E2).
  exists (k1 + (k2 + 2))%nat. split; [lia|]. change (Acquire a id :: ?l) with ([Acquire a id] ++ l).
  rewrite !replicate_add, run_app. cbn [run fold_left step]. rewrite Hx, Hpc, Hl, run_app.
  unfold set_actor at 1. by rewrite E1.
Qed.

(** ** Examples *)

(** A test of [fair]. *)
Definition fair_stepb (s : State) (act : Action) : bool :=
  match act with
  | Run a Done =>
      match live s a with
      | Some x => match pc x with
                  | Evicting _ _ => forallb (λ p, bool_decide (proc p.2 ∈ dead s) || negb (in_section (pc p.2)))
                                            (map_to_list (actors s))
                  | _ => true
                  end
      | None => true
      end
  | _ => true
  end.

Fixpoint fairb (s : State) (acts : list Action) : bool :=
  match acts with
  | [] => true
  | act :: acts => fair_stepb s act && fairb (step s act) acts
  end.

Lemma fairb_fair acts : ∀ s, fairb s acts = true → fair s acts.
Proof.
  induction acts as [|act acts IH]; intros s; [done|]. cbn [fairb fair]. intros [Hf Hr]%andb_prop. split; [|by apply IH].
  destruct act as [| | | | | |a []]; cbn in Hf |- *; try done. destruct (live s a) as [x|]; [|done]. destruct (pc x); try done.
  intros b y (Hb&Hd)%live_Some. rewrite forallb_forall in Hf.
  specialize (Hf (b, y)). cbn in Hf. rewrite bool_decide_eq_false_2 in Hf by done. apply negb_true_iff, Hf.
  by apply list_elem_of_In, elem_of_map_to_list.
Qed.

(** The live actors that hold a lease. *)
Definition holders (s : State) : list nat :=
  omap (λ p, match live s p.1 with Some x => (λ _, p.1) <$> lease x | None => None end) (map_to_list (actors s)).

(** Process 1 dies past the guard; process 2 takes the guard over and opens the session. *)
Definition crash_run : list Action :=
  [Spawn 1 1; Spawn 2 2; Acquire 1 None] ++ calls 1 2 ++ [Kill 1; Clock 6000; Acquire 2 None] ++ calls 2 8.

Lemma crash_run_fair : fair (initial 0 None NoLock 0 ∅) crash_run.
Proof. apply fairb_fair. vm_compute. reflexivity. Qed.

Lemma crash_run_holder :
  live (run (initial 0 None NoLock 0 ∅) crash_run) 2 = Some (mkActor 2 Idle (Some 0%nat) Acquired).
Proof. vm_compute. reflexivity. Qed.

Lemma lease_exclusive_witness :
  (∃ o, lock (run (initial 0 None NoLock 0 ∅) crash_run) = Dir (Owner o) ∧ token o = 0%nat ∧ pid o = 2%nat) ∧
  ∀ b y v, live (run (initial 0 None NoLock 0 ∅) crash_run) b = Some y → lease y = Some v → b = 2%nat.
Proof.
  exact (lease_exclusive 0 None NoLock 0 ∅ crash_run crash_run_fair 2
    (mkActor 2 Idle (Some 0%nat) Acquired) 0 crash_run_holder eq_refl).
Defined.

(** The lease of a dead process, under the guard of another. *)
Definition abandoned : State :=
  mkState 9000 (Some 1000) (Dir (Owner (mkOwner 0 7 None (Some 900)))) 1 {[7%nat]}
    {[1%nat := mkActor 1 Idle None NoOutcome]}.

Lemma abandoned_idle : live abandoned 1 = Some (mkActor 1 Idle None NoOutcome).
Proof. vm_compute. reflexivity. Qed.

Lemma abandoned_settled :
  settled abandoned 1 (mkActor 1 Idle None NoOutcome) None =
  mkState 9000 None (Dir (Owner (mkOwner 1 1 None (Some 9000)))) 2 {[7%nat]} {[1%nat := mkActor 1 Idle (Some 1%nat) Acquired]}.
Proof. vm_compute. reflexivity. Qed.

Lemma acquire_settles_witness :
  ∃ k, (k ≤ 14)%nat ∧
    run abandoned (Acquire 1 None :: replicate k (Run 1 Done)) =
    mkState 9000 None (Dir (Owner (mkOwner 1 1 None (Some 9000)))) 2 {[7%nat]} {[1%nat := mkActor 1 Idle (Some 1%nat) Acquired]}.
Proof.
  rewrite <-abandoned_settled.
  exact (acquire_settles abandoned 1 (mkActor 1 Idle None NoOutcome) None abandoned_idle eq_refl eq_refl
    (proj1 (N.ltb_lt 5000 8000) eq_refl)).
Defined.

(** The taking over of a guard is not safe in itself.  A holder that stays past the guard for
    more than five seconds, here between its check of the owner and the removal of the lease,
    removes the lease of the process that took the guard over. *)
Example slow_holder :
  holders (run (initial 0 None (Dir (Owner (mkOwner 0 7 None None))) 1 {[7%nat]})
    ([Spawn 1 1; Spawn 2 2; Acquire 1 None] ++ calls 1 5 ++ [Clock 6000; Acquire 2 None] ++ calls 2 13 ++ calls 1 4))
  = [2; 1]%nat.
Proof. vm_compute. reflexivity. Qed.

(** Nor need anybody be slow: of two processes that find the same guard stale, the second
    removes the guard the first has just made. *)
Example racing_takeovers :
  holders (run (initial 9000 (Some 0) (Dir (Owner (mkOwner 0 7 None None))) 1 {[7%nat]})
    ([Spawn 1 1; Spawn 2 2; Acquire 1 None; Acquire 2 None] ++ calls 1 2 ++ calls 2 2 ++ calls 1 6 ++ calls 2 10 ++ calls 1 4))
  = [2; 1]%nat.
Proof. vm_compute. reflexivity. Qed.
