(* ===== verification/Calendar.v ===== *)
(** * Calendar arithmetic

    The date helpers of [pi-coding-agent/src/core/cron_jobs.rs]: the civil date of a day
    number and back (Hinnant's algorithms), the weekday (Zeller's congruence), the civil
    components of an instant and the carrying of minutes into hours, days, months and years.

    Rust's [/] and [%] on [i64] truncate towards zero: [Z.quot] and [Z.rem].  Instants are
    [f64] milliseconds in the source, all integers here; the numbers stay far below 2^53. *)
From stdpp Require Import base list numbers.
From S2P Require Import Prelude.

Local Open Scope Z_scope.

Record CivilComponents : Type := mkCivil {
  year : Z; month : Z; day : Z; hour : Z; minute : Z; second : Z; millisecond : Z }.

Definition days_in_month (year month : Z) : Z :=
  match month with
  | 1 | 3 | 5 | 7 | 8 | 10 | 12 => 31
  | 4 | 6 | 9 | 11 => 30
  | 2 => if ((Z.rem year 4 =? 0) && negb (Z.rem year 100 =? 0)) || (Z.rem year 400 =? 0) then 29 else 28
  | _ => 30
  end.

Definition civil_from_days (days : Z) : Z * Z * Z :=
  let z := days + 719468 in
  let era := (if 0 <=? z then z else z - 146096) ÷ 146097 in
  let doe := z - era * 146097 in
  let yoe := (doe - doe ÷ 1460 + doe ÷ 36524 - doe ÷ 146096) ÷ 365 in
  let y := yoe + era * 400 in
  let doy := doe - (365 * yoe + yoe ÷ 4 - yoe ÷ 100) in
  let mp := (5 * doy + 2) ÷ 153 in
  let d := doy - (153 * mp + 2) ÷ 5 + 1 in
  let m := if mp <? 10 then mp + 3 else mp - 9 in
  (if m <=? 2 then y + 1 else y, m, d).

Definition days_from_civil (year month day : Z) : Z :=
  let y := if month <=? 2 then year - 1 else year in
  let era := (if 0 <=? y then y else y - 399) ÷ 400 in
  let yoe := y - era * 400 in
  let mp := if 2 <? month then month - 3 else month + 9 in
  let doy := (153 * mp + 2) ÷ 5 + day - 1 in
  let doe := yoe * 365 + yoe ÷ 4 - yoe ÷ 100 + doy in
  era * 146097 + doe - 719468.

(** [date.getDay()]: 0 is Sunday. *)
Definition weekday_of (c : CivilComponents) : Z :=
  let '(year, month, day) := (year c, month c, day c) in
  let adjusted_month := if month <? 3 then month + 12 else month in
  let adjusted_year := if month <? 3 then year - 1 else year in
  let k := Z.rem adjusted_year 100 in
  let j := adjusted_year ÷ 100 in
  let h := Z.rem (day + (13 * (adjusted_month + 1)) ÷ 5 + k + k ÷ 4 + j ÷ 4 + 5 * j) 7 in
  Z.rem (h + 6) 7.

(** [div_euclid] and [rem_euclid] by a positive number are [Z.div] and [Z.modulo]. *)
Definition civil_from_millis (millis : Z) : CivilComponents :=
  let total_seconds := millis / 1000 in
  let total_minutes := total_seconds / 60 in
  let total_hours := total_minutes / 60 in
  let '(y, m, d) := civil_from_days (total_hours / 24) in
  mkCivil y m d (total_hours mod 24) (total_minutes mod 60) (total_seconds mod 60) (millis mod 1000).

Definition millis_from_civil (c : CivilComponents) : Z :=
  let days := days_from_civil (year c) (month c) (day c) in
  ((days * 24 + hour c) * 60 + minute c) * 60000 + second c * 1000 + millisecond c.

(** The loop of [normalize_civil]: the fuel is the number of days to carry, each turn takes
    at least 28 off. *)
Fixpoint carry_days (fuel : nat) (year month day : Z) : Z * Z * Z :=
  let dim := days_in_month year month in
  match fuel with
  | O => (year, month, day)
  | S fuel =>
      if dim <? day then
        if 12 <? month + 1 then carry_days fuel (year + 1) 1 (day - dim) else carry_days fuel year (month + 1) (day - dim)
      else (year, month, day)
  end.

Definition normalize_civil (c : CivilComponents) : CivilComponents :=
  let hour := hour c + minute c / 60 in
  let '(y, m, d) := let day := day c + hour / 24 in carry_days (Z.to_nat day) (year c) (month c) day in
  mkCivil y m d (hour mod 24) (minute c mod 60) (second c) (millisecond c).

(** ** Dates and day numbers *)

Lemma quot_floor a b : 0 < b → (if 0 <=? a then a else a - (b - 1)) ÷ b = a / b.
Proof.
  intros Hb. destruct (Z.leb_spec 0 a). apply Z.quot_div_nonneg; lia.
  Z.to_euclidean_division_equations. nia.
Qed.

(* the year of the era *)
Lemma yoe_spec doe : 0 <= doe < 146097 ->
  let yoe := (doe - doe / 1460 + doe / 36524 - doe / 146096) / 365 in
  0 <= yoe < 400 ∧ 365 * yoe + yoe / 4 - yoe / 100 <= doe < 365 * (yoe+1) + (yoe+1) / 4 - (yoe+1) / 100 + (yoe + 1) / 400.
Proof. intros H. cbn zeta. Z.to_euclidean_division_equations; lia. Qed.
Lemma days_floor y m d :
  days_from_civil y m d =
  let y' := if m <=? 2 then y - 1 else y in
  let mp := if 2 <? m then m - 3 else m + 9 in
  365 * y' + y' / 4 - y' / 100 + y' / 400 + (153 * mp + 2) ÷ 5 + d - 1 - 719468.
Proof.
  unfold days_from_civil. cbn zeta. change 399 with (400 - 1). rewrite quot_floor by lia.
  set (y' := if m <=? 2 then _ else _). assert (0 <= y' - y' / 400 * 400 < 400) by (Z.to_euclidean_division_equations; lia).
  rewrite !(Z.quot_div_nonneg (y' - _)) by lia. Z.to_euclidean_division_equations; lia.
Qed.

Record valid_date (y m d : Z) : Prop := { valid_month : 1 <= m <= 12; valid_day : 1 <= d <= days_in_month y m }.

Lemma quot_era a : (if 0 <=? a then a else a - 146096) ÷ 146097 = a / 146097.
Proof. apply (quot_floor a 146097). lia. Qed.

Lemma civil_floor z :
  civil_from_days z =
  let z' := z + 719468 in
  let era := z' / 146097 in
  let doe := z' mod 146097 in
  let yoe := (doe - doe / 1460 + doe / 36524 - doe / 146096) / 365 in
  let y := yoe + era * 400 in
  let doy := doe - (365 * yoe + yoe / 4 - yoe / 100) in
  let mp := (5 * doy + 2) / 153 in
  let d := doy - (153 * mp + 2) / 5 + 1 in
  let m := if mp <? 10 then mp + 3 else mp - 9 in
  (if m <=? 2 then y + 1 else y, m, d).
Proof.
  unfold civil_from_days. cbn zeta. rewrite quot_era.
  set (w := z + 719468). assert (w - w / 146097 * 146097 = w mod 146097) as -> by (rewrite Z.mod_eq; lia).
  pose proof (Z.mod_pos_bound w 146097 ltac:(lia)) as Hd.
  set (doe := w mod 146097) in *. destruct (yoe_spec doe Hd) as [Hy Hr].
  rewrite !(Z.quot_div_nonneg doe) by lia.
  rewrite (Z.quot_div_nonneg (_ - _)) by (try lia; Z.to_euclidean_division_equations; lia).
  set (yoe := (doe - _ + _ - _) / 365) in *. 
  rewrite !(Z.quot_div_nonneg yoe) by lia.
  rewrite !(Z.quot_div_nonneg (5 * _ + 2)) by lia.
  rewrite !(Z.quot_div_nonneg (153 * _ + 2)); try lia. 2: { Z.to_euclidean_division_equations; lia. } done.
Qed.
Lemma doy_bound doe yoe :
  0 <= yoe < 400 → 365 * yoe + yoe / 4 - yoe / 100 <= doe < 365 * (yoe+1) + (yoe+1) / 4 - (yoe+1) / 100 + (yoe + 1) / 400 ->
  0 <= doe - (365 * yoe + yoe / 4 - yoe / 100) < 366.
Proof.
  intros Hy Hd. assert ((yoe + 1) / 4 - yoe / 4 - ((yoe + 1) / 100 - yoe / 100) + (yoe + 1) / 400 <= 1); [|lia].
  clear Hd. Z.to_euclidean_division_equations. lia.
Qed.


Lemma leap_floor y :
  ((Z.rem y 4 =? 0) && negb (Z.rem y 100 =? 0)) || (Z.rem y 400 =? 0) =
  ((y mod 4 =? 0) && negb (y mod 100 =? 0)) || (y mod 400 =? 0).
Proof.
  assert (∀ b, 0 < b → (Z.rem y b =? 0) = (y mod b =? 0)) as H; [|by rewrite !H].
  intros b Hb. apply eq_bool_prop_intro. rewrite !Is_true_true, !Z.eqb_eq.
  rewrite Z.rem_divide, Z.mod_divide by lia. done.
Qed.

(** The number of the first day of March of year [y] (February of the next year comes last). *)
Definition march (y : Z) : Z := 365 * y + y / 4 - y / 100 + y / 400.

Lemma march_next y : march (y + 1) - march y = 337 + days_in_month (y + 1) 2.
Proof.
  unfold march, days_in_month. rewrite leap_floor.
  destruct (Z.eqb_spec ((y + 1) mod 4) 0), (Z.eqb_spec ((y + 1) mod 100) 0), (Z.eqb_spec ((y + 1) mod 400) 0);
    cbn; Z.to_euclidean_division_equations; lia.
Qed.

(** The year of a day. *)
Lemma year_of_day w :
  let era := w / 146097 in
  let doe := w mod 146097 in
  let yoe := (doe - doe / 1460 + doe / 36524 - doe / 146096) / 365 in
  let y := yoe + era * 400 in
  doe - (365 * yoe + yoe / 4 - yoe / 100) = w - march y ∧ march y <= w < march (y + 1).
Proof.
  cbn zeta. pose proof (Z.mod_pos_bound w 146097 ltac:(lia)) as Hd.
  pose proof (Z.div_mod w 146097 ltac:(lia)) as Hz. pose proof (yoe_spec _ Hd) as [Hy Hr].
  revert Hy Hr. generalize ((w mod 146097 - w mod 146097 / 1460 + w mod 146097 / 36524 - w mod 146097 / 146096) / 365).
  intros yoe Hy Hr. revert Hz Hd Hr. generalize (w / 146097) (w mod 146097). intros era doe Hz Hd Hr. unfold march.
  assert (∀ a, (yoe + a + era * 400) / 4 = (yoe + a) / 4 + era * 100) as H4 by (intros a; Z.to_euclidean_division_equations; lia).
  assert (∀ a, (yoe + a + era * 400) / 100 = (yoe + a) / 100 + era * 4) as H100 by (intros a; Z.to_euclidean_division_equations; lia).
  assert (∀ a, (yoe + a + era * 400) / 400 = (yoe + a) / 400 + era) as H400 by (intros a; Z.to_euclidean_division_equations; lia).
  pose proof (H4 0) as H40. pose proof (H100 0) as H1000. pose proof (H400 0) as H4000. rewrite !Z.add_0_r in *.
  assert (yoe / 400 = 0) as E by (apply Z.div_small; lia). rewrite E in *.
  replace (yoe + era * 400 + 1) with (yoe + 1 + era * 400) by lia. rewrite H4, H100, H400, H40, H1000, H4000. lia.
Qed.

Lemma march_mono y y' : y <= y' → march y <= march y'.
Proof.
  intros H. pose proof (Z.div_le_mono y y' 4 ltac:(lia) H). pose proof (Z.div_le_mono y y' 400 ltac:(lia) H).
  assert (y' / 100 - y / 100 <= y' - y) by (pose proof (Z.div_mod y 100); pose proof (Z.mod_pos_bound y 100); pose proof (Z.div_mod y' 100); pose proof (Z.mod_pos_bound y' 100); lia). unfold march. lia.
Qed.

Lemma month_of_day doy f :
  28 <= f <= 29 → 0 <= doy < 337 + f ->
  let mp := (5 * doy + 2) / 153 in
  let d := doy - (153 * mp + 2) / 5 + 1 in
  let m := if mp <? 10 then mp + 3 else mp - 9 in
  1 <= m <= 12 ∧ (if 2 <? m then m - 3 else m + 9) = mp ∧ (m <=? 2) = (10 <=? mp) ∧ 0 <= 153 * mp + 2 ∧
  1 <= d <= (if m =? 2 then f else days_in_month 0 m).
Proof.
  intros Hf Hd. cbn zeta. assert (0 <= (5 * doy + 2) / 153 <= 11) as Hmp by (Z.to_euclidean_division_equations; lia).
  assert (153 * ((5 * doy + 2) / 153) <= 5 * doy + 2 < 153 * ((5 * doy + 2) / 153) + 153) as Hb by (Z.to_euclidean_division_equations; lia).
  revert Hmp Hb. generalize ((5 * doy + 2) / 153). intros mp Hmp Hb.
  assert (mp = 0 ∨ mp = 1 ∨ mp = 2 ∨ mp = 3 ∨ mp = 4 ∨ mp = 5 ∨ mp = 6 ∨ mp = 7 ∨ mp = 8 ∨ mp = 9 ∨ mp = 10 ∨ mp = 11) as Hc by lia.
  repeat destruct Hc as [Hc|Hc]; subst mp; (split; [vm_compute; by split|]); (do 2 (split; [reflexivity|]));
    (split; [lia|]); match goal with |- 1 <= doy - ?s + 1 <= ?l =>
      let s' := eval vm_compute in s in let l' := eval vm_compute in l in change (1 <= doy - s' + 1 <= l') end; lia.
Qed.

Lemma days_in_month_year y m : m <> 2 → days_in_month y m = days_in_month 0 m.
Proof. unfold days_in_month. intros H. repeat case_match; try done. Qed.
Lemma february y : 28 <= days_in_month y 2 <= 29.
Proof. cbn -[Z.rem]. by case_match. Qed.

Lemma days_march y m d :
  1 <= m <= 12 ->
  days_from_civil y m d = march (if m <=? 2 then y - 1 else y) + (153 * (if 2 <? m then m - 3 else m + 9) + 2) / 5 + d - 1 - 719468.
Proof. intros Hm. rewrite days_floor. cbn zeta. rewrite Z.quot_div_nonneg; [done| |lia]. destruct (Z.ltb_spec 2 m); lia. Qed.

Lemma civil_from_days_spec z :
  let '(y, m, d) := civil_from_days z in valid_date y m d ∧ days_from_civil y m d = z.
Proof.
  rewrite civil_floor. cbn zeta. destruct (year_of_day (z + 719468)) as [-> Hy].
  revert Hy. generalize ((((z + 719468) mod 146097 - (z + 719468) mod 146097 / 1460 + (z + 719468) mod 146097 / 36524
    - (z + 719468) mod 146097 / 146096) / 365) + (z + 719468) / 146097 * 400). intros y Hy.
  pose proof (march_next y) as Hn. pose proof (february (y + 1)) as Hf.
  pose proof (month_of_day (z + 719468 - march y) _ Hf ltac:(lia)) as H. cbn zeta in H.
  revert H. generalize ((5 * (z + 719468 - march y) + 2) / 153). intros mp.
  set (m := if mp <? 10 then mp + 3 else mp - 9). intros (Hm&Hmp&Hle&Hpos&Hd). split.
  - split; [done|]. destruct (Z.eqb_spec m 2) as [->|Hne]; [exact Hd|]. by rewrite days_in_month_year.
  - rewrite days_march, Hmp by done. destruct (m <=? 2); [rewrite Z.add_simpl_r|]; lia.
Qed.

(** A valid date as a day of a year that begins in March. *)
Lemma valid_march y m d :
  valid_date y m d ->
  let y' := if m <=? 2 then y - 1 else y in
  let mp := if 2 <? m then m - 3 else m + 9 in
  let doy := (153 * mp + 2) / 5 + d - 1 in
  0 <= doy < march (y' + 1) - march y' ∧ mp = (5 * doy + 2) / 153.
Proof.
  intros [Hm Hd]. cbn zeta. rewrite march_next. pose proof (february ((if m <=? 2 then y - 1 else y) + 1)) as Hf.
  assert (m = 1 ∨ m = 2 ∨ m = 3 ∨ m = 4 ∨ m = 5 ∨ m = 6 ∨ m = 7 ∨ m = 8 ∨ m = 9 ∨ m = 10 ∨ m = 11 ∨ m = 12) as Hc by lia.
  assert (∀ s n, (153 * n + 2) / 5 = s → 0 <= s + d - 1 < 337 + days_in_month ((if m <=? 2 then y - 1 else y) + 1) 2 ->
    153 * n <= 5 * (s + d - 1) + 2 < 153 * n + 153 ->
    0 <= (153 * n + 2) / 5 + d - 1 < 337 + days_in_month ((if m <=? 2 then y - 1 else y) + 1) 2 ∧
    n = (5 * ((153 * n + 2) / 5 + d - 1) + 2) / 153) as Hs.
  { intros s n <- ? ?. split; [done|]. apply Z.div_unique with (r := 5 * ((153 * n + 2) / 5 + d - 1) + 2 - 153 * n); lia. }
  repeat destruct Hc as [Hc|Hc]; subst m; cbn [Z.leb Z.ltb Z.compare Pos.compare Pos.compare_cont] in *;
    match goal with |- _ ∧ ?n = _ => let s := eval vm_compute in ((153 * n + 2) / 5) in apply (Hs s n eq_refl) end;
    rewrite ?Z.sub_add in *; first [lia|cbn [days_in_month] in Hd; lia].
Qed.

Lemma days_from_civil_inj y m d y' m' d' :
  valid_date y m d → valid_date y' m' d' → days_from_civil y m d = days_from_civil y' m' d' → (y, m, d) = (y', m', d').
Proof.
  intros H H' E. pose proof (valid_march _ _ _ H) as [Hr Hm]. pose proof (valid_march _ _ _ H') as [Hr' Hm']. cbn zeta in *.
  destruct H as [Hv _], H' as [Hv' _]. rewrite !days_march in E by done.
  assert ((if m <=? 2 then y - 1 else y) = (if m' <=? 2 then y' - 1 else y')) as Ey.
  { set (a := if m <=? 2 then _ else _) in *. set (b := if m' <=? 2 then _ else _) in *.
    destruct (Z.lt_trichotomy a b) as [Hab|[Hab|Hab]]; [|done|].
    - pose proof (march_mono (a + 1) b ltac:(lia)). lia.
    - pose proof (march_mono (b + 1) a ltac:(lia)). lia. }
  rewrite Ey in *. assert ((153 * (if 2 <? m then m - 3 else m + 9) + 2) / 5 + d = (153 * (if 2 <? m' then m' - 3 else m' + 9) + 2) / 5 + d')
    as Ed by lia.
  assert ((if 2 <? m then m - 3 else m + 9) = (if 2 <? m' then m' - 3 else m' + 9)) as Em by (rewrite Hm, Hm'; do 2 f_equal; lia).
  rewrite Em in Ed. assert (m = m') as ->; [|assert (d = d') as -> by lia; destruct (m' <=? 2); repeat f_equal; lia].
  destruct (Z.ltb_spec 2 m), (Z.ltb_spec 2 m'); lia.
Qed.

Lemma civil_from_days_from_civil y m d : valid_date y m d → civil_from_days (days_from_civil y m d) = (y, m, d).
Proof.
  intros H. pose proof (civil_from_days_spec (days_from_civil y m d)) as Hs.
  destruct (civil_from_days _) as [[y' m'] d']. destruct Hs as [H' E]. by apply days_from_civil_inj.
Qed.

(** Zeller's congruence counts the days from a Sunday. *)
Lemma zeller y m d :
  1 <= m <= 12 → 0 < y → 0 < d →
  weekday_of (mkCivil y m d 0 0 0 0) = (days_from_civil y m d + 4) mod 7.
Proof.
  intros Hm Hy Hd. unfold weekday_of. cbn [year month day]. rewrite days_march by done. unfold march.
  assert (m = 1 ∨ m = 2 ∨ m = 3 ∨ m = 4 ∨ m = 5 ∨ m = 6 ∨ m = 7 ∨ m = 8 ∨ m = 9 ∨ m = 10 ∨ m = 11 ∨ m = 12) as Hc by lia.
  repeat destruct Hc as [Hc|Hc]; subst m; cbn [Z.leb Z.ltb Z.compare Pos.compare Pos.compare_cont];
    Z.to_euclidean_division_equations; lia.
Qed.

Lemma weekday_of_days c :
  1 <= month c <= 12 → 0 < year c → 0 < day c →
  weekday_of c = (days_from_civil (year c) (month c) (day c) + 4) mod 7.
Proof. intros. by rewrite <-zeller. Qed.

(** ** Instants and their components *)

Record valid_civil (c : CivilComponents) : Prop := {
  civil_date : valid_date (year c) (month c) (day c);
  civil_hour : 0 <= hour c < 24;
  civil_minute : 0 <= minute c < 60;
  civil_second : 0 <= second c < 60;
  civil_milli : 0 <= millisecond c < 1000 }.

Lemma civil_from_millis_valid t : valid_civil (civil_from_millis t).
Proof.
  unfold civil_from_millis. pose proof (civil_from_days_spec (t / 1000 / 60 / 60 / 24)) as H.
  destruct (civil_from_days _) as [[y m] d]. destruct H as [H _].
  split; cbn; [done|apply Z.mod_pos_bound; lia..].
Qed.

Lemma millis_from_civil_from_millis t : millis_from_civil (civil_from_millis t) = t.
Proof.
  unfold millis_from_civil, civil_from_millis. pose proof (civil_from_days_spec (t / 1000 / 60 / 60 / 24)) as H.
  destruct (civil_from_days _) as [[y m] d]. destruct H as [_ H]. cbn [year month day hour minute second millisecond].
  rewrite H. rewrite !Z.mod_eq by lia. lia.
Qed.

Lemma div_digit a b r : 0 <= r < b → (a * b + r) / b = a.
Proof. intros H. symmetry. apply Z.div_unique with r; lia. Qed.

Lemma mod_digit a b r : 0 <= r < b → (a * b + r) mod b = r.
Proof. intros H. symmetry. apply Z.mod_unique with a; lia. Qed.

Lemma civil_from_millis_from_civil c : valid_civil c → civil_from_millis (millis_from_civil c) = c.
Proof.
  intros [Hd Hh Hm Hs Hms]. unfold millis_from_civil, civil_from_millis.
  replace (_ + _ + _) with ((((days_from_civil (year c) (month c) (day c) * 24 + hour c) * 60 + minute c) * 60 + second c)
    * 1000 + millisecond c) by lia.
  rewrite !div_digit, !mod_digit, civil_from_days_from_civil by done. by destruct c.
Qed.

(** ** Carrying *)

Lemma days_in_month_pos y m : 28 <= days_in_month y m.
Proof. unfold days_in_month. repeat case_match; lia. Qed.

(** The first day after a month is the first of the next. *)
Lemma days_next_month y m d :
  1 <= m <= 12 →
  days_from_civil y m (d + days_in_month y m) =
  if 12 <? m + 1 then days_from_civil (y + 1) 1 d else days_from_civil y (m + 1) d.
Proof.
  intros Hm.
  assert (m = 1 ∨ m = 2 ∨ m = 3 ∨ m = 4 ∨ m = 5 ∨ m = 6 ∨ m = 7 ∨ m = 8 ∨ m = 9 ∨ m = 10 ∨ m = 11 ∨ m = 12) as Hc by lia.
  pose proof (march_next (y - 1)) as Hy. rewrite Z.sub_add in Hy.
  repeat destruct Hc as [Hc|Hc]; subst m; rewrite ?days_march by done;
    repeat match goal with |- context [Zpos ?a + Zpos ?b] =>
      let c := eval vm_compute in (Zpos a + Zpos b) in change (Zpos a + Zpos b) with c end;
    cbn [Z.leb Z.ltb Z.compare Pos.compare Pos.compare_cont]; rewrite ?Z.add_simpl_r;
    Z.to_euclidean_division_equations; first [lia|cbn [days_in_month]; lia].
Qed.

Lemma carry_days_spec fuel : ∀ y m d,
  1 <= m <= 12 → 1 <= d → (Z.to_nat d <= fuel)%nat →
  let '(y', m', d') := carry_days fuel y m d in
  valid_date y' m' d' ∧ days_from_civil y' m' d' = days_from_civil y m d.
Proof.
  induction fuel as [|fuel IH]; intros y m d Hm Hd Hf; [lia|]. cbn [carry_days].
  pose proof (days_in_month_pos y m) as Hp. pose proof (days_next_month y m (d - days_in_month y m) Hm) as Hn.
  rewrite Z.sub_add in Hn. destruct (Z.ltb_spec (days_in_month y m) d) as [Hlt|Hge]; [|by split; [split; lia|]].
  rewrite Hn. destruct (Z.ltb_spec 12 (m + 1)); apply IH; lia.
Qed.

(** Normalizing keeps the instant and makes the components valid. *)
Lemma normalize_civil_spec c :
  1 <= month c <= 12 → 1 <= day c → 0 <= hour c → 0 <= minute c → 0 <= second c < 60 → 0 <= millisecond c < 1000 →
  valid_civil (normalize_civil c) ∧ millis_from_civil (normalize_civil c) = millis_from_civil c.
Proof.
  intros Hm Hd Hh Hmi Hs Hms. unfold normalize_civil, millis_from_civil.
  assert (0 <= minute c / 60) by (apply Z.div_pos; lia).
  assert (0 <= (hour c + minute c / 60) / 24) by (apply Z.div_pos; lia).
  set (h := hour c + minute c / 60) in *.
  pose proof (carry_days_spec (Z.to_nat (day c + h / 24)) (year c) (month c) (day c + h / 24) Hm ltac:(lia) (le_n _)) as H'.
  destruct (carry_days _ _ _ _) as [[y m] d]. destruct H' as [Hv He]. cbn [year month day hour minute second millisecond]. split.
  - split; cbn; [done|apply Z.mod_pos_bound; lia..|done|done].
  - rewrite He. assert (∀ e, days_from_civil (year c) (month c) (day c + e) = days_from_civil (year c) (month c) (day c) + e) as ->.
    { intros e. rewrite !days_march by done. lia. }
    rewrite !Z.mod_eq by lia. subst h. lia.
Qed.

(** The next minute. *)
Definition add_minute (c : CivilComponents) : CivilComponents :=
  normalize_civil (mkCivil (year c) (month c) (day c) (hour c) (minute c + 1) (second c) (millisecond c)).

Lemma add_minute_spec c : valid_civil c → add_minute c = civil_from_millis (millis_from_civil c + 60000).
Proof.
  intros [[Hm Hd] Hh Hmi Hs Hms]. unfold add_minute.
  destruct (normalize_civil_spec (mkCivil (year c) (month c) (day c) (hour c) (minute c + 1) (second c) (millisecond c))
    Hm (proj1 Hd) (proj1 Hh) ltac:(cbn [minute]; lia) Hs Hms) as [Hv He].
  rewrite <-(civil_from_millis_from_civil _ Hv), He. f_equal. unfold millis_from_civil.
  cbn [year month day hour minute second millisecond]. lia.
Qed.

(** The components at minute [t]. *)
Definition minutes_of (t : Z) : CivilComponents := civil_from_millis (t * 60000).

Lemma next_minute t : add_minute (minutes_of t) = minutes_of (t + 1).
Proof.
  unfold minutes_of. rewrite add_minute_spec by apply civil_from_millis_valid.
  rewrite millis_from_civil_from_millis. f_equal. lia.
Qed.
