(* ===== verification/Cron.v ===== *)
(** * Cron schedules

    The cron expressions of [pi-coding-agent/src/core/cron_jobs.rs]: the parser of the five
    fields and [next_cron_run_after], which walks minute by minute through the local wall
    time.  The offset of the local time zone at an instant is the zone's, a parameter of the
    functions that read it ([local_offset_millis] asks [chrono]). *)
From stdpp Require Import base list numbers gmap sets strings.
From S2P Require Import Prelude RustStr Calendar.

Local Open Scope Z_scope.

Record CronFields : Type := mkFields {
  f_minute : gset Z; f_hour : gset Z; f_day_of_month : gset Z; f_month : gset Z; f_day_of_week : gset Z }.

(** [value.parse::<i64>()] of digits. *)
Definition parse_digits (value : str) : option Z :=
  n ← digits_value 0 value; if (n <=? 9223372036854775807)%N then Some (Z.of_N n) else None.

Definition parse_cron_number (value : str) (min max : Z) : result Z str :=
  if is_empty value || negb (forallb is_ascii_digit value) then Err (lit "Invalid cron number: " ++ value)
  else match parse_digits value with
  | None => Err (lit "Invalid cron number: " ++ value)
  | Some parsed =>
      if (parsed <? min) || (max <? parsed) then Err (lit "Cron number out of range: " ++ value) else Ok parsed
  end.

(** [while value <= end { values.insert(value); value += step }]. *)
Fixpoint insert_range (fuel : nat) (value end_ step : Z) (values : gset Z) : gset Z :=
  match fuel with
  | O => values
  | S fuel => if value <=? end_ then insert_range fuel (value + step) end_ step ({[value]} ∪ values) else values
  end.

(** [splitn(2, c)]: what is before the first [c], and after it if there is one. *)
Definition splitn2 (c : N) (s : str) : str * option str :=
  match split_once c s with Some (a, b) => (a, Some b) | None => (s, None) end.

(** The range and the step of a part. *)
Definition part_range (min max : Z) (part : str) : result (Z * Z * Z) str :=
  let '(range_text, step_text) := splitn2 47 part in
  let* step := match step_text with None => Ok 1 | Some t => parse_cron_number t 1 max end in
  if str_eqb range_text (lit "*") then Ok (min, max, step)
  else match splitn2 45 range_text with
  | (start_text, Some end_text) =>
      let* start := parse_cron_number start_text min max in
      let* end_ := parse_cron_number end_text min max in
      if end_ <? start then Err (lit "Invalid cron range: " ++ range_text) else Ok (start, end_, step)
  | (_, None) => let* start := parse_cron_number range_text min max in Ok (start, start, step)
  end.

Definition parse_part (field : str) (min max : Z) (values : gset Z) (part : str) : result (gset Z) str :=
  if is_empty part then Err (lit "Invalid cron field: " ++ field)
  else
    let* r := part_range min max part in
    let '(start, end_, step) := r in
    Ok (insert_range (Z.to_nat (end_ - start + 1)) start end_ step values).

Definition parse_cron_field (field : str) (min max : Z) : result (gset Z) str :=
  rfold (parse_part field min max) ∅ (split_on 44 field).

Definition parse_cron_expression (expression : str) : result CronFields str :=
  match split_whitespace (trim expression) with
  | [p0; p1; p2; p3; p4] =>
      let* minute := parse_cron_field p0 0 59 in
      let* hour := parse_cron_field p1 0 23 in
      let* day_of_month := parse_cron_field p2 1 31 in
      let* month := parse_cron_field p3 1 12 in
      let* day_of_week := parse_cron_field p4 0 7 in
      Ok (mkFields minute hour day_of_month month day_of_week)
  | _ => Err (lit "Unsupported cron schedule. Use 'in 10m', 'at <ISO date>', @hourly, or five fields: minute hour day month weekday")
  end.

Definition contains (s : gset Z) (v : Z) : bool := bool_decide (v ∈ s).

Definition matches_cron_fields (c : CivilComponents) (fields : CronFields) : bool :=
  let day_ := weekday_of c in
  let day_matches := contains (f_day_of_week fields) day_ || ((day_ =? 0) && contains (f_day_of_week fields) 7) in
  contains (f_minute fields) (minute c) && contains (f_hour fields) (hour c)
  && contains (f_day_of_month fields) (day c) && contains (f_month fields) (month c) && day_matches.

Section Zone.
Context (local_offset_millis : Z → Z).

Definition local_civil_from_millis (millis : Z) : CivilComponents :=
  civil_from_millis (millis + local_offset_millis millis).

Definition millis_from_local_civil (c : CivilComponents) : Z :=
  let as_utc := millis_from_civil c in
  let once := as_utc - local_offset_millis as_utc in
  as_utc - local_offset_millis once.

(** The loop of [next_cron_run_after]; [None]: the fuel is used up. *)
Fixpoint search (fuel : nat) (c : CivilComponents) (candidate deadline : Z) (fields : CronFields) : option (option Z) :=
  match fuel with
  | O => None
  | S fuel =>
      if candidate <=? deadline then
        if matches_cron_fields c fields then Some (Some candidate)
        else let c := add_minute c in search fuel c (millis_from_local_civil c) deadline fields
      else Some None
  end.

Definition YEAR_MS : Z := 366 * 24 * 60 * 60000.

(** The minutes of 366 days and of the offsets at both ends. *)
Definition search_fuel : nat := Z.to_nat (370 * 24 * 60).

Definition next_cron_run_after (expression : str) (after_ms : Z) : option (result Z str) :=
  match parse_cron_expression expression with
  | Err e => Some (Err e)
  | Ok fields =>
      let c := local_civil_from_millis after_ms in
      let c := add_minute (mkCivil (year c) (month c) (day c) (hour c) (minute c) 0 0) in
      let candidate := millis_from_local_civil c in
      match search search_fuel c candidate (candidate + YEAR_MS) fields with
      | None => None
      | Some (Some t) => Some (Ok t)
      | Some None => Some (Err (lit "Cron schedule did not match within one year: " ++ expression))
      end
  end.
End Zone.

(** ** The values of a field *)

Lemma insert_range_spec fuel : ∀ value end_ step values v,
  1 <= step → end_ - value < Z.of_nat fuel →
  v ∈ insert_range fuel value end_ step values ↔ v ∈ values ∨ value <= v <= end_ ∧ (v - value) mod step = 0.
Proof.
  induction fuel as [|fuel IH]; intros value end_ step values v Hs Hf; cbn [insert_range].
  - split; [auto|]. intros [?|[? _]]; [done|lia].
  - destruct (Z.leb_spec value end_) as [Hle|Hgt]; [|split; [auto|intros [?|[? _]]; [done|lia]]].
    rewrite IH by lia. rewrite elem_of_union, elem_of_singleton.
    assert ((v - (value + step)) mod step = (v - value) mod step) as ->.
    { replace (v - value) with (v - (value + step) + 1 * step) by lia. rewrite Z.mod_add by lia. done. }
    split.
    + intros [[->|?]|[? ?]]; [right|by left|right; split; [lia|done]].
      split; [lia|]. by rewrite Z.sub_diag.
    + intros [?|[Hv Hm]]; [by auto|]. destruct (decide (v = value)) as [->|Hne]; [by auto|]. right. split; [|done].
      assert (step <= v - value); [|lia].
      pose proof (Z.div_mod (v - value) step ltac:(lia)) as Hd. rewrite Hm in Hd.
      assert (0 < (v - value) / step) by nia. nia.
Qed.

Lemma parse_cron_number_bounds value min max n : parse_cron_number value min max = Ok n → min <= n <= max.
Proof.
  unfold parse_cron_number. intros H. destruct (_ || _); [done|]. destruct (parse_digits value) as [p|]; [|done].
  destruct (Z.ltb_spec p min), (Z.ltb_spec max p); try done. injection H as <-. lia.
Qed.

Lemma part_range_bounds min max part start end_ step :
  1 <= max → part_range min max part = Ok (start, end_, step) → min <= max →
  min <= start ∧ start <= end_ <= max ∧ 1 <= step.
Proof.
  intros Hmax H Hle. unfold part_range in H. destruct (splitn2 47 part) as [range_text step_text].
  destruct (match step_text with None => Ok 1 | Some t => parse_cron_number t 1 max end) as [st|] eqn:Es; [|done].
  assert (1 <= st) as Hst.
  { destruct step_text as [t|]; [by eapply parse_cron_number_bounds in Es; lia|by injection Es as <-]. }
  destruct (str_eqb range_text _); [injection H as <- <- <-; lia|].
  destruct (splitn2 45 range_text) as [a [b|]].
  - destruct (parse_cron_number a min max) as [x|] eqn:Ea; [|done]. destruct (parse_cron_number b min max) as [y|] eqn:Eb; [|done].
    apply parse_cron_number_bounds in Ea, Eb. destruct (Z.ltb_spec y x); [done|]. injection H as <- <- <-. lia.
  - destruct (parse_cron_number range_text min max) as [x|] eqn:Ea; [|done]. apply parse_cron_number_bounds in Ea.
    injection H as <- <- <-. lia.
Qed.

(** A part of a field names a value. *)
Definition part_names (min max : Z) (part : str) (v : Z) : Prop :=
  ∃ start end_ step, part_range min max part = Ok (start, end_, step) ∧ start <= v <= end_ ∧ (v - start) mod step = 0.

Lemma parse_parts_spec field min max parts : ∀ values s,
  1 <= max → min <= max → rfold (parse_part field min max) values parts = Ok s →
  (∀ part, part ∈ parts → part ≠ [] ∧ ∃ r, part_range min max part = Ok r) ∧
  ∀ v, v ∈ s ↔ v ∈ values ∨ ∃ part, part ∈ parts ∧ part_names min max part v.
Proof.
  induction parts as [|part parts IH]; intros values s Hmax Hle H; cbn [rfold] in H.
  - injection H as <-. split; [by intros ? ?%elem_of_nil|]. intros v. split; [auto|]. intros [?|(?&[]%elem_of_nil&_)]. done.
  - destruct (parse_part field min max values part) as [values'|] eqn:Ep; [|done].
    destruct (IH values' s Hmax Hle H) as [Hall Hv]. unfold parse_part in Ep.
    destruct part as [|c part]; [done|]. cbn [is_empty] in Ep.
    destruct (part_range min max (c :: part)) as [[[start end_] step]|] eqn:Er; [|done]. injection Ep as <-.
    destruct (part_range_bounds _ _ _ _ _ _ Hmax Er Hle) as (H1&H2&H3). split.
    + intros p [->|Hp]%elem_of_cons; [split; [done|eauto]|by apply Hall].
    + intros v. rewrite Hv, insert_range_spec by lia. split.
      * intros [[?|[? ?]]|(p&Hp&Hn)]; [by left|right|right].
        -- exists (c :: part). split; [by left|]. by exists start, end_, step.
        -- exists p. split; [by right|done].
      * intros [?|(p&[->|Hp]%elem_of_cons&Hn)]; [by auto| |right; eauto].
        destruct Hn as (a&b&t&E&Hr&Hm). rewrite Er in E. injection E as <- <- <-. left. by right.
Qed.

(** A field stands for the numbers its parts name, at least one, all in range. *)
Lemma cron_field_values field min max s :
  1 <= max → min <= max → parse_cron_field field min max = Ok s →
  (∀ v, v ∈ s ↔ ∃ part, part ∈ split_on 44 field ∧ part_names min max part v) ∧
  (∀ v, v ∈ s → min <= v <= max) ∧ s ≠ ∅.
Proof.
  intros Hmax Hle H. destruct (parse_parts_spec _ _ _ _ _ _ Hmax Hle H) as [Hall Hv].
  assert (∀ v, v ∈ s ↔ ∃ part, part ∈ split_on 44 field ∧ part_names min max part v) as Hs.
  { intros v. rewrite Hv. split; [by intros [?%not_elem_of_empty|?]|by auto]. }
  split; [done|]. split.
  - intros v (part&_&a&b&t&E&Hr&_)%Hs. destruct (part_range_bounds _ _ _ _ _ _ Hmax E Hle). lia.
  - assert (∃ p, p ∈ split_on 44 field) as [p Hp].
    { destruct (split_on 44 field) as [|p l] eqn:E; [|exists p; by left]. exfalso. revert E. clear.
      destruct field as [|c f]; [done|]. cbn. destruct (_ =? _)%N; [done|]. by destruct (split_on 44 f). }
    destruct (Hall p Hp) as (_&[[a b] t]&E). destruct (part_range_bounds _ _ _ _ _ _ Hmax E Hle) as (H1&H2&H3).
    intros Hempty. apply (not_elem_of_empty (C := gset Z) a). rewrite <-Hempty. apply Hs. exists p. split; [done|].
    exists a, b, t. split; [done|]. split; [lia|by rewrite Z.sub_diag].
Qed.

(** ** The minutes a schedule names *)

(** The schedule names minute [t] of the wall clock, counted from 1970: its time of day, its
    date, and the day of the week it falls on (day 0 was a Thursday). *)
Definition fires (fields : CronFields) (t : Z) : Prop :=
  t mod 60 ∈ f_minute fields ∧ (t / 60) mod 24 ∈ f_hour fields ∧
  (∃ y m d, valid_date y m d ∧ days_from_civil y m d = t / 1440 ∧ d ∈ f_day_of_month fields ∧ m ∈ f_month fields) ∧
  ((t / 1440 + 4) mod 7 ∈ f_day_of_week fields ∨ (t / 1440 + 4) mod 7 = 0 ∧ 7 ∈ f_day_of_week fields).

Lemma minutes_of_parts t :
  let c := minutes_of t in
  minute c = t mod 60 ∧ hour c = (t / 60) mod 24 ∧ second c = 0 ∧ millisecond c = 0 ∧
  valid_date (year c) (month c) (day c) ∧ days_from_civil (year c) (month c) (day c) = t / 1440.
Proof.
  cbn zeta. unfold minutes_of, civil_from_millis. replace (t * 60000) with (t * 60 * 1000) by lia.
  rewrite Z.div_mul, Z.mod_mul by lia. rewrite Z.div_mul, Z.mod_mul by lia. rewrite !Z.div_div by lia. cbn [Z.mul Pos.mul].
  pose proof (civil_from_days_spec (t / (60 * 24))) as H. change (60 * 24) with 1440 in *.
  destruct (civil_from_days (t / 1440)) as [[y m] d]. by destruct H.
Qed.

Lemma positive_year t : 0 <= t → 0 < year (minutes_of t).
Proof.
  intros Ht. destruct (minutes_of_parts t) as (_&_&_&_&[Hm Hd]&He). cbn zeta in *.
  assert (0 <= t / 1440) by (apply Z.div_pos; lia).
  destruct (Z.lt_ge_cases 0 (year (minutes_of t))) as [?|Hy]; [done|exfalso].
  pose proof (valid_march _ _ _ {| valid_month := Hm; valid_day := Hd |}) as [Hr _]. cbn zeta in Hr.
  rewrite days_march in He by done.
  pose proof (march_mono ((if month (minutes_of t) <=? 2 then year (minutes_of t) - 1 else year (minutes_of t)) + 1) 1).
  assert (march 1 = 365) by done. destruct (_ <=? 2); lia.
Qed.

Lemma matches_fires fields t : 0 <= t → matches_cron_fields (minutes_of t) fields = true ↔ fires fields t.
Proof.
  intros Ht. pose proof (positive_year t Ht) as Hy. destruct (minutes_of_parts t) as (Hmi&Hh&_&_&Hv&He). cbn zeta in *.
  destruct (civil_from_millis_valid (t * 60000)) as [[Hm Hd] _ _ _ _]. fold (minutes_of t) in *.
  unfold matches_cron_fields, contains. rewrite weekday_of_days, He, Hmi, Hh by lia.
  rewrite !andb_true_iff, orb_true_iff, andb_true_iff, !bool_decide_eq_true, Z.eqb_eq. unfold fires. split.
  - intros [[[[? ?] ?] ?] ?]. split; [done|]. split; [done|]. split; [|done]. eauto 8.
  - intros (?&?&(y&m&d&Hv'&He'&Hd'&Hm')&?). rewrite <-He in He'.
    pose proof (days_from_civil_inj _ _ _ _ _ _ Hv' Hv He') as [= -> -> ->]. done.
Qed.

(** ** The first run *)

Section First.
Context (local_offset_millis : Z → Z).

(** The minute the wall clock shows at an instant, and the instant a wall-clock minute is
    taken for. *)
Definition wall_minute (t : Z) : Z := (t + local_offset_millis t) / 60000.
Definition instant_of (t : Z) : Z :=
  t * 60000 - local_offset_millis (t * 60000 - local_offset_millis (t * 60000)).

Lemma instant_of_civil t : millis_from_local_civil local_offset_millis (minutes_of t) = instant_of t.
Proof. unfold millis_from_local_civil, minutes_of. by rewrite millis_from_civil_from_millis. Qed.

Lemma search_spec fields deadline fuel : ∀ t,
  match search local_offset_millis fuel (minutes_of t) (instant_of t) deadline fields with
  | Some (Some r) => ∃ n, t <= n ∧ r = instant_of n ∧ r <= deadline ∧ matches_cron_fields (minutes_of n) fields = true ∧
      ∀ k, t <= k < n → matches_cron_fields (minutes_of k) fields = false
  | Some None => ∃ n, t <= n ∧ deadline < instant_of n ∧
      ∀ k, t <= k < n → matches_cron_fields (minutes_of k) fields = false
  | None => ∀ k, t <= k < t + Z.of_nat fuel → instant_of k <= deadline
  end.
Proof.
  induction fuel as [|fuel IH]; intros t; cbn [search]; [lia|].
  destruct (Z.leb_spec (instant_of t) deadline) as [Hle|Hgt]; [|by exists t; split; [lia|split; [done|lia]]].
  destruct (matches_cron_fields (minutes_of t) fields) eqn:Em.
  { exists t. split; [lia|]. split; [done|]. split; [done|]. split; [done|lia]. }
  rewrite next_minute, instant_of_civil. specialize (IH (t + 1)).
  destruct (search _ fuel _ _ _ _) as [[r|]|].
  - destruct IH as (n&Hn&Hr&Hd&Hm&Hk). exists n. split; [lia|]. do 3 (split; [done|]).
    intros k Hkn. destruct (decide (k = t)) as [->|?]; [done|]. apply Hk. lia.
  - destruct IH as (n&Hn&Hr&Hk). exists n. split; [lia|]. split; [done|].
    intros k Hkn. destruct (decide (k = t)) as [->|?]; [done|]. apply Hk. lia.
  - intros k Hk. destruct (decide (k = t)) as [->|?]; [done|]. apply IH. lia.
Qed.

Lemma first_minute after :
  let c := local_civil_from_millis local_offset_millis after in
  add_minute (mkCivil (year c) (month c) (day c) (hour c) (minute c) 0 0) = minutes_of (wall_minute after + 1).
Proof.
  cbn zeta. unfold local_civil_from_millis. rewrite <-next_minute. f_equal. unfold wall_minute.
  destruct (civil_from_millis_valid (after + local_offset_millis after)) as [Hv Hh Hm Hs Hms].
  pose proof (millis_from_civil_from_millis (after + local_offset_millis after)) as E.
  revert Hv Hh Hm Hs Hms E. generalize (civil_from_millis (after + local_offset_millis after)). intros c Hv Hh Hm Hs Hms E.
  unfold minutes_of. rewrite <-E.
  assert (valid_civil (mkCivil (year c) (month c) (day c) (hour c) (minute c) 0 0)) as Hc by (by split; cbn; try lia).
  rewrite <-(civil_from_millis_from_civil _ Hc). f_equal. unfold millis_from_civil. cbn [year month day hour minute second millisecond].
  generalize ((days_from_civil (year c) (month c) (day c) * 24 + hour c) * 60 + minute c). intros m.
  replace (m * 60000 + second c * 1000 + millisecond c) with (m * 60000 + (second c * 1000 + millisecond c)) by lia.
  rewrite div_digit by lia. lia.
Qed.

Lemma search_fuel_large : Z.of_nat search_fuel = 370 * 24 * 60.
Proof. unfold search_fuel. rewrite Z2Nat.id; [done|]. lia. Qed.

(** The fuel is enough. *)
Lemma search_ends fields t :
  (∀ t, Z.abs (local_offset_millis t) <= 86400000) →
  search local_offset_millis search_fuel (minutes_of t) (instant_of t) (instant_of t + YEAR_MS) fields ≠ None.
Proof.
  intros Hoff E. pose proof (search_spec fields (instant_of t + YEAR_MS) search_fuel t) as H. rewrite E, search_fuel_large in H.
  specialize (H (t + 369 * 1440) ltac:(lia)). unfold instant_of, YEAR_MS in H. revert H.
  pose proof (Hoff (t * 60000 - local_offset_millis (t * 60000))).
  pose proof (Hoff ((t + 369 * 1440) * 60000 - local_offset_millis ((t + 369 * 1440) * 60000))). lia.
Qed.

(** C20: The next run of a cron schedule is the first minute of the local wall clock, after
    the one it shows now, that the expression names; minutes are told by the proleptic
    Gregorian calendar, days of the week by counting days.  The search ends: it fails only
    when the expression is malformed, or when no minute up to some minute more than 366 days
    later is named.  The offset of the zone may change at any time, within a day of UTC. *)
Theorem next_run_first expression after :
  (∀ t, Z.abs (local_offset_millis t) <= 86400000) → 0 <= after + local_offset_millis after →
  match next_cron_run_after local_offset_millis expression after, parse_cron_expression expression with
  | None, _ => False
  | Some (Ok r), Ok fields =>
      ∃ t, wall_minute after < t ∧ r = instant_of t ∧ fires fields t ∧
        ∀ t', wall_minute after < t' < t → ¬ fires fields t'
  | Some (Err _), Ok fields =>
      ∃ n, instant_of (wall_minute after + 1) + 31622400000 < instant_of n ∧
        ∀ t', wall_minute after < t' < n → ¬ fires fields t'
  | Some (Ok _), Err _ => False
  | Some (Err e), Err e' => e = e'
  end.
Proof.
  intros Hoff Hpos. unfold next_cron_run_after. destruct (parse_cron_expression expression) as [fields|e]; [|done].
  rewrite first_minute, instant_of_civil. assert (0 <= wall_minute after) as Hw by (apply Z.div_pos; lia).
  pose proof (search_spec fields (instant_of (wall_minute after + 1) + YEAR_MS) search_fuel (wall_minute after + 1)) as H.
  pose proof (search_ends fields (wall_minute after + 1) Hoff) as Hends.
  destruct (search _ _ _ _ _ _) as [[r|]|].
  - destruct H as (n&Hn&Hr&_&Hm&Hk). exists n. split; [lia|]. split; [done|]. split; [by apply matches_fires; [lia|]|].
    intros t' Ht' Hf. apply matches_fires in Hf; [|lia]. rewrite Hk in Hf by lia. done.
  - destruct H as (n&Hn&Hd&Hk). exists n. split; [exact Hd|].
    intros t' Ht' Hf. apply matches_fires in Hf; [|lia]. rewrite Hk in Hf by lia. done.
  - exact (Hends eq_refl).
Qed.
End First.

(** In a zone of fixed offset the next run is later than now. *)
Lemma next_run_later o expression after r :
  Z.abs o <= 86400000 → 0 <= after + o →
  next_cron_run_after (λ _, o) expression after = Some (Ok r) →
  after < r ∧ r <= after + 60000 + YEAR_MS.
Proof.
  intros Ho Hpos. unfold next_cron_run_after. destruct (parse_cron_expression expression) as [fields|e]; [|done].
  rewrite (first_minute (λ _, o)), (instant_of_civil (λ _, o)).
  pose proof (search_spec (λ _, o) fields (instant_of (λ _, o) (wall_minute (λ _, o) after + 1) + YEAR_MS) search_fuel
    (wall_minute (λ _, o) after + 1)) as H.
  destruct (search _ _ _ _ _ _) as [[r'|]|]; [|done|done]. intros [= ->]. destruct H as (n&Hn&->&Hd&_).
  unfold instant_of, wall_minute in *. pose proof (Z.mul_div_le (after + o) 60000 ltac:(lia)).
  pose proof (Z.mul_succ_div_gt (after + o) 60000 ltac:(lia)). lia.
Qed.

(** ** Examples *)

(** Monday, 3 March 2025, 09:29:30 in a zone five hours behind UTC. *)
Definition monday : Z := 1741012170000.

Lemma weekday_schedule_next :
  next_cron_run_after (λ _, -18000000) (lit "30 9 * * 1-5") monday = Some (Ok 1741012200000).
Proof. vm_compute. reflexivity. Qed.

Lemma weekday_schedule_parses : ∃ fields, parse_cron_expression (lit "30 9 * * 1-5") = Ok fields.
Proof. vm_compute. eexists. reflexivity. Qed.

Lemma next_run_first_witness :
  ∃ fields t, parse_cron_expression (lit "30 9 * * 1-5") = Ok fields ∧
    wall_minute (λ _, -18000000) monday < t ∧ 1741012200000 = instant_of (λ _, -18000000) t ∧ fires fields t ∧
    ∀ t', wall_minute (λ _, -18000000) monday < t' < t → ¬ fires fields t'.
Proof.
  destruct weekday_schedule_parses as [fields E].
  assert (0 <= monday + -18000000) as Hpos by (by unfold monday).
  pose proof (next_run_first (λ _, -18000000) (lit "30 9 * * 1-5") monday (λ _, ltac:(done)) Hpos) as H.
  rewrite weekday_schedule_next, E in H. destruct H as [t H]. exists fields, t. split; [exact E|exact H].
Defined.

(** The United States east coast around the end of summer time in 2025: at 06:00 UTC the
    clocks go from 02:00 back to 01:00. *)
Definition eastern (t : Z) : Z := if t <? 1762063200000 then -14400000 else -18000000.

(** In the second hour from 01:00 to 02:00 the next run of a job that runs every minute is
    almost an hour ago. *)
Example repeated_hour_runs_in_the_past :
  next_cron_run_after eastern (lit "* * * * *") 1762065000000 = Some (Ok 1762061460000) ∧ 1762061460000 < 1762065000000.
Proof. split; [vm_compute; reflexivity|done]. Qed.

(** A job of 29 February has no next run once it has run. *)
Lemma leap_day_no_next_run fields t :
  f_day_of_month fields = {[29]} → f_month fields = {[2]} →
  21243 < t / 1440 < 21243 + 1400 → ¬ fires fields t.
Proof.
  intros Hd Hm Ht (_&_&(y&m&d&[_ Hv]&He&Hd'&Hm')&_). rewrite Hd in Hd'. rewrite Hm in Hm'.
  apply elem_of_singleton in Hd' as ->, Hm' as ->. rewrite <-He, days_march in Ht by done. cbn in Ht.
  change ((153 * (2 + 9) + 2) / 5) with 337 in Ht.
  assert (march 2027 = 740346 ∧ march 2031 = 741807) as [H27 H31] by done.
  assert (2028 < y < 2032) as Hy.
  { split; [destruct (Z.lt_ge_cases 2028 y); [done|exfalso]|destruct (Z.lt_ge_cases y 2032); [done|exfalso]].
    - pose proof (march_mono (y - 1) 2027 ltac:(lia)). lia.
    - pose proof (march_mono 2031 (y - 1) ltac:(lia)). lia. }
  assert (y = 2029 ∨ y = 2030 ∨ y = 2031) as [->|[->| ->]] by lia; vm_compute in Hv; by destruct Hv as [_ []].
Qed.

(** 29 February 2028, 00:00 UTC. *)
Definition leap_day : Z := 1835395200000.

Lemma leap_day_job_stops :
  next_cron_run_after (λ _, 0) (lit "0 0 29 2 *") leap_day =
  Some (Err (lit "Cron schedule did not match within one year: 0 0 29 2 *")).
Proof.
  unfold next_cron_run_after. destruct (parse_cron_expression (lit "0 0 29 2 *")) as [fields|e] eqn:E; [|by vm_compute in E].
  rewrite (first_minute (λ _, 0)), (instant_of_civil (λ _, 0)).
  change (wall_minute (λ _, 0) leap_day + 1) with 30589921.
  pose proof (search_spec (λ _, 0) fields (instant_of (λ _, 0) 30589921 + YEAR_MS) search_fuel 30589921) as H.
  pose proof (search_ends (λ _, 0) fields 30589921 (λ _, ltac:(done))) as Hends.
  destruct (search _ _ _ _ _ _) as [[r|]|]; [exfalso|done|by destruct Hends].
  destruct H as (n&Hn&->&Hd&Hm&_). unfold instant_of, YEAR_MS in Hd. apply matches_fires in Hm; [|lia].
  assert (f_minute fields = {[0]} ∧ f_hour fields = {[0]} ∧ f_day_of_month fields = {[29]} ∧ f_month fields = {[2]})
    as (E0&E1&E2&E3) by (vm_compute in E; injection E as <-; done).
  destruct (decide (n / 1440 = 21243)) as [Hday|Hday].
  - destruct Hm as (H0&H1&_). rewrite E0 in H0. rewrite E1 in H1. apply elem_of_singleton in H0, H1.
    Z.to_euclidean_division_equations. lia.
  - apply (leap_day_no_next_run fields n E2 E3); [|done]. Z.to_euclidean_division_equations. lia.
Qed.
