(* ===== verification/CronJobs.v ===== *)
(** * Scheduled jobs

    The job store and the scheduler of [pi-coding-agent/src/core/cron_jobs.rs], for one file
    of jobs: claiming the jobs that are due, the record of a dispatch that is kept until its
    result is in, the recovery of dispatches interrupted by a crash, and the writers
    (creating and cancelling a job) that read the jobs, change their copy and merge it back
    under the lock, so that a claim may come in between.

    Instants are integers.  Dates in the file are texts: [iso_string] and [parse_iso_date]
    ([chrono]'s) are an interface with the round trip as its law, and so are the fresh ids.
    The schedule of a created job comes parsed. *)
From stdpp Require Import base list numbers gmap sets strings.
From S2P Require Import Prelude RustStr Calendar Cron.

Local Open Scope Z_scope.

Definition STATUS_ACTIVE : str := lit "active".
Definition STATUS_COMPLETED : str := lit "completed".
Definition STATUS_CANCELLED : str := lit "cancelled".
Definition SCHEDULE_ONCE : str := lit "once".
Definition SCHEDULE_CRON : str := lit "cron".
Definition SCHEDULE_INTERVAL : str := lit "interval".
Definition SOURCE_CRON : str := lit "cron".
Definition RUN_RESULT_SKIPPED : str := lit "skipped".
Definition RUN_RESULT_RAN : str := lit "ran".

Record AgentCronSchedule : Type := mkSchedule { kind : str; expression : str; interval_ms : option Z }.

Record AgentCronJob : Type := mkJob {
  id : str;
  status : str;
  source : option str;
  runtime_kind : option str;
  delivery_mode : option str;
  active_session_id : str;
  session_id : str;
  session_file : str;
  cwd : str;
  label : option str;
  prompt : str;
  schedule : AgentCronSchedule;
  created_at : str;
  updated_at : str;
  next_run_at : option str;
  last_run_at : option str;
  last_skipped_at : option str;
  last_error : option str;
  run_count : N }.

Record AgentCronDispatch : Type := mkDispatch { dispatch_id : str; dispatch_job : AgentCronJob }.

Record AgentCronDispatchRecord : Type := mkRecord {
  record_id : str; job_id : str; claimed_at : str; scheduled_for : str }.

Record CronJobsState : Type := mkState { jobs : list AgentCronJob; dispatches : list AgentCronDispatchRecord }.

(** [chrono] and [uuid].  Every instant up to the year 9999 is read back from its text. *)
Class Dates : Type := {
  iso_string : Z → str;
  parse_iso_date : str → option Z;          (* [None]: not a number *)
  random_uuid : N → str;
  parse_iso_string t : 0 <= t < 253402300800000 → parse_iso_date (iso_string t) = Some t;
  random_uuid_inj m n : random_uuid m = random_uuid n → m = n }.

Section Store.
Context `{Dates} (local_offset_millis : Z → Z).

(** ** Changes of one job *)

(** The fields of a job that the store updates. *)
Definition with_run (j : AgentCronJob) (st : str) (updated : str) (next last skipped error : option str) (runs : N) : AgentCronJob :=
  mkJob (id j) st (source j) (runtime_kind j) (delivery_mode j) (active_session_id j) (session_id j) (session_file j) (cwd j)
    (label j) (prompt j) (schedule j) (created_at j) updated next last skipped error runs.

Definition next_run_at_for_schedule (s : AgentCronSchedule) (after_ms : Z) : result (option Z) str :=
  if str_eqb (kind s) SCHEDULE_ONCE then Ok None
  else if str_eqb (kind s) SCHEDULE_INTERVAL then
    match interval_ms s with
    | Some i => if 0 <? i then Ok (Some (after_ms + i)) else Err (lit "Invalid interval schedule: " ++ expression s)
    | None => Err (lit "Invalid interval schedule: " ++ expression s)
    end
  else match next_cron_run_after local_offset_millis (expression s) after_ms with
  | Some (Ok t) => Ok (Some t)
  | Some (Err e) => Err e
  | None => Err []
  end.

(** [.ok().flatten().map(iso_string)]. *)
Definition next_run_text (s : AgentCronSchedule) (after_ms : Z) : option str :=
  match next_run_at_for_schedule s after_ms with Ok (Some t) => Some (iso_string t) | _ => None end.

Definition is_due_job (j : AgentCronJob) (now_ms : Z) : bool :=
  str_eqb (status j) STATUS_ACTIVE
  && match next_run_at j with
     | Some next => match parse_iso_date next with Some t => t <=? now_ms | None => false end
     | None => false
     end.

(** ** Claiming *)

Record Claim : Type := mkClaim { c_jobs : list AgentCronJob; c_records : list AgentCronDispatchRecord;
                                 c_dispatches : list AgentCronDispatch; c_uuid : N }.

(** One job of [claim_due_in_state]. *)
Definition claim_job (claimed_job_ids : list str) (due_at_ms claimed_at_ms : Z) (c : Claim) (job : AgentCronJob) : Claim :=
  if negb (is_due_job job due_at_ms) then mkClaim (c_jobs c ++ [job]) (c_records c) (c_dispatches c) (c_uuid c)
  else
    let scheduled_for := default [] (next_run_at job) in
    let advanced := with_run job (status job) (iso_string claimed_at_ms) (next_run_text (schedule job) claimed_at_ms)
                      (last_run_at job) (last_skipped_at job) (last_error job) (run_count job) in
    if bool_decide (id job ∈ claimed_job_ids) then
      let skipped := with_run advanced (status advanced) (updated_at advanced) (next_run_at advanced) (last_run_at advanced)
                       (Some (iso_string claimed_at_ms)) (last_error advanced) (run_count advanced) in
      mkClaim (c_jobs c ++ [skipped]) (c_records c) (c_dispatches c) (c_uuid c)
    else
      let dispatch := mkRecord (random_uuid (c_uuid c)) (id job) (iso_string claimed_at_ms) scheduled_for in
      mkClaim (c_jobs c ++ [advanced]) (c_records c ++ [dispatch])
        (c_dispatches c ++ [mkDispatch (record_id dispatch) advanced]) (c_uuid c + 1).

Definition claim_due_in_state (uuid : N) (state : CronJobsState) (due_at_ms claimed_at_ms : Z)
    : CronJobsState * list AgentCronDispatch * N :=
  let claimed_job_ids := map job_id (dispatches state) in
  let c := fold_left (claim_job claimed_job_ids due_at_ms claimed_at_ms) (jobs state) (mkClaim [] (dispatches state) [] uuid) in
  (mkState (c_jobs c) (c_records c), c_dispatches c, c_uuid c).

(** ** Results and recovery *)

Definition get_claimed_job (state : CronJobsState) (i : str) : option AgentCronJob :=
  if existsb (λ d, str_eqb (job_id d) i) (dispatches state) then
    find (λ j, str_eqb (id j) i && str_eqb (status j) STATUS_ACTIVE) (jobs state)
  else None.

(** A one-shot job is completed by its run, whatever came of it. *)
Definition after_run (j : AgentCronJob) : str :=
  if str_eqb (kind (schedule j)) SCHEDULE_ONCE then STATUS_COMPLETED else status j.

Definition record_job (i : str) (now_ms : Z) (outcome : str) (error : option str) (j : AgentCronJob) : AgentCronJob :=
  if negb (str_eqb (id j) i) || negb (str_eqb (status j) STATUS_ACTIVE) then j
  else if str_eqb outcome RUN_RESULT_SKIPPED && negb (bool_decide (is_Some error)) then
    with_run j (after_run j) (iso_string now_ms) (next_run_text (schedule j) now_ms) (last_run_at j)
      (Some (iso_string now_ms)) (last_error j) (run_count j)
  else
    with_run j (after_run j) (iso_string now_ms) (next_run_at j) (Some (iso_string now_ms)) (last_skipped_at j)
      error (run_count j + 1)%N.

Definition record_dispatch_result (state : CronJobsState) (dispatch_id : str) (now_ms : Z) (outcome : str)
    (error : option str) : CronJobsState :=
  match find (λ d, str_eqb (record_id d) dispatch_id) (dispatches state) with
  | None => state
  | Some d =>
      mkState (map (record_job (job_id d) now_ms outcome error) (jobs state))
        (List.filter (λ d, negb (str_eqb (record_id d) dispatch_id)) (dispatches state))
  end.

Definition recover_job (interrupted : list str) (now_ms : Z) (j : AgentCronJob) : AgentCronJob :=
  if negb (bool_decide (id j ∈ interrupted)) || negb (str_eqb (status j) STATUS_ACTIVE) then j
  else with_run j (after_run j) (iso_string now_ms) (next_run_at j) (last_run_at j) (last_skipped_at j)
         (Some (lit "Interrupted before scheduled operation completion")) (run_count j).

(** [recover_interrupted_in_state] of all dispatches. *)
Definition recover_interrupted_in_state (state : CronJobsState) (now_ms : Z) : CronJobsState :=
  match dispatches state with
  | [] => state
  | interrupted => mkState (map (recover_job (map job_id interrupted) now_ms) (jobs state)) []
  end.

(** ** Writers *)

Definition is_at_least_as_fresh (candidate current : AgentCronJob) : bool :=
  match parse_iso_date (updated_at current) with
  | None => true
  | Some current_time =>
      match parse_iso_date (updated_at candidate) with
      | None => false
      | Some candidate_time => current_time <=? candidate_time
      end
  end.

(** [index_by_id]: the last job of an id. *)
Definition index_of (l : list AgentCronJob) (i : str) : option nat :=
  fold_left (λ acc p, if str_eqb (id p.2) i then Some p.1 else acc) (imap pair l) None.

Definition merge_job (merged : list AgentCronJob) (j : AgentCronJob) : list AgentCronJob :=
  match index_of merged (id j) with
  | Some index =>
      match merged !! index with
      | Some current => if is_at_least_as_fresh j current then <[index := j]> merged else merged
      | None => merged
      end
  | None => merged ++ [j]
  end.

Definition merge_fresh_jobs (current_jobs next_jobs : list AgentCronJob) : list AgentCronJob :=
  fold_left merge_job next_jobs current_jobs.

(** [write_jobs_file] with the current jobs merged. *)
Definition write_jobs_file (state : CronJobsState) (js : list AgentCronJob) : CronJobsState :=
  mkState (merge_fresh_jobs (jobs state) js) (dispatches state).

Record CreateAgentCronJobInput : Type := mkInput {
  i_active_session_id : str; i_session_id : str; i_session_file : str; i_cwd : str;
  i_label : option str; i_prompt : str; i_source : option str; i_runtime_kind : option str }.

Definition normalize_optional_label (l : option str) : option str :=
  let trimmed := match l with Some l => trim l | None => [] end in
  if is_empty trimmed then None else Some trimmed.

(** The job [create] adds to the jobs it has read. *)
Definition create_job (uuid : N) (input : CreateAgentCronJobInput) (parsed : AgentCronSchedule) (next_run_at_ms now : Z)
    : result AgentCronJob str :=
  let prompt := trim (i_prompt input) in
  if is_empty prompt then Err (lit "Cron job prompt cannot be empty")
  else Ok (mkJob (random_uuid uuid) STATUS_ACTIVE (Some (default SOURCE_CRON (i_source input))) (i_runtime_kind input) None
    (i_active_session_id input) (i_session_id input) (i_session_file input) (i_cwd input)
    (normalize_optional_label (i_label input)) prompt parsed (iso_string now) (iso_string now)
    (Some (iso_string next_run_at_ms)) None None None 0).

(** [cancel]: a job it cancels, and what becomes of each job; nothing is written when there is
    none to cancel. *)
Definition cancels (i : str) (j : AgentCronJob) : bool := str_eqb (id j) i && negb (str_eqb (status j) STATUS_CANCELLED).

Definition cancel_job (i : str) (now_ms : Z) (j : AgentCronJob) : AgentCronJob :=
  if negb (cancels i j) then j
  else with_run j STATUS_CANCELLED (iso_string now_ms) None (last_run_at j) (last_skipped_at j) (last_error j) (run_count j).

(** ** The scheduler and the writers, interleaved *)

Inductive Action : Type :=
| ClaimDue (due_at_ms : Z)                  (* [run_due]: the claim *)
| BeginRun (dispatch : str)                 (* [run_dispatch]: up to the hook *)
| EndRun (dispatch : str) (outcome : str) (error : option str)
| Crash
| Start                                     (* of a new scheduler: the recovery *)
| ReadCancel (writer : nat) (i : str)       (* [cancel]: the jobs are read *)
| ReadCreate (writer : nat) (input : CreateAgentCronJobInput) (parsed : AgentCronSchedule) (next_run_at_ms : Z)
| WriteBack (writer : nat).                 (* [write_jobs], under the lock *)

Inductive Event : Type :=
| Dispatched (job : str)
| Ran (job : AgentCronJob).

Record System : Type := mkSystem {
  clock : Z;
  uuid : N;
  file : CronJobsState;
  claimed : list AgentCronDispatch;          (* claimed by this scheduler, not begun *)
  running : list str;                        (* ids of the dispatches begun *)
  writers : gmap nat (list AgentCronJob) }.  (* what a writer will merge *)

Definition set_file (s : System) (f : CronJobsState) : System :=
  mkSystem (clock s) (uuid s) f (claimed s) (running s) (writers s).
Definition set_writers (s : System) (w : gmap nat (list AgentCronJob)) : System :=
  mkSystem (clock s) (uuid s) (file s) (claimed s) (running s) w.

(** An action at its instant. *)
Definition step (s : System) (ta : Z * Action) : System * list Event :=
  let '(now, a) := ta in
  let s := mkSystem now (uuid s) (file s) (claimed s) (running s) (writers s) in
  match a with
  | ClaimDue due =>
      let '(f, ds, n) := claim_due_in_state (uuid s) (file s) due now in
      (mkSystem now n f (claimed s ++ ds) (running s) (writers s), map (λ d, Dispatched (id (dispatch_job d))) ds)
  | BeginRun d =>
      match find (λ c, str_eqb (dispatch_id c) d) (claimed s) with
      | None => (s, [])
      | Some c =>
          let rest := List.filter (λ c, negb (str_eqb (dispatch_id c) d)) (claimed s) in
          match get_claimed_job (file s) (id (dispatch_job c)) with
          | Some j => (mkSystem now (uuid s) (file s) rest (running s ++ [d]) (writers s), [Ran j])
          | None =>
              (mkSystem now (uuid s) (record_dispatch_result (file s) d now RUN_RESULT_SKIPPED None) rest (running s) (writers s), [])
          end
      end
  | EndRun d outcome error =>
      if existsb (str_eqb d) (running s) then
        (mkSystem now (uuid s) (record_dispatch_result (file s) d now outcome error) (claimed s)
           (List.filter (λ r, negb (str_eqb r d)) (running s)) (writers s), [])
      else (s, [])
  | Crash => (mkSystem now (uuid s) (file s) [] [] ∅, [])
  | Start => (mkSystem now (uuid s) (recover_interrupted_in_state (file s) now) [] [] (writers s), [])
  | ReadCancel w i =>
      (if existsb (cancels i) (jobs (file s)) then set_writers s (<[w := map (cancel_job i now) (jobs (file s))]> (writers s)) else s, [])
  | ReadCreate w input parsed next =>
      match create_job (uuid s) input parsed next now with
      | Ok j => (mkSystem now (uuid s + 1) (file s) (claimed s) (running s) (<[w := jobs (file s) ++ [j]]> (writers s)), [])
      | Err _ => (s, [])
      end
  | WriteBack w =>
      match writers s !! w with
      | Some js => (set_writers (set_file s (write_jobs_file (file s) js)) (delete w (writers s)), [])
      | None => (s, [])
      end
  end.

Fixpoint run (s : System) (acts : list (Z * Action)) : System * list Event :=
  match acts with
  | [] => (s, [])
  | a :: acts => let '(s, es) := step s a in let '(s', es') := run s acts in (s', es ++ es')
  end.

(** ** Claiming, in one go *)

(** What becomes of a job when the jobs that are due are claimed. *)
Definition advance (ids : list str) (due now : Z) (j : AgentCronJob) : AgentCronJob :=
  if is_due_job j due then
    with_run j (status j) (iso_string now) (next_run_text (schedule j) now) (last_run_at j)
      (if bool_decide (id j ∈ ids) then Some (iso_string now) else last_skipped_at j) (last_error j) (run_count j)
  else j.

Definition claimable (ids : list str) (due : Z) (j : AgentCronJob) : bool :=
  is_due_job j due && negb (bool_decide (id j ∈ ids)).

Lemma claim_jobs ids due now l : ∀ c,
  let c' := fold_left (claim_job ids due now) l c in
  c_jobs c' = c_jobs c ++ map (advance ids due now) l ∧
  map job_id (c_records c') = map job_id (c_records c) ++ map id (List.filter (claimable ids due) l) ∧
  map (λ d, id (dispatch_job d)) (c_dispatches c') = map (λ d, id (dispatch_job d)) (c_dispatches c) ++ map id (List.filter (claimable ids due) l) ∧
  (c_uuid c <= c_uuid c')%N.
Proof.
  induction l as [|j l IH]; intros c; cbn [fold_left]; [by rewrite !app_nil_r|].
  specialize (IH (claim_job ids due now c j)). cbn zeta in IH. destruct IH as (-> & -> & -> & Hn).
  unfold claim_job, advance, claimable in *. cbn [List.filter map].
  destruct (is_due_job j due); cbn [negb andb] in *.
  - destruct (bool_decide (id j ∈ ids)); cbn in *.
    + by rewrite <-!app_assoc.
    + rewrite <-!app_assoc, !map_app, <-!app_assoc. cbn. repeat split; try done. lia.
  - cbn in *. by rewrite <-!app_assoc.
Qed.

(** ** Merging *)

Lemma index_of_spec l i :
  match index_of l i with
  | Some n => ∃ j, l !! n = Some j ∧ id j = i
  | None => i ∉ map id l
  end.
Proof.
  induction l as [|j l IH] using rev_ind; [by apply not_elem_of_nil|].
  unfold index_of in *. rewrite imap_app, fold_left_app. cbn [imap fold_left snd fst].
  destruct (str_eqb (id j) i) eqn:E.
  - apply str_eqb_eq in E. exists j. split; [|done]. cbn. rewrite Nat.add_0_r. by rewrite lookup_app_r, Nat.sub_diag by done.
  - destruct (fold_left _ _ None) as [n|].
    + destruct IH as (j'&Hj&Hi). exists j'. split; [|done]. by apply lookup_app_l_Some.
    + rewrite map_app. intros [?|Hin]%elem_of_app; [done|]. apply list_elem_of_singleton in Hin. subst i.
      by rewrite str_eqb_refl in E.
Qed.

Lemma merge_job_spec m j :
  NoDup (map id m) →
  NoDup (map id (merge_job m j)) ∧ (∀ x, x ∈ merge_job m j → x = j ∨ x ∈ m) ∧
  (∀ x, x ∈ m → x ∈ merge_job m j ∨ id x = id j ∧ is_at_least_as_fresh j x = true ∧ j ∈ merge_job m j) ∧
  (∀ x, x ∈ merge_job m j → x ∈ m ∨ id x ∉ map id m ∨ ∃ y, y ∈ m ∧ id y = id x ∧ is_at_least_as_fresh x y = true).
Proof.
  intros Hnd. unfold merge_job. pose proof (index_of_spec m (id j)) as Hi. destruct (index_of m (id j)) as [n|].
  - destruct Hi as (cur&Hn&Hid). rewrite Hn. destruct (is_at_least_as_fresh j cur) eqn:Ef; [|by eauto 8].
    assert (map id (<[n := j]> m) = map id m) as Em.
    { apply list_eq. intros i. rewrite !list_lookup_fmap. destruct (decide (i = n)) as [->|?].
      - rewrite list_lookup_insert_eq by (by eapply lookup_lt_Some). rewrite Hn. cbn. by rewrite Hid.
      - by rewrite list_lookup_insert_ne by done. }
    assert (j ∈ <[n := j]> m) as Hj by (apply list_elem_of_lookup; exists n; apply list_lookup_insert_eq; by eapply lookup_lt_Some).
    split; [by rewrite Em|]. split; [|split].
    + intros x (i&Hx)%list_elem_of_lookup. destruct (decide (i = n)) as [->|?].
      * left. rewrite list_lookup_insert_eq in Hx by (by eapply lookup_lt_Some). by injection Hx.
      * right. rewrite list_lookup_insert_ne in Hx by done. by eapply list_elem_of_lookup_2.
    + intros x (i&Hx)%list_elem_of_lookup. destruct (decide (i = n)) as [->|?].
      * right. rewrite Hn in Hx. by injection Hx as <-.
      * left. apply list_elem_of_lookup. exists i. by rewrite list_lookup_insert_ne by done.
    + intros x (i&Hx)%list_elem_of_lookup. destruct (decide (i = n)) as [->|?].
      * right. right. rewrite list_lookup_insert_eq in Hx by (by eapply lookup_lt_Some). injection Hx as <-.
        exists cur. split; [by eapply list_elem_of_lookup_2|done].
      * left. rewrite list_lookup_insert_ne in Hx by done. by eapply list_elem_of_lookup_2.
  - split; [|split; [|split]].
    + rewrite map_app. apply NoDup_app. split; [done|]. split; [by intros x Hx E%list_elem_of_singleton; subst x|apply NoDup_singleton].
    + intros x [?|E%list_elem_of_singleton]%elem_of_app; [auto|subst x; auto].
    + intros x Hx. left. apply elem_of_app. by left.
    + intros x [?|E%list_elem_of_singleton]%elem_of_app; [auto|subst x; auto].
Qed.

(** ** One-shot jobs *)

Definition stamped (t : Z) (j : AgentCronJob) : Prop := ∃ u, parse_iso_date (updated_at j) = Some u ∧ u <= t.

(** The job cannot become due again. *)
Definition spent (j : AgentCronJob) : Prop := status j ≠ STATUS_ACTIVE ∨ next_run_at j = None.

Definition one_shot (j : AgentCronJob) : bool := str_eqb (kind (schedule j)) SCHEDULE_ONCE.

(** A copy of a job, in the file or in the hands of a writer. *)
Definition version (s : System) (v : AgentCronJob) : Prop :=
  v ∈ jobs (file s) ∨ ∃ w js, writers s !! w = Some js ∧ v ∈ js.

(** The one-shot jobs [T], claimed at the given times, are spent in the file. *)
Definition retired (T : gmap str Z) (m : list AgentCronJob) : Prop :=
  ∀ k t, T !! k = Some t → k ∈ map id m ∧ ∀ j, j ∈ m → id j = k →
    spent j ∧ one_shot j = true ∧ ∃ u, parse_iso_date (updated_at j) = Some u ∧ t <= u.

Definition stale (T : gmap str Z) (v : AgentCronJob) : Prop :=
  ∀ t, T !! id v = Some t → spent v ∨ ∃ u, parse_iso_date (updated_at v) = Some u ∧ u < t.

Record inv (T : gmap str Z) (s : System) : Prop := {
  inv_ids : NoDup (map id (jobs (file s)));
  inv_stamp : ∀ v, version s v → stamped (clock s) v;
  inv_old : ∀ v n, version s v → (uuid s <= n)%N → id v ≠ random_uuid n;
  inv_schedule : ∀ v w, version s v → version s w → id v = id w → schedule v = schedule w;
  inv_retired : retired T (jobs (file s));
  inv_time : ∀ k t, T !! k = Some t → t <= clock s;
  inv_stale : ∀ v, version s v → stale T v }.

Lemma not_due_spent j due : spent j → is_due_job j due = false.
Proof.
  unfold is_due_job. intros [Hs| ->]; [|by rewrite andb_false_r]. by rewrite (proj2 (str_eqb_neq _ _) Hs).
Qed.

Lemma retired_stale T m j : retired T m → j ∈ m → stale T j.
Proof. intros Hr Hj t Ht. left. by apply (Hr _ _ Ht). Qed.

Lemma stamped_le t t' j : t <= t' → stamped t j → stamped t' j.
Proof. intros Hle (u&Hu&?). exists u. split; [done|lia]. Qed.

(** A job is updated at [now]. *)
Definition updates (now : Z) (f : AgentCronJob → AgentCronJob) : Prop :=
  ∀ j, id (f j) = id j ∧ schedule (f j) = schedule j ∧ (f j = j ∨ updated_at (f j) = iso_string now) ∧
    (spent j → one_shot j = true → spent (f j)).

Definition in_time (t : Z) : Prop := 0 <= t < 253402300800000.

Lemma updates_stamp now f t j : in_time now → updates now f → t <= now → stamped t j → stamped now (f j).
Proof.
  intros Hn Hf Hle Hj. destruct (Hf j) as (_&_&[->|E]&_); [by eapply stamped_le|].
  exists now. by rewrite E, parse_iso_string.
Qed.

(** The jobs of the file are updated. *)
Lemma jobs_inv_update T s now f s' :
  inv T s → clock s <= now → in_time now → updates now f →
  jobs (file s') = map f (jobs (file s)) → clock s' = now → (uuid s <= uuid s')%N →
  (∀ w js, writers s' !! w = Some js → writers s !! w = Some js) → inv T s'.
Proof.
  intros I Hle Hn Hf Hj Hc Hu Hw.
  assert (∀ v, version s' v → ∃ v', version s v' ∧ id v = id v' ∧ schedule v = schedule v' ∧ (v = v' ∨ v = f v')) as Hv.
  { intros v [Hin|(w&js&Hl&Hin)].
    - rewrite Hj in Hin. apply list_elem_of_fmap in Hin as (v'&->&Hin). exists v'. destruct (Hf v') as (?&?&_).
      split; [by left|auto].
    - exists v. split; [|auto]. right. eauto. }
  assert (map id (jobs (file s')) = map id (jobs (file s))) as Hids.
  { rewrite Hj, map_map. apply map_ext. intros j. apply Hf. }
  assert (retired T (jobs (file s'))) as Hr.
  { intros k t Ht. rewrite Hids. destruct (inv_retired T s I k t Ht) as [Hk Hall]. split; [done|]. intros j Hin Hid.
    rewrite Hj in Hin. apply list_elem_of_fmap in Hin as (j'&->&Hin). destruct (Hf j') as (E1&E2&E3&E4).
    destruct (Hall j' Hin ltac:(congruence)) as (Hs&Ho&u&Hu'&Hle'). split; [by auto|].
    split; [by unfold one_shot in *; rewrite E2|]. destruct E3 as [->|E3]; [by eauto|]. exists now.
    rewrite E3, parse_iso_string by done. split; [done|]. pose proof (inv_time T s I k t Ht). lia. }
  constructor.
  - by rewrite Hids; apply (inv_ids T s I).
  - intros v (v'&Hv'&_&_&[->| ->])%Hv; rewrite Hc; [by eapply stamped_le, (inv_stamp T s I)|].
    by eapply (updates_stamp now f (clock s)), (inv_stamp T s I).
  - intros v n (v'&Hv'&->&_)%Hv Hle'. apply (inv_old T s I v' n Hv'). lia.
  - intros v w (v'&Hv'&E1&->&_)%Hv (w'&Hw'&E2&->&_)%Hv E. apply (inv_schedule T s I); congruence.
  - done.
  - intros k t Ht. rewrite Hc. pose proof (inv_time T s I k t Ht). lia.
  - intros v [Hin|(w&js&Hl&Hin)]; [by eapply retired_stale|]. apply (inv_stale T s I). right. eauto.
Qed.

(** Jobs [ks] are claimed at [now]. *)
Definition retire (ks : list str) (now : Z) (T : gmap str Z) : gmap str Z := foldr (λ k, <[k := now]>) T ks.

Lemma lookup_retire ks now T k :
  retire ks now T !! k = if decide (k ∈ ks) then Some now else T !! k.
Proof.
  induction ks as [|k' ks IH]; cbn [retire foldr]; [by rewrite decide_False by (by apply not_elem_of_nil)|].
  destruct (decide (k = k')) as [->|Hne]; [by rewrite lookup_insert_eq, decide_True by (by left)|].
  rewrite lookup_insert_ne by done. fold (retire ks now T). rewrite IH.
  destruct (decide (k ∈ ks)), (decide (k ∈ k' :: ks)) as [Hin|Hin]; try done.
  - destruct Hin. by right.
  - apply elem_of_cons in Hin as [?|?]; done.
Qed.

Lemma inv_retire T s ks :
  inv T s → (∀ k, k ∈ ks → k ∈ map id (jobs (file s))) →
  (∀ j, j ∈ jobs (file s) → id j ∈ ks → spent j ∧ one_shot j = true ∧ parse_iso_date (updated_at j) = Some (clock s)) →
  (∀ w js v, writers s !! w = Some js → v ∈ js → ∃ u, parse_iso_date (updated_at v) = Some u ∧ u < clock s) →
  inv (retire ks (clock s) T) s.
Proof.
  intros I Hks Hj Hw.
  assert (retired (retire ks (clock s) T) (jobs (file s))) as Hr.
  { intros k t. rewrite lookup_retire. destruct (decide (k ∈ ks)) as [Hk|Hk]; [|by apply (inv_retired T s I)].
    intros [= <-]. split; [by apply Hks|]. intros j Hin <-. destruct (Hj j Hin Hk) as (?&?&?).
    split; [done|]. split; [done|]. exists (clock s). split; [done|lia]. }
  constructor; try (by apply I); [done| |].
  - intros k t. rewrite lookup_retire. destruct (decide (k ∈ ks)); [|by apply (inv_time T s I)]. intros [= <-]. lia.
  - intros v [Hin|(w&js&Hl&Hin)]; [by eapply retired_stale|]. intros t. rewrite lookup_retire.
    destruct (decide (id v ∈ ks)); [|apply (inv_stale T s I); right; eauto]. intros [= <-]. right. eauto.
Qed.

(** ** The changes are updates *)

Lemma once_no_next j now : one_shot j = true → next_run_text (schedule j) now = None.
Proof. unfold one_shot, next_run_text, next_run_at_for_schedule. by intros ->. Qed.

Lemma with_run_updates j st now next last skipped error runs :
  (spent j → one_shot j = true → st ≠ STATUS_ACTIVE ∨ next = None) →
  let j' := with_run j st (iso_string now) next last skipped error runs in
  id j' = id j ∧ schedule j' = schedule j ∧ (j' = j ∨ updated_at j' = iso_string now) ∧ (spent j → one_shot j = true → spent j').
Proof. intros Hs. cbn. split; [done|]. split; [done|]. split; [by right|]. exact Hs. Qed.

Lemma unchanged_updates j now :
  id j = id j ∧ schedule j = schedule j ∧ (j = j ∨ updated_at j = iso_string now) ∧ (spent j → one_shot j = true → spent j).
Proof. auto. Qed.

Lemma advance_updates ids due now : updates now (advance ids due now).
Proof.
  intros j. unfold advance. destruct (is_due_job j due) eqn:E; [|apply unchanged_updates].
  apply with_run_updates. intros Hs _. by rewrite (not_due_spent j due Hs) in E.
Qed.

Lemma after_run_once j : one_shot j = true → after_run j ≠ STATUS_ACTIVE.
Proof. unfold after_run, one_shot. by intros ->. Qed.

Lemma record_job_updates i now outcome error : updates now (record_job i now outcome error).
Proof.
  intros j. unfold record_job. destruct (_ || _); [apply unchanged_updates|].
  destruct (_ && _); apply with_run_updates; intros _ Ho; left; by apply after_run_once.
Qed.

Lemma recover_job_updates ids now : updates now (recover_job ids now).
Proof.
  intros j. unfold recover_job. destruct (_ || _); [apply unchanged_updates|].
  apply with_run_updates. intros _ Ho. left. by apply after_run_once.
Qed.

Lemma cancel_job_updates i now : updates now (cancel_job i now).
Proof.
  intros j. unfold cancel_job. destruct (negb _); [apply unchanged_updates|]. apply with_run_updates. intros _ _. by left.
Qed.

(** ** Merging keeps the jobs that were claimed *)

Lemma fresh_later j x u : is_at_least_as_fresh j x = true → parse_iso_date (updated_at x) = Some u →
  ∃ u', parse_iso_date (updated_at j) = Some u' ∧ u <= u'.
Proof.
  unfold is_at_least_as_fresh. intros Hf Hu. rewrite Hu in Hf. destruct (parse_iso_date (updated_at j)) as [u'|]; [|done].
  exists u'. split; [done|]. by apply Z.leb_le.
Qed.

Lemma merge_retired T js : ∀ m,
  NoDup (map id m) → retired T m → (∀ v, v ∈ js → stale T v) →
  (∀ v w, v ∈ js → w ∈ m ∨ w ∈ js → id v = id w → schedule v = schedule w) →
  NoDup (map id (merge_fresh_jobs m js)) ∧ retired T (merge_fresh_jobs m js) ∧
  (∀ v, v ∈ merge_fresh_jobs m js → v ∈ js ∨ v ∈ m) ∧ (∀ k, k ∈ map id m → k ∈ map id (merge_fresh_jobs m js)).
Proof.
  induction js as [|j js IH]; intros m Hnd Hr Hs Hc; [by auto|]. cbn [merge_fresh_jobs fold_left].
  fold (merge_fresh_jobs (merge_job m j) js).
  destruct (merge_job_spec m j Hnd) as (Hnd'&Hfrom&Hkeep&Hnew).
  assert (∀ k, k ∈ map id m → k ∈ map id (merge_job m j)) as Hids.
  { intros k (x&->&Hx)%list_elem_of_fmap. destruct (Hkeep x Hx) as [?|(Hid&_&Hj)]; [by apply list_elem_of_fmap_2|].
    rewrite Hid. by apply list_elem_of_fmap_2. }
  assert (retired T (merge_job m j)) as Hr'.
  { intros k t Ht. destruct (Hr k t Ht) as [Hk Hall]. split; [by apply Hids|]. intros x Hx Hid.
    destruct (Hnew x Hx) as [Hm|[Hno|(y&Hy&Hyx&Hf)]]; [by auto|by rewrite Hid in Hno|].
    destruct (Hall y Hy ltac:(congruence)) as (_&Ho&u&Hu&Hle). destruct (fresh_later x y u Hf Hu) as (u'&Hu'&Hle').
    destruct (Hfrom x Hx) as [->|Hm]; [|by auto].
    assert (schedule j = schedule y) as Es by (apply Hc; [by left|by left|done]).
    split; [|split; [by unfold one_shot in *; rewrite Es|exists u'; split; [done|lia]]].
    destruct (Hs j ltac:(by left) t) as [?|(u0&Hu0&?)]; [by rewrite Hid|done|]. rewrite Hu' in Hu0. injection Hu0 as <-. lia. }
  destruct (IH (merge_job m j) Hnd' Hr') as (H1&H2&H3&H4).
  - intros v Hv. apply Hs. by right.
  - intros v w Hv [Hw|Hw] E; [|apply Hc; [by right|right; by right|done]].
    apply Hc; [by right| |done]. destruct (Hfrom w Hw) as [->|?]; [right; by left|by left].
  - split; [done|]. split; [done|]. split; [|by auto].
    intros v Hv. destruct (H3 v Hv) as [?|Hv']; [left; by right|]. destruct (Hfrom v Hv') as [->|?]; [left; by left|by right].
Qed.

(** ** Dispatches *)

Definition dispatched (es : list Event) : list str := omap (λ e, match e with Dispatched k => Some k | _ => None end) es.
Definition times (k : str) (l : list str) : nat := length (List.filter (str_eqb k) l).
Definition counted (T : gmap str Z) (k : str) : nat := if decide (is_Some (T !! k)) then 1 else 0.

Lemma times_nodup k l : NoDup l → times k l = if decide (k ∈ l) then 1%nat else 0%nat.
Proof.
  unfold times. induction 1 as [|x l Hx Hnd IH]; cbn [List.filter]; [by rewrite decide_False by (by apply not_elem_of_nil)|].
  destruct (str_eqb_spec k x) as [->|Hne]; cbn [length].
  - rewrite IH, decide_False, decide_True by (done || by left). done.
  - rewrite IH. destruct (decide (k ∈ l)), (decide (k ∈ x :: l)) as [Hin|Hin]; try done; [by destruct Hin; right|].
    by apply elem_of_cons in Hin as [?|?].
Qed.

Lemma filter_ids_nodup (p : AgentCronJob → bool) l : NoDup (map id l) → NoDup (map id (List.filter p l)).
Proof.
  induction l as [|j l IH]; cbn [map List.filter]; [done|]. intros [Hj Hl]%NoDup_cons. destruct (p j); [|by apply IH].
  apply NoDup_cons. split; [|by apply IH]. intros (x&Ex&Hx)%list_elem_of_fmap. apply Hj. rewrite Ex. apply list_elem_of_fmap_2.
  apply list_elem_of_In, filter_In in Hx as [Hx _]. by apply list_elem_of_In.
Qed.

Lemma elem_of_filter_ids (p : AgentCronJob → bool) l k :
  k ∈ map id (List.filter p l) ↔ ∃ j, j ∈ l ∧ p j = true ∧ id j = k.
Proof.
  split.
  - intros (j&->&Hj)%list_elem_of_fmap. apply list_elem_of_In, filter_In in Hj as [Hj Hp]. exists j. by rewrite list_elem_of_In.
  - intros (j&Hj&Hp&<-). apply list_elem_of_fmap_2, list_elem_of_In, filter_In. by rewrite <-list_elem_of_In.
Qed.

Lemma same_id l j j' : NoDup (map id l) → j ∈ l → j' ∈ l → id j = id j' → j = j'.
Proof.
  induction l as [|x l IH]; cbn [map]; [by intros _ ?%elem_of_nil|]. intros [Hx Hl]%NoDup_cons Hj Hj' E.
  apply elem_of_cons in Hj as [->|Hj], Hj' as [->|Hj']; [done| | |by apply IH]; exfalso; apply Hx;
    [rewrite E|rewrite <-E]; by apply list_elem_of_fmap_2.
Qed.

(** No job leaves the file and none changes its schedule. *)
Definition keeps (s s' : System) : Prop :=
  ∀ j, j ∈ jobs (file s) → ∃ j', j' ∈ jobs (file s') ∧ id j' = id j ∧ schedule j' = schedule j.

Definition only_once (s : System) (k : str) : Prop := ∀ j, j ∈ jobs (file s) → id j = k → one_shot j = true.

(** A step at [now] dispatches a one-shot job only if it was not dispatched before. *)
Definition accounts (T : gmap str Z) (s : System) (now : Z) (s' : System) (es : list Event) : Prop :=
  ∃ T', inv T' s' ∧ keeps s s' ∧ clock s' = now ∧
    ∀ k, only_once s k → (times k (dispatched es) + counted T k = counted T' k)%nat.

Lemma accounts_quiet T s now s' es :
  inv T s' → keeps s s' → clock s' = now → dispatched es = [] → accounts T s now s' es.
Proof. intros I Hk Hc He. exists T. split; [done|]. split; [done|]. split; [done|]. intros k _. by rewrite He. Qed.

Lemma keeps_update s s' now f : updates now f → jobs (file s') = map f (jobs (file s)) → keeps s s'.
Proof.
  intros Hf Hj j Hin. exists (f j). destruct (Hf j) as (?&?&_). split; [|done]. rewrite Hj. by apply list_elem_of_fmap_2.
Qed.

(** A step that updates the jobs of the file and dispatches nothing. *)
Lemma update_accounts T s now f s' es :
  inv T s → clock s < now → in_time now → updates now f → jobs (file s') = map f (jobs (file s)) → clock s' = now →
  (uuid s <= uuid s')%N → (∀ w js, writers s' !! w = Some js → writers s !! w = Some js) → dispatched es = [] →
  accounts T s now s' es.
Proof.
  intros I Hlt Hn Hf Hj Hc Hu Hw He. apply accounts_quiet; [|by eapply keeps_update|done|done].
  by apply (jobs_inv_update T s now f); [|lia|..].
Qed.

Lemma identity_updates now : updates now (λ j, j).
Proof. intros j. apply unchanged_updates. Qed.

Lemma tick_accounts T s now s' es :
  inv T s → clock s < now → in_time now → jobs (file s') = jobs (file s) → clock s' = now →
  (uuid s <= uuid s')%N → (∀ w js, writers s' !! w = Some js → writers s !! w = Some js) → dispatched es = [] →
  accounts T s now s' es.
Proof.
  intros I Hlt Hn Hj. apply (update_accounts T s now (λ j, j)); try done; [apply identity_updates|]. by rewrite map_id.
Qed.

Lemma dispatched_map {A} (f : A → str) l : dispatched (map (λ d, Dispatched (f d)) l) = map f l.
Proof. induction l as [|x l IH]; [done|]. cbn. by rewrite <-IH. Qed.

Lemma counted_retire ks now T k :
  counted (retire ks now T) k = if decide (k ∈ ks) then 1%nat else counted T k.
Proof.
  unfold counted. rewrite lookup_retire. destruct (decide (k ∈ ks)); [|done]. by rewrite decide_True by eauto.
Qed.

Lemma claimable_not_retired T m ids due j : retired T m → j ∈ m → claimable ids due j = true → T !! id j = None.
Proof.
  intros Hr Hj [Hd _]%andb_prop. destruct (T !! id j) as [t|] eqn:E; [|done].
  destruct (Hr _ _ E) as [_ Hall]. destruct (Hall j Hj eq_refl) as [Hs _]. by rewrite (not_due_spent j due Hs) in Hd.
Qed.

Lemma advance_claimed ids due now j :
  in_time now → claimable ids due j = true → one_shot j = true →
  spent (advance ids due now j) ∧ one_shot (advance ids due now j) = true ∧
  parse_iso_date (updated_at (advance ids due now j)) = Some now.
Proof.
  intros Hn [Hd _]%andb_prop Ho. unfold advance. rewrite Hd. cbn. split; [right; by apply once_no_next|].
  split; [done|]. by apply parse_iso_string.
Qed.

Lemma claim_accounts T s now due :
  inv T s → clock s < now → in_time now →
  let '(s', es) := step s (now, ClaimDue due) in accounts T s now s' es.
Proof.
  intros I Hlt Hn. cbn [step uuid file claimed running writers]. unfold claim_due_in_state.
  set (ids := map job_id (dispatches (file s))).
  pose proof (claim_jobs ids due now (jobs (file s)) (mkClaim [] (dispatches (file s)) [] (uuid s))) as (Ej&_&Ed&Hu).
  cbn [c_jobs c_dispatches c_uuid app map] in *. set (c := fold_left _ _ _) in *. clearbody c.
  set (s' := mkSystem _ _ _ _ _ _).
  assert (jobs (file s') = map (advance ids due now) (jobs (file s))) as Ejs by exact Ej.
  assert (inv T s') as I' by (apply (jobs_inv_update T s now (advance ids due now)); try done; [lia|apply advance_updates]).
  set (ks := map id (List.filter (λ j, claimable ids due j && one_shot j) (jobs (file s)))).
  exists (retire ks now T). split; [|split; [|split; [done|]]].
  - apply (inv_retire T s' ks I').
    + intros k (j&Hj&_&<-)%elem_of_filter_ids. rewrite Ejs. apply list_elem_of_fmap. exists (advance ids due now j).
      split; [symmetry; apply advance_updates|by apply list_elem_of_fmap_2].
    + rewrite Ejs. intros x (j&->&Hj)%list_elem_of_fmap Hk.
      destruct (advance_updates ids due now j) as (Eid&_). rewrite Eid in Hk.
      apply elem_of_filter_ids in Hk as (j'&Hj'&[Hcl Ho]%andb_prop&E).
      assert (j' = j) as -> by (by apply (same_id _ j' j (inv_ids T s I))).
      by apply advance_claimed.
    + intros w js v Hl Hv. destruct (inv_stamp T s I v) as (u&Hu'&Hle); [right; eauto|]. exists u. split; [done|]. cbn. lia.
  - eapply keeps_update; [apply (advance_updates ids due now)|exact Ej].
  - intros k Hk. rewrite (dispatched_map (λ d, id (dispatch_job d))), Ed, counted_retire, times_nodup
      by apply filter_ids_nodup, (inv_ids T s I).
    assert (k ∈ map id (List.filter (claimable ids due) (jobs (file s))) ↔ k ∈ ks) as Hiff.
    { unfold ks. rewrite !elem_of_filter_ids. split; intros (j&Hj&Hc&<-); exists j.
      - split; [done|]. by rewrite Hc, (Hk j Hj eq_refl).
      - by apply andb_prop in Hc as [? _]. }
    rewrite (decide_ext _ _ _ _ Hiff). destruct (decide (k ∈ ks)) as [Hin|]; [|done].
    apply Hiff, elem_of_filter_ids in Hin as (j&Hj&Hc&<-). unfold counted.
    by rewrite (claimable_not_retired T _ ids due j (inv_retired T s I) Hj Hc).
Qed.

(** A writer has read the jobs and changed its copy. *)
Lemma read_accounts T s now w js n s' :
  inv T s → clock s < now → in_time now → (uuid s <= n)%N →
  s' = mkSystem now n (file s) (claimed s) (running s) (<[w := js]> (writers s)) →
  (∀ v, v ∈ js → stamped now v ∧ stale T v ∧ ∀ m, (n <= m)%N → id v ≠ random_uuid m) →
  (∀ v x, v ∈ js → x ∈ js ∨ version s x → id v = id x → schedule v = schedule x) →
  accounts T s now s' [].
Proof.
  intros I Hlt Hn Hu -> Hjs Hsch. apply accounts_quiet; [|by intros j Hj; exists j|done|done].
  set (s' := mkSystem _ _ _ _ _ _).
  assert (∀ v, version s' v → v ∈ js ∨ version s v) as Hv.
  { intros v [?|(w'&js'&Hl&Hin)]; [right; by left|]. cbn in Hl. destruct (decide (w' = w)) as [->|?].
    - rewrite lookup_insert_eq in Hl. injection Hl as <-. by left.
    - rewrite lookup_insert_ne in Hl by done. right. right. eauto. }
  constructor.
  - apply (inv_ids T s I).
  - intros v [?|?]%Hv; [by apply Hjs|]. eapply stamped_le, (inv_stamp T s I); [cbn; lia|done].
  - intros v m [?|Hv']%Hv Hm; [by apply Hjs|]. apply (inv_old T s I v m Hv'). cbn in Hm. lia.
  - intros v x [?|Hv']%Hv [?|Hx]%Hv E; [by apply Hsch; auto|by apply Hsch; auto| |by apply (inv_schedule T s I)].
    symmetry. by apply Hsch; auto.
  - apply (inv_retired T s I).
  - intros k t Ht. pose proof (inv_time T s I k t Ht). cbn. lia.
  - intros v [?|?]%Hv; [by apply Hjs|by apply (inv_stale T s I)].
Qed.

Lemma cancel_accounts T s now w i :
  inv T s → clock s < now → in_time now →
  let '(s', es) := step s (now, ReadCancel w i) in accounts T s now s' es.
Proof.
  intros I Hlt Hn. cbn [step file]. destruct (existsb _ _); [|by apply tick_accounts].
  eapply (read_accounts T s now w (map (cancel_job i now) (jobs (file s))) (uuid s)); try done.
  - intros v (j&->&Hj)%list_elem_of_fmap. destruct (cancel_job_updates i now j) as (E1&E2&E3&E4). split; [|split].
    + eapply (updates_stamp now (cancel_job i now) (clock s)); [done|apply cancel_job_updates|lia|].
      apply (inv_stamp T s I). by left.
    + intros t Ht. left. rewrite E1 in Ht. destruct (inv_retired T s I _ _ Ht) as [_ Hall].
      destruct (Hall j Hj eq_refl) as (?&?&_). by apply E4.
    + intros m Hm. rewrite E1. apply (inv_old T s I); [by left|done].
  - intros v x (j&->&Hj)%list_elem_of_fmap Hx E. destruct (cancel_job_updates i now j) as (E1&E2&_).
    rewrite E1 in E. rewrite E2. destruct Hx as [(y&->&Hy)%list_elem_of_fmap|Hx].
    + destruct (cancel_job_updates i now y) as (F1&F2&_). rewrite F1 in E. rewrite F2. apply (inv_schedule T s I); [by left..|done].
    + apply (inv_schedule T s I); [by left|done|done].
Qed.

Lemma create_accounts T s now w input parsed next :
  inv T s → clock s < now → in_time now →
  let '(s', es) := step s (now, ReadCreate w input parsed next) in accounts T s now s' es.
Proof.
  intros I Hlt Hn. cbn [step uuid]. unfold create_job. destruct (is_empty _); [by apply tick_accounts|].
  set (j := mkJob _ _ _ _ _ _ _ _ _ _ _ _ _ _ _ _ _ _ _).
  assert (∀ x, version s x → id x ≠ id j) as Hfresh by (intros x Hx; apply (inv_old T s I x (uuid s) Hx); lia).
  eapply (read_accounts T s now w (jobs (file s) ++ [j]) (uuid s + 1)); [done|done|done|lia|done|..].
  - intros v [Hv|E%list_elem_of_singleton]%elem_of_app.
    + assert (version s v) as Hv' by (by left). split; [|split; [by apply (inv_stale T s I)|]].
      * eapply stamped_le, (inv_stamp T s I); [lia|done].
      * intros m Hm. apply (inv_old T s I v m Hv'). lia.
    + subst v. split; [exists now; cbn; by rewrite parse_iso_string|]. split.
      * intros t Ht. destruct (inv_retired T s I _ _ Ht) as [(x&Ex&Hx)%list_elem_of_fmap _].
        exfalso. by apply (Hfresh x); [left|].
      * intros m Hm E. cbn in E. apply random_uuid_inj in E. lia.
  - intros v x Hv Hx E. destruct (decide (id v = id j)) as [Ej|Ej].
    + assert (∀ y, y ∈ jobs (file s) ++ [j] ∨ version s y → id y = id j → y = j) as Hy.
      { intros y [[Hy|Ey%list_elem_of_singleton]%elem_of_app|Hy] Eid; [|done|]; exfalso; (by apply (Hfresh y); [left|]) || by apply (Hfresh y). }
      rewrite (Hy v) by (auto || done). by rewrite (Hy x) by (auto || congruence).
    + apply elem_of_app in Hv as [Hv|Hv%list_elem_of_singleton]; [|by subst v].
      destruct Hx as [[Hx|Hx%list_elem_of_singleton]%elem_of_app|Hx]; [|by subst x|]; apply (inv_schedule T s I); (done || by left).
Qed.

Lemma write_accounts T s now w :
  inv T s → clock s < now → in_time now →
  let '(s', es) := step s (now, WriteBack w) in accounts T s now s' es.
Proof.
  intros I Hlt Hn. cbn [step writers]. destruct (writers s !! w) as [js|] eqn:Ew; [|by apply tick_accounts].
  assert (∀ v, v ∈ js → version s v) as Hjs by (intros v Hv; right; eauto).
  destruct (merge_retired T js (jobs (file s)) (inv_ids T s I) (inv_retired T s I)) as (H1&H2&H3&H4).
  { intros v Hv. by apply (inv_stale T s I), Hjs. }
  { intros v x Hv Hx E. apply (inv_schedule T s I); [by auto| |done]. destruct Hx; [by left|by auto]. }
  set (s' := set_writers _ _).
  assert (∀ v, version s' v → version s v) as Hv.
  { intros v [Hin|(w'&js'&Hl&Hin)]; [destruct (H3 v Hin); [by auto|by left]|]. cbn in Hl.
    apply lookup_delete_Some in Hl as [_ Hl]. right. eauto. }
  apply accounts_quiet; [|..|done|done].
  - constructor; [done| | | |done| |].
    + intros v Hv'%Hv. eapply stamped_le, (inv_stamp T s I); [cbn; lia|done].
    + intros v n Hv'%Hv Hm. by apply (inv_old T s I).
    + intros v x Hv'%Hv Hx%Hv. by apply (inv_schedule T s I).
    + intros k t Ht. pose proof (inv_time T s I k t Ht). cbn. lia.
    + intros v Hv'%Hv. by apply (inv_stale T s I).
  - intros j Hj. destruct (proj1 (list_elem_of_fmap _ _ _) (H4 (id j) (list_elem_of_fmap_2 id _ _ Hj))) as (j'&E&Hj').
    exists j'. split; [done|]. split; [done|]. apply (inv_schedule T s I); [apply Hv; by left|by left|done].
Qed.

(** A result, a recovery: the jobs of the file are updated. *)
Lemma record_jobs f d now outcome error :
  ∃ g, updates now g ∧ jobs (record_dispatch_result f d now outcome error) = map g (jobs f).
Proof.
  unfold record_dispatch_result. destruct (find _ _) as [r|].
  - exists (record_job (job_id r) now outcome error). split; [apply record_job_updates|done].
  - exists (λ j, j). split; [apply identity_updates|by rewrite map_id].
Qed.

Lemma recover_jobs f now : ∃ g, updates now g ∧ jobs (recover_interrupted_in_state f now) = map g (jobs f).
Proof.
  unfold recover_interrupted_in_state. destruct (dispatches f) as [|r rs].
  - exists (λ j, j). split; [apply identity_updates|by rewrite map_id].
  - exists (recover_job (map job_id (r :: rs)) now). split; [apply recover_job_updates|done].
Qed.

Lemma jobs_step_accounts T s now a :
  inv T s → clock s < now → in_time now → let '(s', es) := step s (now, a) in accounts T s now s' es.
Proof.
  intros I Hlt Hn. destruct a as [due|d|d o e| | |w i|w input parsed next|w].
  - by apply claim_accounts.
  - cbn [step claimed file]. destruct (find _ (claimed s)) as [c|]; [|by apply tick_accounts].
    destruct (get_claimed_job _ _) as [j|]; [by apply tick_accounts|].
    destruct (record_jobs (file s) d now RUN_RESULT_SKIPPED None) as (g&Hg&Ej). by apply (update_accounts T s now g).
  - cbn [step running file]. destruct (existsb _ _); [|by apply tick_accounts].
    destruct (record_jobs (file s) d now o e) as (g&Hg&Ej). by apply (update_accounts T s now g).
  - by apply tick_accounts.
  - cbn [step file]. destruct (recover_jobs (file s) now) as (g&Hg&Ej). by apply (update_accounts T s now g).
  - by apply cancel_accounts.
  - by apply create_accounts.
  - by apply write_accounts.
Qed.

(** Every action has an instant of its own. *)
Fixpoint timed (t : Z) (acts : list (Z * Action)) : Prop :=
  match acts with
  | [] => True
  | (now, _) :: acts => t < now ∧ in_time now ∧ timed now acts
  end.

Lemma dispatched_app es es' : dispatched (es ++ es') = dispatched es ++ dispatched es'.
Proof. unfold dispatched. apply omap_app. Qed.

Lemma times_app k l l' : times k (l ++ l') = (times k l + times k l')%nat.
Proof. unfold times. by rewrite List.filter_app, length_app. Qed.

Lemma times_cons k x l : times k (x :: l) = (times k [x] + times k l)%nat.
Proof. apply (times_app k [x] l). Qed.

Lemma only_once_back s s' k : keeps s s' → only_once s' k → only_once s k.
Proof.
  intros Hk Ho j Hj E. destruct (Hk j Hj) as (j'&Hj'&E1&E2). unfold one_shot. rewrite <-E2. apply Ho; [done|congruence].
Qed.

Lemma run_accounts acts : ∀ T s,
  inv T s → timed (clock s) acts → let '(s', es) := run s acts in
  ∃ T', inv T' s' ∧ keeps s s' ∧ ∀ k, only_once s' k → (times k (dispatched es) + counted T k = counted T' k)%nat.
Proof.
  induction acts as [|[now a] acts IH]; intros T s I Ht; cbn [run]; [exists T; split; [done|split; [by intros j; exists j|done]]|].
  destruct Ht as (Hlt&Hn&Ht). pose proof (jobs_step_accounts T s now a I Hlt Hn) as Hs. destruct (step s (now, a)) as [s1 es1].
  destruct Hs as (T1&I1&Hk1&<-&Hc1). specialize (IH T1 s1 I1 Ht). destruct (run s1 acts) as [s2 es2].
  destruct IH as (T2&I2&Hk2&Hc2). exists T2. split; [done|]. split.
  - intros j Hj. destruct (Hk1 j Hj) as (j1&Hj1&E1&F1). destruct (Hk2 j1 Hj1) as (j2&Hj2&E2&F2).
    exists j2. split; [done|]. split; congruence.
  - intros k Hk. rewrite dispatched_app, times_app. pose proof (Hc2 k Hk).
    pose proof (Hc1 k (only_once_back s s1 k Hk1 (only_once_back s1 s2 k Hk2 Hk))). lia.
Qed.

(** ** Runs *)

Definition ran (es : list Event) : list str := omap (λ e, match e with Ran j => Some (id j) | _ => None end) es.
Definition waiting (s : System) : list str := map (λ c, id (dispatch_job c)) (claimed s).

Lemma times_filter k (p : AgentCronDispatch → bool) l :
  (times k (map (λ c, id (dispatch_job c)) (List.filter p l)) <= times k (map (λ c, id (dispatch_job c)) l))%nat.
Proof.
  unfold times. induction l as [|c l IH]; [done|]. cbn [List.filter map].
  destruct (p c); cbn [map List.filter]; destruct (str_eqb k _); cbn [length]; lia.
Qed.

(** A dispatch is run at most once. *)
Lemma step_runs s a k :
  let '(s', es) := step s a in
  (times k (ran es) + times k (waiting s') <= times k (dispatched es) + times k (waiting s))%nat.
Proof.
  destruct a as [now [due|d|d o e| | |w i|w input parsed next|w]]; cbn [step claimed file running writers uuid].
  - destruct (claim_due_in_state _ _ _ _) as [[f ds] n]. unfold waiting. cbn [claimed]. rewrite map_app, times_app.
    rewrite (dispatched_map (λ d, id (dispatch_job d))).
    assert (ran (map (λ d, Dispatched (id (dispatch_job d))) ds) = []) as -> by (by induction ds). cbn. lia.
  - destruct (find _ (claimed s)) as [c|] eqn:Ef; [|done].
    set (rest := List.filter (λ c, negb (str_eqb (dispatch_id c) d)) (claimed s)).
    assert (times k [id (dispatch_job c)] + times k (map (λ c, id (dispatch_job c)) rest) <= times k (waiting s))%nat as Hc.
    { unfold waiting, rest. revert Ef. generalize (claimed s). intros l. induction l as [|x l IH]; [done|]. cbn [find List.filter map].
      destruct (str_eqb (dispatch_id x) d); cbn [negb].
      - intros [= ->]. pose proof (times_filter k (λ c, negb (str_eqb (dispatch_id c) d)) l).
        rewrite (times_cons k _ (map _ l)). lia.
      - intros Hf. specialize (IH Hf). cbn [map].
        rewrite (times_cons k _ (map _ l)), (times_cons k _ (map _ (List.filter _ l))). lia. }
    destruct (get_claimed_job (file s) _) as [j|] eqn:Ej; unfold waiting at 1; cbn [claimed].
    + unfold get_claimed_job in Ej. destruct (existsb _ _); [|done]. apply find_some in Ej as [_ [E%str_eqb_eq _]%andb_prop].
      unfold ran. cbn. rewrite E. exact Hc.
    + cbn. unfold times in *. cbn in *. lia.
  - destruct (existsb _ _); done.
  - unfold waiting. cbn. unfold times. cbn. lia.
  - unfold waiting. cbn. unfold times. cbn. lia.
  - destruct (existsb _ _); done.
  - destruct (create_job _ _ _ _ _); done.
  - destruct (writers s !! w); done.
Qed.

Lemma run_runs acts k : ∀ s,
  let '(s', es) := run s acts in
  (times k (ran es) + times k (waiting s') <= times k (dispatched es) + times k (waiting s))%nat.
Proof.
  induction acts as [|a acts IH]; intros s; cbn [run]; [done|]. pose proof (step_runs s a k) as H1.
  destruct (step s a) as [s1 es1]. specialize (IH s1). destruct (run s1 acts) as [s2 es2].
  unfold ran in *. rewrite dispatched_app, omap_app, !times_app. lia.
Qed.

(** ** Outstanding dispatches *)

Definition outstanding (s : System) : list str := map job_id (dispatches (file s)).

Lemma filter_records_nodup (p : AgentCronDispatchRecord → bool) l : NoDup (map job_id l) → NoDup (map job_id (List.filter p l)).
Proof.
  induction l as [|d l IH]; cbn [map List.filter]; [done|]. intros [Hd Hl]%NoDup_cons. destruct (p d); [|by apply IH].
  apply NoDup_cons. split; [|by apply IH]. intros (x&Ex&Hx)%list_elem_of_fmap. apply Hd. rewrite Ex. apply list_elem_of_fmap_2.
  apply list_elem_of_In, filter_In in Hx as [Hx _]. by apply list_elem_of_In.
Qed.

Lemma record_outstanding f d now o e :
  NoDup (map job_id (dispatches f)) → NoDup (map job_id (dispatches (record_dispatch_result f d now o e))).
Proof. unfold record_dispatch_result. destruct (find _ _); [apply filter_records_nodup|done]. Qed.

Lemma claim_outstanding n f due now :
  NoDup (map id (jobs f)) → NoDup (map job_id (dispatches f)) →
  NoDup (map job_id (dispatches (claim_due_in_state n f due now).1.1)).
Proof.
  intros Hj Hd. unfold claim_due_in_state. cbn [fst dispatches].
  destruct (claim_jobs (map job_id (dispatches f)) due now (jobs f) (mkClaim [] (dispatches f) [] n)) as (_&->&_). cbn [c_records].
  apply NoDup_app. split; [done|]. split; [|by apply filter_ids_nodup].
  intros k Hk (j&_&[_ Hc]%andb_prop&<-)%elem_of_filter_ids. by rewrite bool_decide_eq_true_2 in Hc.
Qed.

Lemma step_outstanding T s a : inv T s → NoDup (outstanding s) → NoDup (outstanding (step s a).1).
Proof.
  intros I Hd. unfold outstanding in *. destruct a as [now [due|d|d o e| | |w i|w input parsed next|w]]; cbn [step claimed file running writers uuid].
  - pose proof (claim_outstanding (uuid s) (file s) due now (inv_ids T s I) Hd) as H'.
    by destruct (claim_due_in_state _ _ _ _) as [[f ds] n].
  - destruct (find _ _); [|done]. destruct (get_claimed_job _ _); [done|]. by apply record_outstanding.
  - destruct (existsb _ _); [|done]. by apply record_outstanding.
  - done.
  - cbn. unfold recover_interrupted_in_state. destruct (dispatches (file s)) eqn:E; cbn; [by rewrite E|by apply NoDup_nil_2].
  - by destruct (existsb _ _).
  - by destruct (create_job _ _ _ _ _).
  - by destruct (writers s !! w).
Qed.

Lemma run_outstanding acts : ∀ T s, inv T s → timed (clock s) acts → NoDup (outstanding s) → NoDup (outstanding (run s acts).1).
Proof.
  induction acts as [|[now a] acts IH]; intros T s I Ht Hd; cbn [run]; [done|]. destruct Ht as (Hlt&Hn&Ht).
  pose proof (jobs_step_accounts T s now a I Hlt Hn) as Hs. pose proof (step_outstanding T s (now, a) I Hd) as Hd1.
  destruct (step s (now, a)) as [s1 es1]. destruct Hs as (T1&I1&_&<-&_). specialize (IH T1 s1 I1 Ht Hd1).
  by destruct (run s1 acts).
Qed.

(** A store that was just opened: its file has every job once, changed in the past, and no two
    dispatches of one job. *)
Record opened (s : System) : Prop := {
  opened_ids : NoDup (map id (jobs (file s)));
  opened_stamp : ∀ j, j ∈ jobs (file s) → stamped (clock s) j;
  opened_old : ∀ j n, j ∈ jobs (file s) → (uuid s <= n)%N → id j ≠ random_uuid n;
  opened_outstanding : NoDup (outstanding s);
  opened_idle : claimed s = [] ∧ writers s = ∅ }.

Lemma opened_inv s : opened s → inv ∅ s.
Proof.
  intros [Hi Hst Ho _ [_ Hw]]. assert (∀ v, version s v → v ∈ jobs (file s)) as Hv.
  { intros v [?|(w&js&Hl&_)]; [done|]. by rewrite Hw, lookup_empty in Hl. }
  constructor; [done|..].
  - intros v ?%Hv. by apply Hst.
  - intros v n ?%Hv. by apply Ho.
  - intros v w ?%Hv ?%Hv E. by rewrite (same_id _ v w Hi).
  - intros k t Ht. by rewrite lookup_empty in Ht.
  - intros k t Ht. by rewrite lookup_empty in Ht.
  - intros v _ t Ht. by rewrite lookup_empty in Ht.
Qed.

(** C19: A one-shot job runs at most once, as long as the clock advances: every action comes at
    a later millisecond than the one before it.  In every such sequence of claims, runs with
    any outcome, crashes, restarts with recovery, and creations and cancellations that read
    the jobs, change their copy and merge it back later, the hook is called at most once for
    a job whose schedule is one-shot, and it is claimed at most once; and no job of any kind
    ever has two dispatches outstanding.  The store is one just opened, with jobs changed in
    the past and no two dispatches of one job.  With a clock that is set back the job may run
    twice: see [clock_set_back_runs_twice]. *)
Theorem one_shot_runs_once s acts k :
  opened s → timed (clock s) acts → only_once (run s acts).1 k →
  (times k (ran (run s acts).2) <= times k (dispatched (run s acts).2) <= 1)%nat ∧ NoDup (outstanding (run s acts).1).
Proof.
  intros Ho Ht Hk. pose proof (opened_inv s Ho) as I. pose proof (run_accounts acts ∅ s I Ht) as Ha.
  pose proof (run_runs acts k s) as Hr. pose proof (run_outstanding acts ∅ s I Ht (opened_outstanding s Ho)) as Hd.
  destruct (run s acts) as [s' es]. destruct Ha as (T&_&_&Hc). specialize (Hc k Hk). cbn [fst snd] in *.
  destruct (opened_idle s Ho) as [Hcl _]. unfold waiting in Hr. rewrite Hcl in Hr. cbn in Hr.
  assert (counted T k <= 1)%nat by (unfold counted; case_decide; lia). split; [|done]. lia.
Qed.
End Store.

(** ** Examples *)

#[local] Instance sample_dates : Dates.
Proof.
  refine {| iso_string t := dec (Z.to_N t); parse_iso_date s := Z.of_N <$> digits_value 0 s; random_uuid := dec |}.
  - intros t Ht. rewrite dec_value. cbn. by rewrite Z2N.id by lia.
  - intros m n E. assert (digits_value 0 (dec m) = digits_value 0 (dec n)) as Ed by (by rewrite E). rewrite !dec_value in Ed. by injection Ed.
Defined.

Definition sample_job (i : str) (s : AgentCronSchedule) (next : Z) : AgentCronJob :=
  mkJob i STATUS_ACTIVE (Some SOURCE_CRON) None None (lit "a") (lit "s") (lit "f") (lit "/") None (lit "report") s
    (dec 0) (dec 0) (Some (dec (Z.to_N next))) None None None 0.

Definition sample_system (now : Z) (j : AgentCronJob) : System := mkSystem now 7 (mkState [j] []) [] [] ∅.

Lemma sample_opened now i s next :
  0 <= now → (∀ n, (7 <= n)%N → i ≠ dec n) → opened (sample_system now (sample_job i s next)).
Proof.
  intros Hn Hi. split; cbn; [apply NoDup_singleton| | |apply NoDup_nil_2|done].
  - intros j ->%list_elem_of_singleton. exists 0. split; [|done]. vm_compute. reflexivity.
  - intros j n ->%list_elem_of_singleton Hn'. by apply Hi.
Qed.

Definition one_shot_schedule : AgentCronSchedule := mkSchedule SCHEDULE_ONCE (lit "in 1m") None.

(** The process dies in the first run; the recovery and a cancellation whose write comes late
    follow, and the next claim finds nothing. *)
Definition interrupted_run : list (Z * Action) :=
  [(20, ReadCancel 1 (lit "job")); (70, ClaimDue 60); (71, BeginRun (dec 7)); (72, WriteBack 1); (80, Crash); (90, Start); (100, ClaimDue 95)].

Lemma sample_name n : (7 <= n)%N → lit "job" ≠ dec n.
Proof. intros _ E. assert (digits_value 0 (lit "job") = Some n) as H by (by rewrite E, dec_value). by vm_compute in H. Qed.

Lemma interrupted_run_timed : timed 10 interrupted_run.
Proof. cbn. unfold in_time. lia. Qed.

Lemma interrupted_run_once :
  only_once (run (λ _, 0) (sample_system 10 (sample_job (lit "job") one_shot_schedule 50)) interrupted_run).1 (lit "job").
Proof. intros j Hj _. vm_compute in Hj. apply list_elem_of_singleton in Hj as ->. vm_compute. reflexivity. Qed.

Lemma one_shot_runs_once_witness :
  let s := run (λ _, 0) (sample_system 10 (sample_job (lit "job") one_shot_schedule 50)) interrupted_run in
  (times (lit "job") (ran s.2) <= times (lit "job") (dispatched s.2) <= 1)%nat ∧ NoDup (outstanding s.1).
Proof.
  exact (one_shot_runs_once (λ _, 0) (sample_system 10 (sample_job (lit "job") one_shot_schedule 50)) interrupted_run (lit "job")
    (sample_opened 10 (lit "job") one_shot_schedule 50 ltac:(done) sample_name) interrupted_run_timed interrupted_run_once).
Defined.

(** A cancellation is lost when the job is claimed after the cancellation has read it: the
    claim is the later change, so the merge keeps the claimed job, which goes on running. *)
Example cancel_lost :
  let s := run (λ _, 0) (sample_system 10 (sample_job (lit "job") (mkSchedule SCHEDULE_INTERVAL (lit "every 1m") (Some 60000)) 50))
             [(60, ReadCancel 1 (lit "job")); (61, ClaimDue 60); (62, WriteBack 1)] in
  map status (jobs (file s.1)) = [STATUS_ACTIVE].
Proof. vm_compute. reflexivity. Qed.

(** A writer has read a job that was created at 1000 and is due at 1050.  The clock is set back
    while the job is claimed and runs, so the writer's copy counts as the later change and
    wins the merge: the job is active again and runs a second time. *)
Example clock_set_back_runs_twice :
  let job := sample_job (lit "job") one_shot_schedule 1050 in
  let stale := with_run job STATUS_ACTIVE (dec 1000) (next_run_at job) None None None 0 in
  let other := mkInput (lit "a") (lit "s") (lit "f") (lit "/") None (lit "other") None None in
  let s := run (λ _, 0) (mkSystem 1000 7 (mkState [stale] []) [] [] ∅)
             [(1040, ReadCreate 1 other one_shot_schedule 9000); (500, ClaimDue 1050); (501, BeginRun (dec 8));
              (502, EndRun (dec 8) RUN_RESULT_RAN None); (503, WriteBack 1); (1060, ClaimDue 1060); (1061, BeginRun (dec 9))] in
  ran s.2 = [lit "job"; lit "job"].
Proof. vm_compute. reflexivity. Qed.

(** In the hour that summer time ends with, a job that is to run every minute runs again as
    soon as it has run. *)
Example repeated_hour_runs_at_once :
  let t := 1762065000000 in
  let s := run eastern (sample_system t (sample_job (lit "job") (mkSchedule SCHEDULE_CRON (lit "* * * * *") None) t))
             [(t + 1, ClaimDue t); (t + 2, BeginRun (dec 7)); (t + 3, EndRun (dec 7) RUN_RESULT_RAN None);
              (t + 4, ClaimDue (t + 3)); (t + 5, BeginRun (dec 8)); (t + 6, EndRun (dec 8) RUN_RESULT_RAN None)] in
  ran s.2 = [lit "job"; lit "job"].
Proof. vm_compute. reflexivity. Qed.

(** A job of 29 February stays active without a next run. *)
Lemma leap_day_job_silent i ids :
  let j := sample_job i (mkSchedule SCHEDULE_CRON (lit "0 0 29 2 *") None) leap_day in
  let j' := advance (λ _, 0) ids leap_day leap_day j in
  status j' = STATUS_ACTIVE ∧ next_run_at j' = None.
Proof.
  cbn zeta. unfold advance. assert (∀ s, is_due_job (sample_job i s leap_day) leap_day = true) as -> by done.
  split; [done|]. cbn [with_run next_run_at sample_job schedule]. unfold next_run_text, next_run_at_for_schedule.
  cbn [kind expression]. change (str_eqb SCHEDULE_CRON SCHEDULE_ONCE) with false.
  change (str_eqb SCHEDULE_CRON SCHEDULE_INTERVAL) with false. by rewrite leap_day_job_stops.
Qed.
