(* ===== verification/ExecutionScope.v ===== *)
(** * Ownership and settlement of work

    [pi-agent-core/src/execution_scope.rs] and the task receipts of
    [pi-ai/src/utils/event_stream.rs].  An agent owns the tasks of its tools in an execution
    scope and the tasks of a model request in a stream receipt; stopping fences both, and
    [status] says when everything has really ended.

    The asynchronous runtime is a table of tasks.  The future of a tool's task is dropped,
    then its completion guard, which counts it off, and only then does the runtime publish
    that the task has ended; a stream's task ends in one step.  Aborting a task asks the
    runtime to end it and decides nothing here.  The waiting of [settle] is left out: it
    returns a [status]. *)
From stdpp Require Import base list numbers gmap sets.
From S2P Require Import Prelude.

Inductive TaskOutcome : Type := Completed | Cancelled | Failed.

Inductive Phase : Type :=
| Live                       (* its future exists *)
| Gone                       (* its future was dropped *)
| Acked                      (* its completion guard was dropped *)
| Ended (o : TaskOutcome).   (* the runtime has published it *)

Inductive Owner : Type := ScopeTask | StreamTask (receipt : nat).

(** [StreamTaskState], less the callbacks that close streams. *)
Record StreamTaskState : Type := mkReceipt {
  cancel_requested : bool;
  covered_streams : nat;
  uncovered_streams : nat;
  pending_joins : list nat;
  completed : nat;
  cancelled : nat;
  failed_joins : nat }.

Record StreamTaskStatus : Type := mkStreamStatus {
  st_supported : bool; st_cancel_requested : bool; st_pending_tasks : nat; st_completed_tasks : nat;
  st_cancelled_tasks : nat; st_failed_tasks : nat; st_settled : bool }.

(** [OwnedTask]: a task and whether stopping aborts it. *)
Record OwnedTask : Type := mkOwned { terminal : nat; abort_on_stop : bool }.

Record Scope : Type := mkScope {
  fenced : bool;
  pending : nat;
  failed : bool;
  uncovered : bool;
  unsupported_streams : bool;
  failed_streams : bool;
  tasks : list OwnedTask;
  streams : list nat }.

Definition Scope_default : Scope := mkScope false 0 false false false false [] [].

Record ExecutionStatus : Type := mkStatus {
  s_fenced : bool; tools_settled : bool; model_settled : bool; supported : bool; s_failed : bool }.

(** The runtime, one scope and the receipts. *)
Record World : Type := mkWorld {
  runtime : gmap nat (Owner * Phase);
  scope : Scope;
  receipts : gmap nat StreamTaskState;
  aborted : gset nat }.

Definition set_scope (w : World) (s : Scope) : World := mkWorld (runtime w) s (receipts w) (aborted w).
Definition set_receipts (w : World) (rs : gmap nat StreamTaskState) : World := mkWorld (runtime w) (scope w) rs (aborted w).
Definition set_phase (w : World) (t : nat) (o : Owner) (p : Phase) : World :=
  mkWorld (<[t := (o, p)]> (runtime w)) (scope w) (receipts w) (aborted w).
Definition abort (w : World) (ts : list nat) : World :=
  mkWorld (runtime w) (scope w) (receipts w) (list_to_set ts ∪ aborted w).

(** [AbortHandle::is_finished] and [join.now_or_never()]. *)
Definition outcome_of (w : World) (t : nat) : option TaskOutcome :=
  match runtime w !! t with Some (_, Ended o) => Some o | _ => None end.
Definition is_finished (w : World) (t : nat) : bool := match outcome_of w t with Some _ => true | None => false end.

(** ** Receipts *)

(** A task of [StreamTaskReceipt::status]. *)
Definition collect_join (w : World) (r : StreamTaskState) (t : nat) : StreamTaskState :=
  match outcome_of w t with
  | Some Completed => mkReceipt (cancel_requested r) (covered_streams r) (uncovered_streams r) (pending_joins r)
                        (S (completed r)) (cancelled r) (failed_joins r)
  | Some Cancelled => mkReceipt (cancel_requested r) (covered_streams r) (uncovered_streams r) (pending_joins r)
                        (completed r) (S (cancelled r)) (failed_joins r)
  | Some Failed => mkReceipt (cancel_requested r) (covered_streams r) (uncovered_streams r) (pending_joins r)
                     (completed r) (cancelled r) (S (failed_joins r))
  | None => mkReceipt (cancel_requested r) (covered_streams r) (uncovered_streams r) (pending_joins r ++ [t])
              (completed r) (cancelled r) (failed_joins r)
  end.

Definition collect (w : World) (r : StreamTaskState) : StreamTaskState :=
  fold_left (collect_join w) (pending_joins r)
    (mkReceipt (cancel_requested r) (covered_streams r) (uncovered_streams r) [] (completed r) (cancelled r) (failed_joins r)).

Definition receipt_supported (r : StreamTaskState) : bool := (0 <? covered_streams r)%nat && (uncovered_streams r =? 0)%nat.

(** What [StreamTaskReceipt::status] reports once the joins are collected. *)
Definition stream_status (r : StreamTaskState) : StreamTaskStatus :=
  mkStreamStatus (receipt_supported r) (cancel_requested r) (length (pending_joins r)) (completed r) (cancelled r) (failed_joins r)
    (receipt_supported r && cancel_requested r && bool_decide (pending_joins r = []) && (failed_joins r =? 0)%nat).

Definition new_unsupported : StreamTaskState := mkReceipt false 0 0 [] 0 0 0.

Definition receipt (w : World) (r : nat) : StreamTaskState := default new_unsupported (receipts w !! r).

(** [StreamTaskReceipt::status]. *)
Definition receipt_status (w : World) (r : nat) : World * StreamTaskStatus :=
  let rc := collect w (receipt w r) in (set_receipts w (<[r := rc]> (receipts w)), stream_status rc).

(** [StreamTaskReceipt::register_stream]. *)
Definition receipt_register_stream (w : World) (r : nat) (covered : bool) : World :=
  let rc := receipt w r in
  set_receipts w (<[r := mkReceipt (cancel_requested rc)
                           (if covered then S (covered_streams rc) else covered_streams rc)
                           (if covered then uncovered_streams rc else S (uncovered_streams rc))
                           (pending_joins rc) (completed rc) (cancelled rc) (failed_joins rc)]> (receipts w)).

(** [StreamTaskReceipt::spawn] of the new task [t]. *)
Definition receipt_spawn (w : World) (r t : nat) : World :=
  let rc := receipt w r in
  if cancel_requested rc then w
  else set_phase (set_receipts w (<[r := mkReceipt (cancel_requested rc) (covered_streams rc) (uncovered_streams rc)
                                           (pending_joins rc ++ [t]) (completed rc) (cancelled rc) (failed_joins rc)]> (receipts w)))
         t (StreamTask r) Live.

(** [StreamTaskReceipt::request_cancel]; the status it returns is not used here. *)
Definition receipt_request_cancel (w : World) (r : nat) : World :=
  let rc := receipt w r in
  let w := abort w (pending_joins rc) in
  let rc := mkReceipt true (covered_streams rc) (uncovered_streams rc) (pending_joins rc) (completed rc) (cancelled rc) (failed_joins rc) in
  (receipt_status (set_receipts w (<[r := rc]> (receipts w))) r).1.

(** ** The scope *)

(** [ExecutionScope::spawn] of the new task [t]. *)
Definition spawn (w : World) (t : nat) (abort_on_stop covered : bool) : World :=
  let s := scope w in
  if fenced s then w
  else set_phase (set_scope w (mkScope (fenced s) (S (pending s)) (failed s) (uncovered s || negb covered) (unsupported_streams s)
                                 (failed_streams s) (tasks s ++ [mkOwned t abort_on_stop]) (streams s)))
         t ScopeTask Live.

Definition register_stream (w : World) (r : nat) : World :=
  let s := scope w in
  if fenced s then receipt_request_cancel w r
  else set_scope w (mkScope (fenced s) (pending s) (failed s) (uncovered s) (unsupported_streams s) (failed_streams s)
                      (tasks s) (streams s ++ [r])).

(** [Completion::drop]. *)
Definition completion_drop (w : World) (panicking : bool) : World :=
  let s := scope w in
  set_scope w (mkScope (fenced s) (pending s - 1) (failed s || panicking) (uncovered s) (unsupported_streams s)
                 (failed_streams s) (tasks s) (streams s)).

(** A receipt of [prune_settled]. *)
Definition prune_stream (w : World) (r : nat) : World :=
  let '(w, st) := receipt_status w r in
  let s := scope w in
  set_scope w (mkScope (fenced s) (pending s) (failed s) (uncovered s) (unsupported_streams s || negb (st_supported st))
                 (failed_streams s || (0 <? st_failed_tasks st)%nat) (tasks s)
                 (if (0 <? st_pending_tasks st)%nat then streams s ++ [r] else streams s)).

Definition prune_settled (w : World) : World :=
  let s := scope w in
  let w' := set_scope w (mkScope (fenced s) (pending s) (failed s) (uncovered s) (unsupported_streams s) (failed_streams s)
                           (List.filter (λ t, negb (is_finished w (terminal t))) (tasks s)) []) in
  fold_left prune_stream (streams s) w'.

Definition request_cancel (w : World) : World :=
  let s := scope w in
  let w := set_scope w (mkScope true (pending s) (failed s) (uncovered s) (unsupported_streams s) (failed_streams s)
                          (tasks s) (streams s)) in
  let w := fold_left receipt_request_cancel (streams s) w in
  abort w (map terminal (List.filter abort_on_stop (tasks s))).

Fixpoint statuses (w : World) (rs : list nat) : World * list StreamTaskStatus :=
  match rs with
  | [] => (w, [])
  | r :: rs => let '(w, st) := receipt_status w r in let '(w, sts) := statuses w rs in (w, st :: sts)
  end.

Definition status (w : World) : World * ExecutionStatus :=
  let s := scope w in
  let '(w', sts) := statuses w (streams s) in
  let ended := (pending s =? 0)%nat && forallb (λ t, is_finished w (terminal t)) (tasks s) in
  (w', mkStatus (fenced s)
         (fenced s && ended && negb (failed s))
         (fenced s && ended && negb (failed s) && negb (failed_streams s) && negb (unsupported_streams s) && forallb st_settled sts)
         (negb (uncovered s) && negb (unsupported_streams s) && forallb st_supported sts)
         (failed s || failed_streams s || existsb (λ st, (0 <? st_failed_tasks st)%nat) sts)).

Definition reset_after_settlement (w : World) : World * bool :=
  let '(w, st) := status w in
  if negb (supported st) || negb (tools_settled st) || negb (model_settled st) then (w, false)
  else (set_scope w Scope_default, true).

(** ** Runs *)

Inductive Action : Type :=
| Spawn (t : nat) (abort_on_stop covered : bool)
| RegisterStream (r : nat)
| OpenStream (r : nat) (covered : bool)      (* a stream is made under the receipt *)
| StreamSpawn (r t : nat)
| CancelReceipt (r : nat)                    (* the consumer of a stream is dropped *)
| DropFuture (t : nat)
| DropGuard (t : nat) (panicking : bool)
| Publish (t : nat) (o : TaskOutcome)
| Prune
| RequestCancel
| Status
| Reset.

Definition step (w : World) (a : Action) : World :=
  match a with
  | Spawn t a c => match runtime w !! t with None => spawn w t a c | Some _ => w end
  | RegisterStream r => register_stream w r
  | OpenStream r covered => receipt_register_stream w r covered
  | StreamSpawn r t => match runtime w !! t with None => receipt_spawn w r t | Some _ => w end
  | CancelReceipt r => receipt_request_cancel w r
  | DropFuture t =>
      match runtime w !! t with Some (ScopeTask, Live) => set_phase w t ScopeTask Gone | _ => w end
  | DropGuard t panicking =>
      match runtime w !! t with
      | Some (ScopeTask, Gone) => set_phase (completion_drop w panicking) t ScopeTask Acked
      | _ => w
      end
  | Publish t o =>
      match runtime w !! t with
      | Some (ScopeTask, Acked) => set_phase w t ScopeTask (Ended o)
      | Some (StreamTask r, Live) => set_phase w t (StreamTask r) (Ended o)
      | _ => w
      end
  | Prune => prune_settled w
  | RequestCancel => request_cancel w
  | Status => (status w).1
  | Reset => (reset_after_settlement w).1
  end.

Definition run (w : World) (acts : list Action) : World := fold_left step acts w.

Definition World_default : World := mkWorld ∅ Scope_default ∅ ∅.

(** ** What collecting joins leaves unchanged *)

Lemma collect_joins w ts : ∀ r,
  let r' := fold_left (collect_join w) ts r in
  cancel_requested r' = cancel_requested r ∧ covered_streams r' = covered_streams r ∧ uncovered_streams r' = uncovered_streams r ∧
  pending_joins r' = pending_joins r ++ List.filter (λ t, negb (is_finished w t)) ts ∧
  (Forall (λ t, is_finished w t = false) ts → completed r' = completed r ∧ cancelled r' = cancelled r ∧ failed_joins r' = failed_joins r).
Proof.
  induction ts as [|t ts IH]; intros r; cbn [fold_left List.filter]; [by rewrite app_nil_r|].
  destruct (IH (collect_join w r t)) as (->&->&->&->&Hf). unfold collect_join, is_finished in *.
  destruct (outcome_of w t) as [[]|] eqn:E; cbn; (do 3 (split; [done|])); (split; [try done; by rewrite <-app_assoc|]);
    intros [Ht Hts]%Forall_cons; try (by rewrite E in Ht). destruct (Hf Hts) as (->&->&->). done.
Qed.

Definition unfinished (w : World) (ts : list nat) : list nat := List.filter (λ t, negb (is_finished w t)) ts.

Lemma collect_view w r :
  cancel_requested (collect w r) = cancel_requested r ∧ receipt_supported (collect w r) = receipt_supported r ∧
  pending_joins (collect w r) = unfinished w (pending_joins r).
Proof.
  unfold collect, receipt_supported, unfinished.
  destruct (collect_joins w (pending_joins r) (mkReceipt (cancel_requested r) (covered_streams r) (uncovered_streams r) []
    (completed r) (cancelled r) (failed_joins r))) as (->&->&->&->&_). done.
Qed.

Lemma receipt_eq r r' :
  cancel_requested r = cancel_requested r' → covered_streams r = covered_streams r' → uncovered_streams r = uncovered_streams r' →
  pending_joins r = pending_joins r' → completed r = completed r' → cancelled r = cancelled r' → failed_joins r = failed_joins r' →
  r = r'.
Proof. destruct r, r'. cbn. by intros; subst. Qed.

Lemma unfinished_all w ts : Forall (λ t, is_finished w t = false) (unfinished w ts).
Proof. apply Forall_forall. intros t Ht. apply list_elem_of_In, filter_In in Ht as [_ Ht]. by apply negb_true_iff. Qed.

Lemma filter_all {A} (p : A → bool) l : Forall (λ x, p x = true) l → List.filter p l = l.
Proof. induction 1 as [|x l Hx _ IH]; [done|]. cbn. by rewrite Hx, IH. Qed.

Lemma collect_idemp w r : collect w (collect w r) = collect w r.
Proof.
  pose proof (collect_view w r) as (_&_&Hp). pose proof (unfinished_all w (pending_joins r)) as Hu. rewrite <-Hp in Hu.
  revert Hu. generalize (collect w r). clear. intros r Hu. unfold collect.
  destruct (collect_joins w (pending_joins r) (mkReceipt (cancel_requested r) (covered_streams r) (uncovered_streams r) []
    (completed r) (cancelled r) (failed_joins r))) as (E1&E2&E3&E4&Hf). destruct (Hf Hu) as (E5&E6&E7).
  apply receipt_eq; try done. rewrite E4. cbn. apply filter_all. eapply Forall_impl; [exact Hu|].
  intros t Ht. by rewrite Ht.
Qed.

(** The receipt as [status] shows it. *)
Definition view (w : World) (r : nat) : StreamTaskState := collect w (receipt w r).

(** Two worlds whose tasks are the same and whose receipts show the same. *)
Record same (w w' : World) : Prop := {
  same_runtime : runtime w' = runtime w;
  same_view : ∀ r, view w' r = view w r }.

Lemma collect_runtime w w' r : runtime w' = runtime w → collect w' r = collect w r.
Proof.
  intros E. unfold collect. generalize (mkReceipt (cancel_requested r) (covered_streams r) (uncovered_streams r) []
    (completed r) (cancelled r) (failed_joins r)). induction (pending_joins r) as [|t ts IH]; intros r'; [done|]. cbn [fold_left].
  rewrite IH. f_equal. unfold collect_join, outcome_of. by rewrite E.
Qed.

Lemma scope_same_refl w : same w w.
Proof. done. Qed.
Lemma scope_same_trans w w' w'' : same w w' → same w' w'' → same w w''.
Proof. intros [E V] [E' V']. split; [congruence|]. intros r. by rewrite V', V. Qed.
#[local] Instance same_preorder : PreOrder same.
Proof. split; [exact scope_same_refl|exact scope_same_trans]. Qed.

Lemma receipt_insert w r rc r' : receipt (set_receipts w (<[r := rc]> (receipts w))) r' = if decide (r' = r) then rc else receipt w r'.
Proof.
  unfold receipt. cbn. case_decide as E; [subst; by rewrite lookup_insert_eq|by rewrite lookup_insert_ne].
Qed.

Lemma receipt_status_spec w r :
  let '(w', st) := receipt_status w r in same w w' ∧ scope w' = scope w ∧ st = stream_status (view w r).
Proof.
  unfold receipt_status. split; [|done]. split; [done|]. intros r'. unfold view.
  rewrite (collect_runtime w) by done. rewrite receipt_insert. case_decide as E; [subst r'; by rewrite collect_idemp|done].
Qed.

Lemma statuses_spec rs : ∀ w,
  let '(w', sts) := statuses w rs in same w w' ∧ scope w' = scope w ∧ sts = map (λ r, stream_status (view w r)) rs.
Proof.
  induction rs as [|r rs IH]; intros w; cbn [statuses map]; [done|].
  pose proof (receipt_status_spec w r) as H. destruct (receipt_status w r) as [w1 st]. destruct H as (H1&E1&->).
  specialize (IH w1). destruct (statuses w1 rs) as [w2 sts]. destruct IH as (H2&E2&->). split; [by trans w1|].
  split; [congruence|]. f_equal. apply map_ext. intros r'. by rewrite (same_view _ _ H1).
Qed.

Lemma is_finished_same w w' t : runtime w' = runtime w → is_finished w' t = is_finished w t.
Proof. intros E. unfold is_finished, outcome_of. by rewrite E. Qed.

(** ** Pruning *)

Definition has_pending (w : World) (r : nat) : bool := (0 <? length (pending_joins (view w r)))%nat.
Definition has_failed (w : World) (r : nat) : bool := (0 <? failed_joins (view w r))%nat.
Definition is_supported (w : World) (r : nat) : bool := receipt_supported (view w r).

Lemma same_set_scope w s : same w (set_scope w s).
Proof. split; [done|]. intros r. by apply collect_runtime. Qed.

Lemma prune_stream_spec w r :
  same w (prune_stream w r) ∧
  scope (prune_stream w r) = mkScope (fenced (scope w)) (pending (scope w)) (failed (scope w)) (uncovered (scope w))
    (unsupported_streams (scope w) || negb (is_supported w r)) (failed_streams (scope w) || has_failed w r) (tasks (scope w))
    (if has_pending w r then streams (scope w) ++ [r] else streams (scope w)).
Proof.
  unfold prune_stream. pose proof (receipt_status_spec w r) as H. destruct (receipt_status w r) as [w1 st].
  destruct H as (H1&E1&->). split; [eapply scope_same_trans; [exact H1|apply same_set_scope]|]. cbn [scope set_scope]. by rewrite E1.
Qed.

(** A property of what receipts show, over a list of them. *)
Lemma existsb_view w w' (f : StreamTaskState → bool) rs :
  same w w' → existsb (λ r, f (view w' r)) rs = existsb (λ r, f (view w r)) rs.
Proof. intros H. induction rs as [|r rs IH]; [done|]. cbn. by rewrite (same_view _ _ H), IH. Qed.
Lemma filter_view w w' (f : StreamTaskState → bool) rs :
  same w w' → List.filter (λ r, f (view w' r)) rs = List.filter (λ r, f (view w r)) rs.
Proof. intros H. induction rs as [|r rs IH]; [done|]. cbn. by rewrite (same_view _ _ H), IH. Qed.
Lemma forallb_view w w' (f : StreamTaskState → bool) rs :
  same w w' → forallb (λ r, f (view w' r)) rs = forallb (λ r, f (view w r)) rs.
Proof. intros H. induction rs as [|r rs IH]; [done|]. cbn. by rewrite (same_view _ _ H), IH. Qed.

Lemma prune_streams rs : ∀ w,
  same w (fold_left prune_stream rs w) ∧
  scope (fold_left prune_stream rs w) = mkScope (fenced (scope w)) (pending (scope w)) (failed (scope w)) (uncovered (scope w))
    (unsupported_streams (scope w) || existsb (λ r, negb (is_supported w r)) rs)
    (failed_streams (scope w) || existsb (has_failed w) rs) (tasks (scope w))
    (streams (scope w) ++ List.filter (has_pending w) rs).
Proof.
  induction rs as [|r rs IH]; intros w; cbn [fold_left existsb List.filter].
  { split; [done|]. rewrite !orb_false_r, app_nil_r. by destruct (scope w). }
  destruct (prune_stream_spec w r) as [H1 E1]. destruct (IH (prune_stream w r)) as [H2 ->]. split; [by eapply scope_same_trans|].
  rewrite E1. cbn [fenced pending failed uncovered unsupported_streams failed_streams tasks streams].
  unfold is_supported, has_failed, has_pending.
  rewrite (existsb_view w _ (λ v, negb (receipt_supported v)) rs H1), (existsb_view w _ (λ v, (0 <? failed_joins v)%nat) rs H1),
    (filter_view w _ (λ v, (0 <? length (pending_joins v))%nat) rs H1), <-!orb_assoc.
  f_equal. destruct (_ <? _)%nat; [by rewrite <-app_assoc|done].
Qed.

Lemma prune_settled_spec w :
  same w (prune_settled w) ∧
  scope (prune_settled w) = mkScope (fenced (scope w)) (pending (scope w)) (failed (scope w)) (uncovered (scope w))
    (unsupported_streams (scope w) || existsb (λ r, negb (is_supported w r)) (streams (scope w)))
    (failed_streams (scope w) || existsb (has_failed w) (streams (scope w)))
    (List.filter (λ t, negb (is_finished w (terminal t))) (tasks (scope w)))
    (List.filter (has_pending w) (streams (scope w))).
Proof.
  unfold prune_settled. match goal with |- context [set_scope w ?s] => pose proof (same_set_scope w s) as H' end.
  destruct (prune_streams (streams (scope w)) (set_scope w (mkScope (fenced (scope w)) (pending (scope w)) (failed (scope w))
    (uncovered (scope w)) (unsupported_streams (scope w)) (failed_streams (scope w))
    (List.filter (λ t, negb (is_finished w (terminal t))) (tasks (scope w))) []))) as [Hs Hsc].
  split; [by eapply scope_same_trans|]. rewrite Hsc.
  cbn [scope set_scope fenced pending failed uncovered unsupported_streams failed_streams tasks streams app].
  unfold is_supported, has_failed, has_pending.
  by rewrite (existsb_view w _ (λ v, negb (receipt_supported v)) _ H'), (existsb_view w _ (λ v, (0 <? failed_joins v)%nat) _ H'),
    (filter_view w _ (λ v, (0 <? length (pending_joins v))%nat) _ H').
Qed.

Definition stream_settled (w : World) (r : nat) : bool := st_settled (stream_status (view w r)).

(** The status of a scope. *)
Definition status_of (w : World) : ExecutionStatus :=
  let s := scope w in
  let ended := (pending s =? 0)%nat && forallb (λ t, is_finished w (terminal t)) (tasks s) in
  mkStatus (fenced s)
    (fenced s && ended && negb (failed s))
    (fenced s && ended && negb (failed s) && negb (failed_streams s) && negb (unsupported_streams s)
      && forallb (stream_settled w) (streams s))
    (negb (uncovered s) && negb (unsupported_streams s) && forallb (is_supported w) (streams s))
    (failed s || failed_streams s || existsb (has_failed w) (streams s)).

Lemma forallb_map {A B} (f : A → B) (p : B → bool) l : forallb p (map f l) = forallb (λ x, p (f x)) l.
Proof. induction l as [|x l IH]; [done|]. cbn. by rewrite IH. Qed.
Lemma existsb_fmap {A B} (f : A → B) (p : B → bool) l : existsb p (map f l) = existsb (λ x, p (f x)) l.
Proof. induction l as [|x l IH]; [done|]. cbn. by rewrite IH. Qed.

Lemma status_spec w : same w (status w).1 ∧ scope (status w).1 = scope w ∧ (status w).2 = status_of w.
Proof.
  unfold status. pose proof (statuses_spec (streams (scope w)) w) as H. destruct (statuses w (streams (scope w))) as [w' sts].
  destruct H as (H&E&->). split; [done|]. split; [done|]. cbn [snd]. by rewrite !forallb_map, existsb_fmap.
Qed.

Lemma all_finished_filter w ts :
  forallb (λ t, is_finished w (terminal t)) (List.filter (λ t, negb (is_finished w (terminal t))) ts) =
  forallb (λ t, is_finished w (terminal t)) ts.
Proof.
  induction ts as [|t ts IH]; [done|]. cbn [List.filter forallb].
  destruct (is_finished w (terminal t)) eqn:E; cbn [negb]; [done|]. cbn [forallb]. by rewrite E.
Qed.

(** ** The invariant *)

Definition ended (p : Phase) : bool := match p with Ended _ => true | _ => false end.

(** The tasks a completion guard still exists for. *)
Definition guarded (op : Owner * Phase) : bool :=
  match op with (ScopeTask, Live) | (ScopeTask, Gone) => true | _ => false end.
Definition guards (m : gmap nat (Owner * Phase)) : nat := size (filter (λ tp : nat * (Owner * Phase), guarded tp.2 = true) m).

Record inv (w : World) : Prop := {
  inv_scope : ∀ t p, runtime w !! t = Some (ScopeTask, p) → ended p = false → t ∈ map terminal (tasks (scope w));
  inv_stream : ∀ t r p, runtime w !! t = Some (StreamTask r, p) → ended p = false →
    t ∈ pending_joins (receipt w r) ∧ r ∈ streams (scope w);
  inv_fenced : fenced (scope w) = true → ∀ r, r ∈ streams (scope w) → cancel_requested (receipt w r) = true;
  inv_known : ∀ t, t ∈ map terminal (tasks (scope w)) → ∃ p, runtime w !! t = Some (ScopeTask, p);
  inv_pending : pending (scope w) = guards (runtime w) }.

Lemma not_finished w t o p : runtime w !! t = Some (o, p) → is_finished w t = ended p.
Proof. intros E. unfold is_finished, outcome_of. rewrite E. by destruct p. Qed.

Lemma forallb_filter {A} (p q : A → bool) l : forallb p l = true → forallb p (List.filter q l) = true.
Proof. rewrite !forallb_forall. intros H x Hx. apply filter_In in Hx as [Hx _]. by apply H. Qed.

Lemma existsb_filter {A} (p q : A → bool) l : existsb p l = false → existsb p (List.filter q l) = false.
Proof.
  induction l as [|x l IH]; [done|]. cbn. intros [Hx Hl]%orb_false_iff. destruct (q x); [cbn; by rewrite Hx, IH|by apply IH].
Qed.

Lemma existsb_negb {A} (p : A → bool) l : existsb (λ r, negb (p r)) l = negb (forallb p l).
Proof. induction l as [|x l IH]; [done|]. cbn. rewrite IH. by destruct (p x). Qed.

(** A stream of a fenced scope is settled when it is supported, has no task left and none
    that failed. *)
Lemma fenced_settled w r :
  cancel_requested (receipt w r) = true →
  stream_settled w r = is_supported w r && negb (has_pending w r) && negb (has_failed w r).
Proof.
  intros Hc. unfold stream_settled, is_supported, has_pending, has_failed, stream_status. cbn [st_settled].
  destruct (collect_view w (receipt w r)) as (E&_). unfold view. rewrite E, Hc. rewrite andb_true_r.
  f_equal; [f_equal; by destruct (pending_joins _)|by destruct (failed_joins _)].
Qed.

Lemma settled_streams w rs :
  Forall (λ r, cancel_requested (receipt w r) = true) rs →
  negb (existsb (has_failed w) rs) && negb (existsb (λ r, negb (is_supported w r)) rs) && forallb (stream_settled w) (List.filter (has_pending w) rs) =
  forallb (stream_settled w) rs.
Proof.
  induction 1 as [|r rs Hr _ IH]; [done|]. cbn [existsb List.filter forallb]. rewrite <-IH, (fenced_settled w r Hr).
  destruct (is_supported w r) eqn:Es, (has_failed w r) eqn:Ef, (has_pending w r) eqn:Ep; cbn [negb orb andb forallb];
    rewrite ?(fenced_settled w r Hr), ?Es, ?Ep, ?Ef; cbn [negb andb]; by rewrite ?andb_false_r.
Qed.

Lemma prune_keeps_status w : inv w → (status (prune_settled w)).2 = (status w).2.
Proof.
  intros I. rewrite !(proj2 (proj2 (status_spec _))). destruct (prune_settled_spec w) as [Hs Hsc].
  unfold status_of. rewrite Hsc. cbn [fenced pending failed uncovered unsupported_streams failed_streams tasks streams].
  assert (∀ l, forallb (λ t, is_finished (prune_settled w) (terminal t)) l = forallb (λ t, is_finished w (terminal t)) l) as ->.
  { intros l. induction l as [|t l IH]; [done|]. cbn. by rewrite IH, (is_finished_same w _ _ (same_runtime _ _ Hs)). }
  rewrite all_finished_filter.
  assert (∀ l, forallb (stream_settled (prune_settled w)) l = forallb (stream_settled w) l) as ->
    by (intros l; exact (forallb_view w _ (λ v, st_settled (stream_status v)) l Hs)).
  assert (∀ l, forallb (is_supported (prune_settled w)) l = forallb (is_supported w) l) as ->
    by (intros l; exact (forallb_view w _ receipt_supported l Hs)).
  assert (∀ l, existsb (has_failed (prune_settled w)) l = existsb (has_failed w) l) as ->
    by (intros l; exact (existsb_view w _ (λ v, (0 <? failed_joins v)%nat) l Hs)).
  f_equal.
  - destruct (fenced (scope w)) eqn:Ef; [|done]. rewrite !negb_orb, <-(settled_streams w (streams (scope w))).
    + generalize (existsb (has_failed w) (streams (scope w))) (existsb (λ r, negb (is_supported w r)) (streams (scope w)))
        (forallb (stream_settled w) (List.filter (has_pending w) (streams (scope w)))).
      intros [] [] []; by destruct (true && _ && _), (failed_streams _), (unsupported_streams _).
    + apply Forall_forall. by apply (inv_fenced w I Ef).
  - rewrite existsb_negb, negb_orb, negb_involutive.
    destruct (forallb (is_supported w) (streams (scope w))) eqn:E; [by rewrite (forallb_filter _ _ _ E), !andb_true_r|].
    by rewrite !andb_false_r.
  - destruct (existsb (has_failed w) (streams (scope w))) eqn:E; [by rewrite !orb_true_r|].
    by rewrite (existsb_filter _ _ _ E), !orb_false_r.
Qed.

(** ** Every step preserves it *)

(** The tasks are the same, and no receipt forgets a task that has not ended or a stop. *)
Record kept (w w' : World) : Prop := {
  kept_runtime : runtime w' = runtime w;
  kept_pending : ∀ r t, t ∈ pending_joins (receipt w r) → is_finished w t = false → t ∈ pending_joins (receipt w' r);
  kept_cancel : ∀ r, cancel_requested (receipt w r) = true → cancel_requested (receipt w' r) = true }.

Lemma kept_trans w w' w'' : kept w w' → kept w' w'' → kept w w''.
Proof.
  intros [E P C] [E' P' C']. split; [congruence| |auto]. intros r t Ht Hf. apply P'; [by apply P|].
  by rewrite (is_finished_same w w').
Qed.

Lemma elem_of_unfinished w t ts : t ∈ unfinished w ts ↔ t ∈ ts ∧ is_finished w t = false.
Proof. unfold unfinished. by rewrite !list_elem_of_In, filter_In, negb_true_iff. Qed.

Lemma same_kept w w' : same w w' → kept w w'.
Proof.
  intros [E V]. split; [done| |].
  - intros r t Ht Hf. pose proof (V r) as Hv. unfold view in Hv.
    destruct (collect_view w (receipt w r)) as (_&_&Hp), (collect_view w' (receipt w' r)) as (_&_&Hp').
    rewrite Hv, Hp in Hp'. assert (t ∈ unfinished w (pending_joins (receipt w r))) as Hu by by apply elem_of_unfinished.
    rewrite Hp' in Hu. by apply elem_of_unfinished in Hu as [? _].
  - intros r Hc. pose proof (V r) as Hv. unfold view in Hv.
    destruct (collect_view w (receipt w r)) as (Hp&_), (collect_view w' (receipt w' r)) as (Hp'&_). congruence.
Qed.

(** Replacing a receipt by one with at least its tasks and its stop. *)
Lemma kept_insert w r rc :
  pending_joins (receipt w r) ⊆ pending_joins rc → (cancel_requested (receipt w r) = true → cancel_requested rc = true) →
  kept w (set_receipts w (<[r := rc]> (receipts w))).
Proof.
  intros Hp Hc. split; [done| |].
  - intros r' t Ht _. rewrite receipt_insert. case_decide as E; [subst r'; by apply Hp|done].
  - intros r' Ht. rewrite receipt_insert. case_decide as E; [subst r'; by apply Hc|done].
Qed.

Lemma abort_kept w ts : kept w (abort w ts).
Proof. by split. Qed.

Lemma receipt_request_cancel_kept w r :
  kept w (receipt_request_cancel w r) ∧ scope (receipt_request_cancel w r) = scope w ∧
  cancel_requested (receipt (receipt_request_cancel w r) r) = true.
Proof.
  unfold receipt_request_cancel. set (rc := mkReceipt true _ _ _ _ _ _). set (w1 := set_receipts _ _).
  assert (kept w w1) as H1 by (eapply kept_trans; [apply abort_kept|apply (kept_insert _ r rc); done]). pose proof (receipt_status_spec w1 r) as H.
  destruct (receipt_status w1 r) as [w2 st]. destruct H as (H&E&_). apply same_kept in H. cbn [fst].
  split; [by eapply kept_trans|]. split; [done|]. apply (kept_cancel _ _ H). unfold w1. by rewrite receipt_insert, decide_True.
Qed.

Lemma cancel_all_kept rs : ∀ w,
  kept w (fold_left receipt_request_cancel rs w) ∧ scope (fold_left receipt_request_cancel rs w) = scope w ∧
  ∀ r, r ∈ rs → cancel_requested (receipt (fold_left receipt_request_cancel rs w) r) = true.
Proof.
  induction rs as [|r rs IH]; intros w; cbn [fold_left]; [by split; [|split; [|intros r ?%elem_of_nil]]|].
  destruct (receipt_request_cancel_kept w r) as (K&E&C), (IH (receipt_request_cancel w r)) as (K'&E'&C').
  split; [by eapply kept_trans|]. split; [congruence|].
  intros r' [->|Hr]%elem_of_cons; [by apply (kept_cancel _ _ K')|by apply C'].
Qed.

(** The invariant when the tasks do not change. *)
Lemma inv_kept w w' :
  inv w → kept w w' → pending (scope w') = pending (scope w) →
  (∀ t, t ∈ map terminal (tasks (scope w)) → is_finished w t = false → t ∈ map terminal (tasks (scope w'))) →
  (∀ t, t ∈ map terminal (tasks (scope w')) → t ∈ map terminal (tasks (scope w))) →
  (∀ r, r ∈ streams (scope w) → has_pending w r = true → r ∈ streams (scope w')) →
  (fenced (scope w') = true → ∀ r, r ∈ streams (scope w') → cancel_requested (receipt w' r) = true) →
  inv w'.
Proof.
  intros I K Hp Ht Ht' Hs Hc. split; [| |done| |by rewrite Hp, (kept_runtime _ _ K), (inv_pending _ I)].
  - intros t p E He. rewrite (kept_runtime _ _ K) in E. apply Ht; [by eapply inv_scope|by rewrite (not_finished _ _ _ _ E)].
  - intros t r p E He. rewrite (kept_runtime _ _ K) in E. destruct (inv_stream _ I t r p E He) as [Hj Hr].
    assert (is_finished w t = false) as Hf by by rewrite (not_finished _ _ _ _ E). split; [by apply (kept_pending _ _ K)|].
    apply Hs; [done|]. unfold has_pending. destruct (collect_view w (receipt w r)) as (_&_&Hv). unfold view. rewrite Hv.
    assert (t ∈ unfinished w (pending_joins (receipt w r))) as Hu by by apply elem_of_unfinished.
    by destruct (unfinished _ _); [apply elem_of_nil in Hu|].
  - intros t E%Ht'. rewrite (kept_runtime _ _ K). by apply (inv_known _ I).
Qed.

Lemma inv_receipts w w' : inv w → kept w w' → scope w' = scope w → inv w'.
Proof.
  intros I K E. apply (inv_kept w); rewrite ?E; try done. intros Hf r Hr. by apply (kept_cancel _ _ K), (inv_fenced _ I).
Qed.

Lemma prune_inv w : inv w → inv (prune_settled w).
Proof.
  intros I. destruct (prune_settled_spec w) as [H E]. apply same_kept in H.
  apply (inv_kept w); rewrite ?E; cbn [pending tasks streams fenced]; try done.
  - intros t (x&->&Hx)%list_elem_of_fmap Hf. apply list_elem_of_fmap. exists x. split; [done|].
    apply list_elem_of_In, filter_In. split; [by apply list_elem_of_In|by rewrite Hf].
  - intros t (x&->&Hx)%list_elem_of_fmap. apply list_elem_of_fmap. exists x. split; [done|].
    apply list_elem_of_In, filter_In in Hx as [Hx _]. by apply list_elem_of_In.
  - intros r Hr Hp. apply list_elem_of_In, filter_In. split; [by apply list_elem_of_In|done].
  - intros Hf r Hr. apply (kept_cancel _ _ H), (inv_fenced _ I Hf). apply list_elem_of_In, filter_In in Hr as [Hr _].
    by apply list_elem_of_In.
Qed.

Lemma request_cancel_inv w : inv w → inv (request_cancel w).
Proof.
  intros I. unfold request_cancel. set (w1 := set_scope w _). destruct (cancel_all_kept (streams (scope w)) w1) as (K&E&C).
  assert (kept w w1) as K1 by apply same_kept, same_set_scope.
  apply (inv_kept w); cbn [scope abort]; rewrite ?E; try done.
  eapply kept_trans; [exact K1|]. eapply kept_trans; [exact K|]. apply abort_kept.
Qed.

Lemma status_inv w : inv w → inv (status w).1.
Proof. intros I. destruct (status_spec w) as (H&E&_). apply (inv_receipts w); [done|by apply same_kept|done]. Qed.

(** ** What settlement means *)

Lemma tools_settled_spec w :
  inv w → tools_settled (status_of w) = true ↔
  fenced (scope w) = true ∧ failed (scope w) = false ∧ ∀ t p, runtime w !! t = Some (ScopeTask, p) → ended p = true.
Proof.
  intros I. unfold status_of. cbn [tools_settled]. rewrite !andb_true_iff, negb_true_iff, Nat.eqb_eq, forallb_forall. split.
  - intros ((Hf&Hp&Ht)&Hfl). split; [done|]. split; [done|]. intros t p E. destruct (ended p) eqn:He; [done|].
    pose proof (inv_scope _ I t p E He) as (x&->&Hx)%list_elem_of_fmap. apply list_elem_of_In, Ht in Hx.
    rewrite (not_finished _ _ _ _ E) in Hx. congruence.
  - intros (Hf&Hfl&H). split; [|done]. split; [done|]. split.
    + rewrite (inv_pending _ I). apply map_size_empty_iff, map_empty_filter. intros t [o p] E Hg. cbn in Hg.
      destruct o; [|by destruct p]. specialize (H t p E). by destruct p.
    + intros x Hx%list_elem_of_In. destruct (inv_known _ I (terminal x)) as [p E]; [by apply list_elem_of_fmap_2|].
      rewrite (not_finished _ _ _ _ E). by apply (H _ _ E).
Qed.

Lemma model_settled_ended w :
  inv w → model_settled (status_of w) = true → fenced (scope w) = true ∧ ∀ t o p, runtime w !! t = Some (o, p) → ended p = true.
Proof.
  intros I. unfold status_of. cbn [model_settled]. rewrite !andb_true_iff. intros (((Ht&_)&_)&Hs).
  assert (tools_settled (status_of w) = true) as HT by (cbn [tools_settled status_of]; by rewrite !andb_true_iff).
  apply (tools_settled_spec w I) in HT as (Hf&_&HT). split; [done|]. intros t o p E. destruct o as [|r]; [by eapply HT|].
  destruct (ended p) eqn:He; [done|]. destruct (inv_stream _ I t r p E He) as [Hj Hr].
  apply list_elem_of_In in Hr. rewrite forallb_forall in Hs. specialize (Hs r Hr).
  unfold stream_settled, stream_status, view in Hs. cbn [st_settled] in Hs. rewrite !andb_true_iff in Hs.
  destruct Hs as [[_ Hs] _]. apply bool_decide_eq_true in Hs. destruct (collect_view w (receipt w r)) as (_&_&Hv).
  rewrite Hv in Hs. assert (t ∈ unfinished w (pending_joins (receipt w r))) as Hu
    by (apply elem_of_unfinished; by rewrite (not_finished _ _ _ _ E)).
  rewrite Hs in Hu. by apply elem_of_nil in Hu.
Qed.

(** ** Steps that change the tasks *)

Definition one (b : bool) : nat := if b then 1 else 0.

Lemma guards_insert m t x : guards (<[t := x]> m) = guards (delete t m) + one (guarded x).
Proof.
  unfold guards. rewrite map_filter_insert. cbn [snd]. destruct (guarded x); cbn [one].
  - rewrite decide_True by done. rewrite map_filter_delete, <-(insert_delete_eq (filter _ m) t x), map_size_insert_None; [lia|].
    apply lookup_delete_eq.
  - rewrite decide_False by done. lia.
Qed.

Lemma guards_lookup m t x : m !! t = Some x → guards m = guards (delete t m) + one (guarded x).
Proof. intros E. rewrite <-guards_insert, insert_id by done. done. Qed.

(** A task moves on. *)
Lemma phase_inv w s t o p p' :
  inv w → runtime w !! t = Some (o, p) → ended p = false →
  fenced s = fenced (scope w) → tasks s = tasks (scope w) → streams s = streams (scope w) →
  pending s + one (guarded (o, p)) = pending (scope w) + one (guarded (o, p')) →
  inv (set_phase (set_scope w s) t o p').
Proof.
  intros I E He Hf Ht Hs Hp. split; cbn [runtime set_phase set_scope scope].
  - intros t' q [(<-&[= -> ->])|(Hn&E')]%lookup_insert_Some Hq; rewrite Ht; by eapply inv_scope.
  - intros t' r q [(<-&[= -> ->])|(Hn&E')]%lookup_insert_Some Hq; rewrite Hs; by eapply (inv_stream _ I).
  - rewrite Hf, Hs. by apply (inv_fenced _ I).
  - rewrite Ht. intros t' Ht'%(inv_known _ I). destruct Ht' as [q E']. destruct (decide (t' = t)) as [->|Hn].
    + rewrite lookup_insert_eq. rewrite E in E'. injection E' as -> _. by eexists.
    + rewrite lookup_insert_ne by done. by eexists.
  - rewrite guards_insert. pose proof (guards_lookup _ _ _ E). pose proof (inv_pending _ I). lia.
Qed.

Lemma set_scope_id w : set_scope w (scope w) = w.
Proof. by destruct w. Qed.

Lemma spawn_inv w t a c : inv w → runtime w !! t = None → inv (spawn w t a c).
Proof.
  intros I E. unfold spawn. destruct (fenced (scope w)) eqn:Ef; [done|].
  split; cbn [runtime set_phase set_scope scope tasks streams fenced pending]; rewrite ?map_app.
  - intros t' q [(<-&[= <-])|(Hn&E')]%lookup_insert_Some Hq; apply elem_of_app; [right; by apply list_elem_of_singleton|].
    left. by eapply inv_scope.
  - intros t' r q [(<-&[=])|(Hn&E')]%lookup_insert_Some Hq. by eapply (inv_stream _ I).
  - done.
  - intros t' [Ht'|Ht'%list_elem_of_singleton]%elem_of_app; [|subst t'; rewrite lookup_insert_eq; by eexists].
    destruct (inv_known _ I t' Ht') as [q E']. rewrite lookup_insert_ne by congruence. by eexists.
  - rewrite guards_insert, delete_id by done. cbn [one guarded]. pose proof (inv_pending _ I). lia.
Qed.

(** A stream starts a task under a receipt the scope owns. *)
Lemma receipt_spawn_inv w r t : inv w → runtime w !! t = None → r ∈ streams (scope w) → inv (receipt_spawn w r t).
Proof.
  intros I E Hr. unfold receipt_spawn. destruct (cancel_requested (receipt w r)) eqn:Ec; [done|].
  set (rc := mkReceipt _ _ _ _ _ _ _).
  assert (kept w (set_receipts w (<[r := rc]> (receipts w)))) as K.
  { apply kept_insert; [|by rewrite Ec]. cbn. intros x Hx. apply elem_of_app. by left. }
  assert (inv (set_receipts w (<[r := rc]> (receipts w)))) as I' by by apply (inv_receipts w).
  assert (t ∈ pending_joins (receipt (set_receipts w (<[r := rc]> (receipts w))) r)) as Hj.
  { rewrite receipt_insert, decide_True by done. apply elem_of_app. right. by apply list_elem_of_singleton. }
  revert I' Hj. generalize (set_receipts w (<[r := rc]> (receipts w))) (kept_runtime _ _ K)
    (eq_refl : scope (set_receipts w (<[r := rc]> (receipts w))) = scope w). clear I K rc. intros w1 Er Es I Hj.
  split; cbn [runtime set_phase scope].
  - intros t' q [(<-&[=])|(Hn&E')]%lookup_insert_Some Hq. by eapply inv_scope.
  - intros t' r' q [(<-&[= <- <-])|(Hn&E')]%lookup_insert_Some Hq; [by rewrite Es|]. by eapply (inv_stream _ I).
  - apply (inv_fenced _ I).
  - intros t' Ht'. destruct (inv_known _ I t' Ht') as [q E']. rewrite lookup_insert_ne by congruence. by eexists.
  - rewrite guards_insert, delete_id by congruence. cbn [one guarded]. pose proof (inv_pending _ I). lia.
Qed.

Lemma register_inv w r : inv w → inv (register_stream w r).
Proof.
  intros I. unfold register_stream. destruct (fenced (scope w)) eqn:Ef.
  - destruct (receipt_request_cancel_kept w r) as (K&E&_). by apply (inv_receipts w).
  - apply (inv_kept w); cbn [scope set_scope pending tasks streams fenced]; try done.
    intros r' Hr' _. apply elem_of_app. by left.
Qed.

Lemma reset_inv w : inv w → inv (reset_after_settlement w).1.
Proof.
  intros I. unfold reset_after_settlement. pose proof (status_inv w I) as I'. destruct (status_spec w) as (H&E&Es).
  destruct (status w) as [w' st]. cbn [fst snd] in *. subst st. destruct (_ || _ || _) eqn:Hc; [done|].
  apply orb_false_iff in Hc as [_ Hc]. apply negb_false_iff in Hc. destruct (model_settled_ended w I Hc) as [_ Ha].
  rewrite <-(same_runtime _ _ H) in Ha. split; cbn [fst set_scope runtime scope Scope_default tasks streams fenced pending map].
  - intros t p Et Hp. specialize (Ha _ _ _ Et). congruence.
  - intros t r p Et Hp. specialize (Ha _ _ _ Et). congruence.
  - done.
  - by intros t ?%elem_of_nil.
  - symmetry. apply map_size_empty_iff, map_empty_filter. intros t [o p] Et Hg. cbn in Hg. specialize (Ha _ _ _ Et).
    by destruct o, p.
Qed.

(** A task is started under a receipt only while the scope owns the receipt: the loop
    registers a receipt before it opens the stream, and what a stream starts inherits it. *)
Definition owned_spawn (w : World) (a : Action) : Prop :=
  match a with StreamSpawn r _ => r ∈ streams (scope w) | _ => True end.
Fixpoint owned_spawns (w : World) (acts : list Action) : Prop :=
  match acts with [] => True | a :: acts => owned_spawn w a ∧ owned_spawns (step w a) acts end.

Lemma scope_step_inv w a : inv w → owned_spawn w a → inv (step w a).
Proof.
  intros I Ho. destruct a as [t a c|r|r c|r t|r|t|t pk|t o| | | |]; cbn [step].
  - destruct (runtime w !! t) eqn:E; [done|by apply spawn_inv].
  - by apply register_inv.
  - apply (inv_receipts w); [done| |done]. apply kept_insert; [done|done].
  - destruct (runtime w !! t) eqn:E; [done|by apply receipt_spawn_inv].
  - destruct (receipt_request_cancel_kept w r) as (K&E&_). by apply (inv_receipts w).
  - destruct (runtime w !! t) as [[[] []]|] eqn:E; try done. rewrite <-(set_scope_id w).
    by apply (phase_inv w (scope w) t ScopeTask Live Gone).
  - destruct (runtime w !! t) as [[[] []]|] eqn:E; try done. unfold completion_drop.
    apply (phase_inv w _ t ScopeTask Gone Acked); try done. cbn [pending one guarded].
    pose proof (guards_lookup _ _ _ E). pose proof (inv_pending _ I). cbn [guarded one] in *. lia.
  - destruct (runtime w !! t) as [[[] []]|] eqn:E; try done; rewrite <-(set_scope_id w).
    + by apply (phase_inv w (scope w) t ScopeTask Acked (Ended o)).
    + by apply (phase_inv w (scope w) t (StreamTask receipt0) Live (Ended o)).
  - by apply prune_inv.
  - by apply request_cancel_inv.
  - by apply status_inv.
  - by apply reset_inv.
Qed.

Lemma scope_run_inv acts : ∀ w, inv w → owned_spawns w acts → inv (run w acts).
Proof.
  induction acts as [|a acts IH]; intros w I Ho; [done|]. destruct Ho as [Ho Hos]. cbn. apply IH; [by apply scope_step_inv|done].
Qed.

Lemma inv_default : inv World_default.
Proof.
  split; cbn; try done; intros; try (by rewrite lookup_empty in *). by apply elem_of_nil in H.
Qed.

Lemma owned_spawns_app acts later : ∀ w,
  owned_spawns w (acts ++ later) → owned_spawns w acts ∧ owned_spawns (run w acts) later.
Proof.
  induction acts as [|a acts IH]; intros w; [done|]. cbn. intros [Ho H]. destruct (IH _ H). done.
Qed.

(** When the scope is fenced and every task has ended, only a reset lets a task start. *)
Lemma stopped_step w a :
  inv w → fenced (scope w) = true → (∀ t o p, runtime w !! t = Some (o, p) → ended p = true) → owned_spawn w a → a ≠ Reset →
  runtime (step w a) = runtime w ∧ fenced (scope (step w a)) = true.
Proof.
  intros I Hf Ha Ho Hr. destruct a as [t a c|r|r c|r t|r|t|t pk|t o| | | |]; cbn [step]; [|  |done| | | | | | | | |done].
  - destruct (runtime w !! t); [done|]. unfold spawn. by rewrite Hf.
  - unfold register_stream. rewrite Hf. destruct (receipt_request_cancel_kept w r) as (K&->&_). by rewrite (kept_runtime _ _ K).
  - destruct (runtime w !! t); [done|]. unfold receipt_spawn. by rewrite (inv_fenced _ I Hf r Ho).
  - destruct (receipt_request_cancel_kept w r) as (K&->&_). by rewrite (kept_runtime _ _ K).
  - destruct (runtime w !! t) as [[[] p]|] eqn:E; [|done..]. by specialize (Ha _ _ _ E); destruct p.
  - destruct (runtime w !! t) as [[[] p]|] eqn:E; [|done..]. by specialize (Ha _ _ _ E); destruct p.
  - destruct (runtime w !! t) as [[[] p]|] eqn:E; [| |done]; by specialize (Ha _ _ _ E); destruct p.
  - destruct (prune_settled_spec w) as [H ->]. by rewrite (same_runtime _ _ H).
  - unfold request_cancel. set (w1 := set_scope w _). destruct (cancel_all_kept (streams (scope w)) w1) as (K&E&_).
    cbn [runtime scope abort]. rewrite E, (kept_runtime _ _ K). done.
  - destruct (status_spec w) as (H&->&_). by rewrite (same_runtime _ _ H).
Qed.

Lemma stopped_run acts : ∀ w,
  inv w → fenced (scope w) = true → (∀ t o p, runtime w !! t = Some (o, p) → ended p = true) → owned_spawns w acts → Reset ∉ acts →
  runtime (run w acts) = runtime w.
Proof.
  induction acts as [|a acts IH]; intros w I Hf Ha Ho Hr; [done|]. destruct Ho as [Ho Hos].
  apply not_elem_of_cons in Hr as [Hr Hrs]. destruct (stopped_step w a I Hf Ha Ho (not_eq_sym Hr)) as [E Hf'].
  cbn. rewrite <-E. apply IH; [by apply scope_step_inv|done| |done|done]. by rewrite E.
Qed.

(** C18: What the scope reports as settled has really stopped, as long as a task of a stream is
    only started under a receipt that the scope still owns ([owned_spawns]: the receipt was
    registered and not yet released by a pruning).  After any such interleaving of tools,
    streams, cancellations and pruning, tools are settled exactly when the scope is fenced,
    none panicked and every task of a tool was ended by the runtime; once the model is
    settled too, every task of a stream has ended, and until the scope is reset no such
    action starts another.  Without the proviso it is false: see [pruned_receipt_escapes]. *)
Theorem settled_means_stopped acts later :
  owned_spawns World_default (acts ++ later) → Reset ∉ later →
  let w := run World_default acts in
  (tools_settled (status w).2 = true ↔
     fenced (scope w) = true ∧ failed (scope w) = false ∧ ∀ t p, runtime w !! t = Some (ScopeTask, p) → ended p = true) ∧
  (model_settled (status w).2 = true →
     (∀ t o p, runtime w !! t = Some (o, p) → ended p = true) ∧ runtime (run w later) = runtime w).
Proof.
  intros [Ho Hl]%owned_spawns_app Hr w. assert (inv w) as I by exact (scope_run_inv acts _ inv_default Ho).
  rewrite (proj2 (proj2 (status_spec w))). split; [by apply tools_settled_spec|]. intros Hm.
  destruct (model_settled_ended w I Hm) as [Hf Ha]. split; [done|]. by apply stopped_run.
Qed.

(** C24: Releasing what has ended is invisible: at any point of an interleaving in which tasks of
    streams are started under receipts that the scope owns, the status after [prune_settled]
    is the status before it. *)
Theorem prune_invisible acts :
  owned_spawns World_default acts →
  (status (prune_settled (run World_default acts))).2 = (status (run World_default acts)).2.
Proof. intros Ho. by apply prune_keeps_status, scope_run_inv; [apply inv_default|]. Qed.

(** ** A run *)

(** A tool and a stream run, and a pruning keeps both; both are stopped, and what comes later
    is refused. *)
Definition demo_acts : list Action :=
  [Spawn 1 true true; RegisterStream 7; OpenStream 7 true; StreamSpawn 7 2; StreamSpawn 7 3; Publish 3 Completed; Prune; RequestCancel;
   DropFuture 1; DropGuard 1 false; Publish 1 Cancelled; Publish 2 Cancelled].
Definition demo_later : list Action := [Spawn 4 false true; StreamSpawn 7 5; RegisterStream 8; OpenStream 8 true; Status; CancelReceipt 7].

Lemma demo_owned : owned_spawns World_default (demo_acts ++ demo_later).
Proof. vm_compute. repeat split; left. Qed.
Lemma demo_owned_acts : owned_spawns World_default demo_acts.
Proof. vm_compute. repeat split; left. Qed.
Lemma demo_no_reset : Reset ∉ demo_later.
Proof. unfold demo_later. rewrite !not_elem_of_cons. repeat split; try done. apply not_elem_of_nil. Qed.
Lemma demo_settled : model_settled (status (run World_default demo_acts)).2 = true.
Proof. vm_compute. reflexivity. Qed.

Lemma settled_means_stopped_witness :
  runtime (run (run World_default demo_acts) demo_later) = runtime (run World_default demo_acts).
Proof. exact (proj2 (proj2 (settled_means_stopped demo_acts demo_later demo_owned demo_no_reset) demo_settled)). Defined.

Lemma prune_invisible_witness :
  (status (prune_settled (run World_default demo_acts))).2 = (status (run World_default demo_acts)).2.
Proof. exact (prune_invisible demo_acts demo_owned_acts). Defined.

(** A receipt released between two tasks of its stream still admits the second, which the
    scope then neither stops nor waits for: it reports everything settled while the task
    runs. *)
Example pruned_receipt_escapes :
  let w := run World_default [RegisterStream 7; OpenStream 7 true; StreamSpawn 7 1; Publish 1 Completed; Prune; StreamSpawn 7 2; RequestCancel] in
  model_settled (status w).2 = true ∧ runtime w !! 2 = Some (StreamTask 7, Live) ∧ 2 ∉ aborted w.
Proof. split; [vm_compute; reflexivity|]. split; [vm_compute; reflexivity|]. vm_compute. by intros H. Qed.

(** A receipt released before its stream is opened leaves the scope without support for
    settling, for good. *)
Example unopened_receipt_released :
  let w := run World_default [RegisterStream 7; Prune; OpenStream 7 true; RequestCancel] in
  supported (status w).2 = false ∧ (reset_after_settlement w).2 = false.
Proof. by vm_compute. Qed.
