(* ===== verification/AgentScript.v ===== *)
(** * The agent loop: scripted runs

    A host that plays back a script: the answers of the token, the provider's
    events and results, the moves of the tools and the order in which concurrent
    calls are polled.  The witnesses run the loop of [AgentLoop] and the agent of
    [Agent] on it. *)
From stdpp Require Import base list numbers gmap strings.
From S2P Require Import Prelude RustStr Watchdog AgentTypes AgentMonad ToolCalls StreamResponse AgentLoop AgentFuel AgentTermination Agent TransformMessages Requests.

#[export] Instance script_values : Externals := {|
  Value := N; Map := N; Object := λ m, m; as_object := Some; map_new := 0%N;
  map_singleton := λ _ v, v; value_eqb := N.eqb; Image := unit; Usage := N; usage_zero := 0%N;
  CheckpointBody := unit; CustomBody := str; Diagnostic := str;
  stall_diagnostic := λ e _ _ _ _ _, e; truncated_diagnostic := λ e _ _, e;
  capture_diagnostic := λ e, e; lifecycle_diagnostic := λ e, e |}.

Record Script : Type := mkScript {
  polls : list bool;
  nexts : list WatchdogNext;
  responses : list AssistantMessage;
  moves : list ToolStep;
  picks : list nat;
  steering : list (list AgentMessage);
  requests : nat }.

Definition pop {A} (d : A) (l : list A) : A * list A :=
  match l with [] => (d, []) | a :: l' => (a, l') end.

Definition empty_reply : AssistantMessage := assistant_new [] [] [] 0.

#[export] Instance script_host : Host Script := {|
  ILease := Empty_set; SLease := Empty_set;
  ilease_state := λ _ l, match l with end; slease_state := λ _ l, match l with end;
  cancel_ilease := λ _ w, w; cancel_slease := λ _ w, w;
  poll_cancel := λ w, let '(b, l) := pop false (polls w) in
    (b, mkScript l (nexts w) (responses w) (moves w) (picks w) (steering w) (requests w));
  poll_provider_cancel := λ w, (false, w);
  sink := λ _ w, (Ok (), w);
  now_ms := λ w, (0%Z, w);
  register_stream := λ w, (Ok (), w); spawn_stream := λ w, (Ok (), w);
  spawn_tool := λ _ _ _ w, (Ok (), w);
  stream_fn := λ _ _ w,
    match requests w with
    | O => (Some (Err (lit "no more requests")), w)
    | S n => (Some (Ok ()), mkScript (polls w) (nexts w) (responses w) (moves w) (picks w) (steering w) n)
    end;
  watchdog_config := λ w, (from_env_values None None, w);
  deadline_passed := λ w, (false, w);
  next_event := λ w, let '(e, l) := pop (WEvent None) (nexts w) in
    (e, mkScript (polls w) l (responses w) (moves w) (picks w) (steering w) (requests w));
  stall_elapsed := λ _ w, (0%N, w);
  cancel_response := λ w, w; close_producer := λ w, w;
  stream_result := λ w, let '(m, l) := pop empty_reply (responses w) in
    (Some m, mkScript (polls w) (nexts w) l (moves w) (picks w) (steering w) (requests w));
  retry_truncated := λ w, (false, w);
  validate_tool_arguments := λ _ c, Ok (arguments c);
  tool_step := λ _ w, let '(m, l) := pop (Finishes (Err (lit "gone"))) (moves w) in
    (m, mkScript (polls w) (nexts w) (responses w) l (picks w) (steering w) (requests w));
  pick_future := λ w, let '(i, l) := pop O (picks w) in
    (i, mkScript (polls w) (nexts w) (responses w) (moves w) l (steering w) (requests w)) |}.

Definition script_config : AgentLoopConfig Script Empty_set Empty_set :=
  mkConfig (lit "api") (lit "provider") (lit "model") None None None false 1 None None None None None
    None None None None
    (Some (λ w, let '(l, rest) := pop [] (steering w) in
       (Some l, mkScript (polls w) (nexts w) (responses w) (moves w) (picks w) rest (requests w))))
    None None None None None.

(** ** A run of two turns

    The model asks for two calls of the same tool, the second of which finishes
    first; then it answers. *)

Definition read_tool : AgentTool := mkTool (lit "read") [] 0%N None None.
Definition user (s : str) : AgentMessage := LlmMessage (User (mkUser (UText s) None 0)).
Definition call (id : str) : ToolCall := mkCall id (lit "read") 1%N None.
Definition said (c : list ContentBlock) : AssistantMessage :=
  mkAssistant c [] [] [] None None None 0%N (lit "stop") None None 0.
Definition ok_result (s : str) : AgentToolResult := mkResult [RText (text_new s)] 0%N None None.

Definition asks : AssistantMessage :=
  said [Text (text_new (lit "hm")); ToolCallBlock (call (lit "a")); ToolCallBlock (call (lit "b"))].
Definition answer : AssistantMessage := said [Text (text_new (lit "done"))].

Definition two_turns : Script :=
  mkScript [] [WEvent (Some (Start (said []))); WEvent (Some (TextDelta 0 (lit "hm") (said [])));
               WEvent (Some (Done (lit "toolUse") asks)); WEvent (Some (Done (lit "stop") answer))]
    [asks; answer]
    [Publishes (ok_result (lit "half")); DrainEmits; Finishes (Ok (ok_result (lit "B"))); Finishes (Ok (ok_result (lit "A")))]
    [1; 1; 1; 1; 0; 0; 1; 1; 1; 0; 0; 0]%nat [] 2.

Definition demo_context (ms : list AgentMessage) : AgentContext := mkContext [] ms (Some [read_tool]).

Definition demo_run : outcome (list AgentMessage) * St Script :=
  run_agent_loop script_config 40 [user (lit "hi")] (demo_context []) two_turns.

Lemma script_sink_ok (e : AgentEvent) (w : Script) : (sink Script e w).1 = Ok ().
Proof. done. Qed.
Lemma script_sink (e : AgentEvent) (w : Script) : (sink Script e w).1 ≠ Err ABORT_ERROR_MESSAGE.
Proof. done. Qed.

Definition result_for (id s : str) : ToolResultMessage :=
  mkToolResult id (lit "read") [RText (text_new s)] (Some 0%N) false 0.

Definition demo_messages : list AgentMessage :=
  [user (lit "hi"); of_assistant asks; of_result (result_for (lit "a") (lit "A"));
   of_result (result_for (lit "b") (lit "B")); of_assistant answer].

Lemma demo_run_returns :
  run_agent_loop script_config 40 [user (lit "hi")] (demo_context []) two_turns
  = (Returned demo_messages, demo_run.2).
Proof. vm_compute. reflexivity. Qed.

Lemma run_answers_every_call_witness :
  ∃ ts, demo_messages = [user (lit "hi")] ++ concat (map turn_messages ts)
    ∧ supplied (trace demo_run.2) ++ newly_supplied demo_run.2 = [user (lit "hi")] ++ concat (map inputs ts)
    ∧ ∀ t, t ∈ ts → NoDup (map tc_id (message_tool_calls (reply t))) →
        map result_key (results t) = map call_key (message_tool_calls (reply t)).
Proof.
  exact (run_answers_every_call script_config 40 [user (lit "hi")] (demo_context []) two_turns
           demo_messages demo_run.2 script_sink demo_run_returns).
Defined.

Lemma run_announces_messages_witness :
  marks (trace demo_run.2) = map EndOf demo_messages ++ [EndOfRun demo_messages]
  ∧ new_messages demo_run.2 = demo_messages.
Proof.
  exact (run_announces_messages script_config 40 [user (lit "hi")] (demo_context []) two_turns
           demo_messages demo_run.2 script_sink demo_run_returns).
Defined.

(** A run whose token is cancelled while the provider is streaming. *)
Definition cancelled_script : Script :=
  mkScript [false; false; false; false; false; false; false; false; false; true]
    [WEvent (Some (Start (said []))); WEvent (Some (TextDelta 0 (lit "h") (said [])))] [] [] [] [] 1.

Lemma run_respects_cancellation_witness :
  (run_agent_loop script_config 40 [user (lit "hi")] (demo_context []) cancelled_script).1 ≠ OutOfFuel
  ∧ Forall safe (trace (run_agent_loop script_config 40 [user (lit "hi")] (demo_context []) cancelled_script).2).
Proof.
  split; [vm_compute; discriminate|].
  exact (run_respects_cancellation script_config 40 [user (lit "hi")] (demo_context []) cancelled_script script_sink).
Defined.

Lemma run_fuel_irrelevant_witness :
  run_agent_loop script_config 41 [user (lit "hi")] (demo_context []) two_turns = demo_run
  ∧ demo_run.1 = Returned demo_messages.
Proof.
  split; [|vm_compute; reflexivity].
  apply (run_fuel_irrelevant (W := Script) (H := script_host) script_config 40 41); [lia|].
  vm_compute. discriminate.
Defined.

(** The messages of the demo, sent to another model. *)
Definition other_model : Model := mkModel (lit "m") (lit "api") (lit "p") [] [InputText] None.

Lemma demo_supplied :
  Forall is_user (supplied (trace demo_run.2) ++ newly_supplied demo_run.2)
  ∧ NoDup (all_call_ids (llm_messages_of demo_messages))
  ∧ Forall (no_foreign_checkpoint other_model) (llm_messages_of demo_messages).
Proof.
  split; [|split].
  - vm_compute. repeat constructor. eexists. reflexivity.
  - apply (bool_decide_unpack _). vm_compute. exact I.
  - vm_compute. repeat constructor. discriminate.
Qed.

Lemma run_request_valid_witness :
  ∃ ts out, demo_messages = [user (lit "hi")] ++ concat (map turn_messages ts)
    ∧ try_transform_messages (λ _, 0%Z) (llm_messages_of demo_messages) other_model None = Ok out
    ∧ paired out
    ∧ Forall2 carried (downgrade_unsupported_images
        (llm_messages_of [user (lit "hi")] ++ concat (map kept_turn ts)) other_model) out.
Proof.
  destruct demo_supplied as (Hu & Hnd & Hck).
  exact (run_request_valid script_config 40 [user (lit "hi")] (demo_context []) two_turns demo_messages
           demo_run.2 (λ _, 0%Z) other_model None script_sink demo_run_returns Hu Hnd Hck).
Defined.

(** What a script still has to offer. *)
Definition script_left (w : Script) : nat := (requests w + length (nexts w) + length (moves w))%nat.

Lemma script_finite : finite_host script_config script_left.
Proof.
  unfold script_left. constructor; unfold tame, tame_hook; simpl; try done; try lia.
  all: repeat (intros [po ne re mo pi ste rq] || intros ?); simplify_eq; simpl in *.
  - destruct ne; simpl; [by left|right; lia].
  - destruct mo; simpl; [left; eauto|right; lia].
  - destruct rq; [done|]. simpl. lia.
  - destruct ne; simpl; lia.
  - destruct mo; simpl; lia.
  - destruct rq; simpl; lia.
  - destruct po; simpl; lia.
  - destruct re; simpl; lia.
  - destruct pi; simpl; lia.
  - destruct ste; simpl; lia.
Qed.

Lemma run_terminates_witness :
  ∃ n, (run_agent_loop script_config n [user (lit "hi")] (demo_context []) two_turns).1 ≠ OutOfFuel
    ∧ ∀ n', (n ≤ n')%nat →
        run_agent_loop script_config n' [user (lit "hi")] (demo_context []) two_turns
        = run_agent_loop script_config n [user (lit "hi")] (demo_context []) two_turns.
Proof.
  exact (run_terminates script_config script_left [user (lit "hi")] (demo_context []) two_turns script_finite).
Defined.

(** One call that publishes two partial results and finishes. *)
Definition one_call : PreparedToolCall := mkPrepared (call (lit "a")) read_tool 1%N.
Definition publishing : St Script :=
  mkSt (mkScript [] [] []
          [Publishes (ok_result (lit "1")); Publishes (ok_result (lit "2")); DrainEmits;
           Finishes (Ok (ok_result (lit "A")))] [] [] 0)
    false [] [] [] false [].

Lemma updates_delivered_in_order_witness :
  ∃ new lost, trace (execute_prepared_tool_call script_config 9 one_call publishing).2 = [] ++ new
    ∧ updates new ++ lost = published new
    ∧ (cancelled (execute_prepared_tool_call script_config 9 one_call publishing).2 = false → lost = []).
Proof.
  apply (updates_delivered_in_order (H := script_host) script_config 9 one_call publishing (ok_result (lit "A"), false));
    [exact script_sink_ok|]. vm_compute. reflexivity.
Defined.

(** A configuration with a hook after tool calls. *)
Definition hooked_config : AgentLoopConfig Script Empty_set Empty_set :=
  mkConfig [] [] [] None None None false 1 None None None None None None None None None None None None
    None None (Some (λ _ _ _ _ _ _ w, (Some (Ok None), w))).

Lemma cancelled_after_hook_overwrites_result_witness :
  let st := mkSt (mkScript [] [] [] [] [] [] 0) true [] [] [] false [] in
  finalize_executed_tool_call hooked_config [] None empty_reply one_call (ok_result (lit "A"), false) st
  = (Returned (mkFinalized (call (lit "a")) (create_error_tool_result ABORT_ERROR_MESSAGE) true), st).
Proof.
  intros st.
  exact (cancelled_after_hook_overwrites_result (H := script_host) hooked_config [] None empty_reply one_call
           (ok_result (lit "A"), false) _ st eq_refl eq_refl).
Defined.

(** ** The agent *)

Definition idle_state (ms : list AgentMessage) : AgentState :=
  mkState [] [] [] [] (Some [read_tool]) ms false None ∅ None.
Definition idle_agent (ms : list AgentMessage) : Agent :=
  mkAgent (idle_state ms) (queue_new OneAtATime) (queue_new OneAtATime) None.

Lemma lifecycle_settles_witness :
  let m := user (lit "hi") in
  ∃ a', run_with_lifecycle (lit "g") [AgentStart; MessageStart m; MessageEnd m] (Err (lit "boom")) true 7
          (idle_agent []) = Some (Ok (), a')
    ∧ idle a' ∧ steering_queue a' = queue_new OneAtATime ∧ follow_up_queue a' = queue_new OneAtATime
    ∧ messages (state a') = [m; of_assistant (failure_message (lit "boom") true 7 (idle_state []))].
Proof.
  intros m.
  exact (lifecycle_settles (lit "g") [AgentStart; MessageStart m; MessageEnd m] (Err (lit "boom")) true 7
           (idle_agent []) eq_refl).
Defined.

Lemma transcript_matches_run_witness :
  ∃ a', run_with_lifecycle (lit "g") (emitted (trace demo_run.2)) (Ok ()) false 0 (idle_agent []) = Some (Ok (), a')
    ∧ idle a' ∧ messages (state a') = demo_messages.
Proof.
  apply (transcript_matches_run (H := script_host) script_config 40 [user (lit "hi")] two_turns demo_messages demo_run.2
           (lit "g") false 0 (idle_agent []) script_sink eq_refl).
  exact demo_run_returns.
Defined.

Lemma continue_starts_valid_run_witness :
  let a := follow_up [user (lit "next")] (steer [user (lit "now")] (idle_agent [of_assistant answer])) in
  continue_ (λ _, []) a = (Ok (RunPrompts [user (lit "now")] true),
    follow_up [user (lit "next")] (idle_agent [of_assistant answer]))
  ∧ [user (lit "now")] ++ concat (batches (steering_queue (idle_agent [])))
    = concat (batches (steering_queue a)).
Proof.
  intros a. split; [reflexivity|].
  refine (proj1 (proj2 (proj2 (continue_starts_valid_run (λ _, []) a _ _)))); repeat constructor; discriminate.
Defined.

Lemma steer_active_exactly_once_witness :
  let ops := [Steered (lit "g") (lit "1") (user (lit "x")); Steered (lit "g") (lit "1") (user (lit "y"));
              Polled; Steered (lit "g") (lit "2") (user (lit "z"))] in
  run_ops ops (begin_run (lit "g") (idle_agent []))
    = ([(lit "1", user (lit "x")); (lit "2", user (lit "z"))], [user (lit "x")],
       (run_ops ops (begin_run (lit "g") (idle_agent []))).2)
  ∧ NoDup [lit "1"; lit "2"].
Proof.
  intros ops. split; [vm_compute; reflexivity|].
  exact (proj1 (steer_active_exactly_once ops (lit "g") (idle_agent []) eq_refl)).
Defined.
