(* ===== verification/SessionScript.v ===== *)
(** * The session manager: examples

    A session of eight entries with two branches, a label and a compaction, on which the
    theorems of [SessionIndex] and [SessionContext] are instantiated. *)
From stdpp Require Import base list numbers sorting strings.
From S2P Require Import Prelude RustStr AgentTypes TransformMessages SessionIndex SessionContext SessionFork CompactionCut SessionStore AgentScript.

Local Open Scope nat_scope.

Definition said_by (role text : str) : Body :=
  MessageEntry (mkStored role (lit "anthropic") (lit "m1") (Some (user text))).

Definition compaction_from (id : str) : Body :=
  CompactionEntry (mkCompaction (lit "what happened") id 100%N NoCheckpoint None None).

(** Three messages, a compaction that keeps the last two of them, one message more; then a
    branch from the second message, and a label. *)
Definition demo_ops : list op :=
  [Append (lit "m1") 1 (said_by (lit "user") (lit "one"));
   Append (lit "m2") 2 (said_by (lit "assistant") (lit "two"));
   Append (lit "m3") 3 (said_by (lit "user") (lit "three"));
   Append (lit "c1") 4 (compaction_from (lit "m2"));
   Append (lit "m4") 5 (said_by (lit "assistant") (lit "four"))].

Definition demo_ops2 : list op :=
  [Branch (lit "m2"); Branch (lit "gone");
   Append (lit "b1") 6 (said_by (lit "user") (lit "other"));
   AppendLabel (lit "l1") 7 (lit "m2") (Some (lit "here"));
   BranchWithSummary (lit "s1") 8 (Some (lit "m1")) (lit "left off")].

Definition demo_start : Index := fresh_session (lit "header") 0.
Definition demo_session : Index := default demo_start (run_ops demo_ops demo_start).
Definition demo_later : Index := default demo_session (run_ops demo_ops2 demo_session).

Lemma demo_session_runs : run_ops demo_ops demo_start = Some demo_session.
Proof. vm_compute. reflexivity. Qed.
Lemma demo_later_runs : run_ops demo_ops2 demo_session = Some demo_later.
Proof. vm_compute. reflexivity. Qed.

Definition demo_entry (id : str) : SessionEntry :=
  default (mkEntry [] None 0 SessionHeader) (im_get id (by_id demo_later)).

Lemma branch_is_ancestry_witness :
  let path := get_branch (Some (lit "m4")) demo_session in
  map entry_id path = [lit "m1"; lit "m2"; lit "m3"; lit "c1"; lit "m4"] ∧
  last path = Some (demo_entry (lit "m4")) ∧ ascends (rev path) ∧
  StronglySorted (flip (older (get_entries demo_session))) (rev path) ∧
  length path ≤ length (by_id demo_session) ∧ ∀ a, head path = Some a → entry_parent_id a = None.
Proof.
  split; [vm_compute; reflexivity|].
  apply (branch_is_ancestry (lit "header") 0 demo_ops demo_session (lit "m4") (demo_entry (lit "m4")));
    [apply demo_session_runs|vm_compute; reflexivity].
Defined.

Lemma history_immutable_witness :
  get_branch (Some (lit "m4")) demo_later = get_branch (Some (lit "m4")) demo_session ∧
  (∃ l, build_index (file_entries demo_later) =
     mkIndex (file_entries demo_later) (by_id demo_later) (labels_by_id demo_later) (label_timestamps_by_id demo_later) l) ∧
  get_branch (Some (lit "m4")) (build_index (file_entries demo_later)) = get_branch (Some (lit "m4")) demo_session.
Proof.
  apply (history_immutable (lit "header") 0 demo_ops demo_session demo_ops2 demo_later (lit "m4") (demo_entry (lit "m4")));
    [apply demo_session_runs|apply demo_later_runs|vm_compute; reflexivity].
Defined.

(** Eight entries, and the view shows one. *)
Lemma get_tree_only_roots_witness :
  length (get_entries demo_later) = 8 ∧
  get_tree demo_later = map (λ e, TreeNode (flat_of demo_later e) []) (List.filter is_root (get_entries demo_later)) ∧
  map tree_id (get_tree demo_later) = [lit "m1"].
Proof.
  split; [vm_compute; reflexivity|]. split; [|vm_compute; reflexivity].
  apply (get_tree_only_roots (lit "header") 0 (demo_ops ++ demo_ops2) demo_later). vm_compute. reflexivity.
Defined.

Definition demo_target : Model := mkModel (lit "m1") (lit "api") (lit "anthropic") (lit "url") [] None.

Abbreviation demo_history := (build_session_history (λ _, None) (λ _, 0%Z)).

(** The transcript of the compacted branch: the two messages kept, the summary, the rest. *)
Lemma history_presents_branch_witness :
  let path := get_branch (Some (lit "m4")) demo_session in
  let c := build_session_context_with_entry_ids (file_entries demo_session) (Some (Some (lit "m4")))
             (Some (by_id demo_session)) (Some demo_target) in
  entry_ids c = [lit "c1"; lit "m2"; lit "m3"; lit "m4"] ∧
  ∃ h, demo_history (Some (lit "m4")) (Some demo_target) demo_session = Ok h ∧ tip_entry_id h = Some (lit "m4") ∧
    presents path (checkpoint_target (Some demo_target) (model c)) c h ∧
    h_entry_ids h `sublist_of` map entry_id path ∧ NoDup (h_entry_ids h) ∧
    length (h_messages h) = length (h_entry_ids h).
Proof.
  split; [vm_compute; reflexivity|].
  apply (history_presents_branch (λ _, None) (λ _, 0%Z) (lit "header") 0 demo_ops demo_session (lit "m4")
           (demo_entry (lit "m4")) (Some demo_target));
    [apply demo_session_runs|vm_compute; reflexivity|].
  vm_compute. repeat constructor.
Defined.

(** ** Forks *)

Definition fork_header : SessionEntry := mkEntry (lit "fork") None 9 SessionHeader.

Lemma demo_all_runs : run_ops (demo_ops ++ demo_ops2) demo_start = Some demo_later.
Proof. vm_compute. reflexivity. Qed.

Lemma demo_fork_args : fork_args fork_header [lit "n1"] (lit "m4") demo_later.
Proof.
  split; [done|]. split; [apply NoDup_singleton|]. split; [vm_compute; reflexivity|].
  constructor; [|constructor]. change (lit "n1" ∉ map entry_id (List.filter (λ e, negb (is_label e)) (get_branch (Some (lit "m4")) demo_later))).
  intros Hin%list_elem_of_In. vm_compute in Hin. intuition discriminate.
Qed.

Lemma fork_keeps_context_witness :
  let main := get_branch (Some (lit "m4")) demo_later in
  ∃ s', create_branched_session fork_header [lit "n1"] (lit "m4") demo_later = Ok s' ∧
    get_branch None s' = main ++ label_entries [lit "n1"] (entry_id <$> last main) (labels_to_write (map entry_id main) demo_later) ∧
    labels_by_id s' = List.filter (λ p, existsb (str_eqb p.1) (map entry_id main)) (labels_by_id demo_later) ∧
    session_context s' (Some demo_target) =
      build_session_context_with_entry_ids (file_entries demo_later) (Some (Some (lit "m4"))) (Some (by_id demo_later)) (Some demo_target).
Proof.
  apply (fork_keeps_context (lit "header") 0 (demo_ops ++ demo_ops2) demo_later (lit "m4") (demo_entry (lit "m4"))
           fork_header [lit "n1"] (get_branch (Some (lit "m4")) demo_later) []).
  - apply demo_all_runs.
  - vm_compute. reflexivity.
  - apply demo_fork_args.
  - by rewrite app_nil_r.
  - vm_compute. discriminate.
  - vm_compute. repeat constructor.
  - constructor.
Defined.

(** A message, a label on it, and another message: the fork knows only the last one. *)
Definition labelled_ops : list op :=
  [Append (lit "m1") 1 (said_by (lit "user") (lit "one"));
   AppendLabel (lit "l1") 2 (lit "m1") (Some (lit "here"));
   Append (lit "m2") 3 (said_by (lit "assistant") (lit "two"))].

Definition labelled : Index := default demo_start (run_ops labelled_ops demo_start).
Definition labelled_entry (id : str) : SessionEntry :=
  default (mkEntry [] None 0 SessionHeader) (im_get id (by_id labelled)).

Lemma labelled_fork_args : fork_args fork_header [lit "n1"] (lit "m2") labelled.
Proof.
  split; [done|]. split; [apply NoDup_singleton|]. split; [vm_compute; reflexivity|].
  constructor; [|constructor]. change (lit "n1" ∉ map entry_id (List.filter (λ e, negb (is_label e)) (get_branch (Some (lit "m2")) labelled))).
  intros Hin%list_elem_of_In. vm_compute in Hin. intuition discriminate.
Qed.

Lemma fork_loses_history_witness :
  let m2 := labelled_entry (lit "m2") in
  length (get_branch (Some (lit "m2")) labelled) = 3 ∧
  ∃ s', create_branched_session fork_header [lit "n1"] (lit "m2") labelled = Ok s' ∧
    (∃ added, Forall (λ e, is_label e = true) added ∧ get_branch None s' = [m2] ++ added) ∧
    session_context s' None = context_of_path None [m2].
Proof.
  split; [vm_compute; reflexivity|].
  apply (fork_loses_history (lit "header") 0 labelled_ops labelled (lit "m2") (labelled_entry (lit "m2"))
           fork_header [lit "n1"] [labelled_entry (lit "m1")] (labelled_entry (lit "l1")) [labelled_entry (lit "m2")] []).
  - vm_compute. reflexivity.
  - vm_compute. reflexivity.
  - apply labelled_fork_args.
  - vm_compute. reflexivity.
  - reflexivity.
  - change (entry_id (labelled_entry (lit "l1"))) with (lit "l1"). intros Hin%list_elem_of_In.
    vm_compute in Hin. intuition discriminate.
  - discriminate.
  - repeat constructor.
  - constructor.
Defined.

(** ** Files

    A format for five entries: the id in braces. *)

Definition file_header : SessionEntry := mkEntry (lit "s") None 0 SessionHeader.
Definition file_entry (id : str) (parent : option str) (role : str) : SessionEntry :=
  mkEntry id parent 1 (said_by role id).

Definition file_known : list SessionEntry :=
  [file_header; file_entry (lit "m1") None (lit "user"); file_entry (lit "m2") (Some (lit "m1")) (lit "assistant");
   file_entry (lit "m3") (Some (lit "m2")) (lit "user"); file_entry (lit "m4") (Some (lit "m3")) (lit "assistant")].

Definition braced (e : SessionEntry) : list N := lit "{" ++ entry_id e ++ lit "}".

Definition read_braced (l : list N) : option (option SessionEntry) :=
  match List.filter (λ e, str_eqb (braced e) l) file_known with e :: _ => Some (Some e) | [] => None end.

Definition known_ok (e : SessionEntry) : bool :=
  negb (is_empty (braced e)) && forallb (λ b, negb (N.eqb b 10) && negb (N.eqb b 0)) (braced e) &&
  forallb (λ n, match read_braced (take n (braced e)) with None => true | _ => false end) (seq 0 (length (braced e))).

Lemma known_checked e : e ∈ file_known → known_ok e = true ∧ read_braced (braced e) = Some (Some e).
Proof.
  intros He%list_elem_of_In. unfold file_known in He. simpl in He.
  repeat (destruct He as [<-|He]; [split; vm_compute; reflexivity|]). done.
Qed.

Lemma known_parts e : e ∈ file_known →
  braced e ≠ [] ∧ Forall (λ b, b ≠ 10%N ∧ b ≠ 0%N) (braced e) ∧
  ∀ p, p `prefix_of` braced e → p ≠ braced e → read_braced p = None.
Proof.
  intros He. destruct (known_checked e He) as [H _]. unfold known_ok in H. apply andb_true_iff in H as [H Hp].
  apply andb_true_iff in H as [Hn Hc]. split; [by destruct (braced e)|]. split.
  - apply Forall_forall. intros b Hb%list_elem_of_In. rewrite forallb_forall in Hc. specialize (Hc b Hb).
    apply andb_true_iff in Hc as [H1 H2]. apply negb_true_iff, N.eqb_neq in H1, H2. done.
  - intros p [r Hr] Hne. rewrite forallb_forall in Hp. specialize (Hp (length p)).
    rewrite Hr in Hp at 2. rewrite take_app_length in Hp.
    destruct (read_braced p); [|done]. assert (false = true); [|done]. apply Hp, in_seq. rewrite Hr, length_app.
    destruct r; [by rewrite app_nil_r in Hr|simpl; lia].
Qed.

#[export] Instance braced_format : SessionFormat := {|
  line := braced; json := read_braced; lossy := λ l, l; storable := λ e, e ∈ file_known;
  line_nonempty := λ e H, proj1 (known_parts e H);
  line_chars := λ e H, proj1 (proj2 (known_parts e H));
  line_json := λ e H, proj2 (known_checked e H);
  line_prefix := λ e p H, proj2 (proj2 (known_parts e H)) p;
  line_lossy := λ e H, eq_refl;
  set_usage := λ m _, m; child_usage := λ _, None |}.

(** The first write succeeds; of the second, in the background, three bytes arrive; then
    the disk is well. *)
Definition file_ops : list sop :=
  [SAppend (lit "m1") 1 (said_by (lit "user") (lit "m1")); SAppend (lit "m2") 1 (said_by (lit "assistant") (lit "m2"))].
Definition file_ops2 : list sop := [SAppend (lit "m3") 1 (said_by (lit "user") (lit "m3")); STick true].

Definition file_start : Store := new_session false file_header [Written; Torn 3 (lit "disk full")].
Definition file_mid : Store := (flush_now (run file_ops file_start)).2.
Definition file_end : Store := run file_ops2 file_mid.

Lemma flushed_survives_crash_witness :
  (length <$> disk file_end) = Some 17 ∧
  ∃ d w v, disk file_end = Some d ∧ open_entries d = apply_child_usage_attributions w ∧
    entries (run file_ops file_start) `prefix_of` w ∧ w `prefix_of` v ∧
    v ∈ moments file_ops2 file_mid ++ moments file_ops file_start ∧ (flushed file_end = true → v = entries file_end).
Proof.
  split; [vm_compute; reflexivity|].
  apply (flushed_survives_crash false file_header [Written; Torn 3 (lit "disk full")] file_ops file_ops2 file_mid).
  - vm_compute. reflexivity.
  - vm_compute. reflexivity.
  - apply Forall_forall. intros v Hv. apply Forall_forall. intros e He.
    apply list_elem_of_In in Hv, He. apply list_elem_of_In.
    vm_compute in Hv. repeat (destruct Hv as [<-|Hv]; [vm_compute in He |- *; tauto|]). done.
Defined.

(** After the failed flush an append is refused, and the flush after it writes everything. *)
Lemma store_recovers_witness :
  let s := run (file_ops ++ SFlush :: file_ops2) file_start in
  let e := file_entry (lit "m4") (Some (lit "m3")) (lit "assistant") in
  (flush_now s).1 = Err (lit "disk full") ∧ (append_entry e s).1 = Err (lit "disk full") ∧
  ∃ s', flush_now (append_entry e s).2 = (Ok (), s') ∧ entries s' = entries s ++ [e] ∧
    disk s' = Some (file_content (entries s')) ∧ b_bytes (buffer s') = [].
Proof.
  split; [vm_compute; reflexivity|]. split; [vm_compute; reflexivity|].
  apply (store_recovers false file_header [Written; Torn 3 (lit "disk full")] (file_ops ++ SFlush :: file_ops2)
           (file_entry (lit "m4") (Some (lit "m3")) (lit "assistant"))); vm_compute; reflexivity.
Defined.

(** ** Compaction

    Ten tokens a message, a thousand for an injected one. *)

Definition demo_cost (e : CompactionSessionEntry) : option nat :=
  match e with CMessage _ _ => Some 10 | CCustomMessage _ _ _ _ _ _ => Some 1000 | _ => None end.

Abbreviation demo_cut es keep := (find_cut_point nat 0 Nat.add (λ a b, b <=? a) demo_cost es 0 (length es) keep).

Definition reply_with (s : str) : AgentMessage := of_assistant (said [ToolCallBlock (call s)]).
Definition result_of (s : str) : AgentMessage := of_result (result_for s (lit "ok")).

(** A question, a call and its two results; the budget ends between the results. *)
Definition tool_turn : list CompactionSessionEntry :=
  [CMessage (lit "u") (user (lit "q")); CMessage (lit "a") (reply_with (lit "t")); CMessage (lit "r1") (result_of (lit "t"));
   CMessage (lit "r2") (result_of (lit "t"))].

Lemma cut_keeps_results_witness :
  let r := first_kept_entry_index (demo_cut tool_turn 5) in r = 1 ∧ 0 ≤ r < length tool_turn ∧ ¬ (1 < r ≤ 3).
Proof.
  split; [vm_compute; reflexivity|].
  apply (cut_keeps_results nat 0 Nat.add (λ a b, b <=? a) demo_cost tool_turn 0 5 1 3
    (CMessage (lit "a") (reply_with (lit "t"))) (CMessage (lit "r2") (result_of (lit "t")))).
  - lia.
  - lia.
  - reflexivity.
  - reflexivity.
  - by do 2 eexists.
  - reflexivity.
  - intros k Hk. assert (k = 2 ∨ k = 3) as [->| ->] by lia; reflexivity.
Defined.

Definition after_demo : list op := [Append (lit "m5") 10 (said_by (lit "user") (lit "five"))].
Definition demo_compacted : Index := default demo_session (run_ops after_demo demo_session).
Definition demo_path : list CompactionSessionEntry :=
  map (compaction_session_entry_from (X := script_values) (lit "blank")) (get_branch None demo_compacted).
Definition demo_preparation : CompactionPreparation :=
  default (mkPreparation [] [] [] false)
    (prepare_compaction nat 0 Nat.add (λ a b, b <=? a) demo_cost demo_path 15).
Definition demo_body : CompactionBody :=
  mkCompaction (lit "again") (p_first_kept_entry_id demo_preparation) 100%N NoCheckpoint None None.

(** The second compaction of a session begins where the first one kept. *)
Lemma compaction_conserves_witness :
  let e := new_entry (lit "c2") 11 (CompactionEntry demo_body) demo_compacted in
  boundary_start demo_path = 1 ∧ p_first_kept_entry_id demo_preparation = lit "m4" ∧
  ∃ r, boundary_start demo_path ≤ r ∧
    messages (session_context (index_entry e demo_compacted) None) =
      cx_message (summary_of e demo_body (get_branch None demo_compacted))
      :: map cx_message (context_messages (drop r (get_branch None demo_compacted))) ∧
    messages_to_summarize demo_preparation ++ turn_prefix_messages demo_preparation ++ compaction_messages (drop r demo_path) =
      compaction_messages (drop (boundary_start demo_path) demo_path).
Proof.
  split; [vm_compute; reflexivity|]. split; [vm_compute; reflexivity|].
  apply (compaction_conserves (X := script_values) (lit "blank") nat 0 Nat.add (λ a b, b <=? a) demo_cost (lit "header") 0 (demo_ops ++ after_demo)
    demo_compacted 15 demo_preparation (lit "c2") 11 demo_body None); vm_compute; reflexivity.
Defined.

(** A cut before a user's message is reported as one that splits the turn before it, when an
    entry that is not a message stands in between. *)
Fact whole_turn_reported_split :
  let es := [CMessage (lit "u1") (user (lit "q")); CMessage (lit "a1") (of_assistant (said []));
             COther (lit "model"); CMessage (lit "u2") (user (lit "q2"))] in
  demo_cut es 10 = mkCut 2 (Some 0) true.
Proof. vm_compute. reflexivity. Qed.

(** A notice between a call and its result is a cut point: the cut falls on it, and the result
    is kept without the call. *)
Fact notice_separates_result :
  let es := [CMessage (lit "u") (user (lit "q")); CMessage (lit "a") (reply_with (lit "t"));
             CCustomMessage (lit "n") (lit "notice") 0%N true None 0; CMessage (lit "r") (result_of (lit "t"))] in
  first_kept_entry_index (demo_cut es 1) = 2.
Proof. vm_compute. reflexivity. Qed.

(** An injected message before the cut is kept whatever it costs. *)
Fact injected_message_not_counted :
  let es := [CMessage (lit "u1") (user (lit "q")); CMessage (lit "a1") (of_assistant (said []));
             CCustomMessage (lit "big") (lit "memory") 0%N true None 0; CMessage (lit "u2") (user (lit "q2"))] in
  first_kept_entry_index (demo_cut es 10) = 2.
Proof. vm_compute. reflexivity. Qed.
